(* ===== verification/_CoqProject ===== *)
-Q . S2P
Prelude.v
Committee.v
Validator.v
Checkpoint.v
Chain.v
Merkle.v
Rbc.v
RbcNet.v
Vertex.v
Dag.v
DagWalk.v
Schedule.v
Commit.v
Batch.v
Order.v
OrderLog.v
Lockstep.v
Replicas.v
Node.v
NodeFrame.v
Propose.v
Advance.v
Refine.v
Certify.v
Cluster.v
Split.v
Netting.v
Tokens.v
Collateral.v
