(* ===== verification/Prelude.v ===== *)
(** Verification of the consensus and the settlement of the Tenzro network.

    * The program

    Validators of an epoch agree on one order of transactions. Each round,
    every validator proposes a vertex that references a quorum of the round
    before; reliable broadcast delivers one vertex per author and round; the
    delivered vertices form a local DAG; leaders drawn by a schedule are
    committed or skipped by looking at the DAG alone; a committed leader orders
    its causal history, which releases batches of transactions as blocks. Every
    interval a checkpoint over the executed blocks is signed, a quorum of votes
    is a certificate, and a chain of epoch handovers lets a light client verify
    a certificate from the genesis committee.

    Executing a block moves value. The token ledger holds every balance behind
    one rule engine; a split rule divides a settlement's value after the fee;
    plans whose legs are netted become obligations of an asset's batch, covered
    by collateral, which the first block after the batch's epoch nets and pays
    from the debtors' vaults.

    * Files, in the order they build on one another (sources under src/crates)

    - [Prelude]: machine arithmetic, [result], sums, tactics, shared lemmas.
    - [Committee]: tenzro-finality/src/committee.rs ([Committee], [SeatSet], the
      thresholds) and tenzro-consensus/src/committee.rs ([apportion]).
    - [Validator]: tenzro-consensus/src/validator.rs (the validator set, the
      water-filling of weights, [mul_div]) and [from_validator_set].
    - [Checkpoint]: tenzro-finality/src/session.rs, checkpoint.rs and
      tenzro-consensus/src/checkpoint.rs (session book, certificates, the vote
      high-water mark, the vote collector, equivocation evidence).
    - [Chain]: tenzro-finality/src/step.rs and chain.rs (the light client).
    - [Merkle]: tenzro-types/src/merkle.rs.
    - [Rbc]: tenzro-consensus/src/rbc.rs at one validator; [RbcNet]: a committee
      of them, any schedule, pruning, restarts, faulty members.
    - [Vertex], [Dag], [DagWalk]: vertex.rs and dag.rs (structure check, the
      DAG's operations, its walks).
    - [Schedule]: schedule.rs (draws, credit, redraws, export and import).
    - [Commit]: the commit rule of core.rs ([direct], [indirect],
      [decide_slots]).
    - [Batch]: batch.rs (sealing, the release frontier).
    - [Order]: the ordering half of core.rs ([try_commit], [commit],
      checkpoints, segments, garbage collection); [OrderLog]: what it promises.
    - [Lockstep]: cores at the same point of the order ([lock]), and that a
      commit keeps them there; [Replicas]: the runs of two validators on their
      own DAGs.
    - [Node]: the rest of core.rs as one validator's handlers ([on_messages],
      [on_tick], proposing, pacing, votes and certificates, fetching, frontier
      repair, resumption) with nversion.rs and the messages of wire.rs;
      [NodeFrame]: what each handler leaves alone.
    - [Propose], [Advance]: how a node proposes and enters rounds.
    - [Refine]: a node's run refines a replica of [Replicas]; [Certify]:
      certificates across nodes; [Cluster]: nodes of a committee of four that
      exchange messages, on which both are applied.
    - [Split]: tenzro-types/src/split.rs (split rules, fees, [divide],
      [pro_rata]).
    - [Netting]: tenzro-settlement/src/netting.rs (positions, the matching,
      batches, statements).
    - [Tokens]: tenzro-vm/src/token_ledger.rs (the store, the rule engine,
      issuing, moving, freezing).
    - [Collateral]: tenzro-vm/src/native/payment_settlement/netting.rs on the
      three before it, with [funding::move_balance]; the economy module is the
      interface [Economy] with the laws [EconomyLaws].

    * How the code is modelled

    A struct is a record, an enum an inductive type, a function that mutates
    its receiver a function from state to state, and a fallible one returns
    [result] or [option]. u64, u128, rounds, addresses and 32-byte digests are
    [N]; what the source adds unchecked wraps ([wadd64], [wadd128]), as its
    release build does, and saturating and checked operations are written out.
    HashMap and BTreeMap are [gmap]; where the source iterates a hash map it
    sorts, sums or uses the result as a set, and the model follows; a BTreeMap
    is iterated in the order of its keys. BLAKE3, SHA-256, signature
    verification and the receipt verifier of the zkVM are parameters, and with
    them the digests the sources take over an encoding: of vertices, batches,
    checkpoints, sessions and ordering states (the class [Library]), and
    [hash_leaf] and [hash_pair] of merkle.rs. A theorem that needs a digest to
    bind its contents says so in a hypothesis, and its witness instantiates the
    parameter. Rounds one past a slot in the schedule and the commit rule are not
    wrapped at 2^64 (the source's slot after the last round of 64 bits would),
    and the credits of the schedule, of type i64 there, are [Z], within the bound
    of [Schedule]. A round the node enters does wrap ([enter_after]), which is
    why [proposes_once] excludes the last round.

    * What the theorems show

    - Safety of ordering: two validators never deliver different vertices in
      one instance ([rbc_agreement], [rbc_integrity]), hold only delivered or
      vouched vertices ([dag_accepts_only_delivered]) and never decide a leader
      slot differently ([commit_safety]). Whole nodes, handed messages in any
      order, refine replicas that order on their own DAGs ([node_refines]), so
      their logs and the checkpoints they sign are one sequence
      ([nodes_agree]), and the certificates they hold verify and agree
      ([certificates_verify], [certified_agree]). These theorems of nodes are
      under [Refine.NetworkOk]: at most f of the weight is faulty; the broadcast
      delivers one vertex for a round and author; the references of every
      delivered vertex, a faulty author's too, carry the round and author of the
      vertex they name; what honest authors propose and build on is delivered,
      back through every reference. The labels are a real gap: the code does not check them, and one
      mislabelled reference splits decisions (below). They are of nodes that run
      the epoch from its start; what a node that resumes in it orders is not
      shown. A node whose two verifiers disagree halts, and is covered.
    - Progress: a node, resumed or not, proposes once a round
      ([proposes_once]) and enters a later round once a quorum and its pace
      allow it ([quorum_advances]).
    - Accountability and light clients: the high-water mark never grants two
      digests for an index where indices count on across epochs
      ([never_signs_two]); conflicting certificates
      convict more than f seats ([conflicting_certificates_accountable]); light
      clients accept only what a real quorum stands behind, and the same
      ([light_client_sound], [light_client_agreement]).
    - The ordered log and the signed chain of one validator over any
      interleaving ([ordered_log], [signed_chain]), the cut of commits into
      blocks, each batch sequence released once.
    - Invariants of the DAG, the session book and the schedule; the walks
      against the relations they compute; fairness of the draws; exact
      apportionment and capped weights; round trips of the encodings.
    - Settlement: a value is divided to the unit ([apply_conserves],
      [pro_rata_spec]); netting settles every position with the least value and
      whatever the order of the obligations ([netting_settles],
      [netting_least], [netting_deterministic]); a token's accounts, holders
      and freezes stay consistent under every operation and a transfer does
      exactly what its rules allow ([token_invariant], [transfer_spec],
      [holders_capped]); collateral covers what is netted and a batch pays out
      exactly ([collateral_covers], [batch_settles]).
    - Termination: every loop that is not structural runs on fuel computed from
      its state ([signal_fuel], [reach_fuel], the number of references for the
      walks, the number of decisions for [try_commit], the rounds a node can
      enter for [try_advance], the parties of an asset for the matching), and a
      theorem or the specification of the loop shows that the fuel is enough.

    Some theorems and examples exhibit behaviour the sources' comments exclude
    or do not mean. In consensus: a mislabelled reference splits decisions
    ([mislabelled_reference_splits_decisions]), a validator without stake can
    take all weight, a halted core still signs, an oversized batch makes an
    oversized block. In settlement: a netted payment to one's own collateral
    vault makes TNZO ([self_payment_mints]), a netted plan that pays nobody else
    stops block execution ([self_paid_plan_halts]), rounding takes a line a unit
    past its exact share, the matching does not use the fewest instructions, and
    a statement can leave out obligations that offset each other.

    * Not modelled

    Of core.rs, the replay of a journal after a crash ([recover]) and the
    diagnostics. The wire encodings, transport, storage and the node's event
    loop are I/O and serialization; the epoch manager's choice of the next
    committee is an input of the core. ML-DSA and P-256, the zkVM and hash
    functions are library code. Of the virtual machine, the EVM and SVM views,
    the economy module (an interface here), plans, staking, governance and the
    other native contracts; bridges, models, wallets and tools are separate
    subsystems.

    * This file

    Machine-width arithmetic on [N], the [result] type of fallible code with its
    bind notation, sums over lists and index ranges, and the shared tactics. *)

From stdpp Require Import prelude gmap list sorting.
From Stdlib Require Import NArith ZArith Lia.

#[global] Open Scope N_scope.

Ltac Zify.zify_post_hook ::= Z.to_euclidean_division_equations.

(** ** Fallible code *)

Inductive result (E A : Type) : Type :=
| Ok (a : A)
| Err (e : E).
Arguments Ok {E A} a.
Arguments Err {E A} e.

Definition rbind {E A B} (m : result E A) (k : A -> result E B) : result E B :=
  match m with
  | Ok a => k a
  | Err e => Err e
  end.

Definition ok_or {E A} (o : option A) (e : E) : result E A :=
  match o with
  | Some a => Ok a
  | None => Err e
  end.

Definition guard_r {E} (b : bool) (e : E) : result E unit :=
  if b then Ok tt else Err e.

Definition is_ok {E A} (m : result E A) : bool :=
  match m with Ok _ => true | Err _ => false end.

Declare Scope tenzro_scope.
Delimit Scope tenzro_scope with tenzro.
Notation "'let?' x := m 'in' k" := (rbind m (fun x => k))
  (at level 10, x pattern, m at level 100, k at level 200,
   only parsing) : tenzro_scope.
Notation "'check?' b 'else' e 'in' k" := (rbind (guard_r b e) (fun _ => k))
  (at level 10, b at level 100, e at level 100, k at level 200,
   only parsing) : tenzro_scope.
#[global] Open Scope tenzro_scope.

(** ** Machine integers

    Unsigned integers of the source are [N]; an operation the source leaves
    unchecked wraps at its width, as the release build does. *)

Definition U16_MAX : N := 2 ^ 16 - 1.
Definition U32_MAX : N := 2 ^ 32 - 1.
Definition U64_MAX : N := 2 ^ 64 - 1.
Definition U128_MAX : N := 2 ^ 128 - 1.

Definition wadd64 (a b : N) : N := (a + b) mod 2 ^ 64.
Definition sat_add64 (a b : N) : N := N.min (a + b) U64_MAX.
Definition checked_add64 (a b : N) : option N :=
  if a + b <=? U64_MAX then Some (a + b) else None.
Definition checked_add128 (a b : N) : option N :=
  if a + b <=? U128_MAX then Some (a + b) else None.
Definition sat_mul128 (a b : N) : N := N.min (a * b) U128_MAX.
Definition checked_sub (a b : N) : option N :=
  if b <=? a then Some (a - b) else None.
Definition div_ceil (a b : N) : N := (a + b - 1) / b.

(** ** Tactics *)

(** Turns boolean tests of the code into the propositions they decide. *)
Ltac propify :=
  repeat match goal with
  | H : context [N.eqb ?a ?b = true] |- _ => rewrite (N.eqb_eq a b) in H
  | H : context [N.eqb ?a ?b = false] |- _ => rewrite (N.eqb_neq a b) in H
  | H : context [N.leb ?a ?b = true] |- _ => rewrite (N.leb_le a b) in H
  | H : context [N.leb ?a ?b = false] |- _ => rewrite (N.leb_gt a b) in H
  | H : context [N.ltb ?a ?b = true] |- _ => rewrite (N.ltb_lt a b) in H
  | H : context [N.ltb ?a ?b = false] |- _ => rewrite (N.ltb_ge a b) in H
  | H : context [Nat.eqb ?a ?b = true] |- _ => rewrite (Nat.eqb_eq a b) in H
  | H : context [Nat.eqb ?a ?b = false] |- _ => rewrite (Nat.eqb_neq a b) in H
  | H : context [Nat.leb ?a ?b = true] |- _ => rewrite (Nat.leb_le a b) in H
  | H : context [Nat.leb ?a ?b = false] |- _ => rewrite (Nat.leb_gt a b) in H
  | H : context [Nat.ltb ?a ?b = true] |- _ => rewrite (Nat.ltb_lt a b) in H
  | H : context [Nat.ltb ?a ?b = false] |- _ => rewrite (Nat.ltb_ge a b) in H
  | H : andb _ _ = true |- _ => apply andb_true_iff in H as [? ?]
  | H : orb _ _ = false |- _ => apply orb_false_iff in H as [? ?]
  | H : andb _ _ = false |- _ => apply andb_false_iff in H
  | H : orb _ _ = true |- _ => apply orb_true_iff in H
  | H : negb _ = true |- _ => apply negb_true_iff in H
  | H : negb _ = false |- _ => apply negb_false_iff in H
  | H : bool_decide _ = true |- _ => apply bool_decide_eq_true in H
  | H : bool_decide _ = false |- _ => apply bool_decide_eq_false in H
  end.

(** Case analysis on the outermost test of a hypothesis or of the goal. *)
Ltac case_if_in H :=
  match type of H with
  | context [if ?b then _ else _] => let E := fresh "E" in destruct b eqn:E
  end.

(** Inverts a chain of binds that ended in [Ok]. *)
Ltac inv_ok :=
  repeat match goal with
  | H : rbind ?m _ = Ok _ |- _ =>
      let E := fresh "Eb" in destruct m eqn:E; simpl in H; [|discriminate H]
  | H : guard_r ?b _ = Ok _ |- _ =>
      let E := fresh "Eg" in
      unfold guard_r in H; destruct b eqn:E; [clear H|discriminate H]
  | H : ok_or ?o _ = Ok _ |- _ =>
      let E := fresh "Eo" in
      unfold ok_or in H; destruct o eqn:E; [|discriminate H]
  | H : Ok _ = Ok _ |- _ => injection H as H; subst
  | H : Err _ = Ok _ |- _ => discriminate H
  end.

Lemma guard_ok {E A} b (e : E) (k : result E A) x :
  rbind (guard_r b e) (fun _ => k) = Ok x <-> b = true /\ k = Ok x.
Proof. destruct b; simpl; [tauto|]. split; [done|]. by intros [? _]. Qed.

Lemma rbind_ok {E A B} (m : result E A) (k : A -> result E B) x :
  rbind m k = Ok x <-> exists a, m = Ok a /\ k a = Ok x.
Proof.
  destruct m; simpl; split; [eauto|intros (? & [= ->] & ?); done|done|intros (? & ? & _); done].
Qed.

Create HintDb tenzro discriminated.
Create Rewrite HintDb tenzro.

Lemma elem_of_rev {A} (x : A) l : x ∈ rev l <-> x ∈ l.
Proof. by rewrite !list_elem_of_In, <-in_rev. Qed.

Lemma NoDup_filter_fst {A B} (P : A * B -> Prop) `{forall x, Decision (P x)} l :
  NoDup l.*1 -> NoDup (filter P l).*1.
Proof.
  induction l as [|x l IH]; [done|]. rewrite fmap_cons, NoDup_cons, filter_cons.
  intros [Hni Hnd]. case_decide; [|auto]. rewrite fmap_cons. constructor; [|auto].
  intros (y & Hy & [_ Hin]%list_elem_of_filter)%list_elem_of_fmap.
  apply Hni, list_elem_of_fmap. eauto.
Qed.

Lemma StronglySorted_filter {A} (R : A -> A -> Prop) (P : A -> Prop)
    `{forall x, Decision (P x)} l :
  StronglySorted R l -> StronglySorted R (filter P l).
Proof.
  induction 1 as [|x l Hs IH Hf]; [constructor|]. rewrite filter_cons.
  case_decide; [|done]. constructor; [done|]. rewrite Forall_forall in Hf |- *.
  intros y [_ Hy]%list_elem_of_filter. auto.
Qed.

(** ** Sums of a list of numbers *)

Definition nsum (l : list N) : N := foldr N.add 0 l.

Lemma nsum_nil : nsum [] = 0.
Proof. reflexivity. Qed.

Lemma nsum_cons x l : nsum (x :: l) = x + nsum l.
Proof. reflexivity. Qed.

Lemma nsum_app l k : nsum (l ++ k) = nsum l + nsum k.
Proof. induction l as [|x l IH]; simpl; rewrite ?nsum_nil, ?nsum_cons; lia. Qed.

Lemma nsum_perm l k : l ≡ₚ k -> nsum l = nsum k.
Proof. induction 1; rewrite ?nsum_cons in *; lia. Qed.

#[export] Hint Rewrite nsum_nil nsum_cons nsum_app : tenzro.

(** ** Weighted sums over an index range

    [wsum w n P] is the total weight, under [w], of the indices below [n]
    that satisfy [P]: the arithmetic of every seat-counting argument. *)

Fixpoint wsum (w : nat -> N) (n : nat) (P : nat -> bool) : N :=
  match n with
  | O => 0
  | S m => wsum w m P + (if P m then w m else 0)
  end.

Lemma wsum_ext w n P Q :
  (forall i, (i < n)%nat -> P i = Q i) -> wsum w n P = wsum w n Q.
Proof.
  induction n as [|n IH]; intros H; simpl; [done|].
  rewrite IH by (intros; apply H; lia). by rewrite (H n) by lia.
Qed.

Lemma wsum_ext_w w w' n P :
  (forall i, (i < n)%nat -> P i = true -> w i = w' i) -> wsum w n P = wsum w' n P.
Proof.
  induction n as [|n IH]; intros H; simpl; [done|].
  rewrite IH by (intros; apply H; auto; lia).
  destruct (P n) eqn:E; [rewrite (H n) by (auto; lia)|]; done.
Qed.

Lemma wsum_mono w n P Q :
  (forall i, (i < n)%nat -> P i = true -> Q i = true) -> wsum w n P <= wsum w n Q.
Proof.
  induction n as [|n IH]; intros H; simpl; [done|].
  assert (wsum w n P <= wsum w n Q) by (apply IH; intros; apply H; auto; lia).
  destruct (P n) eqn:E.
  - rewrite (H n) by (auto; lia). lia.
  - destruct (Q n); lia.
Qed.

Lemma wsum_le_w w w' n P :
  (forall i, (i < n)%nat -> w i <= w' i) -> wsum w n P <= wsum w' n P.
Proof.
  induction n as [|n IH]; intros H; simpl; [done|].
  assert (wsum w n P <= wsum w' n P) by (apply IH; intros; apply H; lia).
  pose proof (H n ltac:(lia)). destruct (P n); lia.
Qed.

Lemma wsum_and_or w n P Q :
  wsum w n (fun i => P i && Q i) + wsum w n (fun i => P i || Q i) =
  wsum w n P + wsum w n Q.
Proof. induction n as [|n IH]; simpl; [done|]. destruct (P n), (Q n); simpl; lia. Qed.

Lemma wsum_all_le w n P : wsum w n P <= wsum w n (fun _ => true).
Proof. by apply wsum_mono. Qed.

Lemma wsum_split w n P Q :
  wsum w n P =
  wsum w n (fun i => P i && Q i) + wsum w n (fun i => P i && negb (Q i)).
Proof. induction n as [|n IH]; simpl; [done|]. destruct (P n), (Q n); simpl; lia. Qed.

Lemma wsum_false w n : wsum w n (fun _ => false) = 0.
Proof. induction n; simpl; lia. Qed.

(** Adding one index to a set it is not in adds exactly its weight. *)
Lemma wsum_add w n P j :
  (j < n)%nat -> P j = false ->
  wsum w n (fun i => P i || (i =? j)%nat) = wsum w n P + w j.
Proof.
  induction n as [|n IH]; intros Hj HP; simpl; [lia|].
  destruct (decide (j = n)) as [->|Hne].
  - rewrite (wsum_ext w n _ P).
    + rewrite HP, Nat.eqb_refl. simpl. lia.
    + intros i Hi. rewrite (proj2 (Nat.eqb_neq i n)) by lia. apply orb_false_r.
  - rewrite IH by (auto; lia).
    rewrite (proj2 (Nat.eqb_neq n j)) by lia. rewrite orb_false_r. lia.
Qed.

(** A set of positive weight has a member. *)
Lemma wsum_pos_ex w n P :
  0 < wsum w n P -> exists i, (i < n)%nat /\ P i = true /\ 0 < w i.
Proof.
  induction n as [|n IH]; simpl; intros H; [lia|].
  destruct (P n) eqn:E.
  - destruct (decide (0 < w n)) as [Hw|Hw]; [exists n; auto with lia|].
    destruct IH as (i & ? & ? & ?); [lia|exists i; auto with lia].
  - destruct IH as (i & ? & ? & ?); [lia|exists i; auto with lia].
Qed.

(** Two sets whose weights exceed the whole by more than [b] share more
    than [b]. *)
Lemma wsum_intersect w n P Q b :
  wsum w n (fun _ => true) + b < wsum w n P + wsum w n Q ->
  b < wsum w n (fun i => P i && Q i).
Proof.
  intros H. pose proof (wsum_and_or w n P Q).
  pose proof (wsum_all_le w n (fun i => P i || Q i)). lia.
Qed.

(** A set heavier than the faulty weight has a member outside the faulty
    set. *)
Lemma wsum_honest_member w n P F b :
  wsum w n F <= b -> b < wsum w n P ->
  exists i, (i < n)%nat /\ P i = true /\ F i = false.
Proof.
  intros HF HP. rewrite (wsum_split w n P F) in HP.
  assert (wsum w n (fun i => P i && F i) <= wsum w n F).
  { apply wsum_mono. intros i _ Hi. by propify. }
  destruct (wsum_pos_ex w n (fun i => P i && negb (F i))) as (i & ? & Hi & _);
    [lia|]. propify. eauto.
Qed.

(** ** Sums over finite maps *)

Section msum.
Context {K : Type} `{Countable K} {A : Type}.
Implicit Types (m : gmap K A) (f g : K -> A -> nat).

Definition msum f m : nat := map_fold (fun k x acc => (f k x + acc)%nat) 0%nat m.

Lemma msum_delete f m k x :
  m !! k = Some x -> msum f m = (f k x + msum f (delete k m))%nat.
Proof. intros Hk. unfold msum. apply (map_fold_delete_L (fun k x acc => (f k x + acc)%nat) 0%nat k x m); [lia|done]. Qed.

Lemma msum_mono f g m :
  (forall k x, m !! k = Some x -> (f k x <= g k x)%nat) -> (msum f m <= msum g m)%nat.
Proof.
  unfold msum. rewrite !map_fold_foldr. intros Hle.
  assert (forall p, p ∈ map_to_list m -> (f p.1 p.2 <= g p.1 p.2)%nat) as Hl.
  { intros [k x] Hin. apply elem_of_map_to_list in Hin. by apply Hle. }
  induction (map_to_list m) as [|[k x] l IH]; simpl; [done|].
  pose proof (Hl (k, x) ltac:(left)). simpl in *.
  assert (forall p, p ∈ l -> (f p.1 p.2 <= g p.1 p.2)%nat) as Hl'.
  { intros p Hp. apply Hl. by right. }
  specialize (IH Hl'). lia.
Qed.
End msum.
