(* ===== verification/Committee.v ===== *)
(** The committee of one epoch ([tenzro-finality/src/committee.rs]) and the
    apportionment of seats ([tenzro-consensus/src/committee.rs]).

    Stake enters every quorum as an integer number of seats. This file holds
    the committee record and its constructor, the quorum thresholds, the
    bit-set [SeatSet] that counts each member once, and the
    largest-remainder apportionment that turns stake into seats. *)

From stdpp Require Import prelude gmap list sorting.
From Stdlib Require Import NArith ZArith Lia.
From S2P Require Import Prelude.

Abbreviation ValidatorIndex := nat (only parsing).
Abbreviation Round := N (only parsing).
Abbreviation Digest := N (only parsing).
Abbreviation Address := N (only parsing).

(** ** Committee *)

Record ValidatorPublicKey := {
  ml_dsa : list N;
  p256 : list N;
}.

Record Member := {
  m_address : Address;
  m_public_key : ValidatorPublicKey;
  m_stake : N;
  m_seats : N;
}.

Definition MAX_TOTAL_SEATS : N := U32_MAX.

Record Committee := {
  c_epoch : N;
  c_members : list Member;
  c_total_seats : N;
  c_by_address : gmap Address ValidatorIndex;
}.

Inductive FinalityError :=
| InvalidValidatorKey
| InvalidValidatorSet
| InvalidCertificate.

(** [members.iter().all(|m| keys.insert(..) && addresses.insert(..))]: the
    scan stops at the first repeated key or address. *)
Fixpoint distinct_members (fingerprint : ValidatorPublicKey -> Digest)
    (keys addresses : gset N) (ms : list Member) : bool :=
  match ms with
  | [] => true
  | m :: ms =>
      let k := fingerprint (m_public_key m) in
      if bool_decide (k ∈ keys) then false
      else if bool_decide (m_address m ∈ addresses) then false
      else distinct_members fingerprint ({[k]} ∪ keys) ({[m_address m]} ∪ addresses) ms
  end.

Fixpoint try_sum_seats (t : N) (ms : list Member) : option N :=
  match ms with
  | [] => Some t
  | m :: ms =>
      match checked_add64 t (m_seats m) with
      | Some t' => try_sum_seats t' ms
      | None => None
      end
  end.

(** [rebuild_index]: the address index, later entries overwriting earlier. *)
Fixpoint index_from (i : nat) (ms : list Member) (acc : gmap Address ValidatorIndex)
  : gmap Address ValidatorIndex :=
  match ms with
  | [] => acc
  | m :: ms => index_from (S i) ms (<[m_address m := i]> acc)
  end.

Definition rebuild_index (ms : list Member) : gmap Address ValidatorIndex :=
  index_from 0 ms ∅.

Definition from_members (fingerprint : ValidatorPublicKey -> Digest)
    (epoch : N) (ms : list Member) : result FinalityError Committee :=
  check? (negb (bool_decide (ms = []) || (U16_MAX <? N.of_nat (length ms))))
    else InvalidValidatorSet in
  check? (distinct_members fingerprint ∅ ∅ ms) else InvalidValidatorSet in
  check? (negb (existsb (fun m => m_seats m =? 0) ms)) else InvalidValidatorSet in
  let? total :=
    ok_or (match try_sum_seats 0 ms with
           | Some t => if t <=? MAX_TOTAL_SEATS then Some t else None
           | None => None
           end) InvalidValidatorSet in
  Ok {| c_epoch := epoch; c_members := ms; c_total_seats := total;
        c_by_address := rebuild_index ms |}.

Definition committee_size (c : Committee) : nat := length (c_members c).

Definition member (c : Committee) (i : ValidatorIndex) : option Member :=
  c_members c !! i.

Definition index_of (c : Committee) (a : Address) : option ValidatorIndex :=
  c_by_address c !! a.

Definition seats (c : Committee) (i : ValidatorIndex) : N :=
  match member c i with
  | Some m => m_seats m
  | None => 0
  end.

Definition total_seats (c : Committee) : N := c_total_seats c.
Definition max_faulty (c : Committee) : N := (c_total_seats c - 1) / 3.
Definition quorum (c : Committee) : N := c_total_seats c - max_faulty c.
Definition validity (c : Committee) : N := max_faulty c + 1.
Definition ready_delivery (c : Committee) : N := 2 * max_faulty c + 1.
Definition rbc_vote_threshold (c : Committee) : N := div_ceil (c_total_seats c) 2.
Definition rbc_ack_threshold (c : Committee) : N :=
  div_ceil (c_total_seats c + max_faulty c - 1) 2.
Definition rbc_fast_threshold (c : Committee) : N :=
  div_ceil ((c_total_seats c + 2 * max_faulty c) - 2) 2.

Definition non_broadcaster_weight (c : Committee) (sender broadcaster : ValidatorIndex) : N :=
  if (sender =? broadcaster)%nat then seats c sender - 1 else seats c sender.

(** ** SeatSet: a bit set with its weight *)

Record SeatSet := {
  ss_bits : list N;
  ss_weight : N;
}.

Definition ss_new : SeatSet := {| ss_bits := []; ss_weight := 0 |}.

(** [Vec::resize(len, 0)], used only to grow. *)
Definition resize_words (bits : list N) (len : nat) : list N :=
  bits ++ replicate (len - length bits) 0.

Definition ss_insert (s : SeatSet) (index : ValidatorIndex) (n : N) : SeatSet * bool :=
  let word := (index / 64)%nat in
  let bit := N.of_nat (index mod 64) in
  let bits := if (length (ss_bits s) <=? word)%nat
              then resize_words (ss_bits s) (S word) else ss_bits s in
  let w := default 0 (bits !! word) in
  if N.testbit w bit then ({| ss_bits := bits; ss_weight := ss_weight s |}, false)
  else ({| ss_bits := <[word := N.setbit w bit]> bits;
           ss_weight := wadd64 (ss_weight s) n |}, true).

Definition ss_contains (s : SeatSet) (index : ValidatorIndex) : bool :=
  match ss_bits s !! (index / 64)%nat with
  | Some w => N.testbit w (N.of_nat (index mod 64))
  | None => false
  end.

(** The members in ascending index order. *)
Fixpoint words_iter (w : nat) (bits : list N) : list ValidatorIndex :=
  match bits with
  | [] => []
  | x :: bits =>
      ((fun b => (w * 64 + b)%nat)
         <$> filter (fun b => N.testbit x (N.of_nat b) = true) (seq 0 64))
      ++ words_iter (S w) bits
  end.

Definition ss_iter (s : SeatSet) : list ValidatorIndex := words_iter 0 (ss_bits s).

(** ** Apportionment *)

(** The loop that hands the left-over seats to the largest remainders. *)
Fixpoint give_left (rs : list (N * nat)) (left : N) (seats : list N) : list N :=
  match rs with
  | [] => seats
  | (_, i) :: rs =>
      if left =? 0 then seats
      else give_left rs (left - 1) (alter (fun s => wadd64 s 1) i seats)
  end.

(** [b.0.cmp(&a.0).then(a.1.cmp(&b.1))]: larger remainder first, then lower
    index. *)
Definition remainder_le (a b : N * nat) : Prop :=
  b.1 < a.1 \/ (b.1 = a.1 /\ (a.2 <= b.2)%nat).

#[global] Instance remainder_le_dec a b : Decision (remainder_le a b).
Proof. unfold remainder_le. apply _. Defined.

Definition apportion (weights : list N) (budget : N) : list N :=
  let total := nsum weights mod 2 ^ 128 in
  if total =? 0 then replicate (length weights) 1
  else
    let exact := (fun w => sat_mul128 w budget) <$> weights in
    let floors := (fun e => (e / total) mod 2 ^ 64) <$> exact in
    let remainders := imap (fun i e => (e mod total, i)) exact in
    let assigned := nsum floors mod 2 ^ 64 in
    give_left (merge_sort remainder_le remainders) (budget - assigned) floors.

(** ** Well-formed committees *)

Record CommitteeWf (c : Committee) : Prop := {
  wf_nonempty : c_members c <> [];
  wf_size : N.of_nat (committee_size c) <= U16_MAX;
  wf_seats_pos : Forall (fun m => 1 <= m_seats m) (c_members c);
  wf_total : c_total_seats c = nsum (m_seats <$> c_members c);
  wf_max : c_total_seats c <= MAX_TOTAL_SEATS;
}.

(** Seats held by the members that satisfy [P]. *)
Definition weight (c : Committee) (P : nat -> bool) : N := wsum (seats c) (committee_size c) P.

(** The same, without the broadcaster's own seat. *)
Definition na_weight (c : Committee) (src : nat) (P : nat -> bool) : N :=
  wsum (fun i => non_broadcaster_weight c i src) (committee_size c) P.

Lemma wsum_lookup_sum {A} (f : A -> N) (l : list A) :
  wsum (fun i => match l !! i with Some a => f a | None => 0 end) (length l)
    (fun _ => true) = nsum (f <$> l).
Proof.
  induction l as [|a l IH] using rev_ind; [done|].
  rewrite length_app, fmap_app, nsum_app, Nat.add_1_r. simpl.
  rewrite lookup_app_r, Nat.sub_diag by lia. simpl. rewrite N.add_0_r. f_equal.
  rewrite <-IH. apply wsum_ext_w. intros i Hi _. by rewrite lookup_app_l.
Qed.

Lemma weight_all c : CommitteeWf c -> weight c (fun _ => true) = total_seats c.
Proof.
  intros wf. unfold total_seats. rewrite (wf_total _ wf).
  unfold weight, seats, member, committee_size. apply wsum_lookup_sum.
Qed.

Lemma weight_le_total c P : CommitteeWf c -> weight c P <= total_seats c.
Proof. intros wf. rewrite <-weight_all by done. apply wsum_all_le. Qed.

Lemma seats_pos c i : CommitteeWf c -> (i < committee_size c)%nat -> 1 <= seats c i.
Proof.
  intros wf Hi. unfold seats, member.
  destruct (lookup_lt_is_Some_2 _ _ Hi) as [m Hm]. rewrite Hm.
  pose proof (wf_seats_pos _ wf) as HF. rewrite Forall_lookup in HF. eauto.
Qed.

Lemma member_is_Some c i : is_Some (member c i) <-> (i < committee_size c)%nat.
Proof. unfold member, committee_size. by rewrite lookup_lt_is_Some. Qed.

Lemma member_None c i : member c i = None <-> (committee_size c <= i)%nat.
Proof. unfold member, committee_size. by rewrite lookup_ge_None. Qed.

Lemma total_pos c : CommitteeWf c -> 1 <= total_seats c.
Proof.
  intros wf. rewrite <-weight_all by done. destruct (committee_size c) as [|n] eqn:E.
  - pose proof (wf_nonempty _ wf) as Hne. unfold committee_size in E.
    by apply nil_length_inv in E.
  - unfold weight. rewrite E. simpl.
    pose proof (seats_pos c n wf ltac:(lia)). lia.
Qed.

(** A broadcast excludes exactly one of the broadcaster's seats. *)
Lemma na_weight_in c src P :
  CommitteeWf c -> (src < committee_size c)%nat -> P src = true ->
  na_weight c src P + 1 = weight c P.
Proof.
  intros wf Hsrc HP. unfold na_weight, weight.
  pose proof (seats_pos c src wf Hsrc) as Hpos. revert Hsrc.
  generalize (committee_size c) as n. induction n as [|n IH]; intros Hsrc; [lia|]; simpl.
  destruct (decide (src = n)) as [->|Hne].
  - rewrite HP. unfold non_broadcaster_weight at 2. rewrite Nat.eqb_refl.
    rewrite (wsum_ext_w _ (seats c)); [lia|].
    intros i Hi _. unfold non_broadcaster_weight.
    by rewrite (proj2 (Nat.eqb_neq i n)) by lia.
  - specialize (IH ltac:(lia)). unfold non_broadcaster_weight at 2.
    rewrite (proj2 (Nat.eqb_neq n src)) by lia. lia.
Qed.

Lemma na_weight_le c src P : na_weight c src P <= weight c P.
Proof.
  apply wsum_le_w. intros i _. unfold non_broadcaster_weight.
  destruct (i =? src)%nat; lia.
Qed.

Lemma na_weight_notin c src P :
  P src = false -> na_weight c src P = weight c P.
Proof.
  intros HP. apply wsum_ext_w. intros i _ Hi. unfold non_broadcaster_weight.
  destruct (Nat.eqb_spec i src); [congruence|done].
Qed.

(** ** SeatSet *)

Lemma word_bit_eq (i j : nat) :
  (i / 64)%nat = (j / 64)%nat -> (i mod 64)%nat = (j mod 64)%nat -> i = j.
Proof.
  intros Hd Hm. rewrite (Nat.div_mod_eq i 64), (Nat.div_mod_eq j 64). congruence.
Qed.

Lemma resize_words_lookup bits n k :
  default 0 (resize_words bits n !! k) = default 0 (bits !! k).
Proof.
  unfold resize_words. destruct (decide (k < length bits)%nat) as [H|H].
  - by rewrite lookup_app_l.
  - rewrite lookup_app_r by lia. rewrite (lookup_ge_None_2 bits) by lia.
    destruct (replicate _ _ !! _) eqn:E; [|done].
    apply lookup_replicate in E as [-> _]. done.
Qed.

Lemma ss_contains_default s i :
  ss_contains s i =
  N.testbit (default 0 (ss_bits s !! (i / 64)%nat)) (N.of_nat (i mod 64)).
Proof. unfold ss_contains. destruct (_ !! _); [done|]. by rewrite N.bits_0. Qed.

Lemma ss_contains_new i : ss_contains ss_new i = false.
Proof. done. Qed.

Lemma grown_words_lookup s index k :
  let bits := if (length (ss_bits s) <=? index / 64)%nat
              then resize_words (ss_bits s) (S (index / 64)) else ss_bits s in
  default 0 (bits !! k) = default 0 (ss_bits s !! k) /\ (index / 64 < length bits)%nat.
Proof.
  destruct (Nat.leb_spec (length (ss_bits s)) (index / 64)); split.
  - apply resize_words_lookup.
  - unfold resize_words. rewrite length_app, length_replicate. lia.
  - done.
  - lia.
Qed.

(** The bit set answers as the set it stands for: an insertion reports
    whether the index is new and adds that index and no other. *)
Lemma ss_insert_spec s i n j :
  (ss_insert s i n).2 = negb (ss_contains s i) /\
  ss_contains (ss_insert s i n).1 j = ss_contains s j || (j =? i)%nat /\
  ss_weight (ss_insert s i n).1 =
    (if ss_contains s i then ss_weight s else wadd64 (ss_weight s) n).
Proof.
  unfold ss_insert. rewrite !ss_contains_default.
  pose proof (grown_words_lookup s i (i / 64)) as [Hw Hlen].
  pose proof (grown_words_lookup s i (j / 64)) as [Hj _].
  cbn zeta in *. rewrite Hw.
  set (bits := if (length (ss_bits s) <=? i / 64)%nat then _ else _) in *.
  destruct (N.testbit _ (N.of_nat (i mod 64))) eqn:E; cbn [fst snd ss_weight ss_bits].
  - rewrite Hj. split_and!; [done| |done].
    destruct (Nat.eqb_spec j i) as [->|]; [by rewrite E|by rewrite orb_false_r].
  - split_and!; [done| |done].
    destruct (decide (j / 64 = i / 64)%nat) as [Heq|Hne].
    + rewrite Heq, list_lookup_insert_eq by done. cbn [default from_option id].
      rewrite N.setbit_eqb. rewrite orb_comm. f_equal.
      destruct (Nat.eqb_spec j i) as [->|Hji]; [by rewrite N.eqb_refl|].
      apply N.eqb_neq. intros Hm. apply Hji, word_bit_eq; [done|lia].
    + rewrite list_lookup_insert_ne by done. rewrite Hj.
      destruct (Nat.eqb_spec j i) as [->|]; [done|by rewrite orb_false_r].
Qed.

Lemma ss_insert_new s i n : (ss_insert s i n).2 = negb (ss_contains s i).
Proof. apply (ss_insert_spec s i n i). Qed.

Lemma ss_contains_insert s i n j :
  ss_contains (ss_insert s i n).1 j = ss_contains s j || (j =? i)%nat.
Proof. apply (ss_insert_spec s i n j). Qed.

Lemma ss_weight_insert s i n :
  ss_weight (ss_insert s i n).1 =
  (if ss_contains s i then ss_weight s else wadd64 (ss_weight s) n).
Proof. apply (ss_insert_spec s i n i). Qed.

(** A seat set that counts members of [c] under their seats. *)
Definition ss_ok (c : Committee) (s : SeatSet) : Prop :=
  (forall i, ss_contains s i = true -> (i < committee_size c)%nat) /\
  ss_weight s = weight c (ss_contains s).

Lemma ss_ok_new c : ss_ok c ss_new.
Proof.
  split; [intros i; by rewrite ss_contains_new|].
  unfold weight. rewrite (wsum_ext _ _ _ (fun _ => false)).
  - by rewrite wsum_false.
  - intros i _. apply ss_contains_new.
Qed.

Lemma wadd64_small a b : a + b <= U64_MAX -> wadd64 a b = a + b.
Proof. unfold wadd64, U64_MAX. intros. apply N.mod_small. lia. Qed.

Lemma ss_ok_insert c s i :
  CommitteeWf c -> ss_ok c s -> (i < committee_size c)%nat ->
  ss_ok c (ss_insert s i (seats c i)).1.
Proof.
  intros wf [Hin Hw] Hi. split.
  - intros j. rewrite ss_contains_insert, orb_true_iff, Nat.eqb_eq.
    intros [?| ->]; eauto.
  - rewrite ss_weight_insert.
    assert (Hext : weight c (ss_contains (ss_insert s i (seats c i)).1) =
                   weight c (fun j => ss_contains s j || (j =? i)%nat)).
    { apply wsum_ext. intros. apply ss_contains_insert. }
    destruct (ss_contains s i) eqn:E.
    + rewrite Hext, Hw. apply wsum_ext. intros j _.
      destruct (Nat.eqb_spec j i) as [->|]; [by rewrite E|by rewrite orb_false_r].
    + rewrite Hext. unfold weight at 1. rewrite wsum_add by done.
      fold (weight c (ss_contains s)). rewrite <-Hw. apply wadd64_small.
      pose proof (weight_le_total c (fun j => ss_contains s j || (j =? i)%nat) wf) as Hle.
      unfold weight in Hle. rewrite wsum_add in Hle by done.
      fold (weight c (ss_contains s)) in Hle. rewrite <-Hw in Hle.
      pose proof (wf_max _ wf). unfold total_seats, MAX_TOTAL_SEATS, U32_MAX, U64_MAX in *.
      lia.
Qed.

Lemma ss_weight_le c s : CommitteeWf c -> ss_ok c s -> ss_weight s <= total_seats c.
Proof. intros wf [_ ->]. by apply weight_le_total. Qed.

Lemma words_iter_elem w bits i :
  i ∈ words_iter w bits <->
  (w * 64 <= i)%nat /\
  N.testbit (default 0 (bits !! (i / 64 - w)%nat)) (N.of_nat (i mod 64)) = true /\
  (i / 64 < w + length bits)%nat.
Proof.
  revert w. induction bits as [|x bits IH]; intros w; cbn [words_iter length].
  { split; [inversion 1|]. pose proof (Nat.div_le_lower_bound i 64 w). lia. }
  pose proof (Nat.div_mod_eq i 64) as Hi. pose proof (Nat.mod_upper_bound i 64) as Hm.
  rewrite elem_of_app, IH, list_elem_of_fmap. split.
  - intros [(b & -> & Hb)|(Hge & Ht & Hl)].
    + apply list_elem_of_filter in Hb as [Hb Hin]. apply elem_of_seq in Hin.
      assert ((w * 64 + b) / 64 = w)%nat as Hq.
      { symmetry. apply (Nat.div_unique _ _ _ b); lia. }
      assert ((w * 64 + b) mod 64 = b)%nat as Hr.
      { symmetry. apply (Nat.mod_unique _ _ w); lia. }
      rewrite Hq, Hr, Nat.sub_diag. simpl. split_and!; [lia|done|lia].
    + split_and!; [lia| |lia].
      assert (w < i / 64)%nat as Hlt by (pose proof (Nat.div_le_lower_bound i 64 (S w)); lia).
      destruct (i / 64 - w)%nat as [|k] eqn:E; [lia|]. simpl.
      by replace k with (i / 64 - S w)%nat by lia.
  - intros (Hge & Ht & Hl). destruct (decide (i / 64 = w)%nat) as [Heq|Hne].
    + left. exists (i mod 64)%nat. split; [lia|]. apply list_elem_of_filter.
      rewrite Heq, Nat.sub_diag in Ht. split; [done|]. apply elem_of_seq. lia.
    + right. pose proof (Nat.div_le_lower_bound i 64 w).
      split_and!; [lia| |lia].
      destruct (i / 64 - w)%nat as [|k] eqn:E; [lia|]. simpl in Ht.
      by replace (i / 64 - S w)%nat with k by lia.
Qed.

Lemma words_iter_sorted w bits : StronglySorted lt (words_iter w bits).
Proof.
  revert w. induction bits as [|x bits IH]; intros w; cbn [words_iter]; [constructor|].
  apply StronglySorted_app_2; [|..|apply IH].
  - intros i j Hi Hj. apply words_iter_elem in Hj.
    apply list_elem_of_fmap in Hi as (b & -> & Hb).
    apply list_elem_of_filter in Hb as [_ Hb]. apply elem_of_seq in Hb. lia.
  - assert (forall k n, StronglySorted lt
      ((fun b => (w * 64 + b)%nat) <$>
         filter (fun b => N.testbit x (N.of_nat b) = true) (seq k n))) as Hs; [|apply Hs].
    intros k n. revert k. induction n as [|n IHn]; intros k; simpl; [constructor|].
    rewrite filter_cons. case_decide; [|apply IHn]. simpl. constructor; [apply IHn|].
    rewrite Forall_forall. intros y Hy.
    apply list_elem_of_fmap in Hy as (b & -> & Hb).
    apply list_elem_of_filter in Hb as [_ Hb]. apply elem_of_seq in Hb. lia.
Qed.

(** ** Constructing a committee *)

Lemma distinct_members_spec fp ks as_ ms :
  distinct_members fp ks as_ ms = true <->
  NoDup (fp <$> (m_public_key <$> ms)) /\
  NoDup (m_address <$> ms) /\
  (forall m, m ∈ ms -> fp (m_public_key m) ∉ ks /\ m_address m ∉ as_).
Proof.
  revert ks as_. induction ms as [|m ms IH]; intros ks as_; simpl.
  { split; [|done]. intros _. split_and!; [constructor|constructor|inversion 1]. }
  rewrite !NoDup_cons.
  destruct (bool_decide (fp (m_public_key m) ∈ ks)) eqn:E1; propify.
  { split; [done|]. intros (_ & _ & H). exfalso.
    destruct (H m) as [H' _]; [left|]. done. }
  destruct (bool_decide (m_address m ∈ as_)) eqn:E2; propify.
  { split; [done|]. intros (_ & _ & H). exfalso.
    destruct (H m) as [_ H']; [left|]. done. }
  rewrite IH. split.
  - intros (H1 & H2 & H3). split_and!; [|done| |done|].
    + intros Hin. rewrite <-list_fmap_compose in Hin.
      apply list_elem_of_fmap in Hin as (m' & Heq & Hm').
      destruct (H3 _ Hm') as [Hk _]. simpl in Heq. set_solver.
    + intros Hin. apply list_elem_of_fmap in Hin as (m' & Heq & Hm').
      destruct (H3 _ Hm') as [_ Ha]. set_solver.
    + intros m' [->|Hm']%elem_of_cons; [done|].
      destruct (H3 _ Hm'). set_solver.
  - intros ((H1 & H2) & (H3 & H4) & H5). split_and!; [done|done|].
    intros m' Hm'. destruct (H5 m'); [by right|].
    assert (fp (m_public_key m') <> fp (m_public_key m)).
    { intros Heq. apply H1. rewrite <-Heq. by do 2 apply list_elem_of_fmap_2. }
    assert (m_address m' <> m_address m).
    { intros Heq. apply H3. rewrite <-Heq. by apply list_elem_of_fmap_2. }
    set_solver.
Qed.

Lemma try_sum_seats_spec ms t r :
  t <= U64_MAX ->
  try_sum_seats t ms = Some r <->
  r = t + nsum (m_seats <$> ms) /\ t + nsum (m_seats <$> ms) <= U64_MAX.
Proof.
  revert t. induction ms as [|m ms IH]; intros t Ht; cbn [try_sum_seats].
  { rewrite fmap_nil, nsum_nil, N.add_0_r.
    split; [intros [=]|intros [-> ?]]; auto. }
  rewrite fmap_cons, nsum_cons. unfold checked_add64.
  destruct (N.leb_spec (t + m_seats m) U64_MAX).
  - rewrite IH by lia. rewrite N.add_assoc. done.
  - split; [done|]. lia.
Qed.

Lemma existsb_seats_zero ms :
  existsb (fun m => m_seats m =? 0) ms = false <-> Forall (fun m => 1 <= m_seats m) ms.
Proof.
  induction ms as [|m ms IH]; simpl; [by split|].
  rewrite orb_false_iff, IH, Forall_cons, N.eqb_neq. intuition lia.
Qed.

Lemma from_members_cases fp epoch ms :
  match from_members fp epoch ms with
  | Ok c => c_epoch c = epoch /\ c_members c = ms /\ CommitteeWf c
  | Err e => e = InvalidValidatorSet
  end /\
  (is_ok (from_members fp epoch ms) = true <->
   ms <> [] /\ N.of_nat (length ms) <= U16_MAX /\
   NoDup (fp <$> (m_public_key <$> ms)) /\ NoDup (m_address <$> ms) /\
   Forall (fun m => 1 <= m_seats m) ms /\
   nsum (m_seats <$> ms) <= MAX_TOTAL_SEATS).
Proof.
  pose proof (distinct_members_spec fp ∅ ∅ ms) as Hd.
  pose proof (existsb_seats_zero ms) as Hz.
  pose proof (fun r => try_sum_seats_spec ms 0 r ltac:(done)) as Hs.
  unfold from_members, guard_r, ok_or, rbind.
  assert (MAX_TOTAL_SEATS <= U64_MAX) as Hmax by done.
  destruct (bool_decide (ms = [])) eqn:E1; simpl; propify.
  { split; [done|]. split; [done|]. tauto. }
  destruct (N.ltb_spec U16_MAX (N.of_nat (length ms))); simpl.
  { split; [done|]. split; [done|]. lia. }
  destruct (distinct_members _ _ _ _); simpl.
  2:{ split; [done|]. split; [done|]. intros (?&?&?&?&?&?). apply Hd. set_solver. }
  destruct (existsb _ _); simpl.
  { split; [done|]. split; [done|]. intros (?&?&?&?&HF&?).
    apply Hz in HF. done. }
  destruct (proj1 Hd eq_refl) as (? & ? & _). apply proj1 in Hz. specialize (Hz eq_refl).
  destruct (try_sum_seats 0 ms) as [t|] eqn:Et; simpl.
  2:{ split; [done|]. split; [done|]. intros (?&?&?&?&?&?).
      assert (None = Some (nsum (m_seats <$> ms))); [|done]. apply Hs. lia. }
  destruct (proj1 (Hs t) eq_refl) as [-> Hle].
  destruct (N.leb_spec (0 + nsum (m_seats <$> ms)) MAX_TOTAL_SEATS); simpl.
  - split; [|split; [|done]; intros _; split_and!; auto; lia].
    split_and!; [done|done|]. constructor; simpl; auto; lia.
  - split; [done|]. split; [done|]. lia.
Qed.

(** A committee is built exactly from a member list that is not empty, fits
    the 16-bit index, repeats no key fingerprint and no address, gives every
    member a seat, and holds at most [MAX_TOTAL_SEATS] seats in all; the sum
    is taken without overflow, and the committee built is well formed. *)
Theorem from_members_spec fp epoch ms :
  match from_members fp epoch ms with
  | Ok c => c_epoch c = epoch /\ c_members c = ms /\ CommitteeWf c
  | Err e => e = InvalidValidatorSet
  end /\
  (is_ok (from_members fp epoch ms) = true <->
   ms <> [] /\ N.of_nat (length ms) <= U16_MAX /\
   NoDup (fp <$> (m_public_key <$> ms)) /\ NoDup (m_address <$> ms) /\
   Forall (fun m => 1 <= m_seats m) ms /\
   nsum (m_seats <$> ms) <= MAX_TOTAL_SEATS).
Proof. apply from_members_cases. Qed.

(** ** Thresholds *)

Lemma faulty_bound c : CommitteeWf c -> 3 * max_faulty c + 1 <= total_seats c.
Proof.
  intros wf. pose proof (total_pos c wf). unfold max_faulty, total_seats in *. lia.
Qed.

(** Two quorums share more than [f] seats, hence an honest member. *)
Lemma quorums_share c P Q :
  CommitteeWf c -> quorum c <= weight c P -> quorum c <= weight c Q ->
  max_faulty c < weight c (fun i => P i && Q i).
Proof.
  intros wf HP HQ. pose proof (faulty_bound c wf) as Hf.
  apply wsum_intersect. fold (weight c (fun _ => true)). rewrite weight_all by done.
  unfold weight, quorum, total_seats in *. lia.
Qed.

Lemma quorums_honest c faulty P Q :
  CommitteeWf c -> weight c faulty <= max_faulty c ->
  quorum c <= weight c P -> quorum c <= weight c Q ->
  exists i, (i < committee_size c)%nat /\ P i = true /\ Q i = true /\ faulty i = false.
Proof.
  intros wf HF HP HQ. pose proof (quorums_share c P Q wf HP HQ).
  destruct (wsum_honest_member (seats c) (committee_size c) (fun i => P i && Q i) faulty
              (max_faulty c)) as (i & Hi & HPQ & Hh); [done|done|].
  propify. eauto.
Qed.

(** Any two quorums of seats share more than [f] seats, so with at most
    [f] seats faulty they share an honest member, and the honest members
    alone hold a quorum. *)
Theorem quorum_intersection c faulty P Q :
  CommitteeWf c ->
  weight c faulty <= max_faulty c ->
  quorum c <= weight c P -> quorum c <= weight c Q ->
  max_faulty c < weight c (fun i => P i && Q i) /\
  (exists i, (i < committee_size c)%nat /\ P i = true /\ Q i = true /\ faulty i = false) /\
  quorum c <= weight c (fun i => negb (faulty i)).
Proof.
  intros wf HF HP HQ. pose proof (faulty_bound c wf) as Hf. split_and!.
  - by apply quorums_share.
  - by apply quorums_honest.
  - pose proof (wsum_split (seats c) (committee_size c) (fun _ => true) faulty) as Hsp.
    fold (weight c (fun _ => true)) in Hsp. rewrite weight_all in Hsp by done.
    cbn [andb] in Hsp. change (fun i => faulty i) with faulty in Hsp.
    unfold weight, quorum, total_seats in *. lia.
Qed.

(** Distinct members that satisfy [P] hold no more than the seats of [P]. *)
Lemma nsum_members_le c (l : list ValidatorIndex) P :
  NoDup l -> (forall i, i ∈ l -> P i = true) ->
  nsum ((fun i => seats c i) <$> l) <= weight c P.
Proof.
  revert P. induction l as [|i l IH]; intros P Hnd HP; [apply N.le_0_l|].
  apply NoDup_cons in Hnd as [Hni Hnd]. rewrite fmap_cons, nsum_cons.
  specialize (IH (fun j => P j && negb (j =? i)%nat) Hnd).
  assert (nsum ((fun i => seats c i) <$> l) <= weight c (fun j => P j && negb (j =? i)%nat)) as Hl.
  { apply IH. intros j Hj. rewrite HP by (by right). simpl. apply negb_true_iff, Nat.eqb_neq.
    by intros ->. }
  destruct (decide (i < committee_size c)%nat) as [Hi|Hi].
  - assert (weight c (fun j => (P j && negb (j =? i)%nat) || (j =? i)%nat) = weight c P) as Heq.
    { apply wsum_ext. intros j _. destruct (Nat.eqb_spec j i) as [->|]; simpl.
      - rewrite orb_true_r. symmetry. apply HP. left.
      - by rewrite andb_true_r, orb_false_r. }
    unfold weight in *. rewrite wsum_add in Heq; [lia|done|]. by rewrite Nat.eqb_refl, andb_false_r.
  - assert (seats c i = 0) as ->.
    { unfold seats. rewrite (proj2 (member_None c i)); [done|lia]. }
    assert (weight c (fun j => P j && negb (j =? i)%nat) <= weight c P); [|lia].
    apply wsum_mono. intros j _ Hj. by propify.
Qed.

(** Four validators of one seat each. *)
Definition four_seats : Committee :=
  {| c_epoch := 0;
     c_members := (fun i => {| m_address := i; m_stake := 100; m_seats := 1;
                               m_public_key := {| ml_dsa := [i]; p256 := [i] |} |})
                    <$> [0; 1; 2; 3];
     c_total_seats := 4;
     c_by_address := ∅ |}.

Lemma four_seats_wf : CommitteeWf four_seats.
Proof. constructor; vm_compute; try done. repeat constructor; done. Qed.

Lemma quorum_intersection_witness :
  max_faulty four_seats <
    weight four_seats (fun i => negb (i =? 0)%nat && negb (i =? 1)%nat).
Proof.
  apply (quorum_intersection four_seats (fun i => (i =? 3)%nat)
           (fun i => negb (i =? 0)%nat) (fun i => negb (i =? 1)%nat));
    [apply four_seats_wf|vm_compute; done..].
Defined.

(** ** Apportionment *)

Lemma nsum_alter (f : N -> N) i l x :
  l !! i = Some x -> nsum (alter f i l) + x = nsum l + f x.
Proof.
  revert i. induction l as [|y l IH]; intros [|i] Hl; [done|done| |].
  - injection Hl as ->. change (alter f 0%nat (x :: l)) with (f x :: l).
    rewrite !nsum_cons. lia.
  - change (alter f (S i) (y :: l)) with (y :: alter f i l).
    rewrite !nsum_cons. specialize (IH i Hl). lia.
Qed.

Lemma nsum_elem_le x l : x ∈ l -> x <= nsum l.
Proof. induction 1; rewrite nsum_cons; lia. Qed.

Lemma give_left_lookup rs left ss i :
  NoDup (rs.*2) ->
  give_left rs left ss !! i =
  (if decide (i ∈ (take (N.to_nat left) rs).*2) then fun s => wadd64 s 1 else id)
    <$> ss !! i.
Proof.
  revert left ss.
  induction rs as [|[r k] rs IH]; intros left ss Hnd; cbn [give_left].
  { rewrite take_nil, fmap_nil, decide_False by (apply not_elem_of_nil).
    by rewrite option_fmap_id. }
  apply NoDup_cons in Hnd as [Hk Hnd]. destruct (N.eqb_spec left 0) as [->|Hl].
  { change (take (N.to_nat 0) _) with (@nil (N * nat)).
    rewrite fmap_nil, decide_False by (apply not_elem_of_nil).
    by rewrite option_fmap_id. }
  rewrite IH by done.
  replace (N.to_nat left) with (S (N.to_nat (left - 1))) by lia.
  rewrite firstn_cons, fmap_cons. cbn [snd].
  set (tk := (take (N.to_nat (left - 1)) rs).*2).
  assert (k ∉ tk) as Hk'.
  { unfold tk. rewrite fmap_take. intros Hin. apply Hk.
    apply elem_of_take in Hin as (j & Hj & _). by eapply list_elem_of_lookup_2. }
  destruct (decide (i = k)) as [->|Hik].
  - rewrite list_lookup_alter_eq. rewrite decide_False by done.
    rewrite decide_True by (left). destruct (ss !! k); done.
  - rewrite list_lookup_alter_ne by done.
    destruct (decide (i ∈ tk)).
    + by rewrite decide_True by (by right).
    + rewrite decide_False; [done|]. intros [->|?]%elem_of_cons; done.
Qed.

Lemma give_left_length rs left ss : length (give_left rs left ss) = length ss.
Proof.
  revert left ss. induction rs as [|[r k] rs IH]; intros left ss; simpl; [done|].
  destruct (left =? 0); [done|]. by rewrite IH, length_alter.
Qed.

Lemma give_left_sum rs left ss :
  NoDup (rs.*2) ->
  (forall i, i ∈ rs.*2 -> exists s, ss !! i = Some s /\ s + 1 <= U64_MAX) ->
  nsum (give_left rs left ss) = nsum ss + N.min left (N.of_nat (length rs)).
Proof.
  revert left ss. induction rs as [|[r k] rs IH]; intros left ss Hnd Hb; simpl; [lia|].
  apply NoDup_cons in Hnd as [Hk Hnd]. destruct (N.eqb_spec left 0) as [->|Hl]; [lia|].
  destruct (Hb k) as (s & Hs & Hs1); [left|].
  rewrite IH; [|done|].
  - pose proof (nsum_alter (fun s => wadd64 s 1) k ss s Hs) as Ha.
    cbn beta in Ha. rewrite wadd64_small in Ha by done. lia.
  - intros i Hi. destruct (Hb i) as (s' & ? & ?); [by right|]. exists s'. split; [|done].
    rewrite list_lookup_alter_ne; [done|]. intros ->. done.
Qed.

Lemma nsum_div_mod (l : list N) t :
  t <> 0 -> nsum ((fun e => e / t) <$> l) * t + nsum ((fun e => e mod t) <$> l) = nsum l.
Proof.
  intros Ht. induction l as [|e l IH]; [done|].
  rewrite !fmap_cons, !nsum_cons. pose proof (N.div_mod e t Ht). lia.
Qed.

Lemma nsum_bound (l : list N) t :
  Forall (fun e => e < t) l -> nsum l + N.of_nat (length l) <= N.of_nat (length l) * t.
Proof. induction 1; [done|]. rewrite nsum_cons. simpl length. nia. Qed.

Lemma nsum_scale (l : list N) b : nsum ((fun w => w * b) <$> l) = nsum l * b.
Proof. induction l as [|w l IH]; [done|]. rewrite fmap_cons, !nsum_cons. lia. Qed.

#[global] Instance remainder_le_total : Total remainder_le.
Proof. intros [a i] [b j]. unfold remainder_le; simpl. lia. Qed.

#[global] Instance remainder_le_trans : Transitive remainder_le.
Proof. intros [a i] [b j] [d k]. unfold remainder_le; simpl. lia. Qed.

Section apportion.
Context (weights : list N) (budget : N).
Context (Hpos : 0 < nsum weights) (Hmax : nsum weights <= U128_MAX).
Context (Hprod : nsum weights * budget <= U128_MAX) (Hbudget : budget <= U64_MAX).

Let total := nsum weights.
Let exact := (fun w => w * budget) <$> weights.
Let floors := (fun e => e / total) <$> exact.
Let rems := imap (fun i e => (e mod total, i)) exact.
Let sorted := merge_sort remainder_le rems.

Lemma apportion_unfold :
  apportion weights budget = give_left sorted (budget - nsum floors) floors.
Proof.
  assert (total mod 2 ^ 128 = total) as Ht.
  { apply N.mod_small. unfold total, U128_MAX in *. lia. }
  assert (forall w, w ∈ weights -> w * budget <= U128_MAX) as Hw.
  { intros w Hin. apply nsum_elem_le in Hin. unfold total in *. nia. }
  assert ((fun w => sat_mul128 w budget) <$> weights = exact) as He.
  { apply list_fmap_ext. intros i w Hi. apply list_elem_of_lookup_2, Hw in Hi.
    unfold sat_mul128. lia. }
  assert (forall w, w ∈ weights -> w * budget / total <= budget) as Hq.
  { intros w Hin. apply nsum_elem_le in Hin. apply N.Div0.div_le_upper_bound.
    unfold total. nia. }
  assert ((fun e => (e / total) mod 2 ^ 64) <$> exact = floors) as Hf.
  { apply list_fmap_ext. intros i e Hi. apply list_elem_of_lookup_2 in Hi.
    apply list_elem_of_fmap in Hi as (w & -> & Hin). apply N.mod_small.
    pose proof (Hq _ Hin). unfold U64_MAX in *. lia. }
  unfold apportion. fold total. rewrite Ht.
  destruct (N.eqb_spec total 0); [unfold total in *; lia|].
  rewrite He, Hf. fold rems sorted. f_equal. f_equal. apply N.mod_small.
  pose proof (nsum_div_mod exact total ltac:(done)) as Hdm.
  assert (nsum exact = total * budget) as Hex by apply nsum_scale.
  fold floors in Hdm. unfold U64_MAX in *. nia.
Qed.

Lemma rems_snd : rems.*2 = seq 0 (length weights).
Proof.
  unfold rems. rewrite fmap_imap. apply list_eq. intros i.
  rewrite list_lookup_imap. destruct (decide (i < length weights)%nat).
  - rewrite lookup_seq_lt by done. simpl. unfold exact. rewrite list_lookup_fmap.
    destruct (lookup_lt_is_Some_2 weights i) as [w ->]; done.
  - rewrite lookup_seq_ge by lia.
    unfold exact. rewrite list_lookup_fmap, lookup_ge_None_2 by lia. done.
Qed.

Lemma sorted_perm : sorted.*2 ≡ₚ seq 0 (length weights).
Proof.
  rewrite <-rems_snd. apply fmap_Permutation, merge_sort_Permutation.
Qed.

Lemma floors_sum :
  nsum floors * total + nsum ((fun e => e mod total) <$> exact) = total * budget.
Proof.
  pose proof (nsum_div_mod exact total ltac:(unfold total; lia)) as H.
  assert (nsum exact = total * budget) as Hex by apply nsum_scale.
  rewrite Hex in H. done.
Qed.

Lemma left_lt : budget - nsum floors < N.of_nat (length weights).
Proof.
  pose proof floors_sum as Hs.
  assert (Forall (fun e => e < total) ((fun e => e mod total) <$> exact)) as Hf.
  { apply Forall_fmap, Forall_true. intros e. simpl. apply N.mod_upper_bound.
    unfold total. lia. }
  apply nsum_bound in Hf. rewrite length_fmap in Hf.
  unfold exact in Hf at 2 3. rewrite length_fmap in Hf.
  assert (0 < N.of_nat (length weights)) as Hn.
  { destruct weights; [done|]. simpl. lia. }
  assert (0 < total) by done. nia.
Qed.

Lemma sorted_nodup : NoDup (sorted.*2).
Proof. rewrite sorted_perm. apply NoDup_seq. Qed.

Lemma floors_lookup i w : weights !! i = Some w -> floors !! i = Some (w * budget / total).
Proof. intros H. unfold floors, exact. by rewrite !list_lookup_fmap, H. Qed.

Lemma floor_room i w :
  weights !! i = Some w -> 0 < budget - nsum floors -> w * budget / total + 1 <= U64_MAX.
Proof.
  intros H Hl. apply floors_lookup, list_elem_of_lookup_2, nsum_elem_le in H. lia.
Qed.

(** The seats of one member: its floor, plus one when its remainder is among
    the largest. *)
Lemma apportion_lookup i w :
  weights !! i = Some w ->
  apportion weights budget !! i =
  Some (w * budget / total +
        (if decide (i ∈ (take (N.to_nat (budget - nsum floors)) sorted).*2)
         then 1 else 0)).
Proof.
  intros Hw. rewrite apportion_unfold, give_left_lookup by apply sorted_nodup.
  rewrite (floors_lookup i w Hw). case_decide as Hin; simpl; f_equal; [|lia].
  apply wadd64_small, (floor_room i w Hw). destruct (decide (budget - nsum floors = 0)) as [E|].
  - rewrite E in Hin. by apply not_elem_of_nil in Hin.
  - lia.
Qed.

Lemma apportion_sum : nsum (apportion weights budget) = budget.
Proof.
  rewrite apportion_unfold. pose proof left_lt as Hlt. pose proof floors_sum as Hfs.
  assert (nsum floors <= budget).
  { assert (0 < total) as Ht by done. revert Hfs Ht. clear.
    generalize (nsum ((fun e => e mod total) <$> exact)) as r.
    generalize (nsum floors) as x, total as t. intros x t r. nia. }
  assert (length sorted = length weights) as Hlen.
  { rewrite <-(length_fmap snd), sorted_perm. apply length_seq. }
  destruct (decide (budget - nsum floors = 0)) as [E|E].
  - rewrite E. assert (give_left sorted 0 floors = floors) as ->; [|lia].
    destruct sorted as [|[r k] rs]; done.
  - rewrite give_left_sum; [rewrite Hlen; lia|apply sorted_nodup|].
    intros i Hi. rewrite sorted_perm in Hi. apply elem_of_seq in Hi.
    destruct (lookup_lt_is_Some_2 weights i) as [w Hw]; [lia|].
    exists (w * budget / total). split; [by apply floors_lookup|].
    apply (floor_room i w Hw). lia.
Qed.

Lemma sorted_lookup i w :
  weights !! i = Some w -> exists k, sorted !! k = Some ((w * budget) mod total, i).
Proof.
  intros Hw. apply list_elem_of_lookup. unfold sorted. rewrite merge_sort_Permutation.
  apply list_elem_of_lookup. exists i. unfold rems, exact.
  by rewrite list_lookup_imap, list_lookup_fmap, Hw.
Qed.

(** A larger remainder is served no later than a smaller one. *)
Lemma take_larger_remainder n i j wi wj :
  weights !! i = Some wi -> weights !! j = Some wj ->
  (wj * budget) mod total < (wi * budget) mod total ->
  j ∈ (take n sorted).*2 -> i ∈ (take n sorted).*2.
Proof.
  intros Hi Hj Hr Hin. destruct (sorted_lookup i wi Hi) as [ki Hki].
  destruct (sorted_lookup j wj Hj) as [kj Hkj]. rewrite fmap_take in *.
  apply elem_of_take in Hin as (k & Hk & Hkn). apply elem_of_take.
  exists ki. split; [by rewrite list_lookup_fmap, Hki|].
  assert (k = kj) as ->.
  { eapply NoDup_lookup; [apply sorted_nodup|done|].
    by rewrite list_lookup_fmap, Hkj. }
  destruct (decide (ki < kj)%nat); [lia|].
  destruct (decide (ki = kj)) as [->|]; [lia|].
  assert (StronglySorted remainder_le sorted) as Hs
    by (apply StronglySorted_merge_sort; apply _).
  rewrite <-(take_drop_middle sorted kj _ Hkj) in Hs.
  apply StronglySorted_app_1_r, StronglySorted_cons in Hs as [Hs _].
  rewrite Forall_forall in Hs.
  specialize (Hs ((wi * budget) mod total, i)). unfold remainder_le in Hs. simpl in Hs.
  assert (((wi * budget) mod total, i) ∈ drop (S kj) sorted) as Hd.
  { apply list_elem_of_lookup. exists (ki - S kj)%nat. rewrite lookup_drop.
    by replace (S kj + (ki - S kj))%nat with ki by lia. }
  specialize (Hs Hd). lia.
Qed.
End apportion.

(** C37: with a stake that adds up within 128 bits, the apportionment spends
    exactly the seat budget, gives each validator the floor of its exact
    share or one seat more, and never gives a larger stake fewer seats than a
    smaller one. *)
Theorem apportion_spec weights budget :
  0 < nsum weights -> nsum weights <= U128_MAX ->
  nsum weights * budget <= U128_MAX -> budget <= U64_MAX ->
  length (apportion weights budget) = length weights /\
  nsum (apportion weights budget) = budget /\
  (forall i w s, weights !! i = Some w -> apportion weights budget !! i = Some s ->
     w * budget / nsum weights <= s <= w * budget / nsum weights + 1) /\
  (forall i j wi wj si sj,
     weights !! i = Some wi -> weights !! j = Some wj ->
     apportion weights budget !! i = Some si -> apportion weights budget !! j = Some sj ->
     wj < wi -> sj <= si).
Proof.
  intros Hp Hm Hpr Hb. split_and!.
  - rewrite apportion_unfold by done. by rewrite give_left_length, !length_fmap.
  - by apply apportion_sum.
  - intros i w s Hw Hs. rewrite (apportion_lookup weights budget Hp Hm Hpr Hb i w Hw) in Hs.
    simplify_eq. case_decide; lia.
  - intros i j wi wj si sj Hi Hj Hsi Hsj Hlt.
    destruct (decide (budget = 0)) as [Hb0|].
    { apply list_elem_of_lookup_2, nsum_elem_le in Hsj.
      rewrite apportion_sum in Hsj by done. lia. }
    pose proof (take_larger_remainder weights budget Hp Hm Hpr Hb
      (N.to_nat (budget - nsum ((fun e => e / nsum weights) <$>
         ((fun w => w * budget) <$> weights)))) i j wi wj Hi Hj) as Hrem.
    rewrite (apportion_lookup weights budget Hp Hm Hpr Hb i wi Hi) in Hsi.
    rewrite (apportion_lookup weights budget Hp Hm Hpr Hb j wj Hj) in Hsj.
    injection Hsi as <-. injection Hsj as <-.
    set (t := nsum weights) in *.
    assert (wj * budget <= wi * budget) as Hle by nia.
    pose proof (N.Div0.div_le_mono _ _ t Hle).
    pose proof (N.div_mod (wi * budget) t ltac:(lia)).
    pose proof (N.div_mod (wj * budget) t ltac:(lia)).
    destruct (decide (wj * budget / t = wi * budget / t)) as [E|E].
    + assert (wj * budget < wi * budget) by nia.
      assert ((wj * budget) mod t < (wi * budget) mod t) as Hmod by (rewrite E in *; lia).
      specialize (Hrem Hmod). case_decide as C1; case_decide as C2; [lia| |lia|lia].
      exfalso. auto.
    + case_decide; case_decide; lia.
Qed.

Lemma apportion_spec_witness :
  apportion [50; 30; 20] 7 = [4; 2; 1] /\ nsum (apportion [50; 30; 20] 7) = 7.
Proof.
  split; [vm_compute; reflexivity|]. apply (apportion_spec [50; 30; 20] 7); vm_compute; done.
Defined.
