(* ===== verification/Validator.v ===== *)
(** Validators and the per-epoch validator set
    ([tenzro-consensus/src/validator.rs]), and the committee built from it
    ([tenzro-consensus/src/committee.rs], [from_validator_set]).

    The voting weight of a validator is its stake, capped at ten per cent of
    the total with the excess spread over the others by water-filling. The
    arithmetic is 128-bit with a 256-bit product and a bit-serial division;
    both are modelled at their width. *)

From stdpp Require Import prelude gmap list sorting.
From Stdlib Require Import NArith ZArith Lia.
From S2P Require Import Prelude Committee.

Definition MAX_VALIDATOR_WEIGHT_BPS : N := 1000.

Inductive ValidatorStatus := Active | Inactive | Jailed | Unbonding.

#[global] Instance ValidatorStatus_eq_dec : EqDecision ValidatorStatus.
Proof. solve_decision. Defined.

Record ValidatorInfo := {
  v_address : Address;
  v_public_key : ValidatorPublicKey;
  v_node_key : list N;
  v_stake : N;
  v_status : ValidatorStatus;
  v_registered_at : N;
}.

(** [now] is the clock reading of [Timestamp::now()]. *)
Definition validator_new (now : N) (address : Address) (key : ValidatorPublicKey)
    (node_key : list N) (stake : N) : ValidatorInfo :=
  {| v_address := address; v_public_key := key; v_node_key := node_key;
     v_stake := stake; v_status := Active; v_registered_at := now |}.

Definition is_active (v : ValidatorInfo) : bool := bool_decide (v_status v = Active).

Definition voting_power (v : ValidatorInfo) : N :=
  if is_active v then v_stake v else 0.

Record ValidatorSet := {
  vs_epoch : N;
  vs_validators : list ValidatorInfo;
  vs_total_stake : N;
  vs_epoch_start : N;
}.

(** ** Wide arithmetic *)

Definition wide_mul (a b : N) : N * N :=
  let a1 := N.shiftr a 64 in let a0 := N.land a U64_MAX in
  let b1 := N.shiftr b 64 in let b0 := N.land b U64_MAX in
  let lo := (a0 * b0) mod 2 ^ 128 in
  let mid1 := (a0 * b1) mod 2 ^ 128 in
  let mid2 := (a1 * b0) mod 2 ^ 128 in
  let hi := (a1 * b1) mod 2 ^ 128 in
  let mid := (mid1 + mid2) mod 2 ^ 128 in
  let mid_carry := U128_MAX <? mid1 + mid2 in
  let shifted := N.shiftl mid 64 mod 2 ^ 128 in
  let low := (lo + shifted) mod 2 ^ 128 in
  let low_carry := U128_MAX <? lo + shifted in
  let high := (hi + N.shiftr mid 64 + N.shiftl (N.b2n mid_carry) 64
               + N.b2n low_carry) mod 2 ^ 128 in
  (high, low).

(** The order of [(u128, u128)]: the high words decide, then the low. *)
Definition pair_le (x y : N * N) : bool :=
  (x.1 <? y.1) || ((x.1 =? y.1) && (x.2 <=? y.2)).

Definition product_bit (p : N * N) (i : N) : N :=
  if 128 <=? i then N.land (N.shiftr p.1 (i - 128)) 1
  else N.land (N.shiftr p.2 i) 1.

(** One round of the bit-serial division: [st] is [(rem, q)]. *)
Definition div_step (c bit : N) (st : N * N) : N * N :=
  let carry := N.shiftr st.1 127 in
  let rem := N.lor (N.shiftl st.1 1 mod 2 ^ 128) bit in
  let q := N.shiftl st.2 1 mod 2 ^ 128 in
  if (carry =? 1) || (c <=? rem) then ((rem + 2 ^ 128 - c) mod 2 ^ 128, N.lor q 1)
  else (rem, q).

(** [for i in (0..k).rev()]. *)
Fixpoint div_loop (p : N * N) (c : N) (k : nat) (st : N * N) : N * N :=
  match k with
  | O => st
  | S k => div_loop p c k (div_step c (product_bit p (N.of_nat k)) st)
  end.

Definition mul_div (a b c : N) : N := (div_loop (wide_mul a b) c 256 (0, 0)).2.

(** ** The validator set *)

(** The reason an [InvalidValidatorSet] gives, in place of its text. *)
Inductive SetReason :=
| EmptyValidatorSet
| DuplicateAddress (a : Address)
| DuplicateKey.

(** The errors [ValidatorSet::new] returns, of those of [ConsensusError]. *)
Inductive ConsensusError :=
| InvalidValidatorSet (why : SetReason)
| InvalidValidatorKey.

Fixpoint check_validators (well_formed : ValidatorPublicKey -> bool)
    (fingerprint : ValidatorPublicKey -> Digest) (addresses keys : gset N)
    (vs : list ValidatorInfo) : result ConsensusError unit :=
  match vs with
  | [] => Ok tt
  | v :: vs =>
      check? (well_formed (v_public_key v)) else InvalidValidatorKey in
      check? (negb (bool_decide (v_address v ∈ addresses)))
        else InvalidValidatorSet (DuplicateAddress (v_address v)) in
      check? (negb (bool_decide (fingerprint (v_public_key v) ∈ keys)))
        else InvalidValidatorSet DuplicateKey in
      check_validators well_formed fingerprint ({[v_address v]} ∪ addresses)
        ({[fingerprint (v_public_key v)]} ∪ keys) vs
  end.

Definition validator_set_new (well_formed : ValidatorPublicKey -> bool)
    (fingerprint : ValidatorPublicKey -> Digest) (now epoch : N)
    (vs : list ValidatorInfo) : result ConsensusError ValidatorSet :=
  check? (negb (bool_decide (vs = []))) else InvalidValidatorSet EmptyValidatorSet in
  let? _ := check_validators well_formed fingerprint ∅ ∅ vs in
  Ok {| vs_epoch := epoch; vs_validators := vs;
        vs_total_stake := nsum (voting_power <$> vs) mod 2 ^ 128;
        vs_epoch_start := now |}.

Definition get_by_address (s : ValidatorSet) (a : Address) : option ValidatorInfo :=
  snd <$> list_find (fun v => v_address v = a) (vs_validators s).

Definition vs_index_of (s : ValidatorSet) (a : Address) : option nat :=
  fst <$> list_find (fun v => v_address v = a) (vs_validators s).

Definition is_validator (s : ValidatorSet) (a : Address) : bool :=
  match get_by_address s a with Some _ => true | None => false end.

(** ** Normalized weights *)

(** [raw[*b].cmp(&raw[*a]).then(a.cmp(b))]: larger stake first, then lower
    index. *)
Definition stake_ge (raw : list N) (a b : nat) : Prop :=
  raw !!! b < raw !!! a \/ (raw !!! b = raw !!! a /\ (a <= b)%nat).

#[global] Instance stake_ge_dec raw a b : Decision (stake_ge raw a b).
Proof. unfold stake_ge. apply _. Defined.

(** The water-filling loop over the validators still uncapped, in order:
    returns how many are capped, the weight left and the stake left. *)
Fixpoint fill (raw : list N) (cap : N) (order : list nat) (capped : nat)
    (rest rest_raw : N) : nat * N * N :=
  match order with
  | [] => (capped, rest, rest_raw)
  | i :: order =>
      let next := raw !!! i in
      if (rest_raw =? 0) || pair_le (wide_mul next rest) (wide_mul cap rest_raw)
      then (capped, rest, rest_raw)
      else fill raw cap order (S capped)
             ((rest + 2 ^ 128 - cap) mod 2 ^ 128) ((rest_raw + 2 ^ 128 - next) mod 2 ^ 128)
  end.

(** [for (rank, i) in order.iter().enumerate()]. *)
Fixpoint assign_weights (raw : list N) (cap : N) (capped : nat) (rest rest_raw : N)
    (rank : nat) (order : list nat) (weights : list N) : list N :=
  match order with
  | [] => weights
  | i :: order =>
      let w := if (rank <? capped)%nat then cap else mul_div (raw !!! i) rest rest_raw in
      assign_weights raw cap capped rest rest_raw (S rank) order (<[i := w]> weights)
  end.

Definition weight_cap (total : N) : N :=
  sat_mul128 total MAX_VALIDATOR_WEIGHT_BPS / 10000.

Definition normalized_weights (s : ValidatorSet) : list N :=
  let raw := voting_power <$> vs_validators s in
  let total := nsum raw mod 2 ^ 128 in
  if total =? 0 then raw
  else
    let cap := weight_cap total in
    if (cap =? 0) || (sat_mul128 (N.of_nat (length raw)) cap <? total) then raw
    else
      let order := merge_sort (stake_ge raw) (seq 0 (length raw)) in
      let '(capped, rest, rest_raw) := fill raw cap order 0 total total in
      assign_weights raw cap capped rest rest_raw 0 order raw.

(** ** The committee of a validator set *)

Definition from_validator_set (fingerprint : ValidatorPublicKey -> Digest)
    (s : ValidatorSet) (seat_budget : N) : result FinalityError Committee :=
  let weights := normalized_weights s in
  let seats := apportion weights (N.max seat_budget (N.of_nat (length (vs_validators s)))) in
  let members :=
    (fun p => {| m_address := v_address p.1; m_public_key := v_public_key p.1;
                 m_stake := voting_power p.1; m_seats := p.2 |})
    <$> filter (fun p => 0 < p.2) (zip (vs_validators s) seats) in
  from_members fingerprint (vs_epoch s) members.

(** ** Wide arithmetic is exact *)

Lemma land_u64 a : N.land a U64_MAX = a mod 2 ^ 64.
Proof. change U64_MAX with (N.ones 64). apply N.land_ones. Qed.

Lemma carry_split x : x < 2 ^ 129 ->
  x = x mod 2 ^ 128 + 2 ^ 128 * N.b2n (U128_MAX <? x).
Proof.
  intros Hx. change (2 ^ 129) with (2 * 2 ^ 128) in Hx. unfold U128_MAX.
  pose proof (N.div_mod x (2 ^ 128) ltac:(done)).
  destruct (N.ltb_spec (2 ^ 128 - 1) x); cbn [N.b2n]; nia.
Qed.

Lemma mul_lt_pow64 x y : x < 2 ^ 64 -> y < 2 ^ 64 -> (x * y) mod 2 ^ 128 = x * y.
Proof. intros. apply N.mod_small. change (2 ^ 128) with (2 ^ 64 * 2 ^ 64). nia. Qed.

Lemma shiftl_mod m : N.shiftl m 64 mod 2 ^ 128 = (m mod 2 ^ 64) * 2 ^ 64.
Proof.
  rewrite N.shiftl_mul_pow2. change (2 ^ 128) with (2 ^ 64 * 2 ^ 64).
  rewrite N.Div0.mul_mod_distr_r. done.
Qed.

Lemma wide_mul_value a b :
  a < 2 ^ 128 -> b < 2 ^ 128 ->
  (wide_mul a b).1 * 2 ^ 128 + (wide_mul a b).2 = a * b /\
  (wide_mul a b).1 < 2 ^ 128 /\ (wide_mul a b).2 < 2 ^ 128.
Proof.
  intros Ha Hb. unfold wide_mul. cbv zeta. cbn [fst snd].
  rewrite !land_u64, !shiftl_mod, !N.shiftr_div_pow2, N.shiftl_mul_pow2.
  pose proof (N.div_mod a (2 ^ 64) ltac:(done)) as Ea.
  pose proof (N.div_mod b (2 ^ 64) ltac:(done)) as Eb.
  pose proof (N.mod_lt a (2 ^ 64) ltac:(done)) as La0.
  pose proof (N.mod_lt b (2 ^ 64) ltac:(done)) as Lb0.
  assert (a / 2 ^ 64 < 2 ^ 64) as La1 by (apply N.Div0.div_lt_upper_bound; exact Ha).
  assert (b / 2 ^ 64 < 2 ^ 64) as Lb1 by (apply N.Div0.div_lt_upper_bound; exact Hb).
  revert Ea Eb La0 Lb0 La1 Lb1.
  generalize (a / 2 ^ 64) as a1, (a mod 2 ^ 64) as a0, (b / 2 ^ 64) as b1, (b mod 2 ^ 64) as b0.
  intros a1 a0 b1 b0 Ea Eb La0 Lb0 La1 Lb1. rewrite !mul_lt_pow64 by done.
  set (B := 2 ^ 64) in *. change (2 ^ 128) with (B * B) in *.
  assert (B = 18446744073709551616) as HB by reflexivity.
  pose proof (carry_split (a0 * b1 + a1 * b0)) as Em.
  change (2 ^ 129) with (2 * (B * B)) in Em. change (2 ^ 128) with (B * B) in Em.
  specialize (Em ltac:(nia)). revert Em.
  generalize (N.b2n (U128_MAX <? a0 * b1 + a1 * b0)) as mc.
  pose proof (N.mod_lt (a0 * b1 + a1 * b0) (B * B) ltac:(done)) as Lm. revert Lm.
  generalize ((a0 * b1 + a1 * b0) mod (B * B)) as mid. intros mid Lm mc Em.
  pose proof (N.div_mod mid B ltac:(done)) as Emid.
  pose proof (N.mod_lt mid B ltac:(done)) as Lml. revert Emid Lml.
  generalize (mid / B) as mh, (mid mod B) as ml. intros mh ml Emid Lml.
  pose proof (carry_split (a0 * b0 + ml * B)) as El.
  change (2 ^ 129) with (2 * (B * B)) in El. change (2 ^ 128) with (B * B) in El.
  specialize (El ltac:(nia)). revert El.
  pose proof (N.mod_lt (a0 * b0 + ml * B) (B * B) ltac:(done)) as Ll. revert Ll.
  generalize (N.b2n (U128_MAX <? a0 * b0 + ml * B)) as lc.
  generalize ((a0 * b0 + ml * B) mod (B * B)) as low. intros low lc Ll El.
  assert (a * b = B * B * (a1 * b1 + mh + mc * B + lc) + low) as Hab.
  { rewrite Ea, Eb.
    transitivity (B * B * (a1 * b1) + B * (a0 * b1 + a1 * b0) + a0 * b0); [lia|].
    rewrite Em, Emid. nia. }
  assert (a * b < B * B * (B * B)) as Hlt by (clear -Ha Hb; nia).
  assert (a1 * b1 + mh + mc * B + lc < B * B) as Hh by (clear -Hab Hlt; nia).
  rewrite N.mod_small by done. split; [clear -Hab; lia|done].
Qed.

Lemma pair_le_value x y :
  x.2 < 2 ^ 128 -> y.2 < 2 ^ 128 ->
  pair_le x y = true <-> x.1 * 2 ^ 128 + x.2 <= y.1 * 2 ^ 128 + y.2.
Proof.
  intros Hx Hy. unfold pair_le. rewrite orb_true_iff, andb_true_iff, N.ltb_lt, N.eqb_eq, N.leb_le.
  generalize dependent (2 ^ 128). intros. nia.
Qed.

Lemma wide_mul_le a b c d :
  a < 2 ^ 128 -> b < 2 ^ 128 -> c < 2 ^ 128 -> d < 2 ^ 128 ->
  pair_le (wide_mul a b) (wide_mul c d) = (a * b <=? c * d).
Proof.
  intros Ha Hb Hc Hd. destruct (wide_mul_value a b Ha Hb) as (E1 & _ & L1).
  destruct (wide_mul_value c d Hc Hd) as (E2 & _ & L2).
  apply eq_true_iff_eq. rewrite pair_le_value, N.leb_le, E1, E2 by done. done.
Qed.

(** ** The bit-serial division computes the quotient *)

Lemma land_1 x : N.land x 1 = x mod 2.
Proof. change 1 with (N.ones 1). apply N.land_ones. Qed.

Lemma product_bit_value p i :
  p.2 < 2 ^ 128 -> product_bit p i = ((p.1 * 2 ^ 128 + p.2) / 2 ^ i) mod 2.
Proof.
  intros Hl. unfold product_bit. rewrite !land_1, !N.shiftr_div_pow2.
  destruct (N.leb_spec 128 i) as [Hi|Hi].
  - replace (2 ^ i) with (2 ^ 128 * 2 ^ (i - 128))
      by (rewrite <-N.pow_add_r; f_equal; lia).
    rewrite <-N.Div0.div_div, N.div_add_l by done. by rewrite (N.div_small p.2), N.add_0_r.
  - replace (2 ^ 128) with (2 ^ (128 - i - 1) * 2 * 2 ^ i).
    2:{ rewrite <-N.mul_assoc, (N.mul_comm 2), N.mul_assoc, <-N.pow_add_r.
        rewrite <-(N.pow_1_r 2) at 2. rewrite <-N.pow_add_r. f_equal. lia. }
    rewrite !N.mul_assoc, N.div_add_l by (apply N.pow_nonzero; done).
    by rewrite N.add_comm, N.Div0.mod_add.
Qed.

Lemma lor_even x b : b <= 1 -> x mod 2 = 0 -> N.lor x b = x + b.
Proof.
  intros Hb Hx. destruct (decide (b = 0)) as [->|]; [by rewrite N.lor_0_r, N.add_0_r|].
  replace b with 1 by lia. destruct x as [|[p|p|]]; [done|exfalso; lia|done|done].
Qed.

Lemma shl1_mod x : N.shiftl x 1 mod 2 ^ 128 = (2 * x) mod 2 ^ 128.
Proof. rewrite N.shiftl_mul_pow2. by rewrite N.mul_comm. Qed.

Lemma even_mod x : ((2 * x) mod 2 ^ 128) mod 2 = 0.
Proof.
  change (2 ^ 128) with (2 * 2 ^ 127). rewrite N.Div0.mul_mod_distr_l.
  by rewrite N.mul_comm, N.Div0.mod_mul.
Qed.

Lemma double_div_mod c q r bit :
  r < c -> bit <= 1 ->
  let s := 2 * r + bit in
  (c <= s -> (2 * (c * q + r) + bit) / c = 2 * q + 1 /\ (2 * (c * q + r) + bit) mod c = s - c) /\
  (s < c -> (2 * (c * q + r) + bit) / c = 2 * q /\ (2 * (c * q + r) + bit) mod c = s).
Proof.
  intros Hr Hb s. split; intros Hs; split; symmetry.
  - apply (N.div_unique _ c _ (s - c)); unfold s in *; lia.
  - apply (N.mod_unique _ c (2 * q + 1)); unfold s in *; lia.
  - apply (N.div_unique _ c _ s); unfold s in *; lia.
  - apply (N.mod_unique _ c (2 * q)); unfold s in *; lia.
Qed.

Lemma shl1_range r q W bit :
  bit <= 1 -> 0 < W ->
  (2 * q) mod (2 * W) + 1 < 2 * W /\
  (W <= r < 2 * W -> r / W = 1 /\ (2 * r) mod (2 * W) = 2 * r - 2 * W) /\
  (r < W -> r / W = 0 /\ (2 * r) mod (2 * W) = 2 * r).
Proof.
  intros Hb HW. split_and!.
  - rewrite N.Div0.mul_mod_distr_l. pose proof (N.mod_lt q W ltac:(lia)). lia.
  - intros Hr. split; symmetry;
      [apply (N.div_unique r W 1 (r - W))|apply (N.mod_unique _ (2 * W) 1)]; lia.
  - intros Hr. split; [apply N.div_small|apply N.mod_small]; lia.
Qed.

(** One step of long division: shifting in a bit keeps quotient and
    remainder exact, the quotient modulo its width. *)
Lemma div_step_exact c bit x :
  0 < c < 2 ^ 128 -> bit <= 1 ->
  div_step c bit (x mod c, (x / c) mod 2 ^ 128) =
  ((2 * x + bit) mod c, ((2 * x + bit) / c) mod 2 ^ 128).
Proof.
  intros Hc Hb. unfold div_step. cbn [fst snd]. rewrite !shl1_mod, N.shiftr_div_pow2.
  rewrite !lor_even by (try done; apply even_mod).
  pose proof (N.mod_lt x c ltac:(lia)) as Hr. pose proof (N.div_mod x c ltac:(lia)) as Ex.
  destruct (double_div_mod c (x / c) (x mod c) bit Hr Hb) as [Hge Hlt]. rewrite <-Ex in Hge, Hlt.
  clear Ex. revert Hr Hge Hlt. generalize (x mod c) as r, (x / c) as q. intros r q Hr Hge Hlt.
  assert (2 * (q mod 2 ^ 128) mod 2 ^ 128 = (2 * q) mod 2 ^ 128) as ->
    by (by rewrite N.Div0.mul_mod_idemp_r).
  destruct (shl1_range r q (2 ^ 127) bit Hb ltac:(done)) as (Hroom & Hbig & Hsmall).
  change (2 ^ 128) with (2 * 2 ^ 127) in *. revert Hc Hroom Hbig Hsmall.
  generalize (2 ^ 127) as W. intros W Hc Hroom Hbig Hsmall.
  destruct (decide (c <= 2 * r + bit)) as [Hle|Hgt].
  - destruct (Hge Hle) as [-> ->]. rewrite <-(N.Div0.add_mod_idemp_l (2 * q)).
    rewrite (N.mod_small (_ + 1)) by done. clear Hroom.
    destruct (decide (W <= r)) as [HW|HW].
    + destruct Hbig as [-> ->]; [clear -HW Hr Hc; lia|]. cbn [N.eqb Pos.eqb orb].
      apply (f_equal2 pair); [|done]. clear -HW Hr Hle Hc Hb. rewrite N.mod_small; lia.
    + destruct Hsmall as [-> ->]; [clear -HW; lia|]. rewrite (proj2 (N.leb_le _ _) Hle), orb_true_r.
      apply (f_equal2 pair); [|done]. clear -HW Hr Hle Hc Hb.
      symmetry. apply (N.mod_unique _ (2 * W) 1); lia.
  - apply N.nle_gt in Hgt. destruct (Hlt Hgt) as [-> ->].
    destruct Hsmall as [-> ->]; [clear -Hgt Hc; lia|]. by rewrite (proj2 (N.leb_gt _ _) Hgt).
Qed.

Lemma div_loop_exact p c k :
  0 < c < 2 ^ 128 -> p.2 < 2 ^ 128 ->
  let X := p.1 * 2 ^ 128 + p.2 in
  div_loop p c k ((X / 2 ^ N.of_nat k) mod c, (X / 2 ^ N.of_nat k / c) mod 2 ^ 128) =
  (X mod c, (X / c) mod 2 ^ 128).
Proof.
  intros Hc Hl X. induction k as [|k IH]; cbn [div_loop].
  { change (2 ^ N.of_nat 0) with 1. by rewrite N.div_1_r. }
  rewrite product_bit_value by done. fold X.
  pose proof (N.mod_lt (X / 2 ^ N.of_nat k) 2 ltac:(done)).
  rewrite div_step_exact by (try done; lia).
  replace (2 ^ N.of_nat (S k)) with (2 ^ N.of_nat k * 2)
    by (rewrite Nat2N.inj_succ, N.pow_succ_r'; lia).
  rewrite <-N.Div0.div_div, <-N.div_mod by done. exact IH.
Qed.

Lemma mul_div_mod a b c :
  a < 2 ^ 128 -> b < 2 ^ 128 -> 0 < c < 2 ^ 128 ->
  mul_div a b c = (a * b / c) mod 2 ^ 128.
Proof.
  intros Ha Hb Hc. unfold mul_div.
  destruct (wide_mul_value a b Ha Hb) as (E & Lh & Ll).
  pose proof (div_loop_exact (wide_mul a b) c 256 Hc Ll) as Hx. cbv zeta in Hx.
  rewrite E in Hx. change (N.of_nat 256) with 256 in Hx.
  assert (a * b / 2 ^ 256 = 0) as Hz.
  { apply N.div_small. change (2 ^ 256) with (2 ^ 128 * 2 ^ 128). nia. }
  rewrite Hz in Hx. rewrite N.mod_small, N.Div0.div_0_l in Hx by lia.
  change (0 mod 2 ^ 128) with 0 in Hx. by rewrite Hx.
Qed.

(** ** Water-filling *)

#[global] Instance stake_ge_total raw : Total (stake_ge raw).
Proof. intros a b. unfold stake_ge. lia. Qed.

#[global] Instance stake_ge_trans raw : Transitive (stake_ge raw).
Proof. intros a b c. unfold stake_ge. lia. Qed.

Abbreviation stakes raw order := ((fun i => raw !!! i) <$> order) (only parsing).

Lemma wrapping_sub_small a b : b <= a -> a < 2 ^ 128 -> (a + 2 ^ 128 - b) mod 2 ^ 128 = a - b.
Proof.
  generalize (2 ^ 128) as W. intros W Hb Ha. symmetry. apply (N.mod_unique _ W 1); lia.
Qed.

(** Capping one validator leaves at least as much weight as stake. *)
Lemma cap_keeps_ratio next rest cap rest_raw :
  rest_raw <= rest -> next <= rest_raw -> cap * rest_raw < next * rest ->
  cap < rest /\ rest_raw - next <= rest - cap.
Proof. intros H1 H2 H3. split; nia. Qed.

Lemma fill_spec raw cap order capped rest :
  StronglySorted (stake_ge raw) order -> order <> [] ->
  Forall (fun i => 0 < raw !!! i) order ->
  nsum (stakes raw order) <= rest -> rest < 2 ^ 128 -> cap < 2 ^ 128 ->
  rest <= N.of_nat (length order) * cap ->
  exists m rest', fill raw cap order capped rest (nsum (stakes raw order)) =
      ((capped + m)%nat, rest', nsum (stakes raw (drop m order))) /\
    (m < length order)%nat /\ rest = rest' + N.of_nat m * cap /\
    nsum (stakes raw (drop m order)) <= rest' /\
    Forall (fun i => raw !!! i * rest' <= cap * nsum (stakes raw (drop m order))) (drop m order).
Proof.
  revert capped rest. induction order as [|i order IH]; intros capped rest Hs Hne Hp Hrr Hr Hc Hn;
    [done|]. apply StronglySorted_cons in Hs as [Hi Hs]. apply Forall_cons in Hp as [Hpi Hp].
  cbn [fill]. rewrite fmap_cons, nsum_cons in *. set (S := nsum (stakes raw order)) in *.
  rewrite (proj2 (N.eqb_neq _ 0)) by lia. cbn [orb].
  rewrite wide_mul_le by lia.
  destruct (N.leb_spec (raw !!! i * rest) (cap * (raw !!! i + S))) as [Hle|Hgt].
  { exists 0%nat, rest. rewrite drop_0, Nat.add_0_r, fmap_cons, nsum_cons. fold S.
    split_and!; [done|simpl; lia|lia|done|]. constructor; [done|].
    eapply Forall_impl; [exact Hi|]. intros j [Hj|[Hj _]]; cbn; [nia|by rewrite Hj]. }
  destruct (cap_keeps_ratio (raw !!! i) rest cap (raw !!! i + S)) as [Hcr Hrat]; [lia..|].
  rewrite length_cons in Hn.
  assert (order <> []) as Hne' by (intros ->; simpl in Hn; lia).
  rewrite !wrapping_sub_small by lia.
  replace (raw !!! i + S - raw !!! i) with S in * by lia.
  destruct (IH (Datatypes.S capped) (rest - cap)) as (m & rest' & Hf & Hm & Hrest & Hfin);
    [done|done|done|done|lia|done|lia|].
  exists (Datatypes.S m), rest'. cbn [drop]. rewrite Hf.
  split_and!; [f_equal; f_equal; lia|simpl; lia|lia|apply Hfin..].
Qed.

Lemma assign_weights_length raw cap capped rest rr rank order ws :
  length (assign_weights raw cap capped rest rr rank order ws) = length ws.
Proof.
  revert rank ws. induction order as [|i order IH]; intros rank ws; cbn [assign_weights]; [done|].
  by rewrite IH, length_insert.
Qed.

Lemma assign_weights_lookup_ne raw cap capped rest rr rank order ws i :
  i ∉ order -> assign_weights raw cap capped rest rr rank order ws !! i = ws !! i.
Proof.
  revert rank ws. induction order as [|j order IH]; intros rank ws Hi; cbn [assign_weights]; [done|].
  apply not_elem_of_cons in Hi as [? ?]. rewrite IH by done. by apply list_lookup_insert_ne.
Qed.

Lemma assign_weights_lookup raw cap capped rest rr rank order ws k i :
  NoDup order -> order !! k = Some i -> (i < length ws)%nat ->
  assign_weights raw cap capped rest rr rank order ws !! i =
  Some (if (rank + k <? capped)%nat then cap else mul_div (raw !!! i) rest rr).
Proof.
  revert rank ws k. induction order as [|j order IH]; intros rank ws k Hnd Hk Hl; [done|].
  apply NoDup_cons in Hnd as [Hj Hnd]. cbn [assign_weights]. destruct k as [|k]; simpl in Hk.
  - injection Hk as ->. rewrite assign_weights_lookup_ne by done.
    rewrite list_lookup_insert_eq by done. by rewrite Nat.add_0_r.
  - rewrite (IH _ _ k) by (try done; by rewrite length_insert). by rewrite Nat.add_succ_r.
Qed.

Section normalize.
Context (raw : list N) (total cap : N).
Context (Htotal : nsum raw = total) (Hmax : total <= U128_MAX) (Hpos : Forall (N.lt 0) raw).
Context (Hcap : cap <> 0) (Hfits : total <= N.of_nat (length raw) * cap).
Context (Hcapmax : cap <= U128_MAX) (Htot0 : total <> 0).

Let order := merge_sort (stake_ge raw) (seq 0 (length raw)).

Lemma order_perm : order ≡ₚ seq 0 (length raw).
Proof. apply merge_sort_Permutation. Qed.

Lemma order_nodup : NoDup order.
Proof. rewrite order_perm. apply NoDup_seq. Qed.

Lemma stakes_seq (l : list N) : stakes l (seq 0 (length l)) = l.
Proof.
  apply list_eq. intros i. rewrite list_lookup_fmap.
  destruct (decide (i < length l)%nat) as [Hi|Hi].
  - rewrite lookup_seq_lt by done. simpl. by rewrite list_lookup_lookup_total_lt.
  - rewrite lookup_seq_ge by lia. by rewrite lookup_ge_None_2 by lia.
Qed.

Lemma order_sum (l : list N) : length l = length raw -> nsum (stakes l order) = nsum l.
Proof.
  intros Hl. etransitivity; [apply nsum_perm, fmap_Permutation, order_perm|].
  rewrite <-Hl. by rewrite stakes_seq.
Qed.

Lemma order_elem i : i ∈ order <-> (i < length raw)%nat.
Proof. rewrite order_perm, elem_of_seq. lia. Qed.

Lemma order_pos : Forall (fun i => 0 < raw !!! i) order.
Proof.
  apply Forall_forall. intros i Hi%order_elem.
  rewrite Forall_forall in Hpos. apply Hpos.
  by apply list_elem_of_lookup_total_2.
Qed.

Lemma order_length : length order = length raw.
Proof. by rewrite order_perm, length_seq. Qed.

(** The weights the loop assigns: the first [m] of the order are capped,
    the others get their share of the rest. *)
Lemma filled_weights :
  exists m rest rr ws,
    assign_weights raw cap m rest rr 0 order raw = ws /\
    fill raw cap order 0 total total = (m, rest, rr) /\
    length ws = length raw /\ (m < length raw)%nat /\
    total = rest + N.of_nat m * cap /\ rr <= rest /\ 0 < rr /\
    rr = nsum (stakes raw (drop m order)) /\
    stakes ws order = replicate m cap ++ ((fun i => raw !!! i * rest / rr) <$> drop m order) /\
    (forall i, i ∈ drop m order -> raw !!! i <= raw !!! i * rest / rr <= cap).
Proof.
  pose proof order_length as Hlen. unfold U128_MAX in *.
  destruct (fill_spec raw cap order 0 total) as (m & rest & Hf & Hm & Hrest & Hrr & Hle);
    [by apply StronglySorted_merge_sort; apply _|intros E; rewrite E in Hlen; simpl in Hlen; lia
    |apply order_pos|rewrite order_sum; [lia|done]|lia|lia|by rewrite Hlen|].
  rewrite order_sum, Htotal in Hf by done. set (rr := nsum (stakes raw (drop m order))) in *.
  rewrite Hlen in Hm.
  assert (0 < rr) as Hrr0.
  { destruct (lookup_lt_is_Some_2 order m) as [i Hi]; [lia|].
    unfold rr. rewrite (drop_S order i m Hi), fmap_cons, nsum_cons.
    pose proof order_pos as Hp. rewrite Forall_lookup in Hp. specialize (Hp _ _ Hi). lia. }
  assert (forall i, i ∈ drop m order -> raw !!! i <= raw !!! i * rest / rr <= cap) as Hb.
  { intros i Hi. rewrite Forall_forall in Hle. specialize (Hle i Hi). split.
    - apply N.div_le_lower_bound; [lia|]. clear -Hrr. nia.
    - apply N.Div0.div_le_upper_bound. rewrite (N.mul_comm rr). done. }
  exists m, rest, rr, (assign_weights raw cap m rest rr 0 order raw).
  split_and!; [done|done|by rewrite assign_weights_length|done|done|done|done|done| |done].
  apply list_eq. intros k. rewrite list_lookup_fmap.
  destruct (order !! k) as [i|] eqn:Hk; simpl.
  2:{ apply lookup_ge_None in Hk. symmetry. apply lookup_ge_None.
      rewrite length_app, length_replicate, length_fmap, length_drop. lia. }
  assert (i < length raw)%nat as Hi by (apply order_elem; by eapply list_elem_of_lookup_2).
  rewrite (list_lookup_total_alt), (assign_weights_lookup _ _ _ _ _ _ _ _ k) by
    (try done; apply order_nodup). simpl. destruct (Nat.ltb_spec k m) as [Hkm|Hkm].
  - rewrite lookup_app_l by (by rewrite length_replicate). by rewrite lookup_replicate_2.
  - rewrite lookup_app_r by (by rewrite length_replicate). rewrite length_replicate.
    rewrite list_lookup_fmap, lookup_drop, Nat.add_comm, Nat.sub_add, Hk by lia. simpl. f_equal.
    assert (i ∈ drop m order) as Hd.
    { apply list_elem_of_lookup. exists (k - m)%nat. rewrite lookup_drop. rewrite <-Hk. f_equal. lia. }
    specialize (Hb i Hd). pose proof order_sum raw eq_refl as Hos.
    assert (raw !!! i <= total).
    { rewrite <-Htotal. apply nsum_elem_le. by apply list_elem_of_lookup_total_2. }
    rewrite mul_div_mod by (clear -Hrest Hmax H Hrr Hrr0; lia).
    apply N.mod_small. clear -Hb Hcapmax. lia.
Qed.
End normalize.

(** Floors of the shares of [rest] add up to it, less under one each. *)
Lemma floor_shares (l : list N) rest :
  0 < nsum l ->
  nsum ((fun x => x * rest / nsum l) <$> l) <= rest /\
  rest < nsum ((fun x => x * rest / nsum l) <$> l) + N.of_nat (length l).
Proof.
  intros Hp. pose proof (nsum_div_mod ((fun x => x * rest) <$> l) (nsum l) ltac:(lia)) as Hd.
  rewrite nsum_scale, <-!list_fmap_compose in Hd. unfold compose in Hd.
  assert (l <> []) by (intros ->; done).
  pose proof (nsum_bound ((fun x => (x * rest) mod nsum l) <$> l) (nsum l)) as Hb.
  rewrite length_fmap in Hb.
  assert (Forall (fun e => e < nsum l) ((fun x => (x * rest) mod nsum l) <$> l)) as Hf.
  { apply Forall_fmap, Forall_forall. intros x _. apply N.mod_lt. lia. }
  specialize (Hb Hf). revert Hd Hb Hp.
  generalize (nsum ((fun x => x * rest / nsum l) <$> l)) as q.
  generalize (nsum ((fun x => (x * rest) mod nsum l) <$> l)) as r.
  assert (0 < N.of_nat (length l)) as Hl by (destruct l; simpl in *; [done|lia]).
  revert Hl. generalize (nsum l) as t, (N.of_nat (length l)) as n. clear.
  intros t n Hn r q Hd Hb Ht. split; nia.
Qed.

(** The 128-bit division of a 256-bit product is exact: [mul_div a b c] is
    the floor of [a * b / c] whenever the divisor is not zero and the
    quotient fits, although the running remainder overflows 128 bits. *)
Theorem mul_div_exact a b c :
  a <= U128_MAX -> b <= U128_MAX -> 0 < c <= U128_MAX -> a * b / c <= U128_MAX ->
  mul_div a b c = a * b / c.
Proof.
  unfold U128_MAX. intros Ha Hb Hc Hq. rewrite mul_div_mod by (clear Hq; lia).
  revert Hq. generalize (a * b / c). intros. apply N.mod_small. lia.
Qed.

Lemma mul_div_exact_witness :
  mul_div U128_MAX (2 ^ 127) (2 ^ 127 + 1) = U128_MAX * 2 ^ 127 / (2 ^ 127 + 1).
Proof. apply mul_div_exact; vm_compute; repeat split; discriminate || reflexivity. Defined.

Lemma weight_cap_le total : weight_cap total <= total /\ weight_cap total <= U128_MAX.
Proof.
  unfold weight_cap, sat_mul128, MAX_VALIDATOR_WEIGHT_BPS, U128_MAX. lia.
Qed.

Definition powers (s : ValidatorSet) : list N := voting_power <$> vs_validators s.

(** The set is large enough for the cap to hold for every validator. *)
Definition cap_applies (s : ValidatorSet) : Prop :=
  let total := nsum (powers s) in
  weight_cap total <> 0 /\ total <= N.of_nat (length (powers s)) * weight_cap total.

#[global] Instance cap_applies_dec s : Decision (cap_applies s).
Proof. unfold cap_applies. apply _. Defined.

Lemma normalized_uncapped s :
  nsum (powers s) <= U128_MAX -> ~ cap_applies s -> normalized_weights s = powers s.
Proof.
  intros Hmax Hna. unfold normalized_weights. fold (powers s). cbv zeta.
  rewrite (N.mod_small (nsum (powers s))) by (unfold U128_MAX in *; lia).
  destruct (N.eqb_spec (nsum (powers s)) 0); [done|].
  destruct ((_ =? 0) || _) eqn:E; [done|]. exfalso. apply Hna. propify.
  unfold sat_mul128 in *. split; lia.
Qed.

Lemma nsum_replicate m x : nsum (replicate m x) = N.of_nat m * x.
Proof. induction m as [|m IH]; [done|]. cbn [replicate]. rewrite nsum_cons. lia. Qed.

Lemma split_weight order (ws : list N) m cap (f : nat -> N) i wi :
  i ∈ order -> ws !! i = Some wi ->
  stakes ws order = replicate m cap ++ (f <$> drop m order) ->
  wi = cap \/ (i ∈ drop m order /\ wi = f i).
Proof.
  intros (k & Hk)%list_elem_of_lookup Hi Hws.
  assert (stakes ws order !! k = Some wi) as Hwk.
  { rewrite list_lookup_fmap, Hk. simpl. by rewrite (list_lookup_total_correct _ _ _ Hi). }
  rewrite Hws in Hwk. apply lookup_app_Some in Hwk as [Hwk|[Hge Hwk]].
  { apply lookup_replicate in Hwk as [-> _]. by left. }
  right. rewrite length_replicate in *.
  assert (drop m order !! (k - m)%nat = Some i) as Hd.
  { rewrite lookup_drop, <-Hk. f_equal. lia. }
  rewrite list_lookup_fmap, Hd in Hwk. injection Hwk as <-.
  split; [by eapply list_elem_of_lookup_2|done].
Qed.

Lemma normalized_capped s :
  nsum (powers s) <= U128_MAX -> Forall (N.lt 0) (powers s) -> cap_applies s ->
  let cap := weight_cap (nsum (powers s)) in
  let w := normalized_weights s in
  length w = length (powers s) /\
  (forall i wi, w !! i = Some wi -> wi <= cap /\ (wi = cap \/ powers s !!! i <= wi)) /\
  nsum w <= nsum (powers s) < nsum w + N.of_nat (length (powers s)).
Proof.
  intros Hmax Hpos [Hc Hfit] cap w. fold cap in Hc, Hfit. set (raw := powers s) in *.
  destruct (weight_cap_le (nsum raw)) as [Hct Hcm]. fold cap in Hct, Hcm.
  assert (nsum raw <> 0) as Hnz by (clear -Hc Hct; lia).
  destruct (filled_weights raw (nsum raw) cap eq_refl Hmax Hpos Hc Hfit Hcm Hnz)
    as (m & rest & rr & ws & Has & Hf & Hlen & Hm & Hrest & Hrr & Hrr0 & Err & Hws & Hb).
  set (order := merge_sort (stake_ge raw) (seq 0 (length raw))) in *.
  assert (w = ws) as ->.
  { unfold w, normalized_weights. fold (powers s) raw. cbv zeta. unfold U128_MAX in *.
    rewrite (N.mod_small (nsum raw)) by (clear -Hmax; lia).
    rewrite (proj2 (N.eqb_neq _ _) Hnz). fold cap order. rewrite Hf, Has.
    rewrite (proj2 (N.eqb_neq _ _) Hc). cbn [orb].
    rewrite (proj2 (N.ltb_ge _ _)); [done|]. unfold sat_mul128, U128_MAX. clear -Hfit Hmax. lia. }
  split; [done|]. split.
  - intros i wi Hi. assert (i < length raw)%nat as Hlt by (rewrite <-Hlen; by eapply lookup_lt_Some).
    assert (i ∈ order) as Hin
      by (unfold order; rewrite merge_sort_Permutation; apply elem_of_seq; lia).
    destruct (split_weight _ _ _ _ _ _ _ Hin Hi Hws) as [->|[Hd ->]]; [split; [done|by left]|].
    destruct (Hb i Hd). split; [done|by right].
  - assert (nsum ws = nsum (stakes ws order)) as ->.
    { symmetry. by apply (order_sum raw (nsum raw) cap). }
    rewrite Hws, nsum_app, nsum_replicate.
    pose proof (floor_shares (stakes raw (drop m order)) rest) as Hs.
    rewrite <-Err, <-list_fmap_compose, length_fmap, length_drop in Hs. unfold compose in Hs.
    specialize (Hs Hrr0). revert Hs Hrest.
    assert (length order = length raw) as ->
      by (unfold order; rewrite merge_sort_Permutation; apply length_seq).
    generalize (nsum ((fun i => raw !!! i * rest / rr) <$> drop m order)) as q.
    clear -Hm. intros q Hs ->. lia.
Qed.

(** C33: the normalized voting weights of a set whose validators all have voting
    power, with a total stake that fits 128 bits. When the set is large enough for the ten per cent cap to hold for
    everyone, no weight exceeds the cap, a validator that is not capped keeps
    at least its own stake, and the weights add up to the total stake less a
    remainder below one per validator; water-filling never underflows. When
    it is not (as with fewer than ten validators, or a cap that rounds down to
    too little), the weights are the stakes and nothing is capped. *)
Theorem normalized_weights_spec s :
  nsum (powers s) <= U128_MAX -> Forall (N.lt 0) (powers s) ->
  let cap := weight_cap (nsum (powers s)) in
  let w := normalized_weights s in
  (cap_applies s ->
     length w = length (powers s) /\
     (forall i wi, w !! i = Some wi -> wi <= cap /\ (wi = cap \/ powers s !!! i <= wi)) /\
     nsum w <= nsum (powers s) < nsum w + N.of_nat (length (powers s))) /\
  (~ cap_applies s -> w = powers s).
Proof.
  intros Hmax Hpos cap w. split; [by apply normalized_capped|by apply normalized_uncapped].
Qed.

(** Test keys, one per seed, told apart by their first byte. *)
Definition sample_key (n : N) : ValidatorPublicKey := {| ml_dsa := [n]; p256 := [4] |}.
Definition sample_fp (k : ValidatorPublicKey) : N := hd 0 (ml_dsa k).
Definition sample_validators (stakes : list N) : list ValidatorInfo :=
  imap (fun i st => validator_new 0 (N.of_nat i + 1) (sample_key (N.of_nat i)) [] st) stakes.
Definition sample_set (stakes : list N) : ValidatorSet :=
  {| vs_epoch := 0; vs_validators := sample_validators stakes;
     vs_total_stake := nsum stakes; vs_epoch_start := 0 |}.

Lemma normalized_weights_spec_witness :
  let s := sample_set (100 :: 15 :: replicate 17 5) in
  normalized_weights s = 20 :: 20 :: replicate 17 9 /\
  (cap_applies s ->
   nsum (normalized_weights s) <= nsum (powers s)
     < nsum (normalized_weights s) + N.of_nat (length (powers s))).
Proof.
  intros s. split; [vm_compute; reflexivity|]. intros Ha.
  apply (normalized_weights_spec s); [by vm_compute| |done].
  apply (bool_decide_unpack _). vm_compute. exact I.
Defined.

(** A validator without voting power (inactive, jailed, unbonding or
    unstaked) breaks the normalization: when every validator that has stake
    is capped, the stake left to divide by is zero and the bit-serial
    division answers with the largest 128-bit number, so the one validator
    that should have no weight gets all of it. *)
Theorem zero_power_takes_all :
  let s := sample_set (replicate 9 100 ++ [0]) in
  is_ok (validator_set_new (fun _ => true) sample_fp 0 0 (vs_validators s)) = true /\
  powers s !! 9%nat = Some 0 /\
  normalized_weights s = replicate 9 90 ++ [U128_MAX].
Proof. vm_compute. split_and!; reflexivity. Qed.

(** ** From the validator set to the committee *)

Lemma check_validators_ok wf fp addrs keys vs :
  check_validators wf fp addrs keys vs = Ok tt <->
  Forall (fun v => wf (v_public_key v) = true) vs /\
  NoDup (v_address <$> vs) /\ NoDup (fp <$> (v_public_key <$> vs)) /\
  (forall v, v ∈ vs -> v_address v ∉ addrs /\ fp (v_public_key v) ∉ keys).
Proof.
  revert addrs keys. induction vs as [|v vs IH]; intros addrs keys; cbn [check_validators].
  { split; [intros _|done]. split_and!; [constructor..|]. by intros ? ?%elem_of_nil. }
  rewrite !guard_ok, !negb_true_iff, !bool_decide_eq_false, IH.
  rewrite !fmap_cons, !NoDup_cons, Forall_cons.
  assert (v_address v ∈ v_address <$> vs <-> exists v', v' ∈ vs /\ v_address v' = v_address v) as Ha.
  { rewrite list_elem_of_fmap. naive_solver. }
  assert (fp (v_public_key v) ∈ fp <$> (v_public_key <$> vs) <->
          exists v', v' ∈ vs /\ fp (v_public_key v') = fp (v_public_key v)) as Hk.
  { rewrite <-list_fmap_compose, list_elem_of_fmap. unfold compose. naive_solver. }
  rewrite Ha, Hk. setoid_rewrite elem_of_cons. set_solver.
Qed.

Lemma zip_fst {A B} (l : list A) (k : list B) : length l = length k -> (zip l k).*1 = l.
Proof. intros H. apply fst_zip. lia. Qed.

Lemma nsum_filter_pos {A} (l : list (A * N)) :
  nsum (snd <$> filter (fun p => 0 < p.2) l) = nsum (snd <$> l).
Proof.
  induction l as [|[a x] l IH]; [done|]. rewrite filter_cons, fmap_cons, nsum_cons. cbn [snd].
  case_decide as Hx; rewrite ?fmap_cons, ?nsum_cons, IH; cbn [snd] in *; lia.
Qed.

Section committee_of_set.
Context (fp : ValidatorPublicKey -> Digest) (s : ValidatorSet) (ss : list N) (B : N).
Context (Hlen : length ss = length (vs_validators s)) (Hsum : nsum ss = B).

Let picked := filter (fun p => 0 < p.2) (zip (vs_validators s) ss).
Let members :=
  (fun p : ValidatorInfo * N =>
     {| m_address := v_address p.1; m_public_key := v_public_key p.1;
        m_stake := voting_power p.1; m_seats := p.2 |}) <$> picked.

Lemma picked_sublist : picked.*1 `sublist_of` vs_validators s.
Proof.
  rewrite <-(zip_fst (vs_validators s) ss) by done. apply fmap_sublist, sublist_filter.
Qed.

Lemma picked_fmap {C} (g : ValidatorInfo -> C) : (fun p => g p.1) <$> picked = g <$> picked.*1.
Proof. by rewrite <-list_fmap_compose. Qed.

Lemma members_from_set :
  0 < B -> B <= MAX_TOTAL_SEATS -> N.of_nat (length (vs_validators s)) <= U16_MAX ->
  NoDup (v_address <$> vs_validators s) ->
  NoDup (fp <$> (v_public_key <$> vs_validators s)) ->
  exists c, from_members fp (vs_epoch s) members = Ok c /\
    c_members c = members /\ CommitteeWf c /\ total_seats c = B /\ c_epoch c = vs_epoch s.
Proof.
  intros HB0 HBm Hn Ha Hk. pose proof picked_sublist as Hsub.
  assert (nsum (m_seats <$> members) = B) as Hms.
  { unfold members. rewrite <-list_fmap_compose. etransitivity; [apply nsum_filter_pos|].
    rewrite snd_zip; [done|lia]. }
  destruct (from_members_cases fp (vs_epoch s) members) as [Hc Hok].
  assert (is_ok (from_members fp (vs_epoch s) members) = true) as Hi.
  { apply Hok. split_and!.
    - intros E. rewrite E in Hms. simpl in Hms. unfold nsum in Hms. simpl in Hms. lia.
    - apply sublist_length in Hsub. rewrite length_fmap in Hsub.
      unfold members. rewrite length_fmap. lia.
    - unfold members. rewrite <-!list_fmap_compose. unfold compose. cbn.
      rewrite <-list_fmap_compose in Hk. unfold compose in Hk.
      rewrite (picked_fmap (fun v => fp (v_public_key v))).
      eapply sublist_NoDup; [exact Hk|by apply fmap_sublist].
    - unfold members. rewrite <-!list_fmap_compose. unfold compose. cbn.
      rewrite (picked_fmap v_address).
      eapply sublist_NoDup; [exact Ha|by apply fmap_sublist].
    - apply Forall_fmap, Forall_forall. intros p Hp. apply list_elem_of_filter in Hp as [Hp _].
      cbn. lia.
    - lia. }
  destruct (from_members _ _ _) as [c|] eqn:E; [|done].
  destruct Hc as (He & Hm & Hwf). exists c. split_and!; try done.
  unfold total_seats. rewrite (wf_total _ Hwf), Hm. done.
Qed.
End committee_of_set.

Lemma nsum_pos_length (l : list N) : Forall (N.lt 0) l -> N.of_nat (length l) <= nsum l.
Proof. induction 1; [done|]. rewrite nsum_cons, length_cons. lia. Qed.

Lemma normalized_total s :
  nsum (powers s) <= U128_MAX -> Forall (N.lt 0) (powers s) -> powers s <> [] ->
  length (normalized_weights s) = length (vs_validators s) /\
  0 < nsum (normalized_weights s) <= nsum (powers s).
Proof.
  intros Hmax Hpos Hne. pose proof (nsum_pos_length _ Hpos).
  assert (length (powers s) = length (vs_validators s)) as Hl by apply length_fmap.
  destruct (decide (cap_applies s)) as [Ha|Hna].
  - destruct (normalized_capped s Hmax Hpos Ha) as (-> & _ & Hs). split; [done|]. lia.
  - rewrite normalized_uncapped by done. split; [done|].
    destruct (powers s); [done|]. simpl length in *. lia.
Qed.

(** C34: a validator set that [ValidatorSet::new] accepts, in which everyone has
    voting power, with at most 65,535 validators, a budget (raised to one seat
    per validator) of at most [MAX_TOTAL_SEATS], and a product of total stake
    and budget that fits 128 bits, gives a well-formed committee of exactly that
    many seats: the seats are not lost to rounding, every member is a validator
    of the set under its own address, key and stake, and where the ten per cent
    cap applies (not in sets too small for it) no member holds more than the
    floor of the cap's share of the seats, plus one. *)
Theorem from_validator_set_spec wf fp now epoch vs s budget :
  validator_set_new wf fp now epoch vs = Ok s ->
  let B := N.max budget (N.of_nat (length vs)) in
  Forall (N.lt 0) (powers s) -> nsum (powers s) * B <= U128_MAX ->
  B <= MAX_TOTAL_SEATS -> N.of_nat (length vs) <= U16_MAX ->
  exists c, from_validator_set fp s budget = Ok c /\ CommitteeWf c /\
    total_seats c = B /\ c_epoch c = epoch /\
    forall m, m ∈ c_members c -> exists v, v ∈ vs /\
      m_address m = v_address v /\ m_public_key m = v_public_key v /\
      m_stake m = voting_power v /\
      (cap_applies s ->
       m_seats m <= weight_cap (nsum (powers s)) * B / nsum (normalized_weights s) + 1).
Proof.
  intros Hnew B Hpos Hprod HB Hn. unfold validator_set_new in Hnew.
  apply guard_ok in Hnew as [Hne Hnew]. apply rbind_ok in Hnew as ([] & Hck & [= <-]).
  propify. set (s := {| vs_epoch := epoch |}) in *.
  apply check_validators_ok in Hck as (_ & Ha & Hk & _).
  assert (0 < N.of_nat (length vs)) as Hl by (destruct vs; simpl; [done|lia]).
  assert (powers s <> []) as Hps by (intros E; apply Hne; by apply fmap_nil_inv in E).
  assert (nsum (powers s) <= U128_MAX) as Hmax by nia.
  destruct (normalized_total s Hmax Hpos Hps) as (Hwl & Hw0 & Hwt).
  set (ws := normalized_weights s) in *.
  assert (0 < nsum ws /\ nsum ws <= U128_MAX /\ nsum ws * B <= U128_MAX /\ B <= U64_MAX)
    as (Hp1 & Hp2 & Hp3 & Hp4).
  { unfold MAX_TOTAL_SEATS, U32_MAX, U64_MAX in *. split_and!; [lia|lia|nia|lia]. }
  assert (length (apportion ws B) = length vs) as Hal.
  { rewrite (apportion_unfold ws B Hp1 Hp2 Hp3 Hp4).
    by rewrite give_left_length, !length_fmap. }
  destruct (members_from_set fp s (apportion ws B) B Hal
    (apportion_sum ws B Hp1 Hp2 Hp3 Hp4)) as (c & Hc & Hm & Hwf & Ht & He); [lia|done|done|done|done|].
  exists c. split_and!; [exact Hc|done|done|done|].
  rewrite Hm. intros m ([v x] & -> & [_ Hz]%list_elem_of_filter)%list_elem_of_fmap. cbn.
  apply list_elem_of_lookup in Hz as [i Hi].
  apply lookup_zip_with_Some in Hi as (v' & x' & [= <- <-] & Hv & Hx).
  exists v. split; [by eapply list_elem_of_lookup_2|]. split_and!; [done..|]. intros Hap.
  destruct (lookup_lt_is_Some_2 ws i) as [w Hw]; [rewrite Hwl; by eapply lookup_lt_Some|].
  destruct (normalized_capped s Hmax Hpos Hap) as (_ & Hcap & _).
  destruct (Hcap i w Hw) as [Hwc _].
  rewrite (apportion_lookup ws B Hp1 Hp2 Hp3 Hp4 i w Hw) in Hx. injection Hx as <-.
  apply N.add_le_mono; [|by case_decide]. apply N.Div0.div_le_mono.
  by apply N.mul_le_mono_r.
Qed.

Lemma from_validator_set_spec_witness :
  exists c, from_validator_set sample_fp (sample_set (replicate 12 7)) 100 = Ok c /\
            total_seats c = 100.
Proof.
  destruct (from_validator_set_spec (fun _ => true) sample_fp 0 0
    (sample_validators (replicate 12 7)) (sample_set (replicate 12 7)) 100) as (c & Hc & _ & Ht & _).
  - vm_compute. reflexivity.
  - apply (bool_decide_unpack _). vm_compute. exact I.
  - by vm_compute.
  - by vm_compute.
  - by vm_compute.
  - exists c. split; [exact Hc|exact Ht].
Defined.
