(* ===== verification/Checkpoint.v ===== *)
(** Checkpoints: the accountable finality layer.

    [tenzro-finality/src/session.rs]: session certificates and the book of an
    epoch's certificates. [tenzro-finality/src/checkpoint.rs]: checkpoints,
    certificates and their verification. [tenzro-consensus/src/checkpoint.rs]:
    equivocation evidence, the vote high-water mark and the vote collector.

    Signature verification, the key fingerprint and the BLAKE3 digests are
    parameters of the model; where a theorem needs a digest to bind what it
    digests, the hypothesis says so. *)

From stdpp Require Import prelude gmap list sorting.
From Stdlib Require Import NArith ZArith Lia.
From S2P Require Import Prelude Committee.

(** ** Data *)

Record CompositeSignature := mkSig {
  sig_ml_dsa : list N;
  sig_p256 : list N;
}.

#[global] Instance CompositeSignature_eq_dec : EqDecision CompositeSignature.
Proof. solve_decision. Defined.

#[global] Instance ValidatorPublicKey_eq_dec : EqDecision ValidatorPublicKey.
Proof. solve_decision. Defined.

Record SessionCertificate := mkSession {
  sc_chain_id : N;
  sc_genesis_hash : Digest;
  sc_epoch : N;
  sc_validator : Digest;
  sc_session_key : ValidatorPublicKey;
  sc_signature : CompositeSignature;
}.

Definition MAX_SESSIONS_PER_VALIDATOR : N := 16.

Record SessionBook := mkBook {
  bk_chain_id : N;
  bk_genesis_hash : Digest;
  bk_epoch : N;
  bk_by_digest : gmap Digest (ValidatorIndex * SessionCertificate);
  bk_per_validator : gmap ValidatorIndex N;
  bk_latest : gmap ValidatorIndex Digest;
}.

Definition book_new (chain_id : N) (genesis_hash : Digest) (epoch : N) : SessionBook :=
  mkBook chain_id genesis_hash epoch ∅ ∅ ∅.

Definition STATE_ROOT_LAG : N := 2.

Definition state_root_height (last_height : N) : N := last_height - STATE_ROOT_LAG.

Record Checkpoint := mkCheckpoint {
  cp_chain_id : N;
  cp_genesis_hash : Digest;
  cp_epoch : N;
  cp_index : N;
  cp_prev : Digest;
  cp_first_height : N;
  cp_last_height : N;
  cp_blocks_root : Digest;
  cp_state_height : N;
  cp_state_root : Digest;
  cp_statement_root : Digest;
  cp_next_committee_root : option Digest;
  cp_anchor_round : N;
  cp_timestamp_ms : N;
  cp_ordering_root : Digest;
}.

#[global] Instance Checkpoint_eq_dec : EqDecision Checkpoint.
Proof. solve_decision. Defined.

Definition checkpoint_state_height (first_height last_height : N) : N :=
  if last_height <? first_height then last_height else state_root_height last_height.

Definition well_formed (cp : Checkpoint) : bool :=
  (cp_first_height cp <=? sat_add64 (cp_last_height cp) 1) &&
  (cp_state_height cp =? checkpoint_state_height (cp_first_height cp) (cp_last_height cp)).

Record CertificateContext := mkContext {
  cx_chain_id : N;
  cx_genesis_hash : Digest;
  cx_committee : Committee;
  cx_sessions : SessionBook;
}.

Record VoteSignature := mkVoteSig {
  vs_session : SessionCertificate;
  vs_signature : CompositeSignature;
}.

Record Certificate := mkCertificate {
  ct_checkpoint : Checkpoint;
  ct_signers : list ValidatorIndex;
  ct_sessions : list Digest;
  ct_signatures : list CompositeSignature;
}.

Record CheckpointVote := mkVote {
  vt_checkpoint : Checkpoint;
  vt_signer : ValidatorIndex;
  vt_signature : VoteSignature;
}.

Record CheckpointEquivocation := mkEquivocation {
  eq_public_key : ValidatorPublicKey;
  eq_first : Checkpoint;
  eq_first_signature : VoteSignature;
  eq_second : Checkpoint;
  eq_second_signature : VoteSignature;
}.

(** Domain separators of the two signatures checked here. *)
Inductive Domain := CHECKPOINT_VOTE_DOMAIN | SESSION_CERTIFICATE_DOMAIN.

Inductive CertificateError :=
| AnotherChain
| AnotherEpoch
| MalformedRange
| CountsDiffer
| NotAscending
| NotAMember
| BelowQuorum
| SessionNotInBook
| SessionOfAnother
| BadSignature
| BookOfAnotherEpoch
| SessionOfNonMember
| SessionNotSigned
| TooManySessions.

(** Big-endian bytes of a number, [n] of them. *)
Fixpoint be_bytes (n : nat) (x : N) : list N :=
  match n with
  | O => []
  | S n => be_bytes n (x / 256) ++ [x mod 256]
  end.

Section finality.
Context (fingerprint : ValidatorPublicKey -> Digest).
Context (key_verify : ValidatorPublicKey -> Domain -> list N -> CompositeSignature -> bool).
Context (session_digest : SessionCertificate -> Digest).
Context (cp_digest : Checkpoint -> Digest).

(** ** Session certificates *)

Definition certificate_message (s : SessionCertificate) : list N :=
  be_bytes 8 (sc_chain_id s) ++ be_bytes 32 (sc_genesis_hash s) ++ be_bytes 8 (sc_epoch s)
  ++ be_bytes 32 (sc_validator s) ++ be_bytes 32 (fingerprint (sc_session_key s)).

Definition certifies (s : SessionCertificate) (hardware_key : ValidatorPublicKey)
    (chain_id : N) (genesis_hash : Digest) (epoch : N) : bool :=
  (sc_chain_id s =? chain_id) && (sc_genesis_hash s =? genesis_hash) &&
  (sc_epoch s =? epoch) && (sc_validator s =? fingerprint hardware_key) &&
  key_verify hardware_key SESSION_CERTIFICATE_DOMAIN (certificate_message s) (sc_signature s).

Definition book_get (b : SessionBook) (d : Digest) : option (ValidatorIndex * SessionCertificate) :=
  bk_by_digest b !! d.

Definition latest (b : SessionBook) (i : ValidatorIndex) : option Digest := bk_latest b !! i.

(** The first member whose key has the fingerprint the certificate names. *)
Definition member_position (c : Committee) (s : SessionCertificate) : option (nat * Member) :=
  list_find (fun m => fingerprint (m_public_key m) = sc_validator s) (c_members c).

Definition book_admit (b : SessionBook) (c : Committee) (s : SessionCertificate)
  : result CertificateError (SessionBook * Digest) :=
  let d := session_digest s in
  if bool_decide (is_Some (bk_by_digest b !! d)) then Ok (b, d)
  else
    check? (c_epoch c =? bk_epoch b) else BookOfAnotherEpoch in
    let? p := ok_or (member_position c s) SessionOfNonMember in
    let '(index, m) := p in
    check? (certifies s (m_public_key m) (bk_chain_id b) (bk_genesis_hash b) (bk_epoch b))
      else SessionNotSigned in
    let count := default 0 (bk_per_validator b !! index) in
    check? (count <? MAX_SESSIONS_PER_VALIDATOR) else TooManySessions in
    Ok (mkBook (bk_chain_id b) (bk_genesis_hash b) (bk_epoch b)
          (<[d := (index, s)]> (bk_by_digest b))
          (<[index := count + 1]> (bk_per_validator b))
          (<[index := d]> (bk_latest b)), d).

(** The certificates with these digests, each once, in the order first
    named. *)
Fixpoint bundle_from (seen : gset Digest) (b : SessionBook) (ds : list Digest)
  : list SessionCertificate :=
  match ds with
  | [] => []
  | d :: ds =>
      if bool_decide (d ∈ seen) then bundle_from seen b ds
      else match bk_by_digest b !! d with
           | Some (_, s) => s :: bundle_from ({[d]} ∪ seen) b ds
           | None => bundle_from ({[d]} ∪ seen) b ds
           end
  end.

Definition bundle (b : SessionBook) (ds : list Digest) : list SessionCertificate :=
  bundle_from ∅ b ds.

(** ** Certificates *)

Definition vote_sig_verify (v : VoteSignature) (key : ValidatorPublicKey) (cp : Checkpoint) : bool :=
  certifies (vs_session v) key (cp_chain_id cp) (cp_genesis_hash cp) (cp_epoch cp) &&
  key_verify (sc_session_key (vs_session v)) CHECKPOINT_VOTE_DOMAIN
    (be_bytes 32 (cp_digest cp)) (vs_signature v).

(** The scan of the signer list: strictly ascending members, their seats
    counted. *)
Fixpoint scan_signers (c : Committee) (prev : option ValidatorIndex) (seen : SeatSet)
    (signers : list ValidatorIndex) : result CertificateError SeatSet :=
  match signers with
  | [] => Ok seen
  | s :: signers =>
      check? (match prev with Some p => (p <? s)%nat | None => true end) else NotAscending in
      let? _ := ok_or (member c s) NotAMember in
      scan_signers c (Some s) (ss_insert seen s (seats c s)).1 signers
  end.

(** The scan of the signatures, with each signer's session certificate. *)
Fixpoint scan_signatures (b : SessionBook) (digest : Digest)
    (l : list (ValidatorIndex * Digest * CompositeSignature)) : result CertificateError unit :=
  match l with
  | [] => Ok tt
  | (s, session, sig) :: l =>
      let? p := ok_or (book_get b session) SessionNotInBook in
      let '(holder, cert) := p in
      check? (holder =? s)%nat else SessionOfAnother in
      check? (key_verify (sc_session_key cert) CHECKPOINT_VOTE_DOMAIN (be_bytes 32 digest) sig)
        else BadSignature in
      scan_signatures b digest l
  end.

Definition certificate_verify (ct : Certificate) (cx : CertificateContext)
  : result CertificateError unit :=
  let cp := ct_checkpoint ct in
  check? ((cp_chain_id cp =? cx_chain_id cx) && (cp_genesis_hash cp =? cx_genesis_hash cx))
    else AnotherChain in
  check? ((cp_epoch cp =? c_epoch (cx_committee cx)) && (cp_epoch cp =? bk_epoch (cx_sessions cx)))
    else AnotherEpoch in
  check? (well_formed cp) else MalformedRange in
  check? ((length (ct_signers ct) =? length (ct_signatures ct))%nat &&
          (length (ct_signers ct) =? length (ct_sessions ct))%nat) else CountsDiffer in
  let? seen := scan_signers (cx_committee cx) None ss_new (ct_signers ct) in
  check? (quorum (cx_committee cx) <=? ss_weight seen) else BelowQuorum in
  scan_signatures (cx_sessions cx) (cp_digest cp)
    (zip (zip (ct_signers ct) (ct_sessions ct)) (ct_signatures ct)).

(** ** Evidence of equivocation *)

Definition vote_verify (v : CheckpointVote) (key : ValidatorPublicKey) : bool :=
  vote_sig_verify (vt_signature v) key (vt_checkpoint v).

Definition equivocation_is_valid (e : CheckpointEquivocation) (chain_id : N) : bool :=
  let a := eq_first e in
  let b := eq_second e in
  if negb (cp_chain_id a =? chain_id) || negb (cp_chain_id b =? chain_id)
     || negb (cp_genesis_hash a =? cp_genesis_hash b)
     || negb (cp_epoch a =? cp_epoch b) || negb (cp_index a =? cp_index b)
  then false
  else negb (cp_digest a =? cp_digest b)
       && vote_sig_verify (eq_first_signature e) (eq_public_key e) a
       && vote_sig_verify (eq_second_signature e) (eq_public_key e) b.

Definition vote_signature (ct : Certificate) (i : nat) (b : SessionBook) : option VoteSignature :=
  d ← ct_sessions ct !! i;
  p ← book_get b d;
  sig ← ct_signatures ct !! i;
  Some (mkVoteSig p.2 sig).

(** [b.signers.iter().enumerate().map(|(i, s)| (s, i)).collect()]. *)
Definition signer_positions (signers : list ValidatorIndex) : gmap ValidatorIndex nat :=
  foldl (fun m p => <[p.2 := p.1]> m) ∅ (imap pair signers).

Definition evidence_for (a b : Certificate) (cx : CertificateContext) (p : nat * ValidatorIndex)
  : option (ValidatorIndex * CheckpointEquivocation) :=
  let '(i, s) := p in
  j ← signer_positions (ct_signers b) !! s;
  m ← member (cx_committee cx) s;
  va ← vote_signature a i (cx_sessions cx);
  vb ← vote_signature b j (cx_sessions cx);
  Some (s, mkEquivocation (m_public_key m) (ct_checkpoint a) va (ct_checkpoint b) vb).

Definition from_conflicting_certificates (a b : Certificate) (cx : CertificateContext)
  : list (ValidatorIndex * CheckpointEquivocation) :=
  if negb (is_ok (certificate_verify a cx)) || negb (is_ok (certificate_verify b cx))
     || negb (cp_index (ct_checkpoint a) =? cp_index (ct_checkpoint b))
     || (cp_digest (ct_checkpoint a) =? cp_digest (ct_checkpoint b))
  then []
  else omap (evidence_for a b cx) (imap pair (ct_signers a)).

(** ** Collecting votes *)

Record IndexVotes := mkIndexVotes {
  iv_by_signer : gmap ValidatorIndex CheckpointVote;
  iv_by_digest : gmap Digest SeatSet;
  iv_certified : bool;
}.

Definition index_votes_default : IndexVotes := mkIndexVotes ∅ ∅ false.

Record VoteCollector := mkCollector {
  vc_indices : gmap N IndexVotes;
  vc_floor : N;
}.

Definition collector_new : VoteCollector := mkCollector ∅ 0.

Inductive VoteOutcome :=
| Counted
| Duplicate
| Certified (c : Certificate)
| Equivocation (a b : CheckpointVote).

Definition put_index (vc : VoteCollector) (i : N) (e : IndexVotes) : VoteCollector :=
  mkCollector (<[i := e]> (vc_indices vc)) (vc_floor vc).

(** [by_signer[s]] for every signer of the set, in ascending order; the
    source indexes the map and would stop on a signer it does not hold. *)
Definition votes_of (by_signer : gmap ValidatorIndex CheckpointVote) (signers : list ValidatorIndex)
  : list CheckpointVote := omap (fun s => by_signer !! s) signers.

Definition add (c : Committee) (vc : VoteCollector) (vote : CheckpointVote)
  : VoteCollector * VoteOutcome :=
  let cp := vt_checkpoint vote in
  let index := cp_index cp in
  if index <? vc_floor vc then (vc, Duplicate)
  else
    let d := cp_digest cp in
    let e := default index_votes_default (vc_indices vc !! index) in
    match iv_by_signer e !! vt_signer vote with
    | Some prev =>
        (put_index vc index e,
         if cp_digest (vt_checkpoint prev) =? d then Duplicate else Equivocation prev vote)
    | None =>
        let signer := vt_signer vote in
        let by_signer := <[signer := vote]> (iv_by_signer e) in
        if iv_certified e
        then (put_index vc index (mkIndexVotes by_signer (iv_by_digest e) true), Duplicate)
        else
          let seen := (ss_insert (default ss_new (iv_by_digest e !! d)) signer (seats c signer)).1 in
          let by_digest := <[d := seen]> (iv_by_digest e) in
          if ss_weight seen <? quorum c
          then (put_index vc index (mkIndexVotes by_signer by_digest false), Counted)
          else
            let signers := merge_sort le (ss_iter seen) in
            let votes := votes_of by_signer signers in
            (put_index vc index (mkIndexVotes by_signer by_digest true),
             Certified (mkCertificate cp signers
               ((fun v => session_digest (vs_session (vt_signature v))) <$> votes)
               ((fun v => vs_signature (vt_signature v)) <$> votes)))
    end.

Definition vc_prune_below (vc : VoteCollector) (index : N) : VoteCollector :=
  if vc_floor vc <? index
  then mkCollector (filter (fun p => index <= p.1) (vc_indices vc)) index else vc.
End finality.

(** ** The vote high-water mark *)

Record HighWaterMark := mkMark {
  hw_epoch : N;
  hw_index : N;
  hw_digest : Digest;
}.

Definition SIGNED_VOTE_WINDOW : N := 1024.

Record Signed := mkSigned {
  sg_epoch : N;
  sg_digest : Digest;
  sg_prev : Digest;
}.

Inductive VoteRecord := Mark | Behind | Again.

Inductive VoteRefused := DifferentCheckpoint | BeyondWindow | NotTheOneItFollows.

(** The order of the pairs [(epoch, index)]. *)
Definition at_lt (a b : N * N) : bool := (a.1 <? b.1) || ((a.1 =? b.1) && (a.2 <? b.2)).

Definition check_high_water (mark : option HighWaterMark) (at_ next : option Signed)
    (epoch index : N) (digest : Digest) : result VoteRefused VoteRecord :=
  match mark with
  | None => Ok Mark
  | Some m =>
      if (hw_epoch m =? epoch) && (hw_index m =? index) then
        if hw_digest m =? digest then Ok Again else Err DifferentCheckpoint
      else if at_lt (epoch, index) (hw_epoch m, hw_index m) then
        if SIGNED_VOTE_WINDOW <=? hw_index m - index then Err BeyondWindow
        else match at_ with
             | Some a =>
                 if (sg_epoch a =? epoch) && (sg_digest a =? digest) then Ok Again
                 else Err DifferentCheckpoint
             | None =>
                 if match next with Some n => sg_prev n =? digest | None => false end
                 then Ok Behind else Err NotTheOneItFollows
             end
      else Ok Mark
  end.

(** What the store keeps: the mark, and what was signed by index. *)
Record HighWater := mkHighWater {
  hs_mark : option HighWaterMark;
  hs_signed : gmap N Signed;
}.

Definition hw_behind (mark : option HighWaterMark) (epoch index : N) : bool :=
  match mark with
  | Some m => at_lt (epoch, index) (hw_epoch m, hw_index m)
  | None => false
  end.

Definition hw_record (h : HighWater) (epoch index : N) (digest prev : Digest)
  : result VoteRefused HighWater :=
  let '(at_, next) := if hw_behind (hs_mark h) epoch index
                      then (hs_signed h !! index, hs_signed h !! wadd64 index 1)
                      else (None, None) in
  let? r := check_high_water (hs_mark h) at_ next epoch index digest in
  let signed := mkSigned epoch digest prev in
  match r with
  | Again => Ok h
  | Behind => Ok (mkHighWater (hs_mark h) (<[index := signed]> (hs_signed h)))
  | Mark =>
      let s := <[index := signed]> (hs_signed h) in
      let s := match checked_sub index SIGNED_VOTE_WINDOW with
               | Some old => delete old s
               | None => s
               end in
      Ok (mkHighWater (Some (mkMark epoch index digest)) s)
  end.

(** What one signature request asks for: epoch, index, digest, predecessor. *)
Record VoteRequest := mkRequest {
  rq_epoch : N;
  rq_index : N;
  rq_digest : Digest;
  rq_prev : Digest;
}.

(** Signature requests in order, across restarts: the store is all that is
    kept. Returns the store and the requests granted, the latest first. *)
Definition hw_step (st : HighWater * list VoteRequest) (r : VoteRequest)
  : HighWater * list VoteRequest :=
  match hw_record st.1 (rq_epoch r) (rq_index r) (rq_digest r) (rq_prev r) with
  | Ok h => (h, r :: st.2)
  | Err _ => st
  end.

Definition hw_run (rs : list VoteRequest) : HighWater * list VoteRequest :=
  foldl hw_step (mkHighWater None ∅, []) rs.

(** Signs a checkpoint: the mark is persisted first, so a failure to sign
    leaves it moved. [sign] is the session key's signer. *)
Definition sign_checkpoint (cp_digest : Checkpoint -> Digest) (public_key : ValidatorPublicKey)
    (sign : Domain -> list N -> option CompositeSignature) (certificate : SessionCertificate)
    (h : HighWater) (me : ValidatorIndex) (cp : Checkpoint)
  : HighWater * result (option VoteRefused) CheckpointVote :=
  if negb (bool_decide (sc_session_key certificate = public_key))
     || negb (sc_epoch certificate =? cp_epoch cp)
  then (h, Err None)
  else
    let d := cp_digest cp in
    match hw_record h (cp_epoch cp) (cp_index cp) d (cp_prev cp) with
    | Err e => (h, Err (Some e))
    | Ok h' =>
        (h', match sign CHECKPOINT_VOTE_DOMAIN (be_bytes 32 d) with
             | None => Err None
             | Some sig => Ok (mkVote cp me (mkVoteSig certificate sig))
             end)
    end.

(** ** A validator never signs two checkpoints for one index *)

(** Checkpoint indices count on across epochs. *)
Definition indices_count_on (rs : list VoteRequest) : Prop :=
  forall a b, a ∈ rs -> b ∈ rs -> rq_epoch a < rq_epoch b -> rq_index a < rq_index b.

Definition in_window (m : HighWaterMark) (i : N) : Prop :=
  hw_index m < i + SIGNED_VOTE_WINDOW.

(** The store remembers every granted request in the window of the mark, and
    the mark is at or past every granted request. *)
Record HwOk (h : HighWater) (log : list VoteRequest) : Prop := {
  hwo_empty : hs_mark h = None -> log = [];
  hwo_mark : forall m, hs_mark h = Some m ->
    exists r, r ∈ log /\ rq_epoch r = hw_epoch m /\ rq_index r = hw_index m;
  hwo_le : forall m r, hs_mark h = Some m -> r ∈ log ->
    at_lt (rq_epoch r, rq_index r) (hw_epoch m, hw_index m) = true \/
    (rq_epoch r = hw_epoch m /\ rq_index r = hw_index m /\ rq_digest r = hw_digest m);
  hwo_signed : forall m r, hs_mark h = Some m -> r ∈ log -> in_window m (rq_index r) ->
    exists p, hs_signed h !! rq_index r = Some (mkSigned (rq_epoch r) (rq_digest r) p);
}.

Lemma at_lt_spec a b : at_lt a b = true <-> a.1 < b.1 \/ (a.1 = b.1 /\ a.2 < b.2).
Proof.
  unfold at_lt. rewrite orb_true_iff, andb_true_iff, N.eqb_eq, !N.ltb_lt. done.
Qed.

Definition same_at (a b : VoteRequest) : Prop :=
  rq_epoch a = rq_epoch b /\ rq_index a = rq_index b.

Lemma hw_record_mark h r h' :
  check_high_water (hs_mark h) (if hw_behind (hs_mark h) (rq_epoch r) (rq_index r)
                                then hs_signed h !! rq_index r else None)
    (if hw_behind (hs_mark h) (rq_epoch r) (rq_index r)
     then hs_signed h !! wadd64 (rq_index r) 1 else None)
    (rq_epoch r) (rq_index r) (rq_digest r) = h' ->
  hw_record h (rq_epoch r) (rq_index r) (rq_digest r) (rq_prev r) =
  rbind h' (fun k => match k with
    | Again => Ok h
    | Behind => Ok (mkHighWater (hs_mark h)
        (<[rq_index r := mkSigned (rq_epoch r) (rq_digest r) (rq_prev r)]> (hs_signed h)))
    | Mark => Ok (mkHighWater (Some (mkMark (rq_epoch r) (rq_index r) (rq_digest r)))
        (match checked_sub (rq_index r) SIGNED_VOTE_WINDOW with
         | Some old => delete old (<[rq_index r := mkSigned (rq_epoch r) (rq_digest r) (rq_prev r)]> (hs_signed h))
         | None => <[rq_index r := mkSigned (rq_epoch r) (rq_digest r) (rq_prev r)]> (hs_signed h)
         end))
    end).
Proof.
  intros <-. unfold hw_record. by destruct (hw_behind _ _ _).
Qed.

(** The three ways a request is granted. *)
Lemma hw_record_cases h log r h' :
  HwOk h log ->
  hw_record h (rq_epoch r) (rq_index r) (rq_digest r) (rq_prev r) = Ok h' ->
  (h' = h /\ exists m, hs_mark h = Some m /\
     ((rq_epoch r = hw_epoch m /\ rq_index r = hw_index m /\ rq_digest r = hw_digest m) \/
      (at_lt (rq_epoch r, rq_index r) (hw_epoch m, hw_index m) = true /\
       in_window m (rq_index r) /\
       exists p, hs_signed h !! rq_index r = Some (mkSigned (rq_epoch r) (rq_digest r) p)))) \/
  (exists m, hs_mark h = Some m /\ h' = mkHighWater (Some m)
       (<[rq_index r := mkSigned (rq_epoch r) (rq_digest r) (rq_prev r)]> (hs_signed h)) /\
     at_lt (rq_epoch r, rq_index r) (hw_epoch m, hw_index m) = true /\
     in_window m (rq_index r) /\ hs_signed h !! rq_index r = None) \/
  (hs_mark h' = Some (mkMark (rq_epoch r) (rq_index r) (rq_digest r)) /\
     (forall m, hs_mark h = Some m -> at_lt (hw_epoch m, hw_index m) (rq_epoch r, rq_index r) = true) /\
     hs_signed h' !! rq_index r = Some (mkSigned (rq_epoch r) (rq_digest r) (rq_prev r)) /\
     (forall i, rq_index r < i + SIGNED_VOTE_WINDOW -> i <> rq_index r ->
        hs_signed h' !! i = hs_signed h !! i)).
Proof.
  intros Hok. erewrite hw_record_mark by reflexivity. unfold check_high_water, hw_behind.
  assert (forall (m : gmap N Signed) x i, rq_index r < i + SIGNED_VOTE_WINDOW ->
    (match checked_sub (rq_index r) SIGNED_VOTE_WINDOW with
     | Some old => delete old (<[rq_index r := x]> m) | None => <[rq_index r := x]> m end) !! i
    = <[rq_index r := x]> m !! i) as Hdel.
  { intros m x i Hi. unfold checked_sub. destruct (N.leb_spec SIGNED_VOTE_WINDOW (rq_index r)); [|done].
    apply lookup_delete_ne. lia. }
  assert (rq_index r < rq_index r + SIGNED_VOTE_WINDOW) as Hown by (unfold SIGNED_VOTE_WINDOW; lia).
  destruct (hs_mark h) as [m|] eqn:Em; cbn [rbind].
  2:{ intros [= <-]. right; right. cbn. split_and!; [done|done| |].
      - rewrite Hdel by done. apply lookup_insert_eq.
      - intros i Hi Hne. rewrite Hdel by done. by apply lookup_insert_ne. }
  destruct ((hw_epoch m =? rq_epoch r) && (hw_index m =? rq_index r)) eqn:E1; propify.
  { destruct (N.eqb_spec (hw_digest m) (rq_digest r)); cbn; [|done]. intros [= <-].
    left. split; [done|]. exists m. split; [done|]. left. done. }
  destruct (at_lt (rq_epoch r, rq_index r) (hw_epoch m, hw_index m)) eqn:E2.
  - destruct (N.leb_spec SIGNED_VOTE_WINDOW (hw_index m - rq_index r)) as [|Hw]; cbn; [done|].
    assert (in_window m (rq_index r)) by (unfold in_window, SIGNED_VOTE_WINDOW in *; lia).
    destruct (hs_signed h !! rq_index r) as [[e d p]|] eqn:Es; cbn.
    + destruct ((e =? rq_epoch r) && (d =? rq_digest r)) eqn:E3; cbn; [|done]. propify.
      intros [= <-]. left. split; [done|]. exists m. split; [done|]. right. subst.
      split_and!; [done|done|by exists p].
    + destruct (match hs_signed h !! wadd64 (rq_index r) 1 with
        | Some n => sg_prev n =? rq_digest r | None => false end); cbn; [|done].
      intros [= <-]. right; left. exists m. done.
  - cbn. intros [= <-]. right; right. cbn. split_and!; [done| | |].
    + intros m' [= <-]. apply at_lt_spec. cbn. apply not_true_iff_false in E2.
      rewrite at_lt_spec in E2. cbn in E2. destruct E1 as [E1|E1]; propify; lia.
    + rewrite Hdel by done. apply lookup_insert_eq.
    + intros i Hi Hne. rewrite Hdel by done. by apply lookup_insert_ne.
Qed.

Lemma count_on_lt log a r :
  indices_count_on (r :: log) -> a ∈ log ->
  at_lt (rq_epoch a, rq_index a) (rq_epoch r, rq_index r) = true -> rq_index a < rq_index r.
Proof.
  intros Hc Ha Hlt%at_lt_spec. cbn in Hlt. destruct Hlt as [Hlt|[_ Hlt]]; [|done].
  apply Hc; [by right|by left|done].
Qed.

Lemma hw_ok_again h log r :
  HwOk h log ->
  (exists m, hs_mark h = Some m /\
     ((rq_epoch r = hw_epoch m /\ rq_index r = hw_index m /\ rq_digest r = hw_digest m) \/
      (at_lt (rq_epoch r, rq_index r) (hw_epoch m, hw_index m) = true /\
       in_window m (rq_index r) /\
       exists p, hs_signed h !! rq_index r = Some (mkSigned (rq_epoch r) (rq_digest r) p)))) ->
  HwOk h (r :: log) /\ (forall a, a ∈ log -> same_at a r -> rq_digest a = rq_digest r).
Proof.
  intros [He Hm Hle Hs] (m & Em & Hr). split.
  - constructor.
    + congruence.
    + intros m' E'. destruct (Hm m' E') as (q & ? & ? & ?). exists q. split_and!; [by right|done..].
    + intros m' q E' [->|Hq]%elem_of_cons; [|by apply Hle].
      rewrite Em in E'. injection E' as <-. destruct Hr as [?|[? _]]; [by right|by left].
    + intros m' q E' [->|Hq]%elem_of_cons Hw; [|by apply (Hs m')].
      rewrite Em in E'. injection E' as <-. destruct Hr as [(E1 & E2 & E3)|(_ & _ & Hp)]; [|done].
      destruct (Hm m Em) as (q & Hq & F1 & F2). rewrite E1, E2, E3.
      destruct (Hs m q Em Hq) as [p Hp]; [unfold in_window, SIGNED_VOTE_WINDOW; lia|].
      destruct (Hle m q Em Hq) as [Hlt%at_lt_spec|(_ & _ & F3)]; [cbn in Hlt; lia|].
      exists p. congruence.
  - intros a Ha [S1 S2]. destruct Hr as [(E1 & E2 & E3)|(_ & Hw & p & Hp)].
    + destruct (Hle m a Em Ha) as [Hlt%at_lt_spec|(_ & _ & F3)]; [cbn in Hlt; lia|congruence].
    + rewrite <-S2 in Hw, Hp. destruct (Hs m a Em Ha Hw) as [p' Hp']. congruence.
Qed.

Lemma hw_ok_behind h log r m :
  HwOk h log -> hs_mark h = Some m ->
  at_lt (rq_epoch r, rq_index r) (hw_epoch m, hw_index m) = true ->
  in_window m (rq_index r) -> hs_signed h !! rq_index r = None ->
  HwOk (mkHighWater (Some m)
          (<[rq_index r := mkSigned (rq_epoch r) (rq_digest r) (rq_prev r)]> (hs_signed h)))
       (r :: log) /\
  (forall a, a ∈ log -> rq_index a <> rq_index r).
Proof.
  intros [He Hm Hle Hs] Em Hlt Hw Hn.
  assert (forall a, a ∈ log -> rq_index a <> rq_index r) as Hne.
  { intros a Ha E. rewrite <-E in Hw, Hn. destruct (Hs m a Em Ha Hw). congruence. }
  split; [|done]. constructor; cbn.
  - done.
  - intros m' [= <-]. destruct (Hm m Em) as (q & ? & ? & ?). exists q. split_and!; [by right|done..].
  - intros m' q [= <-] [->|Hq]%elem_of_cons; [by left|by apply Hle].
  - intros m' q [= <-] [->|Hq]%elem_of_cons Hwq.
    + exists (rq_prev r). apply lookup_insert_eq.
    + destruct (Hs m q Em Hq Hwq) as [p Hp]. exists p. rewrite lookup_insert_ne; [done|].
      intros E. by apply (Hne q).
Qed.

Lemma hw_ok_mark h h' log r :
  HwOk h log -> indices_count_on (r :: log) ->
  hs_mark h' = Some (mkMark (rq_epoch r) (rq_index r) (rq_digest r)) ->
  (forall m, hs_mark h = Some m ->
     at_lt (hw_epoch m, hw_index m) (rq_epoch r, rq_index r) = true) ->
  hs_signed h' !! rq_index r = Some (mkSigned (rq_epoch r) (rq_digest r) (rq_prev r)) ->
  (forall i, rq_index r < i + SIGNED_VOTE_WINDOW -> i <> rq_index r ->
     hs_signed h' !! i = hs_signed h !! i) ->
  HwOk h' (r :: log) /\ (forall a, a ∈ log -> rq_index a < rq_index r).
Proof.
  intros [He Hm Hle Hs] Hc Em Hlt Hown Hrest.
  assert (forall a, a ∈ log -> exists m, hs_mark h = Some m /\ hw_index m < rq_index r /\
            at_lt (rq_epoch a, rq_index a) (rq_epoch r, rq_index r) = true) as Hold.
  { intros a Ha. destruct (hs_mark h) as [m|]; [|by rewrite He in Ha by done; apply elem_of_nil in Ha].
    exists m. split; [done|]. specialize (Hlt m eq_refl).
    destruct (Hm m eq_refl) as (q & Hq & E1 & E2). split.
    - rewrite <-E2. apply (count_on_lt log); [done|done|]. by rewrite E1, E2.
    - apply at_lt_spec. apply at_lt_spec in Hlt. cbn in *.
      destruct (Hle m a eq_refl Ha) as [H%at_lt_spec|(H1 & H2 & _)]; cbn in *; lia. }
  assert (forall a, a ∈ log -> rq_index a < rq_index r) as Hidx.
  { intros a Ha. destruct (Hold a Ha) as (_ & _ & _ & H). by apply (count_on_lt log). }
  split; [|done]. constructor.
  - congruence.
  - intros m E. rewrite Em in E. injection E as <-. exists r. split_and!; [by left|done..].
  - intros m q E Hq. rewrite Em in E. injection E as <-. cbn.
    apply elem_of_cons in Hq as [->|Hq]; [by right|left]. by destruct (Hold q Hq) as (_ & _ & _ & ?).
  - intros m q E Hq Hw. rewrite Em in E. injection E as <-. unfold in_window in Hw. cbn in Hw.
    apply elem_of_cons in Hq as [->|Hq]; [by exists (rq_prev r)|].
    pose proof (Hidx q Hq). rewrite Hrest by lia.
    destruct (Hold q Hq) as (m & E & Hmi & _). apply (Hs m); [done|done|].
    unfold in_window. lia.
Qed.

Lemma hw_step_ok h log r :
  HwOk h log -> indices_count_on (r :: log) ->
  (forall a b, a ∈ log -> b ∈ log -> same_at a b -> rq_digest a = rq_digest b) ->
  let st := hw_step (h, log) r in
  HwOk st.1 st.2 /\
  (forall a b, a ∈ st.2 -> b ∈ st.2 -> same_at a b -> rq_digest a = rq_digest b).
Proof.
  intros Hok Hc Hcon. unfold hw_step. cbn [fst snd].
  destruct (hw_record _ _ _ _ _) as [h'|] eqn:E; [|done]. cbn [fst snd].
  assert (HwOk h' (r :: log) /\
          (forall a, a ∈ log -> same_at a r -> rq_digest a = rq_digest r)) as [Hok' Hnew].
  { apply (hw_record_cases _ log _ _ Hok) in E as [[-> Ha]|[(m & Em & -> & Hlt & Hw & Hn)|(E1 & E2 & E3 & E4)]];
      [by apply hw_ok_again| |].
    - destruct (hw_ok_behind h log r m Hok Em Hlt Hw Hn) as [H1 H2]. split; [done|].
      intros a Ha [_ E]. by destruct (H2 a Ha).
    - destruct (hw_ok_mark h h' log r Hok Hc E1 E2 E3 E4) as [H1 H2]. split; [done|].
      intros a Ha [_ E]. specialize (H2 a Ha). lia. }
  split; [done|]. intros a b [->|Ha]%elem_of_cons [->|Hb]%elem_of_cons Hs; auto.
  symmetry. apply Hnew; [done|]. destruct Hs. by split.
Qed.

Lemma hw_run_ok rs :
  indices_count_on rs ->
  let st := hw_run rs in
  HwOk st.1 st.2 /\ (forall a, a ∈ st.2 -> a ∈ rs) /\
  (forall a b, a ∈ st.2 -> b ∈ st.2 -> same_at a b -> rq_digest a = rq_digest b).
Proof.
  induction rs as [|r rs IH] using rev_ind; intros Hc st.
  { split_and!; [constructor; cbn; done| |]; unfold st; cbn; intros a Ha; [|intros ? Ha'];
      set_solver. }
  unfold st, hw_run. rewrite foldl_app. cbn [foldl]. fold (hw_run rs).
  assert (indices_count_on rs) as Hc' by (intros a b Ha Hb; apply Hc; apply elem_of_app; by left).
  destruct (IH Hc') as (Hok & Hin & Hcon). destruct (hw_run rs) as [h log]. cbn [fst snd] in *.
  destruct (hw_step_ok h log r) as [Hok' Hcon']; [done| |done|].
  - intros a b Ha Hb. apply Hc; apply elem_of_app; rewrite list_elem_of_singleton;
      [apply elem_of_cons in Ha as [->|Ha]|apply elem_of_cons in Hb as [->|Hb]]; auto.
  - split_and!; [done| |done]. intros a Ha. unfold hw_step in Ha. cbn [fst snd] in Ha.
    rewrite elem_of_app, list_elem_of_singleton.
    destruct (hw_record _ _ _ _ _); [apply elem_of_cons in Ha as [->|Ha]|]; auto.
Qed.

(** C13: whatever sequence of checkpoints a validator is asked to sign, across
    restarts and in any order, whose indices count on across epochs (a request
    of a later epoch has a larger index, as checkpoints have), the high-water
    store never grants two different digests for one epoch and index; and what
    was granted is granted again while it is within the window kept behind the
    mark. *)
Theorem never_signs_two rs :
  indices_count_on rs ->
  let '(h, granted) := hw_run rs in
  (forall a b, a ∈ granted -> b ∈ granted -> rq_epoch a = rq_epoch b ->
     rq_index a = rq_index b -> rq_digest a = rq_digest b) /\
  (forall a m, a ∈ granted -> hs_mark h = Some m -> in_window m (rq_index a) ->
     hw_record h (rq_epoch a) (rq_index a) (rq_digest a) (rq_prev a) = Ok h).
Proof.
  intros Hc. pose proof (hw_run_ok rs Hc) as H. destruct (hw_run rs) as [h log]. cbn in H.
  destruct H as ([He Hm Hle Hs] & _ & Hcon). split.
  { intros a b Ha Hb H1 H2. by apply Hcon. }
  intros a m Ha Em Hw. destruct (Hs m a Em Ha Hw) as [p Hp].
  erewrite hw_record_mark by reflexivity. rewrite Em. unfold check_high_water, hw_behind.
  destruct (Hle m a Em Ha) as [Hlt|(E1 & E2 & E3)].
  - rewrite Hlt, Hp. apply at_lt_spec in Hlt. cbn in Hlt.
    assert ((hw_epoch m =? rq_epoch a) && (hw_index m =? rq_index a) = false) as ->
      by (apply andb_false_iff; rewrite !N.eqb_neq; lia).
    unfold in_window in Hw. rewrite (proj2 (N.leb_gt _ _)) by (unfold SIGNED_VOTE_WINDOW in *; lia).
    cbn. by rewrite !N.eqb_refl.
  - by rewrite E1, E2, E3, !N.eqb_refl.
Qed.

Lemma never_signs_two_witness :
  let rs := [mkRequest 0 1 10 9; mkRequest 0 2 11 10; mkRequest 0 1 77 9; mkRequest 0 1 10 9] in
  (hw_run rs).2 = [mkRequest 0 1 10 9; mkRequest 0 2 11 10; mkRequest 0 1 10 9] /\
  (forall a b, a ∈ (hw_run rs).2 -> b ∈ (hw_run rs).2 -> rq_epoch a = rq_epoch b ->
     rq_index a = rq_index b -> rq_digest a = rq_digest b).
Proof.
  intros rs. split; [vm_compute; reflexivity|].
  assert (indices_count_on rs) as Hc.
  { intros a b Ha Hb. apply list_elem_of_In in Ha, Hb. cbn in Ha, Hb.
    decompose [or] Ha; decompose [or] Hb; subst; cbn; lia || done. }
  exact (proj1 (never_signs_two rs Hc)).
Defined.

(** ** What a verified certificate says *)

Lemma guard_err {E A} b (e : E) (k : result E A) x :
  rbind (guard_r b e) (fun _ => k) = Err x -> (b = false /\ x = e) \/ (b = true /\ k = Err x).
Proof. destruct b; cbn; [by right|]. intros [= ->]. by left. Qed.

Definition after (prev : option ValidatorIndex) (s : ValidatorIndex) : Prop :=
  match prev with Some p => (p < s)%nat | None => True end.

Lemma scan_signers_ok c prev seen signers seen' :
  scan_signers c prev seen signers = Ok seen' <->
  StronglySorted lt signers /\ Forall (after prev) signers /\
  Forall (fun s => (s < committee_size c)%nat) signers /\
  seen' = foldl (fun acc s => (ss_insert acc s (seats c s)).1) seen signers.
Proof.
  revert prev seen. induction signers as [|s signers IH]; intros prev seen; cbn [scan_signers foldl].
  { split; [intros [= ->]; split_and!; by constructor|by intros (_ & _ & _ & ->)]. }
  rewrite guard_ok, !Forall_cons, StronglySorted_cons.
  assert (match prev with Some p => (p <? s)%nat | None => true end = true <-> after prev s) as ->.
  { destruct prev; cbn; [apply Nat.ltb_lt|done]. }
  assert ((s < committee_size c)%nat <-> is_Some (member c s)) as ->.
  { unfold member, committee_size. by rewrite lookup_lt_is_Some. }
  destruct (member c s) as [m|]; cbn [ok_or rbind].
  2:{ split; [by intros [_ ?]|]. intros (_ & _ & ([? ?] & _) & _). done. }
  rewrite IH. cbn [after].
  assert (Forall (fun x => (s < x)%nat) signers -> after prev s -> Forall (after prev) signers) as Htr.
  { intros HF Hp. eapply Forall_impl; [exact HF|]. destruct prev; cbn in *; lia. }
  rewrite (is_Some_alt (Some m)). naive_solver.
Qed.

Lemma scan_seats c seen signers :
  CommitteeWf c -> ss_ok c seen -> Forall (fun s => (s < committee_size c)%nat) signers ->
  let seen' := foldl (fun acc s => (ss_insert acc s (seats c s)).1) seen signers in
  ss_ok c seen' /\ (forall i, ss_contains seen' i = ss_contains seen i || bool_decide (i ∈ signers)).
Proof.
  intros wf. revert seen. induction signers as [|s signers IH]; intros seen Hok HF; cbn [foldl].
  { split; [done|]. intros i. rewrite bool_decide_eq_false_2 by apply not_elem_of_nil.
    by rewrite orb_false_r. }
  apply Forall_cons in HF as [Hs HF]. destruct (IH _ (ss_ok_insert c seen s wf Hok Hs) HF) as [H1 H2].
  split; [done|]. intros i. rewrite H2, ss_contains_insert, <-orb_assoc. f_equal.
  apply eq_true_iff_eq. rewrite orb_true_iff, !bool_decide_eq_true, Nat.eqb_eq, elem_of_cons. tauto.
Qed.

(** Seats behind a list of signers. *)
Definition signer_weight (c : Committee) (signers : list ValidatorIndex) : N :=
  weight c (fun i => bool_decide (i ∈ signers)).

Lemma scan_weight c signers :
  CommitteeWf c -> Forall (fun s => (s < committee_size c)%nat) signers ->
  ss_weight (foldl (fun acc s => (ss_insert acc s (seats c s)).1) ss_new signers)
  = signer_weight c signers.
Proof.
  intros wf HF. destruct (scan_seats c ss_new signers wf (ss_ok_new c) HF) as [[_ ->] Hc].
  apply wsum_ext. intros i _. rewrite Hc, ss_contains_new. done.
Qed.

Section certificates.
Context (fingerprint : ValidatorPublicKey -> Digest).
Context (key_verify : ValidatorPublicKey -> Domain -> list N -> CompositeSignature -> bool).
Context (session_digest : SessionCertificate -> Digest).
Context (cp_digest : Checkpoint -> Digest).

(** The signature at a position of a certificate is by its signer's session. *)
Definition signed_by_session (b : SessionBook) (digest : Digest)
    (p : ValidatorIndex * Digest * CompositeSignature) : Prop :=
  exists cert, book_get b p.1.2 = Some (p.1.1, cert) /\
    key_verify (sc_session_key cert) CHECKPOINT_VOTE_DOMAIN (be_bytes 32 digest) p.2 = true.

Lemma scan_signatures_ok b digest l :
  scan_signatures key_verify b digest l = Ok tt <-> Forall (signed_by_session b digest) l.
Proof.
  clear session_digest fingerprint.
  induction l as [|[[s d] sig] l IH]; cbn [scan_signatures]; [by split; constructor|].
  rewrite Forall_cons. unfold signed_by_session at 1. cbn [fst snd].
  destruct (book_get b d) as [[holder cert]|]; cbn [ok_or rbind].
  - rewrite !guard_ok, Nat.eqb_eq, IH. naive_solver.
  - split; [done|]. by intros [(? & ? & _) _].
Qed.

Record CertificateOk (ct : Certificate) (cx : CertificateContext) : Prop := {
  co_chain : cp_chain_id (ct_checkpoint ct) = cx_chain_id cx;
  co_genesis : cp_genesis_hash (ct_checkpoint ct) = cx_genesis_hash cx;
  co_epoch : cp_epoch (ct_checkpoint ct) = c_epoch (cx_committee cx);
  co_book : cp_epoch (ct_checkpoint ct) = bk_epoch (cx_sessions cx);
  co_range : well_formed (ct_checkpoint ct) = true;
  co_sigs : length (ct_signers ct) = length (ct_signatures ct);
  co_sess : length (ct_signers ct) = length (ct_sessions ct);
  co_sorted : StronglySorted lt (ct_signers ct);
  co_members : Forall (fun s => (s < committee_size (cx_committee cx))%nat) (ct_signers ct);
  co_quorum : quorum (cx_committee cx) <= signer_weight (cx_committee cx) (ct_signers ct);
  co_signed : Forall (signed_by_session (cx_sessions cx) (cp_digest (ct_checkpoint ct)))
                (zip (zip (ct_signers ct) (ct_sessions ct)) (ct_signatures ct));
}.

Lemma certificate_verify_iff ct cx :
  CommitteeWf (cx_committee cx) ->
  certificate_verify key_verify cp_digest ct cx = Ok tt <-> CertificateOk ct cx.
Proof.
  clear session_digest fingerprint. intros wf. unfold certificate_verify.
  rewrite !guard_ok, !andb_true_iff, !N.eqb_eq, !Nat.eqb_eq, rbind_ok.
  setoid_rewrite scan_signers_ok. setoid_rewrite guard_ok. setoid_rewrite scan_signatures_ok.
  setoid_rewrite N.leb_le. split.
  - intros ([? ?] & [? ?] & ? & [? ?] & seen & (? & _ & HF & ->) & Hq & ?).
    rewrite scan_weight in Hq by done. by constructor.
  - intros [????????? Hq ?]. split_and!; try done. eexists. split_and!; try done.
    + apply Forall_forall. done.
    + by rewrite scan_weight.
Qed.

(** ** The session book *)

(** Every certificate of the book is kept under its digest and was signed by
    the hardware key of the member it is filed for, on the book's chain and in
    its epoch. *)
Record BookOk (c : Committee) (b : SessionBook) : Prop := {
  bo_entry : forall d i s, bk_by_digest b !! d = Some (i, s) ->
    session_digest s = d /\
    exists m, member c i = Some m /\
      certifies fingerprint key_verify s (m_public_key m)
        (bk_chain_id b) (bk_genesis_hash b) (bk_epoch b) = true;
  bo_count : forall i,
    N.of_nat (size (filter (fun p => p.2.1 = i) (bk_by_digest b)))
      = default 0 (bk_per_validator b !! i) /\
    default 0 (bk_per_validator b !! i) <= MAX_SESSIONS_PER_VALIDATOR;
}.

Lemma book_new_ok c chain genesis epoch : BookOk c (book_new chain genesis epoch).
Proof.
  constructor; cbn; [done|]. intros i. split; [|done]. by rewrite map_filter_empty, map_size_empty.
Qed.

Lemma admit_ok c b s b' d :
  BookOk c b -> book_admit fingerprint key_verify session_digest b c s = Ok (b', d) ->
  BookOk c b' /\ bk_chain_id b' = bk_chain_id b /\ bk_genesis_hash b' = bk_genesis_hash b /\
  bk_epoch b' = bk_epoch b /\ d = session_digest s /\ is_Some (bk_by_digest b' !! d).
Proof.
  intros [He Hc]. unfold book_admit. case_bool_decide as Hin.
  { intros [= <- <-]. by split_and!. }
  rewrite guard_ok, rbind_ok. intros (_ & [i m] & Hp & Hrest). cbn in Hrest.
  rewrite !guard_ok, N.ltb_lt in Hrest. destruct Hrest as (Hcert & Hcount & [= <- <-]).
  unfold ok_or in Hp. destruct (member_position _ _ _) as [[i' m']|] eqn:Hm; [|done].
  injection Hp as -> ->. apply list_find_Some in Hm as (Hm & _ & _).
  assert (bk_by_digest b !! session_digest s = None) as Hnone.
  { destruct (bk_by_digest b !! session_digest s); [|done]. destruct Hin. eauto. }
  split_and!; cbn; [|done..|by rewrite lookup_insert_eq]. constructor; cbn.
  - intros d' i' s'. destruct (decide (d' = session_digest s)) as [->|Hne].
    + rewrite lookup_insert_eq. intros [= <- <-]. split; [done|]. by exists m.
    + rewrite lookup_insert_ne by done. apply He.
  - intros j. destruct (decide (j = i)) as [->|Hne].
    + rewrite lookup_insert_eq. cbn. destruct (Hc i) as [Hs _]. split; [|unfold MAX_SESSIONS_PER_VALIDATOR in *; lia].
      rewrite map_filter_insert_True by done. rewrite map_size_insert_None; [lia|].
      apply map_lookup_filter_None. by left.
    + rewrite lookup_insert_ne by done. destruct (Hc j) as [Hs Hle]. split; [|done].
      rewrite map_filter_insert_False by (cbn; congruence). by rewrite delete_id.
Qed.

(** Admits certificates in order, keeping what is accepted. *)
Definition admit_all (c : Committee) (b : SessionBook) (ss : list SessionCertificate) : SessionBook :=
  foldl (fun b s => match book_admit fingerprint key_verify session_digest b c s with
                    | Ok (b', _) => b' | Err _ => b end) b ss.

Lemma admit_all_ok c b ss :
  BookOk c b -> BookOk c (admit_all c b ss) /\ bk_chain_id (admit_all c b ss) = bk_chain_id b /\
  bk_genesis_hash (admit_all c b ss) = bk_genesis_hash b /\ bk_epoch (admit_all c b ss) = bk_epoch b.
Proof.
  revert b. induction ss as [|s ss IH]; intros b Hb; cbn [admit_all foldl]; [by split_and!|].
  destruct (book_admit _ _ _ _ _ _) as [[b' d]|] eqn:E; [|by apply IH].
  apply (admit_ok c) in E as (Hb' & <- & <- & <- & _); [|done]. by apply IH.
Qed.

(** ** Accountability *)

(** A context whose book belongs to its chain and its committee. *)
Record ContextOk (cx : CertificateContext) : Prop := {
  cxo_wf : CommitteeWf (cx_committee cx);
  cxo_book : BookOk (cx_committee cx) (cx_sessions cx);
  cxo_chain : bk_chain_id (cx_sessions cx) = cx_chain_id cx;
  cxo_genesis : bk_genesis_hash (cx_sessions cx) = cx_genesis_hash cx;
}.

Lemma signer_positions_lookup signers s j :
  signer_positions signers !! s = Some j -> signers !! j = Some s.
Proof.
  unfold signer_positions. induction signers as [|x signers IH] using rev_ind; [done|].
  rewrite imap_app, foldl_app. cbn [imap foldl fst snd]. rewrite Nat.add_0_r.
  destruct (decide (x = s)) as [->|Hne].
  - rewrite lookup_insert_eq. intros [= <-]. apply list_lookup_middle. lia.
  - rewrite lookup_insert_ne by done. intros H%IH. by apply lookup_app_l_Some.
Qed.

Lemma signer_positions_some signers s :
  s ∈ signers -> is_Some (signer_positions signers !! s).
Proof.
  unfold signer_positions. induction signers as [|x signers IH] using rev_ind.
  { by intros ?%elem_of_nil. }
  rewrite imap_app, foldl_app. cbn [imap foldl fst snd]. intros Hs.
  destruct (decide (x = s)) as [->|Hne]; [rewrite lookup_insert_eq; eauto|].
  rewrite lookup_insert_ne by done. apply IH. set_solver.
Qed.

(** A signer's position in a verified certificate yields a vote signature that
    verifies under the signer's hardware key. *)
Lemma vote_signature_valid ct cx i s m :
  ContextOk cx -> CertificateOk ct cx -> ct_signers ct !! i = Some s ->
  member (cx_committee cx) s = Some m ->
  exists v, vote_signature ct i (cx_sessions cx) = Some v /\
    vote_sig_verify fingerprint key_verify cp_digest v (m_public_key m) (ct_checkpoint ct) = true.
Proof.
  intros [wf Hb Hch Hg] Hct Hi Hm. pose proof (lookup_lt_Some _ _ _ Hi) as Hlt.
  destruct (lookup_lt_is_Some_2 (ct_sessions ct) i) as [d Hd]; [rewrite <-(co_sess _ _ Hct); lia|].
  destruct (lookup_lt_is_Some_2 (ct_signatures ct) i) as [sig Hsig]; [rewrite <-(co_sigs _ _ Hct); lia|].
  pose proof (co_signed _ _ Hct) as HF. rewrite Forall_lookup in HF.
  destruct (HF i (s, d, sig)) as (cert & Hget & Hver).
  { rewrite !lookup_zip_with, Hi, Hd, Hsig. done. }
  cbn [fst snd] in Hget, Hver. exists (mkVoteSig cert sig).
  unfold vote_signature. rewrite Hd. cbn. rewrite Hget. cbn. rewrite Hsig. cbn. split; [done|].
  unfold vote_sig_verify. cbn [vs_session vs_signature]. rewrite Hver, andb_true_r.
  destruct (bo_entry _ _ Hb d s cert Hget) as (_ & m' & Hm' & Hcert).
  rewrite Hm in Hm'. injection Hm' as <-.
  by rewrite (co_chain _ _ Hct), (co_genesis _ _ Hct), (co_book _ _ Hct), <-Hch, <-Hg.
Qed.

Lemma evidence_for_common a b cx i s :
  ContextOk cx -> CertificateOk a cx -> CertificateOk b cx ->
  ct_signers a !! i = Some s -> s ∈ ct_signers b ->
  cp_index (ct_checkpoint a) = cp_index (ct_checkpoint b) ->
  cp_digest (ct_checkpoint a) <> cp_digest (ct_checkpoint b) ->
  exists e m, evidence_for a b cx (i, s) = Some (s, e) /\ member (cx_committee cx) s = Some m /\
    eq_public_key e = m_public_key m /\
    equivocation_is_valid fingerprint key_verify cp_digest e (cx_chain_id cx) = true.
Proof.
  intros Hcx Ha Hb Hi Hs Hidx Hd.
  destruct (signer_positions_some _ _ Hs) as [j Hj].
  pose proof (signer_positions_lookup _ _ _ Hj) as Hjb.
  pose proof (co_members _ _ Ha) as HF. rewrite Forall_lookup in HF. specialize (HF i s Hi).
  destruct (lookup_lt_is_Some_2 (c_members (cx_committee cx)) s HF) as [m Hm].
  destruct (vote_signature_valid a cx i s m Hcx Ha Hi Hm) as (va & Hva & Hva').
  destruct (vote_signature_valid b cx j s m Hcx Hb Hjb Hm) as (vb & Hvb & Hvb').
  eexists _, m. unfold evidence_for. rewrite Hj. cbn. unfold member. rewrite Hm. cbn.
  rewrite Hva. cbn. rewrite Hvb. cbn. split_and!; [done|done|done|].
  unfold equivocation_is_valid. cbn.
  rewrite (co_chain _ _ Ha), (co_chain _ _ Hb), (co_genesis _ _ Ha), (co_genesis _ _ Hb),
    (co_epoch _ _ Ha), (co_epoch _ _ Hb), Hidx, !N.eqb_refl. cbn.
  by rewrite (proj2 (N.eqb_neq _ _) Hd), Hva', Hvb'.
Qed.

Lemma evidence_names a b cx p s e :
  evidence_for a b cx p = Some (s, e) -> s = p.2 /\ s ∈ ct_signers b.
Proof.
  destruct p as [i x]. unfold evidence_for. cbn.
  destruct (signer_positions _ !! x) as [j|] eqn:Ej; cbn; [|done].
  destruct (member _ x); cbn; [|done]. destruct (vote_signature a i _); cbn; [|done].
  destruct (vote_signature b j _); cbn; [|done]. intros [= <- _]. split; [done|].
  apply signer_positions_lookup in Ej. by eapply list_elem_of_lookup_2.
Qed.

(** C12: two verified certificates for one index that name different checkpoints
    convict more than [f] seats. The evidence extracted names every validator
    that signed both, each piece is valid on its own under the validator's
    hardware key, and the seats it names exceed what may be faulty. *)
Theorem conflicting_certificates_accountable a b cx :
  ContextOk cx ->
  certificate_verify key_verify cp_digest a cx = Ok tt ->
  certificate_verify key_verify cp_digest b cx = Ok tt ->
  cp_index (ct_checkpoint a) = cp_index (ct_checkpoint b) ->
  cp_digest (ct_checkpoint a) <> cp_digest (ct_checkpoint b) ->
  let evidence := from_conflicting_certificates key_verify cp_digest a b cx in
  max_faulty (cx_committee cx) < signer_weight (cx_committee cx) evidence.*1 /\
  (forall s, s ∈ evidence.*1 <-> s ∈ ct_signers a /\ s ∈ ct_signers b) /\
  forall s e, (s, e) ∈ evidence ->
    (exists m, member (cx_committee cx) s = Some m /\ eq_public_key e = m_public_key m) /\
    equivocation_is_valid fingerprint key_verify cp_digest e (cx_chain_id cx) = true.
Proof.
  intros Hcx Ha Hb Hidx Hd. pose proof (cxo_wf _ Hcx) as wf.
  assert (from_conflicting_certificates key_verify cp_digest a b cx
    = omap (evidence_for a b cx) (imap pair (ct_signers a))) as ->.
  { unfold from_conflicting_certificates. rewrite Ha, Hb. cbn.
    by rewrite Hidx, N.eqb_refl, (proj2 (N.eqb_neq _ _) Hd). }
  rewrite certificate_verify_iff in Ha, Hb by done. intros evidence.
  assert (forall s, s ∈ evidence.*1 <-> s ∈ ct_signers a /\ s ∈ ct_signers b) as Hin.
  { intros s. unfold evidence. rewrite list_elem_of_fmap. setoid_rewrite list_elem_of_omap. split.
    - intros ([s' e] & -> & [i x] & Hx & He). apply evidence_names in He as [-> Hsb].
      apply elem_of_lookup_imap in Hx as (k & y & [= -> ->] & Hk). cbn.
      split; [by eapply list_elem_of_lookup_2|done].
    - intros [[i Hi]%list_elem_of_lookup Hsb].
      destruct (evidence_for_common a b cx i s Hcx Ha Hb Hi Hsb Hidx Hd) as (e & m & He & _).
      exists (s, e). split; [done|]. exists (i, s). split; [|done].
      apply elem_of_lookup_imap. by exists i, s. }
  split_and!; [|done|].
  - pose proof (quorums_share _ _ _ wf (co_quorum _ _ Ha) (co_quorum _ _ Hb)) as Hq.
    eapply N.lt_le_trans; [exact Hq|]. apply wsum_mono. intros i _ Hi. propify.
    apply bool_decide_eq_true. by apply Hin.
  - intros s e Hse. unfold evidence in Hse. apply list_elem_of_omap in Hse as ([i x] & Hx & He).
    apply elem_of_lookup_imap in Hx as (k & y & [= -> ->] & Hk).
    destruct (evidence_names _ _ _ _ _ _ He) as [-> Hsb]. cbn [snd] in *.
    destruct (evidence_for_common a b cx k y Hcx Ha Hb Hk Hsb Hidx Hd) as (e' & m & He' & Hm & Hp & Hv).
    rewrite He in He'. injection He' as ->. split; [by exists m|done].
Qed.
End certificates.

(** ** Sample certificates: four members whose keys sign anything *)

Definition any_key (k : ValidatorPublicKey) (dm : Domain) (m : list N) (s : CompositeSignature)
  : bool := true.
Definition key_fp (k : ValidatorPublicKey) : Digest := hd 0 (ml_dsa k).
Definition sample_session (i : N) : SessionCertificate :=
  mkSession 1 7 0 i {| ml_dsa := [100 + i]; p256 := [] |} (mkSig [] []).
Definition sample_session_digest (s : SessionCertificate) : Digest := 1000 + sc_validator s.
Definition sample_checkpoint (root : Digest) : Checkpoint :=
  mkCheckpoint 1 7 0 5 0 1 4 0 2 root 0 None 9 0 0.
Definition sample_cp_digest (cp : Checkpoint) : Digest := cp_state_root cp.
Definition sample_committee : Committee :=
  let ms := (fun i => {| m_address := i; m_public_key := {| ml_dsa := [i]; p256 := [] |};
                         m_stake := 1; m_seats := 1 |}) <$> [0; 1; 2; 3] in
  {| c_epoch := 0; c_members := ms; c_total_seats := 4; c_by_address := rebuild_index ms |}.
Definition sample_book : SessionBook :=
  admit_all key_fp any_key sample_session_digest sample_committee (book_new 1 7 0)
    (sample_session <$> [0; 1; 2; 3]).
Definition sample_context : CertificateContext := mkContext 1 7 sample_committee sample_book.
Definition sample_certificate (root : Digest) (signers : list nat) : Certificate :=
  mkCertificate (sample_checkpoint root) signers ((fun i => 1000 + N.of_nat i) <$> signers)
    ((fun _ => mkSig [] []) <$> signers).

Lemma sample_committee_wf : CommitteeWf sample_committee.
Proof.
  constructor; [done|by vm_compute| |reflexivity|by vm_compute].
  repeat constructor; by vm_compute.
Qed.

Lemma sample_context_ok : ContextOk key_fp any_key sample_session_digest sample_context.
Proof.
  destruct (admit_all_ok key_fp any_key sample_session_digest sample_committee (book_new 1 7 0)
    (sample_session <$> [0; 1; 2; 3]) (book_new_ok _ _ _ _ _ _ _)) as (Hb & Hc & Hg & _).
  constructor; [apply sample_committee_wf|exact Hb|exact Hc|exact Hg].
Qed.

Lemma conflicting_certificates_accountable_witness :
  let a := sample_certificate 21 [0; 1; 2]%nat in
  let b := sample_certificate 22 [1; 2; 3]%nat in
  let evidence := from_conflicting_certificates any_key sample_cp_digest a b sample_context in
  evidence.*1 = [1; 2]%nat /\
  max_faulty sample_committee < signer_weight sample_committee evidence.*1.
Proof.
  intros a b evidence. split; [vm_compute; reflexivity|].
  apply (conflicting_certificates_accountable key_fp any_key sample_session_digest
    sample_cp_digest a b sample_context sample_context_ok).
  - vm_compute. reflexivity.
  - vm_compute. reflexivity.
  - reflexivity.
  - discriminate.
Defined.

(** ** Collected votes *)

Lemma ss_iter_elem s i : i ∈ ss_iter s <-> ss_contains s i = true.
Proof.
  unfold ss_iter. rewrite words_iter_elem, ss_contains_default, Nat.sub_0_r. cbn [Nat.mul Nat.add].
  split; [by intros (_ & ? & _)|]. intros H. split_and!; [lia|done|].
  destruct (decide (i / 64 < length (ss_bits s))%nat); [done|].
  rewrite lookup_ge_None_2 in H by lia. done.
Qed.

Lemma sorted_signers s : StronglySorted lt (merge_sort le (ss_iter s)).
Proof.
  assert (NoDup (ss_iter s)) as Hnd.
  { assert (StronglySorted lt (ss_iter s)) as Hs by apply words_iter_sorted.
    induction Hs as [|x l Hs IH HF]; constructor; [|done].
    intros Hx. rewrite Forall_forall in HF. specialize (HF x Hx). lia. }
  rewrite <-(merge_sort_Permutation le) in Hnd.
  assert (StronglySorted le (merge_sort le (ss_iter s))) as Hs
    by (apply StronglySorted_merge_sort; apply _).
  induction Hs as [|x l Hs IH HF]; constructor; apply NoDup_cons in Hnd as [Hx Hnd]; [auto|].
  apply Forall_forall. intros y Hy. rewrite Forall_forall in HF. specialize (HF y Hy).
  destruct (decide (x = y)) as [->|]; [done|lia].
Qed.

Section collector.
Context (session_digest : SessionCertificate -> Digest) (cp_digest : Checkpoint -> Digest).
Context (c : Committee) (wf : CommitteeWf c).
(** What the caller checked of a vote before it adds it. *)
Context (checked : CheckpointVote -> Prop).
Context (Hmember : forall v, checked v -> (vt_signer v < committee_size c)%nat).

Definition vote_digest (v : CheckpointVote) : Digest := cp_digest (vt_checkpoint v).

Record IndexOk (i : N) (e : IndexVotes) : Prop := {
  io_vote : forall s v, iv_by_signer e !! s = Some v ->
    vt_signer v = s /\ cp_index (vt_checkpoint v) = i /\ checked v;
  io_count : iv_certified e = false -> forall d,
    let seen := default ss_new (iv_by_digest e !! d) in
    ss_ok c seen /\ ss_weight seen < quorum c /\
    forall s, ss_contains seen s = true <->
      exists v, iv_by_signer e !! s = Some v /\ vote_digest v = d;
}.

Definition CollectorOk (vc : VoteCollector) : Prop :=
  forall i e, vc_indices vc !! i = Some e -> IndexOk i e.

Lemma quorum_pos : 0 < quorum c.
Proof.
  pose proof (faulty_bound c wf) as H. unfold quorum, total_seats in *. lia.
Qed.

Lemma index_default_ok i : IndexOk i index_votes_default.
Proof.
  constructor; cbn; [done|]. intros _ d. rewrite lookup_empty. cbn. split_and!.
  - apply ss_ok_new.
  - apply quorum_pos.
  - intros s. split; [done|]. intros (v & ? & _). done.
Qed.

Lemma collector_entry_ok vc i :
  CollectorOk vc -> IndexOk i (default index_votes_default (vc_indices vc !! i)).
Proof.
  intros Hok. destruct (vc_indices vc !! i) eqn:E; cbn; [by apply Hok|apply index_default_ok].
Qed.

(** A certificate a quorum of checked votes for one index and digest stands
    behind, its sessions and signatures in the order of its signers. *)
Record BackedBy (ct : Certificate) (votes : list CheckpointVote) : Prop := {
  bb_signers : ct_signers ct = vt_signer <$> votes;
  bb_sorted : StronglySorted lt (ct_signers ct);
  bb_quorum : quorum c <= signer_weight c (ct_signers ct);
  bb_votes : Forall (fun v => checked v /\ cp_index (vt_checkpoint v) = cp_index (ct_checkpoint ct) /\
                              vote_digest v = cp_digest (ct_checkpoint ct)) votes;
  bb_sessions : ct_sessions ct = (fun v => session_digest (vs_session (vt_signature v))) <$> votes;
  bb_signatures : ct_signatures ct = (fun v => vs_signature (vt_signature v)) <$> votes;
}.

Lemma votes_of_fmap (m : gmap ValidatorIndex CheckpointVote) ss :
  (forall s, s ∈ ss -> exists v, m !! s = Some v /\ vt_signer v = s) ->
  vt_signer <$> votes_of m ss = ss.
Proof.
  induction ss as [|s ss IH]; intros H; [done|].
  destruct (H s ltac:(left)) as (v & Hv & Hs). unfold votes_of. cbn. rewrite Hv. cbn.
  rewrite Hs. f_equal. apply IH. intros s' ?. apply H. by right.
Qed.

(** A first vote of a signer at an index, before that index is certified. *)
Lemma count_vote_ok i e vote :
  IndexOk i e -> checked vote -> cp_index (vt_checkpoint vote) = i ->
  iv_by_signer e !! vt_signer vote = None -> iv_certified e = false ->
  let seen := (ss_insert (default ss_new (iv_by_digest e !! vote_digest vote))
                 (vt_signer vote) (seats c (vt_signer vote))).1 in
  let by_signer := <[vt_signer vote := vote]> (iv_by_signer e) in
  ss_ok c seen /\
  (forall s, ss_contains seen s = true <->
     exists v, by_signer !! s = Some v /\ vote_digest v = vote_digest vote) /\
  (forall s v, by_signer !! s = Some v ->
     vt_signer v = s /\ cp_index (vt_checkpoint v) = i /\ checked v).
Proof.
  intros [Hv Hc] Hch Hi Hn Hcert seen by_signer.
  destruct (Hc Hcert (vote_digest vote)) as (Hss & _ & Hin). split_and!.
  - apply ss_ok_insert; auto.
  - intros s. unfold seen, by_signer. rewrite ss_contains_insert, orb_true_iff, Hin, Nat.eqb_eq.
    destruct (decide (s = vt_signer vote)) as [->|Hne].
    + rewrite lookup_insert_eq. split; [eauto|by right].
    + rewrite lookup_insert_ne by done. split; [intros [?|?]; [done|congruence]|by left].
  - intros s v. unfold by_signer. destruct (decide (s = vt_signer vote)) as [->|Hne].
    + rewrite lookup_insert_eq. intros [= <-]. done.
    + rewrite lookup_insert_ne by done. apply Hv.
Qed.

Lemma put_index_ok vc i e : CollectorOk vc -> IndexOk i e -> CollectorOk (put_index vc i e).
Proof.
  intros Hok He j e'. cbn. destruct (decide (j = i)) as [->|Hne].
  - rewrite lookup_insert_eq. by intros [= <-].
  - rewrite lookup_insert_ne by done. apply Hok.
Qed.

Lemma add_ok vc vote vc' out :
  CollectorOk vc -> checked vote -> add session_digest cp_digest c vc vote = (vc', out) ->
  CollectorOk vc' /\ vc_floor vc' = vc_floor vc /\
  match out with
  | Certified ct => ct_checkpoint ct = vt_checkpoint vote /\ exists votes, BackedBy ct votes
  | Equivocation a b => b = vote /\ vt_signer a = vt_signer b /\ checked a /\
      cp_index (vt_checkpoint a) = cp_index (vt_checkpoint b) /\ vote_digest a <> vote_digest b
  | _ => True
  end.
Proof.
  intros Hok Hch. unfold add. set (i := cp_index (vt_checkpoint vote)).
  destruct (N.ltb_spec i (vc_floor vc)); [by intros [= <- <-]|].
  pose proof (collector_entry_ok vc i Hok) as He.
  set (e := default index_votes_default (vc_indices vc !! i)) in *.
  fold (vote_digest vote).
  destruct (iv_by_signer e !! vt_signer vote) as [prev|] eqn:Hprev.
  { intros [= <- <-]. split_and!; [by apply put_index_ok|done|].
    destruct (io_vote _ _ He _ _ Hprev) as (? & ? & ?). fold (vote_digest prev).
    destruct (N.eqb_spec (vote_digest prev) (vote_digest vote)); [done|by split_and!]. }
  destruct (iv_certified e) eqn:Hcert.
  { intros [= <- <-]. split_and!; [|done|done]. apply put_index_ok; [done|].
    constructor; cbn; [|done]. intros s v. destruct (decide (s = vt_signer vote)) as [->|Hne].
    - rewrite lookup_insert_eq. by intros [= <-].
    - rewrite lookup_insert_ne by done. apply He. }
  destruct (count_vote_ok i e vote He Hch eq_refl Hprev Hcert) as (Hss & Hin & Hvs).
  set (seen := (ss_insert (default ss_new (iv_by_digest e !! vote_digest vote))
                 (vt_signer vote) (seats c (vt_signer vote))).1) in *.
  destruct (N.ltb_spec (ss_weight seen) (quorum c)) as [Hlt|Hge]; intros [= <- <-].
  - split_and!; [|done|done]. apply put_index_ok; [done|]. constructor; cbn; [done|].
    intros _ d. destruct (decide (d = vote_digest vote)) as [->|Hne].
    + rewrite lookup_insert_eq. by split_and!.
    + rewrite lookup_insert_ne by done.
      destruct (io_count _ _ He Hcert d) as (H1 & H2 & H3). split_and!; [done|done|].
      intros s. rewrite H3. destruct (decide (s = vt_signer vote)) as [->|Hs].
      * rewrite lookup_insert_eq, Hprev. split; [by intros (? & ? & _)|].
        intros (v & [= <-] & ?). congruence.
      * by rewrite lookup_insert_ne.
  - split; [|split; [done|]].
    { apply put_index_ok; [done|]. by constructor. }
    cbn. split; [done|]. exists (votes_of (<[vt_signer vote:=vote]> (iv_by_signer e))
                                   (merge_sort le (ss_iter seen))).
    assert (forall s, s ∈ merge_sort le (ss_iter seen) <-> ss_contains seen s = true) as Hel.
    { intros s. by rewrite merge_sort_Permutation, ss_iter_elem. }
    constructor; cbn.
    + symmetry. apply votes_of_fmap. intros s Hs%Hel%Hin. destruct Hs as (v & Hv & _).
      exists v. split; [done|]. by apply Hvs.
    + apply sorted_signers.
    + eapply N.le_trans; [exact Hge|]. destruct Hss as [_ ->]. apply wsum_mono. intros s _ Hs.
      apply bool_decide_eq_true. by apply Hel.
    + apply Forall_forall. intros v (s & Hs & Hv)%list_elem_of_omap.
      apply Hel, Hin in Hs as (v' & Hv' & Hd). rewrite Hv in Hv'. injection Hv' as <-.
      destruct (Hvs s v Hv) as (_ & ? & ?). by split_and!.
    + done.
    + done.
Qed.

Lemma prune_ok vc i : CollectorOk vc -> CollectorOk (vc_prune_below vc i).
Proof.
  intros Hok. unfold vc_prune_below. destruct (_ <? _); [|done].
  intros j e. cbn. rewrite map_lookup_filter_Some. intros [? _]. by apply Hok.
Qed.

Inductive CollectOp := AddVote (v : CheckpointVote) | PruneBelow (i : N).

(** One operation, with the outcomes of the additions so far. *)
Definition collect_step (st : VoteCollector * list VoteOutcome) (op : CollectOp)
  : VoteCollector * list VoteOutcome :=
  match op with
  | AddVote v => let '(vc, out) := add session_digest cp_digest c st.1 v in (vc, st.2 ++ [out])
  | PruneBelow i => (vc_prune_below st.1 i, st.2)
  end.

Definition collect (ops : list CollectOp) : VoteCollector * list VoteOutcome :=
  foldl collect_step (collector_new, []) ops.

Definition op_checked (op : CollectOp) : Prop :=
  match op with AddVote v => checked v | PruneBelow _ => True end.

Definition certified_at (i : N) (out : VoteOutcome) : bool :=
  match out with Certified ct => cp_index (ct_checkpoint ct) =? i | _ => false end.

(** An index already certified stays closed: marked, or below the floor. *)
Definition closed (vc : VoteCollector) (i : N) : Prop :=
  i < vc_floor vc \/ exists e, vc_indices vc !! i = Some e /\ iv_certified e = true.

Lemma add_closes vc vote vc' out i :
  add session_digest cp_digest c vc vote = (vc', out) ->
  (closed vc i -> closed vc' i /\ certified_at i out = false) /\
  (certified_at i out = true -> closed vc' i).
Proof.
  unfold add. set (j := cp_index (vt_checkpoint vote)).
  destruct (N.ltb_spec j (vc_floor vc)); [by intros [= <- <-]|].
  set (e := default index_votes_default (vc_indices vc !! j)).
  assert (forall e', (iv_certified e = true -> iv_certified e' = true) ->
            closed vc i -> closed (put_index vc j e') i) as Hput.
  { intros e' He' [Hlt|(e0 & E & Hc)]; [by left|]. right. cbn.
    destruct (decide (i = j)) as [->|Hne].
    - exists e'. rewrite lookup_insert_eq. split; [done|]. apply He'. unfold e. by rewrite E.
    - exists e0. by rewrite lookup_insert_ne. }
  destruct (iv_by_signer e !! vt_signer vote) as [prev|].
  { intros [= <- <-]. destruct (_ =? _); (split; [split; [by apply Hput|done]|done]). }
  destruct (iv_certified e) eqn:Hcert.
  { intros [= <- <-]. split; [split; [by apply Hput|done]|done]. }
  destruct (_ <? _); intros [= <- <-].
  { split; [split; [by apply Hput|done]|done]. }
  cbn [certified_at ct_checkpoint]. fold j. split.
  - intros Hcl. split; [by apply Hput|]. apply N.eqb_neq. intros ->.
    destruct Hcl as [?|(e0 & E & Hc)]; [lia|]. unfold e in Hcert. rewrite E in Hcert. cbn in Hcert. congruence.
  - intros ->%N.eqb_eq. right. eexists. cbn. rewrite lookup_insert_eq. done.
Qed.

Lemma prune_closes vc i j : closed vc i -> closed (vc_prune_below vc j) i.
Proof.
  unfold closed, vc_prune_below. intros Hcl. destruct (N.ltb_spec (vc_floor vc) j); [cbn|done].
  destruct (decide (i < j)); [by left|]. destruct Hcl as [?|(e & E & Hc)]; [lia|].
  right. exists e. split; [|done]. apply map_lookup_filter_Some. split; [done|]. cbn. lia.
Qed.

Lemma collect_ok ops :
  Forall op_checked ops ->
  let '(vc, outs) := collect ops in
  CollectorOk vc /\
  (forall ct, Certified ct ∈ outs ->
     exists v votes, checked v /\ ct_checkpoint ct = vt_checkpoint v /\ BackedBy ct votes) /\
  (forall i, (length (filter (fun o => certified_at i o = true) outs) <= 1)%nat /\
     ((0 < length (filter (fun o => certified_at i o = true) outs))%nat -> closed vc i)).
Proof.
  induction ops as [|op ops IH] using rev_ind; intros HF.
  { cbn. split_and!; [by intros i e; cbn; rewrite lookup_empty|by intros ct ?%elem_of_nil|].
    intros i. cbn. lia. }
  apply Forall_app in HF as [HF Hop]. rewrite Forall_singleton in Hop.
  specialize (IH HF). unfold collect in *. rewrite foldl_app. cbn [foldl].
  destruct (foldl collect_step (collector_new, []) ops) as [vc outs].
  destruct IH as (Hok & Hct & Honce). destruct op as [v|j]; cbn in Hop |- *.
  2:{ split_and!; [by apply prune_ok|done|]. intros i. destruct (Honce i) as [H1 H2].
      split; [done|]. intros H. by apply prune_closes, H2. }
  destruct (add _ _ _ vc v) as [vc' out] eqn:E.
  destruct (add_ok vc v vc' out Hok Hop E) as (Hok' & _ & Hout). split_and!; [done| |].
  - intros ct [Hin|Hin%list_elem_of_singleton]%elem_of_app; [by apply Hct|]. subst out.
    destruct Hout as [Hcp [votes Hb]]. by exists v, votes.
  - intros i. destruct (Honce i) as [H1 H2]. destruct (add_closes vc v vc' out i E) as [H3 H4].
    rewrite filter_app, length_app. rewrite (filter_cons _ out). cbn [filter list_filter].
    case_decide as Hc; cbn [length].
    + split; [|intros _; auto].
      destruct (length (filter _ outs)) as [|n]; [lia|]. destruct H3 as [_ ?]; [apply H2; lia|congruence].
    + split; [lia|]. intros Hp. apply H3, H2. lia.
Qed.
End collector.

(** ** The certificates a collector forms verify *)

Section collected.
Context (fingerprint : ValidatorPublicKey -> Digest).
Context (key_verify : ValidatorPublicKey -> Domain -> list N -> CompositeSignature -> bool).
Context (session_digest : SessionCertificate -> Digest).
Context (cp_digest : Checkpoint -> Digest).

(** What a vote passed before it is added: its checkpoint is of the context's
    chain and epoch and well formed, its session certificate is in the book
    under its signer, and its session key signed the digest. *)
Record VoteChecked (cx : CertificateContext) (v : CheckpointVote) : Prop := {
  vk_chain : cp_chain_id (vt_checkpoint v) = cx_chain_id cx;
  vk_genesis : cp_genesis_hash (vt_checkpoint v) = cx_genesis_hash cx;
  vk_epoch : cp_epoch (vt_checkpoint v) = c_epoch (cx_committee cx);
  vk_range : well_formed (vt_checkpoint v) = true;
  vk_member : (vt_signer v < committee_size (cx_committee cx))%nat;
  vk_session : book_get (cx_sessions cx) (session_digest (vs_session (vt_signature v)))
                 = Some (vt_signer v, vs_session (vt_signature v));
  vk_signed : key_verify (sc_session_key (vs_session (vt_signature v))) CHECKPOINT_VOTE_DOMAIN
                (be_bytes 32 (cp_digest (vt_checkpoint v))) (vs_signature (vt_signature v)) = true;
}.

Lemma backed_verifies cx ct v votes :
  CommitteeWf (cx_committee cx) -> bk_epoch (cx_sessions cx) = c_epoch (cx_committee cx) ->
  VoteChecked cx v -> ct_checkpoint ct = vt_checkpoint v ->
  BackedBy session_digest cp_digest (cx_committee cx) (VoteChecked cx) ct votes ->
  CertificateOk key_verify cp_digest ct cx.
Proof.
  intros wf Hbook [] Hcp [Hsig Hsort Hq Hv Hse Hsg]. constructor; rewrite ?Hcp; try done; try congruence.
  - by rewrite Hsig, Hsg, !length_fmap.
  - by rewrite Hsig, Hse, !length_fmap.
  - rewrite Hsig. apply Forall_fmap. eapply Forall_impl; [exact Hv|]. intros u (Hu & _). apply Hu.
  - rewrite Hsig, Hse, Hsg. clear Hsort Hq Hsig Hse Hsg.
    induction votes as [|u votes IH]; [constructor|]. apply Forall_cons in Hv as [(Hu & _ & Hd) Hv].
    cbn [fmap list_fmap zip zip_with]. constructor; [|by apply IH].
    exists (vs_session (vt_signature u)). cbn [fst snd]. split; [apply Hu|].
    rewrite <-Hcp, <-Hd. apply Hu.
Qed.

(** A certificate the vote collector forms always verifies. From any
    sequence of checked votes and prunings, every certificate handed out is
    accepted by [Certificate::verify]; at most one is formed per checkpoint
    index; and while an index is not certified no digest has a quorum, so the
    certificate is formed with the vote that completes the quorum. *)
Theorem collector_certifies cx ops :
  CommitteeWf (cx_committee cx) -> bk_epoch (cx_sessions cx) = c_epoch (cx_committee cx) ->
  Forall (op_checked (VoteChecked cx)) ops ->
  let '(vc, outs) := collect session_digest cp_digest (cx_committee cx) ops in
  (forall ct, Certified ct ∈ outs -> certificate_verify key_verify cp_digest ct cx = Ok tt) /\
  (forall i, (length (filter (fun o => certified_at i o = true) outs) <= 1)%nat) /\
  (forall i e d, vc_indices vc !! i = Some e -> iv_certified e = false ->
     weight (cx_committee cx)
       (fun s => match iv_by_signer e !! s with
                 | Some v => vote_digest cp_digest v =? d | None => false end)
     < quorum (cx_committee cx)).
Proof.
  intros wf Hbook HF.
  pose proof (collect_ok session_digest cp_digest (cx_committee cx) wf (VoteChecked cx)
    (fun v H => vk_member cx v H) ops HF) as H.
  destruct (collect _ _ _ ops) as [vc outs]. destruct H as (Hok & Hct & Honce). split_and!.
  - intros ct Hin. destruct (Hct ct Hin) as (v & votes & Hv & Hcp & Hb).
    rewrite certificate_verify_iff by done. by eapply backed_verifies.
  - intros i. apply Honce.
  - intros i e d He Hc. destruct (io_count _ _ _ _ _ (Hok i e He) Hc d) as ([_ Hw] & Hlt & Hin).
    rewrite Hw in Hlt. eapply N.le_lt_trans; [|exact Hlt]. apply wsum_mono. intros s _ Hs.
    apply Hin. destruct (iv_by_signer e !! s) as [v|]; [|done]. exists v. split; [done|]. by propify.
Qed.
End collected.

Definition sample_vote (root : Digest) (i : nat) : CheckpointVote :=
  mkVote (sample_checkpoint root) i (mkVoteSig (sample_session (N.of_nat i)) (mkSig [] [])).

Lemma collector_certifies_witness :
  let ops := AddVote <$> [sample_vote 21 2; sample_vote 21 0; sample_vote 22 3; sample_vote 21 1] in
  let outs := (collect sample_session_digest sample_cp_digest sample_committee ops).2 in
  outs = [Counted; Counted; Counted; Certified (sample_certificate 21 [0; 1; 2]%nat)] /\
  (forall ct, Certified ct ∈ outs -> certificate_verify any_key sample_cp_digest ct sample_context = Ok tt).
Proof.
  intros ops outs. split; [vm_compute; reflexivity|].
  apply (collector_certifies any_key sample_session_digest sample_cp_digest sample_context ops).
  - apply sample_committee_wf.
  - reflexivity.
  - repeat constructor.
Defined.

(** [Certificate::verify] accepts exactly the certificates of the context's
    chain and epoch with a well-formed height range, whose signers are
    strictly ascending committee members holding a quorum of seats, each with
    a session certificate of the book filed for that signer under which the
    signature on the checkpoint digest verifies. *)
Theorem certificate_verify_spec key_verify cp_digest ct cx :
  CommitteeWf (cx_committee cx) ->
  certificate_verify key_verify cp_digest ct cx = Ok tt <-> CertificateOk key_verify cp_digest ct cx.
Proof. apply certificate_verify_iff. Qed.

Lemma certificate_verify_spec_witness :
  CertificateOk any_key sample_cp_digest (sample_certificate 21 [0; 1; 3]%nat) sample_context.
Proof.
  apply (certificate_verify_spec any_key sample_cp_digest _ sample_context sample_committee_wf).
  vm_compute. reflexivity.
Defined.

(** The session book of an epoch keeps only certificates made for its chain
    and epoch by the hardware key of the committee member they are filed for,
    and at most sixteen per member, whatever certificates are submitted. *)
Theorem session_book_invariant fingerprint key_verify session_digest c chain genesis epoch ss :
  let b := admit_all fingerprint key_verify session_digest c (book_new chain genesis epoch) ss in
  (forall d i s, book_get b d = Some (i, s) -> exists m, member c i = Some m /\
     certifies fingerprint key_verify s (m_public_key m) chain genesis epoch = true) /\
  (forall i, N.of_nat (size (filter (fun p => p.2.1 = i) (bk_by_digest b)))
             <= MAX_SESSIONS_PER_VALIDATOR).
Proof.
  destruct (admit_all_ok fingerprint key_verify session_digest c (book_new chain genesis epoch) ss
    (book_new_ok _ _ _ _ _ _ _)) as ([He Hc] & E1 & E2 & E3). intros b. split.
  - intros d i s Hd. destruct (He d i s Hd) as (_ & m & Hm & Hcert). exists m.
    rewrite E1, E2, E3 in Hcert. done.
  - intros i. destruct (Hc i) as [Hs Hm]. eapply N.le_trans; [|exact Hm]. by apply N.eq_le_incl.
Qed.
