(* ===== verification/Chain.v ===== *)
(** The light client: one finality step ([tenzro-finality/src/step.rs]), the
    chain of epoch handovers and the proof of a certified checkpoint
    ([tenzro-finality/src/chain.rs]), and the committee root they compare
    ([tenzro-finality/src/committee.rs], [Committee::root]).

    A digest is the number its 32 bytes spell; BLAKE3, signatures and the
    receipt verifier of the zkVM are parameters. *)

From stdpp Require Import prelude gmap list sorting.
From Stdlib Require Import NArith ZArith Lia.
From S2P Require Import Prelude Committee Checkpoint.

(** ** Words *)

Definition from_be (b : list N) : N := foldl (fun a x => a * 256 + x) 0 b.

Definition word_u64 (v : N) : list N := replicate 24 0 ++ be_bytes 8 v.

Definition read_u64 (word : list N) : option N :=
  if existsb (fun b => negb (b =? 0)) (take 24 word) then None
  else Some (from_be (take 8 (drop 24 word))).

(** The [i]-th chunk of 32 bytes. *)
Definition word (bytes : list N) (i : nat) : list N := take 32 (drop (32 * i) bytes).

(** ** The committee root *)

(** ["tenzro/consensus/committee"]. *)
Definition COMMITTEE_DOMAIN : list N :=
  [116; 101; 110; 122; 114; 111; 47; 99; 111; 110; 115; 101; 110; 115; 117; 115; 47;
   99; 111; 109; 109; 105; 116; 116; 101; 101].

Definition member_bytes (fingerprint : ValidatorPublicKey -> Digest) (m : Member) : list N :=
  be_bytes 32 (m_address m) ++ be_bytes 32 (fingerprint (m_public_key m))
  ++ be_bytes 16 (m_stake m) ++ be_bytes 8 (m_seats m).

Definition root_bytes (fingerprint : ValidatorPublicKey -> Digest) (c : Committee) : list N :=
  COMMITTEE_DOMAIN ++ be_bytes 8 (c_epoch c) ++ be_bytes 8 (N.of_nat (length (c_members c)))
  ++ flat_map (member_bytes fingerprint) (c_members c).

(** ** Journals *)

Record FinalityJournal := mkJournal {
  j_chain_id : N;
  j_genesis_hash : Digest;
  j_epoch : N;
  j_committee_root : Digest;
  j_index : N;
  j_checkpoint_digest : Digest;
  j_last_height : N;
  j_state_height : N;
  j_state_root : Digest;
  j_blocks_root : Digest;
  j_statement_root : Digest;
  j_next_committee_root : Digest;
  j_timestamp_ms : N;
}.

Definition JOURNAL_LEN : nat := 13 * 32.

Definition journal_encode (j : FinalityJournal) : list N :=
  word_u64 (j_chain_id j) ++ be_bytes 32 (j_genesis_hash j) ++ word_u64 (j_epoch j)
  ++ be_bytes 32 (j_committee_root j) ++ word_u64 (j_index j)
  ++ be_bytes 32 (j_checkpoint_digest j) ++ word_u64 (j_last_height j)
  ++ word_u64 (j_state_height j) ++ be_bytes 32 (j_state_root j)
  ++ be_bytes 32 (j_blocks_root j) ++ be_bytes 32 (j_statement_root j)
  ++ be_bytes 32 (j_next_committee_root j) ++ word_u64 (j_timestamp_ms j).

Definition journal_decode (bytes : list N) : option FinalityJournal :=
  if negb (length bytes =? JOURNAL_LEN)%nat then None
  else
    let w := word bytes in
    let d i := from_be (w i) in
    chain_id ← read_u64 (w 0%nat);
    epoch ← read_u64 (w 2%nat);
    index ← read_u64 (w 4%nat);
    last_height ← read_u64 (w 6%nat);
    state_height ← read_u64 (w 7%nat);
    timestamp_ms ← read_u64 (w 12%nat);
    Some (mkJournal chain_id (d 1%nat) epoch (d 3%nat) index (d 5%nat) last_height state_height
            (d 8%nat) (d 9%nat) (d 10%nat) (d 11%nat) timestamp_ms).

Record HandoverChainJournal := mkChainJournal {
  h_program : Digest;
  h_chain_id : N;
  h_genesis_hash : Digest;
  h_genesis_root : Digest;
  h_epoch : N;
  h_committee_root : Digest;
}.

Definition CHAIN_JOURNAL_LEN : nat := 6 * 32.

Definition chain_encode (j : HandoverChainJournal) : list N :=
  be_bytes 32 (h_program j) ++ word_u64 (h_chain_id j) ++ be_bytes 32 (h_genesis_hash j)
  ++ be_bytes 32 (h_genesis_root j) ++ word_u64 (h_epoch j) ++ be_bytes 32 (h_committee_root j).

Definition chain_decode (bytes : list N) : option HandoverChainJournal :=
  if negb (length bytes =? CHAIN_JOURNAL_LEN)%nat then None
  else
    let w := word bytes in
    let d i := from_be (w i) in
    chain_id ← read_u64 (w 1%nat);
    epoch ← read_u64 (w 4%nat);
    Some (mkChainJournal (d 0%nat) chain_id (d 2%nat) (d 3%nat) epoch (d 5%nat)).

(** ** Steps, links and proofs *)

Record FinalityStep := mkStep {
  fs_chain_id : N;
  fs_genesis_hash : Digest;
  fs_members : list Member;
  fs_sessions : list SessionCertificate;
  fs_certificate : Certificate;
}.

Record EpochHandover := mkHandover {
  eh_certificate : Certificate;
  eh_sessions : list SessionCertificate;
  eh_next_members : list Member;
}.

Record HandoverLink := mkLink {
  hl_program : Digest;
  hl_genesis_root : Digest;
  hl_prev : option HandoverChainJournal;
  hl_step : FinalityStep;
}.

Record ChainAnchor := mkAnchor {
  an_chain_id : N;
  an_genesis_hash : Digest;
  an_genesis_root : Digest;
  an_program : Digest;
}.

Record ChainedCheckpointProof := mkProof {
  pf_chain : list N;
  pf_members : list Member;
  pf_handovers : list EpochHandover;
  pf_certificate : Certificate;
  pf_sessions : list SessionCertificate;
}.

Inductive ChainError :=
| BadCommittee (e : FinalityError)
| BadCertificate (e : CertificateError)
| CheckpointOfAnotherChain
| NotTheFirstLink
| AnotherProgram
| LinkOfAnotherChain
| LinkOfAnotherCommittee
| DoesNotEndEpoch
| ReceiptRefused
| NoChainJournal
| NotTheCommittee
| EpochNotReached.

Definition lift_err {E F A} (f : E -> F) (r : result E A) : result F A :=
  match r with Ok a => Ok a | Err e => Err (f e) end.

Section chain.
Context (fingerprint : ValidatorPublicKey -> Digest).
Context (key_verify : ValidatorPublicKey -> Domain -> list N -> CompositeSignature -> bool).
Context (session_digest : SessionCertificate -> Digest).
Context (cp_digest : Checkpoint -> Digest).
Context (blake3 : list N -> Digest).
(** The receipt verifier: the journal a receipt commits under a program. *)
Context (verify_receipt : Digest -> list N -> option (list N)).

Definition committee_root (c : Committee) : Digest := blake3 (root_bytes fingerprint c).

Definition committee_of (epoch : N) (ms : list Member) : result ChainError Committee :=
  lift_err BadCommittee (from_members fingerprint epoch ms).

(** [for s in &self.sessions { book.book_admit(&committee, s)?; }]. *)
Fixpoint admit_each (c : Committee) (b : SessionBook) (ss : list SessionCertificate)
  : result CertificateError SessionBook :=
  match ss with
  | [] => Ok b
  | s :: ss =>
      let? p := book_admit fingerprint key_verify session_digest b c s in
      admit_each c p.1 ss
  end.

Definition step_verify (st : FinalityStep) : result ChainError FinalityJournal :=
  let cp := ct_checkpoint (fs_certificate st) in
  let? c := committee_of (cp_epoch cp) (fs_members st) in
  let? book := lift_err BadCertificate
    (admit_each c (book_new (fs_chain_id st) (fs_genesis_hash st) (cp_epoch cp)) (fs_sessions st)) in
  let cx := mkContext (fs_chain_id st) (fs_genesis_hash st) c book in
  let? _ := lift_err BadCertificate (certificate_verify key_verify cp_digest (fs_certificate st) cx) in
  Ok (mkJournal (cp_chain_id cp) (cp_genesis_hash cp) (cp_epoch cp) (committee_root c)
        (cp_index cp) (cp_digest cp) (cp_last_height cp) (cp_state_height cp) (cp_state_root cp)
        (cp_blocks_root cp) (cp_statement_root cp) (default 0 (cp_next_committee_root cp))
        (cp_timestamp_ms cp)).

Definition link_verify (l : HandoverLink) : result ChainError HandoverChainJournal :=
  let? j := step_verify (hl_step l) in
  check? ((j_chain_id j =? fs_chain_id (hl_step l)) &&
          (j_genesis_hash j =? fs_genesis_hash (hl_step l))) else CheckpointOfAnotherChain in
  let? _ :=
    match hl_prev l with
    | None =>
        guard_r ((j_epoch j =? 0) && (j_committee_root j =? hl_genesis_root l)) NotTheFirstLink
    | Some p =>
        check? (h_program p =? hl_program l) else AnotherProgram in
        check? ((h_chain_id p =? j_chain_id j) && (h_genesis_hash p =? j_genesis_hash j) &&
                (h_genesis_root p =? hl_genesis_root l)) else LinkOfAnotherChain in
        guard_r ((h_epoch p =? j_epoch j) && (h_committee_root p =? j_committee_root j))
          LinkOfAnotherCommittee
    end in
  check? (negb (j_next_committee_root j =? 0)) else DoesNotEndEpoch in
  Ok (mkChainJournal (hl_program l) (j_chain_id j) (j_genesis_hash j) (hl_genesis_root l)
        (wadd64 (j_epoch j) 1) (j_next_committee_root j)).

Definition reached (an : ChainAnchor) (chain : list N) : result ChainError (N * Digest) :=
  match chain with
  | [] => Ok (0, an_genesis_root an)
  | _ =>
      let? journal := ok_or (verify_receipt (an_program an) chain) ReceiptRefused in
      let? j := ok_or (chain_decode journal) NoChainJournal in
      check? (h_program j =? an_program an) else AnotherProgram in
      check? ((h_chain_id j =? an_chain_id an) && (h_genesis_hash j =? an_genesis_hash an) &&
              (h_genesis_root j =? an_genesis_root an)) else LinkOfAnotherChain in
      Ok (h_epoch j, h_committee_root j)
  end.

(** A step of the walk under the anchor's chain. *)
Definition anchor_step (an : ChainAnchor) (ms : list Member) (ct : Certificate)
    (ss : list SessionCertificate) : result ChainError FinalityJournal :=
  step_verify (mkStep (an_chain_id an) (an_genesis_hash an) ms ss ct).

(** The walk over the handovers: the members and the epoch it reaches. *)
Fixpoint walk_handovers (an : ChainAnchor) (epoch : N) (ms : list Member) (hs : list EpochHandover)
  : result ChainError (N * list Member) :=
  match hs with
  | [] => Ok (epoch, ms)
  | h :: hs =>
      let? j := anchor_step an ms (eh_certificate h) (eh_sessions h) in
      check? ((j_epoch j =? epoch) && negb (j_next_committee_root j =? 0)) else DoesNotEndEpoch in
      let? next := committee_of (wadd64 epoch 1) (eh_next_members h) in
      check? (committee_root next =? j_next_committee_root j) else NotTheCommittee in
      walk_handovers an (wadd64 epoch 1) (eh_next_members h) hs
  end.

Definition proof_verify (pf : ChainedCheckpointProof) (an : ChainAnchor)
  : result ChainError Checkpoint :=
  let? start := reached an (pf_chain pf) in
  let '(epoch, root) := start in
  let? c := committee_of epoch (pf_members pf) in
  check? (committee_root c =? root) else NotTheCommittee in
  let? w := walk_handovers an epoch (pf_members pf) (pf_handovers pf) in
  let '(epoch, ms) := w in
  let? j := anchor_step an ms (pf_certificate pf) (pf_sessions pf) in
  check? (j_epoch j =? epoch) else EpochNotReached in
  Ok (ct_checkpoint (pf_certificate pf)).
End chain.

(** ** Big-endian bytes *)

Lemma be_bytes_length n x : length (be_bytes n x) = n.
Proof. revert x. induction n as [|n IH]; intros x; cbn [be_bytes]; [done|]. rewrite length_app, IH. cbn. lia. Qed.

Lemma be_bytes_bytes n x : Forall (fun b => b < 256) (be_bytes n x).
Proof.
  revert x. induction n as [|n IH]; intros x; cbn [be_bytes]; [constructor|].
  apply Forall_app. split; [apply IH|]. constructor; [|constructor]. by apply N.mod_lt.
Qed.

Lemma from_be_app b x : from_be (b ++ [x]) = from_be b * 256 + x.
Proof. unfold from_be. by rewrite foldl_app. Qed.

Lemma from_be_be_bytes n x : x < 256 ^ N.of_nat n -> from_be (be_bytes n x) = x.
Proof.
  revert x. induction n as [|n IH]; intros x Hx; cbn [be_bytes].
  { cbn in *. unfold from_be. cbn. lia. }
  rewrite Nat2N.inj_succ, N.pow_succ_r' in Hx. rewrite from_be_app, IH.
  - pose proof (N.div_mod x 256 ltac:(done)). lia.
  - by apply N.Div0.div_lt_upper_bound.
Qed.

Lemma be_bytes_from_be b : Forall (fun x => x < 256) b -> be_bytes (length b) (from_be b) = b.
Proof.
  induction b as [|x b IH] using rev_ind; intros HF; [done|].
  apply Forall_app in HF as [HF Hx]. rewrite Forall_singleton in Hx.
  rewrite length_app. cbn [length]. rewrite Nat.add_1_r. cbn [be_bytes]. rewrite from_be_app.
  rewrite N.div_add_l, (N.div_small x), N.add_0_r, IH by done. f_equal. f_equal.
  rewrite N.add_comm, N.Div0.mod_add. by apply N.mod_small.
Qed.

Lemma be_bytes_inj n x y :
  x < 256 ^ N.of_nat n -> y < 256 ^ N.of_nat n -> be_bytes n x = be_bytes n y -> x = y.
Proof. intros Hx Hy H. rewrite <-(from_be_be_bytes n x), <-(from_be_be_bytes n y), H by done. done. Qed.

#[global] Opaque be_bytes.

(** ** Journals round trip *)

Lemma word_concat ws i w :
  Forall (fun x => length x = 32%nat) ws -> ws !! i = Some w -> word (concat ws) i = w.
Proof.
  intros HF. unfold word. revert i. induction HF as [|x ws Hx HF IH]; intros i Hi; [done|].
  destruct i as [|i]; cbn [concat lookup list_lookup] in *.
  - injection Hi as ->. rewrite Nat.mul_0_r, drop_0. by rewrite take_app_length'.
  - replace (32 * S i)%nat with (length x + 32 * i)%nat by lia. rewrite drop_app_add'; [|done].
    by apply IH.
Qed.

Lemma concat_words n bytes :
  length bytes = (32 * n)%nat -> concat (word bytes <$> seq 0 n) = bytes.
Proof.
  unfold word. revert bytes. induction n as [|n IH]; intros bytes Hl.
  { symmetry; by apply nil_length_inv. }
  cbn [seq fmap list_fmap concat]. rewrite Nat.mul_0_r, drop_0.
  rewrite <-(take_drop 32 bytes) at 2. f_equal.
  rewrite <-(IH (drop 32 bytes)) by (rewrite length_drop; lia).
  rewrite <-seq_shift. f_equal. rewrite <-list_fmap_compose. apply list_fmap_ext.
  intros i k _. unfold compose. rewrite drop_drop. f_equal. f_equal. lia.
Qed.

Lemma word_length bytes n i :
  length bytes = (32 * n)%nat -> (i < n)%nat -> length (word bytes i) = 32%nat.
Proof. intros Hl Hi. unfold word. rewrite length_take, length_drop. lia. Qed.

Lemma word_bytes bytes i :
  Forall (fun b => b < 256) bytes -> Forall (fun b => b < 256) (word bytes i).
Proof. intros HF. by apply Forall_take, Forall_drop. Qed.

Lemma read_word v : v <= U64_MAX -> read_u64 (word_u64 v) = Some v.
Proof.
  intros Hv. unfold read_u64, word_u64. rewrite take_app_length', drop_app_length' by done.
  cbn [existsb replicate N.eqb negb orb]. rewrite take_ge by (by rewrite be_bytes_length).
  rewrite from_be_be_bytes; [done|]. unfold U64_MAX in Hv. change (256 ^ N.of_nat 8) with (2 ^ 64). lia.
Qed.

Lemma zeros_replicate l : existsb (fun b => negb (b =? 0)) l = false -> l = replicate (length l) 0.
Proof.
  induction l as [|x l IH]; [done|]. cbn. intros H. propify. subst. f_equal. by apply IH.
Qed.

Lemma word_read w v :
  length w = 32%nat -> Forall (fun b => b < 256) w -> read_u64 w = Some v ->
  word_u64 v = w /\ v <= U64_MAX.
Proof.
  intros Hl HF. unfold read_u64. destruct (existsb _ _) eqn:E; [done|]. intros [= <-].
  apply zeros_replicate in E. rewrite length_take, Hl in E. cbn [Nat.min] in E.
  assert (Forall (fun b => b < 256) (take 8 (drop 24 w))) as HF8 by (by apply Forall_take, Forall_drop).
  assert (length (take 8 (drop 24 w)) = 8%nat) as Hl8 by (rewrite length_take, length_drop; lia).
  split.
  - unfold word_u64. rewrite <-E. pose proof (be_bytes_from_be _ HF8) as E8. rewrite Hl8 in E8. rewrite E8.
    rewrite (take_ge (drop 24 w)) by (rewrite length_drop; lia). apply take_drop.
  - revert HF8 Hl8. generalize (take 8 (drop 24 w)) as b. intros b HFb Hlb.
    do 9 (destruct b as [|? b]; try done). rewrite !Forall_cons in HFb.
    unfold from_be, U64_MAX. cbn [foldl]. lia.
Qed.

Lemma digest_read w :
  length w = 32%nat -> Forall (fun b => b < 256) w -> be_bytes 32 (from_be w) = w.
Proof. intros Hl HF. rewrite <-Hl. by apply be_bytes_from_be. Qed.

Lemma word_u64_length v : length (word_u64 v) = 32%nat.
Proof. unfold word_u64. by rewrite length_app, be_bytes_length. Qed.

Definition digest_fits (d : Digest) : Prop := d < 256 ^ N.of_nat 32.

Record JournalFits (j : FinalityJournal) : Prop := {
  jf_words : Forall (fun v => v <= U64_MAX)
    [j_chain_id j; j_epoch j; j_index j; j_last_height j; j_state_height j; j_timestamp_ms j];
  jf_digests : Forall digest_fits
    [j_genesis_hash j; j_committee_root j; j_checkpoint_digest j; j_state_root j;
     j_blocks_root j; j_statement_root j; j_next_committee_root j];
}.

Definition journal_words (j : FinalityJournal) : list (list N) :=
  [word_u64 (j_chain_id j); be_bytes 32 (j_genesis_hash j); word_u64 (j_epoch j);
   be_bytes 32 (j_committee_root j); word_u64 (j_index j); be_bytes 32 (j_checkpoint_digest j);
   word_u64 (j_last_height j); word_u64 (j_state_height j); be_bytes 32 (j_state_root j);
   be_bytes 32 (j_blocks_root j); be_bytes 32 (j_statement_root j);
   be_bytes 32 (j_next_committee_root j); word_u64 (j_timestamp_ms j)].

Definition chain_words (j : HandoverChainJournal) : list (list N) :=
  [be_bytes 32 (h_program j); word_u64 (h_chain_id j); be_bytes 32 (h_genesis_hash j);
   be_bytes 32 (h_genesis_root j); word_u64 (h_epoch j); be_bytes 32 (h_committee_root j)].

Lemma concat_length (ws : list (list N)) :
  Forall (fun x => length x = 32%nat) ws -> length (concat ws) = (length ws * 32)%nat.
Proof. induction 1 as [|x ws Hx HF IH]; [done|]. cbn. rewrite length_app, Hx, IH. done. Qed.

Ltac words_32 :=
  repeat (constructor; [first [apply be_bytes_length | apply word_u64_length]|]); constructor.

(** Reads off the words of a concatenation. *)
Ltac take_words Hw :=
  repeat match goal with
  | |- context [word (concat ?ws) ?i] =>
      erewrite (word_concat ws i) by (first [exact Hw | reflexivity])
  end.

Lemma journal_encode_words j :
  journal_encode j = concat (journal_words j) /\
  Forall (fun x => length x = 32%nat) (journal_words j).
Proof.
  split; [|unfold journal_words; words_32]. unfold journal_encode, journal_words. cbn [concat].
  by rewrite app_nil_r.
Qed.

Lemma chain_encode_words j :
  chain_encode j = concat (chain_words j) /\ Forall (fun x => length x = 32%nat) (chain_words j).
Proof.
  split; [|unfold chain_words; words_32]. unfold chain_encode, chain_words. cbn [concat].
  by rewrite app_nil_r.
Qed.

(** C39: the finality journal's encoding and decoding are inverse: a journal in
    range decodes to itself, and bytes that decode are exactly the encoding of
    what they decode to, so a journal has one encoding and a [uint64] word
    with high bytes set is refused. *)
Theorem journal_roundtrip j :
  (JournalFits j -> journal_decode (journal_encode j) = Some j) /\
  (forall bytes, Forall (fun b => b < 256) bytes -> journal_decode bytes = Some j ->
     journal_encode j = bytes).
Proof.
  destruct (journal_encode_words j) as [He Hw]. split.
  - intros [Hu Hd]. unfold digest_fits in Hd. rewrite !Forall_cons in Hu. rewrite !Forall_cons in Hd.
    unfold journal_decode. rewrite He, concat_length by done. cbn [Nat.eqb length journal_words].
    change (13 * 32 =? JOURNAL_LEN)%nat with true. cbn [negb]. cbv zeta.
    take_words Hw.
    rewrite !read_word by tauto. cbn. rewrite !from_be_be_bytes by tauto. by destruct j.
  - intros bytes HF H. rewrite He. unfold journal_decode in H.
    destruct (Nat.eqb_spec (length bytes) JOURNAL_LEN) as [Hl|]; [|done]. cbn [negb] in H.
    cbv zeta in H. unfold JOURNAL_LEN in Hl.
    assert (forall i, (i < 13)%nat -> length (word bytes i) = 32%nat) as Hwl
      by (intros i Hi; apply (word_length bytes 13); [lia|done]).
    assert (forall i, Forall (fun b => b < 256) (word bytes i)) as Hwb by (intros i; by apply word_bytes).
    repeat (apply bind_Some in H as (?v & ?E & H)).
    injection H as <-. transitivity (concat (word bytes <$> seq 0 13)).
    2:{ apply concat_words. lia. }
    f_equal.
    repeat match goal with
    | E : read_u64 (word bytes ?i) = Some ?v |- _ =>
        apply (word_read _ _ (Hwl i ltac:(lia)) (Hwb i)) in E as [E _]
    end.
    unfold journal_words. cbn [seq fmap list_fmap j_chain_id j_genesis_hash j_epoch
      j_committee_root j_index j_checkpoint_digest j_last_height j_state_height j_state_root
      j_blocks_root j_statement_root j_next_committee_root j_timestamp_ms].
    rewrite !digest_read by (try apply Hwb; apply Hwl; lia). congruence.
Qed.

Lemma journal_roundtrip_witness :
  let j := mkJournal 1337 5 2 6 40 7 99 97 8 9 10 0 123456 in
  journal_decode (journal_encode j) = Some j.
Proof.
  intros j. apply (journal_roundtrip j). constructor; repeat constructor; by vm_compute.
Defined.

Record ChainJournalFits (j : HandoverChainJournal) : Prop := {
  cf_words : h_chain_id j <= U64_MAX /\ h_epoch j <= U64_MAX;
  cf_digests : Forall digest_fits [h_program j; h_genesis_hash j; h_genesis_root j; h_committee_root j];
}.

Lemma chain_decode_encode j : ChainJournalFits j -> chain_decode (chain_encode j) = Some j.
Proof.
  destruct (chain_encode_words j) as [He Hw]. intros [Hu Hd]. unfold digest_fits in Hd.
  rewrite !Forall_cons in Hd. unfold chain_decode. rewrite He, concat_length by done.
  cbn [Nat.eqb length chain_words]. change (6 * 32 =? CHAIN_JOURNAL_LEN)%nat with true.
  cbn [negb]. cbv zeta. take_words Hw. rewrite !read_word by tauto. cbn.
  rewrite !from_be_be_bytes by tauto. by destruct j.
Qed.

Lemma chain_encode_decode j bytes :
  Forall (fun b => b < 256) bytes -> chain_decode bytes = Some j -> chain_encode j = bytes.
Proof.
  destruct (chain_encode_words j) as [He Hw]. intros HF H. rewrite He. unfold chain_decode in H.
  destruct (Nat.eqb_spec (length bytes) CHAIN_JOURNAL_LEN) as [Hl|]; [|done]. cbn [negb] in H.
  cbv zeta in H. unfold CHAIN_JOURNAL_LEN in Hl.
  assert (forall i, (i < 6)%nat -> length (word bytes i) = 32%nat) as Hwl
    by (intros i Hi; apply (word_length bytes 6); [lia|done]).
  assert (forall i, Forall (fun b => b < 256) (word bytes i)) as Hwb by (intros i; by apply word_bytes).
  repeat (apply bind_Some in H as (?v & ?E & H)).
  injection H as <-. transitivity (concat (word bytes <$> seq 0 6)); [|apply concat_words; lia].
  f_equal.
  repeat match goal with
  | E : read_u64 (word bytes ?i) = Some ?v |- _ =>
      apply (word_read _ _ (Hwl i ltac:(lia)) (Hwb i)) in E as [E _]
  end.
  unfold chain_words. cbn [seq fmap list_fmap h_program h_chain_id h_genesis_hash h_genesis_root
    h_epoch h_committee_root].
  rewrite !digest_read by (try apply Hwb; apply Hwl; lia). congruence.
Qed.

(** The journal of the handover chain round trips in the same way. *)
Theorem chain_journal_roundtrip j :
  (ChainJournalFits j -> chain_decode (chain_encode j) = Some j) /\
  (forall bytes, Forall (fun b => b < 256) bytes -> chain_decode bytes = Some j ->
     chain_encode j = bytes).
Proof. split; [apply chain_decode_encode|]. intros bytes. apply chain_encode_decode. Qed.

Lemma chain_journal_roundtrip_witness :
  let j := mkChainJournal 1 1337 2 3 175200 4 in chain_decode (chain_encode j) = Some j.
Proof.
  intros j. apply (chain_journal_roundtrip j).
  constructor; [split; by vm_compute|repeat constructor; by vm_compute].
Defined.

(** ** The root binds the committee *)

Section root.
Context (fingerprint : ValidatorPublicKey -> Digest).
(** The keys in play, on which the fingerprint has no collision. *)
Context (key_ok : ValidatorPublicKey -> Prop).
Context (Hfp : forall k k', key_ok k -> key_ok k' ->
           be_bytes 32 (fingerprint k) = be_bytes 32 (fingerprint k') -> k = k').

(** A member whose fields are in the range of their types. *)
Record MemberFits (m : Member) : Prop := {
  mf_address : m_address m < 256 ^ N.of_nat 32;
  mf_key : key_ok (m_public_key m);
  mf_stake : m_stake m < 256 ^ N.of_nat 16;
  mf_seats : m_seats m < 256 ^ N.of_nat 8;
}.

Lemma member_bytes_length m : length (member_bytes fingerprint m) = 88%nat.
Proof. unfold member_bytes. by rewrite !length_app, !be_bytes_length. Qed.

Lemma member_bytes_inj m m' :
  MemberFits m -> MemberFits m' ->
  member_bytes fingerprint m = member_bytes fingerprint m' -> m = m'.
Proof.
  intros [A K S T] [A' K' S' T'] H. unfold member_bytes in H.
  apply app_inj_1 in H as [H1 H]; [|by rewrite !be_bytes_length].
  apply app_inj_1 in H as [H2 H]; [|by rewrite !be_bytes_length].
  apply app_inj_1 in H as [H3 H4]; [|by rewrite !be_bytes_length].
  apply be_bytes_inj in H1; [|done..]. apply be_bytes_inj in H3; [|done..].
  apply be_bytes_inj in H4; [|done..]. apply Hfp in H2; [|done..].
  destruct m, m'. cbn in *. congruence.
Qed.

Lemma members_bytes_inj ms ms' :
  Forall MemberFits ms -> Forall MemberFits ms' -> length ms = length ms' ->
  flat_map (member_bytes fingerprint) ms = flat_map (member_bytes fingerprint) ms' -> ms = ms'.
Proof.
  intros HF. revert ms'. induction HF as [|m ms Hm HF IH]; intros [|m' ms'] HF' Hl H; try done.
  apply Forall_cons in HF' as [Hm' HF']. cbn [flat_map] in H.
  apply app_inj_1 in H as [H1 H2]; [|by rewrite !member_bytes_length].
  apply member_bytes_inj in H1 as ->; [|done..]. f_equal. apply IH; [done| |done]. by injection Hl.
Qed.

Record CommitteeFits (epoch : N) (ms : list Member) : Prop := {
  cmf_epoch : epoch <= U64_MAX;
  cmf_size : N.of_nat (length ms) <= U64_MAX;
  cmf_members : Forall MemberFits ms;
}.

Lemma root_bytes_inj c c' :
  CommitteeFits (c_epoch c) (c_members c) -> CommitteeFits (c_epoch c') (c_members c') ->
  root_bytes fingerprint c = root_bytes fingerprint c' ->
  c_epoch c = c_epoch c' /\ c_members c = c_members c'.
Proof.
  intros [E S F] [E' S' F'] H. unfold root_bytes in H. apply app_inv_head in H.
  assert (forall x, x <= U64_MAX -> x < 256 ^ N.of_nat 8) as H64
    by (intros x Hx; change (256 ^ N.of_nat 8) with (U64_MAX + 1); lia).
  apply app_inj_1 in H as [H1 H]; [|by rewrite !be_bytes_length].
  apply app_inj_1 in H as [H2 H]; [|by rewrite !be_bytes_length].
  apply be_bytes_inj in H1; [|auto..]. apply be_bytes_inj in H2; [|auto..].
  split; [done|]. apply members_bytes_inj; [done..|lia|done].
Qed.
End root.

Lemma lift_ok {E F A} (f : E -> F) (r : result E A) a : lift_err f r = Ok a <-> r = Ok a.
Proof. destruct r; cbn; split; congruence. Qed.

(** ** What an honest committee's certificate means to a light client *)

Section light_client.
Context (fingerprint : ValidatorPublicKey -> Digest).
Context (key_verify : ValidatorPublicKey -> Domain -> list N -> CompositeSignature -> bool).
Context (session_digest : SessionCertificate -> Digest).
Context (cp_digest : Checkpoint -> Digest).
Context (blake3 : list N -> Digest).
Context (verify_receipt : Digest -> list N -> option (list N)).
Context (an : ChainAnchor).
Context (key_ok : ValidatorPublicKey -> Prop).

(** The committees the chain really has, the faulty members of each, and what
    honest members signed. *)
Context (M : N -> list Member) (C : N -> Committee).
Context (faulty : N -> ValidatorIndex -> bool) (signed : N -> ValidatorIndex -> Checkpoint -> Prop).

Abbreviation root := (committee_root fingerprint blake3) (only parsing).

Record HonestWorld : Prop := {
  (** no second preimage of a committee's root, no two keys of one fingerprint *)
  w_blake3 : forall e x, e <= U64_MAX -> blake3 x = root (C e) -> x = root_bytes fingerprint (C e);
  w_fingerprint : forall k k', key_ok k -> key_ok k' ->
    be_bytes 32 (fingerprint k) = be_bytes 32 (fingerprint k') -> k = k';
  (** every epoch has a committee, fewer than a third of whose seats are faulty *)
  w_committee : forall e, from_members fingerprint e (M e) = Ok (C e);
  w_fits : forall e, e <= U64_MAX -> CommitteeFits key_ok e (M e);
  w_faulty : forall e, weight (C e) (faulty e) <= max_faulty (C e);
  (** an honest member's vote signature is made by that member *)
  w_unforgeable : forall e i m s cp sig,
    member (C e) i = Some m -> faulty e i = false ->
    certifies fingerprint key_verify s (m_public_key m) (an_chain_id an) (an_genesis_hash an) e = true ->
    key_verify (sc_session_key s) CHECKPOINT_VOTE_DOMAIN (be_bytes 32 (cp_digest cp)) sig = true ->
    signed e i cp;
  (** an honest member signs one checkpoint per index, and ends its epoch only
      with the root of the committee that follows *)
  w_once : forall e i cp cp', faulty e i = false -> signed e i cp -> signed e i cp' ->
    cp_epoch cp = e -> cp_epoch cp' = e -> cp_index cp = cp_index cp' -> cp = cp';
  w_next : forall e i cp r, faulty e i = false -> signed e i cp -> cp_epoch cp = e ->
    cp_next_committee_root cp = Some r -> r = root (C (wadd64 e 1));
  w_anchor : an_genesis_root an = root (C 0);
}.

(** A checkpoint of epoch [e] behind which a quorum of its committee stands. *)
Definition Final (e : N) (cp : Checkpoint) : Prop :=
  cp_epoch cp = e /\ exists signers, quorum (C e) <= signer_weight (C e) signers /\
    forall s, s ∈ signers -> faulty e s = false -> signed e s cp.

Context (W : HonestWorld).

Lemma true_wf e : CommitteeWf (C e) /\ c_epoch (C e) = e /\ c_members (C e) = M e.
Proof.
  destruct (from_members_cases fingerprint e (M e)) as [H _].
  rewrite (w_committee W e) in H. naive_solver.
Qed.

(** A committee with the root of the true one is the true one. *)
Lemma root_true e e' ms c :
  e <= U64_MAX -> CommitteeFits key_ok e' ms -> from_members fingerprint e' ms = Ok c ->
  root c = root (C e) -> e' = e /\ c = C e.
Proof.
  intros He Hf Hc Hr. destruct (from_members_cases fingerprint e' ms) as [Hm _].
  rewrite Hc in Hm. destruct Hm as (E1 & E2 & _). destruct (true_wf e) as (_ & F1 & F2).
  apply (w_blake3 W e) in Hr; [|done].
  apply (root_bytes_inj fingerprint key_ok (w_fingerprint W)) in Hr as [G1 G2].
  - rewrite E1, F1 in G1. rewrite E2, F2 in G2. subst e' ms. split; [done|].
    rewrite (w_committee W e) in Hc. by injection Hc.
  - by rewrite E1, E2.
  - rewrite F1, F2. by apply (w_fits W).
Qed.

Lemma final_honest e cp :
  Final e cp -> exists s, faulty e s = false /\ signed e s cp.
Proof.
  intros (_ & signers & Hq & Hs). destruct (true_wf e) as (wf & _).
  pose proof (faulty_bound _ wf) as Hb. pose proof (w_faulty W e) as Hf.
  destruct (wsum_honest_member (seats (C e)) (committee_size (C e))
    (fun i => bool_decide (i ∈ signers)) (faulty e) (max_faulty (C e)) Hf) as (s & _ & Hin & Hh).
  { unfold signer_weight, weight, quorum, total_seats in *. lia. }
  exists s. split; [done|]. apply Hs; [|done]. by propify.
Qed.

(** Two final checkpoints of one epoch and index are one. *)
Lemma final_agree e cp cp' :
  Final e cp -> Final e cp' -> cp_index cp = cp_index cp' -> cp = cp'.
Proof.
  intros (E & S & Hq & Hs) (E' & S' & Hq' & Hs') Hi. destruct (true_wf e) as (wf & _).
  destruct (quorums_honest (C e) (faulty e) _ _ wf (w_faulty W e) Hq Hq') as (s & _ & H1 & H2 & Hh).
  propify. by apply (w_once W e s); auto.
Qed.

Abbreviation verify_step := (step_verify fingerprint key_verify session_digest cp_digest blake3) (only parsing).

Lemma admit_each_ok c b ss b' :
  BookOk fingerprint key_verify session_digest c b ->
  admit_each fingerprint key_verify session_digest c b ss = Ok b' ->
  BookOk fingerprint key_verify session_digest c b' /\ bk_chain_id b' = bk_chain_id b /\
  bk_genesis_hash b' = bk_genesis_hash b /\ bk_epoch b' = bk_epoch b.
Proof.
  revert b. induction ss as [|x ss IH]; intros b Hb; cbn [admit_each].
  { intros [= <-]. done. }
  rewrite rbind_ok. intros ([b1 d] & E & H). cbn [fst] in H.
  apply admit_ok in E as (Hb1 & <- & <- & <- & _); [|done]. by apply IH.
Qed.

(** What a verified step checked. *)
Lemma step_verify_ok st j :
  verify_step st = Ok j ->
  let cp := ct_checkpoint (fs_certificate st) in
  exists c book, from_members fingerprint (cp_epoch cp) (fs_members st) = Ok c /\
    BookOk fingerprint key_verify session_digest c book /\
    bk_chain_id book = fs_chain_id st /\ bk_genesis_hash book = fs_genesis_hash st /\
    bk_epoch book = cp_epoch cp /\
    CertificateOk key_verify cp_digest (fs_certificate st)
      (mkContext (fs_chain_id st) (fs_genesis_hash st) c book) /\
    j_epoch j = cp_epoch cp /\ j_committee_root j = root c /\
    j_chain_id j = fs_chain_id st /\ j_genesis_hash j = fs_genesis_hash st /\
    j_next_committee_root j = default 0 (cp_next_committee_root cp).
Proof.
  intros H cp. unfold step_verify, committee_of in H. fold cp in H.
  apply rbind_ok in H as (c & Hc & H). rewrite lift_ok in Hc.
  apply rbind_ok in H as (book & Hb & H). rewrite lift_ok in Hb.
  apply rbind_ok in H as ([] & Hct & [= <-]). rewrite lift_ok in Hct.
  destruct (from_members_cases fingerprint (cp_epoch cp) (fs_members st)) as [Hm _].
  rewrite Hc in Hm. destruct Hm as (_ & _ & wf).
  apply admit_each_ok in Hb as (Hbook & E1 & E2 & E3); [|apply book_new_ok].
  apply certificate_verify_iff in Hct; [|exact wf]. exists c, book. cbn.
  split_and!; try done; [apply (co_chain _ _ _ _ Hct)|apply (co_genesis _ _ _ _ Hct)].
Qed.

(** A step under the true committee's root certifies a final checkpoint. *)
Lemma step_final st j e :
  fs_chain_id st = an_chain_id an -> fs_genesis_hash st = an_genesis_hash an ->
  e <= U64_MAX -> CommitteeFits key_ok (cp_epoch (ct_checkpoint (fs_certificate st))) (fs_members st) ->
  verify_step st = Ok j -> j_committee_root j = root (C e) ->
  Final e (ct_checkpoint (fs_certificate st)) /\ j_epoch j = e /\
  (j_next_committee_root j <> 0 -> j_next_committee_root j = root (C (wadd64 e 1))).
Proof.
  intros Hch Hg He Hfit H Hr. set (cp := ct_checkpoint (fs_certificate st)) in *.
  destruct (step_verify_ok st j H) as
    (c & book & Hc & Hbook & B1 & B2 & B3 & Hct & J1 & J2 & _ & _ & J5). fold cp in Hc, B3, J1, J5.
  rewrite J2 in Hr. destruct (root_true e _ _ c He Hfit Hc Hr) as [Ee ->].
  assert (Final e cp) as Hfin.
  { split; [done|]. exists (ct_signers (fs_certificate st)). split; [apply (co_quorum _ _ _ _ Hct)|].
    intros s Hs Hh. apply list_elem_of_lookup in Hs as [k Hk].
    pose proof (lookup_lt_Some _ _ _ Hk) as Hlt.
    destruct (lookup_lt_is_Some_2 (ct_sessions (fs_certificate st)) k) as [d Hd];
      [rewrite <-(co_sess _ _ _ _ Hct); lia|].
    destruct (lookup_lt_is_Some_2 (ct_signatures (fs_certificate st)) k) as [sg Hsg];
      [rewrite <-(co_sigs _ _ _ _ Hct); lia|].
    pose proof (co_signed _ _ _ _ Hct) as HF. rewrite Forall_lookup in HF.
    destruct (HF k (s, d, sg)) as (cert & Hget & Hver).
    { by rewrite !lookup_zip_with, Hk, Hd, Hsg. }
    cbn [fst snd] in Hget, Hver.
    destruct (bo_entry _ _ _ _ _ Hbook d s cert Hget) as (_ & m & Hm & Hcert).
    rewrite B1, B2, B3, Hch, Hg, Ee in Hcert.
    by apply (w_unforgeable W e s m cert cp sg). }
  split_and!; [done|congruence|]. rewrite J5. intros Hne.
  destruct (cp_next_committee_root cp) as [r|] eqn:En; [|done]. cbn.
  destruct (final_honest e cp Hfin) as (s & Hh & Hs). by apply (w_next W e s cp).
Qed.

(** ** The chain of handovers *)

Definition StepFits (st : FinalityStep) : Prop :=
  CommitteeFits key_ok (cp_epoch (ct_checkpoint (fs_certificate st))) (fs_members st).

Abbreviation verify_link := (link_verify fingerprint key_verify session_digest cp_digest blake3) (only parsing).

(** What a receipt for program [P] stands for: a run of the program, which
    checked one link and, inside the zkVM, a receipt of the previous one for
    the program the link names. *)
Inductive Proven : Digest -> HandoverChainJournal -> Prop :=
| proven_first P l j :
    verify_link l = Ok j -> hl_prev l = None -> StepFits (hl_step l) -> Proven P j
| proven_next P l j p :
    verify_link l = Ok j -> hl_prev l = Some p -> StepFits (hl_step l) ->
    Proven (hl_program l) p -> Proven P j.

Lemma link_verify_ok l j :
  verify_link l = Ok j ->
  exists i, verify_step (hl_step l) = Ok i /\
    h_program j = hl_program l /\ h_chain_id j = j_chain_id i /\
    h_genesis_hash j = j_genesis_hash i /\ h_genesis_root j = hl_genesis_root l /\
    h_epoch j = wadd64 (j_epoch i) 1 /\ h_committee_root j = j_next_committee_root i /\
    j_next_committee_root i <> 0 /\
    match hl_prev l with
    | None => j_epoch i = 0 /\ j_committee_root i = hl_genesis_root l
    | Some p => h_program p = hl_program l /\ h_chain_id p = j_chain_id i /\
        h_genesis_hash p = j_genesis_hash i /\ h_genesis_root p = hl_genesis_root l /\
        h_epoch p = j_epoch i /\ h_committee_root p = j_committee_root i
    end.
Proof.
  unfold link_verify. rewrite rbind_ok. intros (i & Hi & H). exists i. split; [done|].
  apply guard_ok in H as [_ H]. apply rbind_ok in H as ([] & Hp & H).
  apply guard_ok in H as [Hn [= <-]]. propify. cbn. split_and!; try done.
  destruct (hl_prev l) as [p|].
  - rewrite !guard_ok in Hp. destruct Hp as (H1 & H2 & H3).
    destruct ((h_epoch p =? j_epoch i) && _) eqn:E; [|done]. by propify.
  - destruct ((j_epoch i =? 0) && _) eqn:E; [|done]. by propify.
Qed.

Lemma wadd64_fits x y : wadd64 x y <= U64_MAX.
Proof. unfold wadd64, U64_MAX. pose proof (N.mod_lt (x + y) (2 ^ 64) ltac:(done)). lia. Qed.

Lemma proven_sound P j :
  Proven P j -> h_program j = P ->
  h_chain_id j = an_chain_id an -> h_genesis_hash j = an_genesis_hash an ->
  h_genesis_root j = an_genesis_root an ->
  h_epoch j <= U64_MAX /\ h_committee_root j = root (C (h_epoch j)).
Proof.
  induction 1 as [P l j Hl Hprev Hfit|P l j p Hl Hprev Hfit Hp IH]; intros HP H1 H2 H3;
    destruct (link_verify_ok l j Hl) as (i & Hi & L1 & L2 & L3 & L4 & L5 & L6 & L7 & Lp);
    destruct (step_verify_ok (hl_step l) i Hi) as
      (c & book & _ & _ & _ & _ & _ & _ & _ & _ & S1 & S2 & _);
    rewrite Hprev in Lp; rewrite L5, L6; (split; [apply wadd64_fits|]).
  - destruct Lp as [E0 Er].
    destruct (step_final (hl_step l) i 0) as (_ & _ & Hn); try done; try congruence.
    + rewrite Er, <-L4, H3. apply (w_anchor W).
    + rewrite E0. auto.
  - destruct Lp as (P1 & P2 & P3 & P4 & P5 & P6).
    destruct IH as [IH1 IH2]; try congruence.
    destruct (step_final (hl_step l) i (h_epoch p)) as (_ & _ & Hn); try done; try congruence.
    rewrite <-P5. auto.
Qed.

(** ** The proof of a checkpoint *)

Definition MembersFit (ms : list Member) : Prop :=
  N.of_nat (length ms) <= U64_MAX /\ Forall (MemberFits key_ok) ms.

(** The fields of a proof are in the range of their types. *)
Record ProofFits (pf : ChainedCheckpointProof) : Prop := {
  pff_members : MembersFit (pf_members pf);
  pff_handovers : Forall (fun h => MembersFit (eh_next_members h) /\
    cp_epoch (ct_checkpoint (eh_certificate h)) <= U64_MAX) (pf_handovers pf);
  pff_certificate : cp_epoch (ct_checkpoint (pf_certificate pf)) <= U64_MAX;
}.

(** A receipt the verifier accepts stands for a run of the program. *)
Context (Hreceipt : forall chain bytes j,
  verify_receipt (an_program an) chain = Some bytes -> chain_decode bytes = Some j ->
  Proven (an_program an) j).

Lemma reached_true chain epoch r :
  reached verify_receipt an chain = Ok (epoch, r) -> epoch <= U64_MAX /\ r = root (C epoch).
Proof.
  destruct chain as [|b chain]; cbn [reached].
  { intros [= <- <-]. split; [done|]. apply (w_anchor W). }
  rewrite rbind_ok. intros (bytes & Hb & H). unfold ok_or in Hb.
  destruct (verify_receipt _ _) as [bs|] eqn:Hv; [|done]. injection Hb as ->.
  apply rbind_ok in H as (j & Hj & H). unfold ok_or in Hj.
  destruct (chain_decode bytes) as [j'|] eqn:Hd; [|done]. injection Hj as ->.
  rewrite !guard_ok in H. destruct H as (H1 & H2 & [= <- <-]). propify.
  by apply (proven_sound (an_program an)); [eapply Hreceipt|..].
Qed.

Abbreviation walk :=
  (walk_handovers fingerprint key_verify session_digest cp_digest blake3 an) (only parsing).

Lemma step_under epoch ms ct ss j :
  epoch <= U64_MAX -> MembersFit ms -> cp_epoch (ct_checkpoint ct) <= U64_MAX ->
  from_members fingerprint epoch ms = Ok (C epoch) ->
  anchor_step fingerprint key_verify session_digest cp_digest blake3 an ms ct ss = Ok j ->
  j_epoch j = epoch ->
  Final epoch (ct_checkpoint ct) /\
  (j_next_committee_root j <> 0 -> j_next_committee_root j = root (C (wadd64 epoch 1))).
Proof.
  intros He [Hl HF] Hcp Hc Hj Hje. unfold anchor_step in Hj.
  destruct (step_verify_ok _ j Hj) as (c & book & Hc' & _ & _ & _ & _ & _ & J1 & J2 & _).
  cbn in Hc', J1. rewrite <-J1, Hje, Hc in Hc'. injection Hc' as <-.
  destruct (step_final (mkStep (an_chain_id an) (an_genesis_hash an) ms ss ct) j epoch
    eq_refl eq_refl He) as (H1 & _ & H2); [by constructor|done|done|].
  split; [exact H1|exact H2].
Qed.

Lemma walk_true epoch ms hs epoch' ms' :
  epoch <= U64_MAX -> MembersFit ms ->
  Forall (fun h => MembersFit (eh_next_members h) /\
    cp_epoch (ct_checkpoint (eh_certificate h)) <= U64_MAX) hs ->
  from_members fingerprint epoch ms = Ok (C epoch) ->
  walk epoch ms hs = Ok (epoch', ms') ->
  epoch' <= U64_MAX /\ MembersFit ms' /\ from_members fingerprint epoch' ms' = Ok (C epoch').
Proof.
  revert epoch ms. induction hs as [|h hs IH]; intros epoch ms He Hm HF Hc; cbn [walk_handovers].
  { by intros [= <- <-]. }
  apply Forall_cons in HF as [[Hn Hcp] HF]. rewrite rbind_ok. intros (j & Hj & H).
  apply guard_ok in H as [Hg H]. propify. unfold committee_of in H.
  apply rbind_ok in H as (next & Hnext & H). rewrite lift_ok in Hnext.
  apply guard_ok in H as [Hr H]. propify.
  destruct (step_under epoch ms _ _ j He Hm Hcp Hc Hj) as [_ Hroot]; [done|].
  rewrite Hroot in Hr by done. pose proof (wadd64_fits epoch 1) as Hfit.
  destruct (root_true (wadd64 epoch 1) (wadd64 epoch 1) (eh_next_members h) next Hfit) as [_ ->];
    [by destruct Hn; constructor|done|done|].
  by apply (IH (wadd64 epoch 1) (eh_next_members h)).
Qed.

Lemma proof_final pf cp :
  ProofFits pf ->
  proof_verify fingerprint key_verify session_digest cp_digest blake3 verify_receipt pf an = Ok cp ->
  Final (cp_epoch cp) cp.
Proof.
  intros [Hm Hh Hcp] H. unfold proof_verify in H.
  apply rbind_ok in H as ([epoch r] & Hr & H). apply reached_true in Hr as [He ->].
  unfold committee_of in H. apply rbind_ok in H as (c & Hc & H). rewrite lift_ok in Hc.
  apply guard_ok in H as [Hroot H]. propify.
  destruct (root_true epoch epoch (pf_members pf) c He) as [_ ->];
    [by destruct Hm; constructor|done|done|].
  apply rbind_ok in H as ([epoch' ms'] & Hw & H).
  destruct (walk_true epoch (pf_members pf) (pf_handovers pf) epoch' ms') as (He' & Hm' & Hc'); try done.
  apply rbind_ok in H as (j & Hj & H). apply guard_ok in H as [Hje [= <-]]. propify.
  destruct (step_under epoch' ms' _ _ j He' Hm' Hcp Hc' Hj Hje) as [Hf _].
  destruct Hf as [E Hs]. rewrite E. by split.
Qed.

(** C11: a light client that trusts only the genesis committee's root accepts a
    checkpoint proof (a handover chain proven in the zkVM, the handovers since,
    and a certificate) only for a checkpoint a quorum of that epoch's real
    committee stands behind, every honest one of them having signed it. *)
Theorem light_client_sound pf cp :
  ProofFits pf ->
  proof_verify fingerprint key_verify session_digest cp_digest blake3 verify_receipt pf an = Ok cp ->
  Final (cp_epoch cp) cp.
Proof. apply proof_final. Qed.

(** C10: two light clients with the same anchor never accept different
    checkpoints for one epoch and index, whatever proofs they are shown. *)
Theorem light_client_agreement pf pf' cp cp' :
  ProofFits pf -> ProofFits pf' ->
  proof_verify fingerprint key_verify session_digest cp_digest blake3 verify_receipt pf an = Ok cp ->
  proof_verify fingerprint key_verify session_digest cp_digest blake3 verify_receipt pf' an = Ok cp' ->
  cp_epoch cp = cp_epoch cp' -> cp_index cp = cp_index cp' -> cp = cp'.
Proof.
  intros Hf Hf' H H' He Hi. apply proof_final in H, H'; [|done..]. rewrite He in H.
  by apply (final_agree (cp_epoch cp')).
Qed.
End light_client.

(** ** A world in which the hypotheses hold

    Four members in every epoch, all honest, that signed two checkpoints: one
    ending epoch 0 and the next in epoch 1. *)

Definition demo_members : list Member := c_members sample_committee.
Definition demo_committee (e : N) : Committee :=
  {| c_epoch := e; c_members := demo_members; c_total_seats := 4;
     c_by_address := rebuild_index demo_members |}.
Definition demo_blake3 (l : list N) : Digest :=
  let e := from_be (take 8 (drop 26 l)) in
  if bool_decide (l = root_bytes key_fp (demo_committee e)) then e + 1 else 0.
Definition demo_end : Checkpoint := mkCheckpoint 1 7 0 5 0 1 4 0 2 21 0 (Some 2) 9 0 0.
Definition demo_cp : Checkpoint := mkCheckpoint 1 7 1 6 0 5 8 0 6 22 0 None 19 0 0.
Definition demo_cp_digest (cp : Checkpoint) : Digest :=
  if decide (cp = demo_end) then 1 else if decide (cp = demo_cp) then 2 else 3.
Definition demo_verify (k : ValidatorPublicKey) (dm : Domain) (m : list N) (s : CompositeSignature)
  : bool :=
  match dm with
  | SESSION_CERTIFICATE_DOMAIN => true
  | CHECKPOINT_VOTE_DOMAIN => bool_decide (m = be_bytes 32 1) || bool_decide (m = be_bytes 32 2)
  end.
Definition demo_key_ok (k : ValidatorPublicKey) : Prop :=
  exists i, i < 256 /\ k = {| ml_dsa := [i]; p256 := [] |}.
Definition demo_anchor : ChainAnchor := mkAnchor 1 7 1 99.
Definition demo_journal : HandoverChainJournal := mkChainJournal 99 1 7 1 1 2.
Definition demo_receipt (program : Digest) (chain : list N) : option (list N) :=
  if bool_decide (chain = [7]) then Some (chain_encode demo_journal) else None.
Definition demo_session (e i : N) : SessionCertificate :=
  mkSession 1 7 e i {| ml_dsa := [100 + i]; p256 := [] |} (mkSig [] []).
Definition demo_sessions (e : N) : list SessionCertificate := demo_session e <$> [0; 1; 2].
Definition demo_certificate (cp : Checkpoint) : Certificate :=
  mkCertificate cp [0; 1; 2]%nat [1000; 1001; 1002] (replicate 3 (mkSig [] [])).
Definition demo_link : HandoverLink :=
  mkLink 99 1 None (mkStep 1 7 demo_members (demo_sessions 0) (demo_certificate demo_end)).
Definition demo_proof : ChainedCheckpointProof :=
  mkProof [7] demo_members [] (demo_certificate demo_cp) (demo_sessions 1).
Definition demo_walked_proof : ChainedCheckpointProof :=
  mkProof [] demo_members
    [mkHandover (demo_certificate demo_end) (demo_sessions 0) demo_members]
    (demo_certificate demo_cp) (demo_sessions 1).

Lemma demo_root_epoch e :
  e <= U64_MAX -> from_be (take 8 (drop 26 (root_bytes key_fp (demo_committee e)))) = e.
Proof.
  intros He. unfold root_bytes. rewrite drop_app_length' by done.
  rewrite take_app_length' by (by rewrite be_bytes_length). apply from_be_be_bytes.
  change (256 ^ N.of_nat 8) with (U64_MAX + 1). cbn. lia.
Qed.

Lemma demo_root e : e <= U64_MAX -> committee_root key_fp demo_blake3 (demo_committee e) = e + 1.
Proof.
  intros He. unfold committee_root, demo_blake3. rewrite demo_root_epoch by done.
  by rewrite bool_decide_eq_true_2.
Qed.

Lemma demo_key_fp_inj k k' :
  demo_key_ok k -> demo_key_ok k' -> be_bytes 32 (key_fp k) = be_bytes 32 (key_fp k') -> k = k'.
Proof.
  intros (i & Hi & ->) (i' & Hi' & ->) H. cbn in H.
  assert (256 <= 256 ^ N.of_nat 32) by (by vm_compute).
  apply be_bytes_inj in H as ->; [done|lia|lia].
Qed.

Lemma demo_members_fit : MembersFit demo_key_ok demo_members.
Proof.
  split; [by vm_compute|]. repeat constructor; try (by vm_compute); eexists; (split; [|reflexivity]); by vm_compute.
Qed.

Lemma demo_signed_digest cp :
  demo_verify (sc_session_key (demo_session 0 0)) CHECKPOINT_VOTE_DOMAIN
    (be_bytes 32 (demo_cp_digest cp)) (mkSig [] []) = true -> cp = demo_end \/ cp = demo_cp.
Proof.
  unfold demo_verify, demo_cp_digest. case_decide; [by left|]. case_decide; [by right|].
  intros H1. exfalso. apply orb_true_iff in H1 as [H1|H1]; propify;
    apply be_bytes_inj in H1; done.
Qed.

Lemma demo_world :
  HonestWorld key_fp demo_verify demo_cp_digest demo_blake3 demo_anchor demo_key_ok
    (fun _ => demo_members) demo_committee (fun _ _ => false)
    (fun _ _ cp => cp = demo_end \/ cp = demo_cp).
Proof.
  constructor.
  - intros e x He Hx. rewrite demo_root in Hx by done. unfold demo_blake3 in Hx.
    case_bool_decide as Hb; [|lia]. rewrite Hb. f_equal. f_equal. lia.
  - apply demo_key_fp_inj.
  - intros e. reflexivity.
  - intros e He. destruct demo_members_fit. by constructor.
  - intros e. unfold weight. rewrite wsum_false. lia.
  - intros e i m s cp sig _ _ _ H. by apply demo_signed_digest.
  - intros e i cp cp' _ [->| ->] [->| ->] E E' Hi; try done; cbn in *; lia.
  - intros e i cp r _ [->| ->] E Hr; [|done]. cbn in E, Hr. subst e. injection Hr as <-.
    by rewrite demo_root.
  - by rewrite demo_root.
Qed.

Lemma demo_receipt_sound chain bytes j :
  demo_receipt 99 chain = Some bytes -> chain_decode bytes = Some j ->
  Proven key_fp demo_verify sample_session_digest demo_cp_digest demo_blake3 demo_key_ok 99 j.
Proof.
  unfold demo_receipt. case_bool_decide; [|done]. intros [= <-].
  rewrite chain_decode_encode.
  2:{ constructor; [split; by vm_compute|repeat constructor; by vm_compute]. }
  intros [= <-]. apply (proven_first _ _ _ _ _ _ 99 demo_link); [|done|].
  - vm_compute. reflexivity.
  - destruct demo_members_fit. by constructor.
Qed.

Lemma demo_epochs_fit : cp_epoch demo_end <= U64_MAX /\ cp_epoch demo_cp <= U64_MAX.
Proof. split; by vm_compute. Qed.

Lemma demo_proofs_fit :
  ProofFits demo_key_ok demo_proof /\ ProofFits demo_key_ok demo_walked_proof.
Proof.
  pose proof demo_members_fit as Hm. destruct demo_epochs_fit as [He Hc].
  split; (split; [exact Hm| |exact Hc]); [apply Forall_nil_2|].
  apply Forall_cons_2; [|apply Forall_nil_2]. split; [exact Hm|exact He].
Qed.

Lemma light_client_sound_witness :
  Final demo_committee (fun _ _ => false) (fun _ _ cp => cp = demo_end \/ cp = demo_cp) 1 demo_cp.
Proof.
  apply (light_client_sound _ _ _ _ _ _ _ _ _ _ _ _ demo_world demo_receipt_sound demo_proof
    demo_cp (proj1 demo_proofs_fit)).
  vm_compute. reflexivity.
Defined.

Lemma light_client_agreement_witness :
  demo_proof <> demo_walked_proof /\ demo_cp = demo_cp.
Proof.
  split; [discriminate|].
  apply (light_client_agreement _ _ _ _ _ _ _ _ _ _ _ _ demo_world demo_receipt_sound demo_proof
    demo_walked_proof demo_cp demo_cp (proj1 demo_proofs_fit) (proj2 demo_proofs_fit)).
  - vm_compute. reflexivity.
  - vm_compute. reflexivity.
  - reflexivity.
  - reflexivity.
Defined.
