(* ===== verification/Merkle.v ===== *)
(** The Merkle tree of the chain's commitments ([tenzro-types/src/merkle.rs]).

    BLAKE3 with its two domains is given by two functions, the hash of a leaf
    and the hash of a pair. The loops of the source run level by level; they
    are shown to compute the hash of a binary tree over the leaves. *)

From stdpp Require Import prelude list.
From Stdlib Require Import NArith ZArith Lia.
From S2P Require Import Prelude.

Abbreviation Node := N (only parsing).

Record PathStep := mkPathStep {
  sibling : Node;
  left : bool;
}.

Section merkle.
Context (empty_root : Node) (hash_leaf : Node -> Node) (hash_pair : Node -> Node -> Node).

(** [level.chunks(2)], a pair hashed and a single node promoted. *)
Fixpoint next_level (level : list Node) : list Node :=
  match level with
  | a :: b :: level => hash_pair a b :: next_level level
  | _ => level
  end.

(** [while level.len() > 1]; a level of [n] nodes is left after [n] rounds. *)
Fixpoint climb (fuel : nat) (level : list Node) : option Node :=
  match level with
  | [] => None
  | [x] => Some x
  | _ => match fuel with
         | O => None
         | S fuel => climb fuel (next_level level)
         end
  end.

Definition merkle_root (leaves : list Node) : Node :=
  match leaves with
  | [] => empty_root
  | _ => default empty_root (climb (length leaves) (hash_leaf <$> leaves))
  end.

(** The step up from position [i] of a level, if it has a sibling. *)
Definition path_step (level : list Node) (i : nat) : list PathStep :=
  if (i mod 2 =? 1)%nat then [mkPathStep (default 0 (level !! (i - 1)%nat)) true]
  else if (i + 1 <? length level)%nat then [mkPathStep (default 0 (level !! (i + 1)%nat)) false]
  else [].

Fixpoint merkle_path_loop (fuel : nat) (level : list Node) (i : nat) (path : list PathStep)
  : option (list PathStep) :=
  if (length level <=? 1)%nat then Some path
  else match fuel with
       | O => None
       | S fuel => merkle_path_loop fuel (next_level level) (i / 2) (path ++ path_step level i)
       end.

Definition merkle_path (leaves : list Node) (index : nat) : option (list PathStep) :=
  if (length leaves <=? index)%nat then None
  else merkle_path_loop (length leaves) (hash_leaf <$> leaves) index [].

Definition take_step (acc : Node) (s : PathStep) : Node :=
  if left s then hash_pair (sibling s) acc else hash_pair acc (sibling s).

Definition root_from_path (leaf : Node) (path : list PathStep) : Node :=
  foldl take_step (hash_leaf leaf) path.

(** ** Levels *)

Lemma pair_ind {A} (P : list A -> Prop) :
  P [] -> (forall a, P [a]) -> (forall a b l, P l -> P (a :: b :: l)) -> forall l, P l.
Proof.
  intros H0 H1 H2 l. assert (P l /\ forall a, P (a :: l)) as [? _]; [|done].
  induction l as [|b l [IH1 IH2]]; [split; auto|]. split; [apply IH2|]. intros a. by apply H2.
Qed.

Lemma next_level_length level : length (next_level level) = ((length level + 1) / 2)%nat.
Proof.
  induction level as [|a|a b level IH] using pair_ind; [done|done|].
  cbn [next_level length]. rewrite IH.
  replace (S (S (length level)) + 1)%nat with (length level + 1 + 1 * 2)%nat by lia.
  rewrite Nat.div_add by done. lia.
Qed.

Lemma next_level_shrinks level :
  (2 <= length level)%nat -> (length (next_level level) < length level)%nat.
Proof.
  intros H. rewrite next_level_length. apply Nat.Div0.div_lt_upper_bound. lia.
Qed.

Lemma next_level_nonempty level : level <> [] -> next_level level <> [].
Proof. by destruct level as [|a [|b level]]. Qed.

(** The node above position [i]: what its step computes. *)
Lemma next_level_lookup level i x :
  level !! i = Some x ->
  next_level level !! (i / 2)%nat = Some (foldl take_step x (path_step level i)).
Proof.
  revert i. induction level as [|a|a b level IH] using pair_ind; intros i Hi; [done| |].
  - destruct i; [|done]. cbn in *. by injection Hi as ->.
  - destruct i as [|[|i]]; cbn [lookup list_lookup] in Hi.
    + injection Hi as ->. done.
    + injection Hi as ->. done.
    + replace (S (S i) / 2)%nat with (S (i / 2))
        by (replace (S (S i)) with (i + 1 * 2)%nat by lia; rewrite Nat.div_add by done; lia).
      change (next_level (a :: b :: level) !! S (i / 2)) with (next_level level !! (i / 2)%nat).
      rewrite (IH i Hi). f_equal.
      unfold path_step.
      replace (S (S i) mod 2)%nat with (i mod 2)%nat
        by (replace (S (S i)) with (i + 1 * 2)%nat by lia; by rewrite Nat.Div0.mod_add).
      destruct (Nat.eqb_spec (i mod 2) 1) as [Ho|He].
      * destruct i as [|i]; [done|]. cbn [Nat.sub]. by rewrite !Nat.sub_0_r.
      * reflexivity.
Qed.

Lemma climb_enough level fuel :
  level <> [] -> (length level <= fuel)%nat -> is_Some (climb fuel level).
Proof.
  revert level. induction fuel as [|fuel IH]; intros level Hne Hl.
  { destruct level; [done|cbn in Hl; lia]. }
  destruct level as [|a [|b level]]; [done|cbn; eauto|]. cbn [climb].
  apply IH; [done|]. pose proof (next_level_shrinks (a :: b :: level) ltac:(cbn; lia)). lia.
Qed.

Lemma merkle_path_loop_reaches fuel level i x path r :
  level !! i = Some x -> (length level <= fuel)%nat -> climb fuel level = Some r ->
  exists steps, merkle_path_loop fuel level i path = Some (path ++ steps) /\ foldl take_step x steps = r.
Proof.
  revert level i x path. induction fuel as [|fuel IH]; intros level i x path Hi Hl Hc.
  { destruct level; [done|]. cbn in Hl. lia. }
  destruct level as [|a [|b level]]; [done| |].
  - destruct i; [|done]. cbn in *. injection Hi as ->. injection Hc as ->.
    exists []. by rewrite app_nil_r.
  - cbn [merkle_path_loop]. change (length (a :: b :: level) <=? 1)%nat with false. cbv iota.
    pose proof (next_level_lookup _ i x Hi) as Hn. cbn [climb] in Hc.
    destruct (IH (next_level (a :: b :: level)) (i / 2)%nat _ (path ++ path_step (a :: b :: level) i)
      Hn) as (steps & Hs & Hr); [|done|].
    { pose proof (next_level_shrinks (a :: b :: level) ltac:(cbn; lia)). lia. }
    exists (path_step (a :: b :: level) i ++ steps). rewrite Hs, app_assoc.
    split; [done|]. by rewrite foldl_app.
Qed.

Lemma merkle_path_root leaves index leaf :
  leaves !! index = Some leaf ->
  exists path, merkle_path leaves index = Some path /\ root_from_path leaf path = merkle_root leaves.
Proof.
  intros Hi. pose proof (lookup_lt_Some _ _ _ Hi) as Hlt. unfold merkle_path.
  rewrite (proj2 (Nat.leb_gt _ _)) by lia.
  destruct leaves as [|x leaves]; [done|].
  destruct (climb_enough (hash_leaf <$> x :: leaves) (length (x :: leaves))) as [r Hr];
    [done|by rewrite length_fmap|].
  destruct (merkle_path_loop_reaches (length (x :: leaves)) (hash_leaf <$> x :: leaves) index
    (hash_leaf leaf) [] r) as (steps & Hs & Hf).
  - by rewrite list_lookup_fmap, Hi.
  - by rewrite length_fmap.
  - done.
  - exists steps. split; [exact Hs|]. unfold merkle_root. rewrite Hr. exact Hf.
Qed.
End merkle.

(** Every leaf proves into the root. For an index in range [merkle_path]
    returns a path along which the leaf reaches [merkle_root]; out of range it
    returns none. The level loops end within as many rounds as leaves. *)
Theorem merkle_path_complete empty_root hash_leaf hash_pair leaves index :
  match leaves !! index with
  | Some leaf => exists path, merkle_path hash_leaf hash_pair leaves index = Some path /\
      root_from_path hash_leaf hash_pair leaf path = merkle_root empty_root hash_leaf hash_pair leaves
  | None => merkle_path hash_leaf hash_pair leaves index = None
  end.
Proof.
  destruct (leaves !! index) as [leaf|] eqn:Hi; [by apply merkle_path_root|].
  apply lookup_ge_None in Hi. unfold merkle_path. by rewrite (proj2 (Nat.leb_le _ _)).
Qed.

(** ** The tree behind the levels *)

Inductive Tree :=
| Leaf (x : Node)
| Branch (l r : Tree).

Section tree.
Context (empty_root : Node) (hash_leaf : Node -> Node) (hash_pair : Node -> Node -> Node).

Fixpoint tree_hash (t : Tree) : Node :=
  match t with
  | Leaf x => hash_leaf x
  | Branch l r => hash_pair (tree_hash l) (tree_hash r)
  end.

Fixpoint fringe (t : Tree) : list Node :=
  match t with
  | Leaf x => [x]
  | Branch l r => fringe l ++ fringe r
  end.

(** [next_level] on trees, keeping the leaves in order. *)
Lemma next_level_trees (ts : list Tree) :
  exists ts', next_level hash_pair (tree_hash <$> ts) = tree_hash <$> ts' /\
    concat (fringe <$> ts') = concat (fringe <$> ts).
Proof.
  induction ts as [|t|t u ts IH] using pair_ind; [by exists []|by exists [t]|].
  destruct IH as (ts' & H1 & H2). exists (Branch t u :: ts'). cbn. rewrite H1, H2.
  by rewrite app_assoc.
Qed.

Lemma climb_tree fuel (ts : list Tree) r :
  climb hash_pair fuel (tree_hash <$> ts) = Some r ->
  exists t, r = tree_hash t /\ fringe t = concat (fringe <$> ts).
Proof.
  revert ts. induction fuel as [|fuel IH]; intros ts H; destruct ts as [|t [|u ts]]; try done.
  1,2: cbn in H |- *; injection H as <-; exists t; by rewrite app_nil_r.
  change (climb hash_pair fuel (next_level hash_pair (tree_hash <$> t :: u :: ts)) = Some r) in H.
  destruct (next_level_trees (t :: u :: ts)) as (ts' & H1 & H2). rewrite H1 in H.
  destruct (IH ts' H) as (v & -> & Hv). exists v. by rewrite Hv, H2.
Qed.

Lemma merkle_root_tree leaves :
  leaves <> [] ->
  exists t, merkle_root empty_root hash_leaf hash_pair leaves = tree_hash t /\ fringe t = leaves.
Proof.
  intros Hne. assert (hash_leaf <$> leaves = tree_hash <$> (Leaf <$> leaves)) as El
    by (by rewrite <-list_fmap_compose).
  destruct (climb_enough empty_root hash_leaf hash_pair (hash_leaf <$> leaves) (length leaves)) as [r Hr];
    [by destruct leaves|by rewrite length_fmap|].
  pose proof Hr as Ht. rewrite El in Ht. apply climb_tree in Ht as (t & -> & Hf).
  exists t. split; [unfold merkle_root; destruct leaves; [done|]; by rewrite Hr|].
  rewrite Hf, <-list_fmap_compose. clear. induction leaves as [|x l IH]; [done|]. cbn. by rewrite IH.
Qed.

(** No collisions within a domain, none between them. *)
Record CollisionFree : Prop := {
  cf_leaf : forall x y, hash_leaf x = hash_leaf y -> x = y;
  cf_pair : forall a b c d, hash_pair a b = hash_pair c d -> a = c /\ b = d;
  cf_domains : forall x a b, hash_leaf x <> hash_pair a b;
}.

Context (CF : CollisionFree).

Lemma tree_hash_inj t u : tree_hash t = tree_hash u -> t = u.
Proof.
  revert u. induction t as [x|l IHl r IHr]; intros [y|l' r']; cbn; intros H.
  - by rewrite (cf_leaf CF x y H).
  - by apply (cf_domains CF) in H.
  - symmetry in H. by apply (cf_domains CF) in H.
  - apply (cf_pair CF) in H as [H1 H2]. by rewrite (IHl _ H1), (IHr _ H2).
Qed.

(** A path that ends at a tree's hash starts at one of its subtrees. *)
Lemma path_into_tree t u path :
  foldl (take_step hash_pair) (tree_hash u) path = tree_hash t ->
  forall x, x ∈ fringe u -> x ∈ fringe t.
Proof.
  revert t. induction path as [|[sib l] path IH] using rev_ind; intros t H x Hx.
  { cbn in H. apply tree_hash_inj in H as ->. done. }
  rewrite foldl_app in H. cbn [foldl] in H. unfold take_step at 1 in H. cbn [left sibling] in H.
  destruct t as [y|a b]; cbn [tree_hash] in H.
  { destruct l; symmetry in H; by apply (cf_domains CF) in H. }
  cbn [fringe]. apply elem_of_app.
  destruct l; apply (cf_pair CF) in H as [H1 H2]; [right|left]; eapply IH; eauto.
Qed.
End tree.

(** C36: a Merkle path proves inclusion. With a hash free of collisions, only
    the leaves of a non-empty list reach its root along any path, whatever its
    length and sides; and two leaf lists with one root are the same list, in
    the same order, so the root commits to the order and the number of leaves
    although an odd node is promoted unhashed. *)
Theorem merkle_binding empty_root hash_leaf hash_pair leaves :
  CollisionFree hash_leaf hash_pair -> leaves <> [] ->
  let root := merkle_root empty_root hash_leaf hash_pair in
  (forall leaf path, root_from_path hash_leaf hash_pair leaf path = root leaves -> leaf ∈ leaves) /\
  (forall leaves', leaves' <> [] -> root leaves = root leaves' -> leaves = leaves').
Proof.
  intros CF Hne root.
  destruct (merkle_root_tree empty_root hash_leaf hash_pair leaves Hne) as (t & Ht & Hf). split.
  - intros leaf path H. unfold root in H. rewrite Ht in H. rewrite <-Hf.
    apply (path_into_tree hash_leaf hash_pair CF t (Leaf leaf) path H). left.
  - intros leaves' Hne' H.
    destruct (merkle_root_tree empty_root hash_leaf hash_pair leaves' Hne') as (u & Hu & Hf').
    unfold root in H. rewrite Ht, Hu in H.
    apply (tree_hash_inj hash_leaf hash_pair CF) in H as ->. congruence.
Qed.

(** A collision-free hash on numbers: pairs are coded by powers of two. *)
Definition demo_leaf (x : N) : N := 2 * x + 1.
Definition demo_pair (a b : N) : N := 2 * (2 ^ a * (2 * b + 1)).

Lemma pow_odd_inj a b c d : 2 ^ a * (2 * b + 1) = 2 ^ c * (2 * d + 1) -> a = c /\ b = d.
Proof.
  revert c. induction a as [|a IH] using N.peano_ind; intros c; destruct c as [|c] using N.peano_ind;
    rewrite ?N.pow_succ_r', ?N.pow_0_r; intros H; try lia.
  destruct (IH c) as [-> ->]; lia.
Qed.

Lemma demo_collision_free : CollisionFree demo_leaf demo_pair.
Proof.
  unfold demo_leaf, demo_pair. constructor.
  - intros x y. lia.
  - intros a b c d H. apply pow_odd_inj. lia.
  - intros x a b. generalize (2 ^ a * (2 * b + 1)). lia.
Qed.

Lemma merkle_binding_witness :
  let root := merkle_root 0 demo_leaf demo_pair in
  [1; 0; 1] <> [] /\
  (forall leaves', leaves' <> [] -> root [1; 0; 1] = root leaves' -> [1; 0; 1] = leaves').
Proof.
  intros root. split; [done|].
  apply (merkle_binding 0 demo_leaf demo_pair [1; 0; 1] demo_collision_free). done.
Defined.
