(* ===== verification/Rbc.v ===== *)
(** Signature-free reliable broadcast of vertices at one validator
    ([tenzro-consensus/src/rbc.rs]).

    Every (round, author) pair is an instance. The handlers below are the
    source's: the author's first proposal is echoed, signals are counted once
    per sender and kind, thresholds in seats trigger the next signal, and an
    instance delivers one digest. A signal a validator sends is looped back to
    its own instance, which is the recursion of [on_signal]; [signal_fuel]
    bounds it. *)

From stdpp Require Import prelude gmap list sorting.
From Stdlib Require Import NArith ZArith Lia.
From S2P Require Import Prelude Committee.

(** ** Data *)

Inductive SignalKind := Echo | Vote | Ack | Ready.

#[global] Instance SignalKind_eq_dec : EqDecision SignalKind.
Proof. solve_decision. Defined.

(** The discriminant, [kind as u8]. *)
Definition kind_index (k : SignalKind) : N :=
  match k with Echo => 0 | Vote => 1 | Ack => 2 | Ready => 3 end.

Definition all_kinds : list SignalKind := [Echo; Vote; Ack; Ready].

Record Signal := mkSignal {
  s_kind : SignalKind;
  s_round : Round;
  s_source : ValidatorIndex;
  s_digest : Digest;
}.

#[global] Instance Signal_eq_dec : EqDecision Signal.
Proof. solve_decision. Defined.

Inductive RbcAction :=
| Broadcast (s : Signal)
| Deliver (round : Round) (source : ValidatorIndex) (digest : Digest).

(** An array indexed by signal kind, [[T; 4]]. *)
Record PerKind (A : Type) := mkPerKind { pk_echo : A; pk_vote : A; pk_ack : A; pk_ready : A }.
Arguments mkPerKind {A} _ _ _ _.
Arguments pk_echo {A} _.
Arguments pk_vote {A} _.
Arguments pk_ack {A} _.
Arguments pk_ready {A} _.

Definition pk_get {A} (a : PerKind A) (k : SignalKind) : A :=
  match k with
  | Echo => pk_echo a
  | Vote => pk_vote a
  | Ack => pk_ack a
  | Ready => pk_ready a
  end.

Definition pk_set {A} (a : PerKind A) (k : SignalKind) (x : A) : PerKind A :=
  match k with
  | Echo => mkPerKind x (pk_vote a) (pk_ack a) (pk_ready a)
  | Vote => mkPerKind (pk_echo a) x (pk_ack a) (pk_ready a)
  | Ack => mkPerKind (pk_echo a) (pk_vote a) x (pk_ready a)
  | Ready => mkPerKind (pk_echo a) (pk_vote a) (pk_ack a) x
  end.

Definition pk_all {A} (x : A) : PerKind A := mkPerKind x x x x.

Record Tally := mkTally {
  by_kind : PerKind SeatSet;
  non_author : PerKind N;
}.

Definition tally_default : Tally := mkTally (pk_all ss_new) (pk_all 0).

Record RbcInstance := mkRbcInstance {
  proposed : option Digest;
  counted : PerKind SeatSet;
  tallies : list (Digest * Tally);
  sent : PerKind (option Digest);
  delivered : option Digest;
}.

Definition instance_default : RbcInstance :=
  mkRbcInstance None (pk_all ss_new) [] (pk_all None) None.

Record RbcStats := mkRbcStats { fast : N; slow : N }.

Record ReliableBroadcast := mkRbc {
  me : ValidatorIndex;
  instances : gmap (Round * ValidatorIndex) RbcInstance;
  floor : Round;
  stats : RbcStats;
}.

Definition rbc_new (me : ValidatorIndex) : ReliableBroadcast :=
  mkRbc me ∅ 0 (mkRbcStats 0 0).

(** ** Field updates *)

Definition set_proposed (i : RbcInstance) (d : option Digest) : RbcInstance :=
  mkRbcInstance d (counted i) (tallies i) (sent i) (delivered i).
Definition set_counted (i : RbcInstance) (x : PerKind SeatSet) : RbcInstance :=
  mkRbcInstance (proposed i) x (tallies i) (sent i) (delivered i).
Definition set_tallies (i : RbcInstance) (x : list (Digest * Tally)) : RbcInstance :=
  mkRbcInstance (proposed i) (counted i) x (sent i) (delivered i).
Definition set_sent (i : RbcInstance) (k : SignalKind) (d : Digest) : RbcInstance :=
  mkRbcInstance (proposed i) (counted i) (tallies i) (pk_set (sent i) k (Some d)) (delivered i).
Definition set_delivered (i : RbcInstance) (d : option Digest) : RbcInstance :=
  mkRbcInstance (proposed i) (counted i) (tallies i) (sent i) d.

Definition set_instance (rb : ReliableBroadcast) (k : Round * ValidatorIndex)
    (i : RbcInstance) : ReliableBroadcast :=
  mkRbc (me rb) (<[k := i]> (instances rb)) (floor rb) (stats rb).
Definition set_stats (rb : ReliableBroadcast) (s : RbcStats) : ReliableBroadcast :=
  mkRbc (me rb) (instances rb) (floor rb) s.

(** [self.instances.entry(key).or_default()]. *)
Definition entry (rb : ReliableBroadcast) (k : Round * ValidatorIndex) : RbcInstance :=
  default instance_default (instances rb !! k).

(** [Instance::tally] followed by an update of what it returns: the tally of
    [d], pushed at the end when there is none. *)
Fixpoint tally_update (f : Tally -> Tally) (d : Digest) (ts : list (Digest * Tally))
  : list (Digest * Tally) :=
  match ts with
  | [] => [(d, f tally_default)]
  | (d', t) :: ts =>
      if d' =? d then (d', f t) :: ts else (d', t) :: tally_update f d ts
  end.

Fixpoint tally_find (d : Digest) (ts : list (Digest * Tally)) : option Tally :=
  match ts with
  | [] => None
  | (d', t) :: ts => if d' =? d then Some t else tally_find d ts
  end.

(** Counts [from] in the tally of one digest. *)
Definition tally_count (c : Committee) (k : SignalKind) (from source : ValidatorIndex)
    (t : Tally) : Tally :=
  mkTally
    (pk_set (by_kind t) k (ss_insert (pk_get (by_kind t) k) from (seats c from)).1)
    (pk_set (non_author t) k
       (wadd64 (pk_get (non_author t) k) (non_broadcaster_weight c from source))).

(** ** Signals *)

Definition is_none {A} (o : option A) : bool :=
  match o with None => true | Some _ => false end.

(** The closure [send] with the test that guards it: the kind is sent at most
    once per instance. Returns the instance, the actions and the kinds to loop
    back. *)
Definition send_if (round : Round) (source : ValidatorIndex) (digest : Digest)
    (cond : bool) (k : SignalKind)
    (st : RbcInstance * list RbcAction * list SignalKind)
  : RbcInstance * list RbcAction * list SignalKind :=
  let '(i, out, loop) := st in
  if cond && is_none (pk_get (sent i) k)
  then (set_sent i k digest,
        out ++ [Broadcast (mkSignal k round source digest)],
        loop ++ [k])
  else st.

(** [on_signal] up to the loop over [loopback]. *)
Definition signal_step (c : Committee) (rb : ReliableBroadcast) (from : ValidatorIndex)
    (signal : Signal) : ReliableBroadcast * list RbcAction * list SignalKind :=
  let '(mkSignal kind round source digest) := signal in
  if (round <? floor rb) || is_none (member c source) || is_none (member c from)
  then (rb, [], [])
  else
    let key := (round, source) in
    let i := entry rb key in
    let '(cs, new) := ss_insert (pk_get (counted i) kind) from (seats c from) in
    let i := set_counted i (pk_set (counted i) kind cs) in
    if negb new then (set_instance rb key i, [], [])
    else
      let i := set_tallies i (tally_update (tally_count c kind from source) digest (tallies i)) in
      let t := default tally_default (tally_find digest (tallies i)) in
      let echo := pk_get (non_author t) Echo in
      let vote := pk_get (non_author t) Vote in
      let ack := pk_get (non_author t) Ack in
      let ready := ss_weight (pk_get (by_kind t) Ready) in
      let st := (i, [], []) in
      let st := send_if round source digest (rbc_vote_threshold c <=? echo) Vote st in
      let st := send_if round source digest
                  ((rbc_ack_threshold c <=? echo) || (rbc_ack_threshold c <=? vote)) Ack st in
      let st := send_if round source digest
                  ((rbc_ack_threshold c <=? ack) || (validity c <=? ready)) Ready st in
      let '(i, out, loop) := st in
      if is_none (delivered i) &&
         ((rbc_fast_threshold c <=? echo) || (ready_delivery c <=? ready))
      then
        let is_fast := rbc_fast_threshold c <=? echo in
        let stats' := if is_fast
                      then mkRbcStats (wadd64 (fast (stats rb)) 1) (slow (stats rb))
                      else mkRbcStats (fast (stats rb)) (wadd64 (slow (stats rb)) 1) in
        (set_stats (set_instance rb key (set_delivered i (Some digest))) stats',
         out ++ [Deliver round source digest], loop)
      else (set_instance rb key i, out, loop).

(** [for kind in loopback { out.extend(self.on_signal(..)) }]. *)
Fixpoint run_loop
    (handle : ReliableBroadcast -> SignalKind -> option (ReliableBroadcast * list RbcAction))
    (rb : ReliableBroadcast) (out : list RbcAction) (loop : list SignalKind)
  : option (ReliableBroadcast * list RbcAction) :=
  match loop with
  | [] => Some (rb, out)
  | k :: loop =>
      match handle rb k with
      | None => None
      | Some (rb, o) => run_loop handle rb (out ++ o) loop
      end
  end.

Fixpoint on_signal_fuel (fuel : nat) (c : Committee) (rb : ReliableBroadcast)
    (from : ValidatorIndex) (signal : Signal) : option (ReliableBroadcast * list RbcAction) :=
  match fuel with
  | O => None
  | S fuel =>
      let '(rb, out, loop) := signal_step c rb from signal in
      run_loop (fun rb k => on_signal_fuel fuel c rb (me rb)
                  (mkSignal k (s_round signal) (s_source signal) (s_digest signal)))
        rb out loop
  end.

(** Enough for every call: each loop-back follows a signal sent for the first
    time in the instance, and only VOTE, ACK and READY are looped back. *)
Definition signal_fuel : nat := 4.

Definition on_signal (c : Committee) (rb : ReliableBroadcast) (from : ValidatorIndex)
    (signal : Signal) : ReliableBroadcast * list RbcAction :=
  default (rb, []) (on_signal_fuel signal_fuel c rb from signal).

(** ** Proposals *)

Definition on_propose (c : Committee) (rb : ReliableBroadcast) (from : ValidatorIndex)
    (round : Round) (source : ValidatorIndex) (digest : Digest)
  : ReliableBroadcast * list RbcAction :=
  if negb (from =? source)%nat || (round <? floor rb) then (rb, [])
  else
    let key := (round, source) in
    let i := entry rb key in
    if negb (is_none (proposed i)) then (set_instance rb key i, [])
    else
      let i := set_proposed i (Some digest) in
      if (committee_size c =? 1)%nat
      then (set_stats (set_instance rb key (set_delivered i (Some digest)))
              (mkRbcStats (wadd64 (fast (stats rb)) 1) (slow (stats rb))),
            [Deliver round source digest])
      else
        let echo := mkSignal Echo round source digest in
        let rb := set_instance rb key (set_sent i Echo digest) in
        let '(rb, out) := on_signal c rb (me rb) echo in
        (rb, Broadcast echo :: out).

Definition get_proposed (rb : ReliableBroadcast) (round : Round) (source : ValidatorIndex)
  : option Digest := instances rb !! (round, source) ≫= proposed.

Definition get_delivered (rb : ReliableBroadcast) (round : Round) (source : ValidatorIndex)
  : option Digest := instances rb !! (round, source) ≫= delivered.

(** ** Restoring after a restart, repair and pruning *)

Definition restore_sent (c : Committee) (rb : ReliableBroadcast) (signal : Signal)
  : ReliableBroadcast :=
  let '(mkSignal kind round source digest) := signal in
  if (round <? floor rb) || is_none (member c source) then rb
  else
    let key := (round, source) in
    let i := set_sent (entry rb key) kind digest in
    let i := if bool_decide (kind = Echo) && is_none (proposed i)
             then set_proposed i (Some digest) else i in
    let '(cs, new) := ss_insert (pk_get (counted i) kind) (me rb) (seats c (me rb)) in
    let i := set_counted i (pk_set (counted i) kind cs) in
    let i := if new
             then set_tallies i
                    (tally_update (tally_count c kind (me rb) source) digest (tallies i))
             else i in
    set_instance rb key i.

Definition restore_delivered (rb : ReliableBroadcast) (round : Round)
    (source : ValidatorIndex) (digest : Digest) : ReliableBroadcast :=
  if round <? floor rb then rb
  else
    let i := entry rb (round, source) in
    set_instance rb (round, source)
      (set_delivered i (Some (default digest (delivered i)))).

(** The signals an instance sent, in kind order. *)
Definition instance_signals (key : Round * ValidatorIndex) (i : RbcInstance) : list Signal :=
  omap (fun k => (fun d => mkSignal k key.1 key.2 d) <$> pk_get (sent i) k) all_kinds.

(** [sort_by_key(|s| (s.round, s.source, s.kind as u8))]. *)
Definition signal_key_le (a b : Signal) : Prop :=
  s_round a < s_round b \/
  (s_round a = s_round b /\
   ((s_source a < s_source b)%nat \/
    (s_source a = s_source b /\ kind_index (s_kind a) <= kind_index (s_kind b)))).

#[global] Instance signal_key_le_dec a b : Decision (signal_key_le a b).
Proof. unfold signal_key_le. apply _. Defined.

Definition sent_signals (rb : ReliableBroadcast) (from_round : Round) : list Signal :=
  merge_sort signal_key_le
    (flat_map (fun p => instance_signals p.1 p.2)
       (filter (fun p => from_round <= p.1.1) (map_to_list (instances rb)))).

Definition undelivered_from (rb : ReliableBroadcast) : gmap ValidatorIndex Round :=
  foldr (fun '((round, source), i) out =>
           if (floor rb <=? round) && is_none (delivered i)
           then <[source := from_option (fun r => N.min r round) round (out !! source)]> out
           else out) ∅ (map_to_list (instances rb)).

Definition rbc_prune_below (rb : ReliableBroadcast) (round : Round) : ReliableBroadcast :=
  if round <=? floor rb then rb
  else mkRbc (me rb) (filter (fun p => round <= p.1.1) (instances rb)) round (stats rb).

Definition rbc_len (rb : ReliableBroadcast) : nat := size (instances rb).

(** ** Termination of the loop-back *)

(** Kinds that may still be looped back in an instance. *)
Definition unsent (i : RbcInstance) : nat :=
  (if is_none (pk_get (sent i) Vote) then 1 else 0) +
  (if is_none (pk_get (sent i) Ack) then 1 else 0) +
  (if is_none (pk_get (sent i) Ready) then 1 else 0).

Lemma pk_get_set {A} (a : PerKind A) k k' x :
  pk_get (pk_set a k x) k' = if decide (k' = k) then x else pk_get a k'.
Proof. by destruct k, k'. Qed.

Lemma pk_get_all {A} (x : A) k : pk_get (pk_all x) k = x.
Proof. by destruct k. Qed.

Lemma entry_set_instance rb k i : entry (set_instance rb k i) k = i.
Proof. unfold entry, set_instance. cbn [instances]. by rewrite lookup_insert_eq. Qed.

Lemma entry_set_stats rb st k : entry (set_stats rb st) k = entry rb k.
Proof. done. Qed.

Lemma send_if_cases r s d cond k i out loop :
  send_if r s d cond k (i, out, loop) = (i, out, loop) \/
  (cond = true /\ pk_get (sent i) k = None /\
   send_if r s d cond k (i, out, loop) =
     (set_sent i k d, out ++ [Broadcast (mkSignal k r s d)], loop ++ [k])).
Proof.
  unfold send_if, is_none. destruct cond; simpl; [|by left].
  destruct (pk_get (sent i) k); simpl; auto.
Qed.

(** Every kind queued for loop-back was just marked sent. *)
Lemma send_if_unsent r s d cond k st :
  k <> Echo ->
  let st' := send_if r s d cond k st in
  (unsent st'.1.1 + length st'.2 <= unsent st.1.1 + length st.2)%nat.
Proof.
  intros Hk. destruct st as [[i out] loop]. cbn zeta.
  destruct (send_if_cases r s d cond k i out loop) as [->|(_ & Hn & ->)]; simpl; [lia|].
  rewrite length_app. simpl. unfold unsent, set_sent. cbn [sent].
  rewrite !pk_get_set. destruct k; [done| | |]; rewrite Hn; simpl; lia.
Qed.

Lemma signal_step_unsent c rb from sig :
  let '(rb', _, loop) := signal_step c rb from sig in
  let key := (s_round sig, s_source sig) in
  (unsent (entry rb' key) + length loop <= unsent (entry rb key))%nat /\ me rb' = me rb.
Proof.
  destruct sig as [k r s d]. cbn [s_round s_source]. unfold signal_step.
  destruct (_ || _); [simpl; lia|].
  destruct (ss_insert _ _ _) as [cs new]. destruct new; cbn [negb].
  2:{ rewrite entry_set_instance. unfold unsent, set_counted. cbn. lia. }
  set (i0 := set_tallies _ _).
  set (t := default tally_default _).
  set (st1 := send_if r s d (rbc_vote_threshold c <=? _) Vote (i0, [], [])).
  set (st2 := send_if r s d _ Ack st1).
  set (st3 := send_if r s d _ Ready st2).
  assert (unsent st3.1.1 + length st3.2 <= unsent (entry rb (r, s)))%nat as H.
  { pose proof (send_if_unsent r s d (rbc_vote_threshold c <=? pk_get (non_author t) Echo)
                  Vote (i0, [], []) ltac:(done)) as H1.
    pose proof (send_if_unsent r s d ((rbc_ack_threshold c <=? pk_get (non_author t) Echo)
        || (rbc_ack_threshold c <=? pk_get (non_author t) Vote)) Ack st1 ltac:(done)) as H2.
    pose proof (send_if_unsent r s d ((rbc_ack_threshold c <=? pk_get (non_author t) Ack)
        || (validity c <=? ss_weight (pk_get (by_kind t) Ready))) Ready st2 ltac:(done)) as H3.
    cbn zeta in *. fold st1 in H1. fold st2 in H2. fold st3 in H3.
    change (unsent (entry rb (r, s))) with (unsent i0). simpl in H1. lia. }
  destruct st3 as [[i out] loop]. simpl in H.
  destruct (_ && _); rewrite ?entry_set_stats, entry_set_instance; split; try done.
Qed.

(** With fuel above the number of kinds still unsent, a call returns. *)
Lemma on_signal_fuel_total fuel c rb from sig :
  (unsent (entry rb (s_round sig, s_source sig)) < fuel)%nat ->
  exists rb' out, on_signal_fuel fuel c rb from sig = Some (rb', out) /\
    (unsent (entry rb' (s_round sig, s_source sig)) <=
     unsent (entry rb (s_round sig, s_source sig)))%nat.
Proof.
  revert rb from sig. induction fuel as [|fuel IH]; intros rb from sig Hf; [lia|].
  cbn [on_signal_fuel]. pose proof (signal_step_unsent c rb from sig) as Hs.
  destruct (signal_step c rb from sig) as [[rb1 out1] loop]. destruct Hs as [Hs _].
  set (key := (s_round sig, s_source sig)) in *.
  assert (loop = [] \/ (unsent (entry rb1 key) < fuel)%nat) as Hor.
  { destruct loop; simpl in Hs; [by left|right; lia]. }
  assert (unsent (entry rb1 key) <= unsent (entry rb key))%nat as Hle by lia.
  clear Hs Hf. revert rb1 out1 Hor Hle.
  induction loop as [|k loop IHl]; intros rb1 out1 Hor Hle; cbn [run_loop]; [eauto|].
  destruct Hor as [|Hlt]; [done|].
  destruct (IH rb1 (me rb1) (mkSignal k (s_round sig) (s_source sig) (s_digest sig)))
    as (rb2 & o & -> & Hle2); [done|]. cbn [s_round s_source] in Hle2. fold key in Hle2.
  apply IHl; [right|]; lia.
Qed.

Lemma on_signal_returns c rb from sig :
  on_signal_fuel signal_fuel c rb from sig = Some (on_signal c rb from sig).
Proof.
  unfold on_signal.
  destruct (on_signal_fuel_total signal_fuel c rb from sig) as (rb' & out & -> & _); [|done].
  unfold unsent, signal_fuel.
  repeat match goal with |- context [if ?b then _ else _] => destruct b end; simpl; lia.
Qed.

Lemma run_loop_mono h h' rb out loop res :
  (forall rb k x, h rb k = Some x -> h' rb k = Some x) ->
  run_loop h rb out loop = Some res -> run_loop h' rb out loop = Some res.
Proof.
  intros Hh. revert rb out. induction loop as [|k loop IH]; intros rb out; cbn [run_loop]; [done|].
  destruct (h rb k) as [[rb1 o]|] eqn:E; [|done]. rewrite (Hh _ _ _ E). apply IH.
Qed.

Lemma on_signal_fuel_mono fuel extra c rb from sig res :
  on_signal_fuel fuel c rb from sig = Some res ->
  on_signal_fuel (fuel + extra) c rb from sig = Some res.
Proof.
  revert rb from sig res. induction fuel as [|fuel IH]; intros rb from sig res; [done|].
  cbn [Nat.add on_signal_fuel]. destruct (signal_step c rb from sig) as [[rb1 o] loop].
  apply run_loop_mono. auto.
Qed.

(** Handling a signal always returns: the recursion through the signals a
    validator loops back to itself ends within [signal_fuel] levels, whatever
    the committee, the state and the signal, and more fuel changes nothing. *)
Theorem on_signal_terminates c rb from sig extra :
  on_signal_fuel (signal_fuel + extra) c rb from sig = Some (on_signal c rb from sig).
Proof. apply on_signal_fuel_mono, on_signal_returns. Qed.
