(* ===== verification/RbcNet.v ===== *)
(** Reliable broadcast across a committee.

    The handlers of [Rbc] run at every honest validator; the network delivers
    their signals in any order and any number of times; faulty validators send
    anything. Validators prune and restart. Over all reachable states two
    honest validators never deliver different digests in one instance, while
    the faulty validators hold at most [max_faulty] seats.

    The world keeps, besides the validators' states, the log of signals honest
    validators have broadcast and the log of their deliveries: what a
    validator journals before a frame leaves it, and what it restores from. *)

From stdpp Require Import prelude gmap list sorting.
From Stdlib Require Import NArith ZArith Lia.
From S2P Require Import Prelude Committee Rbc.

(** ** The world *)

Record Delivery := mkDelivery {
  d_node : ValidatorIndex;
  d_round : Round;
  d_source : ValidatorIndex;
  d_digest : Digest;
}.

Record World := mkWorld {
  nodes : ValidatorIndex -> ReliableBroadcast;
  log : list (ValidatorIndex * Signal);
  deliveries : list Delivery;
}.

Definition init_world : World := mkWorld rbc_new [] [].

Definition set_node (w : ValidatorIndex -> ReliableBroadcast) (p : ValidatorIndex)
    (rb : ReliableBroadcast) : ValidatorIndex -> ReliableBroadcast :=
  fun q => if decide (q = p) then rb else w q.

(** The signals and the deliveries among a handler's actions. *)
Definition broadcasts (p : ValidatorIndex) (acts : list RbcAction)
  : list (ValidatorIndex * Signal) :=
  omap (fun a => match a with Broadcast s => Some (p, s) | Deliver _ _ _ => None end) acts.

Definition delivered_by (p : ValidatorIndex) (acts : list RbcAction) : list Delivery :=
  omap (fun a => match a with
                 | Broadcast _ => None
                 | Deliver r s d => Some (mkDelivery p r s d)
                 end) acts.

(** What a handler did at [p]. *)
Definition apply_actions (w : World) (p : ValidatorIndex)
    (res : ReliableBroadcast * list RbcAction) : World :=
  mkWorld (set_node (nodes w) p res.1) (log w ++ broadcasts p res.2)
    (deliveries w ++ delivered_by p res.2).

(** A restart replays the journal: signals, deliveries, and the pruning that
    committing along the way causes. *)
Inductive RestoreOp :=
| RestoreSent (s : Signal)
| RestoreDelivered (r : Round) (s : ValidatorIndex) (d : Digest)
| RestorePrune (r : Round).

Definition restore_op (c : Committee) (rb : ReliableBroadcast) (op : RestoreOp)
  : ReliableBroadcast :=
  match op with
  | RestoreSent s => restore_sent c rb s
  | RestoreDelivered r s d => restore_delivered rb r s d
  | RestorePrune r => rbc_prune_below rb r
  end.

Section network.
Context (c : Committee) (faulty : ValidatorIndex -> bool).
(** The one digest an honest author proposes in a round. *)
Context (honest_proposal : Round -> ValidatorIndex -> Digest).

Inductive step (w : World) : World -> Prop :=
| step_propose p r s d :
    (p < committee_size c)%nat -> faulty p = false -> (s < committee_size c)%nat ->
    (faulty s = false -> d = honest_proposal r s) ->
    step w (apply_actions w p (on_propose c (nodes w p) s r s d))
| step_signal p from sig :
    (p < committee_size c)%nat -> faulty p = false ->
    (faulty from = false -> (from, sig) ∈ log w) ->
    step w (apply_actions w p (on_signal c (nodes w p) from sig))
| step_prune p r :
    step w (mkWorld (set_node (nodes w) p (rbc_prune_below (nodes w p) r))
              (log w) (deliveries w))
| step_restart p ops :
    (forall sig, RestoreSent sig ∈ ops <-> (p, sig) ∈ log w) ->
    (forall r s d, RestoreDelivered r s d ∈ ops -> mkDelivery p r s d ∈ deliveries w) ->
    step w (mkWorld (set_node (nodes w) p (foldl (restore_op c) (rbc_new p) ops))
              (log w) (deliveries w)).

Inductive reachable : World -> Prop :=
| reach_init : reachable init_world
| reach_step w w' : reachable w -> step w w' -> reachable w'.

(** ** Evidence *)

(** [T] seats, the broadcaster's own excluded, whose honest holders sent kind
    [k] for [d]. *)
Definition ev (L : list (nat * Signal)) (k : SignalKind) (r : N) (s : nat) (d : N) (T : N)
  : Prop :=
  exists P, T <= na_weight c s P /\
    forall j, (j < committee_size c)%nat -> P j = true -> faulty j = false ->
      (j, mkSignal k r s d) ∈ L.

Definition evw (L : list (nat * Signal)) (k : SignalKind) (r : N) (s : nat) (d : N) (T : N)
  : Prop :=
  exists P, T <= weight c P /\
    forall j, (j < committee_size c)%nat -> P j = true -> faulty j = false ->
      (j, mkSignal k r s d) ∈ L.

Definition just (L : list (nat * Signal)) (k : SignalKind) (r : N) (s : nat) (d : N) : Prop :=
  match k with
  | Echo => True
  | Vote => ev L Echo r s d (rbc_vote_threshold c)
  | Ack => ev L Echo r s d (rbc_ack_threshold c) \/ ev L Vote r s d (rbc_ack_threshold c)
  | Ready => ev L Ack r s d (rbc_ack_threshold c)
  end.

(** What justifies a digest: the author's own proposal when it is honest, the
    evidence [E] when it is not. *)
Definition sound (r : N) (s : nat) (d : N) (E : Prop) : Prop :=
  (faulty s = false -> d = honest_proposal r s) /\ (faulty s = true -> E).

Definition delivered_ok (L : list (nat * Signal)) (r : N) (s : nat) (d : N) : Prop :=
  (s < committee_size c)%nat /\
  sound r s d (ev L Echo r s d (rbc_fast_threshold c) \/ evw L Ready r s d (ready_delivery c)).

Record log_inv (L : list (nat * Signal)) : Prop := {
  li_just p k r s d : (p, mkSignal k r s d) ∈ L ->
    (p < committee_size c)%nat /\ faulty p = false /\ (s < committee_size c)%nat /\
    sound r s d (just L k r s d);
  li_unique p k r s d d' :
    (p, mkSignal k r s d) ∈ L -> (p, mkSignal k r s d') ∈ L -> d = d';
}.

Definition tally_inv (L : list (nat * Signal)) (r : N) (s : nat) (cnt : PerKind SeatSet)
    (d : N) (t : Tally) : Prop :=
  forall k,
    ss_ok c (pk_get (by_kind t) k) /\
    pk_get (non_author t) k = na_weight c s (ss_contains (pk_get (by_kind t) k)) /\
    (forall j, ss_contains (pk_get (by_kind t) k) j = true ->
       ss_contains (pk_get cnt k) j = true) /\
    (forall j, ss_contains (pk_get (by_kind t) k) j = true -> faulty j = false ->
       (j, mkSignal k r s d) ∈ L).

(** An instance at [p]: what it counted is in the log [L]; the signals it
    records as its own are those of [O]. While [p] runs [O] is [L]; while it
    restarts [O] is the part of its journal replayed so far. *)
Record inst_own (L O : list (nat * Signal)) (p : nat) (key : N * nat) (i : RbcInstance)
  : Prop := {
  ii_source : (key.2 < committee_size c)%nat;
  ii_counted k : ss_ok c (pk_get (counted i) k);
  ii_tally d t : tally_find d (tallies i) = Some t ->
    tally_inv L key.1 key.2 (counted i) d t;
  ii_sent k d : pk_get (sent i) k = Some d <-> (p, mkSignal k key.1 key.2 d) ∈ O;
  ii_proposed d : proposed i = Some d -> faulty key.2 = false -> d = honest_proposal key.1 key.2;
  ii_echoed : proposed i = None -> pk_get (sent i) Echo = None;
  ii_delivered d : delivered i = Some d -> delivered_ok L key.1 key.2 d;
}.

Record node_own (L O : list (nat * Signal)) (p : nat) (rb : ReliableBroadcast) : Prop := {
  ni_me : me rb = p;
  ni_inst key i : instances rb !! key = Some i -> floor rb <= key.1 /\ inst_own L O p key i;
  ni_log sig : (p, sig) ∈ O -> floor rb <= s_round sig ->
    is_Some (instances rb !! (s_round sig, s_source sig));
}.

Abbreviation inst_inv L := (inst_own L L).
Abbreviation node_inv L := (node_own L L).

Record world_inv (w : World) : Prop := {
  wi_log : log_inv (log w);
  wi_node p : node_inv (log w) p (nodes w p);
  wi_delivery dl : dl ∈ deliveries w -> delivered_ok (log w) (d_round dl) (d_source dl) (d_digest dl);
}.

(** ** Evidence only grows *)

Lemma ev_mono L L' k r s d T : L ⊆ L' -> ev L k r s d T -> ev L' k r s d T.
Proof. intros HL (P & HT & HP). exists P. split; [done|]. auto. Qed.

Lemma evw_mono L L' k r s d T : L ⊆ L' -> evw L k r s d T -> evw L' k r s d T.
Proof. intros HL (P & HT & HP). exists P. split; [done|]. auto. Qed.

Lemma just_mono L L' k r s d : L ⊆ L' -> just L k r s d -> just L' k r s d.
Proof. intros HL. destruct k; simpl; eauto using ev_mono. intros [?|?]; eauto using ev_mono. Qed.

Lemma sound_mono r s d (E E' : Prop) : (E -> E') -> sound r s d E -> sound r s d E'.
Proof. intros HE [H1 H2]. split; auto. Qed.

Lemma delivered_ok_mono L L' r s d :
  L ⊆ L' -> delivered_ok L r s d -> delivered_ok L' r s d.
Proof.
  intros HL [Hs H]. split; [done|]. eapply sound_mono; [|exact H].
  intros [?|?]; eauto using ev_mono, evw_mono.
Qed.

Lemma tally_inv_mono L L' r s cnt cnt' d t :
  L ⊆ L' ->
  (forall k j, ss_contains (pk_get cnt k) j = true -> ss_contains (pk_get cnt' k) j = true) ->
  tally_inv L r s cnt d t -> tally_inv L' r s cnt' d t.
Proof. intros HL Hc H k. destruct (H k) as (? & ? & ? & ?). split_and!; auto. Qed.

Lemma node_inv_mono L L' p rb :
  L ⊆ L' -> (forall sig, (p, sig) ∈ L' -> (p, sig) ∈ L) ->
  node_inv L p rb -> node_inv L' p rb.
Proof.
  intros HL Hp [Hme Hi Hl]. constructor; [done| |auto].
  intros key i Hk. destruct (Hi key i Hk) as [Hf [Hs Hc Ht Hsent Hprop He Hd]].
  split; [done|]. constructor; auto.
  - intros d t Hd'. eapply tally_inv_mono; eauto.
  - intros k d. rewrite Hsent. split; auto.
  - intros d Hd'. eapply delivered_ok_mono; eauto.
Qed.

(** ** Counting a signal *)

Context (wf : CommitteeWf c) (Hfaulty : weight c faulty <= max_faulty c).

Lemma tally_find_update f d d' ts :
  tally_find d' (tally_update f d ts) =
  if d' =? d then Some (f (default tally_default (tally_find d ts))) else tally_find d' ts.
Proof.
  induction ts as [|[e t] ts IH]; simpl.
  { rewrite (N.eqb_sym d d'). done. }
  destruct (N.eqb_spec e d) as [->|Hne]; simpl.
  - rewrite (N.eqb_sym d d'). by destruct (d' =? d).
  - destruct (N.eqb_spec e d') as [->|]; [|done].
    by rewrite (proj2 (N.eqb_neq d' d)).
Qed.

Lemma tally_default_inv L r s cnt d : tally_inv L r s cnt d tally_default.
Proof.
  intros k. cbn [by_kind non_author tally_default]. rewrite !pk_get_all. split_and!.
  - apply ss_ok_new.
  - unfold na_weight. rewrite (wsum_ext _ _ _ (fun _ => false)); [by rewrite wsum_false|].
    intros. apply ss_contains_new.
  - intros j. by rewrite ss_contains_new.
  - intros j. by rewrite ss_contains_new.
Qed.

Lemma na_weight_insert ss from s :
  (from < committee_size c)%nat -> ss_contains ss from = false ->
  na_weight c s (ss_contains (ss_insert ss from (seats c from)).1) =
  wadd64 (na_weight c s (ss_contains ss)) (non_broadcaster_weight c from s).
Proof.
  intros Hfrom Hnew.
  assert (na_weight c s (ss_contains (ss_insert ss from (seats c from)).1) =
          na_weight c s (ss_contains ss) + non_broadcaster_weight c from s) as Heq.
  { pose proof (wsum_add (fun i => non_broadcaster_weight c i s) (committee_size c)
                  (ss_contains ss) from Hfrom Hnew) as Ha.
    unfold na_weight. rewrite <-Ha. apply wsum_ext. intros. apply ss_contains_insert. }
  rewrite wadd64_small; [done|]. rewrite <-Heq.
  pose proof (na_weight_le c s (ss_contains (ss_insert ss from (seats c from)).1)).
  pose proof (weight_le_total c (ss_contains (ss_insert ss from (seats c from)).1) wf).
  pose proof (wf_max _ wf). unfold total_seats, MAX_TOTAL_SEATS, U32_MAX, U64_MAX in *. lia.
Qed.

Lemma tally_count_inv L r s cnt d t k from :
  tally_inv L r s cnt d t -> (from < committee_size c)%nat ->
  ss_contains (pk_get cnt k) from = false ->
  (faulty from = false -> (from, mkSignal k r s d) ∈ L) ->
  tally_inv L r s (pk_set cnt k (ss_insert (pk_get cnt k) from (seats c from)).1) d
    (tally_count c k from s t).
Proof.
  intros Ht Hfrom Hnew Hlog k'. unfold tally_count. cbn [by_kind non_author].
  rewrite !pk_get_set. destruct (Ht k') as (Hok & Hna & Hsub & Hev).
  destruct (decide (k' = k)) as [->|]; [|done].
  assert (ss_contains (pk_get (by_kind t) k) from = false) as Hnt.
  { destruct (ss_contains (pk_get (by_kind t) k) from) eqn:E; [|done].
    apply Hsub in E. congruence. }
  split_and!.
  - by apply ss_ok_insert.
  - rewrite na_weight_insert by done. by rewrite Hna.
  - intros j. rewrite !ss_contains_insert, !orb_true_iff. intros [?|?]; auto.
  - intros j. rewrite ss_contains_insert, orb_true_iff, Nat.eqb_eq. intros [?| ->]; auto.
Qed.

(** The instance after a new signal of kind [k] for [d] from [from] is
    counted. *)
Definition count_signal (k : SignalKind) (from s : nat) (d : N) (i : RbcInstance) : RbcInstance :=
  let i := set_counted i (pk_set (counted i) k
             (ss_insert (pk_get (counted i) k) from (seats c from)).1) in
  set_tallies i (tally_update (tally_count c k from s) d (tallies i)).

Lemma count_signal_inv L O p r s i k d from :
  inst_own L O p (r, s) i -> (from < committee_size c)%nat ->
  ss_contains (pk_get (counted i) k) from = false ->
  (faulty from = false -> (from, mkSignal k r s d) ∈ L) ->
  inst_own L O p (r, s) (count_signal k from s d i) /\
  tally_inv L r s (counted (count_signal k from s d i)) d
    (default tally_default (tally_find d (tallies (count_signal k from s d i)))).
Proof.
  intros [Hs Hc Ht Hsent Hprop He Hd] Hfrom Hnew Hlog. cbn [fst snd] in *.
  assert (tally_inv L r s (counted (count_signal k from s d i)) d
            (tally_count c k from s (default tally_default (tally_find d (tallies i))))) as Htd.
  { apply tally_count_inv; [|done..].
    destruct (tally_find d (tallies i)) eqn:E; simpl; eauto using tally_default_inv. }
  split.
  - constructor; cbn [count_signal set_tallies set_counted counted tallies sent proposed delivered
                       fst snd]; auto.
    + intros k'. rewrite pk_get_set. destruct (decide (k' = k)) as [->|]; [|done].
      by apply ss_ok_insert.
    + intros d' t. rewrite tally_find_update. destruct (N.eqb_spec d' d) as [->|].
      * intros [= <-]. exact Htd.
      * intros Hf. eapply tally_inv_mono; [reflexivity| |by apply Ht].
        intros k' j. rewrite pk_get_set. destruct (decide (k' = k)) as [->|]; [|done].
        rewrite ss_contains_insert, orb_true_iff. auto.
  - unfold count_signal at 2. cbn [set_tallies tallies set_counted].
    rewrite tally_find_update, N.eqb_refl. exact Htd.
Qed.

(** ** Thresholds against the faulty seats *)

Let n := total_seats c.
Let f := max_faulty c.

Lemma na_all s : (s < committee_size c)%nat -> na_weight c s (fun _ => true) + 1 = n.
Proof. intros Hs. rewrite na_weight_in by done. by apply weight_all. Qed.

Lemma na_faulty s :
  (s < committee_size c)%nat -> faulty s = true -> na_weight c s faulty + 1 <= f.
Proof. intros Hs Hf. by rewrite na_weight_in. Qed.

Lemma faulty_pos j : (j < committee_size c)%nat -> faulty j = true -> 1 <= f.
Proof. intros Hj Hf. pose proof (na_faulty j Hj Hf). lia. Qed.

Lemma thresholds :
  3 * f + 1 <= n /\
  n <= 2 * rbc_vote_threshold c /\
  n + f <= 2 * rbc_ack_threshold c + 1 /\
  n + 2 * f <= 2 * rbc_fast_threshold c + 2 /\
  validity c = f + 1 /\ ready_delivery c = 2 * f + 1.
Proof.
  pose proof (faulty_bound c wf). unfold n, f in *. split; [done|].
  unfold rbc_vote_threshold, rbc_ack_threshold, rbc_fast_threshold, div_ceil,
    validity, ready_delivery, total_seats in *. lia.
Qed.

(** Evidence above the faulty seats names an honest sender. *)
Lemma ev_honest L k r s d T :
  ev L k r s d T -> f < T \/ ((s < committee_size c)%nat /\ faulty s = true /\ f <= T) ->
  exists j, (j < committee_size c)%nat /\ faulty j = false /\ (j, mkSignal k r s d) ∈ L.
Proof.
  intros (P & HT & HP) Hor.
  assert (na_weight c s faulty < T) as Hlt.
  { pose proof (na_weight_le c s faulty). fold f in Hfaulty.
    destruct Hor as [?|(? & ? & ?)]; [lia|]. pose proof (na_faulty s). lia. }
  destruct (wsum_honest_member (fun i => non_broadcaster_weight c i s) (committee_size c)
              P faulty (T - 1)) as (j & Hj & HPj & Hh).
  - unfold na_weight in *. lia.
  - unfold na_weight in *. lia.
  - exists j. auto.
Qed.

Lemma evw_honest L k r s d T :
  evw L k r s d T -> f < T ->
  exists j, (j < committee_size c)%nat /\ faulty j = false /\ (j, mkSignal k r s d) ∈ L.
Proof.
  intros (P & HT & HP) Hlt.
  destruct (wsum_honest_member (seats c) (committee_size c) P faulty f)
    as (j & Hj & HPj & Hh); [done|unfold weight in *; lia|]. exists j. auto.
Qed.

(** ** Sending a signal *)

Lemma broadcasts_app p a b : broadcasts p (a ++ b) = broadcasts p a ++ broadcasts p b.
Proof. apply omap_app. Qed.

Lemma delivered_by_app p a b : delivered_by p (a ++ b) = delivered_by p a ++ delivered_by p b.
Proof. apply omap_app. Qed.

Lemma broadcasts_node p acts q sig : (q, sig) ∈ broadcasts p acts -> q = p.
Proof. unfold broadcasts. rewrite list_elem_of_omap. intros ([]&_&?); by simplify_eq. Qed.

Lemma log_inv_snoc L p k r s d :
  log_inv L -> (p < committee_size c)%nat -> faulty p = false -> (s < committee_size c)%nat ->
  sound r s d (just L k r s d) ->
  (forall d', (p, mkSignal k r s d') ∉ L) ->
  log_inv (L ++ [(p, mkSignal k r s d)]).
Proof.
  intros [Hj Hu] Hp Hh Hs Hsound Hnew.
  assert (L ⊆ L ++ [(p, mkSignal k r s d)]) as Hsub by set_solver.
  constructor.
  - intros p' k' r' s' d' Hin. apply elem_of_app in Hin as [Hin|Hin].
    + destruct (Hj _ _ _ _ _ Hin) as (? & ? & ? & ?). split_and!; auto.
      eapply sound_mono; [|done]. by apply just_mono.
    + apply list_elem_of_singleton in Hin. simplify_eq. split_and!; auto.
      eapply sound_mono; [|done]. by apply just_mono.
  - intros p' k' r' s' d1 d2 H1 H2.
    apply elem_of_app in H1 as [H1|H1]; apply elem_of_app in H2 as [H2|H2];
      try (apply list_elem_of_singleton in H1); try (apply list_elem_of_singleton in H2);
      simplify_eq; eauto; exfalso; eapply Hnew; eauto.
Qed.

Lemma inst_inv_mono L L' O O' p key i :
  L ⊆ L' -> O ⊆ O' ->
  (forall k d, (p, mkSignal k key.1 key.2 d) ∈ O' -> (p, mkSignal k key.1 key.2 d) ∈ O) ->
  inst_own L O p key i -> inst_own L' O' p key i.
Proof.
  intros HL HO Hp [Hs Hc Ht Hsent Hprop He Hd]. constructor; auto.
  - intros d t Hf. eapply tally_inv_mono; [done| |by apply Ht]. done.
  - intros k d. rewrite Hsent. split; auto.
  - intros d Hd'. eapply delivered_ok_mono; eauto.
Qed.

(** Recording that [p] sent kind [k] for [d], in its state and in the log. *)
Lemma inst_inv_send L p r s i k d :
  inst_inv L p (r, s) i -> pk_get (sent i) k = None ->
  (k = Echo -> is_Some (proposed i)) ->
  inst_inv (L ++ [(p, mkSignal k r s d)]) p (r, s) (set_sent i k d).
Proof.
  intros [Hs Hc Ht Hsent Hprop He Hd] Hnone Hecho. cbn [fst snd] in *.
  assert (L ⊆ L ++ [(p, mkSignal k r s d)]) as Hsub by set_solver.
  constructor; cbn [set_sent counted tallies sent proposed delivered fst snd]; auto.
  - intros d' t Hf. eapply tally_inv_mono; [done| |by apply Ht]. done.
  - intros k' d'. rewrite pk_get_set, elem_of_app, list_elem_of_singleton.
    destruct (decide (k' = k)) as [->|Hne].
    + split; [intros [= ->]; by right|]. intros [Hin|Heq]; [|by simplify_eq].
      apply Hsent in Hin. congruence.
    + rewrite Hsent. split; [by left|]. intros [?|?]; [done|]. by simplify_eq.
  - intros Hn. rewrite pk_get_set. case_decide; [|auto]. subst k.
    destruct (Hecho eq_refl). congruence.
  - intros d' Hd'. eapply delivered_ok_mono; eauto.
Qed.

(** The state threaded through the three tests of [on_signal]. *)
Definition sending_inv (L : list (nat * Signal)) (p : nat) (r : N) (s : nat) (d : N)
    (st : RbcInstance * list RbcAction * list SignalKind) : Prop :=
  let '(i, out, loop) := st in
  let L' := L ++ broadcasts p out in
  log_inv L' /\ inst_inv L' p (r, s) i /\
  (forall k, k ∈ loop -> (p, mkSignal k r s d) ∈ L') /\
  (forall key k e, (p, mkSignal k key.1 key.2 e) ∈ L' -> key <> (r, s) ->
     (p, mkSignal k key.1 key.2 e) ∈ L) /\
  delivered_by p out = [].

Lemma send_if_inv L p r s d cond k st :
  (p < committee_size c)%nat -> faulty p = false -> (s < committee_size c)%nat ->
  k <> Echo -> (cond = true -> sound r s d (just L k r s d)) ->
  sending_inv L p r s d st -> sending_inv L p r s d (send_if r s d cond k st).
Proof.
  destruct st as [[i out] loop]. intros Hp Hh Hs Hk Hj (Hl & Hi & Hloop & Ho & Hdv).
  destruct (send_if_cases r s d cond k i out loop) as [->|(Hc & Hn & ->)]; [by split|].
  unfold sending_inv. rewrite broadcasts_app, app_assoc.
  set (L1 := L ++ broadcasts p out) in *.
  change (broadcasts p [Broadcast (mkSignal k r s d)]) with [(p, mkSignal k r s d)].
  split_and!.
  - apply log_inv_snoc; auto.
    + eapply sound_mono; [|by apply Hj]. apply just_mono. unfold L1. set_solver.
    + intros d' Hin. apply (ii_sent _ _ _ _ _ Hi) in Hin. congruence.
  - apply inst_inv_send; auto. done.
  - intros k'. rewrite !elem_of_app, !list_elem_of_singleton. intros [?| ->]; auto.
  - intros key k' e. rewrite elem_of_app, list_elem_of_singleton. intros [?|Heq] Hne; eauto.
    destruct key. by simplify_eq.
  - by rewrite delivered_by_app, Hdv.
Qed.

(** A threshold reached on [d] justifies [d]. *)
Lemma fire_sound L k0 from r s d (E : Prop) :
  log_inv L -> (from < committee_size c)%nat ->
  (faulty from = false -> (from, mkSignal k0 r s d) ∈ L) -> E ->
  (1 <= f -> exists j k, (j < committee_size c)%nat /\ faulty j = false /\
     (j, mkSignal k r s d) ∈ L) ->
  sound r s d E.
Proof.
  intros HL Hfrom Hlog HE Hwit. split; [|done]. intros Hs.
  assert (exists j k, (j, mkSignal k r s d) ∈ L) as (j & k & Hin).
  { destruct (faulty from) eqn:Ef; [|eauto].
    destruct Hwit as (j & k & _ & _ & ?); [|eauto]. by eapply faulty_pos. }
  destruct (li_just _ HL _ _ _ _ _ Hin) as (_ & _ & _ & H). by apply H.
Qed.

Lemma tally_ev L r s cnt d t k T :
  tally_inv L r s cnt d t -> T <= pk_get (non_author t) k -> ev L k r s d T.
Proof.
  intros Ht HT. destruct (Ht k) as (_ & Hna & _ & Hev).
  exists (ss_contains (pk_get (by_kind t) k)). rewrite <-Hna. auto.
Qed.

Lemma tally_evw L r s cnt d t k T :
  tally_inv L r s cnt d t -> T <= ss_weight (pk_get (by_kind t) k) -> evw L k r s d T.
Proof.
  intros Ht HT. destruct (Ht k) as ([_ Hw] & _ & _ & Hev).
  exists (ss_contains (pk_get (by_kind t) k)). rewrite <-Hw. auto.
Qed.

Lemma ev_wit L k r s d T :
  ev L k r s d T -> f < T ->
  exists j k, (j < committee_size c)%nat /\ faulty j = false /\ (j, mkSignal k r s d) ∈ L.
Proof. intros He HT. destruct (ev_honest _ _ _ _ _ _ He) as (j & ?); eauto. Qed.

(** ** The handlers preserve the invariants *)

Lemma default_inst_inv L O p r s :
  (s < committee_size c)%nat -> (forall k d, (p, mkSignal k r s d) ∉ O) ->
  inst_own L O p (r, s) instance_default.
Proof.
  intros Hs Hno. constructor; cbn [instance_default counted tallies sent proposed delivered];
    try done.
  - intros k. rewrite pk_get_all. apply ss_ok_new.
  - intros k d. rewrite pk_get_all. split; [done|]. intros Hin. by apply Hno in Hin.
Qed.

Lemma entry_inv L O p rb r s :
  node_own L O p rb -> floor rb <= r -> (s < committee_size c)%nat ->
  inst_own L O p (r, s) (entry rb (r, s)).
Proof.
  intros [Hme Hi Hl] Hr Hs. unfold entry. destruct (instances rb !! (r, s)) as [i|] eqn:E; simpl.
  - by apply Hi.
  - apply default_inst_inv; [done|]. intros k d Hin.
    destruct (Hl _ Hin Hr) as [? Hsome]. simpl in Hsome. congruence.
Qed.

(** Storing an updated instance. *)
Lemma node_inv_set L L' O O' p rb r s i :
  node_own L O p rb -> floor rb <= r -> L ⊆ L' -> O ⊆ O' -> inst_own L' O' p (r, s) i ->
  (forall key k e, (p, mkSignal k key.1 key.2 e) ∈ O' -> key <> (r, s) ->
     (p, mkSignal k key.1 key.2 e) ∈ O) ->
  node_own L' O' p (set_instance rb (r, s) i).
Proof.
  intros [Hme Hi Hl] Hr HL HO Hinst Ho. constructor; cbn [set_instance me instances floor]; auto.
  - intros key j. destruct (decide (key = (r, s))) as [->|Hne].
    + rewrite lookup_insert_eq. intros [= <-]. auto.
    + rewrite lookup_insert_ne by done. intros Hk. destruct (Hi _ _ Hk) as [? Hinv].
      split; [done|]. eapply inst_inv_mono; eauto.
  - intros sig Hin Hf. destruct (decide ((s_round sig, s_source sig) = (r, s))) as [->|Hne].
    + rewrite lookup_insert_eq. eauto.
    + rewrite lookup_insert_ne by done. apply Hl; [|done].
      destruct sig as [k r' s' e]. apply (Ho (r', s')); done.
Qed.

Lemma node_inv_set_stats L O p rb st : node_own L O p rb -> node_own L O p (set_stats rb st).
Proof. intros [Hme Hi Hl]. by constructor. Qed.

(** What a handler leaves behind at [p]. *)
Definition handled (L : list (nat * Signal)) (p : nat) (rb : ReliableBroadcast)
    (out : list RbcAction) : Prop :=
  log_inv (L ++ broadcasts p out) /\ node_inv (L ++ broadcasts p out) p rb /\
  forall dl, dl ∈ delivered_by p out ->
    delivered_ok (L ++ broadcasts p out) (d_round dl) (d_source dl) (d_digest dl).

Lemma handled_nil L p rb : log_inv L -> node_inv L p rb -> handled L p rb [].
Proof. intros. unfold handled. simpl. rewrite app_nil_r. split_and!; auto. inversion 1. Qed.

Lemma handled_app L p rb1 rb2 o1 o2 :
  handled L p rb1 o1 -> handled (L ++ broadcasts p o1) p rb2 o2 -> handled L p rb2 (o1 ++ o2).
Proof.
  intros (_ & _ & Hd1) (Hl & Hn & Hd2). unfold handled.
  rewrite broadcasts_app, delivered_by_app, app_assoc. split_and!; auto.
  intros dl. rewrite elem_of_app. intros [Hin|Hin]; [|auto].
  eapply delivered_ok_mono; [|by apply Hd1]. set_solver.
Qed.

Lemma inst_inv_delivered L O p r s i d :
  inst_own L O p (r, s) i -> delivered_ok L r s d -> inst_own L O p (r, s) (set_delivered i (Some d)).
Proof.
  intros [Hs Hc Ht Hsent Hprop He Hd] Hok.
  constructor; cbn [set_delivered counted tallies sent proposed delivered]; auto.
  by intros d' [= <-].
Qed.

Lemma set_counted_inv L O p r s i k from :
  inst_own L O p (r, s) i -> ss_contains (pk_get (counted i) k) from = true ->
  (from < committee_size c)%nat ->
  inst_own L O p (r, s) (set_counted i (pk_set (counted i) k
    (ss_insert (pk_get (counted i) k) from (seats c from)).1)).
Proof.
  intros [Hs Hc Ht Hsent Hprop He Hd] Hin Hfrom.
  constructor; cbn [set_counted counted tallies sent proposed delivered]; auto.
  - intros k'. rewrite pk_get_set. case_decide; subst; [|done]. by apply ss_ok_insert.
  - intros d t Hf. eapply tally_inv_mono; [reflexivity| |by apply Ht].
    intros k' j. rewrite pk_get_set. case_decide; subst; [|done].
    rewrite ss_contains_insert, orb_true_iff. auto.
Qed.

Lemma signal_step_inv L p rb from k r s d :
  log_inv L -> node_inv L p rb -> (p < committee_size c)%nat -> faulty p = false ->
  (faulty from = false -> (from, mkSignal k r s d) ∈ L) ->
  let '(rb', out, loop) := signal_step c rb from (mkSignal k r s d) in
  handled L p rb' out /\
  forall k', k' ∈ loop -> (p, mkSignal k' r s d) ∈ L ++ broadcasts p out.
Proof.
  intros HL Hn Hp Hh Hlog. unfold signal_step.
  destruct (r <? floor rb) eqn:Er; simpl.
  { split; [by apply handled_nil|]. inversion 1. }
  destruct (member c s) as [ms|] eqn:Es; simpl.
  2:{ split; [by apply handled_nil|]. inversion 1. }
  destruct (member c from) as [mf|] eqn:Ef; simpl.
  2:{ split; [by apply handled_nil|]. inversion 1. }
  assert (s < committee_size c)%nat as Hs by (apply member_is_Some; eauto).
  assert (from < committee_size c)%nat as Hfrom by (apply member_is_Some; eauto).
  propify. pose proof (entry_inv L L p rb r s Hn Er Hs) as Hi.
  set (i := entry rb (r, s)) in *.
  pose proof (ss_insert_new (pk_get (counted i) k) from (seats c from)) as Hnew.
  pose proof (set_counted_inv L L p r s i k from Hi) as Hsc.
  pose proof (count_signal_inv L L p r s i k d from Hi Hfrom) as Hcs.
  unfold count_signal in Hcs.
  destruct (ss_insert (pk_get (counted i) k) from (seats c from)) as [cs new].
  cbn [fst snd] in *. subst new.
  destruct (ss_contains (pk_get (counted i) k) from); cbn [negb].
  { split; [|inversion 1]. apply handled_nil; [done|].
    eapply node_inv_set; eauto. }
  destruct (Hcs eq_refl Hlog) as [Hi0 Htal]. clear Hcs Hsc.
  set (i0 := set_tallies _ _) in *.
  set (t := default tally_default (tally_find d (tallies i0))) in *.
  pose proof thresholds as (Hth1 & Hth2 & Hth3 & Hth4 & Hth5 & Hth6).
  pose proof (fun E => fire_sound L k from r s d E HL Hfrom Hlog) as Hfire.
  pose proof (fun k T => tally_ev L r s (counted i0) d t k T Htal) as Hev.
  pose proof (fun k T => tally_evw L r s (counted i0) d t k T Htal) as Hevw.
  assert (sending_inv L p r s d (i0, [], [])) as H0.
  { unfold sending_inv. simpl. rewrite app_nil_r. split_and!; auto. inversion 1. }
  eapply (send_if_inv L p r s d (rbc_vote_threshold c <=? pk_get (non_author t) Echo) Vote)
    in H0; auto; [|intros E; propify; apply Hfire; [by apply Hev|];
                   intros; eapply ev_wit; [exact (Hev _ _ E)|lia]].
  eapply (send_if_inv L p r s d ((rbc_ack_threshold c <=? pk_get (non_author t) Echo)
    || (rbc_ack_threshold c <=? pk_get (non_author t) Vote)) Ack)
    in H0; auto; [|intros E; propify; apply Hfire; simpl;
                   [destruct E as [E|E]; propify; [left|right]; by apply Hev|];
                   intros; destruct E as [E|E]; propify;
                   (eapply ev_wit; [exact (Hev _ _ E)|lia])].
  eapply (send_if_inv L p r s d ((rbc_ack_threshold c <=? pk_get (non_author t) Ack)
    || (validity c <=? ss_weight (pk_get (by_kind t) Ready))) Ready)
    in H0; auto.
  2:{ intros E. propify. destruct E as [E|E]; propify.
      - apply Hfire; [by apply Hev|]. intros. eapply ev_wit; [exact (Hev _ _ E)|lia].
      - destruct (evw_honest _ _ _ _ _ _ (Hevw _ _ E)) as (j & Hj & Hjh & Hjl); [lia|].
        destruct (li_just _ HL _ _ _ _ _ Hjl) as (_ & _ & _ & Hsd). exact Hsd. }
  destruct (send_if _ _ _ _ Ready _) as [[i' out] loop].
  destruct H0 as (Hl' & Hi' & Hloop & Ho & Hdv).
  destruct (is_none (delivered i') && _) eqn:Edel.
  - apply andb_true_iff in Edel as [_ Edel]. apply orb_true_iff in Edel.
    assert (delivered_ok (L ++ broadcasts p out) r s d) as Hdok.
    { eapply delivered_ok_mono; [|split; [done|]]; [|].
      2:{ apply Hfire.
          - destruct Edel as [E|E]; propify; [left; exact (Hev Echo _ E)|right; exact (Hevw Ready _ E)].
          - intros Hf1. destruct Edel as [E|E]; propify.
            + eapply ev_wit; [exact (Hev Echo _ E)|lia].
            + destruct (evw_honest _ _ _ _ _ _ (Hevw Ready _ E)) as (j & ?); [lia|eauto]. }
      set_solver. }
    assert (broadcasts p (out ++ [Deliver r s d]) = broadcasts p out) as Hb.
    { rewrite broadcasts_app. simpl. apply app_nil_r. }
    rewrite Hb. split; [|done]. unfold handled. rewrite Hb. split_and!; [done| |].
    + apply node_inv_set_stats. eapply (node_inv_set L _ L); eauto; [set_solver..|].
      by apply inst_inv_delivered.
    + rewrite delivered_by_app, Hdv. simpl. intros dl ->%list_elem_of_singleton. done.
  - split; [|done]. unfold handled. split_and!; [done| |].
    + eapply (node_inv_set L _ L); eauto; set_solver.
    + rewrite Hdv. inversion 1.
Qed.

(** ** Whole handlers *)

Lemma run_loop_inv L p handle rb out loop rb' out' P :
  (forall L rb k, log_inv L -> node_inv L p rb -> P L k ->
     forall rb' o, handle rb k = Some (rb', o) -> handled L p rb' o) ->
  (forall L L' k, L ⊆ L' -> P L k -> P L' k) ->
  handled L p rb out -> (forall k, k ∈ loop -> P (L ++ broadcasts p out) k) ->
  run_loop handle rb out loop = Some (rb', out') -> handled L p rb' out'.
Proof.
  intros Hh Hm. revert rb out. induction loop as [|k loop IH]; intros rb out Hd Hk Hr;
    cbn [run_loop] in Hr; [by simplify_eq|].
  destruct (handle rb k) as [[rb1 o]|] eqn:E; [|done].
  eapply IH; [| |exact Hr].
  - eapply handled_app; [done|]. destruct Hd as (? & ? & _).
    eapply Hh; eauto. apply Hk. by left.
  - intros k' Hin. eapply Hm; [|apply Hk; by right].
    rewrite broadcasts_app. set_solver.
Qed.

Lemma on_signal_fuel_inv fuel L p rb from k r s d rb' out :
  log_inv L -> node_inv L p rb -> (p < committee_size c)%nat -> faulty p = false ->
  (faulty from = false -> (from, mkSignal k r s d) ∈ L) ->
  on_signal_fuel fuel c rb from (mkSignal k r s d) = Some (rb', out) ->
  handled L p rb' out.
Proof.
  intros HL Hn Hp Hh. revert L rb from k rb' out HL Hn.
  induction fuel as [|fuel IH]; intros L rb from k rb' out HL Hn Hlog; [done|].
  cbn [on_signal_fuel s_round s_source s_digest].
  pose proof (signal_step_inv L p rb from k r s d HL Hn Hp Hh Hlog) as Hs.
  destruct (signal_step c rb from (mkSignal k r s d)) as [[rb1 o1] loop].
  destruct Hs as [Hd Hloop].
  eapply (run_loop_inv L p _ rb1 o1 loop rb' out
            (fun L k => (p, mkSignal k r s d) ∈ L)); [| |done|done].
  - intros L' rb2 k' HL' Hn' Hin rb3 o Hs. eapply IH; [exact HL'|exact Hn'| |exact Hs].
    intros _. by rewrite (ni_me _ _ _ _ Hn').
  - auto.
Qed.

Lemma on_signal_inv L p rb from sig :
  log_inv L -> node_inv L p rb -> (p < committee_size c)%nat -> faulty p = false ->
  (faulty from = false -> (from, sig) ∈ L) ->
  handled L p (on_signal c rb from sig).1 (on_signal c rb from sig).2.
Proof.
  intros HL Hn Hp Hh Hlog. destruct sig as [k r s d].
  destruct (on_signal c rb from (mkSignal k r s d)) as [rb' out] eqn:E. simpl.
  eapply on_signal_fuel_inv; [done..|].
  rewrite <-E. apply on_signal_returns.
Qed.
Lemma set_proposed_inv L O p r s i d :
  inst_own L O p (r, s) i -> (faulty s = false -> d = honest_proposal r s) ->
  inst_own L O p (r, s) (set_proposed i (Some d)).
Proof.
  intros [Hs Hc Ht Hsent Hprop He Hd] Hok.
  constructor; cbn [set_proposed counted tallies sent proposed delivered]; auto; [|done].
  by intros d' [= <-].
Qed.

Lemma on_propose_inv L p rb r s d :
  log_inv L -> node_inv L p rb -> (p < committee_size c)%nat -> faulty p = false ->
  (s < committee_size c)%nat -> (faulty s = false -> d = honest_proposal r s) ->
  handled L p (on_propose c rb s r s d).1 (on_propose c rb s r s d).2.
Proof.
  intros HL Hn Hp Hh Hs Hd. unfold on_propose. rewrite Nat.eqb_refl. cbn [negb orb].
  destruct (r <? floor rb) eqn:Er; [by apply handled_nil|]. propify.
  pose proof (entry_inv L L p rb r s Hn Er Hs) as Hi.
  destruct (proposed (entry rb (r, s))) as [d0|] eqn:Ep; cbn [is_none negb].
  { apply handled_nil; [done|]. eapply node_inv_set; eauto. }
  pose proof (ii_echoed _ _ _ _ _ Hi Ep) as Hecho.
  pose proof (set_proposed_inv _ _ _ _ _ _ d Hi Hd) as Hi1.
  destruct (committee_size c =? 1)%nat eqn:E1.
  - assert (delivered_ok L r s d) as Hok.
    { split; [done|]. split; [done|]. propify. assert (s = p) as -> by lia. congruence. }
    unfold handled. simpl. rewrite app_nil_r. split_and!; [done| |].
    + apply node_inv_set_stats. eapply node_inv_set; eauto. by apply inst_inv_delivered.
    + intros dl ->%list_elem_of_singleton. done.
  - set (rb1 := set_instance rb (r, s) (set_sent (set_proposed (entry rb (r, s)) (Some d)) Echo d)).
    change (me rb1) with (me rb). rewrite (ni_me _ _ _ _ Hn).
    assert (handled L p rb1 [Broadcast (mkSignal Echo r s d)]) as H1.
    { unfold handled. simpl. split_and!.
      - apply log_inv_snoc; auto; [by split|]. intros d' Hin.
        apply (ii_sent _ _ _ _ _ Hi) in Hin. congruence.
      - eapply (node_inv_set L _ L); eauto; [set_solver..| |].
        + apply inst_inv_send; auto.
        + intros key k e. rewrite elem_of_app, list_elem_of_singleton.
          intros [?|Heq] Hne; [done|]. destruct key. by simplify_eq.
      - inversion 1. }
    pose proof (on_signal_inv (L ++ broadcasts p [Broadcast (mkSignal Echo r s d)]) p rb1 p
                  (mkSignal Echo r s d)) as H2.
    destruct (on_signal c rb1 p (mkSignal Echo r s d)) as [rb2 out]. simpl in *.
    change (Broadcast (mkSignal Echo r s d) :: out)
      with ([Broadcast (mkSignal Echo r s d)] ++ out).
    eapply handled_app; [exact H1|]. destruct H1 as (? & ? & _).
    apply H2; auto. intros _. simpl. set_solver.
Qed.

(** ** Pruning and restarting *)

Lemma prune_inv L O p rb r : node_own L O p rb -> node_own L O p (rbc_prune_below rb r).
Proof.
  intros Hn. unfold rbc_prune_below. destruct (r <=? floor rb) eqn:E; [done|].
  destruct Hn as [Hme Hi Hl]. propify. constructor; cbn [me instances floor]; [done| |].
  - intros key i. rewrite map_lookup_filter_Some. intros [Hk Hle]. simpl in Hle.
    split; [done|]. by apply Hi.
  - intros sig Hin Hf. destruct (Hl sig Hin) as [i Hi']; [lia|].
    exists i. by apply map_lookup_filter_Some.
Qed.

(** The instance [restore_sent] builds before it recounts its own signal. *)
Definition restored (i : RbcInstance) (k : SignalKind) (d : N) : RbcInstance :=
  let i := set_sent i k d in
  if bool_decide (k = Echo) && is_none (proposed i) then set_proposed i (Some d) else i.

Lemma restored_inv L O p r s i k d :
  inst_own L O p (r, s) i -> log_inv L -> (p, mkSignal k r s d) ∈ L ->
  (forall x, x ∈ O -> x ∈ L) ->
  inst_own L (O ++ [(p, mkSignal k r s d)]) p (r, s) (restored i k d).
Proof.
  intros [Hs Hc Ht Hsent Hprop He Hd] HL Hin HO. cbn [fst snd] in *.
  destruct (li_just _ HL _ _ _ _ _ Hin) as (_ & _ & _ & Hsound & _).
  assert (forall k' d', pk_get (pk_set (sent i) k (Some d)) k' = Some d' <->
    (p, mkSignal k' r s d') ∈ O ++ [(p, mkSignal k r s d)]) as Hsent'.
  { intros k' d'. rewrite pk_get_set, elem_of_app, list_elem_of_singleton.
    destruct (decide (k' = k)) as [->|Hne].
    - split; [intros [= ->]; by right|]. intros [H|H]; [|by simplify_eq].
      f_equal. eapply li_unique; eauto.
    - rewrite Hsent. split; [by left|]. intros [?|?]; [done|]. by simplify_eq. }
  unfold restored. cbn [set_sent proposed].
  destruct (bool_decide (k = Echo) && is_none (proposed i)) eqn:E.
  - constructor; cbn [set_proposed set_sent counted tallies sent proposed delivered fst snd]; auto.
    + by intros d' [= <-].
    + done.
  - constructor; cbn [set_sent counted tallies sent proposed delivered fst snd]; auto.
    intros Hn. rewrite pk_get_set. rewrite Hn in E.
    destruct (decide (Echo = k)) as [<-|]; [|auto]. by rewrite bool_decide_true in E.
Qed.

Lemma restore_sent_inv L O p rb sig :
  node_own L O p rb -> log_inv L -> (p, sig) ∈ L -> (forall x, x ∈ O -> x ∈ L) ->
  node_own L (O ++ [(p, sig)]) p (restore_sent c rb sig).
Proof.
  intros Hn HL Hin HO. destruct sig as [k r s d].
  destruct (li_just _ HL _ _ _ _ _ Hin) as (Hp & Hh & Hs & _).
  unfold restore_sent. rewrite (ni_me _ _ _ _ Hn).
  destruct (proj2 (member_is_Some c s) Hs) as [m ->]. cbn [is_none]. rewrite orb_false_r.
  destruct (r <? floor rb) eqn:Er; propify.
  { destruct Hn as [Hme Hi Hl]. constructor; [done| |].
    - intros key i Hk. destruct (Hi key i Hk) as [Hf Hinv]. split; [done|].
      eapply inst_inv_mono; [| | |exact Hinv]; [done|set_solver|].
      intros k' d'. rewrite elem_of_app, list_elem_of_singleton. intros [?|?]; [done|].
      simplify_eq. lia.
    - intros sig. rewrite elem_of_app, list_elem_of_singleton.
      intros [?|?] Hf; [auto|]. simplify_eq. simpl in Hf. lia. }
  pose proof (entry_inv L O p rb r s Hn Er Hs) as Hi.
  pose proof (restored_inv L O p r s _ k d Hi HL Hin HO) as Hr.
  fold (restored (entry rb (r, s)) k d). set (i := restored _ k d) in *.
  pose proof (ss_insert_new (pk_get (counted i) k) p (seats c p)) as Hnew.
  pose proof (set_counted_inv _ _ p r s i k p Hr) as Hsc.
  pose proof (count_signal_inv _ _ p r s i k d p Hr Hp) as Hcs. unfold count_signal in Hcs.
  destruct (ss_insert (pk_get (counted i) k) p (seats c p)) as [cs new].
  cbn [fst snd] in *. subst new.
  eapply (node_inv_set L L O); eauto; [set_solver| |].
  - destruct (ss_contains (pk_get (counted i) k) p); cbn [negb]; [auto|].
    by destruct (Hcs eq_refl).
  - intros key k' e. rewrite elem_of_app, list_elem_of_singleton.
    intros [?|Heq] Hne; [done|]. destruct key. by simplify_eq.
Qed.

Lemma restore_delivered_inv L O p rb r s d :
  node_own L O p rb -> delivered_ok L r s d -> node_own L O p (restore_delivered rb r s d).
Proof.
  intros Hn Hok. unfold restore_delivered. destruct (r <? floor rb) eqn:Er; [done|]. propify.
  pose proof (entry_inv L O p rb r s Hn Er (proj1 Hok)) as Hi.
  eapply (node_inv_set L L O); eauto. apply inst_inv_delivered; [done|].
  destruct (delivered (entry rb (r, s))) eqn:Ed; simpl; [|done]. by apply (ii_delivered _ _ _ _ _ Hi).
Qed.

(** The signals a replay has restored. *)
Definition restored_signals (p : nat) (ops : list RestoreOp) : list (nat * Signal) :=
  omap (fun op => match op with RestoreSent s => Some (p, s) | _ => None end) ops.

Lemma replay_inv L p ops :
  log_inv L -> (forall sig, RestoreSent sig ∈ ops -> (p, sig) ∈ L) ->
  (forall r s d, RestoreDelivered r s d ∈ ops -> delivered_ok L r s d) ->
  node_own L (restored_signals p ops) p (foldl (restore_op c) (rbc_new p) ops).
Proof.
  intros HL. induction ops as [|op ops IH] using rev_ind; intros Hsent Hdel.
  { constructor; simpl; [done|set_solver|]. intros sig Hin. inversion Hin. }
  rewrite foldl_app. unfold restored_signals. rewrite omap_app. fold (restored_signals p ops).
  assert (node_own L (restored_signals p ops) p (foldl (restore_op c) (rbc_new p) ops)) as Hn.
  { apply IH; [intros; apply Hsent|intros; apply Hdel]; set_solver. }
  destruct op as [sig|r s d|r]; cbn [foldl restore_op omap list_omap]; rewrite ?app_nil_r.
  - apply restore_sent_inv; auto; [apply Hsent; set_solver|].
    intros x. unfold restored_signals. rewrite list_elem_of_omap.
    intros ([] & Hin & ?); simplify_eq. apply Hsent. set_solver.
  - apply restore_delivered_inv; auto. apply Hdel. set_solver.
  - by apply prune_inv.
Qed.

Lemma node_own_full L O p rb :
  node_own L O p rb -> (forall sig, (p, sig) ∈ O <-> (p, sig) ∈ L) -> node_inv L p rb.
Proof.
  intros [Hme Hi Hl] HO. constructor; [done| |].
  - intros key i Hk. destruct (Hi key i Hk) as [Hf [Hs Hc Ht Hsent Hprop He Hd]].
    split; [done|]. constructor; auto. intros k d. rewrite Hsent. apply HO.
  - intros sig Hin. apply Hl. by apply HO.
Qed.

Lemma restart_inv L p ops :
  log_inv L -> (forall sig, RestoreSent sig ∈ ops <-> (p, sig) ∈ L) ->
  (forall r s d, RestoreDelivered r s d ∈ ops -> delivered_ok L r s d) ->
  node_inv L p (foldl (restore_op c) (rbc_new p) ops).
Proof.
  intros HL Hsent Hdel. apply (node_own_full _ (restored_signals p ops)).
  - apply replay_inv; [done| |done]. intros. by apply Hsent.
  - intros sig. rewrite <-Hsent. unfold restored_signals. rewrite list_elem_of_omap. split.
    + intros ([] & Hin & ?); by simplify_eq.
    + intros Hin. by exists (RestoreSent sig).
Qed.

(** ** Reachable worlds *)

Lemma world_inv_handled w p rb out :
  world_inv w -> handled (log w) p rb out ->
  world_inv (apply_actions w p (rb, out)).
Proof.
  intros [HL Hn Hd] (HL' & Hn' & Hd'). constructor; cbn [apply_actions log nodes deliveries fst snd].
  - done.
  - intros q. unfold set_node. case_decide as Hq; [by subst|].
    eapply node_inv_mono; [| |apply Hn]; [set_solver|].
    intros sig. rewrite elem_of_app. intros [?|Hin]; [done|]. by apply broadcasts_node in Hin.
  - intros dl. rewrite elem_of_app. intros [?|?]; [|auto].
    eapply delivered_ok_mono; [|by apply Hd]. set_solver.
Qed.

Lemma world_inv_node w p rb :
  world_inv w -> node_inv (log w) p rb ->
  world_inv (mkWorld (set_node (nodes w) p rb) (log w) (deliveries w)).
Proof.
  intros [HL Hn Hd] Hp. constructor; simpl; [done| |done].
  intros q. unfold set_node. by case_decide; subst.
Qed.

Lemma reachable_inv w : reachable w -> world_inv w.
Proof.
  induction 1 as [|w w' _ IH Hs].
  - constructor; simpl; [constructor; intros *; inversion 1| |inversion 1].
    intros p. constructor; simpl; [done|set_solver|inversion 1].
  - destruct Hs as [p r s d Hp Hh Hs Hd|p from sig Hp Hh Hlog|p r|p ops Hsent Hdel].
    + pose proof (on_propose_inv (log w) p (nodes w p) r s d (wi_log _ IH) (wi_node _ IH p)
                    Hp Hh Hs Hd) as H.
      destruct (on_propose _ _ _ _ _ _). by apply world_inv_handled.
    + pose proof (on_signal_inv (log w) p (nodes w p) from sig (wi_log _ IH) (wi_node _ IH p)
                    Hp Hh Hlog) as H.
      destruct (on_signal _ _ _ _). by apply world_inv_handled.
    + apply world_inv_node; [done|]. apply prune_inv, IH.
    + apply world_inv_node; [done|]. apply restart_inv; [apply IH|done|].
      intros r s d Hin. by apply (wi_delivery _ IH (mkDelivery p r s d)), Hdel.
Qed.
(** ** Agreement *)

Lemma ev_weaken L k r s d T T' : T' <= T -> ev L k r s d T -> ev L k r s d T'.
Proof. intros HT (P & ? & ?). exists P. split; [lia|done]. Qed.

(** Under a faulty author two evidences that together exceed the seats by the
    faulty ones share an honest sender, who sent one digest. *)
Lemma ev_agree L k r s d1 d2 T1 T2 :
  log_inv L -> (s < committee_size c)%nat -> faulty s = true ->
  ev L k r s d1 T1 -> ev L k r s d2 T2 -> n + f < T1 + T2 + 2 -> d1 = d2.
Proof.
  intros HL Hs Hf (P1 & HT1 & HP1) (P2 & HT2 & HP2) Hlt.
  pose proof (na_all s Hs). pose proof (na_faulty s Hs Hf).
  destruct (wsum_honest_member (fun i => non_broadcaster_weight c i s) (committee_size c)
              (fun i => P1 i && P2 i) faulty (na_weight c s faulty)) as (j & Hj & HPj & Hh).
  - done.
  - apply wsum_intersect. unfold na_weight in *. lia.
  - apply andb_true_iff in HPj as [H1 H2]. eapply li_unique; eauto.
Qed.

Section faulty_author.
Context (L : list (nat * Signal)) (r : Round) (s : ValidatorIndex).
Context (HL : log_inv L) (Hs : (s < committee_size c)%nat) (Hf : faulty s = true).

Lemma ack_honest k d : ev L k r s d (rbc_ack_threshold c) -> just L k r s d.
Proof.
  intros He. pose proof thresholds. pose proof (faulty_pos s Hs Hf).
  destruct (ev_honest _ _ _ _ _ _ He) as (j & Hj & Hjh & Hin); [lia|].
  destruct (li_just _ HL _ _ _ _ _ Hin) as (_ & _ & _ & _ & H').
  by apply H'.
Qed.

Lemma ack_echo d :
  ev L Ack r s d (rbc_ack_threshold c) -> ev L Echo r s d (rbc_vote_threshold c).
Proof.
  intros He. apply ack_honest in He as [He|He].
  - eapply ev_weaken; [|exact He]. pose proof (faulty_pos s Hs Hf).
    unfold rbc_vote_threshold, rbc_ack_threshold, div_ceil, f in *. lia.
  - by apply ack_honest in He.
Qed.

Lemma ready_ack d :
  evw L Ready r s d (ready_delivery c) -> ev L Ack r s d (rbc_ack_threshold c).
Proof.
  intros He. pose proof thresholds.
  destruct (evw_honest _ _ _ _ _ _ He) as (j & Hj & Hjh & Hin); [lia|].
  destruct (li_just _ HL _ _ _ _ _ Hin) as (_ & _ & _ & _ & H').
  by apply H'.
Qed.

Lemma faulty_author_agree d1 d2 :
  ev L Echo r s d1 (rbc_fast_threshold c) \/ evw L Ready r s d1 (ready_delivery c) ->
  ev L Echo r s d2 (rbc_fast_threshold c) \/ evw L Ready r s d2 (ready_delivery c) ->
  d1 = d2.
Proof.
  pose proof thresholds. pose proof (faulty_pos s Hs Hf).
  assert (forall d d', ev L Echo r s d (rbc_fast_threshold c) ->
    evw L Ready r s d' (ready_delivery c) -> d = d') as Hmix.
  { intros d d' H1 H2%ready_ack%ack_echo. eapply ev_agree; eauto. lia. }
  intros [H1|H1] [H2|H2]; [|by apply Hmix|symmetry; by apply Hmix|].
  - eapply ev_agree; eauto. lia.
  - apply ready_ack in H1, H2. eapply ev_agree; eauto. lia.
Qed.
End faulty_author.

Lemma delivered_agree L r s d1 d2 :
  log_inv L -> delivered_ok L r s d1 -> delivered_ok L r s d2 -> d1 = d2.
Proof.
  intros HL (Hs & H1 & H1') (_ & H2 & H2'). destruct (faulty s) eqn:E.
  - eapply faulty_author_agree; eauto.
  - rewrite H1, H2; done.
Qed.
End network.

(** ** Running a schedule of events *)

Inductive NetEvent :=
| EvPropose (p : ValidatorIndex) (r : Round) (s : ValidatorIndex) (d : Digest)
| EvSignal (p from : ValidatorIndex) (sig : Signal)
| EvPrune (p : ValidatorIndex) (r : Round).

Section run.
Context (c : Committee) (faulty : ValidatorIndex -> bool).
Context (honest_proposal : Round -> ValidatorIndex -> Digest).

Definition event_ok (w : World) (e : NetEvent) : bool :=
  match e with
  | EvPropose p r s d =>
      (p <? committee_size c)%nat && negb (faulty p) && (s <? committee_size c)%nat
      && (faulty s || (d =? honest_proposal r s))
  | EvSignal p from sig =>
      (p <? committee_size c)%nat && negb (faulty p)
      && (faulty from || bool_decide ((from, sig) ∈ log w))
  | EvPrune _ _ => true
  end.

Definition exec_event (w : World) (e : NetEvent) : World :=
  match e with
  | EvPropose p r s d => apply_actions w p (on_propose c (nodes w p) s r s d)
  | EvSignal p from sig => apply_actions w p (on_signal c (nodes w p) from sig)
  | EvPrune p r => mkWorld (set_node (nodes w) p (rbc_prune_below (nodes w p) r))
                     (log w) (deliveries w)
  end.

(** Runs the events in order; [None] when one is not a step of the network. *)
Fixpoint run (w : World) (evs : list NetEvent) : option World :=
  match evs with
  | [] => Some w
  | e :: evs => if event_ok w e then run (exec_event w e) evs else None
  end.

Lemma run_reachable w evs w' :
  reachable c faulty honest_proposal w -> run w evs = Some w' ->
  reachable c faulty honest_proposal w'.
Proof.
  revert w. induction evs as [|e evs IH]; intros w Hr Hw; cbn [run] in Hw; [by simplify_eq|].
  destruct (event_ok w e) eqn:E; [|done]. eapply IH; [|exact Hw].
  eapply reach_step; [exact Hr|]. destruct e as [p r s d|p from sig|p r]; cbn [event_ok exec_event] in *.
  - apply andb_true_iff in E as [E E4]. propify.
    constructor; auto. intros Hs. rewrite Hs in E4. by destruct E4.
  - apply andb_true_iff in E as [E E3]. propify. constructor; auto.
    intros Hs. rewrite Hs in E3. destruct E3 as [|E3]; [done|]. by apply bool_decide_eq_true in E3.
  - constructor.
Qed.
End run.

(** ** Agreement and integrity *)

(** C8: reliable broadcast agreement. In every reachable state of the network,
    with faulty validators holding at most [max_faulty] seats, any two
    deliveries of the instance of a round and an author carry one digest: at
    one validator or two, before or after pruning and restarts, whatever the
    author and the other faulty validators sent. *)
Theorem rbc_agreement c faulty honest_proposal w d1 d2 :
  CommitteeWf c -> weight c faulty <= max_faulty c ->
  reachable c faulty honest_proposal w ->
  d1 ∈ deliveries w -> d2 ∈ deliveries w ->
  d_round d1 = d_round d2 -> d_source d1 = d_source d2 -> d_digest d1 = d_digest d2.
Proof.
  intros wf Hf Hr H1 H2 Er Es.
  destruct (reachable_inv c faulty honest_proposal wf Hf w Hr) as [HL _ Hd].
  apply Hd in H1, H2. rewrite Er, Es in H1. eapply delivered_agree; eauto.
Qed.

(** C9: integrity. What a validator delivers for an honest author, in any
    reachable state, is the one digest that author proposed in the round; and
    each honest validator sends at most one digest per kind in an instance,
    across restarts. *)
Theorem rbc_integrity c faulty honest_proposal w :
  CommitteeWf c -> weight c faulty <= max_faulty c ->
  reachable c faulty honest_proposal w ->
  (forall d, d ∈ deliveries w -> faulty (d_source d) = false ->
     d_digest d = honest_proposal (d_round d) (d_source d)) /\
  (forall p k r s x y, (p, mkSignal k r s x) ∈ log w -> (p, mkSignal k r s y) ∈ log w -> x = y).
Proof.
  intros wf Hf Hr.
  destruct (reachable_inv c faulty honest_proposal wf Hf w Hr) as [HL _ Hd]. split.
  - intros d Hin Hs. destruct (Hd d Hin) as (_ & H & _). auto.
  - intros. eapply li_unique; eauto.
Qed.

(** Validator 3 is faulty and proposes 7 to validators 0 and 1, 8 to
    validator 2; validators 0 and 1 deliver 7 once each has the other's echo. *)
Definition split_run : option World :=
  run four_seats (fun i => (i =? 3)%nat) (fun _ _ => 0) init_world
    [EvPropose 0 1 3 7; EvPropose 1 1 3 7; EvPropose 2 1 3 8;
     EvSignal 0 1 (mkSignal Echo 1 3 7); EvSignal 1 0 (mkSignal Echo 1 3 7);
     EvSignal 2 3 (mkSignal Echo 1 3 8)].

Lemma rbc_agreement_witness :
  exists w, split_run = Some w /\
    deliveries w = [mkDelivery 0 1 3 7; mkDelivery 1 1 3 7] /\
    forall d, d ∈ deliveries w -> d_round d = 1 -> d_source d = 3%nat -> d_digest d = 7.
Proof.
  destruct split_run as [w|] eqn:E; [|vm_compute in E; discriminate].
  assert (deliveries w = [mkDelivery 0 1 3 7; mkDelivery 1 1 3 7]) as Hd
    by (vm_compute in E; injection E as <-; reflexivity).
  exists w. split_and!; [done|done|]. intros d Hin Hr Hs.
  apply (rbc_agreement four_seats (fun i => (i =? 3)%nat) (fun _ _ => 0) w d
           (mkDelivery 0 1 3 7)); [apply four_seats_wf|vm_compute; done| |done| |done|done].
  - eapply run_reachable; [apply reach_init|exact E].
  - rewrite Hd. left.
Defined.

(** The same committee with the honest validator 0 as author. *)
Definition honest_run : option World :=
  run four_seats (fun i => (i =? 3)%nat) (fun _ _ => 9) init_world
    [EvPropose 1 1 0 9; EvPropose 2 1 0 9; EvSignal 1 3 (mkSignal Echo 1 0 5);
     EvSignal 1 2 (mkSignal Echo 1 0 9)].

Lemma rbc_integrity_witness :
  exists w, honest_run = Some w /\ deliveries w = [mkDelivery 1 1 0 9] /\
    forall d, d ∈ deliveries w -> d_source d = 0%nat -> d_digest d = 9.
Proof.
  destruct honest_run as [w|] eqn:E; [|vm_compute in E; discriminate].
  assert (deliveries w = [mkDelivery 1 1 0 9]) as Hd
    by (vm_compute in E; injection E as <-; reflexivity).
  exists w. split_and!; [done|done|]. intros d Hin Hs.
  apply (rbc_integrity four_seats (fun i => (i =? 3)%nat) (fun _ _ => 9) w);
    [apply four_seats_wf|vm_compute; done| |done|by rewrite Hs].
  eapply run_reachable; [apply reach_init|exact E].
Defined.
