(* ===== verification/Vertex.v ===== *)
(** DAG vertices ([tenzro-consensus/src/vertex.rs]).

    A vertex is one author's contribution to one round. This file holds its
    data, the reference queries, and [check_structure], the check every
    proposed or fetched vertex passes before it is used. The digest that names
    a vertex is BLAKE3 of its bincode encoding, a parameter of the files that
    need it. *)

From stdpp Require Import prelude gmap list sorting strings.
From Stdlib Require Import NArith ZArith Lia.
From S2P Require Import Prelude Committee.

#[local] Open Scope N_scope.

(** ** Data *)

Record VertexRef := mkRef {
  r_round : Round;
  r_source : ValidatorIndex;
  r_digest : Digest;
}.

#[global] Instance VertexRef_eq_dec : EqDecision VertexRef.
Proof. solve_decision. Defined.

(** The derived order: round, then source, then digest. *)
Definition ref_le (a b : VertexRef) : Prop :=
  r_round a < r_round b \/
  (r_round a = r_round b /\
   ((r_source a < r_source b)%nat \/
    (r_source a = r_source b /\ r_digest a <= r_digest b))).

#[global] Instance ref_le_dec a b : Decision (ref_le a b).
Proof. unfold ref_le. apply _. Defined.

Record BatchRef := mkBatchRef {
  b_sequence : N;
  b_digest : Digest;
  b_bytes : N;
  b_transactions : N;
}.

#[global] Instance BatchRef_eq_dec : EqDecision BatchRef.
Proof. solve_decision. Defined.

Record CarriedBatch := mkCarried {
  cb_author : ValidatorIndex;
  cb_batch : BatchRef;
}.

#[global] Instance CarriedBatch_eq_dec : EqDecision CarriedBatch.
Proof. solve_decision. Defined.

Record Vertex := mkVertex {
  v_epoch : N;
  v_round : Round;
  v_source : ValidatorIndex;
  v_strong : list VertexRef;
  v_weak : list VertexRef;
  v_batches : list BatchRef;
  v_carried : list CarriedBatch;
  v_timestamp_ms : N;
}.

#[global] Instance Vertex_eq_dec : EqDecision Vertex.
Proof. solve_decision. Defined.

Definition MAX_REFS : nat := N.to_nat 4096.
Definition MAX_BATCH_REFS : nat := N.to_nat 4096.
Definition MAX_CARRIED : nat := N.to_nat 4096.

(** ** Queries *)

(** [digest] is [Vertex::digest]: BLAKE3 of the encoding. *)
Definition reference (digest : Vertex -> Digest) (v : Vertex) : VertexRef :=
  mkRef (v_round v) (v_source v) (digest v).

Definition references (v : Vertex) (r : VertexRef) : bool :=
  existsb (fun s => bool_decide (s = r)) (v_strong v).

Definition references_author (v : Vertex) (source : ValidatorIndex) : bool :=
  existsb (fun s => (r_source s =? source)%nat) (v_strong v).

(** ** Structure *)

(** [windows(2).any(..)]. *)
Fixpoint any_window {A} (f : A -> A -> bool) (l : list A) : bool :=
  match l with
  | a :: ((b :: _) as l') => f a b || any_window f l'
  | _ => false
  end.

Definition not_consecutive (a b : BatchRef) : bool :=
  negb (bool_decide (checked_add64 (b_sequence a) 1 = Some (b_sequence b))).

(** [(a.author, a.batch.sequence) >= (b.author, b.batch.sequence)]. *)
Definition carried_ge (a b : CarriedBatch) : bool :=
  (cb_author b <? cb_author a)%nat ||
  ((cb_author b =? cb_author a)%nat && (b_sequence (cb_batch b) <=? b_sequence (cb_batch a))).

(** The source's error is [ConsensusError::InvalidVertex] with its reason. *)
Inductive InvalidVertex :=
| OtherEpoch
| AuthorNotMember
| TooManyReferences
| BatchesNotConsecutive
| CarriedNotOthers
| CarriedNotSorted
| RoundZeroParents
| StrongOtherRound
| StrongNonMember
| StrongTwiceOneAuthor
| StrongBelowQuorum
| WeakNotOlderMember.

(** The loop over the strong references, with the seats inserted so far. *)
Fixpoint strong_seats (c : Committee) (previous : Round) (seen : SeatSet)
    (refs : list VertexRef) : result InvalidVertex SeatSet :=
  match refs with
  | [] => Ok seen
  | s :: refs =>
      check? (r_round s =? previous) else StrongOtherRound in
      check? (bool_decide (is_Some (member c (r_source s)))) else StrongNonMember in
      let '(seen, new) := ss_insert seen (r_source s) (seats c (r_source s)) in
      check? new else StrongTwiceOneAuthor in
      strong_seats c previous seen refs
  end.

Definition check_structure (c : Committee) (v : Vertex) : result InvalidVertex unit :=
  check? (v_epoch v =? c_epoch c) else OtherEpoch in
  check? (bool_decide (is_Some (member c (v_source v)))) else AuthorNotMember in
  check? (negb ((MAX_REFS <? length (v_strong v))%nat || (MAX_REFS <? length (v_weak v))%nat
                || (MAX_BATCH_REFS <? length (v_batches v))%nat
                || (MAX_CARRIED <? length (v_carried v))%nat)) else TooManyReferences in
  check? (negb (any_window not_consecutive (v_batches v))) else BatchesNotConsecutive in
  check? (negb (existsb (fun b => (cb_author b =? v_source v)%nat
                           || bool_decide (member c (cb_author b) = None)) (v_carried v)))
    else CarriedNotOthers in
  check? (negb (any_window carried_ge (v_carried v))) else CarriedNotSorted in
  if v_round v =? 0 then
    check? (bool_decide (v_strong v = []) && bool_decide (v_weak v = []))
      else RoundZeroParents in
    Ok tt
  else
    let previous := v_round v - 1 in
    let? seats := strong_seats c previous ss_new (v_strong v) in
    check? (negb (ss_weight seats <? quorum c)) else StrongBelowQuorum in
    check? (negb (existsb (fun w => (previous <=? r_round w)
                             || bool_decide (member c (r_source w) = None)) (v_weak v)))
      else WeakNotOlderMember in
    Ok tt.

(** ** What the check establishes *)

Definition strong_author (v : Vertex) (s : ValidatorIndex) : bool :=
  bool_decide (s ∈ (r_source <$> v_strong v)).

Lemma references_author_spec v s : references_author v s = strong_author v s.
Proof.
  unfold references_author, strong_author. apply eq_bool_prop_intro.
  rewrite !Is_true_true, bool_decide_eq_true, existsb_exists, list_elem_of_fmap.
  split; intros (x & H1 & H2).
  - apply Nat.eqb_eq in H2. exists x. split; [done|]. by apply list_elem_of_In.
  - exists x. apply list_elem_of_In in H2. split; [done|]. apply Nat.eqb_eq. done.
Qed.

Lemma strong_seats_spec c previous seen refs seen' :
  CommitteeWf c -> ss_ok c seen -> strong_seats c previous seen refs = Ok seen' ->
  ss_ok c seen' /\
  Forall (fun r => r_round r = previous /\ (r_source r < committee_size c)%nat) refs /\
  NoDup (r_source <$> refs) /\
  (forall j, ss_contains seen' j = ss_contains seen j || bool_decide (j ∈ (r_source <$> refs))) /\
  Forall (fun r => ss_contains seen (r_source r) = false) refs.
Proof.
  intros wf. revert seen. induction refs as [|r refs IH]; intros seen Hok H; cbn [strong_seats] in H.
  { inv_ok. split_and!; try done; [constructor|]. intros j.
    by rewrite bool_decide_false, orb_false_r by (by intros ?%elem_of_nil). }
  inv_ok. propify.
  assert (r_source r < committee_size c)%nat as Hlt by by apply member_is_Some.
  pose proof (ss_insert_new seen (r_source r) (seats c (r_source r))) as Hnew.
  pose proof (ss_contains_insert seen (r_source r) (seats c (r_source r))) as Hc.
  pose proof (ss_ok_insert c seen (r_source r) wf Hok Hlt) as Hok'.
  destruct (ss_insert seen (r_source r) (seats c (r_source r))) as [s1 new].
  cbn [fst snd] in *. inv_ok. symmetry in Hnew. apply negb_true_iff in Hnew.
  destruct (IH s1 Hok' H) as (? & HF & Hnd & Hc' & Hfr).
  split_and!; [done|by constructor| | |].
  - rewrite fmap_cons. constructor; [|done]. intros (x & Hx & Hin)%list_elem_of_fmap.
    rewrite Forall_forall in Hfr. specialize (Hfr x Hin). rewrite Hc, <-Hx, Nat.eqb_refl in Hfr.
    by rewrite orb_true_r in Hfr.
  - intros j. rewrite Hc', Hc, <-orb_assoc. f_equal. rewrite fmap_cons.
    destruct (Nat.eqb_spec j (r_source r)) as [->|Hne]; simpl.
    + symmetry. apply bool_decide_true. left.
    + apply bool_decide_ext. rewrite elem_of_cons. naive_solver.
  - constructor; [done|]. eapply Forall_impl; [exact Hfr|]. intros x Hx. cbn in Hx.
    rewrite Hc in Hx. by apply orb_false_iff in Hx as [? _].
Qed.

Lemma strong_seats_complete c previous seen refs :
  Forall (fun r => r_round r = previous /\ (r_source r < committee_size c)%nat) refs ->
  NoDup (r_source <$> refs) ->
  Forall (fun r => ss_contains seen (r_source r) = false) refs ->
  is_ok (strong_seats c previous seen refs) = true.
Proof.
  revert seen. induction refs as [|r refs IH]; intros seen HF Hnd Hfr; [done|].
  apply Forall_cons in HF as [[Hr Hlt] HF]. apply Forall_cons in Hfr as [Hf Hfr].
  rewrite fmap_cons in Hnd. apply NoDup_cons in Hnd as [Hni Hnd].
  cbn [strong_seats]. unfold guard_r, rbind. rewrite (proj2 (N.eqb_eq _ _) Hr).
  rewrite bool_decide_true by by apply member_is_Some.
  pose proof (ss_insert_new seen (r_source r) (seats c (r_source r))) as Hnew.
  pose proof (ss_contains_insert seen (r_source r) (seats c (r_source r))) as Hc.
  destruct (ss_insert seen (r_source r) (seats c (r_source r))) as [s1 new].
  cbn [fst snd] in *. rewrite Hnew, Hf. cbn [negb]. apply IH; [done..|].
  rewrite Forall_forall in Hfr |- *. intros x Hx. rewrite Hc, (Hfr x Hx). cbn [orb].
  apply Nat.eqb_neq. intros Heq. apply Hni. rewrite <-Heq. by apply list_elem_of_fmap_2.
Qed.

(** Consecutive elements of a list. *)
Definition windows {A} (R : A -> A -> Prop) (l : list A) : Prop :=
  forall i a b, l !! i = Some a -> l !! S i = Some b -> R a b.

Lemma any_window_false {A} (f : A -> A -> bool) l :
  any_window f l = false <-> windows (fun a b => f a b = false) l.
Proof.
  induction l as [|a l IH]; [split; [intros _ i x y Hi; by destruct i|done]|].
  destruct l as [|b l]; cbn [any_window].
  { split; [|done]. intros _ i x y _ Hy. by destruct i. }
  rewrite orb_false_iff, IH. split.
  - intros [Hab Hl] [|i] x y Hx Hy; [by simplify_eq/=|]. by eapply (Hl i).
  - intros H. split; [by apply (H 0%nat)|]. intros i x y Hx Hy. by apply (H (S i)).
Qed.

(** The structure a vertex must have. *)
Record VertexWf (c : Committee) (v : Vertex) : Prop := {
  vw_epoch : v_epoch v = c_epoch c;
  vw_author : (v_source v < committee_size c)%nat;
  vw_sizes : (length (v_strong v) <= MAX_REFS /\ length (v_weak v) <= MAX_REFS /\
              length (v_batches v) <= MAX_BATCH_REFS /\ length (v_carried v) <= MAX_CARRIED)%nat;
  vw_batches : windows (fun a b => b_sequence b = b_sequence a + 1 /\ b_sequence b <= U64_MAX)
                 (v_batches v);
  vw_carried : Forall (fun b => cb_author b <> v_source v /\
                         (cb_author b < committee_size c)%nat) (v_carried v);
  vw_carried_sorted :
    windows (fun a b => (cb_author a < cb_author b)%nat \/
               (cb_author a = cb_author b /\
                b_sequence (cb_batch a) < b_sequence (cb_batch b))) (v_carried v);
  vw_zero : v_round v = 0 -> v_strong v = [] /\ v_weak v = [];
  vw_strong : v_round v <> 0 ->
    Forall (fun r => r_round r + 1 = v_round v /\ (r_source r < committee_size c)%nat) (v_strong v);
  vw_distinct : NoDup (r_source <$> v_strong v);
  vw_quorum : v_round v <> 0 -> quorum c <= weight c (strong_author v);
  vw_weak : v_round v <> 0 ->
    Forall (fun r => r_round r + 1 < v_round v /\ (r_source r < committee_size c)%nat) (v_weak v);
}.

Lemma not_consecutive_false a b :
  not_consecutive a b = false <->
  b_sequence b = b_sequence a + 1 /\ b_sequence b <= U64_MAX.
Proof.
  unfold not_consecutive, checked_add64. rewrite negb_false_iff, bool_decide_eq_true.
  destruct (N.leb_spec (b_sequence a + 1) U64_MAX); split; try (intros [= <-]; lia); try done.
  - intros [-> ?]. done.
  - lia.
Qed.

Lemma carried_ge_false a b :
  carried_ge a b = false <->
  (cb_author a < cb_author b)%nat \/
  (cb_author a = cb_author b /\ b_sequence (cb_batch a) < b_sequence (cb_batch b)).
Proof.
  unfold carried_ge. rewrite orb_false_iff, andb_false_iff, Nat.ltb_ge, Nat.eqb_neq, N.leb_gt. lia.
Qed.

Lemma windows_impl {A} (R R' : A -> A -> Prop) l :
  (forall a b, R a b <-> R' a b) -> windows R l <-> windows R' l.
Proof. intros HR. split; intros H i a b Ha Hb; apply HR; eauto. Qed.

Lemma existsb_false {A} (f : A -> bool) l :
  existsb f l = false <-> Forall (fun x => f x = false) l.
Proof.
  induction l as [|a l IH]; simpl; [done|]. by rewrite orb_false_iff, Forall_cons, IH.
Qed.

Lemma member_bad c i : bool_decide (member c i = None) = false <-> (i < committee_size c)%nat.
Proof. rewrite bool_decide_eq_false, member_None. lia. Qed.

Lemma strong_check c v :
  CommitteeWf c -> v_round v <> 0 ->
  (exists ss, strong_seats c (v_round v - 1) ss_new (v_strong v) = Ok ss /\ quorum c <= ss_weight ss)
  <->
  Forall (fun r => r_round r + 1 = v_round v /\ (r_source r < committee_size c)%nat) (v_strong v) /\
  NoDup (r_source <$> v_strong v) /\ quorum c <= weight c (strong_author v).
Proof.
  intros wf Hr.
  assert (forall ss, strong_seats c (v_round v - 1) ss_new (v_strong v) = Ok ss ->
    ss_weight ss = weight c (strong_author v)) as Hw.
  { intros ss Hs. destruct (strong_seats_spec _ _ _ _ _ wf (ss_ok_new c) Hs)
      as ([_ ->] & _ & _ & Hc & _). apply wsum_ext. intros j _.
    by rewrite Hc, ss_contains_new. }
  split.
  - intros (ss & Hs & Hq). rewrite (Hw ss Hs) in Hq.
    destruct (strong_seats_spec _ _ _ _ _ wf (ss_ok_new c) Hs) as (_ & HF & Hnd & _).
    split_and!; [|done|done]. eapply Forall_impl; [exact HF|]. intros x [? ?]. lia.
  - intros (HF & Hnd & Hq).
    assert (is_ok (strong_seats c (v_round v - 1) ss_new (v_strong v)) = true) as Hok.
    { apply strong_seats_complete; [|done|].
      - eapply Forall_impl; [exact HF|]. intros x [? ?]. lia.
      - apply Forall_forall. intros. apply ss_contains_new. }
    destruct (strong_seats _ _ _ _) as [ss|] eqn:E; [|done].
    exists ss. split; [done|]. by rewrite (Hw ss).
Qed.

Lemma weak_check c v :
  v_round v <> 0 ->
  existsb (fun w => (v_round v - 1 <=? r_round w) || bool_decide (member c (r_source w) = None))
    (v_weak v) = false <->
  Forall (fun r => r_round r + 1 < v_round v /\ (r_source r < committee_size c)%nat) (v_weak v).
Proof.
  intros Hnz. rewrite existsb_false. apply Forall_iff. intros b.
  rewrite orb_false_iff, N.leb_gt, member_bad. lia.
Qed.

Lemma check_structure_iff c v :
  CommitteeWf c -> check_structure c v = Ok tt <-> VertexWf c v.
Proof.
  intros wf. unfold check_structure. rewrite !guard_ok.
  rewrite N.eqb_eq, bool_decide_eq_true, member_is_Some, !negb_true_iff, !orb_false_iff,
    !Nat.ltb_ge, !any_window_false, existsb_false.
  rewrite (windows_impl _ _ _ not_consecutive_false), (windows_impl _ _ _ carried_ge_false).
  rewrite (Forall_iff _ _ (fun b => cb_author b <> v_source v /\ (cb_author b < committee_size c)%nat))
    by (intros b; by rewrite orb_false_iff, Nat.eqb_neq, member_bad).
  destruct (N.eqb_spec (v_round v) 0) as [Hz|Hnz].
  - rewrite guard_ok, andb_true_iff, !bool_decide_eq_true. split.
    + intros (? & ? & ? & ? & ? & ? & (Hs & ?) & _).
      constructor; try done; [tauto|..]; rewrite ?Hs; constructor.
    + intros []. split_and!; try tauto; apply vw_zero0; done.
  - rewrite rbind_ok. do 2 setoid_rewrite guard_ok. setoid_rewrite negb_true_iff.
    setoid_rewrite N.ltb_ge.
    pose proof (strong_check c v wf Hnz) as Hsc. pose proof (weak_check c v Hnz) as Hwk.
    split.
    + intros (? & ? & ? & ? & ? & ? & ss & Hss & Hq & Hw & _). apply Hwk in Hw.
      destruct (proj1 Hsc) as (? & ? & ?); [eauto|]. constructor; try done. tauto.
    + intros []. destruct (proj2 Hsc) as (ss & ? & ?); [by auto|].
      split_and!; try tauto. exists ss. split_and!; auto. apply Hwk. auto.
Qed.

(** The structural check accepts a vertex exactly when it is of the epoch
    and of a member, its lists are bounded, the batches it introduces are
    consecutive without overflow, the batches it carries are other members'
    and strictly sorted, a round-0 vertex has no parents, and any other names
    distinct members of the previous round holding a quorum of seats and, as
    weak references, only older rounds. *)
Theorem check_structure_spec c v :
  CommitteeWf c -> check_structure c v = Ok tt <-> VertexWf c v.
Proof. apply check_structure_iff. Qed.

Lemma check_structure_spec_witness :
  VertexWf four_seats
    (mkVertex 0 1 2 [mkRef 0 0 10; mkRef 0 1 11; mkRef 0 3 13] [] [mkBatchRef 0 5 1 1] [] 9).
Proof. apply check_structure_spec; [apply four_seats_wf|vm_compute; reflexivity]. Defined.
