(* ===== verification/Dag.v ===== *)
(** The local DAG of delivered vertices ([tenzro-consensus/src/dag.rs]).

    The maps of the source are finite maps; where the source collects a
    hash map's entries it sorts them or uses them as a set, and the order
    chosen here for such a collection is that of [map_to_list]. The digest of
    a vertex (BLAKE3 of its encoding) is the parameter [digest]. *)

From stdpp Require Import prelude gmap list sorting.
From Stdlib Require Import NArith ZArith Lia.
From S2P Require Import Prelude Committee Vertex.

(** ** State *)

Record Dag := mkDag {
  rounds : gmap Round (gmap ValidatorIndex (Digest * Vertex));
  by_digest : gmap Digest (Round * ValidatorIndex);
  pending : gmap Digest Vertex;
  expected : gmap Digest Round;
  dag_floor : Round;
  dag_seats : list N;
  vouch_seats : N;
  held : gmap Digest Vertex;
  reached_by : gmap Digest (Round * gset ValidatorIndex);
}.

Definition dag_new : Dag := mkDag ∅ ∅ ∅ ∅ 0 [] U64_MAX ∅ ∅.

Definition with_vouching (seats : list N) (vouch : N) : Dag :=
  mkDag ∅ ∅ ∅ ∅ 0 seats vouch ∅ ∅.

Definition set_rounds (g : Dag) x : Dag :=
  mkDag x (by_digest g) (pending g) (expected g) (dag_floor g) (dag_seats g) (vouch_seats g)
    (held g) (reached_by g).
Definition set_by_digest (g : Dag) x : Dag :=
  mkDag (rounds g) x (pending g) (expected g) (dag_floor g) (dag_seats g) (vouch_seats g)
    (held g) (reached_by g).
Definition set_pending (g : Dag) x : Dag :=
  mkDag (rounds g) (by_digest g) x (expected g) (dag_floor g) (dag_seats g) (vouch_seats g)
    (held g) (reached_by g).
Definition set_expected (g : Dag) x : Dag :=
  mkDag (rounds g) (by_digest g) (pending g) x (dag_floor g) (dag_seats g) (vouch_seats g)
    (held g) (reached_by g).
Definition set_held (g : Dag) x : Dag :=
  mkDag (rounds g) (by_digest g) (pending g) (expected g) (dag_floor g) (dag_seats g)
    (vouch_seats g) x (reached_by g).
Definition set_reached_by (g : Dag) x : Dag :=
  mkDag (rounds g) (by_digest g) (pending g) (expected g) (dag_floor g) (dag_seats g)
    (vouch_seats g) (held g) x.

(** ** Queries *)

Definition contains (g : Dag) (d : Digest) : bool := bool_decide (is_Some (by_digest g !! d)).

Definition dag_at (g : Dag) (r : Round) (s : ValidatorIndex) : option (Digest * Vertex) :=
  rounds g !! r ≫= fun m => m !! s.

Definition get (g : Dag) (d : Digest) : option Vertex :=
  '(r, s) ← by_digest g !! d; snd <$> dag_at g r s.

(** The vertices of a round, by author. *)
Definition dag_round (g : Dag) (r : Round) : list (ValidatorIndex * (Digest * Vertex)) :=
  match rounds g !! r with Some m => map_to_list m | None => [] end.

Definition max_key {A} (m : gmap N A) : option N :=
  foldr (fun k acc => Some (from_option (N.max k) k acc)) None (map_to_list m).*1.

Definition highest_round (g : Dag) : option Round := max_key (rounds g).

Definition expected_round (g : Dag) (d : Digest) : option Round := expected g !! d.

Definition is_expected (g : Dag) (d : Digest) : bool := bool_decide (is_Some (expected g !! d)).

Definition dag_len (g : Dag) : nat := size (by_digest g).

(** All references of a vertex, [strong.iter().chain(weak.iter())]. *)
Definition refs_of (v : Vertex) : list VertexRef := v_strong v ++ v_weak v.

Definition missing_refs (g : Dag) (v : Vertex) : list VertexRef :=
  filter (fun r => dag_floor g <= r_round r /\ by_digest g !! r_digest r = None) (refs_of v).

(** ** Accepting vertices *)

Definition expect (g : Dag) (d : Digest) (round : Round) : Dag :=
  if (dag_floor g <=? round) && negb (contains g d)
  then set_expected g (<[d := round]> (expected g)) else g.

(** Work items of [reach]: a reference and the authors that reach it. *)
Abbreviation Work := (list (VertexRef * list ValidatorIndex)) (only parsing).

Definition authors_of (g : Dag) (d : Digest) : list ValidatorIndex :=
  match reached_by g !! d with Some (_, s) => elements s | None => [] end.

Definition accept (g : Dag) (d : Digest) (v : Vertex) : Dag * Work :=
  let authors := authors_of g d in
  let g := set_reached_by g (delete d (reached_by g)) in
  let authors := if bool_decide (v_source v ∈ authors) then authors
                 else authors ++ [v_source v] in
  let work := (fun r => (r, authors)) <$> missing_refs g v in
  (set_pending g (<[d := v]> (pending g)), work).

(** The authors not yet in the entry, inserted as they are met. *)
Fixpoint insert_new (s : gset ValidatorIndex) (authors : list ValidatorIndex)
  : gset ValidatorIndex * list ValidatorIndex :=
  match authors with
  | [] => (s, [])
  | a :: authors =>
      if bool_decide (a ∈ s) then insert_new s authors
      else let '(s, added) := insert_new ({[a]} ∪ s) authors in (s, a :: added)
  end.

Definition authors_weight (g : Dag) (s : gset ValidatorIndex) : N :=
  nsum ((fun a => default 0 (dag_seats g !! a)) <$> elements s) mod 2 ^ 64.

(** One iteration of the loop of [reach]: the popped item, and the items it
    pushes, the last pushed first. *)
Definition reach_item (g : Dag) (r : VertexRef) (authors : list ValidatorIndex) : Dag * Work :=
  let d := r_digest r in
  if (r_round r <? dag_floor g) || contains g d || bool_decide (is_Some (pending g !! d))
  then (g, [])
  else
    let '(round, s) := default (r_round r, ∅) (reached_by g !! d) in
    let '(s, added) := insert_new s authors in
    let g := set_reached_by g (<[d := (round, s)]> (reached_by g)) in
    match added with
    | [] => (g, [])
    | _ =>
        if vouch_seats g <=? authors_weight g s then
          match held g !! d with
          | Some v =>
              let g := set_held g (delete d (held g)) in
              let g := set_expected g (delete d (expected g)) in
              let '(g, work) := accept g d v in
              (g, rev work)
          | None => (set_expected g (<[d := r_round r]> (expected g)), [])
          end
        else
          match held g !! d with
          | Some v => (g, rev ((fun p => (p, added)) <$> missing_refs g v))
          | None => (g, [])
          end
    end.

(** The loop over the work stack, its top first. *)
Fixpoint reach_loop (fuel : nat) (g : Dag) (work : Work) : option Dag :=
  match work with
  | [] => Some g
  | (r, authors) :: work =>
      match fuel with
      | O => None
      | S fuel =>
          let '(g, pushed) := reach_item g r authors in
          reach_loop fuel g (pushed ++ work)
      end
  end.

(** A bound on the iterations: every item pushed for a held vertex follows an
    author added to it, or its acceptance. *)
Definition reach_universe (g : Dag) (work : Work) : gset ValidatorIndex :=
  list_to_set (flat_map snd work)
  ∪ list_to_set (flat_map (fun p => elements p.2.2) (map_to_list (reached_by g)))
  ∪ list_to_set ((fun p => v_source p.2) <$> map_to_list (held g)).

Definition held_potential (a : nat) (g : Dag) (d : Digest) (v : Vertex) : nat :=
  length (refs_of v) * (S a - size (from_option snd ∅ (reached_by g !! d))).

Definition reach_measure (a : nat) (g : Dag) (work : Work) : nat :=
  length work + msum (held_potential a g) (held g).

Definition reach_fuel (g : Dag) (work : Work) : nat :=
  reach_measure (size (reach_universe g work)) g work.

(** [work] is in push order. *)
Definition reach (g : Dag) (work : Work) : Dag :=
  if vouch_seats g =? U64_MAX then g
  else default g (reach_loop (reach_fuel g (rev work)) g (rev work)).

(** ** Draining the pending set *)

(** The pending vertices with no missing reference, in the order of the tuples
    [(Round, ValidatorIndex, Digest)]. *)
Definition ready_refs (g : Dag) : list VertexRef :=
  merge_sort ref_le
    ((fun p => mkRef (v_round p.2) (v_source p.2) p.1)
       <$> filter (fun p => missing_refs g p.2 = []) (map_to_list (pending g))).

(** One pending vertex enters the DAG, unless its slot is taken. *)
Definition enter (st : Dag * list VertexRef) (x : VertexRef) : Dag * list VertexRef :=
  let '(g, inserted) := st in
  let d := r_digest x in
  match pending g !! d with
  | None => st
  | Some v =>
      let g := set_pending g (delete d (pending g)) in
      let slot := default ∅ (rounds g !! v_round v) in
      match slot !! v_source v with
      | Some _ => (set_rounds g (<[v_round v := slot]> (rounds g)), inserted)
      | None =>
          let g := set_by_digest g (<[d := (v_round v, v_source v)]> (by_digest g)) in
          (set_rounds g (<[v_round v := <[v_source v := (d, v)]> slot]> (rounds g)),
           inserted ++ [mkRef (v_round v) (v_source v) d])
      end
  end.

Fixpoint drain_loop (fuel : nat) (g : Dag) (inserted : list VertexRef)
  : option (Dag * list VertexRef) :=
  match ready_refs g with
  | [] => Some (g, inserted)
  | ready =>
      match fuel with
      | O => None
      | S fuel => let '(g, inserted) := foldl enter (g, inserted) ready in
                  drain_loop fuel g inserted
      end
  end.

(** The digests to fetch: missing references of pending and held vertices that
    are neither pending nor held, sorted, each once. *)
Definition missing_digests (g : Dag) : list Digest :=
  let wanted d := pending g !! d = None /\ held g !! d = None in
  let of_vertices (m : gmap Digest Vertex) :=
    filter wanted (r_digest <$> flat_map (fun p => missing_refs g p.2) (map_to_list m)) in
  remove_dups (merge_sort N.le (of_vertices (pending g) ++ of_vertices (held g))).

Definition drain_pending (g : Dag) : Dag * list VertexRef * list Digest :=
  let '(g, inserted) := default (g, []) (drain_loop (size (pending g)) g []) in
  (g, inserted, missing_digests g).

(** ** The entry points *)

Section digest.
Context (digest : Vertex -> Digest).

Definition offer (g : Dag) (v : Vertex) : Dag * list VertexRef * list Digest :=
  let d := digest v in
  if contains g d || (v_round v <? dag_floor g) then (g, [], [])
  else match expected g !! d with
       | None => (g, [], [])
       | Some _ =>
           let g := set_expected g (delete d (expected g)) in
           let g := set_held g (delete d (held g)) in
           let '(g, work) := accept g d v in
           drain_pending (reach g work)
       end.

Definition hold (g : Dag) (v : Vertex) : Dag * list VertexRef * list Digest :=
  let d := digest v in
  if contains g d || bool_decide (is_Some (pending g !! d)) || (v_round v <? dag_floor g)
  then (g, [], [])
  else if is_expected g d then offer g v
  else
    let carried := authors_of g d in
    let refs := missing_refs g v in
    let g := set_held g (<[d := v]> (held g)) in
    let work := match carried with [] => [] | _ => (fun r => (r, carried)) <$> refs end in
    drain_pending (reach g work).
End digest.

(** ** Walks *)

(** One level of [strong_path]: the strong references of the frontier, either
    the target or the next frontier. *)
Definition path_level (g : Dag) (to : VertexRef) (frontier : list Digest)
  : bool * list Digest :=
  let refs := flat_map (fun d => match get g d with Some v => v_strong v | None => [] end)
                frontier in
  (existsb (fun s => (r_round s =? r_round to) && (r_digest s =? r_digest to)) refs,
   remove_dups (r_digest <$> filter (fun s => r_round s <> r_round to) refs)).

Fixpoint path_loop (levels : nat) (g : Dag) (to : VertexRef) (frontier : list Digest) : bool :=
  match levels with
  | O => false
  | S levels =>
      let '(found, next) := path_level g to frontier in
      found || path_loop levels g to next
  end.

Definition strong_path (g : Dag) (from : Digest) (to : VertexRef) : bool :=
  match get g from with
  | None => false
  | Some start =>
      if v_round start <? r_round to then false
      else if from =? r_digest to then true
      else path_loop (N.to_nat (v_round start - r_round to)) g to [from]
  end.

(** The walk of [causal_history]. *)
Fixpoint history_loop (fuel : nat) (g : Dag) (skip : Digest -> bool) (seen : gset Digest)
    (out : list VertexRef) (queue : list Digest) : option (list VertexRef) :=
  match queue with
  | [] => Some out
  | d :: queue =>
      match fuel with
      | O => None
      | S fuel =>
          if skip d || bool_decide (d ∈ seen) then history_loop fuel g skip seen out queue
          else
            let seen := {[d]} ∪ seen in
            match get g d with
            | None => history_loop fuel g skip seen out queue
            | Some v =>
                history_loop fuel g skip seen (out ++ [mkRef (v_round v) (v_source v) d])
                  (queue ++ (r_digest <$> filter (fun r => dag_floor g <= r_round r) (refs_of v)))
            end
      end
  end.

(** The references of all vertices held: no walk takes more steps than these
    and its start. *)
Definition dag_refs (g : Dag) : nat :=
  msum (fun d _ => from_option (fun v => length (refs_of v)) 0%nat (get g d)) (by_digest g).

Definition causal_history (g : Dag) (root : Digest) (skip : Digest -> bool) : list VertexRef :=
  merge_sort ref_le (default [] (history_loop (S (dag_refs g)) g skip ∅ [] [root])).

(** The walk of [orphans_below]. *)
Fixpoint reachable_loop (fuel : nat) (g : Dag) (ordered : Digest -> bool)
    (reachable : gset Digest) (queue : list Digest) : option (gset Digest) :=
  match queue with
  | [] => Some reachable
  | d :: queue =>
      match fuel with
      | O => None
      | S fuel =>
          if bool_decide (d ∈ reachable) then reachable_loop fuel g ordered reachable queue
          else
            let next := match get g d with
                        | None => []
                        | Some v => r_digest <$> filter (fun r => dag_floor g <= r_round r /\
                                                     ordered (r_digest r) = false) (refs_of v)
                        end in
            reachable_loop fuel g ordered ({[d]} ∪ reachable) (queue ++ next)
      end
  end.

(** The vertices of rounds [floor..round), by round then author. The source's
    range panics when the floor is above the round; a validator asks only for a
    round of which its DAG holds a quorum, which is not ([Propose.quorum_round]). *)
Definition vertices_below (g : Dag) (round : Round) : list VertexRef :=
  merge_sort ref_le
    (flat_map (fun p => (fun q => mkRef p.1 q.1 q.2.1) <$> map_to_list p.2)
       (filter (fun p => dag_floor g <= p.1 < round) (map_to_list (rounds g)))).

(** [out.len() == limit] is tested after a push, so a zero limit never stops
    the scan. *)
Definition orphans_below (g : Dag) (round : Round) (roots : list Digest)
    (ordered : Digest -> bool) (limit : nat) : list VertexRef :=
  let reachable := default ∅ (reachable_loop (length roots + dag_refs g) g ordered ∅ roots) in
  let out := filter (fun r => r_digest r ∉ reachable /\ ordered (r_digest r) = false)
               (vertices_below g round) in
  if (limit =? 0)%nat then out else take limit out.

(** ** Pruning *)

Definition dag_prune_below (g : Dag) (round : Round) : Dag * list (Digest * Vertex) :=
  if round <=? dag_floor g then (g, [])
  else
    let keep := filter (fun p => round <= p.1) (rounds g) in
    let pruned := flat_map (fun p => (fun q => q.2) <$> map_to_list p.2)
                    (map_to_list (filter (fun p => p.1 < round) (rounds g))) in
    (mkDag keep
       (foldl (fun m p => delete p.1 m) (by_digest g) pruned)
       (filter (fun p => round <= v_round p.2) (pending g))
       (filter (fun p => round <= p.2) (expected g))
       round (dag_seats g) (vouch_seats g)
       (filter (fun p => round <= v_round p.2) (held g))
       (filter (fun p => round <= p.2.1) (reached_by g)),
     pruned).

(** ** Invariant *)

(** A reference is labelled when it names the round and author of the vertex
    whose digest it carries, as every reference an honest author makes is. *)
Definition labelled (digest : Vertex -> Digest) (r : VertexRef) : Prop :=
  forall v, digest v = r_digest r -> v_round v = r_round r /\ v_source v = r_source r.

Section invariant.
Context (digest : Vertex -> Digest) (good : Vertex -> Prop).

(** A vertex stored under [d]. *)
Definition stored (g : Dag) (d : Digest) (v : Vertex) : Prop :=
  digest v = d /\ dag_floor g <= v_round v /\ good v.

Record DagWf (g : Dag) : Prop := {
  dw_slot r s d v : dag_at g r s = Some (d, v) ->
    by_digest g !! d = Some (r, s) /\ v_round v = r /\ v_source v = s /\ stored g d v;
  dw_digest d r s : by_digest g !! d = Some (r, s) -> exists v, dag_at g r s = Some (d, v);
  dw_pending d v : pending g !! d = Some v -> stored g d v /\ by_digest g !! d = None;
  dw_held d v : held g !! d = Some v -> stored g d v;
  dw_closed d v ref : get g d = Some v -> ref ∈ refs_of v -> labelled digest ref ->
    dag_floor g <= r_round ref -> is_Some (by_digest g !! r_digest ref);
}.

Lemma dag_at_set_rounds g m r s :
  dag_at (set_rounds g m) r s = m !! r ≫= fun m => m !! s.
Proof. done. Qed.

Lemma get_at g d v :
  get g d = Some v <-> exists r s e, by_digest g !! d = Some (r, s) /\ dag_at g r s = Some (e, v).
Proof.
  unfold get. destruct (by_digest g !! d) as [[r s]|]; simpl.
  - destruct (dag_at g r s) as [[e w]|] eqn:E; simpl.
    + split; [intros [= <-]; eauto 10|]. intros (r' & s' & e' & [= <- <-] & H'). congruence.
    + split; [done|]. intros (r' & s' & e' & [= <- <-] & H'). congruence.
  - split; [done|]. by intros (? & ? & ? & ? & _).
Qed.

Lemma get_stored g d v :
  DagWf g -> get g d = Some v ->
  by_digest g !! d = Some (v_round v, v_source v) /\
  dag_at g (v_round v) (v_source v) = Some (d, v) /\ stored g d v.
Proof.
  intros Hwf (r & s & e & Hd & Hat)%get_at.
  destruct (dw_digest _ Hwf _ _ _ Hd) as [v' Hat']. rewrite Hat' in Hat. injection Hat as -> ->.
  destruct (dw_slot _ Hwf _ _ _ _ Hat') as (_ & <- & <- & Hst). done.
Qed.

Lemma at_get g r s d v : DagWf g -> dag_at g r s = Some (d, v) -> get g d = Some v.
Proof.
  intros Hwf Hat. destruct (dw_slot _ Hwf _ _ _ _ Hat) as (Hd & _).
  apply get_at. eauto 10.
Qed.

Lemma by_digest_get g d : DagWf g -> is_Some (by_digest g !! d) <-> is_Some (get g d).
Proof.
  intros Hwf. split.
  - intros [[r s] Hd]. destruct (dw_digest _ Hwf _ _ _ Hd) as [v Hat].
    exists v. by eapply at_get.
  - intros [v Hg]. destruct (get_stored _ _ _ Hwf Hg) as (? & _). eauto.
Qed.

Lemma new_dag_wf ss vouch : DagWf (with_vouching ss vouch).
Proof. by constructor. Qed.

(** Changes that leave the vertices of the DAG and its floor alone. *)
Lemma same_dag_wf g g' :
  DagWf g -> rounds g' = rounds g -> by_digest g' = by_digest g -> dag_floor g' = dag_floor g ->
  (forall d v, pending g' !! d = Some v -> stored g d v /\ by_digest g !! d = None) ->
  (forall d v, held g' !! d = Some v -> stored g d v) -> DagWf g'.
Proof.
  intros [H1 H2 H3 H4 H5] Er Eb Ef Hp Hh.
  assert (forall d v, stored g' d v <-> stored g d v) as Est.
  { intros. unfold stored. by rewrite Ef. }
  assert (forall r s, dag_at g' r s = dag_at g r s) as Eat.
  { intros. unfold dag_at. by rewrite Er. }
  constructor.
  - intros r s d v. rewrite Eat, Eb, Est. apply H1.
  - intros d r s. rewrite Eb. setoid_rewrite Eat. apply H2.
  - intros d v. rewrite Est, Eb. apply Hp.
  - intros d v. rewrite Est. apply Hh.
  - intros d v ref.
    assert (get g' d = get g d) as ->.
    { unfold get. rewrite Eb. destruct (by_digest g !! d) as [[r s]|]; simpl; [|done].
      by rewrite Eat. }
    rewrite Eb, Ef. apply H5.
Qed.

Lemma expect_wf g d r : DagWf g -> DagWf (expect g d r).
Proof.
  intros Hwf. unfold expect. destruct (_ && _); [|done].
  eapply same_dag_wf; eauto; apply Hwf.
Qed.

Lemma accept_wf g d v :
  DagWf g -> stored g d v -> by_digest g !! d = None -> DagWf (accept g d v).1.
Proof.
  intros Hwf Hst Hn. eapply same_dag_wf; [exact Hwf|done..| |apply Hwf].
  cbn [accept fst set_pending pending set_reached_by]. intros d' v'.
  rewrite lookup_insert_Some. intros [[<- <-]|[_ Hp]]; [done|]. by apply Hwf.
Qed.

Lemma contains_false g d : contains g d = false <-> by_digest g !! d = None.
Proof.
  unfold contains. rewrite bool_decide_eq_false, eq_None_not_Some. done.
Qed.

Lemma reach_item_wf g r authors : DagWf g -> DagWf (reach_item g r authors).1.
Proof.
  intros Hwf. unfold reach_item.
  destruct (_ || _) eqn:Eskip; [done|]. propify.
  destruct (default _ _) as [round s]. destruct (insert_new s authors) as [s' added].
  set (g1 := set_reached_by g _).
  assert (DagWf g1) as Hwf1 by (eapply same_dag_wf; eauto; apply Hwf).
  destruct added as [|a added]; [done|].
  destruct (vouch_seats g1 <=? _); destruct (held g1 !! r_digest r) as [v|] eqn:Eh; try done.
  - set (g2 := set_expected (set_held g1 _) _).
    assert (DagWf g2) as Hwf2.
    { eapply same_dag_wf; [exact Hwf1|done..|apply Hwf1|].
      intros d v' Hd. cbn [g2 set_expected set_held held] in Hd.
      apply lookup_delete_Some in Hd as [_ H']. exact (dw_held _ Hwf1 _ _ H'). }
    pose proof (accept_wf g2 (r_digest r) v Hwf2) as Ha.
    destruct (accept g2 (r_digest r) v) as [g3 work]. apply Ha.
    + exact (dw_held _ Hwf1 _ _ Eh).
    + by apply contains_false.
  - eapply same_dag_wf; [exact Hwf1|done..|apply Hwf1|apply Hwf1].
Qed.

Lemma reach_loop_wf fuel g work g' :
  DagWf g -> reach_loop fuel g work = Some g' -> DagWf g'.
Proof.
  revert g work. induction fuel as [|fuel IH]; intros g [|[r authors] work] Hwf H; cbn in H;
    try (by simplify_eq).
  pose proof (reach_item_wf g r authors Hwf) as Hi.
  destruct (reach_item g r authors) as [g1 pushed]. eauto.
Qed.

Lemma reach_wf g work : DagWf g -> DagWf (reach g work).
Proof.
  intros Hwf. unfold reach. destruct (_ =? _); [done|].
  destruct (reach_loop _ _ _) eqn:E; simpl; [|done]. by eapply reach_loop_wf.
Qed.
(** ** Draining keeps the invariant *)

Lemma missing_nil g v :
  missing_refs g v = [] <->
  forall ref, ref ∈ refs_of v -> dag_floor g <= r_round ref -> is_Some (by_digest g !! r_digest ref).
Proof.
  unfold missing_refs. split.
  - intros Hf ref Hin Hr. destruct (by_digest g !! r_digest ref) eqn:E; [eauto|].
    assert (ref ∈ ([] : list VertexRef)) as Hbad
      by (rewrite <-Hf; by apply list_elem_of_filter). by apply elem_of_nil in Hbad.
  - intros H. apply elem_of_nil_inv. intros ref [[Hr Hn] Hin]%list_elem_of_filter.
    destruct (H ref Hin Hr). congruence.
Qed.

(** A vertex with no missing reference enters a free slot. *)
Lemma insert_wf g d v :
  DagWf g -> pending g !! d = Some v -> missing_refs g v = [] ->
  dag_at g (v_round v) (v_source v) = None ->
  let slot := default ∅ (rounds g !! v_round v) in
  DagWf (set_rounds (set_by_digest (set_pending g (delete d (pending g)))
           (<[d := (v_round v, v_source v)]> (by_digest g)))
           (<[v_round v := <[v_source v := (d, v)]> slot]> (rounds g))).
Proof.
  intros Hwf Hp Hm Hfree slot. set (g' := set_rounds _ _).
  destruct (dw_pending _ Hwf _ _ Hp) as [Hst Hnd].
  assert (forall r s, dag_at g' r s =
    if decide (r = v_round v /\ s = v_source v) then Some (d, v) else dag_at g r s) as Hat.
  { intros r s. unfold dag_at. cbn [g' set_rounds rounds].
    destruct (decide (r = v_round v)) as [->|Hr].
    - rewrite lookup_insert_eq. simpl. destruct (decide (s = v_source v)) as [->|Hs].
      + rewrite lookup_insert_eq. by rewrite decide_True.
      + rewrite lookup_insert_ne, decide_False by naive_solver. unfold slot.
        destruct (rounds g !! v_round v); simpl; [done|by rewrite lookup_empty].
    - rewrite lookup_insert_ne, decide_False by naive_solver. done. }
  assert (forall e, e <> d -> by_digest g' !! e = by_digest g !! e) as Hbd.
  { intros e He. cbn. by rewrite lookup_insert_ne. }
  assert (by_digest g' !! d = Some (v_round v, v_source v)) as Hbd'.
  { cbn. by rewrite lookup_insert_eq. }
  assert (forall ref, is_Some (by_digest g !! ref) -> is_Some (by_digest g' !! ref)) as Hgrow.
  { intros e He. destruct (decide (e = d)) as [->|]; [eauto|by rewrite Hbd]. }
  constructor.
  - intros r s e w. rewrite Hat. case_decide as Hrs.
    + destruct Hrs as [-> ->]. intros [= <- <-]. done.
    + intros H'. destruct (dw_slot _ Hwf _ _ _ _ H') as (He & ? & ? & ?).
      rewrite Hbd by (intros ->; congruence). done.
  - intros e r s. destruct (decide (e = d)) as [->|Hne].
    + rewrite Hbd'. intros [= <- <-]. exists v. rewrite Hat, decide_True; done.
    + rewrite Hbd by done. intros He. destruct (dw_digest _ Hwf _ _ _ He) as [w Hw].
      exists w. rewrite Hat, decide_False; [done|]. intros [-> ->]. congruence.
  - intros e w He. cbn in He. apply lookup_delete_Some in He as [Hne He].
    rewrite Hbd by done. exact (dw_pending _ Hwf _ _ He).
  - exact (dw_held _ Hwf).
  - intros e w ref Hg Hin Hl Hf. apply Hgrow. apply get_at in Hg as (r & s & e' & He & Hw).
    rewrite Hat in Hw. case_decide as Hrs.
    + injection Hw as _ <-. apply (proj1 (missing_nil g v) Hm); done.
    + eapply (dw_closed _ Hwf e); eauto. apply get_at. exists r, s, e'.
      destruct (decide (e = d)) as [->|Hne]; [|by rewrite <-Hbd].
      rewrite Hbd' in He. injection He as <- <-. tauto.
Qed.

(** What one entry does to the digests held and to the other pending ones. *)
Lemma enter_wf st x :
  DagWf st.1 -> (forall v, pending st.1 !! r_digest x = Some v -> missing_refs st.1 v = []) ->
  DagWf (enter st x).1 /\
  dag_floor (enter st x).1 = dag_floor st.1 /\
  (forall d, is_Some (by_digest st.1 !! d) -> is_Some (by_digest (enter st x).1 !! d)) /\
  pending (enter st x).1 = delete (r_digest x) (pending st.1) /\
  held (enter st x).1 = held st.1 /\ expected (enter st x).1 = expected st.1 /\
  reached_by (enter st x).1 = reached_by st.1.
Proof.
  destruct st as [g ins]. cbn [fst]. intros Hwf Hm. unfold enter.
  destruct (pending g !! r_digest x) as [v|] eqn:Ep.
  2:{ cbn [fst]. rewrite delete_id by done. split_and!; auto. }
  specialize (Hm v eq_refl).
  pose proof (insert_wf g (r_digest x) v Hwf Ep Hm) as Hins. cbn zeta in Hins.
  set (slot := default ∅ (rounds (set_pending g (delete (r_digest x) (pending g))) !! v_round v)).
  change (default ∅ (rounds g !! v_round v)) with slot in Hins.
  assert (dag_at g (v_round v) (v_source v) = slot !! v_source v) as Hslot.
  { unfold dag_at, slot. cbn [set_pending rounds].
    destruct (rounds g !! v_round v); simpl; [done|by rewrite lookup_empty]. }
  destruct (slot !! v_source v) as [[e w]|] eqn:Es; cbn [fst]; split_and!; try done.
  - assert (rounds g !! v_round v = Some slot) as Hr.
    { unfold slot in *. cbn [set_pending rounds] in *. destruct (rounds g !! v_round v); [done|].
      simpl in Es. by rewrite lookup_empty in Es. }
    eapply same_dag_wf; [exact Hwf|cbn; by rewrite insert_id|done..| |apply Hwf].
    intros d v' Hd. cbn in Hd. apply lookup_delete_Some in Hd as [_ Hd].
    exact (dw_pending _ Hwf _ _ Hd).
  - apply Hins. congruence.
  - intros d Hd. cbn. rewrite lookup_insert_is_Some'. auto.
Qed.
Lemma missing_nil_grow g g' v :
  dag_floor g' = dag_floor g ->
  (forall d, is_Some (by_digest g !! d) -> is_Some (by_digest g' !! d)) ->
  missing_refs g v = [] -> missing_refs g' v = [].
Proof. intros Ef Hg. rewrite !missing_nil, Ef. auto. Qed.

(** The pending digests named by [xs] have no missing reference. *)
Definition all_ready (g : Dag) (xs : list VertexRef) : Prop :=
  forall x v, x ∈ xs -> pending g !! r_digest x = Some v -> missing_refs g v = [].

Lemma enter_all_wf xs st :
  DagWf st.1 -> all_ready st.1 xs ->
  DagWf (foldl enter st xs).1 /\
  held (foldl enter st xs).1 = held st.1 /\ expected (foldl enter st xs).1 = expected st.1 /\
  reached_by (foldl enter st xs).1 = reached_by st.1 /\
  pending (foldl enter st xs).1 = foldl (fun m x => delete (r_digest x) m) (pending st.1) xs.
Proof.
  revert st. induction xs as [|x xs IH]; intros st Hwf Hr; cbn [foldl]; [done|].
  destruct (enter_wf st x Hwf) as (Hwf' & Ef & Hg & Ep & Eh & Ee & Er).
  { intros v. apply Hr. left. }
  rewrite <-Eh, <-Ee, <-Er, <-Ep. apply IH; [done|]. intros y v Hy Hp.
  eapply missing_nil_grow; [exact Ef|exact Hg|]. eapply Hr; [by right|].
  rewrite Ep in Hp. by apply lookup_delete_Some in Hp as [_ ?].
Qed.

Lemma ready_refs_elem g x :
  x ∈ ready_refs g <-> exists v, pending g !! r_digest x = Some v /\ missing_refs g v = [] /\
    r_round x = v_round v /\ r_source x = v_source v.
Proof.
  unfold ready_refs. rewrite merge_sort_Permutation, list_elem_of_fmap.
  setoid_rewrite list_elem_of_filter. split.
  - intros ([d v] & -> & Hm & Hin). apply elem_of_map_to_list in Hin. eauto.
  - intros (v & Hp & Hm & Hr & Hs). exists (r_digest x, v). cbn [fst snd].
    rewrite elem_of_map_to_list. split; [|done]. destruct x; cbn in *; congruence.
Qed.

Lemma ready_all g : all_ready g (ready_refs g).
Proof. intros x v (w & Hp & Hm & _)%ready_refs_elem Hp'. congruence. Qed.

Lemma drain_loop_wf fuel g ins g' ins' :
  DagWf g -> drain_loop fuel g ins = Some (g', ins') ->
  DagWf g' /\ held g' = held g /\ expected g' = expected g /\ reached_by g' = reached_by g /\
  ready_refs g' = [].
Proof.
  revert g ins. induction fuel as [|fuel IH]; intros g ins Hwf H; cbn [drain_loop] in H.
  - destruct (ready_refs g) eqn:E; [|done]. by simplify_eq.
  - pose proof (enter_all_wf (ready_refs g) (g, ins) Hwf (ready_all g)) as He.
    destruct (ready_refs g) as [|x xs] eqn:E; [by simplify_eq|].
    destruct (foldl enter (g, ins) (x :: xs)) as [g1 ins1]. cbn [fst] in He.
    destruct He as (Hwf1 & Eh & Ee & Er & _).
    destruct (IH _ _ Hwf1 H) as (? & ? & ? & ? & ?). split_and!; congruence.
Qed.

Lemma foldl_delete_size (xs : list VertexRef) (m : gmap Digest Vertex) :
  (size (foldl (fun m x => delete (r_digest x) m) m xs) <= size m)%nat.
Proof.
  revert m. induction xs as [|x xs IH]; intros m; cbn [foldl]; [done|].
  etransitivity; [apply IH|]. rewrite map_size_delete. destruct (m !! r_digest x); simpl; lia.
Qed.

(** Every round of draining removes a vertex from the pending set. *)
Lemma drain_loop_total fuel g ins :
  DagWf g -> (size (pending g) <= fuel)%nat -> is_Some (drain_loop fuel g ins).
Proof.
  revert g ins. induction fuel as [|fuel IH]; intros g ins Hwf Hf; cbn [drain_loop].
  - destruct (ready_refs g) as [|x xs] eqn:E; [eauto|].
    assert (x ∈ ready_refs g) as (v & Hp & _)%ready_refs_elem by (rewrite E; left).
    assert (pending g = ∅) as Hemp by (apply map_size_empty_iff; lia).
    rewrite Hemp in Hp. by rewrite lookup_empty in Hp.
  - pose proof (enter_all_wf (ready_refs g) (g, ins) Hwf (ready_all g)) as He.
    destruct (ready_refs g) as [|x xs] eqn:E; [eauto|].
    assert (x ∈ ready_refs g) as (v & Hp & _)%ready_refs_elem by (rewrite E; left).
    destruct (foldl enter (g, ins) (x :: xs)) as [g1 ins1]. cbn [fst] in He.
    destruct He as (Hwf1 & _ & _ & _ & Ep). apply IH; [done|]. rewrite Ep. cbn [foldl].
    pose proof (foldl_delete_size xs (delete (r_digest x) (pending g))) as Hs.
    rewrite map_size_delete, Hp in Hs. simpl in Hs.
    assert (size (pending g) <> 0%nat).
    { intros Hz%map_size_empty_iff. rewrite Hz in Hp. by rewrite lookup_empty in Hp. }
    lia.
Qed.

Lemma drain_pending_spec g :
  DagWf g ->
  let g' := (drain_pending g).1.1 in
  DagWf g' /\ held g' = held g /\ expected g' = expected g /\ reached_by g' = reached_by g /\
  ready_refs g' = [].
Proof.
  intros Hwf. unfold drain_pending.
  destruct (drain_loop_total (size (pending g)) g [] Hwf (le_n _)) as [[g' ins'] E].
  rewrite E. simpl. by eapply drain_loop_wf.
Qed.

(** ** The entry points keep the invariant *)

Lemma offer_wf g v : DagWf g -> good v -> DagWf (offer digest g v).1.1.
Proof.
  intros Hwf Hv. unfold offer. destruct (_ || _) eqn:E; [done|]. propify.
  destruct (expected g !! digest v); [|done].
  set (g1 := set_held _ _).
  assert (DagWf g1) as Hwf1.
  { eapply same_dag_wf; [exact Hwf|done..|apply Hwf|].
    intros d w Hd. cbn in Hd. apply lookup_delete_Some in Hd as [_ Hd].
    exact (dw_held _ Hwf _ _ Hd). }
  pose proof (accept_wf g1 (digest v) v Hwf1) as Ha.
  destruct (accept g1 (digest v) v) as [g2 work]. cbn [fst] in Ha.
  apply drain_pending_spec, reach_wf, Ha; [done|]. by apply contains_false.
Qed.

Lemma hold_wf g v : DagWf g -> good v -> DagWf (hold digest g v).1.1.
Proof.
  intros Hwf Hv. unfold hold. destruct (_ || _) eqn:E; [done|]. propify.
  destruct (is_expected g (digest v)); [by apply offer_wf|].
  apply drain_pending_spec, reach_wf. eapply same_dag_wf; [exact Hwf|done..|apply Hwf|].
  intros d w. cbn [set_held held]. rewrite lookup_insert_Some.
  intros [[<- <-]|[_ Hd]]; [done|]. exact (dw_held _ Hwf _ _ Hd).
Qed.

Lemma foldl_delete_lookup (xs : list (Digest * Vertex))
    (m : gmap Digest (Round * ValidatorIndex)) d :
  foldl (fun m p => delete p.1 m) m xs !! d =
  if decide (d ∈ xs.*1) then None else m !! d.
Proof.
  revert m. induction xs as [|x xs IH]; intros m; cbn [foldl]; [done|].
  rewrite IH, fmap_cons. destruct (decide (d ∈ xs.*1)) as [Hin|Hni].
  { rewrite decide_True; [done|]. by right. }
  destruct (decide (d = x.1)) as [->|Hne].
  - rewrite lookup_delete_eq, decide_True; [done|left].
  - rewrite lookup_delete_ne, decide_False; [done| |done]. rewrite elem_of_cons. tauto.
Qed.

Lemma pruned_elem g round d v :
  (d, v) ∈ flat_map (fun p => (fun q => q.2) <$> map_to_list p.2)
             (map_to_list (filter (fun p => p.1 < round) (rounds g))) <->
  exists r s, dag_at g r s = Some (d, v) /\ r < round.
Proof.
  rewrite list_elem_of_In, in_flat_map. setoid_rewrite <-list_elem_of_In. split.
  - intros ([r m] & Hin & ([s [d' v']] & [= -> ->] & Hq)%list_elem_of_fmap).
    apply elem_of_map_to_list, map_lookup_filter_Some in Hin as [Hr Hlt].
    apply elem_of_map_to_list in Hq. exists r, s. unfold dag_at. by rewrite Hr.
  - intros (r & s & Hat & Hlt). unfold dag_at in Hat.
    destruct (rounds g !! r) as [m|] eqn:Hr; [|done]. simpl in Hat.
    exists (r, m). split.
    + by apply elem_of_map_to_list, map_lookup_filter_Some.
    + apply list_elem_of_fmap. exists (s, (d, v)). split; [done|]. by apply elem_of_map_to_list.
Qed.

Lemma prune_wf g round : DagWf g -> DagWf (dag_prune_below g round).1.
Proof.
  intros Hwf. unfold dag_prune_below. destruct (round <=? dag_floor g) eqn:E; [done|].
  propify. cbn [fst]. set (g' := mkDag _ _ _ _ _ _ _ _ _).
  assert (forall r s, dag_at g' r s = if decide (round <= r) then dag_at g r s else None) as Hat.
  { intros r s. unfold dag_at. cbn [g' rounds]. rewrite map_lookup_filter.
    destruct (rounds g !! r); simpl; [|by case_decide]. case_decide; [by rewrite option_guard_True|by rewrite option_guard_False]. }
  assert (forall d, by_digest g' !! d =
    match by_digest g !! d with
    | Some (r, s) => if decide (round <= r) then Some (r, s) else None
    | None => None
    end) as Hbd.
  { intros d. cbn [g' by_digest]. rewrite foldl_delete_lookup.
    destruct (by_digest g !! d) as [[r s]|] eqn:Ed; [|by case_decide].
    destruct (dw_digest _ Hwf _ _ _ Ed) as [v Hv].
    destruct (decide (d ∈ _)) as [Hin|Hni]; case_decide; try done.
    - apply list_elem_of_fmap in Hin as ([d' v'] & -> & (r' & s' & H' & ?)%pruned_elem).
      apply (dw_slot _ Hwf) in H' as [H' _]. cbn [fst] in Ed. rewrite Ed in H'.
      injection H' as -> ->. lia.
    - destruct Hni. apply list_elem_of_fmap. exists (d, v). split; [done|].
      apply pruned_elem. exists r, s. split; [done|lia]. }
  constructor.
  - intros r s d v. rewrite Hat. case_decide; [|done]. intros Hv.
    destruct (dw_slot _ Hwf _ _ _ _ Hv) as (Hd & <- & <- & ? & ? & ?).
    rewrite Hbd, Hd, decide_True by done. done.
  - intros d r s. rewrite Hbd. destruct (by_digest g !! d) as [[r' s']|] eqn:Ed; [|done].
    case_decide; [|done]. intros [= -> ->]. setoid_rewrite Hat. rewrite decide_True by done.
    by apply (dw_digest _ Hwf).
  - intros d v. cbn [g' pending]. rewrite map_lookup_filter_Some. intros [Hp Hr].
    destruct (dw_pending _ Hwf _ _ Hp) as [(? & ? & ?) Hn]. rewrite Hbd, Hn. done.
  - intros d v. cbn [g' held]. rewrite map_lookup_filter_Some. intros [Hp Hr].
    by destruct (dw_held _ Hwf _ _ Hp) as (? & ? & ?).
  - intros d v ref (r & s & e & Hd & Hv)%get_at Hin Hl Hf. cbn [g' dag_floor] in Hf.
    rewrite Hbd in Hd. destruct (by_digest g !! d) as [[r' s']|] eqn:Ed; [|done].
    case_decide; [|done]. injection Hd as -> ->. rewrite Hat, decide_True in Hv by done.
    destruct (dw_closed _ Hwf d v ref) as [[r' s'] Hr]; [apply get_at; eauto 10|done|done|lia|].
    rewrite Hbd, Hr. destruct (dw_digest _ Hwf _ _ _ Hr) as [w Hw].
    destruct (dw_slot _ Hwf _ _ _ _ Hw) as (_ & <- & _ & Hdg & _).
    rewrite decide_True; [eauto|]. by rewrite (proj1 (Hl w Hdg)).
Qed.
End invariant.

(** ** The propagation of authors ends *)

Lemma insert_new_spec s authors :
  let '(s', added) := insert_new s authors in
  s' = s ∪ list_to_set authors /\
  (forall a, a ∈ added -> a ∈ authors /\ a ∉ s) /\
  (added = [] -> s' = s) /\ (added <> [] -> size s < size s')%nat.
Proof.
  revert s. induction authors as [|a authors IH]; intros s; cbn [insert_new].
  { split_and!; [set_solver|set_solver|done|done]. }
  destruct (bool_decide (a ∈ s)) eqn:E; propify.
  - specialize (IH s). destruct (insert_new s authors) as [s' added].
    destruct IH as (-> & Hin & H0 & H1). split_and!; [set_solver| |done|done].
    intros x Hx. destruct (Hin x Hx). split; [by right|done].
  - specialize (IH ({[a]} ∪ s)). destruct (insert_new ({[a]} ∪ s) authors) as [s' added].
    destruct IH as (-> & Hin & H0 & H1). split_and!; [set_solver| |done|].
    + intros x [->|Hx]%elem_of_cons; [split; [left|done]|].
      destruct (Hin x Hx). split; [by right|set_solver].
    + intros _. apply subset_size. set_solver.
Qed.

(** All authors in play are in [U]. *)
Definition authors_in (U : gset ValidatorIndex) (g : Dag) (work : Work) : Prop :=
  (forall r l a, (r, l) ∈ work -> a ∈ l -> a ∈ U) /\
  (forall d r s, reached_by g !! d = Some (r, s) -> s ⊆ U) /\
  (forall d v, held g !! d = Some v -> v_source v ∈ U).

Lemma reach_universe_in g work : authors_in (reach_universe g work) g work.
Proof.
  unfold reach_universe. split_and!.
  - intros r l a Hin Ha. rewrite !elem_of_union, !elem_of_list_to_set. left. left.
    rewrite list_elem_of_In, in_flat_map. setoid_rewrite <-list_elem_of_In. eauto.
  - intros d r s Hd a Ha. rewrite !elem_of_union, !elem_of_list_to_set. left. right.
    rewrite list_elem_of_In, in_flat_map. setoid_rewrite <-list_elem_of_In.
    exists (d, (r, s)). split; [by apply elem_of_map_to_list|]. by apply elem_of_elements.
  - intros d v Hd. rewrite !elem_of_union, !elem_of_list_to_set. right.
    apply list_elem_of_fmap. exists (d, v). split; [done|]. by apply elem_of_map_to_list.
Qed.

Lemma authors_of_in U g work d a : authors_in U g work -> a ∈ authors_of g d -> a ∈ U.
Proof.
  intros (_ & H & _). unfold authors_of. destruct (reached_by g !! d) as [[r s]|] eqn:E.
  - rewrite elem_of_elements. apply (H _ _ _ E).
  - by intros ?%elem_of_nil.
Qed.

Lemma missing_refs_length g v : (length (missing_refs g v) <= length (refs_of v))%nat.
Proof. apply length_filter. Qed.

Lemma accept_work g d v :
  Forall (fun p => p.2 = if bool_decide (v_source v ∈ authors_of g d) then authors_of g d
                         else authors_of g d ++ [v_source v]) (accept g d v).2 /\
  (length (accept g d v).2 <= length (refs_of v))%nat.
Proof.
  unfold accept. cbn [snd]. split.
  - apply Forall_fmap, Forall_forall. done.
  - rewrite length_fmap. apply missing_refs_length.
Qed.

Section reach_ends.
Context (U : gset ValidatorIndex).
Let a := size U.

Lemma potential_mono g g' d v :
  (size (from_option snd ∅ (reached_by g !! d)) <= size (from_option snd ∅ (reached_by g' !! d)))%nat ->
  (held_potential a g' d v <= held_potential a g d v)%nat.
Proof. unfold held_potential. nia. Qed.

(** Recording authors under [d], with nothing pushed. *)
Lemma measure_record g d round s :
  (size (from_option snd ∅ (reached_by g !! d)) <= size s)%nat ->
  let g1 := set_reached_by g (<[d := (round, s)]> (reached_by g)) in
  (msum (held_potential a g1) (held g) <= msum (held_potential a g) (held g))%nat.
Proof.
  intros Hs g1. apply msum_mono. intros d' v' _. apply potential_mono. cbn.
  destruct (decide (d' = d)) as [->|]; [by rewrite lookup_insert_eq|by rewrite lookup_insert_ne].
Qed.

Lemma reach_item_measure g r authors work :
  authors_in U g ((r, authors) :: work) ->
  let '(g', pushed) := reach_item g r authors in
  authors_in U g' (pushed ++ work) /\
  (reach_measure a g' (pushed ++ work) < reach_measure a g ((r, authors) :: work))%nat.
Proof.
  intros (Hw & Hr & Hh). unfold reach_item. set (d := r_digest r).
  assert (forall r l a, (r, l) ∈ work -> a ∈ l -> a ∈ U) as Hw'.
  { intros r' l x Hin. apply (Hw r' l). by right. }
  destruct (_ || _); [split; [done|]; unfold reach_measure; simpl; lia|].
  destruct (default (r_round r, ∅) (reached_by g !! d)) as [round s0] eqn:Ed.
  pose proof (insert_new_spec s0 authors) as Hi. destruct (insert_new s0 authors) as [s added].
  destruct Hi as (Es & Hadd & H0 & H1).
  assert (from_option snd ∅ (reached_by g !! d) = s0) as Hs0.
  { destruct (reached_by g !! d) as [[r' s']|]; simpl in *; congruence. }
  assert (s0 ⊆ U) as Hs0U.
  { rewrite <-Hs0. destruct (reached_by g !! d) as [[r' s']|] eqn:Er; simpl; [by eapply Hr|set_solver]. }
  assert (s ⊆ U) as HsU.
  { rewrite Es. intros x [?|Hx]%elem_of_union; [set_solver|]. apply elem_of_list_to_set in Hx.
    eapply Hw; [left|exact Hx]. }
  assert (size s0 <= size s)%nat as Hle by (apply subseteq_size; set_solver).
  assert (size s <= a)%nat as Hsa by (by apply subseteq_size).
  set (g1 := set_reached_by g (<[d := (round, s)]> (reached_by g))).
  pose proof (measure_record g d round s ltac:(by rewrite Hs0)) as Hm. fold g1 in Hm. cbn zeta in Hm.
  assert (forall d' r' s', reached_by g1 !! d' = Some (r', s') -> s' ⊆ U) as Hr1.
  { intros d' r' s'. cbn. rewrite lookup_insert_Some. intros [[_ [= _ <-]]|[_ H]]; [done|eauto]. }
  assert (authors_in U g1 work) as Hin1 by (by split_and!).
  destruct added as [|x added].
  { split; [done|]. unfold reach_measure. cbn [app length].
    change (held g1) with (held g). lia. }
  specialize (H1 ltac:(done)).
  destruct (held g1 !! d) as [v|] eqn:Eh.
  2:{ destruct (_ <=? _); (split; [done|]).
      - change (S (reach_measure a g1 work) <= reach_measure a g ((r, authors) :: work))%nat.
        unfold reach_measure. cbn [length]. change (held g1) with (held g). lia.
      - unfold reach_measure. cbn [app length]. change (held g1) with (held g). lia. }
  assert (Hpot : (held_potential a g1 d v + length (refs_of v) <= held_potential a g d v)%nat).
  { unfold held_potential. rewrite Hs0. cbn [g1 set_reached_by reached_by].
    rewrite lookup_insert_eq. cbn [from_option snd]. nia. }
  assert (Hpos : (length (refs_of v) <= held_potential a g d v)%nat) by lia.
  cbn [g1 set_reached_by held] in Eh.
  assert (Hsum : forall g', (forall d', d' <> d -> reached_by g' !! d' = reached_by g !! d') ->
    (msum (held_potential a g') (delete d (held g)) + held_potential a g d v
     <= msum (held_potential a g) (held g))%nat).
  { intros g' Hg'. rewrite (msum_delete _ _ d v Eh).
    pose proof (msum_mono (held_potential a g') (held_potential a g) (delete d (held g))) as Hmm.
    assert (forall k x, delete d (held g) !! k = Some x ->
              (held_potential a g' k x <= held_potential a g k x)%nat) as Hk.
    { intros k x' [Hne _]%lookup_delete_Some. apply potential_mono. by rewrite Hg'. }
    specialize (Hmm Hk). lia. }
  destruct (vouch_seats g1 <=? authors_weight g1 s).
  - set (g2 := set_expected (set_held g1 (delete d (held g1))) _).
    pose proof (accept_work g2 d v) as [Hwk Hlen].
    assert (forall x, x ∈ authors_of g2 d -> x ∈ U) as Hau by (intros; by eapply authors_of_in).
    assert (v_source v ∈ U) as Hv by (by eapply Hh).
    assert (reached_by (accept g2 d v).1 = delete d (reached_by g1)) as Hrb by done.
    assert (held (accept g2 d v).1 = delete d (held g)) as Hhd by done.
    destruct (accept g2 d v) as [g3 w3]. cbn [fst snd] in *. split; [split_and!|].
    + intros r' l y. rewrite elem_of_app, elem_of_rev. intros [Hin|Hin]; [|eauto].
      rewrite Forall_forall in Hwk. specialize (Hwk _ Hin). cbn [snd] in Hwk. subst l.
      case_bool_decide; [auto|]. rewrite elem_of_app, list_elem_of_singleton.
      intros [?| ->]; auto.
    + intros d' r' s'. rewrite Hrb. intros [_ H']%lookup_delete_Some. eauto.
    + intros d' v'. rewrite Hhd. intros [_ H']%lookup_delete_Some. eauto.
    + unfold reach_measure. rewrite Hhd, length_app, length_rev. cbn [length].
      pose proof (Hsum g3) as Hs3. rewrite Hrb in Hs3.
      assert (forall d', d' <> d -> delete d (reached_by g1) !! d' = reached_by g !! d') as Hd'.
      { intros d' Hne. rewrite lookup_delete_ne by done. cbn. by rewrite lookup_insert_ne. }
      specialize (Hs3 Hd'). lia.
  - split; [split_and!; [|done|done]|].
    + intros r' l y. rewrite elem_of_app, elem_of_rev. intros [Hin|Hin]; [|eauto].
      apply list_elem_of_fmap in Hin as (p & [= -> ->] & _). intros Hy.
      destruct (Hadd y Hy) as [Hy' _]. eapply Hw; [left|exact Hy'].
    + unfold reach_measure. change (held g1) with (held g).
      rewrite length_app, length_rev, length_fmap. cbn [length].
      pose proof (missing_refs_length g1 v). rewrite (msum_delete _ _ d v Eh).
      pose proof (Hsum g1) as Hs1.
      assert (forall d', d' <> d -> reached_by g1 !! d' = reached_by g !! d') as Hd'.
      { intros d' Hne. cbn. by rewrite lookup_insert_ne. }
      specialize (Hs1 Hd'). lia.
Qed.

Lemma reach_loop_total fuel g work :
  authors_in U g work -> (reach_measure a g work <= fuel)%nat -> is_Some (reach_loop fuel g work).
Proof.
  revert g work. induction fuel as [|fuel IH]; intros g [|[r authors] work] Hin Hf;
    cbn [reach_loop]; try (eexists; done).
  { unfold reach_measure in Hf. simpl in Hf. lia. }
  pose proof (reach_item_measure g r authors work Hin) as Hs.
  destruct (reach_item g r authors) as [g1 pushed]. destruct Hs as [Hin1 Hlt].
  apply IH; [done|lia].
Qed.
End reach_ends.

Lemma reach_returns g work :
  vouch_seats g <> U64_MAX ->
  reach_loop (reach_fuel g (rev work)) g (rev work) = Some (reach g work).
Proof.
  intros Hv. unfold reach. rewrite (proj2 (N.eqb_neq _ _) Hv).
  destruct (reach_loop_total (reach_universe g (rev work)) (reach_fuel g (rev work)) g (rev work))
    as [g' ->]; [apply reach_universe_in|done|done].
Qed.

(** ** Steps of the DAG *)

Section steps.
Context (digest : Vertex -> Digest) (good : Vertex -> Prop).

(** The operations a validator applies to its DAG; [good] is what it checked
    of a vertex it offers or holds, [legit] what it knows of a digest it
    expects. *)
Inductive dag_step (legit : Digest -> Prop) (g : Dag) : Dag -> Prop :=
| ds_expect d r : legit d -> dag_step legit g (expect g d r)
| ds_offer v : good v -> dag_step legit g (offer digest g v).1.1
| ds_hold v : good v -> dag_step legit g (hold digest g v).1.1
| ds_prune r : dag_step legit g (dag_prune_below g r).1.

Inductive dag_reachable (legit : Digest -> Prop) (g0 : Dag) : Dag -> Prop :=
| dr_refl : dag_reachable legit g0 g0
| dr_step g g' : dag_reachable legit g0 g -> dag_step legit g g' -> dag_reachable legit g0 g'.

Lemma reachable_keeps_wf legit g g' : dag_reachable legit g g' -> DagWf digest good g -> DagWf digest good g'.
Proof.
  induction 1 as [|g1 g2 _ IH [d r _|v Hv|v Hv|r]]; intros Hg; [done|specialize (IH Hg)..].
  - by apply expect_wf.
  - by apply offer_wf.
  - by apply hold_wf.
  - by apply prune_wf.
Qed.

Lemma reachable_wf legit ss vouch g :
  dag_reachable legit (with_vouching ss vouch) g -> DagWf digest good g.
Proof. intros Hr. eapply reachable_keeps_wf; [exact Hr|apply new_dag_wf]. Qed.
End steps.

Lemma wf_weaken digest (good1 good2 : Vertex -> Prop) g : (forall v, good1 v -> good2 v) ->
  DagWf digest good1 g -> DagWf digest good2 g.
Proof.
  intros Hg [W1 W2 W3 W4 W5]. split; try done; unfold stored in *; naive_solver.
Qed.

(** ** Only delivered vertices are accepted *)

Section legit.
Context (digest : Vertex -> Digest) (good : Vertex -> Prop).
Context (c : Committee) (faulty : ValidatorIndex -> bool).
Context (wf : CommitteeWf c) (Hfaulty : weight c faulty <= max_faulty c).
(** The digests reliable broadcast delivers, and those in the causal history
    of an honest author's delivered vertex. *)
Context (legit history : Digest -> Prop).
Context (Hown : forall v, legit (digest v) -> faulty (v_source v) = false -> history (digest v)).
Context (Hrefs : forall v r, history (digest v) -> r ∈ refs_of v -> history (r_digest r)).
Context (Hlegit : forall d, history d -> legit d).

Definition honest_reach (d : Digest) (authors : list ValidatorIndex) : Prop :=
  forall a, a ∈ authors -> faulty a = false -> history d.

Record DagLegit (g : Dag) : Prop := {
  dl_seats : dag_seats g = (fun m => m_seats m) <$> c_members c;
  dl_vouch : vouch_seats g = validity c;
  dl_in d : is_Some (by_digest g !! d) -> legit d;
  dl_pending d : is_Some (pending g !! d) -> legit d;
  dl_expected d : is_Some (expected g !! d) -> legit d;
  dl_reached d r s : reached_by g !! d = Some (r, s) -> honest_reach d (elements s);
}.

Definition work_legit (work : Work) : Prop :=
  forall r l, (r, l) ∈ work -> honest_reach (r_digest r) l.

Lemma vouched_honest g s :
  DagLegit g -> vouch_seats g <= authors_weight g s ->
  exists a, a ∈ elements s /\ faulty a = false.
Proof.
  intros Hg Hv. destruct (decide (Exists (fun a => faulty a = false) (elements s))) as [He|Hn].
  { by apply Exists_exists in He. }
  exfalso. rewrite <-Forall_Exists_neg in Hn. rewrite Forall_forall in Hn.
  assert (authors_weight g s <= weight c faulty) as Hle.
  { unfold authors_weight. rewrite (dl_seats _ Hg).
    etransitivity; [apply N.Div0.mod_le|].
    etransitivity; [|apply (nsum_members_le c (elements s) faulty); [apply NoDup_elements|]].
    - apply N.eq_le_incl. f_equal. apply list_fmap_ext. intros _ i _.
      unfold seats, member. rewrite list_lookup_fmap. by destruct (c_members c !! i).
    - intros i Hi. apply not_false_iff_true. by apply Hn. }
  rewrite (dl_vouch _ Hg) in Hv. unfold validity in Hv. lia.
Qed.
Lemma set_reached_legit g d round s :
  DagLegit g -> honest_reach d (elements s) ->
  DagLegit (set_reached_by g (<[d := (round, s)]> (reached_by g))).
Proof.
  intros [] H. constructor; auto. intros d' r s'. cbn. rewrite lookup_insert_Some.
  intros [[<- [= _ <-]]|[_ H']]; eauto.
Qed.

Lemma delete_legit g d :
  DagLegit g -> DagLegit (set_expected (set_held g (delete d (held g))) (delete d (expected g))).
Proof.
  intros []. constructor; auto. intros d' [r H]. cbn in H.
  apply lookup_delete_Some in H as [_ H]. eauto.
Qed.

Lemma authors_of_legit g d : DagLegit g -> honest_reach d (authors_of g d).
Proof.
  intros [] a. unfold authors_of. destruct (reached_by g !! d) as [[r s]|] eqn:E.
  - eapply dl_reached0; eauto.
  - by intros ?%elem_of_nil.
Qed.

Lemma accept_legit g v :
  DagLegit g -> legit (digest v) ->
  DagLegit (accept g (digest v) v).1 /\ work_legit (accept g (digest v) v).2.
Proof.
  intros Hg Hd. split.
  - destruct Hg. constructor; auto; cbn.
    + intros d'. rewrite lookup_insert_is_Some'. intros [<-|?]; auto.
    + intros d' r s [_ H]%lookup_delete_Some. eauto.
  - intros r l Hin a Ha Hh. pose proof (authors_of_legit g (digest v) Hg a) as Hau.
    unfold accept in Hin. cbn [snd] in Hin.
    apply list_elem_of_fmap in Hin as (x & [= -> ->] & [_ Hx]%list_elem_of_filter).
    apply (Hrefs v x); [|done]. case_bool_decide as Hb; [auto|].
    apply elem_of_app in Ha as [Ha|Ha]; [auto|]. apply list_elem_of_singleton in Ha. subst a. auto.
Qed.

Lemma reach_item_legit g r authors :
  DagWf digest good g -> DagLegit g -> honest_reach (r_digest r) authors ->
  DagLegit (reach_item g r authors).1 /\ work_legit (reach_item g r authors).2.
Proof.
  intros Hwf Hg Hr. unfold reach_item. set (d := r_digest r) in *.
  assert (forall g, DagLegit g -> DagLegit g /\ work_legit []) as Hnil.
  { intros g' ?. split; [done|]. by intros r' l ?%elem_of_nil. }
  destruct (_ || _); [by apply Hnil|].
  destruct (default (r_round r, ∅) (reached_by g !! d)) as [round s0] eqn:Ed.
  pose proof (insert_new_spec s0 authors) as Hi. destruct (insert_new s0 authors) as [s added].
  destruct Hi as (Es & Hadd & _).
  assert (honest_reach d (elements s)) as Hs.
  { intros a. rewrite elem_of_elements, Es, elem_of_union, elem_of_list_to_set.
    intros [Ha|Ha]; [|by apply Hr]. destruct (reached_by g !! d) as [[r' s']|] eqn:E; cbn in Ed.
    - injection Ed as -> ->. apply (dl_reached _ Hg _ _ _ E). by apply elem_of_elements.
    - injection Ed as _ <-. set_solver. }
  pose proof (set_reached_legit g d round s Hg Hs) as Hg1.
  set (g1 := set_reached_by g _) in *.
  destruct added as [|x added]; [by apply Hnil|].
  destruct (vouch_seats g1 <=? authors_weight g1 s) eqn:Ev.
  - propify. destruct (vouched_honest g1 s Hg1 Ev) as (a & Ha & Hah).
    assert (history d) as Hd by (by eapply Hs).
    destruct (held g1 !! d) as [v|] eqn:Eh.
    + destruct (dw_held _ _ _ Hwf d v Eh) as [<- _].
      pose proof (accept_legit _ v (delete_legit g1 (digest v) Hg1) (Hlegit _ Hd)) as [Ha1 Ha2].
      cbn [set_held expected] in *.
      destruct (accept _ (digest v) v) as [g3 w3]. split; [done|].
      cbn [snd]. intros r' l Hin. rewrite elem_of_rev in Hin. by apply Ha2.
    + apply Hnil. destruct Hg1. constructor; auto. intros d'. cbn.
      rewrite lookup_insert_is_Some'. intros [<-|?]; auto.
  - destruct (held g1 !! d) as [v|] eqn:Eh; [|by apply Hnil].
    split; [done|]. cbn [snd]. intros r' l Hin a Ha Hah. rewrite elem_of_rev in Hin.
    apply list_elem_of_fmap in Hin as (y & [= -> ->] & [_ Hy]%list_elem_of_filter).
    destruct (dw_held _ _ _ Hwf d v Eh) as [Hdv _].
    apply (Hrefs v y); [|done]. rewrite Hdv. apply (Hr a); [|done]. by apply Hadd.
Qed.

Lemma reach_legit g work :
  DagWf digest good g -> DagLegit g -> work_legit work -> DagLegit (reach g work).
Proof.
  intros Hwf Hg Hw. unfold reach. destruct (_ =? _); [done|].
  destruct (reach_loop _ _ _) as [g'|] eqn:E; simpl; [|done].
  assert (work_legit (rev work)) as Hw'.
  { intros r l Hin. rewrite elem_of_rev in Hin. by apply Hw. }
  revert E Hwf Hg Hw'. generalize (reach_fuel g (rev work)) as fuel. generalize (rev work) as w.
  intros w fuel. revert g w. clear Hw. induction fuel as [|fuel IH];
    intros g [|[r authors] w] E Hwf Hg Hw; cbn [reach_loop] in E; try (by simplify_eq).
  pose proof (reach_item_wf digest good g r authors Hwf) as Hwf1.
  pose proof (reach_item_legit g r authors Hwf Hg) as Hl.
  destruct (reach_item g r authors) as [g1 pushed]. cbn [fst snd] in *.
  destruct Hl as [Hg1 Hp]; [apply (Hw r); left|].
  eapply IH; [exact E|done|done|]. intros r' l Hin. apply elem_of_app in Hin as [Hin|Hin].
  - by apply Hp.
  - apply (Hw r' l). by right.
Qed.

Lemma enter_legit st x : DagLegit st.1 -> DagLegit (enter st x).1.
Proof.
  destruct st as [g ins]. cbn [fst]. intros Hg. unfold enter.
  destruct (pending g !! r_digest x) as [v|] eqn:Ep; [|done].
  assert (legit (r_digest x)) as Hx by (apply (dl_pending _ Hg); eauto).
  destruct Hg as [H1 H2 H3 H4 H5 H6].
  assert (forall d, is_Some (delete (r_digest x) (pending g) !! d) -> legit d) as Hp.
  { intros d [w [_ Hw]%lookup_delete_Some]. eauto. }
  destruct (_ !! v_source v); constructor; auto.
  intros d. cbn. rewrite lookup_insert_is_Some'. intros [<-|?]; auto.
Qed.

Lemma drain_legit g : DagLegit g -> DagLegit (drain_pending g).1.1.
Proof.
  intros Hg. unfold drain_pending.
  destruct (drain_loop (size (pending g)) g []) as [[g' ins']|] eqn:E; simpl; [|done].
  revert E Hg. generalize (size (pending g)) as fuel. generalize (@nil VertexRef) as ins.
  intros ins fuel. revert g ins.
  induction fuel as [|fuel IH]; intros g ins E Hg; cbn [drain_loop] in E.
  - destruct (ready_refs g); by simplify_eq.
  - destruct (ready_refs g) as [|x xs]; [by simplify_eq|].
    assert (DagLegit (foldl enter (g, ins) (x :: xs)).1) as Hf.
    { clear E IH. revert Hg. change g with ((g, ins).1) at 1. generalize (g, ins) as st.
      induction (x :: xs) as [|y ys IHy]; intros st Hst; [done|]. cbn [foldl].
      by apply IHy, enter_legit. }
    destruct (foldl enter (g, ins) (x :: xs)) as [g1 ins1]. eauto.
Qed.

Lemma offer_legit g v :
  DagWf digest good g -> good v -> DagLegit g -> DagLegit (offer digest g v).1.1.
Proof.
  intros Hwf Hv Hg. unfold offer. destruct (_ || _) eqn:E; [done|]. propify.
  destruct (expected g !! digest v) as [r|] eqn:Ee; [|done].
  assert (legit (digest v)) as Hl by (apply (dl_expected _ Hg); eauto).
  assert (DagWf digest good (set_held (set_expected g (delete (digest v) (expected g)))
            (delete (digest v) (held g)))) as Hwf1.
  { eapply same_dag_wf; [exact Hwf|done..|apply Hwf|].
    intros d w Hd. cbn in Hd. apply lookup_delete_Some in Hd as [_ Hd].
    exact (dw_held _ _ _ Hwf _ _ Hd). }
  pose proof (accept_legit _ v (delete_legit g (digest v) Hg) Hl) as [Ha1 Ha2].
  pose proof (accept_wf digest good _ (digest v) v Hwf1) as Hwf2.
  cbn [set_expected set_held held] in *.
  change (set_held (set_expected g (delete (digest v) (expected g))) (delete (digest v) (held g)))
    with (set_expected (set_held g (delete (digest v) (held g))) (delete (digest v) (expected g)))
    in *.
  destruct (accept _ (digest v) v) as [g2 work]. cbn [fst snd] in *.
  apply drain_legit, reach_legit; [apply Hwf2; [done|by apply contains_false]|done|done].
Qed.

Lemma hold_legit g v :
  DagWf digest good g -> good v -> DagLegit g -> DagLegit (hold digest g v).1.1.
Proof.
  intros Hwf Hv Hg. unfold hold. destruct (_ || _) eqn:E; [done|]. propify.
  destruct (is_expected g (digest v)); [by apply offer_legit|].
  apply drain_legit, reach_legit.
  - eapply same_dag_wf; [exact Hwf|done..|apply Hwf|].
    intros d w. cbn [set_held held]. rewrite lookup_insert_Some.
    intros [[<- <-]|[_ Hd]]; [done|]. exact (dw_held _ _ _ Hwf _ _ Hd).
  - by destruct Hg.
  - pose proof (authors_of_legit g (digest v) Hg) as Hau.
    destruct (authors_of g (digest v)) as [|a l]; [by intros ? ? ?%elem_of_nil|].
    intros r l' Hin b Hb Hbh. apply list_elem_of_fmap in Hin as (x & [= -> ->] & [_ Hx]%list_elem_of_filter).
    apply (Hrefs v x); [|done]. by apply (Hau b).
Qed.

Lemma prune_legit g r : DagLegit g -> DagLegit (dag_prune_below g r).1.
Proof.
  intros Hg. unfold dag_prune_below. destruct (r <=? dag_floor g); [done|].
  destruct Hg as [H1 H2 H3 H4 H5 H6]. constructor; cbn [fst dag_seats vouch_seats]; auto; cbn.
  - intros d Hd. apply H3. rewrite foldl_delete_lookup in Hd. case_decide; [|done].
    by destruct Hd.
  - intros d [v [? _]%map_lookup_filter_Some]. eauto.
  - intros d [v [? _]%map_lookup_filter_Some]. eauto.
  - intros d r' s [? _]%map_lookup_filter_Some. eauto.
Qed.

Lemma reachable_legit g :
  dag_reachable digest good legit
    (with_vouching ((fun m => m_seats m) <$> c_members c) (validity c)) g -> DagLegit g.
Proof.
  induction 1 as [|g g' Hr IH Hs].
  - constructor; cbn; try done; try (intros *; by rewrite lookup_empty);
      intros d [? Hd]; by rewrite lookup_empty in Hd.
  - pose proof (reachable_wf digest good legit _ _ g Hr) as Hwf.
    destruct Hs as [d r Hd|v Hv|v Hv|r].
    + unfold expect. destruct (_ && _); [|done]. destruct IH. constructor; auto.
      intros d'. cbn. rewrite lookup_insert_is_Some'. intros [<-|?]; auto.
    + by apply offer_legit.
    + by apply hold_legit.
    + by apply prune_legit.
Qed.
End legit.

(** ** Growth *)

Section growth.
Context (digest : Vertex -> Digest) (good : Vertex -> Prop).

(** Every vertex of [g] is in [g'], where it was. *)
Definition grows (g g' : Dag) : Prop := forall d v, get g d = Some v -> get g' d = Some v.

#[global] Instance grows_preorder : PreOrder grows.
Proof. split; [by intros g d v|]. intros g1 g2 g3 H12 H23 d v H. auto. Qed.

Lemma enter_grows st x : DagWf digest good st.1 -> grows st.1 (enter st x).1.
Proof.
  destruct st as [g ins]. cbn [fst]. intros Hwf d v Hg. unfold enter.
  destruct (pending g !! r_digest x) as [w|] eqn:Ep; [|done].
  destruct (get_stored _ _ _ _ _ Hwf Hg) as (Hd & Hat & _).
  destruct (dw_pending _ _ _ Hwf _ _ Ep) as [_ Hn].
  set (slot := default ∅ (rounds (set_pending g (delete (r_digest x) (pending g))) !! v_round w)).
  assert (forall s e, dag_at g (v_round w) s = Some e -> slot !! s = Some e) as Hslot.
  { intros s e. unfold dag_at, slot. cbn. destruct (rounds g !! v_round w); done. }
  apply get_at. exists (v_round v), (v_source v), d.
  destruct (slot !! v_source w) as [p|] eqn:Es; cbn [fst].
  - split; [done|]. rewrite dag_at_set_rounds. cbn.
    destruct (decide (v_round v = v_round w)) as [Hr|Hr].
    + rewrite Hr, lookup_insert_eq. apply Hslot. by rewrite <-Hr.
    + by rewrite lookup_insert_ne.
  - cbn. rewrite lookup_insert_ne by (intros <-; congruence). split; [done|].
    rewrite dag_at_set_rounds. destruct (decide (v_round v = v_round w)) as [Hr|Hr].
    + rewrite Hr, lookup_insert_eq. simpl. rewrite lookup_insert_ne.
      * apply Hslot. by rewrite <-Hr.
      * intros Hs. rewrite Hr, <-Hs in Hat. apply Hslot in Hat. congruence.
    + by rewrite lookup_insert_ne.
Qed.

Lemma enter_all_grows xs st :
  DagWf digest good st.1 -> all_ready st.1 xs -> grows st.1 (foldl enter st xs).1.
Proof.
  revert st. induction xs as [|x xs IH]; intros st Hwf Hr; [done|]. cbn [foldl].
  destruct (enter_wf digest good st x Hwf) as (Hwf' & Ef & Hg & Ep & _).
  { intros v. apply Hr. left. }
  etransitivity; [by apply enter_grows|]. apply IH; [done|]. intros y v Hy Hp.
  eapply missing_nil_grow; [exact Ef|exact Hg|]. eapply Hr; [by right|].
  rewrite Ep in Hp. by apply lookup_delete_Some in Hp as [_ ?].
Qed.

Lemma drain_loop_grows fuel g ins g' ins' :
  DagWf digest good g -> drain_loop fuel g ins = Some (g', ins') -> grows g g'.
Proof.
  revert g ins. induction fuel as [|fuel IH]; intros g ins Hwf H; cbn [drain_loop] in H.
  - destruct (ready_refs g); by simplify_eq.
  - pose proof (enter_all_wf digest good (ready_refs g) (g, ins) Hwf (ready_all g)) as He.
    pose proof (enter_all_grows (ready_refs g) (g, ins) Hwf (ready_all g)) as Hg.
    destruct (ready_refs g) as [|x xs]; [by simplify_eq|].
    destruct (foldl enter (g, ins) (x :: xs)) as [g1 ins1]. cbn [fst] in *.
    etransitivity; [exact Hg|]. eapply IH; [apply He|exact H].
Qed.

Lemma drain_grows g : DagWf digest good g -> grows g (drain_pending g).1.1.
Proof.
  intros Hwf. unfold drain_pending.
  destruct (drain_loop_total digest good (size (pending g)) g [] Hwf (le_n _)) as [[g' ins'] E].
  rewrite E. simpl. by eapply drain_loop_grows.
Qed.

(** Propagating authors changes neither the vertices nor the floor. *)
Lemma reach_loop_same fuel g work g' :
  reach_loop fuel g work = Some g' ->
  rounds g' = rounds g /\ by_digest g' = by_digest g /\ dag_floor g' = dag_floor g.
Proof.
  revert g work. induction fuel as [|fuel IH]; intros g [|[r l] work] H; cbn [reach_loop] in H;
    try (by simplify_eq).
  assert (rounds (reach_item g r l).1 = rounds g /\ by_digest (reach_item g r l).1 = by_digest g /\
          dag_floor (reach_item g r l).1 = dag_floor g) as Hi.
  { unfold reach_item. destruct (_ || _); [done|]. destruct (default _ _) as [round s].
    destruct (insert_new s l) as [s' [|x added]]; [done|].
    destruct (_ <=? _); by destruct (_ !! r_digest r). }
  destruct (reach_item g r l) as [g1 pushed]. cbn [fst] in Hi.
  destruct (IH _ _ H) as (? & ? & ?), Hi as (? & ? & ?). split_and!; congruence.
Qed.

Lemma reach_same g work :
  rounds (reach g work) = rounds g /\ by_digest (reach g work) = by_digest g /\
  dag_floor (reach g work) = dag_floor g.
Proof.
  unfold reach. destruct (_ =? _); [done|].
  destruct (reach_loop _ _ _) eqn:E; simpl; [|done]. by eapply reach_loop_same.
Qed.

Lemma get_same g g' d : rounds g' = rounds g -> by_digest g' = by_digest g -> get g' d = get g d.
Proof. intros Er Eb. unfold get, dag_at. by rewrite Er, Eb. Qed.

Lemma reach_grows g work : grows g (reach g work).
Proof.
  intros d v. destruct (reach_same g work) as (Er & Eb & _). by rewrite (get_same g _ d Er Eb).
Qed.

Lemma offer_grows g v : DagWf digest good g -> good v -> grows g (offer digest g v).1.1.
Proof.
  intros Hwf Hv. unfold offer. destruct (_ || _) eqn:E; [done|]. propify.
  destruct (expected g !! digest v); [|done].
  set (g1 := set_held _ _).
  assert (DagWf digest good g1) as Hwf1.
  { eapply same_dag_wf; [exact Hwf|done..|apply Hwf|].
    intros d w Hd. cbn in Hd. apply lookup_delete_Some in Hd as [_ Hd].
    exact (dw_held _ _ _ Hwf _ _ Hd). }
  pose proof (accept_wf digest good g1 (digest v) v Hwf1) as Ha.
  assert (grows g (accept g1 (digest v) v).1) as Hga by (intros d w H'; exact H').
  destruct (accept g1 (digest v) v) as [g2 work]. cbn [fst] in *.
  etransitivity; [exact Hga|]. etransitivity; [apply (reach_grows g2 work)|].
  apply drain_grows, reach_wf, Ha; [done|]. by apply contains_false.
Qed.
End growth.

Lemma enter_first digest good g ins x v :
  DagWf digest good g -> pending g !! r_digest x = Some v ->
  dag_at g (v_round v) (v_source v) = None -> get (enter (g, ins) x).1 (r_digest x) = Some v.
Proof.
  intros Hwf Hp Hfree. unfold enter. rewrite Hp.
  set (slot := default ∅ (rounds (set_pending g (delete (r_digest x) (pending g))) !! v_round v)).
  assert (slot !! v_source v = None) as ->.
  { unfold dag_at in Hfree. unfold slot. cbn. destruct (rounds g !! v_round v); [done|].
    apply lookup_empty. }
  apply get_at. exists (v_round v), (v_source v), (r_digest x). cbn [fst].
  rewrite dag_at_set_rounds. cbn. rewrite !lookup_insert_eq. simpl.
  by rewrite lookup_insert_eq.
Qed.

Lemma reach_nil g : reach g [] = g.
Proof. unfold reach. destruct (_ =? _); [done|]. simpl. by destruct (reach_fuel g []). Qed.

(** A vertex with every reference present enters at once. *)
Lemma offer_enters digest good g v :
  DagWf digest good g -> good v ->
  is_Some (expected g !! digest v) -> get g (digest v) = None -> dag_floor g <= v_round v ->
  missing_refs g v = [] -> ready_refs g = [] -> dag_at g (v_round v) (v_source v) = None ->
  get (offer digest g v).1.1 (digest v) = Some v.
Proof.
  intros Hwf Hv [r Hr] Hnone Hf Hm Hready Hfree. unfold offer.
  assert (by_digest g !! digest v = None) as Hbd.
  { apply eq_None_not_Some. rewrite (by_digest_get digest good g) by done. rewrite Hnone.
    by intros [? ?]. }
  rewrite (proj2 (contains_false g _) Hbd), (proj2 (N.ltb_ge _ _) Hf), Hr. cbn [orb].
  set (g1 := set_held _ _).
  assert (DagWf digest good g1) as Hwf1.
  { eapply same_dag_wf; [exact Hwf|done..|apply Hwf|].
    intros d w Hd. cbn in Hd. apply lookup_delete_Some in Hd as [_ Hd].
    exact (dw_held _ _ _ Hwf _ _ Hd). }
  pose proof (accept_wf digest good g1 (digest v) v Hwf1 ltac:(done) Hbd) as Hwf2.
  assert ((accept g1 (digest v) v).2 = []) as Hw.
  { unfold accept. cbn [snd]. change (missing_refs _ v) with (missing_refs g v). by rewrite Hm. }
  assert (pending (accept g1 (digest v) v).1 = <[digest v := v]> (pending g)) as Hp by done.
  assert (forall w, missing_refs (accept g1 (digest v) v).1 w = missing_refs g w) as Hmr by done.
  assert (dag_at (accept g1 (digest v) v).1 (v_round v) (v_source v) = None) as Hfree2 by done.
  destruct (accept g1 (digest v) v) as [g2 work]. cbn [fst snd] in *. subst work.
  rewrite reach_nil. unfold drain_pending.
  destruct (drain_loop_total digest good (size (pending g2)) g2 [] Hwf2 (le_n _)) as [[g' ins'] E].
  rewrite E. cbn [default fst].
  assert (mkRef (v_round v) (v_source v) (digest v) ∈ ready_refs g2) as Hin.
  { apply ready_refs_elem. exists v. cbn. by rewrite Hp, lookup_insert_eq, Hmr. }
  assert (forall x, x ∈ ready_refs g2 -> r_digest x = digest v) as Hall.
  { intros x (w & Hw & Hwm & H1 & H2)%ready_refs_elem. rewrite Hp, lookup_insert_Some in Hw.
    destruct Hw as [[? _]|[_ Hw]]; [done|]. exfalso.
    assert (x ∈ ready_refs g) as Hx by (apply ready_refs_elem; exists w; by rewrite <-Hmr).
    rewrite Hready in Hx. by apply elem_of_nil in Hx. }
  pose proof (enter_all_wf digest good (ready_refs g2) (g2, []) Hwf2 (ready_all g2)) as He.
  pose proof (ready_all g2) as Hra.
  destruct (size (pending g2)) as [|n]; cbn [drain_loop] in E;
    destruct (ready_refs g2) as [|x xs]; try (by apply elem_of_nil in Hin); [done|].
  assert (r_digest x = digest v) as Hx by (apply Hall; left).
  assert (pending g2 !! r_digest x = Some v) as Hpx by (by rewrite Hp, Hx, lookup_insert_eq).
  pose proof (enter_first digest good g2 [] x v Hwf2 Hpx Hfree2) as Hfirst.
  destruct (enter_wf digest good (g2, []) x Hwf2) as (Hwf3 & Ef & Hg & Ep & _).
  { intros w. apply Hra. left. }
  assert (get (foldl enter (g2, []) (x :: xs)).1 (digest v) = Some v) as Hget.
  { rewrite <-Hx. cbn [foldl]. apply (enter_all_grows digest good xs); [done| |done].
    intros y w Hy Hpy. eapply missing_nil_grow; [exact Ef|exact Hg|].
    apply (Hra y); [by right|]. rewrite Ep in Hpy. by apply lookup_delete_Some in Hpy as [_ ?]. }
  destruct (foldl enter (g2, []) (x :: xs)) as [g3 ins3]. cbn [fst] in *.
  apply (drain_loop_grows digest good n g3 ins3 g' ins'); [apply He|exact E|exact Hget].
Qed.

(** ** Properties *)

(** The propagation of authors through held vertices ends: the loop returns
    within [reach_fuel] iterations, for every DAG and every work list. *)
Theorem reach_terminates g work :
  vouch_seats g <> U64_MAX ->
  reach_loop (reach_fuel g (rev work)) g (rev work) = Some (reach g work).
Proof. apply reach_returns. Qed.

(** C15: in every state the operations reach, a slot holds one vertex, stored
    under its digest, of its round and author, at or above the floor, and
    checked when it came in; a digest is in the DAG exactly when its slot
    holds it; and the DAG is causally closed for labelled references: one that
    carries the round and author of the vertex its digest names, at a round at or
    above the floor, is in the DAG, through deliveries, fetches, vouching and
    pruning. The code does not compare labels with vertices: once pruning removes
    the vertex behind a mislabelled reference, that reference is open. *)
Theorem dag_invariant digest good legit ss vouch g :
  dag_reachable digest good legit (with_vouching ss vouch) g ->
  (forall r s d v, dag_at g r s = Some (d, v) ->
     v_round v = r /\ v_source v = s /\ digest v = d /\ dag_floor g <= r /\ good v /\
     get g d = Some v) /\
  (forall d v, get g d = Some v -> dag_at g (v_round v) (v_source v) = Some (d, v)) /\
  (forall d v ref, get g d = Some v -> ref ∈ refs_of v -> labelled digest ref ->
     dag_floor g <= r_round ref -> is_Some (get g (r_digest ref))).
Proof.
  intros Hr. pose proof (reachable_wf _ _ _ _ _ _ Hr) as Hwf. split_and!.
  - intros r s d v Hat. destruct (dw_slot _ _ _ Hwf _ _ _ _ Hat) as (_ & <- & <- & ? & ? & ?).
    split_and!; try done. by eapply at_get.
  - intros d v Hg. by destruct (get_stored _ _ _ _ _ Hwf Hg) as (_ & ? & _).
  - intros d v ref Hg Hin Hl Hf. apply (by_digest_get digest good); [done|].
    by eapply (dw_closed _ _ _ Hwf).
Qed.

(** C14: a vertex in the DAG was delivered by reliable broadcast, fetched or
    not: a fetched vertex is accepted only if its digest was delivered here,
    or authors of at least [f + 1] seats reach it, and one of them is honest,
    whose causal history holds delivered vertices only. *)
Theorem dag_accepts_only_delivered digest good c faulty (legit history : Digest -> Prop) g :
  CommitteeWf c -> weight c faulty <= max_faulty c ->
  (forall v, legit (digest v) -> faulty (v_source v) = false -> history (digest v)) ->
  (forall v r, history (digest v) -> r ∈ refs_of v -> history (r_digest r)) ->
  (forall d, history d -> legit d) ->
  dag_reachable digest good legit
    (with_vouching ((fun m => m_seats m) <$> c_members c) (validity c)) g ->
  forall d v, get g d = Some v -> digest v = d /\ legit d.
Proof.
  intros wf Hf Hown Hrefs Hl Hr d v Hg.
  pose proof (reachable_wf _ _ _ _ _ _ Hr) as Hwf.
  destruct (get_stored _ _ _ _ _ Hwf Hg) as (Hd & _ & ? & _). split; [done|].
  eapply (dl_in c faulty legit history); [by eapply reachable_legit|eauto].
Qed.

(** Offering a delivered vertex never changes or removes a vertex of the
    DAG, is refused when the digest is not expected, and, when the vertex has
    all its references and its slot is free, puts it in the DAG. *)
Theorem offer_spec digest good g v :
  DagWf digest good g -> good v ->
  DagWf digest good (offer digest g v).1.1 /\ grows g (offer digest g v).1.1 /\
  (expected g !! digest v = None -> offer digest g v = (g, [], [])) /\
  (is_Some (expected g !! digest v) -> get g (digest v) = None -> dag_floor g <= v_round v ->
   missing_refs g v = [] -> ready_refs g = [] -> dag_at g (v_round v) (v_source v) = None ->
   get (offer digest g v).1.1 (digest v) = Some v).
Proof.
  intros Hwf Hv. split_and!.
  - by apply offer_wf.
  - by eapply offer_grows.
  - intros Hn. unfold offer. destruct (_ || _); [done|]. by rewrite Hn.
  - intros. by eapply offer_enters.
Qed.

(** ** A concrete run

    Three vertices: [g1] of round 0, [g2] of round 1 that references it, and a
    digest that names just these. *)
Definition sample_g1 : Vertex := mkVertex 0 0 1 [] [] [] [] 7.
Definition sample_g2 : Vertex := mkVertex 0 1 0 [mkRef 0 1 11] [] [] [] 8.
Definition sample_g3 : Vertex := mkVertex 0 1 2 [mkRef 0 1 11] [] [] [] 9.

Definition sample_digest (v : Vertex) : Digest :=
  if bool_decide (v = sample_g1) then 11
  else if bool_decide (v = sample_g2) then 12
  else if bool_decide (v = sample_g3) then 13 else 0.

Definition sample_start : Dag := with_vouching [1; 1; 1; 1] 2.

(** [g2] and [g3] are delivered; [g1] is fetched, and vouched for by their two
    authors. *)
Definition sample_dag : Dag :=
  let g := expect sample_start 12 1 in
  let g := (offer sample_digest g sample_g2).1.1 in
  let g := (hold sample_digest g sample_g1).1.1 in
  let g := expect g 13 1 in
  (offer sample_digest g sample_g3).1.1.

Definition sample_legit (d : Digest) : Prop := d = 11 \/ d = 12 \/ d = 13.

Lemma sample_dag_reachable :
  dag_reachable sample_digest (fun _ => True) sample_legit sample_start sample_dag.
Proof.
  unfold sample_dag, sample_legit. cbn zeta.
  repeat (eapply dr_step; [|constructor; by auto]). apply dr_refl.
Qed.

Lemma sample_digest_legit v :
  sample_legit (sample_digest v) -> v = sample_g1 \/ v = sample_g2 \/ v = sample_g3.
Proof.
  unfold sample_legit, sample_digest. repeat case_bool_decide; auto.
  intros [?|[?|?]]; discriminate.
Qed.

Lemma reach_terminates_witness :
  vouch_seats sample_dag <> U64_MAX /\
  exists g, reach_loop (reach_fuel sample_dag [(mkRef 0 1 11, [3%nat])]) sample_dag
              [(mkRef 0 1 11, [3%nat])] = Some g.
Proof.
  split; [vm_compute; discriminate|]. eexists.
  apply (reach_terminates sample_dag [(mkRef 0 1 11, [3%nat])]). vm_compute. discriminate.
Defined.

Lemma dag_invariant_witness :
  dag_at sample_dag 0 1 = Some (11, sample_g1) /\ get sample_dag 11 = Some sample_g1.
Proof.
  split; [vm_compute; reflexivity|].
  apply (dag_invariant sample_digest (fun _ => True) sample_legit [1; 1; 1; 1] 2 sample_dag)
    with (r := 0) (s := 1%nat); [apply sample_dag_reachable|vm_compute; reflexivity].
Defined.

Lemma dag_accepts_only_delivered_witness :
  get sample_dag 11 = Some sample_g1 /\ sample_legit 11.
Proof.
  split; [vm_compute; reflexivity|].
  apply (dag_accepts_only_delivered sample_digest (fun _ => True) four_seats
           (fun i => (i =? 3)%nat) sample_legit sample_legit sample_dag) with (v := sample_g1);
    [apply four_seats_wf|vm_compute; done|auto| |auto|exact sample_dag_reachable|
     vm_compute; reflexivity].
  intros v r Hv Hr. apply sample_digest_legit in Hv as [->|[->| ->]]; cbn in Hr.
  - by apply elem_of_nil in Hr.
  - apply list_elem_of_singleton in Hr as ->. by left.
  - apply list_elem_of_singleton in Hr as ->. by left.
Defined.

Lemma offer_spec_witness :
  get (offer sample_digest (expect sample_dag 0 1) (mkVertex 0 1 3 [mkRef 0 1 11] [] [] [] 5)).1.1 0
    = Some (mkVertex 0 1 3 [mkRef 0 1 11] [] [] [] 5).
Proof.
  apply (offer_spec sample_digest (fun _ => True) (expect sample_dag 0 1)
           (mkVertex 0 1 3 [mkRef 0 1 11] [] [] [] 5)); try (vm_compute; done).
  - apply expect_wf. eapply reachable_wf. exact sample_dag_reachable.
  - vm_compute. eauto.
Defined.
