(* ===== verification/DagWalk.v ===== *)
(** What the walks over the DAG compute ([tenzro-consensus/src/dag.rs]):
    [strong_path], [causal_history] and [orphans_below] against the relations
    they decide or enumerate, with the bounds that make them end. *)

From stdpp Require Import prelude gmap list sorting.
From Stdlib Require Import NArith ZArith Lia.
From S2P Require Import Prelude Committee Vertex Dag.

(** ** Breadth-first walks *)

Section walk.
Context (next : Digest -> list Digest) (stop : Digest -> bool).

(** The walk both queries make: a digest is expanded the first time it is
    met, unless [stop] holds of it. *)
Fixpoint walk (fuel : nat) (seen : gset Digest) (queue : list Digest) : option (gset Digest) :=
  match queue with
  | [] => Some seen
  | d :: queue =>
      match fuel with
      | O => None
      | S fuel =>
          if stop d || bool_decide (d ∈ seen) then walk fuel seen queue
          else walk fuel ({[d]} ∪ seen) (queue ++ next d)
      end
  end.

Inductive walk_reach (roots : list Digest) : Digest -> Prop :=
| wr_root d : d ∈ roots -> stop d = false -> walk_reach roots d
| wr_next d e : walk_reach roots d -> e ∈ next d -> stop e = false -> walk_reach roots e.

Lemma walk_spec_gen fuel seen queue s (R : Digest -> Prop) :
  walk fuel seen queue = Some s ->
  (forall d, d ∈ seen -> R d) -> (forall d, d ∈ queue -> stop d = false -> R d) ->
  (forall d e, R d -> e ∈ next d -> stop e = false -> R e) ->
  (forall d e, d ∈ seen -> e ∈ next d -> stop e = false -> e ∈ seen \/ e ∈ queue) ->
  (forall d, d ∈ s -> R d) /\ seen ⊆ s /\ (forall d, d ∈ queue -> stop d = false -> d ∈ s) /\
  (forall d e, d ∈ s -> e ∈ next d -> stop e = false -> e ∈ s).
Proof.
  revert seen queue. induction fuel as [|fuel IH]; intros seen [|d queue] H Hs Hq HR Hc;
    cbn [walk] in H; try done; [simplify_eq; split_and!; [done|done|by intros ? ?%elem_of_nil|]..|].
  1,2: intros d e Hd He Hst; destruct (Hc d e Hd He Hst) as [|Hbad]; [done|by apply elem_of_nil in Hbad].
  destruct (stop d || bool_decide (d ∈ seen)) eqn:E.
  - apply orb_true_iff in E. rewrite bool_decide_eq_true in E.
    destruct (IH seen queue H) as (H1 & H2 & H3 & H4); auto.
    + intros x Hx. apply Hq. by right.
    + intros x e Hx He Hst. destruct (Hc x e Hx He Hst) as [|[->|]%elem_of_cons]; auto.
      destruct E as [E|E]; [congruence|by left].
    + split_and!; auto. intros x [->|Hx]%elem_of_cons Hst; [|auto].
      destruct E as [E|E]; [congruence|set_solver].
  - apply orb_false_iff in E as [E1 E2]. rewrite bool_decide_eq_false in E2.
    assert (R d) as Hd by (apply Hq; [left|done]).
    destruct (IH ({[d]} ∪ seen) (queue ++ next d) H) as (H1 & H2 & H3 & H4).
    + intros x [->%elem_of_singleton|?]%elem_of_union; auto.
    + intros x [Hx|Hx]%elem_of_app Hst; [apply Hq; [by right|done]|by apply (HR d)].
    + done.
    + intros x e [->%elem_of_singleton|Hx]%elem_of_union He Hst.
      * right. apply elem_of_app. by right.
      * destruct (Hc x e Hx He Hst) as [|[->|]%elem_of_cons]; [left; set_solver|left; set_solver|].
        right. apply elem_of_app. by left.
    + split_and!; auto; [set_solver|].
      intros x [->|Hx]%elem_of_cons Hst; [set_solver|]. apply H3; [|done].
      apply elem_of_app. by left.
Qed.

Lemma walk_spec fuel roots s :
  walk fuel ∅ roots = Some s -> forall d, d ∈ s <-> walk_reach roots d.
Proof.
  intros H. destruct (walk_spec_gen fuel ∅ roots s (walk_reach roots) H) as (H1 & _ & H3 & H4).
  - set_solver.
  - intros. by apply wr_root.
  - intros. by eapply wr_next.
  - set_solver.
  - intros d. split; [auto|]. induction 1; eauto.
Qed.

(** Each expansion is paid for by the expanded digest's entry. *)
Context {A : Type} (m : gmap Digest A).
Context (Hnext : forall d, m !! d = None -> next d = []).

Definition unseen (seen : gset Digest) (d : Digest) (_ : A) : nat :=
  if bool_decide (d ∈ seen) then 0 else length (next d).

Lemma unseen_expand seen d :
  d ∉ seen -> (msum (unseen ({[d]} ∪ seen)) m + length (next d) <= msum (unseen seen) m)%nat.
Proof.
  intros Hd. destruct (m !! d) as [x|] eqn:E.
  - rewrite !(msum_delete _ m d x E). unfold unseen at 1 3.
    rewrite bool_decide_true by set_solver. rewrite bool_decide_false by done.
    assert (msum (unseen ({[d]} ∪ seen)) (delete d m) <= msum (unseen seen) (delete d m))%nat;
      [|lia].
    apply msum_mono. intros k y _. unfold unseen.
    repeat case_bool_decide; try lia. set_solver.
  - rewrite (Hnext d E). simpl. rewrite Nat.add_0_r. apply msum_mono. intros k y _. unfold unseen.
    repeat case_bool_decide; try lia. set_solver.
Qed.

Lemma walk_total fuel seen queue :
  (length queue + msum (unseen seen) m <= fuel)%nat -> is_Some (walk fuel seen queue).
Proof.
  revert seen queue. induction fuel as [|fuel IH]; intros seen [|d queue] Hf; cbn [walk];
    try (eexists; done); cbn [length] in Hf; [lia|].
  destruct (_ || _) eqn:E; [apply IH; lia|]. propify.
  apply IH. rewrite length_app. pose proof (unseen_expand seen d). lia.
Qed.
End walk.

(** ** Causal history *)

(** Digests a vertex leads to, at or above the floor. *)
Definition history_next (g : Dag) (d : Digest) : list Digest :=
  match get g d with
  | None => []
  | Some v => r_digest <$> filter (fun r => dag_floor g <= r_round r) (refs_of v)
  end.

(** [d] is reached from [root] by references at or above the floor, through
    vertices of the DAG, none of them skipped. *)
Definition in_history (g : Dag) (root : Digest) (skip : Digest -> bool) (d : Digest) : Prop :=
  walk_reach (history_next g) skip [root] d.

Definition ref_of (g : Dag) (d : Digest) : option VertexRef :=
  (fun v => mkRef (v_round v) (v_source v) d) <$> get g d.

Lemma history_loop_walk fuel g skip seen out queue :
  match walk (history_next g) skip fuel seen queue with
  | None => history_loop fuel g skip seen out queue = None
  | Some s => exists ds, history_loop fuel g skip seen out queue = Some (out ++ omap (ref_of g) ds)
                /\ NoDup ds /\ (forall d, d ∈ ds <-> d ∈ s /\ d ∉ seen) /\ seen ⊆ s
  end.
Proof.
  revert seen out queue. induction fuel as [|fuel IH]; intros seen out [|d queue];
    cbn [walk history_loop]; try done.
  1,2: exists []; rewrite app_nil_r; split_and!; [done|constructor| |done];
       set_solver.
  destruct (skip d || bool_decide (d ∈ seen)) eqn:E; [apply IH|].
  apply orb_false_iff in E as [_ E]. rewrite bool_decide_eq_false in E.
  assert (forall s ds, (forall x, x ∈ ds <-> x ∈ s /\ x ∉ {[d]} ∪ seen) -> {[d]} ∪ seen ⊆ s ->
    NoDup ds -> NoDup (d :: ds) /\ (forall x, x ∈ d :: ds <-> x ∈ s /\ x ∉ seen) /\ seen ⊆ s) as Hadd.
  { intros s ds Hds Hsub Hnd. split_and!.
    - constructor; [|done]. intros Hin%Hds. set_solver.
    - intros x. rewrite elem_of_cons, Hds. destruct (decide (x = d)) as [->|]; set_solver.
    - set_solver. }
  assert (history_next g d = match get g d with None => [] | Some v =>
    r_digest <$> filter (fun r => dag_floor g <= r_round r) (refs_of v) end) as -> by done.
  destruct (get g d) as [v|] eqn:Eg.
  - specialize (IH ({[d]} ∪ seen) (out ++ [mkRef (v_round v) (v_source v) d])
      (queue ++ (r_digest <$> filter (fun r => dag_floor g <= r_round r) (refs_of v)))).
    destruct (walk _ _ _ _ _) as [s|]; [|done].
    destruct IH as (ds & -> & Hnd & Hds & Hsub). exists (d :: ds).
    split; [|by apply Hadd]. cbn [omap list_omap]. unfold ref_of at 2. rewrite Eg. simpl.
    by rewrite <-app_assoc.
  - rewrite app_nil_r. specialize (IH ({[d]} ∪ seen) out queue).
    destruct (walk _ _ _ _ _) as [s|]; [|done].
    destruct IH as (ds & -> & Hnd & Hds & Hsub). exists (d :: ds).
    split; [|by apply Hadd]. cbn [omap list_omap]. unfold ref_of at 2. by rewrite Eg.
Qed.

Lemma dag_refs_unseen digest good g :
  DagWf digest good g ->
  (msum (unseen (history_next g) ∅) (by_digest g) <= dag_refs g)%nat.
Proof.
  intros Hwf. apply msum_mono. intros d p _. unfold unseen, history_next.
  rewrite bool_decide_false by set_solver. destruct (get g d); simpl; [|lia].
  rewrite length_fmap. apply length_filter.
Qed.

Lemma history_next_none digest good g d :
  DagWf digest good g -> by_digest g !! d = None -> history_next g d = [].
Proof.
  intros Hwf Hd. unfold history_next. destruct (get g d) as [v|] eqn:E; [|done].
  destruct (get_stored _ _ _ _ _ Hwf E) as (? & _). congruence.
Qed.

#[global] Instance ref_le_trans : Transitive ref_le.
Proof. intros a b c. unfold ref_le. lia. Qed.

#[global] Instance ref_le_total : Total ref_le.
Proof. intros a b. unfold ref_le. lia. Qed.

Lemma NoDup_omap_refs g ds : NoDup ds -> NoDup (omap (ref_of g) ds).
Proof.
  induction 1 as [|d ds Hni Hnd IH]; cbn [omap list_omap]; [constructor|].
  destruct (ref_of g d) as [x|] eqn:E; [|done]. constructor; [|done].
  rewrite list_elem_of_omap. intros (e & He & Hx). unfold ref_of in *.
  destruct (get g d), (get g e); simplify_eq/=. done.
Qed.

(** The walk is complete and its result sorted. *)
Lemma causal_history_walk digest good g root skip :
  DagWf digest good g ->
  is_Some (history_loop (S (dag_refs g)) g skip ∅ [] [root]) /\
  StronglySorted ref_le (causal_history g root skip) /\
  NoDup (causal_history g root skip) /\
  forall x, x ∈ causal_history g root skip <->
    in_history g root skip (r_digest x) /\
    exists v, get g (r_digest x) = Some v /\ x = mkRef (v_round v) (v_source v) (r_digest x).
Proof.
  intros Hwf.
  destruct (walk_total (history_next g) skip (by_digest g)
              (fun d => history_next_none digest good g d Hwf) (S (dag_refs g)) ∅ [root])
    as [s Es].
  { pose proof (dag_refs_unseen digest good g Hwf). cbn [length]. lia. }
  pose proof (history_loop_walk (S (dag_refs g)) g skip ∅ [] [root]) as Hl. rewrite Es in Hl.
  destruct Hl as (ds & El & Hnd & Hds & _). cbn [app] in El.
  assert (causal_history g root skip = merge_sort ref_le (omap (ref_of g) ds)) as Hc.
  { unfold causal_history. by rewrite El. }
  rewrite Hc. split_and!.
  - rewrite El. eauto.
  - apply (StronglySorted_merge_sort _).
  - rewrite merge_sort_Permutation. by apply NoDup_omap_refs.
  - intros x. rewrite merge_sort_Permutation, list_elem_of_omap. unfold ref_of. split.
    + intros (d & Hd & Hx). destruct (get g d) as [v|] eqn:Eg; [|done]. injection Hx as <-.
      cbn [r_digest]. apply Hds in Hd as [Hd _]. split; [by apply (walk_spec _ _ _ _ _ Es)|eauto].
    + intros (Hh & v & Hg & Hx). exists (r_digest x). rewrite Hg. split; [|cbn; by rewrite <-Hx].
      apply Hds. split; [|set_solver]. by apply (walk_spec _ _ _ _ _ Es).
Qed.

(** C31: the causal history of a root is computed in full and exactly: the walk
    ends within its bound, and returns, sorted by round, author and digest and
    each once, the references of the DAG's vertices reachable from the root
    without passing a skipped one. *)
Theorem causal_history_spec digest good g root skip :
  DagWf digest good g ->
  is_Some (history_loop (S (dag_refs g)) g skip ∅ [] [root]) /\
  StronglySorted ref_le (causal_history g root skip) /\
  NoDup (causal_history g root skip) /\
  forall x, x ∈ causal_history g root skip <->
    in_history g root skip (r_digest x) /\
    exists v, get g (r_digest x) = Some v /\ x = mkRef (v_round v) (v_source v) (r_digest x).
Proof. apply causal_history_walk. Qed.

(** ** Orphans *)

(** Digests a vertex leads to that are not ordered yet. *)
Definition orphan_next (g : Dag) (ordered : Digest -> bool) (d : Digest) : list Digest :=
  match get g d with
  | None => []
  | Some v => r_digest <$> filter (fun r => dag_floor g <= r_round r /\
                               ordered (r_digest r) = false) (refs_of v)
  end.

Lemma reachable_loop_walk fuel g ordered seen queue :
  reachable_loop fuel g ordered seen queue =
  walk (orphan_next g ordered) (fun _ => false) fuel seen queue.
Proof.
  revert seen queue. induction fuel as [|fuel IH]; intros seen [|d queue];
    cbn [reachable_loop walk orb]; try done.
  rewrite !IH. by destruct (bool_decide (d ∈ seen)).
Qed.

Lemma vertices_below_elem g round x :
  x ∈ vertices_below g round <->
  dag_floor g <= r_round x < round /\
  exists v, dag_at g (r_round x) (r_source x) = Some (r_digest x, v).
Proof.
  unfold vertices_below. rewrite merge_sort_Permutation, list_elem_of_In, in_flat_map.
  setoid_rewrite <-list_elem_of_In. setoid_rewrite list_elem_of_filter. unfold dag_at. split.
  - intros ([r m] & [Hr Hin] & ([s [d v]] & -> & Hs)%list_elem_of_fmap). cbn in *.
    apply elem_of_map_to_list in Hin, Hs. split; [done|]. rewrite Hin. simpl. eauto.
  - intros (Hr & v & Hat). destruct (rounds g !! r_round x) as [m|] eqn:E; [|done].
    simpl in Hat. exists (r_round x, m). cbn. split.
    + split; [done|]. by apply elem_of_map_to_list.
    + apply list_elem_of_fmap. exists (r_source x, (r_digest x, v)). cbn. split.
      * by destruct x.
      * by apply elem_of_map_to_list.
Qed.

(** The orphans a new vertex references weakly are, in order and up to the
    limit, exactly the vertices between the floor and the given round that are
    neither ordered nor reachable, through references not yet ordered, from
    the roots; the walk that finds the reachable ones ends within its bound. *)
Theorem orphans_below_spec digest good g round roots ordered limit :
  DagWf digest good g ->
  is_Some (reachable_loop (length roots + dag_refs g) g ordered ∅ roots) /\
  exists all,
    orphans_below g round roots ordered limit = (if (limit =? 0)%nat then all else take limit all) /\
    StronglySorted ref_le all /\
    forall x, x ∈ all <->
      dag_floor g <= r_round x < round /\
      (exists v, dag_at g (r_round x) (r_source x) = Some (r_digest x, v)) /\
      ordered (r_digest x) = false /\
      ~ walk_reach (orphan_next g ordered) (fun _ => false) roots (r_digest x).
Proof.
  intros Hwf.
  destruct (walk_total (orphan_next g ordered) (fun _ => false) (by_digest g))
    with (fuel := (length roots + dag_refs g)%nat) (seen := (∅ : gset Digest)) (queue := roots)
    as [s Es].
  { intros d Hd. unfold orphan_next. destruct (get g d) as [v|] eqn:E; [|done].
    destruct (get_stored _ _ _ _ _ Hwf E) as (? & _). congruence. }
  { apply Nat.add_le_mono_l. apply msum_mono. intros d p _. unfold unseen, orphan_next.
    rewrite bool_decide_false by set_solver. destruct (get g d); simpl; [|lia].
    rewrite length_fmap. apply length_filter. }
  unfold orphans_below. rewrite reachable_loop_walk, Es. split; [eauto|]. cbn [default].
  eexists. split; [reflexivity|]. split.
  - apply StronglySorted_filter, (StronglySorted_merge_sort _).
  - intros x. rewrite list_elem_of_filter, vertices_below_elem, (walk_spec _ _ _ _ _ Es). tauto.
Qed.

(** ** Strong paths *)

(** A chain of strong references from [d] ending in the reference [r]. *)
Inductive strong_reach (g : Dag) : Digest -> VertexRef -> Prop :=
| sr_ref d v r : get g d = Some v -> r ∈ v_strong v -> strong_reach g d r
| sr_step d v r r' : get g d = Some v -> r ∈ v_strong v ->
    strong_reach g (r_digest r) r' -> strong_reach g d r'.

(** Strong references go one round down, and say so. *)
Definition layered (g : Dag) : Prop :=
  forall d v r, get g d = Some v -> r ∈ v_strong v ->
    r_round r + 1 = v_round v /\
    forall w, get g (r_digest r) = Some w -> v_round w = r_round r.

Definition layeredb (g : Dag) : bool :=
  forallb (fun d =>
    match get g d with
    | None => true
    | Some v => forallb (fun r => (r_round r + 1 =? v_round v) &&
                  match get g (r_digest r) with
                  | None => true
                  | Some w => v_round w =? r_round r
                  end) (v_strong v)
    end) (map_to_list (by_digest g)).*1.

Lemma layeredb_sound g : layeredb g = true -> layered g.
Proof.
  unfold layeredb. rewrite forallb_forall. setoid_rewrite <-list_elem_of_In.
  intros H d v r Hg Hr.
  assert (d ∈ (map_to_list (by_digest g)).*1) as Hd.
  { apply get_at in Hg as (x & s & _ & Hd & _). apply list_elem_of_fmap.
    exists (d, (x, s)). split; [done|]. by apply elem_of_map_to_list. }
  specialize (H d Hd). rewrite Hg, forallb_forall in H. setoid_rewrite <-list_elem_of_In in H.
  specialize (H r Hr). propify. split; [done|]. intros w Hw. rewrite Hw in *. by propify.
Qed.

Lemma strong_reach_get g d r : strong_reach g d r -> is_Some (get g d).
Proof. destruct 1; eauto. Qed.

Lemma strong_reach_round g d r v :
  layered g -> strong_reach g d r -> get g d = Some v -> r_round r < v_round v.
Proof.
  intros HL H. revert v. induction H as [d v r Hg Hin|d v r r' Hg Hin Hs IH]; intros w Hw;
    rewrite Hg in Hw; injection Hw as ->; destruct (HL _ _ _ Hg Hin) as [Hr Hl]; [lia|].
  destruct (strong_reach_get _ _ _ Hs) as [u Hu]. specialize (IH u Hu). rewrite (Hl u Hu) in IH.
  lia.
Qed.

Definition hits (to r : VertexRef) : Prop := r_round r = r_round to /\ r_digest r = r_digest to.

Lemma level_refs_elem g (frontier : list Digest) r :
  r ∈ flat_map (fun d => match get g d with Some v => v_strong v | None => [] end) frontier <->
  exists d v, d ∈ frontier /\ get g d = Some v /\ r ∈ v_strong v.
Proof.
  rewrite list_elem_of_In, in_flat_map. setoid_rewrite <-list_elem_of_In. split.
  - intros (d & Hd & Hr). destruct (get g d) as [v|] eqn:E; [eauto|by apply elem_of_nil in Hr].
  - intros (d & v & Hd & Hg & Hr). exists d. by rewrite Hg.
Qed.

Lemma path_loop_spec g to levels frontier R :
  layered g -> R = r_round to + N.of_nat levels ->
  (forall d v, d ∈ frontier -> get g d = Some v -> v_round v = R) ->
  path_loop levels g to frontier = true <->
  exists d r, d ∈ frontier /\ strong_reach g d r /\ hits to r.
Proof.
  intros HL. revert R frontier. induction levels as [|n IH]; intros R frontier HR Hf.
  { cbn [path_loop]. split; [done|]. intros (d & r & Hd & Hs & Hr & _).
    destruct (strong_reach_get _ _ _ Hs) as [v Hv].
    pose proof (strong_reach_round _ _ _ _ HL Hs Hv). rewrite (Hf d v Hd Hv) in H. lia. }
  cbn [path_loop path_level].
  set (refs := flat_map _ frontier).
  assert (forall r, r ∈ refs -> r_round r + 1 = R) as Hrr.
  { intros r (d & v & Hd & Hg & Hr)%level_refs_elem. rewrite <-(Hf d v Hd Hg).
    by apply (HL d v r). }
  rewrite orb_true_iff, (IH (R - 1)); [|lia|].
  2:{ intros d v Hd Hg. rewrite elem_of_remove_dups in Hd.
      apply list_elem_of_fmap in Hd as (r & -> & [_ Hr]%list_elem_of_filter).
      pose proof (Hrr r Hr). apply level_refs_elem in Hr as (e & w & He & Hw & Hrw).
      destruct (HL e w r Hw Hrw) as [_ Hl]. rewrite (Hl v Hg). lia. }
  rewrite existsb_exists. setoid_rewrite <-list_elem_of_In. split.
  - intros [(r & Hr & Hb)|(d & r & Hd & Hs & Hh)].
    + apply andb_true_iff in Hb as [H1%N.eqb_eq H2%N.eqb_eq].
      apply level_refs_elem in Hr as (d & v & Hd & Hg & Hr).
      exists d, r. split_and!; [done|by eapply sr_ref|done].
    + rewrite elem_of_remove_dups in Hd.
      apply list_elem_of_fmap in Hd as (x & -> & [_ Hx]%list_elem_of_filter).
      apply level_refs_elem in Hx as (d & v & Hd & Hg & Hx).
      exists d, r. split_and!; [done|by eapply sr_step|done].
  - intros (d & r & Hd & Hs & Hh).
    destruct Hs as [d v r Hg Hr|d v r r' Hg Hr Hs].
    + left. exists r. split; [apply level_refs_elem; eauto|].
      destruct Hh as [-> ->]. by rewrite !N.eqb_refl.
    + right. exists (r_digest r), r'. split_and!; [|done|done].
      rewrite elem_of_remove_dups. apply list_elem_of_fmap_2, list_elem_of_filter.
      split; [|apply level_refs_elem; eauto].
      destruct (strong_reach_get _ _ _ Hs) as [w Hw].
      pose proof (strong_reach_round _ _ _ _ HL Hs Hw).
      destruct (HL d v r Hg Hr) as [_ Hl]. rewrite (Hl w Hw) in H.
      destruct Hh as [<- _]. lia.
Qed.

Lemma strong_path_iff g from to :
  layered g ->
  strong_path g from to = true <->
  exists v, get g from = Some v /\ r_round to <= v_round v /\
    (from = r_digest to \/ exists r, strong_reach g from r /\ hits to r).
Proof.
  intros HL. unfold strong_path. destruct (get g from) as [v|] eqn:Eg.
  2:{ split; [done|]. by intros (? & ? & _). }
  destruct (N.ltb_spec (v_round v) (r_round to)) as [Hlt|Hle].
  { split; [done|]. intros (w & [= <-] & ? & _). lia. }
  destruct (N.eqb_spec from (r_digest to)) as [Heq|Hne].
  { split; [|done]. intros _. exists v. auto. }
  rewrite (path_loop_spec g to _ [from] (v_round v)); [|done|lia|].
  2:{ intros d w ->%list_elem_of_singleton Hw. congruence. }
  split.
  - intros (d & r & ->%list_elem_of_singleton & Hs & Hh). exists v. eauto 10.
  - intros (w & [= <-] & _ & [?|(r & Hs & Hh)]); [done|].
    exists from, r. split_and!; [left|done|done].
Qed.

(** C32: on a DAG whose strong references go one round down and name the round of
    the vertex they point to ([layered]; the code compares no label with the
    vertex, so a mislabelled reference is outside), the level-by-level search
    answers exactly whether a chain of strong references leads from a vertex to
    another (or they are the same vertex). *)
Theorem strong_path_spec g from to :
  layered g ->
  strong_path g from to = true <->
  exists v, get g from = Some v /\ r_round to <= v_round v /\
    (from = r_digest to \/ exists r, strong_reach g from r /\ hits to r).
Proof. apply strong_path_iff. Qed.

(** ** On the sample DAG *)

Lemma sample_wf : DagWf sample_digest (fun _ => True) sample_dag.
Proof. eapply reachable_wf. exact sample_dag_reachable. Qed.

Lemma causal_history_spec_witness :
  causal_history sample_dag 12 (fun _ => false) = [mkRef 0 1 11; mkRef 1 0 12] /\
  NoDup (causal_history sample_dag 12 (fun _ => false)).
Proof.
  split; [vm_compute; reflexivity|].
  apply (causal_history_spec sample_digest (fun _ => True) sample_dag 12 (fun _ => false) sample_wf).
Defined.

Lemma orphans_below_spec_witness :
  orphans_below sample_dag 2 [12] (fun _ => false) 4 = [mkRef 1 2 13] /\
  is_Some (reachable_loop (1 + dag_refs sample_dag) sample_dag (fun _ => false) ∅ [12]).
Proof.
  split; [vm_compute; reflexivity|].
  apply (orphans_below_spec sample_digest (fun _ => True) sample_dag 2 [12] (fun _ => false) 4
           sample_wf).
Defined.

Lemma strong_path_spec_witness :
  layered sample_dag /\ exists r, strong_reach sample_dag 12 r /\ hits (mkRef 0 1 11) r.
Proof.
  assert (layered sample_dag) as HL by (apply layeredb_sound; vm_compute; reflexivity).
  split; [done|].
  destruct (proj1 (strong_path_spec sample_dag 12 (mkRef 0 1 11) HL)) as (v & _ & _ & [Hb|Hr]);
    [vm_compute; reflexivity|discriminate|done].
Defined.
