(* ===== verification/Schedule.v ===== *)
(** The leader schedule ([tenzro-consensus/src/schedule.rs]).

    Leaders are drawn slot by slot. Every member earns its weight in credit,
    the leader is picked by a hash among the members with positive credit that
    lead no earlier slot of the round, and pays the total weight. The two BLAKE3
    hashes (the draw, and the seed a checkpoint releases) are parameters.
    Credits are [i64] in the source and [Z] here; [credit_bound] states how far
    from zero they can be, hence for how many draws the two agree. *)

From stdpp Require Import prelude gmap list sorting.
From Stdlib Require Import NArith ZArith Lia.
From S2P Require Import Prelude Committee.

(** ** State *)

Definition LOOKAHEAD_ROUNDS : Round := 4.
Definition BEHAVIOUR_WINDOW : nat := 200.
Definition ACTIVE_FACTOR : N := 1000.
Definition FAILED_FACTOR : N := 1.
Definition FAILURE_THRESHOLD_PERCENT : N := 10.
Definition SNAPSHOT_EVERY : Round := 64.

Record Entry := mkEntry {
  e_from : Round;
  e_seed : Digest;
  e_weights : list N;
  e_total : N;
}.

Definition entry_new (from : Round) (seed : Digest) (weights : list N) : Entry :=
  mkEntry from seed weights (nsum weights mod 2 ^ 64).

Record Drawn := mkDrawn {
  dr_slots : nat;
  dr_base : Round;
  dr_leaders : list ValidatorIndex;
  dr_credit : list Z;
  dr_snapshots : list (Round * list Z);
}.

Definition drawn_new (n slots : nat) : Drawn :=
  mkDrawn slots 0 [] (replicate n 0%Z) [(0, replicate n 0%Z)].

Definition next_round (d : Drawn) : Round :=
  dr_base d + N.of_nat (length (dr_leaders d) / dr_slots d).

Definition draw_index (d : Drawn) (round : Round) (slot : nat) : nat :=
  N.to_nat (round - dr_base d) * dr_slots d + slot.

Record Schedule := mkSchedule {
  sc_lookahead : Round;
  sc_entries : list Entry;
  sc_outcomes : list (ValidatorIndex * bool);
  sc_drawn : Drawn;
}.

Record ScheduleState := mkScheduleState {
  st_entries : list (Round * Digest * list N);
  st_outcomes : list (ValidatorIndex * bool);
  st_slots : N;
  st_lookahead : Round;
  st_base : Round;
  st_credit : list Z;
}.

(** ** Drawing *)

(** [for (c, w) in credit.iter_mut().zip(&weights) { *c += *w }]. *)
Fixpoint earn (credit : list Z) (weights : list N) : list Z :=
  match credit, weights with
  | c :: credit, w :: weights => (c + Z.of_N w)%Z :: earn credit weights
  | _, _ => credit
  end.

Definition pay (credit : list Z) (leader : nat) (total : N) : list Z :=
  alter (fun c => (c - Z.of_N total)%Z) leader credit.

(** Members with positive credit that lead no earlier slot of the round, with
    their weights, in index order. *)
Definition due_members (credit : list Z) (weights : list N) (picked : list nat)
  : list (nat * N) :=
  omap (fun p => let '(i, (c, w)) := p in
                 if (0 <? c)%Z && negb (bool_decide (i ∈ picked)) then Some (i, w) else None)
    (imap pair (zip credit weights)).

(** The scan that turns a draw below the due weight into a member. *)
Fixpoint pick_due (due : list (nat * N)) (draw : N) : nat :=
  match due with
  | [] => 0%nat
  | (i, w) :: due => if draw <? w then i else pick_due due (draw - w)
  end.

(** The open member holding the most credit, the lowest index among equals. *)
Definition richest_open (credit : list Z) (picked : list nat) : option nat :=
  foldr (fun p acc =>
           if bool_decide (p.1 ∈ picked) then acc
           else match acc with
                | Some q => if (q.2 <=? p.2)%Z then Some p else acc
                | None => Some p
                end) None (imap pair credit) ≫= fun p => Some p.1.

Section draw.
(** The first eight bytes of the BLAKE3 hash of seed, round and slot. *)
Context (draw_hash : Digest -> Round -> nat -> N).

Definition pick_leader (e : Entry) (round : Round) (slot : nat) (credit : list Z)
    (picked : list nat) : nat :=
  let due := due_members credit (e_weights e) picked in
  let sum := nsum due.*2 mod 2 ^ 64 in
  if sum =? 0 then default 0%nat (richest_open credit picked)
  else pick_due due (draw_hash (e_seed e) round slot mod sum).

Definition draw_slot (e : Entry) (round : Round) (st : list Z * list nat) (slot : nat)
  : list Z * list nat :=
  let '(credit, picked) := st in
  let credit := earn credit (e_weights e) in
  let leader := pick_leader e round slot credit picked in
  (pay credit leader (e_total e), picked ++ [leader]).

(** The leaders of one round, from the credit before it. *)
Definition draw_round (e : Entry) (slots : nat) (round : Round) (credit : list Z)
  : list Z * list nat :=
  foldl (draw_slot e round) (credit, []) (seq 0 slots).

Definition draw (d : Drawn) (e : Entry) : Drawn :=
  let round := next_round d in
  let snapshots :=
    if (round mod SNAPSHOT_EVERY =? 0) &&
       match last (dr_snapshots d) with Some (r, _) => r <? round | None => true end
    then dr_snapshots d ++ [(round, dr_credit d)] else dr_snapshots d in
  let '(credit, ls) := draw_round e (dr_slots d) round (dr_credit d) in
  mkDrawn (dr_slots d) (dr_base d) (dr_leaders d ++ ls) credit snapshots.

(** The last entry in force at a round; the first when none is. *)
Definition entry_for (entries : list Entry) (round : Round) : Entry :=
  match last (filter (fun e => e_from e <= round) entries) with
  | Some e => e
  | None => hd (mkEntry 0 0 [] 0) entries
  end.

(** ** Forgetting draws *)

(** Earns and pays again for the leaders recorded for round [r]. *)
Definition replay_recorded (d : Drawn) (e : Entry) (r : Round) (credit : list Z) : list Z :=
  foldl (fun credit slot =>
           pay (earn credit (e_weights e))
             (default 0%nat (dr_leaders d !! draw_index d r slot)) (e_total e))
    credit (seq 0 (dr_slots d)).

Definition rounds_between (from to : Round) : list Round :=
  (fun i => from + N.of_nat i) <$> seq 0 (N.to_nat (to - from)).

Definition truncate (d : Drawn) (round : Round) (entries : list Entry) : Drawn :=
  if next_round d <=? round then d
  else
    let round := N.max round (dr_base d) in
    let snapshots := filter (fun p => p.1 <= round) (dr_snapshots d) in
    match last snapshots with
    | None => d
    | Some (from, credit) =>
        let credit := foldl (fun credit r => replay_recorded d (entry_for entries r) r credit)
                        credit (rounds_between from round) in
        mkDrawn (dr_slots d) (dr_base d) (take (draw_index d round 0) (dr_leaders d)) credit
          snapshots
    end.

(** The position of the last element that satisfies a test. *)
Fixpoint rposition {A} (f : A -> bool) (l : list A) : option nat :=
  match l with
  | [] => None
  | x :: l => match rposition f l with
              | Some i => Some (S i)
              | None => if f x then Some 0%nat else None
              end
  end.

Definition drawn_prune_below (d : Drawn) (round : Round) : Drawn :=
  let keep := default 0%nat (rposition (fun p => p.1 <=? round) (dr_snapshots d)) in
  let snapshots := drop keep (dr_snapshots d) in
  match snapshots with
  | [] => d
  | (new_base, _) :: _ =>
      mkDrawn (dr_slots d) new_base
        (drop (N.to_nat (new_base - dr_base d) * dr_slots d) (dr_leaders d))
        (dr_credit d) snapshots
  end.

(** ** The schedule *)

Definition schedule_new (c : Committee) (epoch_seed : Digest) (slots : nat) (lookahead : Round)
  : Schedule :=
  let weights := (fun m => (m_seats m * ACTIVE_FACTOR) mod 2 ^ 64) <$> c_members c in
  let slots := Nat.min (Nat.max slots 1) (Nat.max (committee_size c) 1) in
  mkSchedule (N.max lookahead 1) [entry_new 0 epoch_seed weights] []
    (drawn_new (committee_size c) slots).

Definition sc_slots (s : Schedule) : nat := dr_slots (sc_drawn s).

Definition export (s : Schedule) : option ScheduleState :=
  match dr_snapshots (sc_drawn s) with
  | [] => None
  | (base, credit) :: _ =>
      Some (mkScheduleState ((fun e => (e_from e, e_seed e, e_weights e)) <$> sc_entries s)
              (sc_outcomes s) (N.of_nat (dr_slots (sc_drawn s))) (sc_lookahead s) base credit)
  end.

Definition import (st : ScheduleState) : Schedule :=
  mkSchedule (N.max (st_lookahead st) 1)
    ((fun p => entry_new p.1.1 p.1.2 p.2) <$> st_entries st)
    (st_outcomes st)
    (mkDrawn (Nat.max (N.to_nat (st_slots st)) 1) (st_base st) [] (st_credit st)
       [(st_base st, st_credit st)]).

Fixpoint draw_rounds (n : nat) (entries : list Entry) (d : Drawn) : Drawn :=
  match n with
  | O => d
  | S n => draw_rounds n entries (draw d (entry_for entries (next_round d)))
  end.

(** Draws up to the round asked for, as the source caches behind its lock. *)
Definition leader (s : Schedule) (round : Round) (slot : nat) : Schedule * ValidatorIndex :=
  let d := sc_drawn s in
  let slot := Nat.min slot (dr_slots d - 1) in
  let put d := mkSchedule (sc_lookahead s) (sc_entries s) (sc_outcomes s) d in
  if round <? dr_base d then
    let d := match dr_leaders d with
             | [] => draw d (entry_for (sc_entries s) (dr_base d))
             | _ => d
             end in
    (put d, default 0%nat (dr_leaders d !! slot))
  else
    let d := draw_rounds (N.to_nat (round + 1 - next_round d)) (sc_entries s) d in
    (put d, default 0%nat (dr_leaders d !! draw_index d round slot)).

Definition leader_of (s : Schedule) (round : Round) (slot : nat) : ValidatorIndex :=
  (leader s round slot).2.

Definition leads (s : Schedule) (round : Round) (v : ValidatorIndex) : bool :=
  existsb (fun slot => (leader_of s round slot =? v)%nat) (seq 0 (sc_slots s)).

Definition record_outcome (s : Schedule) (l : ValidatorIndex) (committed : bool) : Schedule :=
  let outcomes := sc_outcomes s ++ [(l, committed)] in
  mkSchedule (sc_lookahead s) (sc_entries s)
    (drop (length outcomes - BEHAVIOUR_WINDOW) outcomes) (sc_drawn s).

(** Slots led and skipped by a member among the recent outcomes. *)
Definition outcome_counts (outcomes : list (ValidatorIndex * bool)) (i : nat) : N * N :=
  let own := filter (fun o => o.1 = i) outcomes in
  (N.of_nat (length own), N.of_nat (length (filter (fun o => o.2 = false) own))).

Definition behaviour_weight (outcomes : list (ValidatorIndex * bool)) (i : nat) (m : Member) : N :=
  let '(total, skipped) := outcome_counts outcomes i in
  let failed := (0 <? total) && (total * FAILURE_THRESHOLD_PERCENT <? skipped * 100) in
  (m_seats m * (if failed then FAILED_FACTOR else ACTIVE_FACTOR)) mod 2 ^ 64.

(** The seed a checkpoint releases, BLAKE3 of the domain and its digest. *)
Context (seed_hash : Digest -> Digest).

Definition advance (c : Committee) (s : Schedule) (anchor_round : Round)
    (seed_checkpoint : Digest) : Schedule :=
  let weights := imap (behaviour_weight (sc_outcomes s)) (c_members c) in
  let from := anchor_round + sc_lookahead s + 1 in
  let drawn := truncate (sc_drawn s) from (sc_entries s) in
  let entries := filter (fun e => e_from e < from) (sc_entries s)
                 ++ [entry_new from (seed_hash seed_checkpoint) weights] in
  let drawn := drawn_prune_below drawn anchor_round in
  let keep_from := default 0%nat (rposition (fun e => e_from e <=? dr_base drawn) entries) in
  mkSchedule (sc_lookahead s) (drop keep_from entries) (sc_outcomes s) drawn.
End draw.

(** ** Credit *)

Definition zsum (l : list Z) : Z := foldr Z.add 0%Z l.

Lemma earn_length credit weights : length (earn credit weights) = length credit.
Proof.
  revert weights. induction credit as [|c credit IH]; intros [|w weights]; simpl; auto.
Qed.

Lemma earn_lookup credit weights i :
  earn credit weights !! i =
  match credit !! i, weights !! i with
  | Some c, Some w => Some (c + Z.of_N w)%Z
  | o, _ => o
  end.
Proof.
  revert weights i. induction credit as [|c credit IH]; intros [|w weights] [|i]; simpl; auto.
  by destruct (credit !! i).
Qed.

Lemma earn_sum credit weights :
  length credit = length weights ->
  zsum (earn credit weights) = (zsum credit + Z.of_N (nsum weights))%Z.
Proof.
  revert weights. induction credit as [|c credit IH]; intros [|w weights] Hl; try done.
  simpl in Hl. rewrite nsum_cons. cbn [earn zsum foldr].
  change (foldr Z.add 0%Z (earn credit weights)) with (zsum (earn credit weights)).
  rewrite IH by lia. unfold zsum. lia.
Qed.

Lemma zsum_pay credit i total :
  (i < length credit)%nat -> zsum (pay credit i total) = (zsum credit - Z.of_N total)%Z.
Proof.
  revert i. induction credit as [|c credit IH]; intros [|i] Hi; simpl in *; try lia.
  unfold zsum, pay in *. rewrite IH by lia. lia.
Qed.

Lemma pay_length credit i total : length (pay credit i total) = length credit.
Proof. apply length_alter. Qed.

Lemma pay_lookup credit i total j :
  pay credit i total !! j =
  (if decide (j = i) then (fun c => (c - Z.of_N total)%Z) <$> credit !! j else credit !! j).
Proof.
  unfold pay. destruct (decide (j = i)) as [->|]; [by rewrite list_lookup_alter_eq|].
  by rewrite list_lookup_alter_ne.
Qed.

(** ** The pick is an open member *)

Lemma due_members_elem credit weights picked i w :
  (i, w) ∈ due_members credit weights picked <->
  exists c, credit !! i = Some c /\ weights !! i = Some w /\ (0 < c)%Z /\ i ∉ picked.
Proof.
  unfold due_members. rewrite list_elem_of_omap. split.
  - intros ([j [c w']] & Hin & Hif). apply elem_of_lookup_imap in Hin as (k & [c1 w1] & Heq & Hk).
    injection Heq as -> -> ->. apply lookup_zip_with_Some in Hk as (c' & w'' & [= -> ->] & Hc & Hw).
    destruct ((0 <? c')%Z) eqn:E; [|done]. case_bool_decide; [done|]. simpl in Hif.
    injection Hif as -> ->. apply Z.ltb_lt in E. eauto.
  - intros (c & Hc & Hw & Hpos & Hni). exists (i, (c, w)). split.
    + apply elem_of_lookup_imap. exists i, (c, w). split; [done|].
      apply lookup_zip_with_Some. eauto.
    + rewrite (proj2 (Z.ltb_lt 0 c)), bool_decide_false by done. done.
Qed.

Lemma due_sum_le credit weights picked :
  nsum (due_members credit weights picked).*2 <= nsum weights.
Proof.
  unfold due_members.
  assert (forall (l : list (Z * N)) (h : nat -> nat),
    nsum (omap (fun p => let '(i, (c, w)) := p in
        if (0 <? c)%Z && negb (bool_decide (i ∈ picked)) then Some (i, w) else None)
        (imap (fun i x => (h i, x)) l)).*2 <= nsum l.*2) as Hgen.
  { induction l as [|[c w] l IH]; intros h; [done|]. rewrite imap_cons. cbn [omap list_omap].
    specialize (IH (h ∘ S)). rewrite fmap_cons, nsum_cons. cbn [snd].
    destruct (_ && _); [rewrite fmap_cons, nsum_cons; cbn [snd]|]; unfold compose in *; lia. }
  specialize (Hgen (zip credit weights) id). etransitivity; [exact Hgen|].
  clear. revert weights. induction credit as [|c credit IH]; intros [|w weights];
    [apply N.le_0_l..|]. cbn [zip_with]. rewrite fmap_cons, !nsum_cons. cbn [snd].
  specialize (IH weights). lia.
Qed.

Lemma pick_due_elem due draw :
  draw < nsum due.*2 -> exists w, (pick_due due draw, w) ∈ due.
Proof.
  revert draw. induction due as [|[i w] due IH]; intros draw Hd; cbn [pick_due].
  { simpl in Hd. lia. }
  rewrite fmap_cons, nsum_cons in Hd. cbn [snd] in Hd.
  destruct (N.ltb_spec draw w); [exists w; left|].
  destruct (IH (draw - w)) as [w' Hw']; [lia|]. exists w'. by right.
Qed.

Lemma richest_open_gen (l : list (nat * Z)) (picked : list nat) :
  (exists p, p ∈ l /\ p.1 ∉ picked) ->
  exists p, foldr (fun p acc =>
           if bool_decide (p.1 ∈ picked) then acc
           else match acc with
                | Some q => if (q.2 <=? p.2)%Z then Some p else acc
                | None => Some p
                end) None l = Some p /\ p ∈ l /\ p.1 ∉ picked /\
    forall q, q ∈ l -> q.1 ∉ picked -> (q.2 <= p.2)%Z.
Proof.
  induction l as [|a l IH]; intros (p & Hp & Hn); [by apply elem_of_nil in Hp|].
  cbn [foldr]. case_bool_decide as Ha.
  - destruct IH as (q & -> & Hq & Hqn & Hmax).
    { exists p. split; [|done]. apply elem_of_cons in Hp as [->|]; done. }
    exists q. split_and!; [done|by right|done|]. intros x [->|]%elem_of_cons ?; [done|auto].
  - destruct (decide (Exists (fun p => p.1 ∉ picked) l)) as [He|He].
    + apply Exists_exists in He. destruct (IH He) as (q & -> & Hq & Hqn & Hmax).
      destruct (Z.leb_spec q.2 a.2).
      * exists a. split_and!; [done|left|done|]. intros x [->|Hx]%elem_of_cons Hxn; [lia|].
        specialize (Hmax x Hx Hxn). lia.
      * exists q. split_and!; [done|by right|done|]. intros x [->|]%elem_of_cons ?; [lia|auto].
    + assert (forall x, x ∈ l -> x.1 ∈ picked) as Hall.
      { intros x Hx. destruct (decide (x.1 ∈ picked)); [done|]. destruct He.
        apply Exists_exists. eauto. }
      assert (foldr (fun p acc => if bool_decide (p.1 ∈ picked) then acc
           else match acc with
                | Some q => if (q.2 <=? p.2)%Z then Some p else acc
                | None => Some p
                end) None l = None) as ->.
      { clear -Hall. induction l as [|x l IHl]; [done|]. cbn [foldr].
        rewrite bool_decide_true by (apply Hall; left). apply IHl. intros y Hy. apply Hall. by right. }
      exists a. split_and!; [done|left|done|]. intros x [->|Hx]%elem_of_cons Hxn; [lia|].
      by apply Hall in Hx.
Qed.

Lemma open_exists n (picked : list nat) :
  (length picked < n)%nat -> exists i, (i < n)%nat /\ i ∉ picked.
Proof.
  intros Hlt. destruct (decide (Exists (fun i => i ∉ picked) (seq 0 n))) as [He|He].
  - apply Exists_exists in He as (i & Hi & Hn). apply elem_of_seq in Hi. exists i. split; [lia|done].
  - exfalso. assert (seq 0 n ⊆ picked) as Hsub.
    { intros i Hi. destruct (decide (i ∈ picked)); [done|]. destruct He. apply Exists_exists. eauto. }
    pose proof (submseteq_length _ _ (NoDup_submseteq _ _ (NoDup_seq 0 n) Hsub)) as Hle.
    rewrite length_seq in Hle. lia.
Qed.

Section one_draw.
Context (draw_hash : Digest -> Round -> nat -> N).

Lemma pick_leader_open e round slot credit picked :
  (length picked < length credit)%nat -> length (e_weights e) = length credit ->
  (pick_leader draw_hash e round slot credit picked < length credit)%nat /\
  pick_leader draw_hash e round slot credit picked ∉ picked.
Proof.
  intros Hp Hw. unfold pick_leader. set (due := due_members _ _ _).
  destruct (N.eqb_spec (nsum due.*2 mod 2 ^ 64) 0) as [Hz|Hnz].
  - unfold richest_open.
    destruct (richest_open_gen (imap pair credit) picked) as ([i c] & -> & Hin & Hn & _).
    { destruct (open_exists (length credit) picked Hp) as (i & Hi & Hni).
      apply lookup_lt_is_Some in Hi as [c Hc]. exists (i, c). split; [|done].
      apply elem_of_lookup_imap. eauto. }
    simpl. apply elem_of_lookup_imap in Hin as (j & c' & [= -> ->] & Hj).
    split; [by eapply lookup_lt_Some|done].
  - destruct (pick_due_elem due (draw_hash (e_seed e) round slot mod (nsum due.*2 mod 2 ^ 64)))
      as [w Hin].
    { pose proof (N.mod_lt (draw_hash (e_seed e) round slot) _ Hnz).
      pose proof (N.Div0.mod_le (nsum due.*2) (2 ^ 64)). lia. }
    apply due_members_elem in Hin as (c & Hc & _ & _ & Hn). split; [by eapply lookup_lt_Some|done].
Qed.

(** State of a round's draw after some of its slots. *)
Definition draw_slots (e : Entry) (round : Round) (credit : list Z) (k : nat)
  : list Z * list nat := foldl (draw_slot draw_hash e round) (credit, []) (seq 0 k).

Lemma draw_slots_S e round credit k :
  draw_slots e round credit (S k) =
  draw_slot draw_hash e round (draw_slots e round credit k) k.
Proof. unfold draw_slots. rewrite seq_S, foldl_app. done. Qed.

Lemma draw_slots_spec e round credit k :
  (k <= length credit)%nat -> length (e_weights e) = length credit ->
  e_total e = nsum (e_weights e) ->
  let '(credit', picked) := draw_slots e round credit k in
  length credit' = length credit /\ length picked = k /\ NoDup picked /\
  Forall (fun i => (i < length credit)%nat) picked /\ zsum credit' = zsum credit.
Proof.
  intros Hk Hw Ht. induction k as [|k IH]; [by repeat constructor|].
  rewrite draw_slots_S. specialize (IH ltac:(lia)).
  destruct (draw_slots e round credit k) as [credit1 picked]. destruct IH as (Hl & Hp & Hnd & HF & Hs).
  unfold draw_slot. set (credit2 := earn credit1 (e_weights e)).
  assert (length credit2 = length credit) as Hl2 by (unfold credit2; rewrite earn_length; lia).
  destruct (pick_leader_open e round k credit2 picked) as [Hlt Hni]; [lia|lia|].
  split_and!.
  - rewrite pay_length. lia.
  - rewrite length_app. simpl. lia.
  - apply NoDup_app. split_and!; [done| |apply NoDup_singleton].
    by intros x Hx ->%list_elem_of_singleton.
  - apply Forall_app. split; [done|]. constructor; [lia|constructor].
  - rewrite zsum_pay by done. unfold credit2. rewrite earn_sum by lia. lia.
Qed.

(** With one slot a round, the leader had positive credit. *)
Lemma single_leader_due e round slot credit :
  length (e_weights e) = length credit -> Forall (fun w => 0 < w) (e_weights e) ->
  nsum (e_weights e) <= U64_MAX -> (0 < zsum credit)%Z ->
  exists c, credit !! pick_leader draw_hash e round slot credit [] = Some c /\ (0 < c)%Z.
Proof.
  intros Hl HF Hmax Hs. unfold pick_leader. set (due := due_members _ _ _).
  assert (exists i c, credit !! i = Some c /\ (0 < c)%Z) as (i & c & Hi & Hc).
  { clear -Hs. induction credit as [|c credit IH]; [simpl in Hs; lia|].
    destruct (Z.ltb_spec 0 c) as [Hc|Hc]; [by exists 0%nat, c|].
    destruct IH as (i & c' & Hi & Hc'); [unfold zsum in *; simpl in Hs; lia|].
    by exists (S i), c'. }
  assert (is_Some (e_weights e !! i)) as [w Hw].
  { apply lookup_lt_is_Some. rewrite Hl. by eapply lookup_lt_Some. }
  assert ((i, w) ∈ due) as Hin by (apply due_members_elem; exists c; split_and!; [done..|set_solver]).
  assert (w <= nsum due.*2) as Hwd.
  { apply nsum_elem_le, list_elem_of_fmap. by exists (i, w). }
  assert (0 < w) as Hw0 by (by eapply Forall_lookup_1 in HF).
  pose proof (due_sum_le credit (e_weights e) []) as Hdl. fold due in Hdl.
  rewrite (N.mod_small (nsum due.*2)) by (unfold U64_MAX in Hmax; lia).
  destruct (N.eqb_spec (nsum due.*2) 0); [lia|].
  destruct (pick_due_elem due (draw_hash (e_seed e) round slot mod nsum due.*2)) as [w' Hin'].
  { apply N.mod_lt. lia. }
  apply due_members_elem in Hin' as (c' & Hc' & _ & Hpos & _). eauto.
Qed.
End one_draw.

(** ** What the cached draws are

    [replay n entries slots base credit] draws [n] rounds from round [base] and
    credit [credit], without caching, snapshots or pruning. The cache of a
    schedule is always a piece of it. *)

Section replay.
Context (draw_hash : Digest -> Round -> nat -> N).

Fixpoint replay (n : nat) (entries : list Entry) (slots : nat) (base : Round) (credit : list Z)
  : list Z * list nat :=
  match n with
  | O => (credit, [])
  | S n =>
      let '(credit, ls) := replay n entries slots base credit in
      let round := base + N.of_nat n in
      let '(credit, new) := draw_round draw_hash (entry_for entries round) slots round credit in
      (credit, ls ++ new)
  end.

Lemma draw_round_length e slots round credit :
  length (draw_round draw_hash e slots round credit).2 = slots.
Proof.
  unfold draw_round.
  assert (forall k st, length (foldl (draw_slot draw_hash e round) st (seq k slots)).2
                       = (length st.2 + slots)%nat) as H.
  { induction slots as [|n IH]; intros k [cr p]; cbn [seq foldl]; [simpl; lia|].
    rewrite IH. simpl. rewrite length_app. simpl. lia. }
  by rewrite H.
Qed.

Lemma replay_length n entries slots base credit :
  length (replay n entries slots base credit).2 = (n * slots)%nat.
Proof.
  induction n as [|n IH]; [done|]. cbn [replay].
  destruct (replay n entries slots base credit) as [cr ls].
  pose proof (draw_round_length (entry_for entries (base + N.of_nat n)) slots
                (base + N.of_nat n) cr).
  destruct (draw_round _ _ _ _ _) as [cr' new]. simpl in *. rewrite length_app. lia.
Qed.

Lemma replay_prefix n m entries slots base credit :
  (n <= m)%nat -> (replay n entries slots base credit).2 `prefix_of`
                  (replay m entries slots base credit).2.
Proof.
  induction 1 as [|m _ IH]; [done|]. etransitivity; [exact IH|]. cbn [replay].
  destruct (replay m entries slots base credit) as [cr ls].
  destruct (draw_round _ _ _ _ _) as [cr' new]. simpl. by apply prefix_app_r.
Qed.

Lemma replay_app n m entries slots base credit :
  replay (n + m) entries slots base credit =
  let '(cr, ls) := replay n entries slots base credit in
  let '(cr', ls') := replay m entries slots (base + N.of_nat n) cr in (cr', ls ++ ls').
Proof.
  induction m as [|m IH].
  - rewrite Nat.add_0_r. destruct (replay n _ _ _ _). cbn [replay]. by rewrite app_nil_r.
  - rewrite Nat.add_succ_r. cbn [replay]. rewrite IH.
    destruct (replay n entries slots base credit) as [cr ls].
    destruct (replay m entries slots (base + N.of_nat n) cr) as [cr1 ls1].
    replace (base + N.of_nat (n + m)) with (base + N.of_nat n + N.of_nat m) by lia.
    destruct (draw_round _ _ _ _ _) as [cr2 new]. by rewrite app_assoc.
Qed.

Lemma replay_ext n entries entries' slots base credit :
  (forall r, base <= r < base + N.of_nat n -> entry_for entries r = entry_for entries' r) ->
  replay n entries slots base credit = replay n entries' slots base credit.
Proof.
  induction n as [|n IH]; intros H; [done|]. cbn [replay].
  rewrite IH by (intros; apply H; lia). rewrite H by lia. done.
Qed.

(** The cache holds the draws of the rounds it covers. *)
Record DrawnOk (entries : list Entry) (d : Drawn) (c0 : list Z) (n : nat) : Prop := {
  do_slots : (1 <= dr_slots d)%nat;
  do_draws : (dr_credit d, dr_leaders d) = replay n entries (dr_slots d) (dr_base d) c0;
  do_head : head (dr_snapshots d) = Some (dr_base d, c0);
  do_snapshots : Forall (fun p => dr_base d <= p.1 <= dr_base d + N.of_nat n /\
     p.2 = (replay (N.to_nat (p.1 - dr_base d)) entries (dr_slots d) (dr_base d) c0).1)
     (dr_snapshots d);
  do_sorted : StronglySorted (fun p q => p.1 <= q.1) (dr_snapshots d);
}.

Lemma drawn_next entries d c0 n : DrawnOk entries d c0 n -> next_round d = dr_base d + N.of_nat n.
Proof.
  intros [Hs Hd _ _ _]. unfold next_round.
  assert (length (dr_leaders d) = (n * dr_slots d)%nat) as ->.
  { pose proof (replay_length n entries (dr_slots d) (dr_base d) c0) as Hl.
    by rewrite <-Hd in Hl. }
  rewrite Nat.div_mul by lia. done.
Qed.

Lemma draw_ok entries d c0 n :
  DrawnOk entries d c0 n ->
  DrawnOk entries (draw draw_hash d (entry_for entries (next_round d))) c0 (S n).
Proof.
  intros Hok. pose proof (drawn_next _ _ _ _ Hok) as Hn. destruct Hok as [Hs Hd Hh Hf Hso].
  unfold draw. rewrite Hn.
  destruct (draw_round draw_hash _ _ _ (dr_credit d)) as [cr new] eqn:Er.
  assert ((cr, dr_leaders d ++ new) = replay (S n) entries (dr_slots d) (dr_base d) c0) as Hr.
  { cbn [replay]. rewrite <-Hd, Er. done. }
  constructor; cbn [dr_slots dr_credit dr_leaders dr_base dr_snapshots]; [done|done| | |].
  - destruct (_ && _); [|done]. by destruct (dr_snapshots d).
  - assert (Forall (fun p => dr_base d <= p.1 <= dr_base d + N.of_nat (S n) /\
       p.2 = (replay (N.to_nat (p.1 - dr_base d)) entries (dr_slots d) (dr_base d) c0).1)
       (dr_snapshots d)) as Hf'.
    { eapply Forall_impl; [exact Hf|]. intros p [? ?]. split; [lia|done]. }
    destruct (_ && _); [|done]. apply Forall_app. split; [done|]. constructor; [|constructor].
    cbn [fst snd]. split; [lia|]. replace (N.to_nat _) with n by lia. by rewrite <-Hd.
  - destruct (_ && _); [|done]. apply StronglySorted_app. split_and!; [|done|by repeat constructor].
    rewrite Forall_forall in Hf. intros p q Hp ->%list_elem_of_singleton.
    destruct (Hf p Hp) as [? _]. cbn. lia.
Qed.

Lemma draw_same d e :
  dr_slots (draw draw_hash d e) = dr_slots d /\ dr_base (draw draw_hash d e) = dr_base d.
Proof. unfold draw. by destruct (draw_round _ _ _ _ _). Qed.

Lemma draw_rounds_ok k entries d c0 n :
  DrawnOk entries d c0 n ->
  DrawnOk entries (draw_rounds draw_hash k entries d) c0 (n + k) /\
  dr_slots (draw_rounds draw_hash k entries d) = dr_slots d /\
  dr_base (draw_rounds draw_hash k entries d) = dr_base d.
Proof.
  revert d n. induction k as [|k IH]; intros d n Hok; cbn [draw_rounds].
  { by rewrite Nat.add_0_r. }
  destruct (draw_same d (entry_for entries (next_round d))) as [<- <-].
  rewrite Nat.add_succ_r, <-Nat.add_succ_l. apply IH, draw_ok, Hok.
Qed.

(** The leader of a slot, from the credit before [base]. *)
Definition drawn_leader (entries : list Entry) (slots : nat) (base : Round) (c0 : list Z)
    (round : Round) (slot : nat) : nat :=
  let k := N.to_nat (round - base) in
  default 0%nat ((replay (S k) entries slots base c0).2 !! (k * slots + slot)%nat).

(** A schedule whose cache is right: [c0] is the credit before its base round
    and [n] the rounds it has drawn; an entry is in force from the base on. *)
Definition ScheduleOk (s : Schedule) (c0 : list Z) (n : nat) : Prop :=
  DrawnOk (sc_entries s) (sc_drawn s) c0 n /\
  Exists (fun e => e_from e <= dr_base (sc_drawn s)) (sc_entries s).

Lemma leader_drawn s c0 n round slot :
  ScheduleOk s c0 n -> dr_base (sc_drawn s) <= round ->
  leader_of draw_hash s round slot =
    drawn_leader (sc_entries s) (sc_slots s) (dr_base (sc_drawn s)) c0 round
      (Nat.min slot (sc_slots s - 1)) /\
  ScheduleOk (leader draw_hash s round slot).1 c0
    (n + N.to_nat (round + 1 - next_round (sc_drawn s))).
Proof.
  intros [Hok Hex] Hb. pose proof (drawn_next _ _ _ _ Hok) as Hn.
  unfold leader_of, leader, ScheduleOk. rewrite (proj2 (N.ltb_ge _ _) Hb). cbn [fst snd].
  set (k := N.to_nat (round + 1 - next_round (sc_drawn s))).
  destruct (draw_rounds_ok k _ _ _ _ Hok) as (Hok' & Hs & Hbase).
  cbn [sc_entries sc_drawn]. rewrite Hbase. split; [|done].
  unfold draw_index, drawn_leader, sc_slots. rewrite Hs, Hbase.
  destruct Hok as [Hs1 _ _ _ _].
  destruct Hok' as [_ Hd _ _ _]. rewrite Hs, Hbase in Hd. apply (f_equal snd) in Hd.
  cbn [snd] in Hd. rewrite Hd. f_equal. symmetry.
  set (j := N.to_nat (round - dr_base (sc_drawn s))).
  assert (S j <= n + k)%nat as Hle by (unfold j, k; lia).
  pose proof (replay_prefix (S j) (n + k) (sc_entries s) (dr_slots (sc_drawn s))
                (dr_base (sc_drawn s)) c0 Hle) as [rest Hrest].
  rewrite Hrest. rewrite lookup_app_l; [done|]. rewrite replay_length. nia.
Qed.
(** ** Replaying recorded leaders *)

Lemma draw_slots_take e slots round credit k :
  (k <= slots)%nat ->
  (draw_slots draw_hash e round credit k).2 =
  take k (draw_slots draw_hash e round credit slots).2.
Proof.
  intros Hk.
  assert ((draw_slots draw_hash e round credit k).2 `prefix_of`
          (draw_slots draw_hash e round credit slots).2) as [rest Hrest].
  { induction Hk as [|m _ IH]; [done|]. etransitivity; [exact IH|]. rewrite draw_slots_S.
    destruct (draw_slots draw_hash e round credit m) as [cr p]. simpl. by apply prefix_app_r. }
  rewrite Hrest, take_app_length'; [done|].
  symmetry. apply (draw_round_length e k round credit).
Qed.

Lemma draw_round_recorded e slots round credit (at_slot : nat -> nat) :
  (forall k, (k < slots)%nat ->
     (draw_round draw_hash e slots round credit).2 !! k = Some (at_slot k)) ->
  foldl (fun cr k => pay (earn cr (e_weights e)) (at_slot k) (e_total e)) credit (seq 0 slots) =
  (draw_round draw_hash e slots round credit).1.
Proof.
  intros H. change (draw_round draw_hash e slots round credit)
    with (draw_slots draw_hash e round credit slots) in *.
  assert (forall k, (k <= slots)%nat ->
    foldl (fun cr k => pay (earn cr (e_weights e)) (at_slot k) (e_total e)) credit (seq 0 k) =
    (draw_slots draw_hash e round credit k).1) as Hk; [|by apply Hk].
  induction k as [|k IH]; intros Hle; [done|].
  rewrite seq_S, foldl_app, IH by lia. cbn [foldl Nat.add].
  pose proof (draw_slots_take e slots round credit (S k) Hle) as Ht.
  pose proof (draw_round_length e k round credit) as Hlen.
  change (draw_round draw_hash e k round credit)
    with (draw_slots draw_hash e round credit k) in Hlen.
  rewrite draw_slots_S in Ht |- *.
  destruct (draw_slots draw_hash e round credit k) as [cr p]. simpl in *.
  f_equal. specialize (H k ltac:(lia)).
  assert (take (S k) (draw_slots draw_hash e round credit slots).2 !! k = Some (at_slot k)) as Hat
    by (rewrite lookup_take_lt by lia; done).
  rewrite <-Ht, lookup_app_r, Hlen, Nat.sub_diag in Hat by lia. by injection Hat as <-.
Qed.

Lemma replay_at j n entries slots base c0 k :
  (j < n)%nat -> (k < slots)%nat ->
  let round := base + N.of_nat j in
  (replay n entries slots base c0).2 !! (j * slots + k)%nat =
  (draw_round draw_hash (entry_for entries round) slots round
     (replay j entries slots base c0).1).2 !! k.
Proof.
  intros Hj Hk round.
  destruct (replay_prefix (S j) n entries slots base c0 Hj) as [rest ->].
  rewrite lookup_app_l by (rewrite replay_length; nia).
  pose proof (replay_length j entries slots base c0) as Hl. cbn [replay]. fold round.
  destruct (replay j entries slots base c0) as [cr ls]. simpl in *.
  destruct (draw_round draw_hash _ slots round cr) as [cr' new]. simpl.
  rewrite lookup_app_r by lia. f_equal. lia.
Qed.

Lemma truncate_credit entries d c0 n j m :
  DrawnOk entries d c0 n -> (j + m <= n)%nat ->
  foldl (fun credit r => replay_recorded d (entry_for entries r) r credit)
    (replay j entries (dr_slots d) (dr_base d) c0).1
    (rounds_between (dr_base d + N.of_nat j) (dr_base d + N.of_nat (j + m))) =
  (replay (j + m) entries (dr_slots d) (dr_base d) c0).1.
Proof.
  intros Hok Hle. destruct Hok as [Hs Hd _ _ _]. apply (f_equal snd) in Hd. cbn [snd] in Hd.
  assert (forall m, rounds_between (dr_base d + N.of_nat j) (dr_base d + N.of_nat (j + m)) =
            (fun i => dr_base d + N.of_nat j + N.of_nat i) <$> seq 0 m) as Hrb.
  { intros m'. unfold rounds_between. by replace (N.to_nat _) with m' by lia. }
  rewrite Hrb. clear Hrb. induction m as [|m IH]; [by rewrite Nat.add_0_r|].
  rewrite seq_S, fmap_app, foldl_app, IH by lia. cbn [fmap list_fmap foldl Nat.add].
  replace (dr_base d + N.of_nat j + N.of_nat m) with (dr_base d + N.of_nat (j + m)) by lia.
  unfold replay_recorded. rewrite Nat.add_succ_r. cbn [replay].
  pose proof (fun k => replay_at (j + m) n entries (dr_slots d) (dr_base d) c0 k ltac:(lia)) as Hat.
  cbn zeta in Hat. rewrite <-Hd in Hat.
  destruct (replay (j + m) entries (dr_slots d) (dr_base d) c0) as [cr ls]. cbn [fst] in *.
  rewrite (draw_round_recorded _ (dr_slots d) (dr_base d + N.of_nat (j + m)) cr).
  - by destruct (draw_round _ _ _ _ _).
  - intros k Hk. rewrite <-(Hat k Hk). unfold draw_index.
    replace (N.to_nat (dr_base d + N.of_nat (j + m) - dr_base d)) with (j + m)%nat by lia.
    destruct (dr_leaders d !! ((j + m) * dr_slots d + k)%nat) eqn:E; [done|].
    apply lookup_ge_None in E. rewrite Hd, replay_length in E. nia.
Qed.

Lemma truncate_ok entries d c0 n round :
  DrawnOk entries d c0 n ->
  let n' := Nat.min n (N.to_nat (round - dr_base d)) in
  DrawnOk entries (truncate d round entries) c0 n' /\
  dr_slots (truncate d round entries) = dr_slots d /\
  dr_base (truncate d round entries) = dr_base d.
Proof.
  intros Hok n'. pose proof (drawn_next _ _ _ _ Hok) as Hn. unfold truncate. rewrite Hn.
  destruct (N.leb_spec (dr_base d + N.of_nat n) round) as [Hle|Hlt].
  { replace n' with n by (unfold n'; lia). done. }
  set (round' := N.max round (dr_base d)).
  assert (round' = dr_base d + N.of_nat n') as Hr' by (unfold round', n'; lia).
  set (snaps := filter (fun p => p.1 <= round') (dr_snapshots d)).
  assert (head snaps = Some (dr_base d, c0)) as Hhead.
  { destruct Hok as [_ _ Hh _ _]. unfold snaps. destruct (dr_snapshots d) as [|p ps]; [done|].
    injection Hh as ->. rewrite filter_cons_True; [done|]. cbn. unfold round'. lia. }
  destruct (last snaps) as [[from credit]|] eqn:El.
  2:{ apply last_None in El. rewrite El in Hhead. done. }
  assert ((from, credit) ∈ dr_snapshots d /\ from <= round') as [Hin Hfr].
  { apply last_Some_elem_of, list_elem_of_filter in El as [? ?]. done. }
  pose proof (do_snapshots _ _ _ _ Hok) as Hsn. rewrite Forall_forall in Hsn.
  destruct (Hsn _ Hin) as [Hfb Hcr]. cbn [fst snd] in Hfb, Hcr.
  set (j := N.to_nat (from - dr_base d)) in *.
  assert (from = dr_base d + N.of_nat j) as Hfj by (unfold j; lia).
  assert (n' = j + (n' - j))%nat as Hnj by lia.
  cbn [dr_slots dr_base]. split; [|done].
  constructor; cbn [dr_slots dr_base dr_credit dr_leaders dr_snapshots].
  - apply Hok.
  - rewrite Hcr, Hfj, Hr', Hnj, (truncate_credit entries d c0 n) by (done || lia).
    rewrite <-Hnj. unfold draw_index. rewrite Nat.add_0_r.
    replace (N.to_nat (dr_base d + N.of_nat n' - dr_base d)) with n' by lia.
    destruct Hok as [_ Hd _ _ _]. apply (f_equal snd) in Hd. cbn [snd] in Hd. rewrite Hd.
    destruct (replay_prefix n' n entries (dr_slots d) (dr_base d) c0 ltac:(lia)) as [rest ->].
    rewrite take_app_length'; [by destruct (replay n' _ _ _ _)|]. by rewrite replay_length.
  - done.
  - rewrite Forall_forall. intros p [Hp Hpin]%list_elem_of_filter.
    destruct (Hsn p Hpin) as [? ?]. split; [lia|done].
  - apply StronglySorted_filter, Hok.
Qed.

(** ** Pruning and new entries *)

Lemma DrawnOk_ext entries entries' d c0 n :
  (forall r, dr_base d <= r < dr_base d + N.of_nat n ->
     entry_for entries r = entry_for entries' r) ->
  DrawnOk entries d c0 n -> DrawnOk entries' d c0 n.
Proof.
  intros He [Hs Hd Hh Hf Hso]. constructor; [done| |done| |done].
  - rewrite Hd. by apply replay_ext.
  - eapply Forall_impl; [exact Hf|]. intros p [Hp ->]. split; [done|].
    f_equal. apply replay_ext. intros r Hr. apply He. lia.
Qed.

Lemma rposition_Some {A} (f : A -> bool) l i :
  rposition f l = Some i -> exists x, l !! i = Some x /\ f x = true.
Proof.
  revert i. induction l as [|x l IH]; intros i H; [done|]. cbn [rposition] in H.
  destruct (rposition f l) as [j|]; [injection H as <-; by apply IH|].
  destruct (f x) eqn:E; [|done]. injection H as <-. by exists x.
Qed.

Lemma drawn_prune_ok entries d c0 n round :
  DrawnOk entries d c0 n ->
  let d' := drawn_prune_below d round in
  exists k, (k <= n)%nat /\ dr_base d' = dr_base d + N.of_nat k /\ dr_slots d' = dr_slots d /\
    dr_base d' <= N.max round (dr_base d) /\
    DrawnOk entries d' (replay k entries (dr_slots d) (dr_base d) c0).1 (n - k).
Proof.
  intros [Hs Hd Hh Hf Hso] d'. unfold drawn_prune_below in d'.
  set (keep := default 0%nat _) in d'.
  assert (exists p, dr_snapshots d !! keep = Some p /\ p.1 <= N.max round (dr_base d)) as (p & Hp & Hpr).
  { unfold keep. destruct (rposition _ _) as [i|] eqn:E.
    - apply rposition_Some in E as (p & Hp & Hle). exists p. split; [done|]. propify. lia.
    - exists (dr_base d, c0). destruct (dr_snapshots d); [done|]. injection Hh as ->. simpl.
      split; [done|lia]. }
  assert (dr_snapshots d = take keep (dr_snapshots d) ++ p :: drop (S keep) (dr_snapshots d)) as Hsp.
  { symmetry. by apply take_drop_middle. }
  pose proof (drop_S _ _ _ Hp) as Hdr. unfold d'. rewrite Hdr. destruct p as [b c1].
  rewrite Forall_forall in Hf.
  destruct (Hf (b, c1) (list_elem_of_lookup_2 _ _ _ Hp)) as [Hb Hc1]. cbn [fst snd] in *.
  set (k := N.to_nat (b - dr_base d)) in *. exists k.
  pose proof (replay_app k (n - k) entries (dr_slots d) (dr_base d) c0) as Happ.
  replace (k + (n - k))%nat with n in Happ by lia. rewrite <-Hd in Happ.
  replace (dr_base d + N.of_nat k) with b in Happ |- * by lia.
  pose proof (replay_length k entries (dr_slots d) (dr_base d) c0) as Hlen.
  destruct (replay k entries (dr_slots d) (dr_base d) c0) as [cr ls] eqn:Ek. cbn [fst snd] in *.
  subst c1. destruct (replay (n - k) entries (dr_slots d) b cr) as [cr' ls'] eqn:Em.
  injection Happ as Hcr Hls. cbn [dr_base dr_slots]. split_and!; [lia|done|done|done|].
  constructor; cbn [dr_slots dr_base dr_credit dr_leaders dr_snapshots]; [done| |done| |].
  - rewrite Em, Hcr, Hls, drop_app_length'; [done|]. lia.
  - rewrite Forall_forall. intros q Hq.
    assert (q ∈ dr_snapshots d) as Hqd.
    { rewrite Hsp. apply elem_of_app. by right. }
    destruct (Hf q Hqd) as [Hqb Hq2].
    assert (b <= q.1) as Hbq.
    { apply elem_of_cons in Hq as [->|Hq]; [cbn; lia|]. rewrite Hsp in Hso.
      apply StronglySorted_app_1_r in Hso as Hso'. inversion Hso' as [|? ? _ Hall]. subst.
      rewrite Forall_forall in Hall. by apply (Hall q). }
    split; [lia|]. rewrite Hq2.
    pose proof (replay_app k (N.to_nat (q.1 - b)) entries (dr_slots d) (dr_base d) c0) as Hq3.
    replace (k + N.to_nat (q.1 - b))%nat with (N.to_nat (q.1 - dr_base d)) in Hq3 by lia.
    rewrite Hq3, Ek. replace (dr_base d + N.of_nat k) with b by lia.
    by destruct (replay (N.to_nat (q.1 - b)) _ _ b cr).
  - rewrite Hsp in Hso. by apply StronglySorted_app_1_r in Hso.
Qed.

Lemma entry_for_drop entries k base r :
  rposition (fun e => e_from e <=? base) entries = Some k -> base <= r ->
  entry_for (drop k entries) r = entry_for entries r.
Proof.
  intros Hk Hr. apply rposition_Some in Hk as (e & He & Hle). propify. unfold entry_for.
  assert (filter (fun e => e_from e <= r) entries =
          filter (fun e => e_from e <= r) (take k entries) ++
          filter (fun e => e_from e <= r) (drop k entries)) as ->
    by (by rewrite <-filter_app, take_drop).
  assert (e ∈ filter (fun e => e_from e <= r) (drop k entries)) as Hin.
  { apply list_elem_of_filter. split; [lia|]. rewrite (drop_S _ _ _ He). left. }
  rewrite last_app.
  destruct (last (filter (fun e => e_from e <= r) (drop k entries))) eqn:E; [done|].
  apply last_None in E. rewrite E in Hin. by apply elem_of_nil in Hin.
Qed.

Lemma entry_for_push entries new from r :
  r < from -> from <= e_from new -> Exists (fun e => e_from e <= r) entries ->
  entry_for (filter (fun e => e_from e < from) entries ++ [new]) r = entry_for entries r.
Proof.
  intros Hr Hnew Hex. unfold entry_for. rewrite filter_app, list_filter_filter_l.
  - rewrite filter_cons_False, app_nil_r by lia.
    destruct (last (filter (fun e => e_from e <= r) entries)) eqn:E; [done|].
    apply last_None in E. apply Exists_exists in Hex as (e & He & Hle).
    assert (e ∈ filter (fun e => e_from e <= r) entries) as Hin by (by apply list_elem_of_filter).
    rewrite E in Hin. by apply elem_of_nil in Hin.
  - intros e He. lia.
Qed.

Lemma drawn_leader_rebase entries slots base c0 k round slot :
  (slot < slots)%nat -> base + N.of_nat k <= round ->
  drawn_leader entries slots (base + N.of_nat k) (replay k entries slots base c0).1 round slot =
  drawn_leader entries slots base c0 round slot.
Proof.
  intros Hs Hr. unfold drawn_leader. f_equal.
  rewrite !replay_at by lia. replace (base + N.of_nat k + N.of_nat (N.to_nat (round - (base + N.of_nat k))))
    with round by lia. replace (base + N.of_nat (N.to_nat (round - base))) with round by lia.
  pose proof (replay_app k (N.to_nat (round - (base + N.of_nat k))) entries slots base c0) as Happ.
  replace (k + N.to_nat (round - (base + N.of_nat k)))%nat with (N.to_nat (round - base))
    in Happ by lia.
  rewrite Happ. destruct (replay k entries slots base c0) as [cr ls]. cbn [fst].
  by destruct (replay _ entries slots (base + N.of_nat k) cr).
Qed.

Lemma drawn_leader_ext entries entries' slots base c0 round slot :
  base <= round -> (forall r, base <= r <= round -> entry_for entries r = entry_for entries' r) ->
  drawn_leader entries slots base c0 round slot = drawn_leader entries' slots base c0 round slot.
Proof.
  intros Hb He. unfold drawn_leader. do 2 f_equal. f_equal. apply replay_ext. intros r Hr.
  apply He. lia.
Qed.
(** ** The operations *)

Lemma schedule_new_ok c seed slots lookahead :
  ScheduleOk (schedule_new c seed slots lookahead) (replicate (committee_size c) 0%Z) 0.
Proof.
  split; [|by constructor; cbn]. constructor; cbn [schedule_new sc_drawn sc_entries drawn_new
    dr_slots dr_base dr_credit dr_leaders dr_snapshots]; [lia|done|done| |by repeat constructor].
  constructor; [|constructor]. cbn. split; [lia|done].
Qed.

Lemma record_outcome_ok s l b c0 n : ScheduleOk s c0 n -> ScheduleOk (record_outcome s l b) c0 n.
Proof. done. Qed.

(** A checkpoint redraws only rounds beyond the lookahead. *)
Lemma advance_ok seed_hash c s anchor seed c0 n :
  ScheduleOk s c0 n -> dr_base (sc_drawn s) <= anchor ->
  let s' := advance seed_hash c s anchor seed in
  let from := anchor + sc_lookahead s + 1 in
  dr_base (sc_drawn s) <= dr_base (sc_drawn s') <= anchor /\
  (exists c1 n', ScheduleOk s' c1 n') /\
  forall round slot, dr_base (sc_drawn s') <= round < from ->
    leader_of draw_hash s' round slot = leader_of draw_hash s round slot.
Proof.
  intros [Hok Hex] Hb s' from.
  destruct (truncate_ok _ _ _ _ from Hok) as (Hok1 & Hs1 & Hb1).
  set (d1 := truncate (sc_drawn s) from (sc_entries s)) in *.
  set (new := entry_new from (seed_hash seed)
                (imap (behaviour_weight (sc_outcomes s)) (c_members c))).
  set (es := filter (fun e => e_from e < from) (sc_entries s) ++ [new]).
  assert (forall r, dr_base (sc_drawn s) <= r < from ->
            entry_for (sc_entries s) r = entry_for es r) as Hes.
  { intros r Hr. symmetry. apply entry_for_push; [lia|done|].
    eapply Exists_impl; [exact Hex|]. cbn. lia. }
  apply (DrawnOk_ext _ es) in Hok1.
  2:{ intros r Hr. rewrite Hb1 in Hr. apply Hes. lia. }
  destruct (drawn_prune_ok _ _ _ _ anchor Hok1) as (k & Hk & Hb2 & Hs2 & Hmax & Hok2).
  set (d2 := drawn_prune_below d1 anchor) in *.
  set (keep := default 0%nat (rposition (fun e => e_from e <=? dr_base d2) es)).
  assert (s' = mkSchedule (sc_lookahead s) (drop keep es) (sc_outcomes s) d2) as Hs' by done.
  rewrite Hs1, Hb1 in *.
  assert (forall r, dr_base d2 <= r -> entry_for (drop keep es) r = entry_for es r) as Hdrop.
  { intros r Hr. unfold keep. destruct (rposition _ es) as [i|] eqn:E; simpl; [|done].
    by eapply entry_for_drop. }
  assert (ScheduleOk s' (replay k es (dr_slots (sc_drawn s)) (dr_base (sc_drawn s)) c0).1
            (Nat.min n (N.to_nat (from - dr_base (sc_drawn s))) - k)) as HokS.
  { rewrite Hs'. split; cbn [sc_entries sc_drawn].
    - eapply DrawnOk_ext; [|exact Hok2]. intros r Hr. symmetry. apply Hdrop. lia.
    - unfold keep. destruct (rposition _ es) as [i|] eqn:E; cbn [default from_option id].
      + apply rposition_Some in E as (e & He & Hle). propify. rewrite (drop_S _ _ _ He).
        by constructor.
      + rewrite drop_0. unfold es. apply Exists_app. left. apply Exists_exists.
        apply Exists_exists in Hex as (e & He & Hle). exists e. split; [|lia].
        apply list_elem_of_filter. split; [lia|done]. }
  assert (dr_base (sc_drawn s') = dr_base d2) as Hbs by (by rewrite Hs').
  split; [lia|]. split; [eauto|]. intros round slot Hround.
  destruct (leader_drawn s' _ _ round slot HokS) as [-> _]; [lia|].
  destruct (leader_drawn s c0 n round slot) as [-> _]; [by split|lia|].
  assert (sc_slots s' = dr_slots (sc_drawn s)) as -> by (rewrite Hs'; exact Hs2).
  assert (sc_entries s' = drop keep es) as -> by (by rewrite Hs').
  rewrite Hbs. destruct Hok as [Hpos _ _ _ _]. unfold sc_slots.
  rewrite (drawn_leader_ext _ es) by (lia || (intros; apply Hdrop; lia)).
  rewrite Hb2, drawn_leader_rebase by lia.
  apply drawn_leader_ext; [lia|]. intros r Hr. symmetry. apply Hes. lia.
Qed.

Lemma import_export s c0 n st :
  ScheduleOk s c0 n -> 1 <= sc_lookahead s ->
  Forall (fun e => e_total e = nsum (e_weights e) mod 2 ^ 64) (sc_entries s) ->
  export s = Some st ->
  ScheduleOk (import st) c0 0 /\ export (import st) = Some st /\
  sc_lookahead (import st) = sc_lookahead s /\ sc_slots (import st) = sc_slots s /\
  sc_outcomes (import st) = sc_outcomes s /\
  forall round slot, dr_base (sc_drawn s) <= round ->
    leader_of draw_hash (import st) round slot = leader_of draw_hash s round slot.
Proof.
  intros Hok Hlook HF He. pose proof Hok as [[Hs Hd Hh Hsn Hso] Hex]. unfold export in He.
  destruct (dr_snapshots (sc_drawn s)) as [|[b c1] rest]; [done|]. injection Hh as -> ->.
  injection He as <-.
  assert ((fun p => entry_new p.1.1 p.1.2 p.2) <$>
     ((fun e => (e_from e, e_seed e, e_weights e)) <$> sc_entries s) = sc_entries s) as Hent.
  { rewrite <-list_fmap_compose. rewrite <-(list_fmap_id (sc_entries s)) at 2.
    apply list_fmap_ext. intros i e Hi. rewrite Forall_forall in HF.
    specialize (HF e (list_elem_of_lookup_2 _ _ _ Hi)). destruct e. cbn in *. by rewrite HF. }
  set (st := mkScheduleState _ _ _ _ _ _).
  assert (import st = mkSchedule (sc_lookahead s) (sc_entries s) (sc_outcomes s)
    (mkDrawn (sc_slots s) (dr_base (sc_drawn s)) [] c0 [(dr_base (sc_drawn s), c0)])) as Him.
  { unfold import, st, sc_slots. cbn [st_lookahead st_entries st_outcomes st_slots st_base st_credit].
    rewrite Hent, Nat2N.id, N.max_l, Nat.max_l by done. done. }
  assert (ScheduleOk (import st) c0 0) as Hok'.
  { rewrite Him. split; [|done]. constructor; cbn; [done|done|done| |by repeat constructor].
    constructor; [|constructor]. cbn. rewrite N.sub_diag. split; [lia|done]. }
  split_and!; try (by rewrite Him).
  - exact Hok'.
  - intros round slot Hr.
    destruct (leader_drawn (import st) c0 0 round slot Hok') as [-> _]; [by rewrite Him|].
    destruct (leader_drawn s c0 n round slot Hok Hr) as [-> _]. by rewrite Him.
Qed.
End replay.

(** ** Distinct leaders, credit that sums to zero *)

Definition EntriesFit (m : nat) (entries : list Entry) : Prop :=
  entries <> [] /\
  Forall (fun e => length (e_weights e) = m /\ e_total e = nsum (e_weights e)) entries.

Lemma entry_for_fit m entries r :
  EntriesFit m entries ->
  length (e_weights (entry_for entries r)) = m /\
  e_total (entry_for entries r) = nsum (e_weights (entry_for entries r)).
Proof.
  intros [Hne HF]. rewrite Forall_forall in HF. apply HF. unfold entry_for.
  destruct (last _) as [e|] eqn:E.
  - by apply last_Some_elem_of, list_elem_of_filter in E as [_ ?].
  - destruct entries; [done|left].
Qed.

Lemma zsum_others cr i c b :
  zsum cr = 0%Z -> Forall (fun x => (- b <= x)%Z) cr -> cr !! i = Some c ->
  (c <= (Z.of_nat (length cr) - 1) * b)%Z.
Proof.
  intros Hz HF Hi.
  assert (forall l, Forall (fun x => (- b <= x)%Z) l -> (- b * Z.of_nat (length l) <= zsum l)%Z) as Hb.
  { induction 1 as [|x l Hx _ IH]; [cbn; lia|]. cbn [length]. unfold zsum in *. cbn [foldr]. nia. }
  assert (zsum cr = c + zsum (delete i cr))%Z as Hsplit.
  { clear -Hi. revert i Hi. induction cr as [|x cr IH]; intros [|i] Hi; try done.
    - injection Hi as ->. done.
    - change (delete (S i) (x :: cr)) with (x :: delete i cr). specialize (IH i Hi).
      unfold zsum in *. cbn [foldr]. lia. }
  pose proof (Hb (delete i cr) (Forall_delete _ _ _ HF)) as Hd.
  rewrite length_delete in Hd by eauto. pose proof (lookup_lt_Some _ _ _ Hi) as Hlt.
  replace (Z.of_nat (length cr - 1)) with (Z.of_nat (length cr) - 1)%Z in Hd by lia. lia.
Qed.

Section laws.
Context (draw_hash : Digest -> Round -> nat -> N).

Lemma replay_fit m k entries slots base c0 :
  EntriesFit m entries -> length c0 = m -> (slots <= m)%nat ->
  length (replay draw_hash k entries slots base c0).1 = m /\
  zsum (replay draw_hash k entries slots base c0).1 = zsum c0.
Proof.
  intros He Hl Hs. induction k as [|k IH]; [done|]. cbn [replay].
  destruct (replay draw_hash k entries slots base c0) as [cr ls]. cbn [fst] in *.
  destruct IH as [IH1 IH2]. destruct (entry_for_fit m entries (base + N.of_nat k) He) as [Hw Ht].
  pose proof (draw_slots_spec draw_hash (entry_for entries (base + N.of_nat k))
                (base + N.of_nat k) cr slots ltac:(lia) ltac:(lia) Ht) as Hd.
  unfold draw_round. unfold draw_slots in Hd.
  destruct (foldl _ _ _) as [cr' new]. cbn [fst]. destruct Hd as (? & _ & _ & _ & ?). lia.
Qed.

(** In every round the schedule covers, the slots have distinct leaders, all
    of them members; and the credit a schedule keeps sums to what it summed
    to at its base, which for an epoch's schedule is zero. *)
Theorem leaders_distinct s c0 n m round :
  ScheduleOk draw_hash s c0 n -> EntriesFit m (sc_entries s) -> length c0 = m ->
  (sc_slots s <= m)%nat -> dr_base (sc_drawn s) <= round ->
  NoDup ((fun k => leader_of draw_hash s round k) <$> seq 0 (sc_slots s)) /\
  Forall (fun i => (i < m)%nat) ((fun k => leader_of draw_hash s round k) <$> seq 0 (sc_slots s)) /\
  zsum (dr_credit (sc_drawn s)) = zsum c0.
Proof.
  intros Hok He Hl Hs Hr.
  set (k := N.to_nat (round - dr_base (sc_drawn s))).
  set (cr := (replay draw_hash k (sc_entries s) (sc_slots s) (dr_base (sc_drawn s)) c0).1).
  destruct (replay_fit m k (sc_entries s) (sc_slots s) (dr_base (sc_drawn s)) c0 He Hl Hs)
    as [Hcl _]. fold cr in Hcl.
  destruct (entry_for_fit m (sc_entries s) round He) as [Hw Ht].
  pose proof (draw_slots_spec draw_hash (entry_for (sc_entries s) round) round cr (sc_slots s)
                ltac:(lia) ltac:(lia) Ht) as Hd.
  change (draw_slots draw_hash (entry_for (sc_entries s) round) round cr (sc_slots s))
    with (draw_round draw_hash (entry_for (sc_entries s) round) (sc_slots s) round cr) in Hd.
  assert ((fun k => leader_of draw_hash s round k) <$> seq 0 (sc_slots s) =
    (draw_round draw_hash (entry_for (sc_entries s) round) (sc_slots s) round cr).2) as Heq.
  { apply list_eq. intros j. rewrite list_lookup_fmap.
    destruct (decide (j < sc_slots s)%nat) as [Hj|Hj].
    - rewrite lookup_seq_lt by done. cbn [fmap option_fmap option_map Nat.add].
      destruct (leader_drawn draw_hash s c0 n round j Hok Hr) as [-> _].
      rewrite Nat.min_l by lia. unfold drawn_leader. rewrite replay_at by lia.
      replace (dr_base (sc_drawn s) + N.of_nat (N.to_nat (round - dr_base (sc_drawn s))))
        with round by lia. fold k. fold cr. simpl.
      destruct ((draw_round _ _ _ _ _).2 !! j) eqn:E; [done|].
      apply lookup_ge_None in E. rewrite draw_round_length in E. lia.
    - rewrite lookup_seq_ge by lia. symmetry. apply lookup_ge_None. rewrite draw_round_length. lia. }
  rewrite Heq. destruct (draw_round _ _ _ _ _) as [cr' picked].
  destruct Hd as (_ & _ & Hnd & HF & _). split_and!; [done| |].
  - cbn [snd]. by rewrite Hcl in HF.
  - destruct Hok as [[_ Hdr _ _ _] _]. apply (f_equal fst) in Hdr. cbn [fst] in Hdr. rewrite Hdr.
    apply (replay_fit m); done.
Qed.

(** ** Size of the credit *)

Lemma weight_le_sum (ws : list N) i w : ws !! i = Some w -> w <= nsum ws.
Proof. intros Hi. apply nsum_elem_le. by eapply list_elem_of_lookup_2. Qed.

Lemma draw_slots_bound e round W k credit b :
  (nsum (e_weights e) <= W) -> e_total e <= W ->
  Forall (fun x => (Z.abs x <= b)%Z) credit ->
  Forall (fun x => (Z.abs x <= b + Z.of_nat k * Z.of_N W)%Z)
    (draw_slots draw_hash e round credit k).1.
Proof.
  intros Hw Ht HF. induction k as [|k IH]; [by eapply Forall_impl; [exact HF|]; cbn; lia|].
  rewrite draw_slots_S. destruct (draw_slots draw_hash e round credit k) as [cr p]. cbn [fst] in *.
  unfold draw_slot. cbn [fst]. apply Forall_lookup_2. intros i x Hx.
  rewrite pay_lookup, earn_lookup in Hx. rewrite Forall_lookup in IH.
  destruct (cr !! i) as [y|] eqn:Ey; [|by case_decide]. specialize (IH i y Ey). cbn in IH.
  destruct (e_weights e !! i) as [w|] eqn:Ew.
  - pose proof (weight_le_sum _ _ _ Ew). case_decide; cbn in Hx; injection Hx as <-; lia.
  - case_decide; cbn in Hx; injection Hx as <-; lia.
Qed.

(** From credits of size at most [b], after [k] rounds no credit is further
    from zero than [b] plus the slots drawn times the largest total, nor is any
    value on the way; so the draws stay within 64-bit integers while that is
    below [2 ^ 63]. *)
Theorem credit_bound W k entries slots base c0 b :
  (forall r, nsum (e_weights (entry_for entries r)) <= W /\ e_total (entry_for entries r) <= W) ->
  Forall (fun x => (Z.abs x <= b)%Z) c0 ->
  Forall (fun x => (Z.abs x <= b + Z.of_nat (k * slots) * Z.of_N W)%Z)
    (replay draw_hash k entries slots base c0).1.
Proof.
  intros He HF. induction k as [|k IH]; cbn [replay].
  { eapply Forall_impl; [exact HF|]. cbn. lia. }
  destruct (replay draw_hash k entries slots base c0) as [cr ls]. cbn [fst] in IH.
  destruct (He (base + N.of_nat k)) as [Hw Ht].
  pose proof (draw_slots_bound (entry_for entries (base + N.of_nat k)) (base + N.of_nat k) W slots
                cr _ Hw Ht IH) as Hd.
  unfold draw_round. unfold draw_slots in Hd. destruct (foldl _ _ _) as [cr' new]. cbn [fst] in *.
  eapply Forall_impl; [exact Hd|]. cbn. intros x Hx. lia.
Qed.

(** ** One slot a round: shares *)

Definition count_of (i : nat) (ls : list nat) : nat := length (filter (fun j => j = i) ls).

Lemma count_snoc i ls l :
  count_of i (ls ++ [l]) = (count_of i ls + if decide (l = i) then 1 else 0)%nat.
Proof.
  unfold count_of. rewrite filter_app, length_app. f_equal. rewrite filter_cons.
  by case_decide.
Qed.

Context (e : Entry).
Context (Hfrom : e_from e = 0) (Htotal : e_total e = nsum (e_weights e)).
Context (Hpos : Forall (fun w => 0 < w) (e_weights e)) (Hmax : nsum (e_weights e) <= U64_MAX).
Context (Hne : e_weights e <> []).

Lemma entry_for_one r : entry_for [e] r = e.
Proof. unfold entry_for. rewrite filter_cons_True by lia. done. Qed.

Lemma replay_share T :
  let '(cr, ls) := replay draw_hash T [e] 1 0 (replicate (length (e_weights e)) 0%Z) in
  length cr = length (e_weights e) /\ zsum cr = 0%Z /\
  forall i c w, cr !! i = Some c -> e_weights e !! i = Some w ->
    c = (Z.of_nat T * Z.of_N w - Z.of_nat (count_of i ls) * Z.of_N (e_total e))%Z /\
    (1 - Z.of_N (e_total e) <= c)%Z.
Proof.
  assert (0 < nsum (e_weights e)) as HW.
  { destruct (e_weights e) as [|w ws]; [done|]. rewrite nsum_cons.
    apply Forall_cons in Hpos as [? _]. lia. }
  induction T as [|T IH]; cbn [replay].
  { rewrite length_replicate. split_and!; [done| |].
    - induction (length (e_weights e)) as [|k IHk]; [done|]. simpl. unfold zsum in *. lia.
    - intros i c w [-> _]%lookup_replicate Hw. cbn. rewrite Htotal. lia. }
  destruct (replay draw_hash T [e] 1 0 _) as [cr ls]. destruct IH as (Hl & Hz & Hi).
  rewrite entry_for_one. unfold draw_round. cbn [seq foldl draw_slot].
  set (cr1 := earn cr (e_weights e)).
  assert (length cr1 = length cr) as Hl1 by apply earn_length.
  assert (zsum cr1 = Z.of_N (nsum (e_weights e))) as Hz1
    by (unfold cr1; rewrite earn_sum by done; lia).
  destruct (single_leader_due draw_hash e (0 + N.of_nat T) 0 cr1) as (cl & Hcl & Hclp);
    [lia|done|done|lia|].
  set (l := pick_leader draw_hash e (0 + N.of_nat T) 0 cr1 []) in *.
  cbn [app]. split_and!.
  - rewrite pay_length. lia.
  - rewrite zsum_pay by (by eapply lookup_lt_Some). lia.
  - intros i c w Hc Hw. rewrite pay_lookup in Hc. unfold cr1 in Hc, Hcl.
    rewrite earn_lookup, Hw in Hc.
    destruct (cr !! i) as [c0|] eqn:E0; [|by case_decide].
    destruct (Hi i c0 w E0 Hw) as [H1 H2]. rewrite count_snoc.
    destruct (decide (i = l)) as [->|Hil].
    + rewrite earn_lookup, E0, Hw in Hcl. injection Hcl as <-. injection Hc as <-.
      rewrite decide_True by done. lia.
    + rewrite decide_False by done. injection Hc as <-. lia.
Qed.

End laws.

(** ** An epoch's schedule *)

(** Slots a member leads in the first [T] rounds of one-slot rounds. *)
Definition led (draw_hash : Digest -> Round -> nat -> N) (s : Schedule) (T i : nat) : nat :=
  count_of i ((fun r => leader_of draw_hash s (N.of_nat r) 0) <$> seq 0 T).

Section epoch.
Context (draw_hash : Digest -> Round -> nat -> N).
Context (c : Committee) (wf : CommitteeWf c) (seed : Digest) (lookahead : Round).
Let s := schedule_new c seed 1 lookahead.
Let e := entry_new 0 seed ((fun m => (m_seats m * ACTIVE_FACTOR) mod 2 ^ 64) <$> c_members c).

Lemma seats_small m : m ∈ c_members c -> (m_seats m * ACTIVE_FACTOR) mod 2 ^ 64 = m_seats m * 1000.
Proof.
  intros Hm. apply N.mod_small. pose proof (wf_max _ wf). pose proof (wf_total _ wf).
  assert (m_seats m <= nsum (m_seats <$> c_members c)).
  { apply nsum_elem_le, list_elem_of_fmap. eauto. }
  unfold ACTIVE_FACTOR, MAX_TOTAL_SEATS, U32_MAX in *. lia.
Qed.

Lemma epoch_weights : e_weights e = (fun m => m_seats m * 1000) <$> c_members c.
Proof.
  cbn. apply list_fmap_ext. intros i m Hi. apply seats_small. by eapply list_elem_of_lookup_2.
Qed.

Lemma epoch_weights_sum : nsum (e_weights e) = total_seats c * 1000.
Proof.
  rewrite epoch_weights. unfold total_seats. rewrite (wf_total _ wf).
  induction (c_members c) as [|m ms IH]; [done|].
  rewrite !fmap_cons, !nsum_cons, IH. cbn beta. lia.
Qed.

Lemma epoch_total : e_total e = total_seats c * 1000.
Proof.
  cbn [e entry_new e_total]. pose proof epoch_weights_sum as Hs. cbn [e entry_new e_weights] in Hs.
  rewrite Hs. apply N.mod_small. pose proof (wf_max _ wf).
  unfold MAX_TOTAL_SEATS, U32_MAX, total_seats in *. lia.
Qed.

Lemma epoch_led T i :
  led draw_hash s T i =
  count_of i (replay draw_hash T [e] 1 0 (replicate (length (e_weights e)) 0%Z)).2.
Proof.
  unfold led. f_equal. apply list_eq. intros j. rewrite list_lookup_fmap.
  assert (length (e_weights e) = committee_size c) as -> by (by rewrite epoch_weights, length_fmap).
  assert (sc_slots s = 1%nat) as Hsl.
  { unfold s, schedule_new, sc_slots. cbn [sc_drawn drawn_new dr_slots]. lia. }
  destruct (decide (j < T)%nat) as [Hj|Hj].
  - rewrite lookup_seq_lt by done. cbn [fmap option_fmap option_map Nat.add].
    destruct (leader_drawn draw_hash s _ 0 (N.of_nat j) 0
                (schedule_new_ok draw_hash c seed 1 lookahead)) as [-> _]; [cbn; lia|].
    rewrite Hsl. unfold drawn_leader. cbn [s schedule_new sc_drawn drawn_new dr_base sc_entries].
    fold e. rewrite N.sub_0_r, Nat2N.id. cbn [Nat.min Nat.sub].
    destruct (replay_prefix draw_hash (S j) T [e] 1 0 (replicate (committee_size c) 0%Z) Hj)
      as [rest ->].
    pose proof (replay_length draw_hash (S j) [e] 1 0 (replicate (committee_size c) 0%Z)) as Hlen.
    rewrite lookup_app_l by lia. replace (j * 1 + 0)%nat with j by lia.
    destruct ((replay draw_hash (S j) [e] 1 0 _).2 !! j) eqn:E; [done|].
    apply lookup_ge_None in E. lia.
  - rewrite lookup_seq_ge by lia. symmetry. apply lookup_ge_None. rewrite replay_length. lia.
Qed.

Lemma epoch_share T i m :
  c_members c !! i = Some m ->
  total_seats c * N.of_nat (led draw_hash s T i) + 1 <= N.of_nat T * m_seats m + total_seats c /\
  N.of_nat T * m_seats m <=
    total_seats c * N.of_nat (led draw_hash s T i)
    + (N.of_nat (committee_size c) - 1) * total_seats c.
Proof.
  intros Hm. pose proof (wf_seats_pos _ wf) as Hsp. pose proof (total_pos c wf) as Htp.
  assert (e_weights e <> []) as Hne.
  { rewrite epoch_weights. pose proof (wf_nonempty _ wf). by destruct (c_members c). }
  assert (Forall (fun w => 0 < w) (e_weights e)) as Hpos.
  { rewrite epoch_weights. apply Forall_fmap. eapply Forall_impl; [exact Hsp|].
    intros x Hx. cbn in *. lia. }
  assert (nsum (e_weights e) <= U64_MAX) as Hmx.
  { rewrite epoch_weights_sum. pose proof (wf_max _ wf).
    unfold MAX_TOTAL_SEATS, U32_MAX, U64_MAX, total_seats in *. lia. }
  assert (e_total e = nsum (e_weights e)) as Ht by (by rewrite epoch_total, epoch_weights_sum).
  rewrite epoch_led.
  pose proof (replay_share draw_hash e eq_refl Ht Hpos Hmx Hne T) as Hrep.
  destruct (replay draw_hash T [e] 1 0 _) as [cr ls]. destruct Hrep as (Hl & Hz & Hi).
  assert (e_weights e !! i = Some (m_seats m * 1000)) as Hw
    by (by rewrite epoch_weights, list_lookup_fmap, Hm).
  destruct (lookup_lt_is_Some_2 cr i) as [x Hx].
  { rewrite Hl. by eapply lookup_lt_Some. }
  destruct (Hi i x _ Hx Hw) as [Hxe Hxl].
  assert (x <= (Z.of_nat (length cr) - 1) * (Z.of_N (e_total e) - 1))%Z as Hxu.
  { eapply (zsum_others cr i); [done| |exact Hx]. apply Forall_lookup_2. intros j y Hy.
    destruct (lookup_lt_is_Some_2 (e_weights e) j) as [w Hwj].
    { rewrite <-Hl. by eapply lookup_lt_Some. }
    destruct (Hi j y w Hy Hwj). lia. }
  assert (length cr = committee_size c) as Hn by (rewrite Hl, epoch_weights; apply length_fmap).
  pose proof (lookup_lt_Some _ _ _ Hx).
  rewrite epoch_total in *. cbn [snd]. split; nia.
Qed.
End epoch.

(** ** Properties *)

(** C35: with one leader slot a round, on the schedule an epoch starts with and
    before any checkpoint advances it, over the first [T] rounds a member holding
    [s] of [S] seats leads at most [T s / S + (S - 1) / S] rounds, whatever the
    hashes are, and at least [T s / S] less the number of the other members. *)
Theorem leader_share draw_hash c seed lookahead T i m :
  CommitteeWf c -> c_members c !! i = Some m ->
  total_seats c * N.of_nat (led draw_hash (schedule_new c seed 1 lookahead) T i) + 1
    <= N.of_nat T * m_seats m + total_seats c /\
  N.of_nat T * m_seats m <=
    total_seats c * N.of_nat (led draw_hash (schedule_new c seed 1 lookahead) T i)
    + (N.of_nat (committee_size c) - 1) * total_seats c.
Proof. intros wf. by apply epoch_share. Qed.

(** A checkpoint leaves every leader of the rounds up to the lookahead past
    its anchor as it was, though the cache is truncated, replayed and pruned;
    the cache stays right, and its base never passes the anchor. *)
Theorem advance_keeps_leaders draw_hash seed_hash c s anchor seed c0 n :
  ScheduleOk draw_hash s c0 n -> dr_base (sc_drawn s) <= anchor ->
  let s' := advance seed_hash c s anchor seed in
  dr_base (sc_drawn s) <= dr_base (sc_drawn s') <= anchor /\
  (exists c1 n', ScheduleOk draw_hash s' c1 n') /\
  forall round slot, dr_base (sc_drawn s') <= round < anchor + sc_lookahead s + 1 ->
    leader_of draw_hash s' round slot = leader_of draw_hash s round slot.
Proof. apply advance_ok. Qed.

(** A schedule imported from an export draws, from the exported base on,
    exactly the leaders of the schedule it was exported from, keeps its
    outcomes, slots and lookahead, and exports to the same state. *)
Theorem import_export_roundtrip draw_hash s c0 n st :
  ScheduleOk draw_hash s c0 n -> 1 <= sc_lookahead s ->
  Forall (fun e => e_total e = nsum (e_weights e) mod 2 ^ 64) (sc_entries s) ->
  export s = Some st ->
  export (import st) = Some st /\ sc_lookahead (import st) = sc_lookahead s /\
  sc_slots (import st) = sc_slots s /\ sc_outcomes (import st) = sc_outcomes s /\
  forall round slot, dr_base (sc_drawn s) <= round ->
    leader_of draw_hash (import st) round slot = leader_of draw_hash s round slot.
Proof. intros Hok Hl HF He. by destruct (import_export draw_hash s c0 n st Hok Hl HF He) as (_ & ?). Qed.

(** The share bound holds of an epoch's first rounds and not of any window:
    with three members of one seat, a draw can give one member two rounds in a
    row, where [T s / S + 1] allows one. *)
Theorem leader_window_excess :
  exists draw_hash : Digest -> Round -> nat -> N,
    let s := schedule_new
      {| c_epoch := 0; c_members := take 3 (c_members four_seats);
         c_total_seats := 3; c_by_address := ∅ |} 0 1 4 in
    (fun r => leader_of draw_hash s r 0) <$> [0; 1; 2; 3] = [1; 2; 0; 0]%nat /\
    (* two rounds led in the window [2, 3], above 2 * 1 / 3 + 1 *)
    2 * 1 + 3 < 3 * 2.
Proof.
  exists (fun _ r _ => if r <? 2 then 1000 else 0). split; [vm_compute; reflexivity|lia].
Qed.

Definition sample_schedule : Schedule := schedule_new four_seats 5 2 3.
Definition sample_hash (seed round : N) (slot : nat) : N := seed * 7 + round * 13 + N.of_nat slot.

Lemma sample_schedule_ok : ScheduleOk sample_hash sample_schedule (replicate 4 0%Z) 0.
Proof. apply schedule_new_ok. Qed.

Lemma leaders_distinct_witness :
  (fun k => leader_of sample_hash sample_schedule 7 k) <$> seq 0 2 = [2; 3]%nat /\
  NoDup ((fun k => leader_of sample_hash sample_schedule 7 k) <$> seq 0 2).
Proof.
  split; [vm_compute; reflexivity|].
  apply (leaders_distinct sample_hash sample_schedule (replicate 4 0%Z) 0 4 7);
    [apply sample_schedule_ok| |done|vm_compute; lia|vm_compute; done].
  split; [done|]. by repeat constructor.
Defined.

Lemma leader_share_witness :
  total_seats four_seats * N.of_nat (led sample_hash (schedule_new four_seats 5 1 4) 10 2) + 1
  <= 10 * 1 + total_seats four_seats.
Proof.
  apply (leader_share sample_hash four_seats 5 4 10 2
           {| m_address := 2; m_stake := 100; m_seats := 1;
              m_public_key := {| ml_dsa := [2]; p256 := [2] |} |});
    [apply four_seats_wf|reflexivity].
Defined.

Lemma advance_keeps_leaders_witness :
  leader_of sample_hash (advance (fun d => d + 1) four_seats sample_schedule 2 9) 5 1 =
  leader_of sample_hash sample_schedule 5 1.
Proof.
  apply (advance_keeps_leaders sample_hash (fun d => d + 1) four_seats sample_schedule 2 9
           (replicate 4 0%Z) 0); [apply sample_schedule_ok|vm_compute; done|].
  vm_compute. split; congruence.
Defined.

Lemma import_export_roundtrip_witness :
  exists st, export sample_schedule = Some st /\
    leader_of sample_hash (import st) 9 1 = leader_of sample_hash sample_schedule 9 1.
Proof.
  eexists. split; [reflexivity|].
  apply (import_export_roundtrip sample_hash sample_schedule (replicate 4 0%Z) 0);
    [apply sample_schedule_ok|vm_compute; done|by repeat constructor|reflexivity|vm_compute; done].
Defined.

Lemma credit_bound_witness :
  Forall (fun x => (Z.abs x <= 0 + Z.of_nat (6 * 2) * 4000)%Z)
    (replay sample_hash 6 (sc_entries sample_schedule) 2 0 (replicate 4 0%Z)).1.
Proof.
  apply (credit_bound sample_hash 4000 6 (sc_entries sample_schedule) 2 0 (replicate 4 0%Z) 0).
  - intros r. unfold entry_for, sample_schedule, schedule_new. cbn [sc_entries].
    rewrite filter_cons_True by (cbn; lia). vm_compute. split; discriminate.
  - by repeat constructor.
Defined.
