(* ===== verification/Commit.v ===== *)
(** The commit rule ([tenzro-consensus/src/core.rs]: [slot_vertex], [direct],
    [indirect], [decide_slots]) and its safety.

    The rule reads a committee, a leader schedule, a local DAG and the first
    proposals seen. Two validators whose DAGs hold the vertices reliable
    broadcast delivers never decide a leader slot differently, provided strong
    references are labelled: name the round and author of the vertex whose
    digest they carry. Nothing in the source checks that they are, and
    [mislabelled_reference_splits_decisions] shows what one mislabelled
    reference does. *)

From stdpp Require Import prelude gmap list sorting.
From Stdlib Require Import NArith ZArith Lia.
From S2P Require Import Prelude Committee Vertex Dag DagWalk.

(** ** The rule *)

Abbreviation Slot := (N * nat)%type (only parsing).

Inductive SlotDecision :=
| Commit (anchor : VertexRef)
| Skip
| Undecided.

#[global] Instance SlotDecision_eq_dec : EqDecision SlotDecision.
Proof. solve_decision. Defined.

(** Strong references of the first proposal seen from each author of a round. *)
Abbreviation FirstProposals := (gmap Round (gmap ValidatorIndex (list VertexRef))) (only parsing).

Definition slot_lt (a b : Slot) : Prop := a.1 < b.1 \/ (a.1 = b.1 /\ (a.2 < b.2)%nat).

#[global] Instance slot_lt_dec a b : Decision (slot_lt a b).
Proof. unfold slot_lt. apply _. Defined.

Section rule.
Context (c : Committee) (lead : Round -> nat -> ValidatorIndex) (slots : nat).
Context (g : Dag) (first_proposals : FirstProposals).

Definition slot_vertex (slot : Slot) : option VertexRef :=
  let l := lead slot.1 slot.2 in
  (fun p => mkRef slot.1 l p.1) <$> dag_at g slot.1 l.

(** Seats of the authors of a round's delivered vertices that satisfy a test. *)
Definition delivered_seats (round : Round) (test : Vertex -> bool) : N :=
  nsum ((fun p => seats c p.1) <$> filter (fun p => test p.2.2 = true) (dag_round g round)).

(** Seats of the authors whose vertex is not delivered and whose first
    proposal references the leader. *)
Definition proposed_seats (round : Round) (leader : ValidatorIndex) : N :=
  match first_proposals !! (round + 1) with
  | None => 0
  | Some props =>
      nsum ((fun p => seats c p.1) <$>
        filter (fun p => p.1 ∉ (dag_round g (round + 1)).*1 /\
                  existsb (fun r => (r_round r =? round) && (r_source r =? leader)%nat) p.2 = true)
          (map_to_list props))
  end.

Definition direct (slot : Slot) : SlotDecision :=
  let '(round, k) := slot in
  let l := lead round k in
  let support := delivered_seats (round + 1) (fun v => references_author v l)
                 + proposed_seats round l in
  let blame := delivered_seats (round + 1) (fun v => negb (references_author v l)) in
  if quorum c <=? support then
    match slot_vertex slot with Some r => Commit r | None => Undecided end
  else if total_seats c <=? blame then Skip
  else Undecided.

(** The loop over the decisions of later slots, in slot order. *)
Fixpoint anchor_decision (slot : Slot) (later : list (Slot * SlotDecision)) : SlotDecision :=
  match later with
  | [] => Undecided
  | (_, Skip) :: later => anchor_decision slot later
  | (_, Undecided) :: _ => Undecided
  | (_, Commit anchor) :: _ =>
      match slot_vertex slot with
      | Some l => if strong_path g (r_digest anchor) l then Commit l else Skip
      | None => Skip
      end
  end.

Definition indirect (slot : Slot) (later : list (Slot * SlotDecision)) : SlotDecision :=
  anchor_decision slot (filter (fun p => slot.1 + 2 <= p.1.1) later).

Definition decide_slot (slot : Slot) (later : list (Slot * SlotDecision)) : SlotDecision :=
  match direct slot with
  | Undecided => indirect slot later
  | d => d
  end.

(** The slots of rounds [lo..=hi], in order. *)
Definition slots_between (lo hi : Round) : list Slot :=
  flat_map (fun i => (fun k => (lo + N.of_nat i, k)) <$> seq 0 slots)
    (seq 0 (N.to_nat (hi + 1 - lo))).

(** Decides slots given in order, the last first; each decision is put before
    the ones it builds on. *)
Fixpoint decide_down (ss : list Slot) : list (Slot * SlotDecision) :=
  match ss with
  | [] => []
  | slot :: ss => let out := decide_down ss in (slot, decide_slot slot out) :: out
  end.

Definition top_round : option Round :=
  match highest_round g, max_key first_proposals with
  | Some a, Some b => Some (N.max a b)
  | Some a, None => Some a
  | None, o => o
  end.

Definition decide_slots (next_slot : Slot) : list (Slot * SlotDecision) :=
  match top_round with
  | None => []
  | Some t =>
      match checked_sub t 1 with
      | None => []
      | Some hi =>
          decide_down (filter (fun s => ~ slot_lt s next_slot) (slots_between next_slot.1 hi))
      end
  end.
End rule.

(** ** The slots decided *)

Lemma slots_between_elem slots lo hi s :
  s ∈ slots_between slots lo hi <-> lo <= s.1 <= hi /\ (s.2 < slots)%nat.
Proof.
  unfold slots_between. rewrite list_elem_of_In, in_flat_map. setoid_rewrite <-list_elem_of_In.
  split.
  - intros (i & Hi & (k & -> & Hk)%list_elem_of_fmap). apply elem_of_seq in Hi, Hk. cbn. lia.
  - intros (Hr & Hk). exists (N.to_nat (s.1 - lo)). split; [apply elem_of_seq; lia|].
    apply list_elem_of_fmap. exists s.2. split; [|apply elem_of_seq; lia].
    destruct s as [r k]. cbn in *. f_equal. lia.
Qed.

#[global] Instance slot_lt_trans : Transitive slot_lt.
Proof. intros a b d. unfold slot_lt. lia. Qed.

Lemma slots_between_sorted slots lo hi : StronglySorted slot_lt (slots_between slots lo hi).
Proof.
  unfold slots_between. generalize (N.to_nat (hi + 1 - lo)) as n. intros n.
  assert (forall a n, StronglySorted slot_lt
    (flat_map (fun i => (fun k => (lo + N.of_nat i, k)) <$> seq 0 slots) (seq a n))) as H; [|apply H].
  clear. intros a n. revert a. induction n as [|n IH]; intros a; [constructor|].
  cbn [seq flat_map]. apply StronglySorted_app. split_and!; [| |apply IH].
  - intros x y (k & -> & _)%list_elem_of_fmap Hy.
    rewrite list_elem_of_In, in_flat_map in Hy. setoid_rewrite <-list_elem_of_In in Hy.
    destruct Hy as (i & Hi & (k' & -> & _)%list_elem_of_fmap). apply elem_of_seq in Hi.
    left. cbn. lia.
  - assert (forall b m, StronglySorted slot_lt ((fun k => (lo + N.of_nat a, k)) <$> seq b m)) as Hs;
      [|apply Hs].
    intros b m. revert b. induction m as [|m IHm]; intros b; [constructor|].
    cbn [seq fmap list_fmap]. constructor; [apply IHm|]. apply Forall_forall.
    intros x (k & -> & Hk)%list_elem_of_fmap. apply elem_of_seq in Hk. right. cbn. lia.
Qed.

Section decided.
Context (c : Committee) (lead : Round -> nat -> ValidatorIndex) (slots : nat).
Context (g : Dag) (fp : FirstProposals).

Lemma decide_down_keys down : (decide_down c lead g fp down).*1 = down.
Proof. induction down as [|s down IH]; [done|]. cbn [decide_down]. cbn. by rewrite IH. Qed.

(** A decision reads only slots two rounds later, so it is what the rule gives
    on all decisions together. *)
Lemma decide_down_eq down s d :
  StronglySorted slot_lt down -> (s, d) ∈ decide_down c lead g fp down ->
  d = decide_slot c lead g fp s (decide_down c lead g fp down).
Proof.
  intros Hs. induction Hs as [|x down Hs IH HF]; cbn [decide_down]; [by intros ?%elem_of_nil|].
  assert (forall y, y = x \/ y ∈ down -> x.1 <= y.1) as Hle.
  { intros y [->|Hy]; [lia|]. rewrite Forall_forall in HF. specialize (HF y Hy).
    unfold slot_lt in HF. lia. }
  assert (forall y, y = x \/ y ∈ down ->
    decide_slot c lead g fp y ((x, decide_slot c lead g fp x (decide_down c lead g fp down))
      :: decide_down c lead g fp down) = decide_slot c lead g fp y (decide_down c lead g fp down))
    as Hsame.
  { intros y Hy. unfold decide_slot at 1 3. destruct (direct c lead g fp y); try done.
    unfold indirect. rewrite filter_cons_False; [done|]. cbn. specialize (Hle y Hy). lia. }
  intros [Heq|Hin]%elem_of_cons.
  - injection Heq as -> ->. rewrite Hsame by auto. done.
  - rewrite Hsame; [by apply IH|]. right. rewrite <-(decide_down_keys down).
    apply list_elem_of_fmap. by exists (s, d).
Qed.

(** The anchor: the first slot two rounds later that is not skipped. *)
Definition anchored (s : Slot) (out : list (Slot * SlotDecision)) (a : Slot) (x : VertexRef) : Prop :=
  (a, Commit x) ∈ out /\ s.1 + 2 <= a.1 /\
  forall b d, (b, d) ∈ out -> s.1 + 2 <= b.1 -> slot_lt b a -> d = Skip.

Lemma indirect_decided s out :
  StronglySorted slot_lt out.*1 -> indirect lead g s out <> Undecided ->
  exists a x, anchored s out a x /\
    indirect lead g s out =
        match slot_vertex lead g s with
        | Some l => if strong_path g (r_digest x) l then Commit l else Skip
        | None => Skip
        end.
Proof.
  unfold indirect. induction out as [|[b e] out IH]; intros Hs Hne; [done|].
  cbn [fmap list_fmap] in Hs. inversion Hs as [|? ? Hs' HF]; subst.
  rewrite filter_cons in Hne |- *. cbn [fst] in *.
  assert (forall a x d, anchored s out a x -> (b, d) = (b, e) ->
            (s.1 + 2 <= b.1 -> e = Skip) -> anchored s ((b, e) :: out) a x) as Hext.
  { intros a x d (H1 & H2 & H3) _ Hbe. split_and!; [by right|done|].
    intros b' d' [Heq|Hin]%elem_of_cons Hr Hlt; [injection Heq as -> ->; auto|eauto]. }
  case_decide as Hb.
  - destruct e as [x| |]; cbn [anchor_decision] in *.
    + exists b, x. split; [|done]. split_and!; [left|done|].
      intros b' d' [Heq|Hin]%elem_of_cons Hr Hlt.
      * injection Heq as -> ->. unfold slot_lt in Hlt. lia.
      * rewrite Forall_forall in HF. specialize (HF b').
        assert (slot_lt b b') as Hbb by (apply HF, list_elem_of_fmap; by exists (b', d')).
        unfold slot_lt in *. lia.
    + destruct (IH Hs' Hne) as (a & x & Ha & ->). exists a, x. split; [|done].
      eapply Hext; [done|reflexivity|done].
    + done.
  - destruct (IH Hs' Hne) as (a & x & Ha & ->). exists a, x. split; [|done].
    eapply Hext; [done|reflexivity|]. done.
Qed.
End decided.

(** ** What the views share *)

Section safety.
Context (c : Committee) (wf : CommitteeWf c).
Context (faulty : ValidatorIndex -> bool) (Hfaulty : weight c faulty <= max_faulty c).
Context (digest : Vertex -> Digest).

(** The vertex reliable broadcast delivers in each slot of a round and an
    author; for an honest author, the vertex it proposes. *)
Context (U : Round -> ValidatorIndex -> option (Digest * Vertex)).

Record UniverseOk : Prop := {
  u_vertex r s d v : U r s = Some (d, v) ->
    v_round v = r /\ v_source v = s /\ digest v = d /\ VertexWf c v;
  (** References are labelled. *)
  u_labelled r s d v ref : U r s = Some (d, v) -> ref ∈ v_strong v -> labelled digest ref;
  (** An honest author references what was delivered to it. *)
  u_honest r s d v ref : U r s = Some (d, v) -> faulty s = false -> ref ∈ v_strong v ->
    exists w, U (r_round ref) (r_source ref) = Some (r_digest ref, w);
}.

Record ViewOk (g : Dag) (fp : FirstProposals) (lo : Round) : Prop := {
  view_wf : DagWf digest (fun _ => True) g;
  view_floor : dag_floor g <= lo;
  view_in r s d v : dag_at g r s = Some (d, v) -> U r s = Some (d, v);
  view_first r props s refs : fp !! r = Some props -> props !! s = Some refs ->
    faulty s = false -> exists d v, U r s = Some (d, v) /\ v_strong v = refs;
}.

Context (HU : UniverseOk).

Lemma u_at g fp lo d v :
  ViewOk g fp lo -> get g d = Some v -> U (v_round v) (v_source v) = Some (d, v).
Proof.
  intros Hv Hg. destruct (get_stored _ _ _ _ _ (view_wf _ _ _ Hv) Hg) as (_ & Hat & _).
  by apply (view_in _ _ _ Hv).
Qed.

Lemma view_strong_ref g fp lo d v ref :
  ViewOk g fp lo -> get g d = Some v -> ref ∈ v_strong v ->
  r_round ref + 1 = v_round v /\ (r_source ref < committee_size c)%nat /\ labelled digest ref.
Proof.
  intros Hv Hg Hin. pose proof (u_at _ _ _ _ _ Hv Hg) as HUv.
  destruct (u_vertex HU _ _ _ _ HUv) as (_ & _ & _ & Hwf).
  pose proof (u_labelled HU _ _ _ _ _ HUv Hin) as Hl.
  assert (v_round v <> 0) as Hnz.
  { intros Hz. destruct (vw_zero _ _ Hwf Hz) as [He _]. rewrite He in Hin.
    by apply elem_of_nil in Hin. }
  pose proof (vw_strong _ _ Hwf Hnz) as HF. rewrite Forall_forall in HF.
  destruct (HF ref Hin). done.
Qed.

Lemma view_layered g fp lo : ViewOk g fp lo -> layered g.
Proof.
  intros Hv d v r Hg Hr. destruct (view_strong_ref _ _ _ _ _ _ Hv Hg Hr) as (H1 & _ & Hl).
  split; [done|]. intros w Hw.
  destruct (get_stored _ _ _ _ _ (view_wf _ _ _ Hv) Hw) as (_ & _ & Hd & _). by apply Hl.
Qed.

(** A strong reference at or above the floor leads to the delivered vertex. *)
Lemma view_follow g fp lo d v ref :
  ViewOk g fp lo -> get g d = Some v -> ref ∈ v_strong v -> lo <= r_round ref ->
  exists w, get g (r_digest ref) = Some w /\ v_round w = r_round ref /\ v_source w = r_source ref /\
    U (r_round ref) (r_source ref) = Some (r_digest ref, w).
Proof.
  intros Hv Hg Hin Hlo. destruct (view_strong_ref _ _ _ _ _ _ Hv Hg Hin) as (_ & _ & Hl).
  assert (is_Some (get g (r_digest ref))) as [w Hw].
  { apply (by_digest_get digest (fun _ => True)); [apply Hv|].
    eapply (dw_closed _ _ _ (view_wf _ _ _ Hv)); [exact Hg|apply elem_of_app; by left|done|].
    pose proof (view_floor _ _ _ Hv). lia. }
  pose proof (u_at _ _ _ _ _ Hv Hw) as HUw.
  destruct (u_vertex HU _ _ _ _ HUw) as (_ & _ & Hd & _).
  destruct (Hl w Hd) as [Hr Hs]. exists w. split_and!; [done|done|done|]. by rewrite <-Hr, <-Hs.
Qed.

(** ** Counting seats over a map of authors *)

Lemma nsum_map_weight {A} (m : gmap ValidatorIndex A) (P : ValidatorIndex * A -> Prop)
    `{forall x, Decision (P x)} :
  nsum ((fun p => seats c p.1) <$> filter P (map_to_list m)) <=
  weight c (fun s => match m !! s with Some x => bool_decide (P (s, x)) | None => false end).
Proof.
  assert ((fun p : ValidatorIndex * A => seats c p.1) <$> filter P (map_to_list m) =
          (fun s => seats c s) <$> (filter P (map_to_list m)).*1) as ->.
  { by rewrite <-list_fmap_compose. }
  apply (nsum_members_le c).
  - apply NoDup_filter_fst, NoDup_fst_map_to_list.
  - intros i ([s x] & -> & [HP Hin]%list_elem_of_filter)%list_elem_of_fmap. cbn.
    apply elem_of_map_to_list in Hin. rewrite Hin. by apply bool_decide_true.
Qed.
(** The author's vertex is delivered and satisfies [test]. *)
Definition delivered_with (g : Dag) (r : Round) (test : Vertex -> bool) (s : ValidatorIndex) : bool :=
  match dag_at g r s with Some (_, v) => test v | None => false end.

Lemma delivered_seats_le g r test :
  delivered_seats c g r test <= weight c (delivered_with g r test).
Proof.
  unfold delivered_seats, dag_round. destruct (rounds g !! r) as [m|] eqn:E.
  2:{ cbn. lia. }
  etransitivity; [apply (nsum_map_weight m (fun p => test p.2.2 = true))|].
  apply wsum_mono. intros s _. unfold delivered_with, dag_at. rewrite E. simpl.
  destruct (m !! s) as [[d v]|]; [|done]. cbn. intros H. by propify.
Qed.

(** The author's vertex is not delivered and its first proposal references
    the leader. *)
Definition proposed_with (g : Dag) (fp : FirstProposals) (r : Round) (l s : ValidatorIndex) : bool :=
  match fp !! (r + 1) ≫= fun m => m !! s with
  | Some refs => bool_decide (dag_at g (r + 1) s = None) &&
                 existsb (fun x => (r_round x =? r) && (r_source x =? l)%nat) refs
  | None => false
  end.

Lemma proposed_seats_le g fp r l :
  proposed_seats c g fp r l <= weight c (proposed_with g fp r l).
Proof.
  unfold proposed_seats. destruct (fp !! (r + 1)) as [m|] eqn:E; [|lia].
  etransitivity; [apply (nsum_map_weight m)|].
  apply wsum_mono. intros s _. unfold proposed_with. rewrite E. simpl.
  destruct (m !! s) as [refs|]; [|done]. intros H. propify. destruct H as [Hni ->].
  rewrite andb_true_r. apply bool_decide_true. cbn [fst] in Hni.
  destruct (dag_at g (r + 1) s) as [p|] eqn:Ed; [|done]. destruct Hni.
  unfold dag_at in Ed. unfold dag_round. destruct (rounds g !! (r + 1)) as [m'|]; [|done].
  simpl in Ed. apply list_elem_of_fmap. exists (s, p). split; [done|]. by apply elem_of_map_to_list.
Qed.

Lemma weight_disjoint P Q :
  (forall i, P i = true -> Q i = false) -> weight c P + weight c Q = weight c (fun i => P i || Q i).
Proof.
  intros H. pose proof (wsum_and_or (seats c) (committee_size c) P Q) as Ha. unfold weight.
  assert (wsum (seats c) (committee_size c) (fun i => P i && Q i) = 0) as Hz.
  { rewrite (wsum_ext _ _ _ (fun _ => false)); [apply wsum_false|].
    intros i _. destruct (P i) eqn:E; [|done]. by rewrite (H i E). }
  lia.
Qed.

(** Honest authors whose round [r + 1] vertex references the slot's leader. *)
Definition supporter (r : Round) (l j : ValidatorIndex) : Prop :=
  (j < committee_size c)%nat /\ faulty j = false /\
  exists d v ref, U (r + 1) j = Some (d, v) /\ ref ∈ v_strong v /\
    r_round ref = r /\ r_source ref = l.

(** A quorum of support leaves more than [f] seats of honest supporters. *)
Lemma support_spec g fp lo r l :
  ViewOk g fp lo ->
  quorum c <= delivered_seats c g (r + 1) (fun v => references_author v l) +
              proposed_seats c g fp r l ->
  exists P, quorum c <= weight c P /\
    forall j, (j < committee_size c)%nat -> P j = true -> faulty j = false -> supporter r l j.
Proof.
  intros Hv Hq.
  exists (fun j => delivered_with g (r + 1) (fun v => references_author v l) j
                   || proposed_with g fp r l j).
  rewrite <-weight_disjoint.
  2:{ intros j. unfold delivered_with, proposed_with.
      destruct (dag_at g (r + 1) j) as [[d v]|]; [|done]. intros _.
      destruct (_ ≫= _); [|done]. by rewrite bool_decide_false. }
  split.
  { pose proof (delivered_seats_le g (r + 1) (fun v => references_author v l)).
    pose proof (proposed_seats_le g fp r l). lia. }
  intros j Hj HP Hh. split; [done|]. split; [done|]. apply orb_true_iff in HP as [HP|HP].
  - unfold delivered_with in HP. destruct (dag_at g (r + 1) j) as [[d v]|] eqn:E; [|done].
    pose proof (view_in _ _ _ Hv _ _ _ _ E) as HUv. exists d, v.
    unfold references_author in HP. apply existsb_exists in HP as (ref & Hin & Hs).
    apply Nat.eqb_eq in Hs. rewrite <-list_elem_of_In in Hin. exists ref. split_and!; try done.
    destruct (dw_slot _ _ _ (view_wf _ _ _ Hv) _ _ _ _ E) as (_ & Hr & _ & _).
    destruct (view_strong_ref g fp lo d v ref Hv) as (Hrr & _); [|done|lia].
    by eapply at_get; [apply Hv|].
  - unfold proposed_with in HP. destruct (fp !! (r + 1)) as [m|] eqn:E; [|done]. simpl in HP.
    destruct (m !! j) as [refs|] eqn:Ej; [|done].
    destruct (view_first _ _ _ Hv _ _ _ _ E Ej Hh) as (d & v & HUv & <-).
    propify. apply existsb_exists in H0 as (ref & Hin & Hb). propify.
    rewrite <-list_elem_of_In in Hin. exists d, v, ref. done.
Qed.

(** The slot's vertex, named by an honest supporter. *)
Lemma supporter_names r l j :
  supporter r l j -> exists d v, U r l = Some (d, v).
Proof.
  intros (_ & Hh & d & v & ref & HUv & Hin & <- & <-).
  destruct (u_honest HU _ _ _ _ _ HUv Hh Hin) as [w Hw]. eauto.
Qed.
(** ** Committed slots are reached from everywhere above *)

Lemma strong_author_ref v j :
  strong_author v j = true -> exists ref, ref ∈ v_strong v /\ r_source ref = j.
Proof.
  unfold strong_author. intros H. propify. apply list_elem_of_fmap in H as (ref & -> & ?). eauto.
Qed.

Lemma supported_reached g fp lo r l P dx vx :
  ViewOk g fp lo -> lo <= r -> quorum c <= weight c P ->
  (forall j, (j < committee_size c)%nat -> P j = true -> faulty j = false -> supporter r l j) ->
  U r l = Some (dx, vx) ->
  forall n y vy, get g y = Some vy -> v_round vy = r + 2 + N.of_nat n ->
    (exists ref, strong_reach g y ref /\ hits (mkRef r l dx) ref) /\ get g dx = Some vx.
Proof.
  intros Hv Hlo HqP HP HUx n. induction n as [|n IH]; intros y vy Hg Hr.
  - pose proof (u_at _ _ _ _ _ Hv Hg) as HUy.
    destruct (u_vertex HU _ _ _ _ HUy) as (_ & _ & _ & Hwf).
    destruct (quorums_honest c faulty (strong_author vy) P wf Hfaulty) as (j & Hj & Hsj & HPj & Hh);
      [apply Hwf; lia|done|].
    apply strong_author_ref in Hsj as (ref & Hin & Hsrc).
    destruct (view_strong_ref _ _ _ _ _ _ Hv Hg Hin) as (Hrr & _).
    destruct (view_follow _ _ _ _ _ _ Hv Hg Hin) as (w & Hw & Hwr & Hws & HUw); [lia|].
    destruct (HP j Hj HPj Hh) as (_ & _ & d & v & ref2 & HUv & Hin2 & Hr2 & Hs2).
    assert (r_round ref = r + 1) as Hr1 by lia. rewrite Hr1, Hsrc, HUv in HUw.
    injection HUw as -> ->.
    destruct (u_honest HU _ _ _ _ _ HUv Hh Hin2) as [x Hx]. rewrite Hr2, Hs2, HUx in Hx.
    injection Hx as Hdx Hxx.
    destruct (view_follow _ _ _ _ _ _ Hv Hw Hin2) as (z & Hz & _ & _ & HUz); [lia|].
    rewrite Hr2, Hs2, HUx in HUz. injection HUz as _ <-. rewrite <-Hdx in Hz. split; [|done].
    exists ref2. split; [|by split]. eapply sr_step; [exact Hg|exact Hin|]. by eapply sr_ref.
  - pose proof (u_at _ _ _ _ _ Hv Hg) as HUy.
    destruct (u_vertex HU _ _ _ _ HUy) as (_ & _ & _ & Hwf).
    destruct (quorums_honest c faulty (strong_author vy) P wf Hfaulty) as (j & Hj & Hsj & _ & _);
      [apply Hwf; lia|done|].
    apply strong_author_ref in Hsj as (ref & Hin & Hsrc).
    destruct (view_strong_ref _ _ _ _ _ _ Hv Hg Hin) as (Hrr & _).
    destruct (view_follow _ _ _ _ _ _ Hv Hg Hin) as (w & Hw & Hwr & _); [lia|].
    destruct (IH (r_digest ref) w Hw) as [(ref2 & Hs & Hh) Hx]; [lia|].
    split; [|done]. exists ref2. split; [|done]. by eapply sr_step.
Qed.

(** ** Skipped slots are reached from nowhere *)

Lemma full_weight P j :
  total_seats c <= weight c P -> (j < committee_size c)%nat -> P j = true.
Proof.
  intros Ht Hj. destruct (P j) eqn:E; [done|]. exfalso.
  pose proof (wsum_add (seats c) (committee_size c) P j Hj E) as Ha.
  pose proof (weight_le_total c (fun i => P i || (i =? j)%nat) wf) as Hle.
  unfold weight in *. pose proof (seats_pos c j wf Hj). lia.
Qed.

(** Every member's vertex of the next round is delivered and does not
    reference the leader. *)
Definition blamed (r : Round) (l : ValidatorIndex) : Prop :=
  forall j, (j < committee_size c)%nat ->
    exists d v, U (r + 1) j = Some (d, v) /\ references_author v l = false.

Lemma blame_spec g fp lo r l :
  ViewOk g fp lo ->
  total_seats c <= delivered_seats c g (r + 1) (fun v => negb (references_author v l)) -> blamed r l.
Proof.
  intros Hv Ht j Hj.
  pose proof (delivered_seats_le g (r + 1) (fun v => negb (references_author v l))) as Hle.
  pose proof (full_weight _ j (N.le_trans _ _ _ Ht Hle) Hj) as Hb. unfold delivered_with in Hb.
  destruct (dag_at g (r + 1) j) as [[d v]|] eqn:E; [|done]. exists d, v.
  split; [by apply (view_in _ _ _ Hv)|]. by propify.
Qed.

Lemma references_author_in v ref : ref ∈ v_strong v -> references_author v (r_source ref) = true.
Proof.
  intros Hin. unfold references_author. apply existsb_exists. exists ref.
  rewrite <-list_elem_of_In, Nat.eqb_refl. done.
Qed.

Lemma blamed_unreached g fp lo r l dx vx y ref :
  ViewOk g fp lo -> blamed r l -> U r l = Some (dx, vx) ->
  strong_reach g y ref -> hits (mkRef r l dx) ref -> False.
Proof.
  intros Hv Hb HUx Hs. induction Hs as [y v ref Hg Hin|y v ref ref' Hg Hin _ IH]; [|exact IH].
  intros [Hr Hd]. cbn in Hr, Hd.
  destruct (view_strong_ref _ _ _ _ _ _ Hv Hg Hin) as (Hrr & _ & Hl).
  destruct (u_vertex HU _ _ _ _ HUx) as (_ & Hsx & Hdx & _).
  destruct (Hl vx) as [_ Hsrc]; [congruence|].
  pose proof (u_at _ _ _ _ _ Hv Hg) as HUv.
  destruct (u_vertex HU _ _ _ _ HUv) as (_ & _ & _ & Hwf).
  destruct (Hb (v_source v) (vw_author _ _ Hwf)) as (d' & v' & HUv' & Href).
  replace (r + 1) with (v_round v) in HUv' by lia. rewrite HUv in HUv'. injection HUv' as _ <-.
  pose proof (references_author_in v ref Hin) as Ht.
  rewrite <-Hsrc, Hsx in Ht. congruence.
Qed.

(** ** Reachability is the same in two views *)

Lemma strong_reach_labelled g fp lo d ref :
  ViewOk g fp lo -> strong_reach g d ref -> labelled digest ref.
Proof.
  intros Hv. induction 1 as [d v ref Hg Hin|]; [|done].
  by destruct (view_strong_ref _ _ _ _ _ _ Hv Hg Hin) as (_ & _ & ?).
Qed.

Lemma reach_transfer g1 fp1 lo1 g2 fp2 lo2 y v ref :
  ViewOk g1 fp1 lo1 -> ViewOk g2 fp2 lo2 -> strong_reach g1 y ref ->
  get g1 y = Some v -> get g2 y = Some v -> lo2 <= r_round ref ->
  strong_reach g2 y ref /\
  exists w, get g2 (r_digest ref) = Some w /\ U (r_round ref) (r_source ref) = Some (r_digest ref, w).
Proof.
  intros H1 H2 Hs. revert v. induction Hs as [y u ref Hg Hin|y u ref ref' Hg Hin Hs IH];
    intros v Hg1 Hg2 Hlo; rewrite Hg in Hg1; injection Hg1 as ->.
  - destruct (view_follow _ _ _ _ _ _ H2 Hg2 Hin Hlo) as (w & Hw & _ & _ & HUw).
    split; [by eapply sr_ref|eauto].
  - destruct (strong_reach_get _ _ _ Hs) as [w1 Hw1].
    pose proof (strong_reach_round _ _ _ _ (view_layered _ _ _ H1) Hs Hw1) as Hlt.
    destruct (view_layered _ _ _ H1 _ _ _ Hg Hin) as [_ Hl1]. rewrite (Hl1 w1 Hw1) in Hlt.
    destruct (view_follow _ _ _ _ _ _ H2 Hg2 Hin) as (w & Hw & Hwr & Hws & HUw); [lia|].
    pose proof (u_at _ _ _ _ _ H1 Hw1) as HU1.
    destruct (u_vertex HU _ _ _ _ HU1) as (_ & _ & Hd1 & _).
    destruct (view_strong_ref _ _ _ _ _ _ H2 Hg2 Hin) as (_ & _ & Hl).
    destruct (Hl w1 Hd1) as [Hr1 Hs1]. rewrite Hr1, Hs1, HUw in HU1. injection HU1 as ->.
    destruct (IH w1 Hw1 Hw Hlo) as [Hs2 Hex]. split; [by eapply sr_step|done].
Qed.
(** ** Agreement *)

Context (lead : Round -> nat -> ValidatorIndex) (slots : nat).

Lemma slot_vertex_spec g fp lo s x :
  ViewOk g fp lo -> slot_vertex lead g s = Some x ->
  exists v, x = mkRef s.1 (lead s.1 s.2) (r_digest x) /\ get g (r_digest x) = Some v /\
    v_round v = s.1 /\ U s.1 (lead s.1 s.2) = Some (r_digest x, v).
Proof.
  intros Hv Hx. unfold slot_vertex in Hx.
  destruct (dag_at g s.1 (lead s.1 s.2)) as [[d v]|] eqn:E; [|done]. cbn in Hx. injection Hx as <-.
  exists v. cbn. destruct (dw_slot _ _ _ (view_wf _ _ _ Hv) _ _ _ _ E) as (_ & ? & _).
  split_and!; [done|by eapply at_get; [apply Hv|]|done|by apply (view_in _ _ _ Hv)].
Qed.

Lemma get_slot_vertex g fp lo s d v :
  ViewOk g fp lo -> get g d = Some v -> U s.1 (lead s.1 s.2) = Some (d, v) ->
  slot_vertex lead g s = Some (mkRef s.1 (lead s.1 s.2) d).
Proof.
  intros Hv Hg HUv. destruct (u_vertex HU _ _ _ _ HUv) as (Hr & Hs & _).
  destruct (get_stored _ _ _ _ _ (view_wf _ _ _ Hv) Hg) as (_ & Hat & _).
  unfold slot_vertex. rewrite Hr, Hs in Hat. by rewrite Hat.
Qed.

Lemma direct_commit g fp lo s x :
  ViewOk g fp lo -> direct c lead g fp s = Commit x ->
  slot_vertex lead g s = Some x /\
  exists P, quorum c <= weight c P /\
    forall j, (j < committee_size c)%nat -> P j = true -> faulty j = false ->
      supporter s.1 (lead s.1 s.2) j.
Proof.
  intros Hv. destruct s as [r k]. unfold direct. cbn zeta.
  destruct (quorum c <=? _) eqn:Hq; propify.
  - destruct (slot_vertex lead g (r, k)); [|done]. intros [= ->]. split; [done|].
    by eapply support_spec.
  - by destruct (_ <=? _).
Qed.

Lemma direct_skip g fp lo s :
  ViewOk g fp lo -> direct c lead g fp s = Skip -> blamed s.1 (lead s.1 s.2).
Proof.
  intros Hv. destruct s as [r k]. unfold direct. cbn zeta.
  destruct (quorum c <=? _) eqn:Hq; propify.
  - by destruct (slot_vertex lead g (r, k)).
  - destruct (N.leb_spec (total_seats c)
      (delivered_seats c g (r + 1) (fun v => negb (references_author v (lead r k))))); [|done].
    intros _. by eapply blame_spec.
Qed.

(** What the anchor [y] of a view says of slot [s]. *)
Definition by_anchor (g : Dag) (s : Slot) (y : VertexRef) : SlotDecision :=
  match slot_vertex lead g s with
  | Some l => if strong_path g (r_digest y) l then Commit l else Skip
  | None => Skip
  end.

Lemma commit_by_anchor g1 fp1 lo1 g2 fp2 lo2 s x a y :
  ViewOk g1 fp1 lo1 -> ViewOk g2 fp2 lo2 -> lo2 <= s.1 -> direct c lead g1 fp1 s = Commit x ->
  slot_vertex lead g2 a = Some y -> s.1 + 2 <= a.1 -> by_anchor g2 s y = Commit x.
Proof.
  intros H1 H2 Hlo Hd Ha Hr. destruct (direct_commit _ _ _ _ _ H1 Hd) as (Hx & P & HqP & HP).
  destruct (slot_vertex_spec _ _ _ _ _ H1 Hx) as (vx & Hxe & _ & _ & HUx).
  destruct (slot_vertex_spec _ _ _ _ _ H2 Ha) as (vy & _ & Hgy & Hry & _).
  destruct (supported_reached g2 fp2 lo2 s.1 (lead s.1 s.2) P (r_digest x) vx H2 Hlo HqP HP HUx
              (N.to_nat (a.1 - (s.1 + 2))) (r_digest y) vy Hgy) as [(ref & Hs & Hh) Hgx]; [lia|].
  unfold by_anchor. rewrite (get_slot_vertex _ _ _ _ _ _ H2 Hgx HUx), <-Hxe.
  rewrite (proj2 (strong_path_iff g2 (r_digest y) x (view_layered _ _ _ H2))); [done|].
  exists vy. rewrite Hxe. cbn. split_and!; [done|lia|]. right. eauto.
Qed.

Lemma path_hits g fp lo s x a y :
  ViewOk g fp lo -> slot_vertex lead g s = Some x -> slot_vertex lead g a = Some y -> s.1 < a.1 ->
  strong_path g (r_digest y) x = true -> exists ref, strong_reach g (r_digest y) ref /\ hits x ref.
Proof.
  intros Hv Hx Ha Hlt Hp. apply (strong_path_iff _ _ _ (view_layered _ _ _ Hv)) in Hp
    as (v & Hg & Hle & [Heq|Hr]); [|done].
  destruct (slot_vertex_spec _ _ _ _ _ Hv Hx) as (vx & _ & Hgx & Hrx & _).
  destruct (slot_vertex_spec _ _ _ _ _ Hv Ha) as (vy & _ & Hgy & Hry & _).
  rewrite Heq in Hgy. rewrite Hgx in Hgy. injection Hgy as ->. lia.
Qed.

Lemma skip_by_anchor g1 fp1 lo1 g2 fp2 lo2 s a y :
  ViewOk g1 fp1 lo1 -> ViewOk g2 fp2 lo2 -> direct c lead g1 fp1 s = Skip ->
  slot_vertex lead g2 a = Some y -> s.1 + 2 <= a.1 -> by_anchor g2 s y = Skip.
Proof.
  intros H1 H2 Hd Ha Hr. pose proof (direct_skip _ _ _ _ H1 Hd) as Hb. unfold by_anchor.
  destruct (slot_vertex lead g2 s) as [x|] eqn:Ex; [|done].
  destruct (strong_path g2 (r_digest y) x) eqn:Ep; [|done]. exfalso.
  destruct (slot_vertex_spec _ _ _ _ _ H2 Ex) as (vx & Hxe & _ & _ & HUx).
  destruct (path_hits _ _ _ _ _ _ _ H2 Ex Ha) as (ref & Hs & Hh); [lia|done|].
  eapply blamed_unreached; [exact H2|exact Hb|exact HUx|exact Hs|]. by rewrite <-Hxe.
Qed.

Lemma anchor_agree g1 fp1 lo1 g2 fp2 lo2 s a y :
  ViewOk g1 fp1 lo1 -> ViewOk g2 fp2 lo2 -> lo2 <= s.1 ->
  slot_vertex lead g1 a = Some y -> slot_vertex lead g2 a = Some y -> s.1 + 2 <= a.1 ->
  forall x, by_anchor g1 s y = Commit x -> by_anchor g2 s y = Commit x.
Proof.
  intros H1 H2 Hlo Ha1 Ha2 Hr x. unfold by_anchor.
  destruct (slot_vertex lead g1 s) as [x1|] eqn:Ex; [|done].
  destruct (strong_path g1 (r_digest y) x1) eqn:Ep; [|done]. intros [= ->].
  destruct (slot_vertex_spec _ _ _ _ _ H1 Ex) as (vx & Hxe & _ & _ & HUx).
  destruct (slot_vertex_spec _ _ _ _ _ H1 Ha1) as (v1 & _ & Hg1 & _ & HUy1).
  destruct (slot_vertex_spec _ _ _ _ _ H2 Ha2) as (v2 & _ & Hg2 & Hr2 & HUy2).
  rewrite HUy1 in HUy2. injection HUy2 as ->.
  destruct (path_hits _ _ _ _ _ _ _ H1 Ex Ha1) as (ref & Hs & Hh1 & Hh2); [lia|done|].
  assert (r_round x = s.1) as Hrx by (by rewrite Hxe).
  destruct (reach_transfer _ _ _ _ _ _ _ _ _ H1 H2 Hs Hg1 Hg2) as (Hs2 & w & Hw & HUw); [lia|].
  destruct (u_vertex HU _ _ _ _ HUw) as (Hwr & Hws & Hwd & _).
  assert (U (v_round w) (v_source w) = Some (r_digest ref, w)) as HUw' by (by rewrite Hwr, Hws).
  assert (get g2 (r_digest x) = Some w) as Hgw by (by rewrite <-Hh2).
  destruct (u_vertex HU _ _ _ _ HUx) as (Hvr & Hvs & Hvd & _).
  pose proof (strong_reach_labelled _ _ _ _ _ H1 Hs) as Hl.
  destruct (Hl vx) as [_ Hsrc]; [congruence|].
  assert (w = vx) as ->.
  { rewrite Hh1, Hrx, <-Hsrc, Hvs, HUx in HUw. by injection HUw. }
  rewrite (get_slot_vertex _ _ _ _ _ _ H2 Hgw HUx), <-Hxe.
  rewrite (proj2 (strong_path_iff g2 (r_digest y) x (view_layered _ _ _ H2))); [done|].
  exists v2. split_and!; [done|lia|]. right. exists ref. by split.
Qed.
(** The decisions of a view, as one list in slot order. *)
Record Decisions (g : Dag) (fp : FirstProposals) (n : Slot) (out : list (Slot * SlotDecision)) : Prop := {
  dc_eq s d : (s, d) ∈ out -> d = decide_slot c lead g fp s out;
  dc_sorted : StronglySorted slot_lt out.*1;
  dc_key s d : (s, d) ∈ out -> ~ slot_lt s n /\ (s.2 < slots)%nat;
  dc_below s d b : (s, d) ∈ out -> ~ slot_lt b n -> (b.2 < slots)%nat -> slot_lt b s ->
    exists e, (b, e) ∈ out;
}.

Lemma decide_slots_decisions g fp n :
  Decisions g fp n (decide_slots c lead slots g fp n).
Proof.
  unfold decide_slots.
  assert (Decisions g fp n []) as Hnil.
  { constructor; try (intros *; by intros ?%elem_of_nil). constructor. }
  destruct (top_round g fp) as [t|]; [|done]. destruct (checked_sub t 1) as [hi|]; [|done].
  set (ss := filter _ _).
  assert (StronglySorted slot_lt ss) as Hs by apply StronglySorted_filter, slots_between_sorted.
  assert (forall s, s ∈ ss <-> ~ slot_lt s n /\ n.1 <= s.1 <= hi /\ (s.2 < slots)%nat) as Hin.
  { intros s. unfold ss. by rewrite list_elem_of_filter, slots_between_elem. }
  assert (forall s d, (s, d) ∈ decide_down c lead g fp ss -> s ∈ ss) as Hkey.
  { intros s d H. rewrite <-(decide_down_keys c lead g fp ss). apply list_elem_of_fmap. by exists (s, d). }
  constructor.
  - intros s d H. by apply decide_down_eq.
  - by rewrite decide_down_keys.
  - intros s d H%Hkey%Hin. tauto.
  - intros s d b H%Hkey%Hin Hb Hk Hlt.
    assert (b ∈ ss) as Hbs.
    { apply Hin. unfold slot_lt in *. lia. }
    rewrite <-(decide_down_keys c lead g fp ss) in Hbs.
    apply list_elem_of_fmap in Hbs as ([b' e] & -> & ?). eauto.
Qed.

Lemma decision_commit g fp lo n out s x :
  ViewOk g fp lo -> Decisions g fp n out -> (s, Commit x) ∈ out -> slot_vertex lead g s = Some x.
Proof.
  intros Hv Ho Hin. apply (dc_eq _ _ _ _ Ho) in Hin. unfold decide_slot in Hin.
  destruct (direct c lead g fp s) as [y| |] eqn:Ed.
  - injection Hin as ->. by destruct (direct_commit _ _ _ _ _ Hv Ed).
  - done.
  - destruct (indirect_decided lead g s out) as (a & y & _ & Hi); [apply Ho|by rewrite <-Hin|].
    rewrite Hi in Hin. destruct (slot_vertex lead g s); [|done].
    destruct (strong_path _ _ _); [|done]. congruence.
Qed.

(** A decided slot was decided directly or by an anchor in the view. *)
Lemma decision_cases g fp lo n out s d :
  ViewOk g fp lo -> Decisions g fp n out -> (s, d) ∈ out -> d <> Undecided ->
  direct c lead g fp s = d \/
  exists a y, anchored s out a y /\ slot_vertex lead g a = Some y /\ d = by_anchor g s y.
Proof.
  intros Hv Ho Hin Hne. apply (dc_eq _ _ _ _ Ho) in Hin. unfold decide_slot in Hin.
  destruct (direct c lead g fp s) eqn:Ed; [by left|by left|]. right.
  destruct (indirect_decided lead g s out) as (a & y & Ha & Hi); [apply Ho|by rewrite <-Hin|].
  exists a, y. split; [done|]. split; [|by rewrite Hin, Hi].
  eapply decision_commit; [done|done|]. by destruct Ha as (? & _).
Qed.

(** The anchors of one slot in two views are the same, if later decisions
    agree. *)
Lemma anchors_le g1 fp1 lo1 n1 out1 g2 fp2 n2 out2 s a1 y1 a2 y2 d :
  ViewOk g1 fp1 lo1 -> Decisions g1 fp1 n1 out1 -> Decisions g2 fp2 n2 out2 ->
  (s, d) ∈ out2 ->
  (forall b e1 e2, s.1 < b.1 -> (b, e1) ∈ out1 -> (b, e2) ∈ out2 ->
     e1 <> Undecided -> e2 <> Undecided -> e1 = e2) ->
  anchored s out1 a1 y1 -> anchored s out2 a2 y2 -> ~ slot_lt a1 a2.
Proof.
  intros H1 O1 O2 Hin IH (Ha1 & Hr1 & _) (Ha2 & Hr2 & Hskip) Hlt.
  destruct (dc_key _ _ _ _ O2 _ _ Hin) as [Hge _].
  destruct (dc_key _ _ _ _ O1 _ _ Ha1) as [_ Hk1].
  destruct (dc_below _ _ _ _ O2 _ _ a1 Ha2) as [e He]; [unfold slot_lt in *; lia|done|done|].
  assert (e = Skip) as -> by (eapply Hskip; eauto).
  assert (Commit y1 = Skip) by (eapply (IH a1); eauto; lia). done.
Qed.

Lemma slot_trichotomy (a b : Slot) : ~ slot_lt a b -> ~ slot_lt b a -> a = b.
Proof. destruct a, b. unfold slot_lt. cbn. intros. f_equal; lia. Qed.

Lemma direct_direct g1 fp1 lo1 g2 fp2 lo2 s d1 d2 :
  ViewOk g1 fp1 lo1 -> ViewOk g2 fp2 lo2 ->
  direct c lead g1 fp1 s = d1 -> direct c lead g2 fp2 s = d2 ->
  d1 <> Undecided -> d2 <> Undecided -> d1 = d2.
Proof.
  assert (forall g1 fp1 lo1 g2 fp2 lo2 x, ViewOk g1 fp1 lo1 -> ViewOk g2 fp2 lo2 ->
    direct c lead g1 fp1 s = Commit x -> direct c lead g2 fp2 s = Skip -> False) as Hcs.
  { intros h1 p1 l1 h2 p2 l2 x V1 V2 E1 E2.
    destruct (direct_commit _ _ _ _ _ V1 E1) as (_ & P & HqP & HP).
    destruct (quorums_honest c faulty P P wf Hfaulty HqP HqP) as (j & Hj & HPj & _ & Hh).
    destruct (HP j Hj HPj Hh) as (_ & _ & d & v & ref & HUv & Hin & _ & Hsrc).
    destruct (direct_skip _ _ _ _ V2 E2 j Hj) as (d' & v' & HUv' & Href).
    rewrite HUv in HUv'. injection HUv' as _ <-.
    pose proof (references_author_in v ref Hin). rewrite Hsrc in *. congruence. }
  intros V1 V2 E1 E2 N1 N2. destruct d1 as [x1| |], d2 as [x2| |]; try done.
  - destruct (direct_commit _ _ _ _ _ V1 E1) as [Hx1 _].
    destruct (direct_commit _ _ _ _ _ V2 E2) as [Hx2 _].
    destruct (slot_vertex_spec _ _ _ _ _ V1 Hx1) as (v1 & -> & _ & _ & HU1).
    destruct (slot_vertex_spec _ _ _ _ _ V2 Hx2) as (v2 & -> & _ & _ & HU2).
    rewrite HU1 in HU2. injection HU2 as Hd _. cbn in Hd. by rewrite Hd.
  - exfalso. by eapply (Hcs g1 fp1 lo1 g2 fp2 lo2).
  - exfalso. by eapply (Hcs g2 fp2 lo2 g1 fp1 lo1).
Qed.

Lemma direct_anchored g1 fp1 lo1 g2 fp2 lo2 s d1 a y :
  ViewOk g1 fp1 lo1 -> ViewOk g2 fp2 lo2 -> lo2 <= s.1 ->
  direct c lead g1 fp1 s = d1 -> d1 <> Undecided ->
  slot_vertex lead g2 a = Some y -> s.1 + 2 <= a.1 -> d1 = by_anchor g2 s y.
Proof.
  intros V1 V2 Hlo E1 N1 Ha Hr. symmetry. destruct d1 as [x| |]; [| |done].
  - eapply (commit_by_anchor g1 fp1 lo1 g2 fp2 lo2); eauto.
  - eapply (skip_by_anchor g1 fp1 lo1 g2 fp2 lo2); eauto.
Qed.

Lemma decisions_agree g1 fp1 n1 out1 g2 fp2 n2 out2 :
  ViewOk g1 fp1 n1.1 -> ViewOk g2 fp2 n2.1 ->
  Decisions g1 fp1 n1 out1 -> Decisions g2 fp2 n2 out2 ->
  forall s d1 d2, (s, d1) ∈ out1 -> (s, d2) ∈ out2 ->
    d1 <> Undecided -> d2 <> Undecided -> d1 = d2.
Proof.
  intros V1 V2 O1 O2.
  assert (exists B, forall s d, (s, d) ∈ out1 -> s.1 <= B) as [B HB].
  { clear. induction out1 as [|[s d] out IH]; [exists 0; intros ? ? ?%elem_of_nil; done|].
    destruct IH as [B HB]. exists (N.max s.1 B).
    intros b e [Heq|Hin]%elem_of_cons; [injection Heq as -> ->; lia|]. specialize (HB _ _ Hin). lia. }
  intros s. remember (N.to_nat (B - s.1)) as m eqn:Em. revert s Em.
  induction m as [m IH] using lt_wf_ind. intros s Em d1 d2 Hin1 Hin2 N1 N2.
  assert (forall b e1 e2, s.1 < b.1 -> (b, e1) ∈ out1 -> (b, e2) ∈ out2 ->
     e1 <> Undecided -> e2 <> Undecided -> e1 = e2) as IHs.
  { intros b e1 e2 Hlt H1 H2. pose proof (HB _ _ H1). eapply (IH (N.to_nat (B - b.1))); eauto. lia. }
  destruct (dc_key _ _ _ _ O1 _ _ Hin1) as [Hge1 _]. destruct (dc_key _ _ _ _ O2 _ _ Hin2) as [Hge2 _].
  assert (n1.1 <= s.1) as Hlo1 by (unfold slot_lt in Hge1; lia).
  assert (n2.1 <= s.1) as Hlo2 by (unfold slot_lt in Hge2; lia).
  destruct (decision_cases _ _ _ _ _ _ _ V1 O1 Hin1 N1) as [E1|(a1 & y1 & A1 & Hy1 & ->)];
    destruct (decision_cases _ _ _ _ _ _ _ V2 O2 Hin2 N2) as [E2|(a2 & y2 & A2 & Hy2 & ->)].
  - by eapply (direct_direct g1 fp1 n1.1 g2 fp2 n2.1).
  - eapply (direct_anchored g1 fp1 n1.1 g2 fp2 n2.1); eauto. apply A2.
  - symmetry. eapply (direct_anchored g2 fp2 n2.1 g1 fp1 n1.1); eauto. apply A1.
  - assert (a1 = a2) as <-.
    { apply slot_trichotomy.
      - eapply (anchors_le g1 fp1 n1.1 n1 out1 g2 fp2 n2 out2); eauto.
      - eapply (anchors_le g2 fp2 n2.1 n2 out2 g1 fp1 n1 out1); eauto.
        intros. symmetry. eapply IHs; eauto. }
    assert (y1 = y2) as <-.
    { destruct A1 as (Ha1 & Hr1 & _), A2 as (Ha2 & _ & _).
      assert (Commit y1 = Commit y2) as [= ->] by (eapply (IHs a1); eauto; lia). done. }
    assert (s.1 + 2 <= a1.1) as Hr by apply A1.
    pose proof (anchor_agree g1 fp1 n1.1 g2 fp2 n2.1 s a1 y1 V1 V2 Hlo2 Hy1 Hy2 Hr) as H12.
    pose proof (anchor_agree g2 fp2 n2.1 g1 fp1 n1.1 s a1 y1 V2 V1 Hlo1 Hy2 Hy1 Hr) as H21.
    destruct (by_anchor g1 s y1) as [x| |]; [symmetry; by apply H12| |done].
    destruct (by_anchor g2 s y1) as [x| |]; [|done|done]. by specialize (H21 x eq_refl).
Qed.
End safety.

(** ** Safety of the commit rule *)

(** C7: safety of the commit rule. Two validators run the rule of [decide_slots]
    under the same leader schedule on their own DAGs and first proposals, from
    their own next slots. Their DAGs hold vertices reliable broadcast delivers
    and are causally closed; faulty validators hold at most [max_faulty]
    seats; strong references are labelled. Then any slot both decide, directly
    or through an anchor, they decide the same way. *)
Theorem commit_safety c faulty digest U lead slots g1 fp1 n1 g2 fp2 n2 :
  CommitteeWf c -> weight c faulty <= max_faulty c -> UniverseOk c faulty digest U ->
  ViewOk faulty digest U g1 fp1 n1.1 -> ViewOk faulty digest U g2 fp2 n2.1 ->
  forall s d1 d2,
    (s, d1) ∈ decide_slots c lead slots g1 fp1 n1 ->
    (s, d2) ∈ decide_slots c lead slots g2 fp2 n2 ->
    d1 <> Undecided -> d2 <> Undecided -> d1 = d2.
Proof.
  intros wf Hf HU V1 V2.
  eapply (decisions_agree c wf faulty Hf digest U HU lead slots g1 fp1 n1 _ g2 fp2 n2 _ V1 V2);
    by eapply decide_slots_decisions; eauto.
Qed.

(** ** Finite networks

    A network given by the list of its vertices, each named by [label]: what is
    asked of it is a finite check. *)

Section network.
Context (vs : list Vertex) (label : Vertex -> Digest).

Definition net_digest (v : Vertex) : Digest := if bool_decide (v ∈ vs) then label v else 0.

Definition net_U (r : Round) (s : ValidatorIndex) : option (Digest * Vertex) :=
  match filter (fun v => v_round v = r /\ v_source v = s) vs with
  | v :: _ => Some (net_digest v, v)
  | [] => None
  end.

Definition deliver (g : Dag) (v : Vertex) : Dag :=
  (offer net_digest (expect g (net_digest v) (v_round v)) v).1.1.

Definition net_start : Dag := with_vouching [1; 1; 1; 1] 2.
Definition net_view_of (ws : list Vertex) : Dag := foldl deliver net_start ws.

Lemma net_reachable ws :
  dag_reachable net_digest (fun _ => True) (fun _ => True) net_start (net_view_of ws).
Proof.
  induction ws as [|v ws IH] using rev_ind; [apply dr_refl|]. unfold net_view_of in *.
  rewrite foldl_app. cbn [foldl]. unfold deliver at 1.
  eapply dr_step; [eapply dr_step; [exact IH|by apply ds_expect]|by apply ds_offer].
Qed.

Lemma net_wf ws : DagWf net_digest (fun _ => True) (net_view_of ws).
Proof. eapply reachable_wf, net_reachable. Qed.

Lemma net_U_spec r s d v :
  net_U r s = Some (d, v) -> v ∈ vs /\ v_round v = r /\ v_source v = s /\ net_digest v = d.
Proof.
  unfold net_U. destruct (filter _ _) as [|w l] eqn:E; [done|]. intros [= <- <-].
  assert (w ∈ filter (fun v => v_round v = r /\ v_source v = s) vs) as Hin by (rewrite E; left).
  apply list_elem_of_filter in Hin as [[? ?] ?]. done.
Qed.

(** A digest names one author and round. *)
Definition net_names (ref : VertexRef) : bool :=
  bool_decide (r_digest ref <> 0) &&
  forallb (fun u => negb (bool_decide (net_digest u = r_digest ref)) ||
    ((v_round u =? r_round ref) && (v_source u =? r_source ref)%nat)) vs.

Definition net_check : bool :=
  forallb (fun v => is_ok (check_structure four_seats v) &&
    forallb (fun ref => net_names ref &&
      match net_U (r_round ref) (r_source ref) with
      | Some (d, _) => d =? r_digest ref
      | None => false
      end) (v_strong v)) vs.

Lemma net_labelled ref : net_names ref = true -> labelled net_digest ref.
Proof.
  intros H v Hd. apply andb_true_iff in H as [Hnz HF]. apply bool_decide_eq_true in Hnz.
  rewrite forallb_forall in HF. setoid_rewrite <-list_elem_of_In in HF.
  assert (v ∈ vs) as Hin.
  { unfold net_digest in Hd. case_bool_decide; [done|]. congruence. }
  specialize (HF v Hin). rewrite bool_decide_true in HF by done. cbn [negb orb] in HF. by propify.
Qed.

Lemma net_universe faulty : net_check = true -> UniverseOk four_seats faulty net_digest net_U.
Proof.
  unfold net_check. rewrite forallb_forall. setoid_rewrite <-list_elem_of_In. intros Hc.
  assert (forall v ref, v ∈ vs -> ref ∈ v_strong v ->
    labelled net_digest ref /\ exists w, net_U (r_round ref) (r_source ref) = Some (r_digest ref, w)) as Hrefs.
  { intros v ref Hv Hr. specialize (Hc v Hv). apply andb_true_iff in Hc as [_ Hc].
    rewrite forallb_forall in Hc. setoid_rewrite <-list_elem_of_In in Hc. specialize (Hc ref Hr).
    apply andb_true_iff in Hc as [H1 H2]. split; [by apply net_labelled|].
    destruct (net_U (r_round ref) (r_source ref)) as [[d w]|]; [|done].
    apply N.eqb_eq in H2. subst. eauto. }
  constructor.
  - intros r s d v (Hin & ? & ? & ?)%net_U_spec. split_and!; try done.
    specialize (Hc v Hin). apply andb_true_iff in Hc as [Hc _].
    apply check_structure_iff; [apply four_seats_wf|].
    by destruct (check_structure four_seats v) as [[]|].
  - intros r s d v ref (Hin & _)%net_U_spec Hr. by apply (Hrefs v).
  - intros r s d v ref (Hin & _)%net_U_spec _ Hr. by apply (Hrefs v).
Qed.

(** Every vertex of a DAG is the network's. *)
Definition view_inb (g : Dag) : bool :=
  forallb (fun p => forallb (fun q => bool_decide (net_U p.1 q.1 = Some q.2))
                      (map_to_list p.2)) (map_to_list (rounds g)).

Lemma view_inb_sound g r s p : view_inb g = true -> dag_at g r s = Some p -> net_U r s = Some p.
Proof.
  unfold view_inb. rewrite forallb_forall. setoid_rewrite <-list_elem_of_In. intros H Hat.
  unfold dag_at in Hat. destruct (rounds g !! r) as [m|] eqn:E; [|done]. simpl in Hat.
  specialize (H (r, m) (proj2 (elem_of_map_to_list _ _ _) E)). rewrite forallb_forall in H.
  setoid_rewrite <-list_elem_of_In in H.
  specialize (H (s, p) (proj2 (elem_of_map_to_list _ _ _) Hat)). by apply bool_decide_eq_true in H.
Qed.

Lemma net_view faulty ws :
  view_inb (net_view_of ws) = true -> dag_floor (net_view_of ws) = 0 ->
  ViewOk faulty net_digest net_U (net_view_of ws) ∅ 0.
Proof.
  intros Hb Hf. constructor.
  - apply net_wf.
  - lia.
  - intros r s d v. by apply view_inb_sound.
  - intros r props s refs. by rewrite lookup_empty.
Qed.
End network.

(** Four validators of one seat; validator 3 leads the slot of round 0 and its
    vertex there reaches the others late: the round-1 vertices of 0, 1 and 2
    reference 0, 1 and 2. Validator 3's own round-1 vertex references its
    round-0 vertex, under its own name or, when [bad], under validator 2's. *)
Definition net_dig (r : Round) (s : ValidatorIndex) : Digest := 10 * r + N.of_nat s + 1.
Definition net_ref (r : Round) (s : ValidatorIndex) : VertexRef := mkRef r s (net_dig r s).
Definition net_label (v : Vertex) : Digest := net_dig (v_round v) (v_source v).
Definition net_vertex (r : Round) (s : ValidatorIndex) (refs : list VertexRef) : Vertex :=
  mkVertex 0 r s refs [] [] [] 0.

Definition net_vertices (bad : bool) : list Vertex :=
  ((fun s => net_vertex 0 s []) <$> [0; 1; 2; 3]%nat)
  ++ ((fun s => net_vertex 1 s [net_ref 0 0; net_ref 0 1; net_ref 0 2]) <$> [0; 1; 2]%nat)
  ++ [net_vertex 1 3 [net_ref 0 0; net_ref 0 1;
                      if bad then mkRef 0 2 (net_dig 0 3) else net_ref 0 3]]
  ++ ((fun s => net_vertex 2 s [net_ref 1 0; net_ref 1 1; net_ref 1 3]) <$> [0; 1; 3]%nat)
  ++ ((fun s => net_vertex 3 s [net_ref 2 0; net_ref 2 1; net_ref 2 3]) <$> [0; 1; 3]%nat).

(** A validator that delivered every vertex. *)
Definition full_view (bad : bool) : Dag := net_view_of (net_vertices bad) net_label (net_vertices bad).

(** A validator that has not delivered validator 2's round-1 vertex yet. *)
Definition partial_view (bad : bool) : Dag :=
  net_view_of (net_vertices bad) net_label
    (filter (fun v => ~ (v_round v = 1 /\ v_source v = 2%nat)) (net_vertices bad)).

Definition net_lead (r : Round) (_ : nat) : ValidatorIndex :=
  if r =? 0 then 3%nat else if r =? 2 then 0%nat else 1%nat.

Lemma commit_safety_witness :
  decide_slots four_seats net_lead 1 (partial_view false) ∅ (0, 0%nat) !! 0%nat
    = Some ((0, 0%nat), Commit (net_ref 0 3)) /\
  forall d, ((0, 0%nat), d) ∈ decide_slots four_seats net_lead 1 (full_view false) ∅ (0, 0%nat) ->
    d <> Undecided -> Commit (net_ref 0 3) = d.
Proof.
  split; [vm_compute; reflexivity|]. intros d Hd Hne.
  apply (commit_safety four_seats (fun i => (i =? 3)%nat) (net_digest (net_vertices false) net_label)
           (net_U (net_vertices false) net_label) net_lead 1
           (partial_view false) ∅ (0, 0%nat) (full_view false) ∅ (0, 0%nat)) with (s := (0, 0%nat));
    [apply four_seats_wf|vm_compute; done|apply net_universe; vm_compute; reflexivity| | | |done|done|done].
  - apply net_view; vm_compute; reflexivity.
  - apply net_view; vm_compute; reflexivity.
  - apply (list_elem_of_lookup_2 _ 0). vm_compute. reflexivity.
Defined.

(** C40: one mislabelled reference splits decisions. When the faulty validator's
    round-1 vertex carries the digest of its leader vertex under another
    author's name, every vertex passes [check_structure], both validators
    deliver through the DAG's own operations and stay within its invariant,
    and yet the one holding all round-1 vertices skips the slot of round 0
    while the other commits it. *)
Theorem mislabelled_reference_splits_decisions :
  Forall (fun v => check_structure four_seats v = Ok tt) (net_vertices true) /\
  DagWf (net_digest (net_vertices true) net_label) (fun _ => True) (full_view true) /\
  DagWf (net_digest (net_vertices true) net_label) (fun _ => True) (partial_view true) /\
  decide_slots four_seats net_lead 1 (full_view true) ∅ (0, 0%nat) !! 0%nat
    = Some ((0, 0%nat), Skip) /\
  decide_slots four_seats net_lead 1 (partial_view true) ∅ (0, 0%nat) !! 0%nat
    = Some ((0, 0%nat), Commit (net_ref 0 3)).
Proof.
  split_and!; [|apply net_wf|apply net_wf|vm_compute; reflexivity|vm_compute; reflexivity].
  repeat (constructor; [vm_compute; reflexivity|]). constructor.
Qed.
