(* ===== verification/Batch.v ===== *)
(** Transaction batches and their release ([tenzro-consensus/src/batch.rs]).

    A sealed batch is a sequence of length-prefixed parts. [Availability]
    frees batches as the ordered history introduces them, each author's in
    sequence order, each sequence once, and releases what is free in the order
    of the rounds that introduced it. Bytes are [N] below 256; the digest of
    a batch (BLAKE3) is not needed here. *)

From stdpp Require Import prelude gmap list sorting.
From Stdlib Require Import NArith ZArith Lia.
From S2P Require Import Prelude Committee Vertex.

(** ** Sealing parts into a body *)

Definition PART_HEADER_BYTES : nat := 4.

Record BatchPart := mkPart {
  p_transactions : N;
  p_bytes : list N;
}.

Record BatchPayload := mkPayload {
  bp_epoch : N;
  bp_author : ValidatorIndex;
  bp_sequence : N;
  bp_transactions : N;
  bp_body : list N;
}.

(** [u32::to_be_bytes] and [u32::from_be_bytes]. *)
Definition be32 (n : N) : list N :=
  [n / 2 ^ 24 mod 256; n / 2 ^ 16 mod 256; n / 2 ^ 8 mod 256; n mod 256].

Definition from_be32 (b : list N) : N :=
  match b with
  | [b3; b2; b1; b0] => b3 * 2 ^ 24 + b2 * 2 ^ 16 + b1 * 2 ^ 8 + b0
  | _ => 0
  end.

Definition sat_add32 (a b : N) : N := N.min (a + b) U32_MAX.

Definition seal (epoch : N) (author : ValidatorIndex) (sequence : N) (parts : list BatchPart)
  : BatchPayload :=
  mkPayload epoch author sequence
    (foldl (fun t p => sat_add32 t (p_transactions p)) 0 parts)
    (flat_map (fun p => be32 (N.of_nat (length (p_bytes p)) mod 2 ^ 32) ++ p_bytes p) parts).

(** The loop of [parts]; every round consumes a header, so the length of the
    body bounds it. *)
Fixpoint parts_loop (fuel : nat) (rest : list N) (out : list (list N)) : option (list (list N)) :=
  match rest with
  | [] => Some out
  | _ =>
      match fuel with
      | O => None
      | S fuel =>
          if (length rest <? PART_HEADER_BYTES)%nat then None
          else
            let len := N.to_nat (from_be32 (take PART_HEADER_BYTES rest)) in
            let tail := drop PART_HEADER_BYTES rest in
            if (length tail <? len)%nat then None
            else parts_loop fuel (drop len tail) (out ++ [take len tail])
      end
  end.

Definition parts (p : BatchPayload) : option (list (list N)) :=
  parts_loop (length (bp_body p)) (bp_body p) [].

(** ** Releasing batches *)

Record OrderedBatch := mkOrdered {
  ob_batch : BatchRef;
  ob_author : ValidatorIndex;
  ob_round : Round;
}.

Definition MAX_UNRELEASED_PER_AUTHOR : nat := N.to_nat 4096.

Record Intro := mkIntro {
  i_round : Round;
  i_position : nat;
  i_batch : BatchRef;
}.

Record Availability := mkAvail {
  av_next : gmap ValidatorIndex N;
  av_early : gmap ValidatorIndex (gmap N Intro);
  av_ready : list (ValidatorIndex * Intro);
}.

Definition av_new : Availability := mkAvail ∅ ∅ [].

Definition released_through (a : Availability) (author : ValidatorIndex) : N :=
  default 0 (av_next a !! author).

Definition early_of (a : Availability) (author : ValidatorIndex) : gmap N Intro :=
  default ∅ (av_early a !! author).

Definition introduce (a : Availability) (author : ValidatorIndex) (round : Round)
    (position : nat) (b : BatchRef) : Availability :=
  let next := released_through a author in
  if (b_sequence b <? next) || (b_sequence b =? U64_MAX) then a
  else
    let early := early_of a author in
    let early :=
      if ((size early <? MAX_UNRELEASED_PER_AUTHOR)%nat
          || bool_decide (is_Some (early !! b_sequence b)))
         && bool_decide (early !! b_sequence b = None)
      then <[b_sequence b := mkIntro round position b]> early else early in
    mkAvail (av_next a) (<[author := early]> (av_early a)) (av_ready a).

(** [while let Some(..) = early.remove(next) { ready.push(..); *next += 1 }];
    every round removes an entry. *)
Fixpoint drain (fuel : nat) (author : ValidatorIndex) (next : N) (early : gmap N Intro)
    (ready : list (ValidatorIndex * Intro))
  : N * gmap N Intro * list (ValidatorIndex * Intro) :=
  match fuel with
  | O => (next, early, ready)
  | S fuel =>
      match early !! next with
      | None => (next, early, ready)
      | Some i => drain fuel author (wadd64 next 1) (delete next early) (ready ++ [(author, i)])
      end
  end.

Definition av_advance (a : Availability) (author : ValidatorIndex) : Availability :=
  let next := released_through a author in
  match av_early a !! author with
  | None => mkAvail (<[author := next]> (av_next a)) (av_early a) (av_ready a)
  | Some early =>
      let '(next, early, ready) := drain (size early) author next early (av_ready a) in
      mkAvail (<[author := next]> (av_next a)) (<[author := early]> (av_early a)) ready
  end.

Definition on_ordered (a : Availability) (v : Vertex) : Availability :=
  av_advance
    (foldl (fun a p => introduce a (v_source v) (v_round v) p.1 p.2) a (imap pair (v_batches v)))
    (v_source v).

(** [Vec::dedup]: consecutive repetitions. *)
Fixpoint dedup (l : list nat) : list nat :=
  match l with
  | a :: ((b :: _) as l') => if (a =? b)%nat then dedup l' else a :: dedup l'
  | _ => l
  end.

Definition on_carried (a : Availability) (v : Vertex) : Availability :=
  foldl av_advance
    (foldl (fun a p => introduce a (cb_author p.2) (v_round v) (MAX_BATCH_REFS + p.1) (cb_batch p.2))
       a (imap pair (v_carried v)))
    (dedup (cb_author <$> v_carried v)).

(** The entry with the least sequence. *)
Definition first_early (m : gmap N Intro) : option (N * Intro) :=
  foldr (fun p acc => match acc with
                      | Some q => if p.1 <? q.1 then Some p else acc
                      | None => Some p
                      end) None (map_to_list m).

Definition expire_gap (floor : Round) (a : Availability) (p : ValidatorIndex * gmap N Intro)
  : Availability :=
  let '(author, early) := p in
  match first_early early with
  | None => a
  | Some (first, i) =>
      let next := released_through a author in
      if (floor <? i_round i) || (first <=? next)
      then mkAvail (<[author := next]> (av_next a)) (av_early a) (av_ready a)
      else
        let '(next, early, ready) := drain (size early) author first early (av_ready a) in
        mkAvail (<[author := next]> (av_next a)) (<[author := early]> (av_early a)) ready
  end.

Definition expire_gaps (a : Availability) (floor : Round) : Availability :=
  foldl (expire_gap floor) a (map_to_list (av_early a)).

(** [sort_by_key(|a| (round, author, position))], which is stable. *)
Definition ready_le (p q : ValidatorIndex * Intro) : Prop :=
  i_round p.2 < i_round q.2 \/
  (i_round p.2 = i_round q.2 /\
   ((p.1 < q.1)%nat \/ (p.1 = q.1 /\ (i_position p.2 <= i_position q.2)%nat))).

#[global] Instance ready_le_dec p q : Decision (ready_le p q).
Proof. unfold ready_le. apply _. Defined.

Definition release (a : Availability) : Availability * list OrderedBatch :=
  (mkAvail (av_next a) (av_early a) [],
   (fun p => mkOrdered (i_batch p.2) p.1 (i_round p.2)) <$> merge_sort ready_le (av_ready a)).

(** ** Export and import *)

Record AvailabilityState := mkAvState {
  as_next : list (ValidatorIndex * N);
  as_early : list (ValidatorIndex * list (N * Intro));
}.

Definition sequence_le {A} (p q : N * A) : Prop := p.1 <= q.1.
Definition author_le {A} (p q : ValidatorIndex * A) : Prop := (p.1 <= q.1)%nat.

#[global] Instance sequence_le_dec {A} (p q : N * A) : Decision (sequence_le p q).
Proof. unfold sequence_le. apply _. Defined.
#[global] Instance author_le_dec {A} (p q : ValidatorIndex * A) : Decision (author_le p q).
Proof. unfold author_le. apply _. Defined.

(** Entries of a map in key order. *)
Definition sorted_entries {A} (m : gmap N A) : list (N * A) :=
  merge_sort sequence_le (map_to_list m).

Definition sorted_authors {A} (m : gmap ValidatorIndex A) : list (ValidatorIndex * A) :=
  merge_sort author_le (map_to_list m).

Definition av_export (a : Availability) : AvailabilityState :=
  mkAvState
    (sorted_authors (filter (fun p => 0 < p.2) (av_next a)))
    ((fun p => (p.1, sorted_entries p.2))
       <$> sorted_authors (filter (fun p => p.2 <> ∅) (av_early a))).

Definition av_import (st : AvailabilityState) : Availability :=
  mkAvail (list_to_map (as_next st))
    (list_to_map ((fun p => (p.1, list_to_map p.2)) <$> as_early st)) [].

Definition pending_len (a : Availability) : nat :=
  msum (fun _ m => size m) (av_early a).

(** ** Sealed parts come back *)

Lemma be32_length n : length (be32 n) = 4%nat.
Proof. done. Qed.

Lemma from_be32_be32 n : n < 2 ^ 32 -> from_be32 (be32 n) = n.
Proof. intros Hn. unfold from_be32, be32. lia. Qed.

Lemma parts_loop_seal ps fuel out :
  Forall (fun p => N.of_nat (length (p_bytes p)) < 2 ^ 32) ps ->
  (length (flat_map (fun p => be32 (N.of_nat (length (p_bytes p)) mod 2 ^ 32) ++ p_bytes p) ps)
   <= fuel)%nat ->
  parts_loop fuel
    (flat_map (fun p => be32 (N.of_nat (length (p_bytes p)) mod 2 ^ 32) ++ p_bytes p) ps) out
  = Some (out ++ (p_bytes <$> ps)).
Proof.
  revert fuel out. induction ps as [|p ps IH]; intros fuel out HF Hfuel.
  { cbn. rewrite app_nil_r. by destruct fuel. }
  apply Forall_cons in HF as [Hp HF]. cbn [flat_map] in *.
  set (rest := flat_map _ ps) in *. rewrite N.mod_small in * by done.
  destruct fuel as [|fuel]; [rewrite !length_app, be32_length in Hfuel; lia|].
  rewrite <-app_assoc. cbn [parts_loop].
  destruct (be32 (N.of_nat (length (p_bytes p))) ++ p_bytes p ++ rest) as [|b bs] eqn:E.
  { apply (f_equal length) in E. rewrite length_app, be32_length in E. done. }
  rewrite <-E. clear E b bs.
  rewrite take_app_length', drop_app_length' by (by rewrite be32_length).
  rewrite from_be32_be32 by done. rewrite Nat2N.id.
  rewrite (proj2 (Nat.ltb_ge _ _)) by (rewrite length_app, be32_length; unfold PART_HEADER_BYTES; lia).
  rewrite (proj2 (Nat.ltb_ge _ _)) by (rewrite length_app; lia).
  rewrite take_app_length, drop_app_length, IH; [|done|].
  - rewrite fmap_cons. by rewrite <-app_assoc.
  - rewrite !length_app, be32_length in Hfuel. lia.
Qed.

(** A body that parses is the sealing of what it parses to, for bytes below
    256. *)
Lemma be32_from_be32 b :
  length b = 4%nat -> Forall (fun x => x < 256) b -> be32 (from_be32 b) = b.
Proof.
  destruct b as [|b3 [|b2 [|b1 [|b0 [|]]]]]; try done. intros _ HF.
  rewrite !Forall_cons in HF. destruct HF as (? & ? & ? & ? & _).
  unfold be32, from_be32. repeat f_equal; lia.
Qed.

Lemma from_be32_small b : Forall (fun x => x < 256) b -> from_be32 b < 2 ^ 32.
Proof.
  destruct b as [|b3 [|b2 [|b1 [|b0 [|]]]]]; try (intros _; cbn; lia). intros HF.
  rewrite !Forall_cons in HF. destruct HF as (? & ? & ? & ? & _). unfold from_be32. lia.
Qed.

Lemma parts_loop_inv fuel rest out ls :
  Forall (fun x => x < 256) rest -> parts_loop fuel rest out = Some ls ->
  exists new, ls = out ++ new /\
    rest = flat_map (fun l => be32 (N.of_nat (length l) mod 2 ^ 32) ++ l) new /\
    Forall (fun l => N.of_nat (length l) < 2 ^ 32) new.
Proof.
  revert rest out. induction fuel as [|fuel IH]; intros rest out HF H.
  { destruct rest; [|done]. cbn in H. injection H as <-. exists []. by rewrite app_nil_r. }
  destruct rest as [|b bs]; cbn [parts_loop] in H.
  { injection H as <-. exists []. by rewrite app_nil_r. }
  set (rest := b :: bs) in *.
  destruct (length rest <? PART_HEADER_BYTES)%nat eqn:E1; [done|].
  set (len := N.to_nat (from_be32 (take PART_HEADER_BYTES rest))) in *.
  set (tail := drop PART_HEADER_BYTES rest) in *.
  destruct (length tail <? len)%nat eqn:E2; [done|]. propify.
  assert (Forall (fun x => x < 256) tail) as HFt by (by apply Forall_drop).
  destruct (IH (drop len tail) (out ++ [take len tail])) as (new & -> & Hrest & Hnew);
    [by apply Forall_drop|done|].
  exists (take len tail :: new). split; [by rewrite <-app_assoc|].
  assert (length (take PART_HEADER_BYTES rest) = 4%nat) as Hl4.
  { rewrite length_take. unfold PART_HEADER_BYTES in *. lia. }
  assert (Forall (fun x => x < 256) (take PART_HEADER_BYTES rest)) as HF4 by (by apply Forall_take).
  assert (length (take len tail) = len) as Hlt by (rewrite length_take; lia).
  assert (N.of_nat len < 2 ^ 32) as Hlen.
  { unfold len. rewrite N2Nat.id. by apply from_be32_small. }
  split; [|constructor; [by rewrite Hlt|done]].
  cbn [flat_map]. rewrite Hlt, N.mod_small by done.
  unfold len at 1. rewrite N2Nat.id, be32_from_be32 by done.
  rewrite <-Hrest, <-app_assoc, take_drop. unfold tail. by rewrite take_drop.
Qed.

(** Sealing and parsing a batch are inverse. The parts sealed into a batch
    come back in order, for parts whose length fits the 4-byte header; and a
    body that parses is exactly the sealing of the parts it parses to, so two
    different bodies never parse to the same parts. *)
Theorem seal_parts_roundtrip epoch author sequence ps :
  (Forall (fun p => N.of_nat (length (p_bytes p)) < 2 ^ 32) ps ->
   parts (seal epoch author sequence ps) = Some (p_bytes <$> ps)) /\
  (forall p ls, Forall (fun x => x < 256) (bp_body p) -> parts p = Some ls ->
     bp_body p = bp_body (seal epoch author sequence (mkPart 0 <$> ls))).
Proof.
  split.
  - intros HF. unfold parts. cbn [seal bp_body]. by apply parts_loop_seal.
  - intros p ls HF H. unfold parts in H.
    apply parts_loop_inv in H as (new & -> & -> & _); [|done]. cbn [seal bp_body app].
    clear. induction new as [|l new IH]; [done|]. cbn [flat_map fmap list_fmap]. by rewrite IH.
Qed.

Lemma seal_parts_roundtrip_witness :
  parts (seal 3 1 7 [mkPart 2 [1; 2; 3]; mkPart 0 []; mkPart 5 [9; 9]])
    = Some [[1; 2; 3]; []; [9; 9]].
Proof.
  apply (seal_parts_roundtrip 3 1 7 [mkPart 2 [1; 2; 3]; mkPart 0 []; mkPart 5 [9; 9]]).
  repeat constructor.
Defined.

(** ** Each sequence is released once *)

(** Author and sequence of what is ready. *)
Definition ready_keys (ready : list (ValidatorIndex * Intro)) : list (ValidatorIndex * N) :=
  (fun p => (p.1, b_sequence (i_batch p.2))) <$> ready.

(** Introductions that wait: under their sequence, from [next] on. *)
Definition early_ok (next : N) (early : gmap N Intro) : Prop :=
  forall s i, early !! s = Some i -> b_sequence (i_batch i) = s /\ next <= s < U64_MAX.

Lemma drain_spec fuel author next early ready next' early' ready' :
  early_ok next early -> drain fuel author next early ready = (next', early', ready') ->
  next <= next' /\ early_ok next' early' /\
  (exists new, ready' = ready ++ new /\ NoDup (ready_keys new) /\
     forall x s, (x, s) ∈ ready_keys new -> x = author /\ next <= s < next') /\
  ((size early <= fuel)%nat -> early' !! next' = None).
Proof.
  revert next early ready. induction fuel as [|fuel IH]; intros next early ready Hok H;
    cbn [drain] in H.
  - simplify_eq. split_and!; [lia|done| |].
    + exists []. rewrite app_nil_r. split_and!; [done|constructor|by intros ? ? ?%elem_of_nil].
    + intros Hs. assert (early' = ∅) as -> by (apply map_size_empty_iff; lia). done.
  - destruct (early !! next) as [i|] eqn:E.
    + destruct (Hok next i E) as [Hseq Hb].
      assert (wadd64 next 1 = next + 1) as Hw by (apply wadd64_small; lia). rewrite Hw in H.
      destruct (IH (next + 1) (delete next early) (ready ++ [(author, i)])) as (H1 & H2 & H3 & H4);
        [|done|].
      { intros s j [Hne Hj]%lookup_delete_Some. destruct (Hok s j Hj). split; [done|lia]. }
      destruct H3 as (new & -> & Hnd & Hnew). split_and!; [lia|done| |].
      * exists ((author, i) :: new). split; [by rewrite <-app_assoc|]. cbn [ready_keys fmap list_fmap].
        fold (ready_keys new). split.
        -- constructor; [|done]. cbn. rewrite Hseq. intros Hin. apply Hnew in Hin. lia.
        -- intros x s [Heq|Hin]%elem_of_cons; [injection Heq as -> ->; cbn; lia|].
           destruct (Hnew x s Hin). split; [done|lia].
      * intros Hs. apply H4. rewrite map_size_delete, E. simpl. lia.
    + simplify_eq. split_and!; [lia|done| |done].
      exists []. rewrite app_nil_r. split_and!; [done|constructor|by intros ? ? ?%elem_of_nil].
Qed.

(** [log] is what was released before. *)
Record AvOk (a : Availability) (log : list (ValidatorIndex * N)) : Prop := {
  ao_early x : early_ok (released_through a x) (early_of a x);
  ao_nodup : NoDup (log ++ ready_keys (av_ready a));
  ao_below x s : (x, s) ∈ log ++ ready_keys (av_ready a) -> s < released_through a x;
}.

Lemma av_new_ok : AvOk av_new [].
Proof.
  constructor; [|constructor|by intros ? ? ?%elem_of_nil]. intros x s i.
  unfold early_of. cbn. rewrite lookup_empty. cbn. by rewrite lookup_empty.
Qed.

Lemma introduce_ok a log author round pos b :
  b_sequence b <= U64_MAX -> AvOk a log -> AvOk (introduce a author round pos b) log.
Proof.
  intros Hmax [He Hn Hb]. unfold introduce. destruct (_ || _) eqn:E; [done|]. propify.
  constructor; [|done|done]. intros x. unfold released_through, early_of. cbn.
  destruct (decide (x = author)) as [->|Hne].
  - rewrite lookup_insert_eq. cbn [default from_option id]. destruct (_ && _); [|apply He].
    intros s i. rewrite lookup_insert_Some. intros [[<- <-]|[_ Hs]]; [|by apply He].
    cbn. split; [done|]. unfold released_through in *. lia.
  - rewrite lookup_insert_ne by done. apply He.
Qed.

(** Draining one author from [from], at or past its frontier. *)
Lemma drained_ok a log author from next' early' ready' :
  AvOk a log -> released_through a author <= from -> early_ok from (early_of a author) ->
  drain (size (early_of a author)) author from (early_of a author) (av_ready a)
    = (next', early', ready') ->
  AvOk (mkAvail (<[author := next']> (av_next a)) (<[author := early']> (av_early a)) ready') log /\
  early' !! next' = None /\ from <= next'.
Proof.
  intros [He Hn Hb] Hfrom Hef H. apply drain_spec in H as (H1 & H2 & (new & -> & Hnd & Hnew) & H4);
    [|done].
  split; [|split; [by apply H4|done]].
  assert (forall x, released_through (mkAvail (<[author := next']> (av_next a))
     (<[author := early']> (av_early a)) (av_ready a ++ new)) x =
     if decide (x = author) then next' else released_through a x) as Hrt.
  { intros x. unfold released_through. cbn. destruct (decide (x = author)) as [->|].
    - by rewrite lookup_insert_eq.
    - by rewrite lookup_insert_ne. }
  constructor.
  - intros x. rewrite Hrt. unfold early_of. cbn. destruct (decide (x = author)) as [->|].
    + by rewrite lookup_insert_eq.
    + rewrite lookup_insert_ne by done. apply He.
  - cbn. unfold ready_keys in *. rewrite fmap_app, app_assoc. apply NoDup_app.
    split_and!; [done| |done]. intros [x s] Hin Hin2. apply Hb in Hin. apply Hnew in Hin2 as [-> ?]. lia.
  - intros x s. cbn. unfold ready_keys in *. rewrite fmap_app, app_assoc, elem_of_app, Hrt.
    intros [Hin|Hin].
    + apply Hb in Hin. case_decide; subst; lia.
    + apply Hnew in Hin as [-> ?]. rewrite decide_True by done. lia.
Qed.

Lemma av_advance_ok a log author :
  AvOk a log ->
  AvOk (av_advance a author) log /\
  early_of (av_advance a author) author !! released_through (av_advance a author) author = None.
Proof.
  intros Hok. unfold av_advance. destruct (av_early a !! author) as [early|] eqn:E.
  - assert (early_of a author = early) as He by (unfold early_of; by rewrite E).
    destruct (drain _ _ _ _ _) as [[next' early'] ready'] eqn:Ed. rewrite <-He in Ed.
    destruct (drained_ok a log author _ next' early' ready' Hok (N.le_refl _) (ao_early _ _ Hok author) Ed)
      as (Hok' & Hnone & _).
    split; [done|]. unfold early_of, released_through. cbn. by rewrite !lookup_insert_eq.
  - assert (forall x, released_through (mkAvail (<[author := released_through a author]> (av_next a))
       (av_early a) (av_ready a)) x = released_through a x) as Hrt.
    { intros x. unfold released_through at 1. cbn. destruct (decide (x = author)) as [->|].
      - by rewrite lookup_insert_eq.
      - by rewrite lookup_insert_ne. }
    destruct Hok as [He Hn Hb]. split.
    + constructor; [|done|].
      * intros x. rewrite Hrt. apply He.
      * intros x s. rewrite Hrt. apply Hb.
    + unfold early_of. cbn. rewrite E. cbn. by rewrite lookup_empty.
Qed.

Definition sequences_fit (v : Vertex) : Prop :=
  Forall (fun b => b_sequence b <= U64_MAX) (v_batches v) /\
  Forall (fun b => b_sequence (cb_batch b) <= U64_MAX) (v_carried v).

Lemma foldl_ok {A} (f : Availability -> A -> Availability) (l : list A) a log :
  (forall a x, x ∈ l -> AvOk a log -> AvOk (f a x) log) -> AvOk a log -> AvOk (foldl f a l) log.
Proof.
  revert a. induction l as [|x l IH]; intros a Hf Ha; [done|]. cbn [foldl].
  apply IH; [intros; apply Hf; [by right|done]|]. apply Hf; [left|done].
Qed.

Lemma on_ordered_ok a log v : sequences_fit v -> AvOk a log -> AvOk (on_ordered a v) log.
Proof.
  intros [HF _] Ha. apply av_advance_ok, foldl_ok; [|done].
  intros a' [i b] Hin Ha'. apply introduce_ok; [|done].
  apply elem_of_lookup_imap in Hin as (j & b' & [= -> ->] & Hj).
  rewrite Forall_forall in HF. apply HF. by eapply list_elem_of_lookup_2.
Qed.

Lemma on_carried_ok a log v : sequences_fit v -> AvOk a log -> AvOk (on_carried a v) log.
Proof.
  intros [_ HF] Ha. apply foldl_ok; [intros; by apply av_advance_ok|].
  apply foldl_ok; [|done]. intros a' [i b] Hin Ha'. apply introduce_ok; [|done].
  apply elem_of_lookup_imap in Hin as (j & b' & [= -> ->] & Hj).
  rewrite Forall_forall in HF. apply (HF b'). by eapply list_elem_of_lookup_2.
Qed.

Lemma first_early_spec m s i :
  first_early m = Some (s, i) -> m !! s = Some i /\ forall s' i', m !! s' = Some i' -> s <= s'.
Proof.
  unfold first_early. intros H.
  assert ((s, i) ∈ map_to_list m /\ forall p, p ∈ map_to_list m -> s <= p.1) as [Hin Hmin].
  { revert s i H. induction (map_to_list m) as [|q l IH]; intros s i H; [done|]. cbn [foldr] in H.
    destruct (foldr _ None l) as [[s' i']|] eqn:E.
    - destruct (IH _ _ eq_refl) as [Hin Hmin]. destruct (N.ltb_spec q.1 (s', i').1); cbn in *.
      + injection H as ->. split; [left|]. intros p [->|Hp]%elem_of_cons; [done|].
        specialize (Hmin p Hp). cbn in *. lia.
      + injection H as <- <-. split; [by right|]. intros p [->|Hp]%elem_of_cons; [done|auto].
    - injection H as ->. split; [left|]. intros p [->|Hp]%elem_of_cons; [done|].
      destruct l as [|x l]; [by apply elem_of_nil in Hp|]. cbn in E.
      destruct (foldr _ None l); [destruct (_ <? _)|]; done. }
  split; [by apply elem_of_map_to_list|].
  intros s' i' Hs'. apply (Hmin (s', i')). by apply elem_of_map_to_list.
Qed.

(** One author's expiry, with the others' waiting introductions untouched. *)
Lemma expire_gap_ok floor a log x m :
  AvOk a log -> early_of a x = m ->
  AvOk (expire_gap floor a (x, m)) log /\
  forall y, y <> x -> early_of (expire_gap floor a (x, m)) y = early_of a y.
Proof.
  intros Hok Hm. unfold expire_gap. destruct (first_early m) as [[first i]|] eqn:Ef; [|done].
  destruct (_ || _) eqn:E.
  - assert (forall z, released_through (mkAvail (<[x := released_through a x]> (av_next a))
       (av_early a) (av_ready a)) z = released_through a z) as Hrt.
    { intros z. unfold released_through at 1. cbn. destruct (decide (z = x)) as [->|].
      - by rewrite lookup_insert_eq.
      - by rewrite lookup_insert_ne. }
    split; [|done]. destruct Hok as [He Hn Hb]. constructor; [|done|].
    + intros z. rewrite Hrt. apply He.
    + intros z s. rewrite Hrt. apply Hb.
  - propify. apply first_early_spec in Ef as [Hf Hmin].
    destruct (drain _ _ _ _ _) as [[next' early'] ready'] eqn:Ed. rewrite <-Hm in Ed.
    destruct (drained_ok a log x first next' early' ready' Hok) as (Hok' & _ & _); [lia| |done|].
    { intros s j Hs. destruct (ao_early _ _ Hok x s j Hs) as [? ?]. split; [done|].
      rewrite Hm in Hs. specialize (Hmin s j Hs). lia. }
    split; [done|]. intros y Hy. unfold early_of. cbn. by rewrite lookup_insert_ne.
Qed.

Lemma expire_gaps_ok a log floor : AvOk a log -> AvOk (expire_gaps a floor) log.
Proof.
  intros Hok. unfold expire_gaps.
  assert (forall x m, (x, m) ∈ map_to_list (av_early a) -> early_of a x = m) as Hl.
  { intros x m Hin%elem_of_map_to_list. unfold early_of. by rewrite Hin. }
  pose proof (NoDup_fst_map_to_list (av_early a)) as Hnd. revert Hl Hnd Hok.
  generalize (map_to_list (av_early a)) as l. intros l. revert a.
  induction l as [|[x m] l IH]; intros a Hl Hnd Hok; [done|].
  rewrite fmap_cons in Hnd. apply NoDup_cons in Hnd as [Hni Hnd]. cbn [foldl].
  destruct (expire_gap_ok floor a log x m Hok) as [Hok' Hother]; [apply Hl; left|].
  apply IH; [|done|done]. intros y my Hin. rewrite Hother; [apply Hl; by right|].
  intros ->. apply Hni, list_elem_of_fmap. by exists (x, my).
Qed.

Definition released_keys (out : list OrderedBatch) : list (ValidatorIndex * N) :=
  (fun o => (ob_author o, b_sequence (ob_batch o))) <$> out.

Lemma release_keys a : released_keys (release a).2 ≡ₚ ready_keys (av_ready a).
Proof.
  unfold release, released_keys, ready_keys. cbn [snd]. rewrite <-list_fmap_compose.
  apply fmap_Permutation, merge_sort_Permutation.
Qed.

Lemma release_ok a log : AvOk a log -> AvOk (release a).1 (log ++ released_keys (release a).2).
Proof.
  intros [He Hn Hb]. constructor; [done| |].
  - cbn [release fst av_ready ready_keys fmap list_fmap]. by rewrite app_nil_r, release_keys.
  - intros x s. cbn [release fst av_ready ready_keys fmap list_fmap].
    rewrite app_nil_r, release_keys. apply Hb.
Qed.

(** The calls a core makes, and what all releases gave. *)
Inductive AvOp :=
| OpOrdered (v : Vertex)
| OpCarried (v : Vertex)
| OpExpire (floor : Round)
| OpRelease.

Definition av_step (st : Availability * list OrderedBatch) (op : AvOp)
  : Availability * list OrderedBatch :=
  let '(a, out) := st in
  match op with
  | OpOrdered v => (on_ordered a v, out)
  | OpCarried v => (on_carried a v, out)
  | OpExpire f => (expire_gaps a f, out)
  | OpRelease => let '(a, new) := release a in (a, out ++ new)
  end.

Definition op_fits (op : AvOp) : Prop :=
  match op with OpOrdered v | OpCarried v => sequences_fit v | _ => True end.

Lemma av_steps_ok ops st :
  Forall op_fits ops -> AvOk st.1 (released_keys st.2) ->
  AvOk (foldl av_step st ops).1 (released_keys (foldl av_step st ops).2).
Proof.
  revert st. induction ops as [|op ops IH]; intros [a out] HF Hok; [done|].
  apply Forall_cons in HF as [Hop HF]. cbn [foldl]. apply IH; [done|].
  destruct op as [v|v|f|]; cbn [av_step fst snd] in *.
  - by apply on_ordered_ok.
  - by apply on_carried_ok.
  - by apply expire_gaps_ok.
  - pose proof (release_ok a _ Hok) as Hr. destruct (release a) as [a' new]. cbn [fst snd] in *.
    unfold released_keys in *. by rewrite fmap_app.
Qed.

(** C30: whatever vertices are ordered, however often a batch is introduced or
    carried, and whichever gaps are given up, no author's sequence is ever
    released twice, and everything released lies below its author's frontier. *)
Theorem released_once ops a out :
  Forall op_fits ops -> foldl av_step (av_new, []) ops = (a, out) ->
  NoDup (released_keys out) /\
  forall o, o ∈ out -> b_sequence (ob_batch o) < released_through a (ob_author o).
Proof.
  intros HF H. pose proof (av_steps_ok ops (av_new, []) HF av_new_ok) as Hok.
  rewrite H in Hok. cbn [fst snd] in Hok. destruct Hok as [_ Hn Hb]. split.
  - by apply NoDup_app in Hn as (? & _).
  - intros o Ho. apply Hb, elem_of_app. left. apply list_elem_of_fmap. eauto.
Qed.

Definition intro_vertex (r : Round) (s : ValidatorIndex) (bs : list N) (cs : list CarriedBatch)
  : Vertex := mkVertex 0 r s [] [] ((fun q => mkBatchRef q (100 + q) 4 1) <$> bs) cs 0.

Definition reordered_ops : list AvOp :=
  [OpOrdered (intro_vertex 3 0 [] [mkCarried 1 (mkBatchRef 1 101 4 1)]);
   OpCarried (intro_vertex 3 0 [] [mkCarried 1 (mkBatchRef 1 101 4 1)]);
   OpRelease;
   OpOrdered (intro_vertex 4 1 [0; 1] []); OpExpire 0; OpRelease].

Lemma released_once_witness :
  NoDup (released_keys (foldl av_step (av_new, []) reordered_ops).2).
Proof.
  destruct (foldl av_step (av_new, []) reordered_ops) as [a out] eqn:E.
  apply (released_once reordered_ops a out); [|exact E].
  repeat constructor; cbn; done.
Defined.

(** A release does not always keep an author's sequence order: a batch
    carried by the leader of round 3 ahead of its author's earlier batch waits,
    and is released before that batch when the author's round-4 vertex
    introduces it. *)
Theorem carried_batch_overtakes :
  released_keys (foldl av_step (av_new, []) reordered_ops).2 = [(1%nat, 1); (1%nat, 0)].
Proof. vm_compute. reflexivity. Qed.

(** ** Export and import *)

Lemma sorted_authors_map {A} (m : gmap ValidatorIndex A) : list_to_map (sorted_authors m) = m.
Proof.
  unfold sorted_authors. rewrite <-(list_to_map_to_list m) at 2. apply list_to_map_proper.
  - rewrite merge_sort_Permutation. apply NoDup_fst_map_to_list.
  - apply merge_sort_Permutation.
Qed.

Lemma sorted_entries_map {A} (m : gmap N A) : list_to_map (sorted_entries m) = m.
Proof.
  unfold sorted_entries. rewrite <-(list_to_map_to_list m) at 2. apply list_to_map_proper.
  - rewrite merge_sort_Permutation. apply NoDup_fst_map_to_list.
  - apply merge_sort_Permutation.
Qed.

Lemma import_export_fields a :
  av_import (av_export a) =
  mkAvail (filter (fun p => 0 < p.2) (av_next a)) (filter (fun p => p.2 <> ∅) (av_early a)) [].
Proof.
  unfold av_import, av_export. cbn [as_next as_early]. f_equal.
  - apply sorted_authors_map.
  - rewrite <-list_fmap_compose.
    rewrite (list_fmap_ext _ id).
    + rewrite list_fmap_id. apply sorted_authors_map.
    + intros i [x m] _. cbn. by rewrite sorted_entries_map.
Qed.

(** Importing an exported release frontier restores, for every author, its
    first unreleased sequence and its waiting introductions, with nothing
    ready; and exporting again gives the same state. *)
Theorem availability_export_import a :
  (forall x, released_through (av_import (av_export a)) x = released_through a x /\
             early_of (av_import (av_export a)) x = early_of a x) /\
  av_ready (av_import (av_export a)) = [] /\
  av_export (av_import (av_export a)) = av_export a.
Proof.
  rewrite import_export_fields. split_and!; [|done|].
  - intros x. unfold released_through, early_of. cbn. rewrite !map_lookup_filter. split.
    + destruct (av_next a !! x) as [n|]; cbn; [|done].
      destruct (decide (0 < n)); [by rewrite option_guard_True|].
      rewrite option_guard_False by done. cbn. lia.
    + destruct (av_early a !! x) as [m|]; cbn; [|done].
      destruct (decide (m <> ∅)) as [|Hm]; [by rewrite option_guard_True|].
      rewrite option_guard_False by done. cbn. by apply dec_stable in Hm.
  - unfold av_export. cbn [av_next av_early]. f_equal.
    + f_equal. apply map_filter_filter_l. done.
    + f_equal. f_equal. apply map_filter_filter_l. done.
Qed.
