(* ===== verification/Order.v ===== *)
(** The ordering half of the consensus core ([tenzro-consensus/src/core.rs]):
    [try_commit], [commit], [decide_checkpoint], [release_segments],
    [collect_garbage], [seal_decided], [ordering_state], [build_checkpoints],
    [on_executed], [set_next_committee_root], [block_chunks].

    The fields of [Core] these functions read or write are kept in four
    records by concern: the decision log and heights ([Ordering]), batches and
    segments ([Batches]), checkpoints ([Checkpoints]), and the DAG with what is
    collected along with it ([Vertices]). The leaders the commit rule reads
    are drawn, as the source caches them ([draw_leaders]), since checkpoints
    export the schedule. BLAKE3 is given by the digest functions. *)

From stdpp Require Import prelude gmap list sorting.
From Stdlib Require Import NArith ZArith Lia.
From S2P Require Import Prelude Committee Checkpoint Merkle Rbc Vertex Dag Schedule Commit Batch.

(** ** State *)

Record CoreConfig := mkConfig {
  cg_chain_id : N;
  cg_genesis_hash : Digest;
  cg_leader_timeout_ms : N;
  cg_min_round_interval_ms : N;
  cg_leader_slots : nat;
  cg_checkpoint_interval_ms : N;
  cg_gc_depth : Round;
  cg_max_weak_refs : nat;
  cg_max_rounds_ahead : Round;
  cg_epoch_checkpoints : N;
  cg_handover_confirmations : N;
  cg_fetch_retry_ms : N;
  cg_idle_round_interval_ms : N;
}.

Record EpochStart := mkStart {
  es_first_height : N;
  es_first_checkpoint : N;
  es_prev_checkpoint : Digest;
  es_timestamp_ms : N;
  es_base_blocks : list (N * Digest * Digest);
  es_leader_lookahead_rounds : Round;
}.

Record PendingCheckpoint := mkPending {
  pc_index : N;
  pc_first_height : N;
  pc_last_height : N;
  pc_anchor_round : Round;
  pc_timestamp_ms : N;
  pc_ends_epoch : bool;
  pc_ordering_root : option Digest;
}.

Record WaitingSegment := mkWaitingSegment {
  ws_height : N;
  ws_anchor : VertexRef;
  ws_timestamp_ms : N;
  ws_batches : list OrderedBatch;
  ws_vertices : nat;
}.

Inductive Waiting :=
| WSegment (s : WaitingSegment)
| WEpochEnds (last_height : N).

Record Segment := mkSegment {
  sm_epoch : N;
  sm_height : N;
  sm_anchor : VertexRef;
  sm_timestamp_ms : N;
  sm_batches : list (OrderedBatch * BatchPayload);
  sm_vertices : nat;
}.

Inductive Event :=
| EvOrdered (s : Segment)
| EvEpochEnds (last_height : N)
| EvSign (cp : Checkpoint)
| EvCertified (c : Certificate)
| EvEquivocation (e : CheckpointEquivocation)
| EvUnordered (p : BatchPayload)
| EvEpochComplete (c : Certificate)
| EvVerifierDisagreement (index : N).

Record Wanted := mkWanted {
  wt_asked_ms : N;
  wt_attempts : N;
  wt_holder : option ValidatorIndex;
  wt_round : Round;
}.

Record OrderingState := mkOrderingState {
  or_epoch : N;
  or_index : N;
  or_anchor_round : Round;
  or_next_slot : N * N;
  or_floor : Round;
  or_ordered : list (Digest * Round);
  or_next_height : N;
  or_last_timestamp_ms : N;
  or_last_state_height : N;
  or_last_checkpoint_height : N;
  or_last_checkpoint_ts : N;
  or_epoch_ends_ms : N;
  or_epoch_closed : bool;
  or_handover_index : N;
  or_seed_tail : list Digest;
  or_schedule : option ScheduleState;
  or_availability : AvailabilityState;
}.

Definition UNCERTIFIED_SEGMENTS_KEPT : nat := N.to_nat 4096.
Definition ORDERING_STATES_KEPT : nat := 32.
Definition SKIPPED_SLOTS_KEPT : nat := 256.
Definition MAX_AHEAD_PER_AUTHOR : N := 1024.
Definition MAX_TRANSACTIONS_PER_BLOCK : N := 1000.

Definition history_depth (gc_depth : Round) : Round := N.min (gc_depth * 4) U64_MAX.

(** The decision log, heights and time. *)
Record Ordering := mkOrd {
  o_schedule : Schedule;
  o_next_slot : Slot;
  o_halted : bool;
  o_leaders_committed : N;
  o_leaders_skipped : N;
  o_skipped_slots : list (Round * ValidatorIndex);
  o_last_committed : option Round;
  o_ordered : gmap Digest Round;
  o_next_height : N;
  o_last_timestamp_ms : N;
}.

(** Batches, and the segments that wait for them. *)
Record Batches := mkBat {
  b_availability : Availability;
  b_payloads : gmap Digest BatchPayload;
  b_payload_round : gmap Digest Round;
  b_own_unintroduced : list BatchRef;
  b_own_introduced : gmap Digest Round;
  b_carry_pool : gmap (ValidatorIndex * N) BatchRef;
  b_wanted : gmap Digest Wanted;
  b_waiting : list Waiting;
  b_uncertified : gmap N (list Digest);
  b_executed_through : N;
}.

(** Checkpoint bookkeeping. *)
Record Checkpoints := mkCps {
  k_last_state_height : N;
  k_epoch_ends_ms : N;
  k_epoch_closed : bool;
  k_last_checkpoint_height : N;
  k_last_checkpoint_ts : N;
  k_next_checkpoint_index : N;
  k_decided : list PendingCheckpoint;
  k_seed_chain : list Digest;
  k_executed : gmap N (Digest * Digest * list Digest);
  k_prev_checkpoint : Digest;
  k_next_committee_root : option Digest;
  k_handover_index : N;
  k_ordering_states : gmap N OrderingState;
}.

(** The DAG, and what is collected with it. *)
Record Vertices := mkVerts {
  x_dag : Dag;
  x_rbc : ReliableBroadcast;
  x_first_proposals : gmap Round (gmap ValidatorIndex (list VertexRef));
  x_bodies : gmap Digest Vertex;
  x_unechoed : gmap (Round * ValidatorIndex) Vertex;
  x_wanted_vertices : gmap Digest Wanted;
  x_history : gmap Digest Vertex;
  x_history_rounds : gmap Round (list Digest);
}.

Record Core := mkCore {
  co_cfg : CoreConfig;
  co_committee : Committee;
  co_me : ValidatorIndex;
  co_ord : Ordering;
  co_bat : Batches;
  co_cps : Checkpoints;
  co_verts : Vertices;
  co_events : list Event;
}.

Definition with_ord (k : Core) (o : Ordering) : Core :=
  mkCore (co_cfg k) (co_committee k) (co_me k) o (co_bat k) (co_cps k) (co_verts k) (co_events k).
Definition with_bat (k : Core) (b : Batches) : Core :=
  mkCore (co_cfg k) (co_committee k) (co_me k) (co_ord k) b (co_cps k) (co_verts k) (co_events k).
Definition with_cps (k : Core) (p : Checkpoints) : Core :=
  mkCore (co_cfg k) (co_committee k) (co_me k) (co_ord k) (co_bat k) p (co_verts k) (co_events k).
Definition with_verts (k : Core) (x : Vertices) : Core :=
  mkCore (co_cfg k) (co_committee k) (co_me k) (co_ord k) (co_bat k) (co_cps k) x (co_events k).
Definition emit (k : Core) (es : list Event) : Core :=
  mkCore (co_cfg k) (co_committee k) (co_me k) (co_ord k) (co_bat k) (co_cps k) (co_verts k)
    (co_events k ++ es).

(** ** Blocks *)

(** The loop of [block_chunks]: the chunks closed so far, the open one and its
    transactions. *)
Fixpoint chunk_loop (max : N) (closed : list (list OrderedBatch)) (open : list OrderedBatch)
    (in_chunk : N) (batches : list OrderedBatch) : list (list OrderedBatch) :=
  match batches with
  | [] => closed ++ [open]
  | b :: batches =>
      let n := b_transactions (ob_batch b) in
      if (0 <? in_chunk) && (max <? in_chunk + n)
      then chunk_loop max (closed ++ [open]) [b] n batches
      else chunk_loop max closed (open ++ [b]) (in_chunk + n) batches
  end.

Definition block_chunks (batches : list OrderedBatch) (max : N) : list (list OrderedBatch) :=
  chunk_loop max [] [] 0 batches.

Definition leaders_settled (r next_undecided lookahead : Round) : bool :=
  r <=? sat_add64 next_undecided lookahead.

Section core.
(** Leader draws and the seed of a checkpoint's schedule, the ordering digest
    of a checkpoint, the digest of an ordering state, and the checkpoint and
    Merkle hashes. *)
Context (draw_hash : Digest -> Round -> nat -> N) (seed_hash : Digest -> Digest).
Context (order_hash : Digest -> N -> N -> Digest -> Digest).
Context (ordering_digest : OrderingState -> Digest) (cp_digest : Checkpoint -> Digest).
Context (root_of : list Digest -> Digest).

(** ** Committing a leader *)

Definition is_ordered (o : Ordering) (d : Digest) : bool := bool_decide (is_Some (o_ordered o !! d)).

(** The outcome of the slot, and the history the anchor orders. *)
Definition commit_history (k : Core) (anchor : VertexRef) : Core * list VertexRef :=
  let o := co_ord k in
  let g := x_dag (co_verts k) in
  let history := causal_history g (r_digest anchor) (is_ordered o) in
  let ordered := foldl (fun m r => <[r_digest r := r_round r]> m) (o_ordered o) history in
  (with_ord k
     (mkOrd (record_outcome (o_schedule o) (r_source anchor) true) (o_next_slot o) (o_halted o)
        (wadd64 (o_leaders_committed o) 1) (o_leaders_skipped o) (o_skipped_slots o)
        (Some (r_round anchor)) ordered (o_next_height o) (o_last_timestamp_ms o)), history).

(** The vertices of a history, in its order; each is in the DAG. *)
Definition vertices_of (g : Dag) (history : list VertexRef) : list Vertex :=
  omap (fun r => get g (r_digest r)) history.

Definition release_history (g : Dag) (anchor : VertexRef) (history : list VertexRef)
    (a : Availability) : Availability * list OrderedBatch :=
  let a := foldl on_ordered a (vertices_of g history) in
  let a := match get g (r_digest anchor) with Some v => on_carried a v | None => a end in
  release (expire_gaps a (dag_floor g)).

(** A released batch whose payload is missing is asked of its author. *)
Definition want_batch (anchor : VertexRef) (payloads : gmap Digest BatchPayload)
    (wanted : gmap Digest Wanted) (b : OrderedBatch) : gmap Digest Wanted :=
  let d := b_digest (ob_batch b) in
  if bool_decide (is_Some (payloads !! d)) then wanted
  else
    let w := default (mkWanted 0 0 (Some (ob_author b)) (r_round anchor)) (wanted !! d) in
    <[d := mkWanted (wt_asked_ms w) (wt_attempts w) (wt_holder w)
             (N.max (wt_round w) (r_round anchor))]> wanted.

(** [(sequence, digest)] pairs in order. *)
Definition seq_digest_le (a b : N * Digest) : Prop := a.1 < b.1 \/ (a.1 = b.1 /\ a.2 <= b.2).

#[global] Instance seq_digest_le_dec a b : Decision (seq_digest_le a b).
Proof. unfold seq_digest_le. apply _. Defined.

(** This validator's introduced batches in a gap that was skipped. *)
Definition skipped_own (own : gmap Digest Round) (payloads : gmap Digest BatchPayload)
    (next_own : N) : list (N * Digest) :=
  merge_sort seq_digest_le
    (omap (fun d => p ← payloads !! d;
                    if bp_sequence p <? next_own then Some (bp_sequence p, d) else None)
       (map_to_list own).*1).

(** Releases the batches of a history and settles this validator's own. *)
Definition commit_batches (k : Core) (anchor : VertexRef) (history : list VertexRef)
  : Core * list OrderedBatch :=
  let b := co_bat k in
  let '(a, released) := release_history (x_dag (co_verts k)) anchor history (b_availability b) in
  let carry_pool := filter (fun p => released_through a p.1.1 <= p.1.2) (b_carry_pool b) in
  let own_through := released_through a (co_me k) in
  let unintroduced := filter (fun r => own_through <= b_sequence r) (b_own_unintroduced b) in
  let already_executed := o_next_height (co_ord k) <=? b_executed_through b in
  let own := foldl (fun m r => if (ob_author r =? co_me k)%nat
                               then delete (b_digest (ob_batch r)) m else m)
               (b_own_introduced b) released in
  let wanted := if already_executed then b_wanted b
                else foldl (want_batch anchor (b_payloads b)) (b_wanted b) released in
  let skipped := skipped_own own (b_payloads b) own_through in
  let own := foldl (fun m p => delete p.2 m) own skipped in
  (emit
     (with_bat k
        (mkBat a (b_payloads b) (b_payload_round b) unintroduced own carry_pool wanted
           (b_waiting b) (b_uncertified b) (b_executed_through b)))
     (EvUnordered <$> omap (fun p => b_payloads b !! p.2) skipped), released).

(** The median of the parents' stamps, never below the last timestamp. *)
Definition commit_timestamp (k : Core) (anchor : VertexRef) : N :=
  let g := x_dag (co_verts k) in
  let strong := match get g (r_digest anchor) with Some v => v_strong v | None => [] end in
  let stamps := merge_sort N.le (omap (fun r => v_timestamp_ms <$> get g (r_digest r)) strong) in
  let last := o_last_timestamp_ms (co_ord k) in
  let median := match stamps with
                | [] => last
                | _ => default 0 (stamps !! (length stamps / 2)%nat)
                end in
  N.max median last.

Definition set_timestamp (k : Core) (t : N) : Core :=
  let o := co_ord k in
  with_ord k (mkOrd (o_schedule o) (o_next_slot o) (o_halted o) (o_leaders_committed o)
    (o_leaders_skipped o) (o_skipped_slots o) (o_last_committed o) (o_ordered o)
    (o_next_height o) t).

Definition set_waiting (k : Core) (w : list Waiting) : Core :=
  let b := co_bat k in
  with_bat k (mkBat (b_availability b) (b_payloads b) (b_payload_round b) (b_own_unintroduced b)
    (b_own_introduced b) (b_carry_pool b) (b_wanted b) w (b_uncertified b) (b_executed_through b)).

(** One block: the next height, waiting for its payloads. *)
Definition push_block (anchor : VertexRef) (timestamp_ms : N) (vertices : nat) (k : Core)
    (batches : list OrderedBatch) : Core :=
  let o := co_ord k in
  let h := o_next_height o in
  set_waiting
    (with_ord k (mkOrd (o_schedule o) (o_next_slot o) (o_halted o) (o_leaders_committed o)
       (o_leaders_skipped o) (o_skipped_slots o) (o_last_committed o) (o_ordered o)
       (wadd64 h 1) (o_last_timestamp_ms o)))
    (b_waiting (co_bat k) ++ [WSegment (mkWaitingSegment h anchor timestamp_ms batches vertices)]).

Definition commit_blocks (k : Core) (anchor : VertexRef) (timestamp_ms : N)
    (history : list VertexRef) (released : list OrderedBatch) : Core :=
  if existsb (fun b => 0 <? b_transactions (ob_batch b)) released
  then foldl (push_block anchor timestamp_ms (length history)) k
         (block_chunks released MAX_TRANSACTIONS_PER_BLOCK)
  else k.

(** ** Deciding checkpoints *)

Definition set_schedule (k : Core) (s : Schedule) (halted : bool) : Core :=
  let o := co_ord k in
  with_ord k (mkOrd s (o_next_slot o) halted (o_leaders_committed o) (o_leaders_skipped o)
    (o_skipped_slots o) (o_last_committed o) (o_ordered o) (o_next_height o)
    (o_last_timestamp_ms o)).

Definition decide_checkpoint (k : Core) (anchor : VertexRef) (last_height timestamp_ms : N)
    (ends_epoch : bool) : Core :=
  let p := co_cps k in
  let index := k_next_checkpoint_index p in
  let first_height := wadd64 (k_last_checkpoint_height p) 1 in
  let pc := mkPending index first_height last_height (r_round anchor) timestamp_ms ends_epoch None in
  let prev_seed := default 0 (last (k_seed_chain p)) in
  let chain := k_seed_chain p ++ [order_hash prev_seed index last_height (r_digest anchor)] in
  let seed_from := default 0 (chain !! (length chain - 3)%nat) in
  let halted := o_halted (co_ord k) || (index =? k_handover_index p) in
  with_cps
    (set_schedule k
       (advance seed_hash (co_committee k) (o_schedule (co_ord k)) (r_round anchor) seed_from)
       halted)
    (mkCps (checkpoint_state_height first_height last_height) (k_epoch_ends_ms p)
       (k_epoch_closed p) last_height timestamp_ms (wadd64 index 1) (k_decided p ++ [pc]) chain
       (k_executed p) (k_prev_checkpoint p) (k_next_committee_root p) (k_handover_index p)
       (k_ordering_states p)).

(** The epoch closes: its handover index is fixed. *)
Definition close_epoch (k : Core) : Core :=
  let p := co_cps k in
  with_cps k (mkCps (k_last_state_height p) (k_epoch_ends_ms p) true (k_last_checkpoint_height p)
    (k_last_checkpoint_ts p) (k_next_checkpoint_index p) (k_decided p) (k_seed_chain p)
    (k_executed p) (k_prev_checkpoint p) (k_next_committee_root p)
    (wadd64 (k_next_checkpoint_index p) (cg_handover_confirmations (co_cfg k)))
    (k_ordering_states p)).

Definition commit_checkpoint (k : Core) (anchor : VertexRef) (timestamp_ms : N) : Core :=
  let last_height := o_next_height (co_ord k) - 1 in
  let p := co_cps k in
  let due := sat_add64 (k_last_checkpoint_ts p) (cg_checkpoint_interval_ms (co_cfg k))
             <=? timestamp_ms in
  if negb (k_epoch_closed p) && (k_epoch_ends_ms p <=? timestamp_ms) then
    let k := close_epoch k in
    let k := set_waiting k (b_waiting (co_bat k) ++ [WEpochEnds last_height]) in
    decide_checkpoint k anchor last_height timestamp_ms true
  else if due && (k_epoch_closed p || (k_last_checkpoint_height p <? last_height)
                  || (k_last_state_height p <? k_last_checkpoint_height p))
  then decide_checkpoint k anchor last_height timestamp_ms false
  else k.

(** ** Garbage collection *)

(** The digests of the batches waiting segments need. *)
Definition in_segments (waiting : list Waiting) : gset Digest :=
  list_to_set (flat_map (fun w => match w with
                                  | WSegment s => (fun b => b_digest (ob_batch b)) <$> ws_batches s
                                  | WEpochEnds _ => []
                                  end) waiting).

Definition uncertified_digests (m : gmap N (list Digest)) : gset Digest :=
  list_to_set (flat_map snd (map_to_list m)).

(** Whether a payload is kept when the floor rises. *)
Definition keep_payload (floor : Round) (me : ValidatorIndex) (b : Batches) (d : Digest)
    (p : BatchPayload) : bool :=
  let base := released_through (b_availability b) (bp_author p) in
  let unreleased := (base <=? bp_sequence p) &&
    ((bp_author p =? me)%nat || (bp_sequence p <? wadd64 base MAX_AHEAD_PER_AUTHOR)) in
  match b_payload_round b !! d with Some r => floor <=? r | None => false end
  || bool_decide (d ∈ in_segments (b_waiting b))
  || bool_decide (d ∈ uncertified_digests (b_uncertified b))
  || unreleased.

Definition collect_batches (floor : Round) (me : ValidatorIndex) (b : Batches) : Batches :=
  let payloads := filter (fun p => keep_payload floor me b p.1 p.2 = true) (b_payloads b) in
  let payload_round :=
    filter (fun p => match b_payloads b !! p.1 with
                     | Some q => keep_payload floor me b p.1 q
                     | None => true
                     end = true) (b_payload_round b) in
  mkBat (b_availability b) payloads payload_round (b_own_unintroduced b) (b_own_introduced b)
    (filter (fun p => is_Some (payloads !! b_digest p.2)) (b_carry_pool b))
    (filter (fun p => floor <= wt_round p.2 \/ p.1 ∈ in_segments (b_waiting b)) (b_wanted b))
    (b_waiting b) (b_uncertified b) (b_executed_through b).

Definition collect_vertices (cfg : CoreConfig) (floor : Round) (x : Vertices) : Vertices :=
  let '(g, pruned) := dag_prune_below (x_dag x) floor in
  let history := foldl (fun m p => <[p.1 := p.2]> m) (x_history x) pruned in
  let history_rounds :=
    foldl (fun m p => <[v_round p.2 := default [] (m !! v_round p.2) ++ [p.1]]> m)
      (x_history_rounds x) pruned in
  let history_from := floor - history_depth (cg_gc_depth cfg) in
  let dropped := filter (fun p => p.1 < history_from) history_rounds in
  let history := foldl (fun m d => delete d m) history (flat_map snd (map_to_list dropped)) in
  mkVerts g (rbc_prune_below (x_rbc x) floor)
    (filter (fun p => floor <= p.1) (x_first_proposals x))
    (filter (fun p => floor <= v_round p.2) (x_bodies x))
    (filter (fun p => floor <= p.1.1) (x_unechoed x))
    (filter (fun p => is_expected g p.1 = true) (x_wanted_vertices x))
    history (filter (fun p => history_from <= p.1) history_rounds).

Definition collect_ordered (floor : Round) (o : Ordering) : Ordering :=
  mkOrd (o_schedule o) (o_next_slot o) (o_halted o) (o_leaders_committed o) (o_leaders_skipped o)
    (o_skipped_slots o) (o_last_committed o) (filter (fun p => floor <= p.2) (o_ordered o))
    (o_next_height o) (o_last_timestamp_ms o).

Definition collect_garbage (k : Core) (committed_round : Round) : Core :=
  match checked_sub committed_round (cg_gc_depth (co_cfg k)) with
  | None => k
  | Some floor =>
      if floor <=? dag_floor (x_dag (co_verts k)) then k
      else
        mkCore (co_cfg k) (co_committee k) (co_me k) (collect_ordered floor (co_ord k))
          (collect_batches floor (co_me k) (co_bat k)) (co_cps k)
          (collect_vertices (co_cfg k) floor (co_verts k)) (co_events k)
  end.

(** ** Sealing and building checkpoints *)

Definition digest_round_le (a b : Digest * Round) : Prop := a.1 < b.1 \/ (a.1 = b.1 /\ a.2 <= b.2).

#[global] Instance digest_round_le_dec a b : Decision (digest_round_le a b).
Proof. unfold digest_round_le. apply _. Defined.

Definition ordering_state (k : Core) (index : N) : OrderingState :=
  let o := co_ord k in
  let p := co_cps k in
  mkOrderingState (c_epoch (co_committee k)) index (default 0 (o_last_committed o))
    ((o_next_slot o).1, N.of_nat (o_next_slot o).2) (dag_floor (x_dag (co_verts k)))
    (merge_sort digest_round_le (map_to_list (o_ordered o)))
    (o_next_height o) (o_last_timestamp_ms o) (k_last_state_height p)
    (k_last_checkpoint_height p) (k_last_checkpoint_ts p) (k_epoch_ends_ms p) (k_epoch_closed p)
    (k_handover_index p) (drop (length (k_seed_chain p) - 3) (k_seed_chain p))
    (export (o_schedule o)) (av_export (b_availability (co_bat k))).

(** [while map.len() > kept { map.pop_first(); }]: the highest [kept] keys. *)
Definition keep_last {A} (kept : nat) (m : gmap N A) : gmap N A :=
  let ks := merge_sort N.le (map_to_list m).*1 in
  foldl (fun m i => delete i m) m (take (length ks - kept) ks).

Definition set_root (pc : PendingCheckpoint) (root : Digest) : PendingCheckpoint :=
  mkPending (pc_index pc) (pc_first_height pc) (pc_last_height pc) (pc_anchor_round pc)
    (pc_timestamp_ms pc) (pc_ends_epoch pc) (Some root).

(** The heights [first..=last]. *)
Definition heights (first last : N) : list N :=
  (fun i => first + N.of_nat i) <$> seq 0 (N.to_nat (last + 1 - first)).

Definition checkpoint_ready (p : Checkpoints) (pc : PendingCheckpoint) : bool :=
  let state_height := checkpoint_state_height (pc_first_height pc) (pc_last_height pc) in
  forallb (fun h => bool_decide (is_Some (k_executed p !! h)))
    (heights (pc_first_height pc) (pc_last_height pc))
  && bool_decide (is_Some (k_executed p !! state_height)).

Definition executed_at (p : Checkpoints) (h : N) : Digest * Digest * list Digest :=
  default (0, 0, []) (k_executed p !! h).

Definition checkpoint_of (k : Core) (pc : PendingCheckpoint) (ordering_root : Digest) : Checkpoint :=
  let p := co_cps k in
  let hs := heights (pc_first_height pc) (pc_last_height pc) in
  let state_height := checkpoint_state_height (pc_first_height pc) (pc_last_height pc) in
  mkCheckpoint (cg_chain_id (co_cfg k)) (cg_genesis_hash (co_cfg k)) (c_epoch (co_committee k))
    (pc_index pc) (k_prev_checkpoint p) (pc_first_height pc) (pc_last_height pc)
    (root_of ((fun h => (executed_at p h).1.1) <$> hs)) state_height
    (executed_at p state_height).1.2
    (root_of (flat_map (fun h => (executed_at p h).2) hs))
    (if pc_ends_epoch pc then k_next_committee_root p else None)
    (pc_anchor_round pc) (pc_timestamp_ms pc) ordering_root.

(** The checkpoint at the front is signed, and leaves the queue. *)
Definition sign_front (k : Core) (rest : list PendingCheckpoint) (last_height : N) (cp : Checkpoint)
  : Core :=
  let p := co_cps k in
  emit
    (with_cps k
       (mkCps (k_last_state_height p) (k_epoch_ends_ms p) (k_epoch_closed p)
          (k_last_checkpoint_height p) (k_last_checkpoint_ts p) (k_next_checkpoint_index p) rest
          (k_seed_chain p)
          (filter (fun e => state_root_height last_height <= e.1) (k_executed p)) (cp_digest cp)
          (k_next_committee_root p) (k_handover_index p) (k_ordering_states p)))
    [EvSign cp].

(** [while let Some(pc) = self.decided.front()]: every round takes one. *)
Fixpoint build_loop (fuel : nat) (k : Core) : Core :=
  match fuel, k_decided (co_cps k) with
  | S fuel, pc :: rest =>
      match pc_ordering_root pc with
      | None => k
      | Some root =>
          if negb (checkpoint_ready (co_cps k) pc) then k
          else if pc_ends_epoch pc && negb (bool_decide (is_Some (k_next_committee_root (co_cps k))))
          then k
          else build_loop fuel (sign_front k rest (pc_last_height pc) (checkpoint_of k pc root))
      end
  | _, _ => k
  end.

Definition build_checkpoints (k : Core) : Core := build_loop (length (k_decided (co_cps k))) k.

Definition set_decided (k : Core) (ds : list PendingCheckpoint) (states : gmap N OrderingState) : Core :=
  let p := co_cps k in
  with_cps k (mkCps (k_last_state_height p) (k_epoch_ends_ms p) (k_epoch_closed p)
    (k_last_checkpoint_height p) (k_last_checkpoint_ts p) (k_next_checkpoint_index p) ds
    (k_seed_chain p) (k_executed p) (k_prev_checkpoint p) (k_next_committee_root p)
    (k_handover_index p) states).

Definition seal_decided (k : Core) : Core :=
  let ds := k_decided (co_cps k) in
  let k :=
    match last ds with
    | Some pc =>
        if bool_decide (pc_ordering_root pc = None) then
          let state := ordering_state k (pc_index pc) in
          set_decided k (removelast ds ++ [set_root pc (ordering_digest state)])
            (keep_last ORDERING_STATES_KEPT
               (<[pc_index pc := state]> (k_ordering_states (co_cps k))))
        else k
    | None => k
    end in
  build_checkpoints k.

Definition commit (k : Core) (anchor : VertexRef) : Core :=
  let '(k, history) := commit_history k anchor in
  let '(k, released) := commit_batches k anchor history in
  let timestamp_ms := commit_timestamp k anchor in
  let k := set_timestamp k timestamp_ms in
  let k := commit_blocks k anchor timestamp_ms history released in
  let k := commit_checkpoint k anchor timestamp_ms in
  seal_decided (collect_garbage k (r_round anchor)).

(** ** Deciding slots in order *)

Definition set_slot (k : Core) (slot : Slot) (s : Schedule) (skipped : N)
    (skips : list (Round * ValidatorIndex)) : Core :=
  let o := co_ord k in
  with_ord k (mkOrd s slot (o_halted o) (o_leaders_committed o) skipped skips
    (o_last_committed o) (o_ordered o) (o_next_height o) (o_last_timestamp_ms o)).

Definition slot_after (slots : nat) (slot : Slot) : Slot :=
  if (slot.2 + 1 =? slots)%nat then (slot.1 + 1, 0%nat) else (slot.1, (slot.2 + 1)%nat).

Definition pass_slot (k : Core) (slot : Slot) : Core :=
  let o := co_ord k in
  set_slot k (slot_after (sc_slots (o_schedule o)) slot) (o_schedule o) (o_leaders_skipped o)
    (o_skipped_slots o).

Definition skip_slot (k : Core) (slot : Slot) : Core :=
  let o := co_ord k in
  let '(s, l) := leader draw_hash (o_schedule o) slot.1 slot.2 in
  let skips := if (length (o_skipped_slots o) =? SKIPPED_SLOTS_KEPT)%nat
               then tail (o_skipped_slots o) else o_skipped_slots o in
  set_slot k (o_next_slot o) (record_outcome s l false)
    (wadd64 (o_leaders_skipped o) 1) (skips ++ [(slot.1, l)]).

(** The pass over the decisions: the core, and whether they are to be made
    again. *)
Fixpoint take_decisions (k : Core) (ds : list (Slot * SlotDecision)) : Core * bool :=
  match ds with
  | [] => (k, false)
  | (slot, d) :: ds =>
      match d with
      | Undecided => (k, false)
      | Skip => take_decisions (skip_slot (pass_slot k slot) slot) ds
      | Commit anchor =>
          let index := k_next_checkpoint_index (co_cps k) in
          let k := commit (pass_slot k slot) anchor in
          if negb (k_next_checkpoint_index (co_cps k) =? index) || o_halted (co_ord k)
          then (k, true) else take_decisions k ds
      end
  end.

Definition decisions (k : Core) : list (Slot * SlotDecision) :=
  decide_slots (co_committee k) (leader_of draw_hash (o_schedule (co_ord k)))
    (sc_slots (o_schedule (co_ord k))) (x_dag (co_verts k)) (x_first_proposals (co_verts k))
    (o_next_slot (co_ord k)).

(** The leaders of the rounds decided, the highest first, are drawn once. *)
Definition draw_leaders (k : Core) : Core :=
  match decisions k with
  | [] => k
  | _ =>
      match top_round (x_dag (co_verts k)) (x_first_proposals (co_verts k)) with
      | Some t => set_schedule k (leader draw_hash (o_schedule (co_ord k)) (t - 1) 0).1
                    (o_halted (co_ord k))
      | None => k
      end
  end.

Fixpoint try_commit_loop (fuel : nat) (k : Core) : option Core :=
  if o_halted (co_ord k) then Some k
  else match fuel with
       | O => None
       | S fuel =>
           let '(k, again) := take_decisions (draw_leaders k) (decisions k) in
           if again then try_commit_loop fuel k else Some k
       end.

(** Each pass that goes round again takes a slot off the decisions, so their
    number bounds the passes ([OrderLog.try_commit_terminates]). *)
Definition try_commit (k : Core) : Core :=
  default k (try_commit_loop (S (length (decisions k))) k).

(** ** Releasing segments *)

Definition set_uncertified (k : Core) (w : list Waiting) (u : gmap N (list Digest)) : Core :=
  let b := co_bat k in
  with_bat k (mkBat (b_availability b) (b_payloads b) (b_payload_round b) (b_own_unintroduced b)
    (b_own_introduced b) (b_carry_pool b) (b_wanted b) w u (b_executed_through b)).

Definition segment_of (k : Core) (s : WaitingSegment) (already_executed : bool) : Segment :=
  mkSegment (c_epoch (co_committee k)) (ws_height s) (ws_anchor s) (ws_timestamp_ms s)
    (if already_executed then []
     else omap (fun b => (fun p => (b, p)) <$> b_payloads (co_bat k) !! b_digest (ob_batch b))
            (ws_batches s))
    (ws_vertices s).

Definition release_segment (k : Core) (s : WaitingSegment) (rest : list Waiting) : Core :=
  let b := co_bat k in
  let already_executed := ws_height s <=? b_executed_through b in
  let u := if negb already_executed && negb (bool_decide (ws_batches s = []))
           then keep_last UNCERTIFIED_SEGMENTS_KEPT
                  (<[ws_height s := (fun x => b_digest (ob_batch x)) <$> ws_batches s]>
                     (b_uncertified b))
           else b_uncertified b in
  emit (set_uncertified k rest u) [EvOrdered (segment_of k s already_executed)].

(** [while let Some(front) = self.waiting.front()]: every round takes one. *)
Fixpoint release_loop (k : Core) (waiting : list Waiting) : Core :=
  match waiting with
  | [] => k
  | WEpochEnds h :: rest => release_loop (emit (set_waiting k rest) [EvEpochEnds h]) rest
  | WSegment s :: rest =>
      if negb (ws_height s <=? b_executed_through (co_bat k)) &&
         existsb (fun b => negb (bool_decide (is_Some (b_payloads (co_bat k) !! b_digest (ob_batch b)))))
           (ws_batches s)
      then k
      else release_loop (release_segment k s rest) rest
  end.

Definition release_segments (k : Core) : Core := release_loop k (b_waiting (co_bat k)).

(** ** Results of execution *)

Definition set_executed (k : Core) (m : gmap N (Digest * Digest * list Digest))
    (root : option Digest) : Core :=
  let p := co_cps k in
  with_cps k (mkCps (k_last_state_height p) (k_epoch_ends_ms p) (k_epoch_closed p)
    (k_last_checkpoint_height p) (k_last_checkpoint_ts p) (k_next_checkpoint_index p) (k_decided p)
    (k_seed_chain p) m (k_prev_checkpoint p) root (k_handover_index p) (k_ordering_states p)).

Definition on_executed (k : Core) (height : N) (block_hash post_state_root : Digest)
    (statements : list Digest) : Core :=
  let p := co_cps k in
  build_checkpoints
    (set_executed k (<[height := (block_hash, post_state_root, statements)]> (k_executed p))
       (k_next_committee_root p)).

Definition set_next_committee_root (k : Core) (root : Digest) : Core :=
  build_checkpoints (set_executed k (k_executed (co_cps k)) (Some root)).

(** The two ML-DSA-65 implementations disagree on a signature: ordering
    halts. *)
Definition on_disagreement (k : Core) (index : N) : Core :=
  emit (set_schedule k (o_schedule (co_ord k)) true) [EvVerifierDisagreement index].

(** ** The start of an epoch *)

Definition core_new (cfg : CoreConfig) (c : Committee) (me : ValidatorIndex) (start : EpochStart)
    (seed : Digest) : Core :=
  mkCore cfg c me
    (mkOrd (schedule_new c seed (cg_leader_slots cfg) (es_leader_lookahead_rounds start)) (0, 0%nat)
       false 0 0 [] None ∅ (es_first_height start) (es_timestamp_ms start))
    (mkBat av_new ∅ ∅ [] ∅ ∅ ∅ [] ∅ 0)
    (mkCps (es_first_height start - 1)
       (sat_add64 (es_timestamp_ms start)
          (N.min (cg_checkpoint_interval_ms cfg * cg_epoch_checkpoints cfg) U64_MAX))
       false (es_first_height start - 1) (es_timestamp_ms start) (es_first_checkpoint start) []
       [es_prev_checkpoint start]
       (foldl (fun m b => <[b.1.1 := (b.1.2, b.2, [])]> m) ∅ (es_base_blocks start))
       (es_prev_checkpoint start) None U64_MAX ∅)
    (mkVerts (with_vouching (m_seats <$> c_members c) (validity c)) (rbc_new me) ∅ ∅ ∅ ∅ ∅ ∅) [].
End core.
