(* ===== verification/OrderLog.v ===== *)
(** What the ordering half of the core promises ([Order]): the log of blocks
    it emits, the chain of checkpoints it signs, the cut of a commit into
    blocks, and that its loops end.

    A run interleaves the public entry points with changes by the rest of the
    core, which touches neither heights nor decided checkpoints. *)

From stdpp Require Import prelude gmap list sorting.
From Stdlib Require Import NArith ZArith Lia.
From S2P Require Import Prelude Committee Checkpoint Merkle Rbc Vertex Dag DagWalk Schedule Commit Batch Order.

(** ** Cutting a commit into blocks *)

Definition chunk_txs (ch : list OrderedBatch) : N :=
  nsum ((fun b => b_transactions (ob_batch b)) <$> ch).

Lemma chunk_txs_snoc ch b : chunk_txs (ch ++ [b]) = chunk_txs ch + b_transactions (ob_batch b).
Proof. unfold chunk_txs. rewrite fmap_app, nsum_app. cbn [fmap list_fmap]. rewrite nsum_cons, nsum_nil. lia. Qed.

Lemma chunk_txs_one b : chunk_txs [b] = b_transactions (ob_batch b).
Proof. unfold chunk_txs. cbn [fmap list_fmap]. rewrite nsum_cons, nsum_nil. lia. Qed.

Lemma chunk_loop_concat max closed open n bs :
  concat (chunk_loop max closed open n bs) = concat closed ++ open ++ bs.
Proof.
  revert closed open n. induction bs as [|b bs IH]; intros closed open n; cbn [chunk_loop].
  - by rewrite concat_app.
  - destruct (_ && _); rewrite IH.
    + rewrite concat_app. cbn. by rewrite app_nil_r, <-!app_assoc.
    + by rewrite <-!app_assoc.
Qed.

(** What [closed] satisfies, and the open chunk when it closes, every chunk
    does. *)
Lemma chunk_loop_Forall (Q : list OrderedBatch -> Prop) max closed open bs :
  Forall Q closed -> Q open ->
  (forall ch b, b ∈ bs -> Q ch -> chunk_txs ch = 0 \/ chunk_txs ch + b_transactions (ob_batch b) <= max ->
    Q (ch ++ [b])) ->
  (forall b, b ∈ bs -> Q [b]) ->
  Forall Q (chunk_loop max closed open (chunk_txs open) bs).
Proof.
  revert closed open. induction bs as [|b bs IH]; intros closed open HF Ho Hs H1; cbn [chunk_loop].
  - apply Forall_app; auto.
  - destruct (N.ltb_spec 0 (chunk_txs open)), (N.ltb_spec max (chunk_txs open + b_transactions (ob_batch b)));
      cbn [andb].
    1: { rewrite <-chunk_txs_one. apply IH; [apply Forall_app; auto| | |];
           intros; try apply H1; try apply Hs; try done; by constructor. }
    all: rewrite <-chunk_txs_snoc; apply IH; try done;
      [apply Hs; [constructor|done|lia]|intros; apply Hs; try done; by constructor
      |intros; apply H1; by constructor].
Qed.

(** A chunk closes only when the next batch does not fit. *)
Definition full (max : N) (ch next : list OrderedBatch) : Prop :=
  0 < chunk_txs ch /\ exists b rest, next = b :: rest /\ max < chunk_txs ch + b_transactions (ob_batch b).

Fixpoint tight (max : N) (chs : list (list OrderedBatch)) : Prop :=
  match chs with
  | ch :: ((next :: _) as chs') => full max ch next /\ tight max chs'
  | _ => True
  end.

Lemma tight_snoc max chs ch : tight max chs -> (forall c, last chs = Some c -> full max c ch) ->
  tight max (chs ++ [ch]).
Proof.
  induction chs as [|c [|c' chs] IH]; intros Ht Hl; cbn in *; [done|auto|].
  destruct Ht. split; [done|]. by apply IH.
Qed.

Lemma full_snoc max ch next b : full max ch next -> full max ch (next ++ [b]).
Proof. intros (? & x & rest & -> & ?). split; [done|]. by exists x, (rest ++ [b]). Qed.

Lemma chunk_loop_tight max closed open bs :
  tight max closed -> (forall c, last closed = Some c -> open <> [] /\ full max c open) ->
  tight max (chunk_loop max closed open (chunk_txs open) bs).
Proof.
  revert closed open. induction bs as [|b bs IH]; intros closed open Ht Hl; cbn [chunk_loop].
  - apply tight_snoc; [done|]. intros c Hc. by apply Hl.
  - destruct (N.ltb_spec 0 (chunk_txs open)), (N.ltb_spec max (chunk_txs open + b_transactions (ob_batch b)));
      cbn [andb].
    1: { rewrite <-chunk_txs_one. apply IH; [apply tight_snoc; [done|]; intros c Hc; by apply Hl|].
         intros c Hc. rewrite last_snoc in Hc. injection Hc as <-. split; [done|]. split; [done|].
         by exists b, []. }
    all: rewrite <-chunk_txs_snoc; apply IH; [done|]; intros c Hc; specialize (Hl c Hc);
      split; [by destruct open|apply full_snoc, Hl].
Qed.

(** Cutting a commit's batches into blocks keeps every batch, whole and in
    order; no block exceeds the limit by more than one batch alone does; and a
    block ends only where the next batch would not fit. *)
Theorem block_chunks_spec batches max :
  concat (block_chunks batches max) = batches /\
  Forall (fun ch => chunk_txs ch <= max \/ exists b, b ∈ ch /\ chunk_txs ch = b_transactions (ob_batch b))
    (block_chunks batches max) /\
  tight max (block_chunks batches max).
Proof.
  unfold block_chunks. split_and!.
  - by rewrite chunk_loop_concat.
  - apply (chunk_loop_Forall _ max [] []); [constructor|left; cbn; lia| |].
    + intros ch b _ _ [H|H]; [right|left; by rewrite chunk_txs_snoc].
      exists b. rewrite chunk_txs_snoc. split; [set_solver|lia].
    + intros b _. right. exists b. rewrite chunk_txs_one. split; [constructor|done].
  - by apply (chunk_loop_tight max [] []).
Qed.

(** ** The log and the line of checkpoints *)

(** A block of the log by height and time, or the end of the epoch. *)
Inductive LogItem :=
| LBlock (height timestamp_ms : N)
| LEnd (last_height : N).

Definition event_item (e : Event) : option LogItem :=
  match e with
  | EvOrdered s => Some (LBlock (sm_height s) (sm_timestamp_ms s))
  | EvEpochEnds h => Some (LEnd h)
  | _ => None
  end.

Definition waiting_item (w : Waiting) : LogItem :=
  match w with
  | WSegment s => LBlock (ws_height s) (ws_timestamp_ms s)
  | WEpochEnds h => LEnd h
  end.

(** What was emitted, then what waits for payloads. *)
Definition emitted (k : Core) : list LogItem := omap event_item (co_events k).
Definition log_of (k : Core) : list LogItem := emitted k ++ (waiting_item <$> b_waiting (co_bat k)).

Definition item_block (i : LogItem) : option (N * N) :=
  match i with LBlock h t => Some (h, t) | LEnd _ => None end.
Definition is_end (i : LogItem) : bool := match i with LEnd _ => true | _ => false end.

Definition blocks (l : list LogItem) : list (N * N) := omap item_block l.
Definition ends (l : list LogItem) : nat := length (filter (fun i => is_end i = true) l).

(** The checkpoints signed, in order. *)
Definition event_signed (e : Event) : option Checkpoint :=
  match e with EvSign cp => Some cp | _ => None end.
Definition signed (k : Core) : list Checkpoint := omap event_signed (co_events k).

(** A checkpoint's range, time and whether it ends the epoch: decided first,
    then signed. *)
Definition unrooted (pc : PendingCheckpoint) : PendingCheckpoint :=
  mkPending (pc_index pc) (pc_first_height pc) (pc_last_height pc) (pc_anchor_round pc)
    (pc_timestamp_ms pc) (pc_ends_epoch pc) None.
Definition range_of (cp : Checkpoint) : PendingCheckpoint :=
  mkPending (cp_index cp) (cp_first_height cp) (cp_last_height cp) (cp_anchor_round cp)
    (cp_timestamp_ms cp) (bool_decide (is_Some (cp_next_committee_root cp))) None.
Definition line (k : Core) : list PendingCheckpoint :=
  (range_of <$> signed k) ++ (unrooted <$> k_decided (co_cps k)).

Fixpoint contiguous (h : N) (l : list PendingCheckpoint) : Prop :=
  match l with
  | [] => True
  | pc :: l => pc_first_height pc = wadd64 h 1 /\ contiguous (pc_last_height pc) l
  end.

Definition last_of (h : N) (l : list PendingCheckpoint) : N := default h (pc_last_height <$> last l).

Lemma last_of_cons h x l : last_of h (x :: l) = last_of (pc_last_height x) l.
Proof. unfold last_of. rewrite last_cons. by destruct (last l). Qed.

Lemma contiguous_snoc h l pc :
  contiguous h (l ++ [pc]) <-> contiguous h l /\ pc_first_height pc = wadd64 (last_of h l) 1.
Proof.
  revert h. induction l as [|x l IH]; intros h; cbn [app contiguous].
  - unfold last_of. cbn. tauto.
  - rewrite IH, last_of_cons. tauto.
Qed.

Lemma last_of_snoc h l pc : last_of h (l ++ [pc]) = pc_last_height pc.
Proof. unfold last_of. by rewrite last_snoc. Qed.

Lemma wadd64_assoc a i : wadd64 (wadd64 a i) 1 = wadd64 a (i + 1).
Proof.
  unfold wadd64. rewrite (N.add_assoc a i 1). rewrite N.Div0.add_mod_idemp_l. done.
Qed.

Lemma wadd64_below a i : a + i < 2 ^ 64 -> wadd64 a i = a + i.
Proof. intros. apply wadd64_small. unfold U64_MAX. lia. Qed.

Section run.
Context (draw_hash : Digest -> Round -> nat -> N) (seed_hash : Digest -> Digest).
Context (order_hash : Digest -> N -> N -> Digest -> Digest).
Context (ordering_digest : OrderingState -> Digest) (cp_digest : Checkpoint -> Digest).
Context (root_of : list Digest -> Digest).
(** What executing the block at a height gives. *)
Context (result_at : N -> Digest * Digest * list Digest).

Abbreviation commit := (Order.commit seed_hash order_hash ordering_digest cp_digest root_of).
Abbreviation build_loop := (Order.build_loop cp_digest root_of).
Abbreviation build_checkpoints := (Order.build_checkpoints cp_digest root_of).
Abbreviation decide_checkpoint := (Order.decide_checkpoint seed_hash order_hash).
Abbreviation commit_checkpoint := (Order.commit_checkpoint seed_hash order_hash).
Abbreviation seal_decided := (Order.seal_decided ordering_digest cp_digest root_of).
Abbreviation take_decisions :=
  (Order.take_decisions draw_hash seed_hash order_hash ordering_digest cp_digest root_of).
Abbreviation try_commit_loop :=
  (Order.try_commit_loop draw_hash seed_hash order_hash ordering_digest cp_digest root_of).
Abbreviation try_commit :=
  (Order.try_commit draw_hash seed_hash order_hash ordering_digest cp_digest root_of).

(** What the rest of the core may change: the DAG, payloads, certificates. *)
Record other_change (k k' : Core) : Prop := {
  oc_cfg : co_cfg k' = co_cfg k;
  oc_committee : co_committee k' = co_committee k;
  oc_height : o_next_height (co_ord k') = o_next_height (co_ord k);
  oc_time : o_last_timestamp_ms (co_ord k') = o_last_timestamp_ms (co_ord k);
  oc_waiting : b_waiting (co_bat k') = b_waiting (co_bat k);
  oc_cps : co_cps k' = co_cps k;
  oc_events : exists es, co_events k' = co_events k ++ es /\
    Forall (fun e => event_item e = None /\ event_signed e = None) es;
}.

(** A step of the core: a pass of the commit rule, released segments, the
    result of a block, the next committee, or anything else. *)
Inductive core_step (k : Core) : Core -> Prop :=
| core_commit : core_step k (try_commit k)
| core_release : core_step k (release_segments k)
| core_executed h x : result_at h = x ->
    core_step k (on_executed cp_digest root_of k h x.1.1 x.1.2 x.2)
| core_root r : core_step k (set_next_committee_root cp_digest root_of k r)
| core_other k' : other_change k k' -> core_step k k'.

Inductive core_run (k : Core) : Core -> Prop :=
| run_start : core_run k k
| run_step k' k'' : core_run k k' -> core_step k' k'' -> core_run k k''.

(** A signed checkpoint: its roots are over the results of its blocks. *)
Record built (cfg : CoreConfig) (epoch : N) (cp : Checkpoint) : Prop := {
  bu_chain : cp_chain_id cp = cg_chain_id cfg /\ cp_genesis_hash cp = cg_genesis_hash cfg /\ cp_epoch cp = epoch;
  bu_blocks : cp_blocks_root cp =
    root_of ((fun h => (result_at h).1.1) <$> heights (cp_first_height cp) (cp_last_height cp));
  bu_statements : cp_statement_root cp =
    root_of (flat_map (fun h => (result_at h).2) (heights (cp_first_height cp) (cp_last_height cp)));
  bu_state_height : cp_state_height cp = checkpoint_state_height (cp_first_height cp) (cp_last_height cp);
  bu_state : cp_state_root cp = (result_at (cp_state_height cp)).1.2;
}.

Fixpoint chained (prev : Digest) (l : list Checkpoint) : Prop :=
  match l with
  | [] => True
  | cp :: l => cp_prev cp = prev /\ chained (cp_digest cp) l
  end.

Definition tip_of (prev : Digest) (l : list Checkpoint) : Digest := default prev (cp_digest <$> last l).

Lemma tip_of_cons prev x l : tip_of prev (x :: l) = tip_of (cp_digest x) l.
Proof. unfold tip_of. rewrite last_cons. by destruct (last l). Qed.

Lemma tip_of_snoc prev l x : tip_of prev (l ++ [x]) = cp_digest x.
Proof. unfold tip_of. by rewrite last_snoc. Qed.

Lemma chained_snoc prev l cp : chained prev (l ++ [cp]) <-> chained prev l /\ cp_prev cp = tip_of prev l.
Proof.
  revert prev. induction l as [|x l IH]; intros prev; cbn [app chained].
  - unfold tip_of. cbn. tauto.
  - rewrite IH, tip_of_cons. tauto.
Qed.

Context (cfg : CoreConfig) (epoch : N) (start : EpochStart).

(** The part of the invariant about the log and the ranges of checkpoints. *)
Record LogOk (k : Core) : Prop := {
  lo_heights : (blocks (log_of k)).*1 =
    (fun i => wadd64 (es_first_height start) (N.of_nat i)) <$> seq 0 (length (blocks (log_of k)));
  lo_next : o_next_height (co_ord k) =
    wadd64 (es_first_height start) (N.of_nat (length (blocks (log_of k))));
  lo_times : StronglySorted N.le ((blocks (log_of k)).*2 ++ [o_last_timestamp_ms (co_ord k)]);
  lo_from : Forall (N.le (es_timestamp_ms start)) ((blocks (log_of k)).*2 ++ [o_last_timestamp_ms (co_ord k)]);
  lo_ends : ends (log_of k) = if k_epoch_closed (co_cps k) then 1%nat else 0%nat;
}.

Record LineOk (k : Core) : Prop := {
  li_index : pc_index <$> line k =
    (fun i => wadd64 (es_first_checkpoint start) (N.of_nat i)) <$> seq 0 (length (line k));
  li_next : k_next_checkpoint_index (co_cps k) =
    wadd64 (es_first_checkpoint start) (N.of_nat (length (line k)));
  li_heights : contiguous (es_first_height start - 1) (line k);
  li_last : k_last_checkpoint_height (co_cps k) = last_of (es_first_height start - 1) (line k);
  li_times : StronglySorted N.le ((pc_timestamp_ms <$> line k) ++ [o_last_timestamp_ms (co_ord k)]);
  li_closed : length (filter (fun pc => pc_ends_epoch pc = true) (line k)) =
    if k_epoch_closed (co_cps k) then 1%nat else 0%nat;
  li_fit : es_first_height start + N.of_nat (length (blocks (log_of k))) < 2 ^ 64 ->
    k_last_checkpoint_height (co_cps k) <= o_next_height (co_ord k) - 1 /\
    Forall (fun pc => pc_first_height pc <= pc_last_height pc + 1 /\ pc_last_height pc + 1 < 2 ^ 64) (line k);
}.

Record SignedOk (k : Core) : Prop := {
  si_cfg : co_cfg k = cfg;
  si_epoch : c_epoch (co_committee k) = epoch;
  si_chain : chained (es_prev_checkpoint start) (signed k);
  si_tip : k_prev_checkpoint (co_cps k) = tip_of (es_prev_checkpoint start) (signed k);
  si_built : Forall (built cfg epoch) (signed k);
  si_executed : map_Forall (fun h x => x = result_at h) (k_executed (co_cps k));
}.

(** Every decided checkpoint has its ordering root, and the first waits for a
    block's result or the next committee. *)
Definition waits (k : Core) : Prop :=
  match k_decided (co_cps k) with
  | [] => True
  | pc :: _ => checkpoint_ready (co_cps k) pc = false \/
      (pc_ends_epoch pc = true /\ k_next_committee_root (co_cps k) = None)
  end.

Definition sealed (k : Core) : Prop :=
  Forall (fun pc => is_Some (pc_ordering_root pc)) (k_decided (co_cps k)).

Record CoreOk (k : Core) : Prop := {
  ck_log : LogOk k;
  ck_line : LineOk k;
  ck_signed : SignedOk k;
}.

(** *** Changes outside the log *)

#[local] Instance other_refl : Reflexive other_change.
Proof. intros k. split; try done. exists []. by rewrite app_nil_r. Qed.

#[local] Instance other_trans : Transitive other_change.
Proof.
  intros k1 k2 k3 [] []. split; try congruence.
  destruct oc_events0 as (es & He & ?), oc_events1 as (es' & He' & ?).
  exists (es ++ es'). rewrite He', He, app_assoc. split; [done|]. by apply Forall_app.
Qed.

Lemma omap_nothing {A B} (f : A -> option B) l : Forall (fun x => f x = None) l -> omap f l = [].
Proof. induction 1 as [|x l Hx _ IH]; [done|]. cbn. by rewrite Hx. Qed.

Lemma other_views k k' : other_change k k' ->
  log_of k' = log_of k /\ signed k' = signed k /\ line k' = line k.
Proof.
  intros []. destruct oc_events0 as (es & He & HF).
  assert (signed k' = signed k) as Hs.
  { unfold signed. rewrite He, omap_app, (omap_nothing _ es), app_nil_r; [done|].
    eapply Forall_impl; [exact HF|]. by intros e []. }
  split_and!; [|done|unfold line; congruence].
  unfold log_of, emitted. rewrite He, oc_waiting0, omap_app, (omap_nothing _ es), app_nil_r; [done|].
  eapply Forall_impl; [exact HF|]. by intros e [].
Qed.

Lemma other_ok k k' : other_change k k' -> CoreOk k -> CoreOk k'.
Proof.
  intros Ho [[] [] []]. destruct (other_views k k' Ho) as (Hl & Hs & Hn). destruct Ho.
  split; split; rewrite ?Hl, ?Hs, ?Hn, ?oc_height0, ?oc_time0, ?oc_cps0, ?oc_cfg0, ?oc_committee0; done.
Qed.

Lemma commit_history_other k a : other_change k (commit_history k a).1.
Proof. split; try done. exists []. cbn. by rewrite app_nil_r. Qed.

Lemma commit_batches_other k a h : other_change k (commit_batches k a h).1.
Proof.
  unfold commit_batches. destruct (release_history _ _ _ _) as [av released].
  split; try done. eexists. split; [reflexivity|].
  apply Forall_forall. intros e (p & -> & _)%list_elem_of_fmap. done.
Qed.

Lemma collect_garbage_other k r : other_change k (collect_garbage k r).
Proof.
  unfold collect_garbage. destruct (checked_sub _ _) as [floor|]; [|reflexivity].
  destruct (_ <=? _); [reflexivity|]. split; try done. exists []. cbn. by rewrite app_nil_r.
Qed.

Lemma pass_slot_other k s : other_change k (pass_slot k s).
Proof. split; try done. exists []. cbn. by rewrite app_nil_r. Qed.

Lemma skip_slot_other k s : other_change k (skip_slot draw_hash k s).
Proof.
  unfold skip_slot. destruct (leader _ _ _ _) as [sc l]. split; try done. exists []. cbn. by rewrite app_nil_r.
Qed.

Lemma draw_leaders_other k : other_change k (draw_leaders draw_hash k).
Proof.
  unfold draw_leaders. destruct (decisions _ _); [reflexivity|]. destruct (top_round _ _); [|reflexivity].
  split; try done. exists []. cbn. by rewrite app_nil_r.
Qed.

(** *** Time and blocks *)

Lemma sorted_last_le l x y : StronglySorted N.le (l ++ [x]) -> x <= y -> StronglySorted N.le (l ++ [y]).
Proof.
  rewrite !StronglySorted_app. intros (H1 & H2 & _) Hle. split_and!; [|done|repeat constructor].
  intros a b Ha ->%list_elem_of_singleton. etrans; [apply H1; [done|constructor]|done].
Qed.

Lemma sorted_last_twice l x : StronglySorted N.le (l ++ [x]) -> StronglySorted N.le ((l ++ [x]) ++ [x]).
Proof.
  intros H. apply StronglySorted_app. split_and!; [|done|repeat constructor].
  intros a b Ha ->%list_elem_of_singleton. apply elem_of_app in Ha as [Ha| ->%list_elem_of_singleton]; [|lia].
  apply StronglySorted_app in H as (H & _). apply H; [done|constructor].
Qed.

Lemma set_timestamp_ok k t : o_last_timestamp_ms (co_ord k) <= t -> CoreOk k -> CoreOk (set_timestamp k t).
Proof.
  intros Ht [[] [] []]. split; split; try done.
  - change (log_of (set_timestamp k t)) with (log_of k). by eapply sorted_last_le.
  - change (log_of (set_timestamp k t)) with (log_of k).
    apply Forall_app in lo_from0 as [? Hl]. apply Forall_app. split; [done|].
    rewrite Forall_singleton in Hl |- *. by etrans; [exact Hl|].
  - change (line (set_timestamp k t)) with (line k). by eapply sorted_last_le.
Qed.

Lemma log_set_waiting k ws : log_of (set_waiting k (b_waiting (co_bat k) ++ ws)) =
  log_of k ++ (waiting_item <$> ws).
Proof. unfold log_of. cbn. by rewrite fmap_app, app_assoc. Qed.

Lemma blocks_app l l' : blocks (l ++ l') = blocks l ++ blocks l'.
Proof. apply omap_app. Qed.

Lemma blocks_push a t n k bs :
  blocks (log_of (push_block a t n k bs)) = blocks (log_of k) ++ [(o_next_height (co_ord k), t)].
Proof.
  unfold push_block. rewrite <-(blocks_app _ [LBlock (o_next_height (co_ord k)) t]). f_equal.
  unfold log_of, emitted. cbn. by rewrite fmap_app, app_assoc.
Qed.

Lemma seq_snoc (f : nat -> N) n : f <$> seq 0 (n + 1) = (f <$> seq 0 n) ++ [f n].
Proof. by rewrite seq_app, fmap_app. Qed.

Lemma push_block_ok a n k bs : CoreOk k ->
  CoreOk (push_block a (o_last_timestamp_ms (co_ord k)) n k bs).
Proof.
  intros [[] [] []]. set (t := o_last_timestamp_ms (co_ord k)) in *.
  assert (ends (log_of (push_block a t n k bs)) = ends (log_of k)) as He.
  { unfold push_block, ends. f_equal. unfold log_of, emitted. cbn.
    by rewrite fmap_app, app_assoc, filter_app, app_nil_r. }
  split; split; rewrite ?blocks_push, ?He; try done.
  - by rewrite fmap_app, length_app, seq_snoc, lo_heights0, lo_next0.
  - cbn [push_block o_next_height co_ord set_waiting with_bat with_ord]. rewrite lo_next0, wadd64_assoc.
    rewrite length_app. cbn [length]. f_equal. lia.
  - rewrite fmap_app. by apply sorted_last_twice.
  - rewrite fmap_app. apply Forall_app. split; [done|]. by apply Forall_app in lo_from0 as [_ ?].
  - intros Hf. rewrite length_app in Hf. cbn [length] in Hf. destruct li_fit0 as [Hle HF]; [lia|].
    split; [|done]. cbn -[N.pow]. rewrite lo_next0 in *. rewrite wadd64_assoc.
    rewrite wadd64_below in * by lia. lia.
Qed.

Lemma push_blocks_ok a n k chunks : CoreOk k ->
  CoreOk (foldl (push_block a (o_last_timestamp_ms (co_ord k)) n) k chunks).
Proof.
  revert k. induction chunks as [|bs chunks IH]; intros k Hk; cbn [foldl]; [done|].
  apply (IH (push_block a (o_last_timestamp_ms (co_ord k)) n k bs)). by apply push_block_ok.
Qed.

Lemma commit_blocks_ok k a h released : CoreOk k ->
  CoreOk (commit_blocks k a (o_last_timestamp_ms (co_ord k)) h released).
Proof. intros. unfold commit_blocks. destruct (existsb _ _); [by apply push_blocks_ok|done]. Qed.

(** *** Deciding checkpoints *)

Hypothesis first_positive : 1 <= es_first_height start.

Lemma line_snoc k k' pc :
  CoreOk k -> line k' = line k ++ [pc] ->
  pc_index pc = k_next_checkpoint_index (co_cps k) ->
  pc_first_height pc = wadd64 (k_last_checkpoint_height (co_cps k)) 1 ->
  pc_last_height pc = o_next_height (co_ord k) - 1 ->
  pc_timestamp_ms pc = o_last_timestamp_ms (co_ord k) ->
  k_next_checkpoint_index (co_cps k') = wadd64 (k_next_checkpoint_index (co_cps k)) 1 ->
  k_last_checkpoint_height (co_cps k') = pc_last_height pc ->
  o_next_height (co_ord k') = o_next_height (co_ord k) ->
  o_last_timestamp_ms (co_ord k') = o_last_timestamp_ms (co_ord k) ->
  blocks (log_of k') = blocks (log_of k) ->
  (if pc_ends_epoch pc then k_epoch_closed (co_cps k) = false /\ k_epoch_closed (co_cps k') = true
   else k_epoch_closed (co_cps k') = k_epoch_closed (co_cps k)) ->
  LineOk k'.
Proof.
  intros [[] [] _] Hl Hi Hf Hlast Ht Hn Hlc Hh Hts Hb He.
  split; rewrite ?Hl.
  - rewrite fmap_app, length_app, seq_snoc, li_index0, <-li_next0. cbn. by rewrite Hi.
  - rewrite Hn, li_next0, wadd64_assoc, length_app. cbn [length]. f_equal. lia.
  - apply contiguous_snoc. split; [done|]. by rewrite Hf, li_last0.
  - by rewrite last_of_snoc, Hlc.
  - rewrite Hts, fmap_app. cbn. rewrite Ht. by apply sorted_last_twice.
  - rewrite filter_app, length_app, li_closed0. destruct (pc_ends_epoch pc) eqn:E.
    + rewrite filter_cons_True by done. destruct He as [-> ->]. done.
    + rewrite filter_cons_False by congruence. rewrite He. cbn. lia.
  - rewrite Hb, Hh, Hlc, Hlast. intros Hfit. specialize (li_fit0 Hfit) as [Hle HF].
    split; [lia|]. apply Forall_app. split; [done|]. apply Forall_singleton.
    rewrite wadd64_below in lo_next0 by done. clear - Hf Hlast lo_next0 Hfit Hle first_positive.
    rewrite Hf, Hlast, wadd64_below by lia. lia.
Qed.

Lemma commit_checkpoint_ok k a : CoreOk k ->
  CoreOk (commit_checkpoint k a (o_last_timestamp_ms (co_ord k))).
Proof.
  intros Hk. unfold Order.commit_checkpoint.
  destruct (negb _ && _) eqn:Ec; [|clear Ec; destruct (_ && _); [|done]].
  - apply andb_true_iff in Ec as [Ec _]. apply negb_true_iff in Ec.
    set (k' := decide_checkpoint _ _ _ _ _).
    assert (log_of k' = log_of k ++ [LEnd (o_next_height (co_ord k) - 1)]) as Hlog.
    { unfold k', log_of, emitted. cbn. by rewrite fmap_app, app_assoc. }
    assert (blocks (log_of k') = blocks (log_of k)) as Hb by by rewrite Hlog, blocks_app, app_nil_r.
    split.
    + destruct Hk as [[] _ _]. split; rewrite ?Hb; try done.
      rewrite Hlog. unfold ends. rewrite filter_app, length_app. fold (ends (log_of k)).
      rewrite lo_ends0, Ec. done.
    + eapply (line_snoc k k'); try done; [unfold line; cbn; by rewrite fmap_app, app_assoc|done..].
    + destruct Hk as [_ _ []]. by split.
  - set (k' := decide_checkpoint _ _ _ _ _).
    split; [destruct Hk as [[] _ _]; by split| |destruct Hk as [_ _ []]; by split].
    eapply (line_snoc k k'); try done; [unfold line; cbn; by rewrite fmap_app, app_assoc|done..].
Qed.

(** *** Sealing and signing *)

Lemma heights_elem h first last : h ∈ heights first last <-> first <= h <= last.
Proof.
  unfold heights. rewrite list_elem_of_fmap. setoid_rewrite elem_of_seq. split.
  - intros (i & -> & ?). lia.
  - intros. exists (N.to_nat (h - first)). lia.
Qed.

Lemma executed_result k h : SignedOk k -> is_Some (k_executed (co_cps k) !! h) ->
  executed_at (co_cps k) h = result_at h.
Proof. intros [] [x Hx]. unfold executed_at. rewrite Hx. cbn. symmetry. symmetry. by apply (si_executed0 h). Qed.

Lemma checkpoint_of_built k pc root : SignedOk k -> checkpoint_ready (co_cps k) pc = true ->
  built cfg epoch (checkpoint_of root_of k pc root).
Proof.
  intros Hk (Hr & Hs)%andb_true_iff. apply bool_decide_eq_true in Hs.
  rewrite forallb_forall in Hr.
  assert (forall h, h ∈ heights (pc_first_height pc) (pc_last_height pc) ->
    executed_at (co_cps k) h = result_at h) as He.
  { intros h Hh. apply executed_result; [done|]. apply list_elem_of_In in Hh.
    specialize (Hr h Hh). by apply bool_decide_eq_true in Hr. }
  split; cbn [checkpoint_of cp_chain_id cp_genesis_hash cp_epoch cp_blocks_root cp_statement_root
    cp_state_height cp_state_root cp_first_height cp_last_height].
  - destruct Hk. by rewrite si_cfg0.
  - f_equal. apply list_fmap_ext. intros i h Hi. by rewrite (He h) by by eapply list_elem_of_lookup_2.
  - f_equal. rewrite !flat_map_concat_map. f_equal. apply map_ext_in. intros h Hh.
    by rewrite (He h) by by apply list_elem_of_In.
  - done.
  - by rewrite executed_result.
Qed.

Lemma sign_front_ok k pc rest root : CoreOk k ->
  k_decided (co_cps k) = pc :: rest -> checkpoint_ready (co_cps k) pc = true ->
  (pc_ends_epoch pc = true -> is_Some (k_next_committee_root (co_cps k))) ->
  CoreOk (sign_front cp_digest k rest (pc_last_height pc) (checkpoint_of root_of k pc root)).
Proof.
  intros Hk Hd Hr He. set (cp := checkpoint_of root_of k pc root). set (k' := sign_front _ _ _ _ _).
  assert (signed k' = signed k ++ [cp]) as Hs by (unfold signed, k'; cbn; by rewrite omap_app).
  assert (log_of k' = log_of k) as Hl.
  { unfold log_of, emitted, k'. cbn. by rewrite omap_app, app_nil_r. }
  assert (range_of cp = unrooted pc) as Hrange.
  { unfold range_of, cp. cbn. unfold unrooted. f_equal.
    destruct (pc_ends_epoch pc); [|done]. by apply bool_decide_eq_true, He. }
  assert (line k' = line k) as Hn.
  { unfold line. rewrite Hs, Hd. cbn. rewrite fmap_app. cbn. by rewrite Hrange, <-app_assoc. }
  destruct Hk as [[] [] Hsi]. split; [| |pose proof Hsi as []].
  1,2: split; rewrite ?Hl, ?Hn; done.
  split; rewrite ?Hs; try done.
  - apply chained_snoc. split; [done|]. unfold cp. cbn. done.
  - by rewrite tip_of_snoc.
  - apply Forall_app. split; [done|]. apply Forall_singleton. by apply checkpoint_of_built.
  - intros h x (Hx & _)%map_lookup_filter_Some. by apply (si_executed0 h).
Qed.

Lemma build_loop_ok fuel k : CoreOk k -> CoreOk (build_loop fuel k).
Proof.
  revert k. induction fuel as [|fuel IH]; intros k Hk; cbn [Order.build_loop]; [done|].
  destruct (k_decided (co_cps k)) as [|pc rest] eqn:Hd; [done|].
  destruct (pc_ordering_root pc) as [root|]; [|done].
  destruct (checkpoint_ready (co_cps k) pc) eqn:Hr; cbn [negb]; [|done].
  destruct (_ && _) eqn:He; [done|]. apply IH, sign_front_ok; try done.
  intros Hp. rewrite Hp in He. apply negb_false_iff in He. by apply bool_decide_eq_true in He.
Qed.

(** The loop leaves nothing at the front that could be signed. *)
Lemma build_loop_waits fuel k : (length (k_decided (co_cps k)) <= fuel)%nat -> sealed k ->
  sealed (build_loop fuel k) /\ waits (build_loop fuel k).
Proof.
  revert k. induction fuel as [|fuel IH]; intros k Hf Hs; cbn [Order.build_loop].
  - split; [done|]. unfold waits. destruct (k_decided (co_cps k)); [done|]. cbn in Hf. lia.
  - unfold sealed, waits in *. destruct (k_decided (co_cps k)) as [|pc rest] eqn:Hd; [by rewrite Hd|].
    apply Forall_cons in Hs as [[root Hroot] HF]. rewrite Hroot.
    destruct (checkpoint_ready (co_cps k) pc) eqn:Hr; cbn [negb]; [|rewrite Hd; split; [by constructor|auto]].
    destruct (_ && _) eqn:He.
    + rewrite Hd. split; [by constructor|right]. apply andb_true_iff in He as [-> He].
      apply negb_true_iff, bool_decide_eq_false in He. split; [done|].
      by apply eq_None_not_Some.
    + apply IH; [|done]. cbn in *. lia.
Qed.

Lemma set_root_ok k ds states : CoreOk k ->
  unrooted <$> ds = unrooted <$> k_decided (co_cps k) -> CoreOk (set_decided k ds states).
Proof.
  intros [[] [] []] Hd.
  assert (line (set_decided k ds states) = line k) as Hn by (unfold line; cbn; by rewrite Hd).
  split; split; rewrite ?Hn; done.
Qed.

Lemma last_split {A} (l : list A) x : last l = Some x -> l = removelast l ++ [x].
Proof.
  intros H. apply last_Some in H as [l' ->]. by rewrite removelast_last.
Qed.

Lemma seal_decided_ok k : CoreOk k -> CoreOk (seal_decided k).
Proof.
  intros Hk. unfold Order.seal_decided. apply build_loop_ok.
  destruct (last (k_decided (co_cps k))) as [pc|] eqn:Hl; [|done].
  destruct (bool_decide _); [|done]. apply set_root_ok; [done|].
  rewrite (last_split _ _ Hl) at 2. by rewrite !fmap_app.
Qed.

(** At most the last decided checkpoint still lacks its root. *)
Definition nearly_sealed (k : Core) : Prop :=
  Forall (fun pc => is_Some (pc_ordering_root pc)) (removelast (k_decided (co_cps k))).

Lemma seal_decided_waits k : nearly_sealed k -> sealed (seal_decided k) /\ waits (seal_decided k).
Proof.
  intros Hk. unfold Order.seal_decided. apply build_loop_waits; [done|]. unfold nearly_sealed, sealed in *.
  destruct (last (k_decided (co_cps k))) as [pc|] eqn:Hl.
  - case_bool_decide as Hr; cbn.
    + apply Forall_app. split; [done|]. apply Forall_singleton. by eexists.
    + rewrite (last_split _ _ Hl). apply Forall_app. split; [done|]. apply Forall_singleton.
      by apply not_eq_None_Some.
  - apply last_None in Hl. rewrite Hl. constructor.
Qed.

Lemma commit_checkpoint_sealed k a t : sealed k -> nearly_sealed (commit_checkpoint k a t).
Proof.
  unfold sealed, nearly_sealed, Order.commit_checkpoint. intros Hk.
  assert (forall ds, Forall (fun pc => is_Some (pc_ordering_root pc)) ds ->
    Forall (fun pc => is_Some (pc_ordering_root pc)) (removelast ds)) as Hrm.
  { intros ds. induction 1 as [|x [|y ds] Hx HF IH]; cbn; constructor; auto. }
  destruct (_ && _); [|destruct (_ && _)]; cbn; rewrite ?removelast_last; auto.
Qed.

(** *** Committing *)

Lemma commit_timestamp_ge k a : o_last_timestamp_ms (co_ord k) <= commit_timestamp k a.
Proof. unfold commit_timestamp. lia. Qed.

Lemma commit_ok k a : CoreOk k -> CoreOk (commit k a).
Proof.
  intros Hk. unfold Order.commit.
  destruct (commit_history k a) as [k1 h] eqn:E1. destruct (commit_batches k1 a h) as [k2 released] eqn:E2.
  assert (CoreOk k2) as H2.
  { eapply other_ok; [|exact Hk]. etrans; [pose proof (commit_history_other k a) as H; by rewrite E1 in H|].
    pose proof (commit_batches_other k1 a h) as H. by rewrite E2 in H. }
  apply seal_decided_ok. eapply other_ok; [apply collect_garbage_other|].
  set (t := commit_timestamp k2 a). assert (CoreOk (set_timestamp k2 t)) as H3.
  { apply set_timestamp_ok; [apply commit_timestamp_ge|done]. }
  apply (commit_blocks_ok _ a h released) in H3. apply (commit_checkpoint_ok _ a) in H3.
  assert (o_last_timestamp_ms (co_ord (commit_blocks (set_timestamp k2 t) a t h released)) = t) as Ht.
  { unfold commit_blocks. destruct (existsb _ _); [|done].
    assert (forall chunks k, o_last_timestamp_ms (co_ord k) = t ->
      o_last_timestamp_ms (co_ord (foldl (push_block a t (length h)) k chunks)) = t) as Hf; [|by apply Hf].
    induction chunks as [|c chunks IH]; intros k0 H0; cbn [foldl]; [done|]. by apply IH. }
  change (o_last_timestamp_ms (co_ord (set_timestamp k2 t))) with t in H3. by rewrite Ht in H3.
Qed.

Lemma commit_blocks_cps k a t h released : co_cps (commit_blocks k a t h released) = co_cps k.
Proof.
  unfold commit_blocks. destruct (existsb _ _); [|done]. generalize (block_chunks released MAX_TRANSACTIONS_PER_BLOCK).
  intros chunks. revert k. induction chunks as [|c chunks IH]; intros k; cbn [foldl]; [done|]. by rewrite IH.
Qed.

Lemma commit_waits k a : sealed k -> sealed (commit k a) /\ waits (commit k a).
Proof.
  intros Hk. unfold Order.commit.
  destruct (commit_history k a) as [k1 h] eqn:E1. destruct (commit_batches k1 a h) as [k2 released] eqn:E2.
  assert (co_cps k2 = co_cps k) as H2.
  { pose proof (commit_history_other k a) as []. pose proof (commit_batches_other k1 a h) as [].
    rewrite E1, E2 in *. cbn in *. congruence. }
  apply seal_decided_waits. unfold nearly_sealed. rewrite (oc_cps _ _ (collect_garbage_other _ _)).
  apply commit_checkpoint_sealed. unfold sealed. by rewrite commit_blocks_cps; cbn; rewrite H2.
Qed.

Definition RunOk (k : Core) : Prop := CoreOk k /\ sealed k /\ waits k.

Lemma other_run_ok k k' : other_change k k' -> RunOk k -> RunOk k'.
Proof.
  intros Ho (Hk & Hs & Hw). split; [by eapply other_ok|]. unfold sealed, waits in *.
  by rewrite (oc_cps _ _ Ho).
Qed.

Lemma take_decisions_ok ds k : RunOk k -> RunOk (take_decisions k ds).1.
Proof.
  revert k. induction ds as [|[s d] ds IH]; intros k Hk; cbn [Order.take_decisions]; [done|].
  assert (RunOk (pass_slot k s)) as Hp by (eapply other_run_ok; [apply pass_slot_other|done]).
  destruct d as [a| |]; [|apply IH; eapply other_run_ok; [apply skip_slot_other|done]|done].
  assert (RunOk (commit (pass_slot k s) a)) as Hc.
  { destruct Hp as (H1 & H2 & _). split; [by apply commit_ok|by apply commit_waits]. }
  destruct (_ || _); [done|by apply IH].
Qed.

Lemma try_commit_loop_ok fuel k k' : try_commit_loop fuel k = Some k' -> RunOk k -> RunOk k'.
Proof.
  revert k. induction fuel as [|fuel IH]; intros k; cbn [Order.try_commit_loop];
    destruct (o_halted _); intros Heq Hk; try by simplify_eq.
  pose proof (take_decisions_ok (decisions draw_hash k) _ (other_run_ok _ _ (draw_leaders_other k) Hk)) as Ht.
  destruct (take_decisions _ _) as [k1 again]. destruct again; [by eapply IH|by simplify_eq].
Qed.

Lemma release_segment_ok k s rest : b_waiting (co_bat k) = WSegment s :: rest ->
  RunOk k -> RunOk (release_segment k s rest).
Proof.
  intros Hw (Hk & Hs). split; [|exact Hs]. set (k' := release_segment _ _ _).
  assert (log_of k' = log_of k) as Hl.
  { unfold log_of, emitted, k'. cbn. by rewrite Hw, omap_app, <-app_assoc. }
  assert (signed k' = signed k) as Hsi by (unfold signed, k'; cbn; by rewrite omap_app, app_nil_r).
  assert (line k' = line k) as Hn by (unfold line; by rewrite Hsi).
  destruct Hk as [[] [] []]. split; split; rewrite ?Hl, ?Hsi, ?Hn; done.
Qed.

Lemma release_end_ok k h rest : b_waiting (co_bat k) = WEpochEnds h :: rest ->
  RunOk k -> RunOk (emit (set_waiting k rest) [EvEpochEnds h]).
Proof.
  intros Hw (Hk & Hs). split; [|exact Hs]. set (k' := emit _ _).
  assert (log_of k' = log_of k) as Hl.
  { unfold log_of, emitted, k'. cbn. by rewrite Hw, omap_app, <-app_assoc. }
  assert (signed k' = signed k) as Hsi by (unfold signed, k'; cbn; by rewrite omap_app, app_nil_r).
  assert (line k' = line k) as Hn by (unfold line; by rewrite Hsi).
  destruct Hk as [[] [] []]. split; split; rewrite ?Hl, ?Hsi, ?Hn; done.
Qed.

Lemma release_loop_ok waiting k : b_waiting (co_bat k) = waiting -> RunOk k -> RunOk (release_loop k waiting).
Proof.
  revert k. induction waiting as [|[s|h] rest IH]; intros k Hw Hk; cbn [release_loop]; [done| |].
  - destruct (_ && _); [done|]. apply IH; [done|by apply release_segment_ok].
  - apply IH; [done|by apply release_end_ok].
Qed.

Lemma build_checkpoints_run_ok k : CoreOk k -> sealed k -> RunOk (build_checkpoints k).
Proof. intros Hk Hs. split; [by apply build_loop_ok|by apply build_loop_waits]. Qed.

Lemma set_executed_ok k m root : CoreOk k -> map_Forall (fun h x => x = result_at h) m ->
  CoreOk (set_executed k m root).
Proof. intros [[] [] []] Hm. split; split; done. Qed.

Lemma core_step_ok k k' : core_step k k' -> RunOk k -> RunOk k'.
Proof.
  intros [ | |h x <-|r|k'' Ho] Hk.
  - unfold Order.try_commit. destruct (try_commit_loop _ _) as [k1|] eqn:E; [|done].
    by eapply try_commit_loop_ok.
  - by apply release_loop_ok.
  - destruct Hk as (Hk & Hs & _). apply build_checkpoints_run_ok; [|exact Hs].
    apply set_executed_ok; [done|]. apply map_Forall_insert_2; [by destruct (result_at h) as [[] ?]|].
    apply Hk.
  - destruct Hk as (Hk & Hs & _). apply build_checkpoints_run_ok; [|exact Hs].
    apply set_executed_ok; [done|]. apply Hk.
  - by eapply other_run_ok.
Qed.

Lemma core_run_ok k k' : core_run k k' -> RunOk k -> RunOk k'.
Proof. induction 1 as [|k' k'' _ IH Hs]; [done|]. intros Hk. by eapply core_step_ok, IH. Qed.

Hypothesis first_fits : es_first_height start < 2 ^ 64.
Hypothesis checkpoint_fits : es_first_checkpoint start < 2 ^ 64.

Lemma core_new_ok c me seed : c_epoch c = epoch ->
  Forall (fun b => result_at b.1.1 = (b.1.2, b.2, [])) (es_base_blocks start) ->
  RunOk (core_new cfg c me start seed).
Proof.
  intros Hc Hb. split; [|split; [constructor|done]]. split; split; try done; cbn -[N.pow].
  - rewrite wadd64_below; lia.
  - repeat constructor.
  - by apply Forall_singleton.
  - rewrite wadd64_below; lia.
  - repeat constructor.
  - assert (forall bs (m : gmap N (Digest * Digest * list Digest)),
      Forall (fun b => result_at b.1.1 = (b.1.2, b.2, [])) bs ->
      map_Forall (fun h x => x = result_at h) m ->
      map_Forall (fun h x => x = result_at h)
        (foldl (fun m b => <[b.1.1 := (b.1.2, b.2, [])]> m) m bs)) as Hf.
    { intros bs. induction bs as [|b bs IH]; intros m HF Hm; cbn [foldl]; [done|].
      apply Forall_cons in HF as [Hb1 HF]. apply IH; [done|]. by apply map_Forall_insert_2. }
    apply Hf; [done|apply map_Forall_empty].
Qed.
End run.

(** ** The log and the signed chain of a run *)

(** An epoch starts at fitting heights, over the blocks it names. *)
Record StartOk (result_at : N -> Digest * Digest * list Digest) (start : EpochStart) : Prop := {
  so_positive : 1 <= es_first_height start;
  so_first : es_first_height start < 2 ^ 64;
  so_checkpoint : es_first_checkpoint start < 2 ^ 64;
  so_base : Forall (fun b => result_at b.1.1 = (b.1.2, b.2, [])) (es_base_blocks start);
}.

(** C28: Whatever happens in an epoch, the blocks emitted and waiting carry
    consecutive heights from the epoch's first, no height twice or left out,
    with times that never go back, and the end of the epoch is in the log
    exactly once, from when the epoch is closed. *)
Theorem ordered_log draw_hash seed_hash order_hash ordering_digest cp_digest root_of result_at
    cfg c me start seed k :
  StartOk result_at start ->
  core_run draw_hash seed_hash order_hash ordering_digest cp_digest root_of result_at
    (core_new cfg c me start seed) k ->
  let height i := wadd64 (es_first_height start) (N.of_nat i) in
  (blocks (log_of k)).*1 = height <$> seq 0 (length (blocks (log_of k))) /\
  (blocks (emitted k)).*1 = height <$> seq 0 (length (blocks (emitted k))) /\
  o_next_height (co_ord k) = height (length (blocks (log_of k))) /\
  StronglySorted N.le (es_timestamp_ms start :: (blocks (log_of k)).*2 ++ [o_last_timestamp_ms (co_ord k)]) /\
  ends (log_of k) = if k_epoch_closed (co_cps k) then 1%nat else 0%nat.
Proof.
  intros [] Hrun height. eapply core_run_ok in Hrun as ([[] _ _] & _); [|done|by apply core_new_ok].
  split_and!; try done; [|by constructor].
  assert (take (length (blocks (emitted k))) (blocks (log_of k)).*1 = (blocks (emitted k)).*1) as <-.
  { unfold log_of. rewrite blocks_app, fmap_app. apply take_app_length'. by rewrite length_fmap. }
  rewrite lo_heights0, <-fmap_take. f_equal. unfold log_of. rewrite blocks_app, length_app.
  by rewrite take_seq, Nat.min_l by lia.
Qed.

Lemma contiguous_app h l l' : contiguous h (l ++ l') -> contiguous h l.
Proof. revert h. induction l as [|x l IH]; intros h; cbn; [done|]. intros [? ?]. eauto. Qed.

Lemma ends_signed l :
  length (filter (fun pc => pc_ends_epoch pc = true) (range_of <$> l)) =
  length (filter (fun cp => is_Some (cp_next_committee_root cp)) l).
Proof.
  induction l as [|cp l IH]; [done|]. cbn [fmap list_fmap]. rewrite !filter_cons.
  destruct (decide (pc_ends_epoch _ = true)) as [H|H], (decide (is_Some _)) as [H'|H'];
    cbn [length]; rewrite ?IH; try done; cbn in H; exfalso; by rewrite bool_decide_eq_true in H.
Qed.

Lemma line_well_formed root_of result_at cfg epoch k :
  Forall (fun pc => pc_first_height pc <= pc_last_height pc + 1 /\ pc_last_height pc + 1 < 2 ^ 64) (line k) ->
  Forall (built root_of result_at cfg epoch) (signed k) -> Forall (fun cp => well_formed cp = true) (signed k).
Proof.
  unfold line. intros [HF _]%Forall_app Hb. apply Forall_forall. intros cp Hcp. rewrite Forall_forall in Hb.
  rewrite Forall_fmap, Forall_forall in HF. specialize (HF cp Hcp) as [H1 H2]. cbn -[N.pow] in H1, H2.
  unfold well_formed. rewrite (bu_state_height _ _ _ _ _ (Hb cp Hcp)), N.eqb_refl, andb_true_r.
  apply N.leb_le. unfold sat_add64, U64_MAX. lia.
Qed.

Lemma line_signed (first : N) k :
  pc_index <$> line k = (fun i => wadd64 first (N.of_nat i)) <$> seq 0 (length (line k)) ->
  cp_index <$> signed k = (fun i => wadd64 first (N.of_nat i)) <$> seq 0 (length (signed k)).
Proof.
  unfold line. rewrite fmap_app. intros Hi. apply (f_equal (take (length (signed k)))) in Hi.
  rewrite take_app_length' in Hi by by rewrite !length_fmap.
  rewrite <-list_fmap_compose in Hi. etrans; [exact Hi|].
  rewrite <-fmap_take, take_seq, length_app, !length_fmap, Nat.min_l by lia. done.
Qed.

(** The two verifiers never disagreed: no [VerifierDisagreement] was reported. *)
Definition never_disagreed (k : Core) : Prop :=
  Forall (fun e => match e with EvVerifierDisagreement _ => False | _ => True end) (co_events k).

(** C27: The checkpoints a validator signs in an epoch are a chain: consecutive
    indices, each naming the digest of the one before it, well-formed ranges
    that cover every height once, times that never go back, at most one ending
    the epoch, with roots over exactly the results of the blocks they cover. A
    validator that reported no verifier disagreement leaves nothing waiting that
    was decided and can be signed; of one that did, only what it signs is
    stated. *)
Theorem signed_chain draw_hash seed_hash order_hash ordering_digest cp_digest root_of result_at
    cfg c me start seed k :
  StartOk result_at start ->
  core_run draw_hash seed_hash order_hash ordering_digest cp_digest root_of result_at
    (core_new cfg c me start seed) k ->
  es_first_height start + N.of_nat (length (blocks (log_of k))) < 2 ^ 64 ->
  chained cp_digest (es_prev_checkpoint start) (signed k) /\
  cp_index <$> signed k =
    (fun i => wadd64 (es_first_checkpoint start) (N.of_nat i)) <$> seq 0 (length (signed k)) /\
  contiguous (es_first_height start - 1) (range_of <$> signed k) /\
  StronglySorted N.le (cp_timestamp_ms <$> signed k) /\
  (length (filter (fun cp => is_Some (cp_next_committee_root cp)) (signed k)) <= 1)%nat /\
  Forall (fun cp => well_formed cp = true /\ built root_of result_at cfg (c_epoch c) cp) (signed k) /\
  sealed k /\ (never_disagreed k -> waits k).
Proof.
  intros [] Hrun Hfit.
  eapply (core_run_ok _ _ _ _ _ _ _ cfg (c_epoch c)) in Hrun as ([[] [] []] & Hs & Hw);
    [|exact so_positive0|by apply core_new_ok].
  specialize (li_fit0 Hfit) as [_ HF]. unfold line in li_index0, li_heights0, li_times0, li_closed0.
  split_and!; try done.
  - by apply line_signed.
  - by eapply contiguous_app.
  - rewrite fmap_app, <-app_assoc, <-list_fmap_compose in li_times0.
    by apply StronglySorted_app in li_times0 as (_ & ? & _).
  - rewrite filter_app, length_app in li_closed0.
    transitivity (length (filter (fun pc => pc_ends_epoch pc = true) (range_of <$> signed k)));
      [|destruct (k_epoch_closed _); lia].
    by rewrite ends_signed.
  - rewrite Forall_and. split; [|done]. eapply line_well_formed; [|done]. done.
Qed.

(** ** The commit loop ends *)

Section ends.
Context (draw_hash : Digest -> Round -> nat -> N) (seed_hash : Digest -> Digest).
Context (order_hash : Digest -> N -> N -> Digest -> Digest).
Context (ordering_digest : OrderingState -> Digest) (cp_digest : Checkpoint -> Digest).
Context (root_of : list Digest -> Digest).

Abbreviation commit := (Order.commit seed_hash order_hash ordering_digest cp_digest root_of).
Abbreviation take_decisions :=
  (Order.take_decisions draw_hash seed_hash order_hash ordering_digest cp_digest root_of).
Abbreviation try_commit_loop :=
  (Order.try_commit_loop draw_hash seed_hash order_hash ordering_digest cp_digest root_of).

Definition key_le {A B} (m' : gmap N A) (m : gmap N B) : Prop := forall r, is_Some (m' !! r) -> is_Some (m !! r).

(** The round of the highest vertex or first proposal never rises, the number
    of slots a round has stays, and so does the next slot. *)
Record settles (k k' : Core) : Prop := {
  se_slots : sc_slots (o_schedule (co_ord k')) = sc_slots (o_schedule (co_ord k));
  se_next : o_next_slot (co_ord k') = o_next_slot (co_ord k);
  se_rounds : key_le (rounds (x_dag (co_verts k'))) (rounds (x_dag (co_verts k)));
  se_proposals : key_le (x_first_proposals (co_verts k')) (x_first_proposals (co_verts k));
}.

#[local] Instance settles_refl : Reflexive settles.
Proof. intros k. split; try done; by intros r. Qed.

#[local] Instance settles_trans : Transitive settles.
Proof. intros a b c [] []. split; [congruence..| |]; unfold key_le in *; eauto. Qed.

Lemma advance_slots c s r seed : sc_slots (advance seed_hash c s r seed) = sc_slots s.
Proof.
  unfold advance, sc_slots. cbn [sc_drawn]. set (d := sc_drawn s).
  assert (forall d r es, dr_slots (truncate d r es) = dr_slots d) as Ht.
  { intros d0 r0 es. unfold truncate. destruct (_ <=? _); [done|]. by destruct (last _) as [[]|]. }
  assert (forall d r, dr_slots (drawn_prune_below d r) = dr_slots d) as Hp.
  { intros d0 r0. unfold drawn_prune_below. by destruct (drop _ _) as [|[] ?]. }
  by rewrite Hp, Ht.
Qed.

Lemma leader_slots s r i : sc_slots (leader draw_hash s r i).1 = sc_slots s.
Proof.
  assert (forall n es d, dr_slots (draw_rounds draw_hash n es d) = dr_slots d) as Hd.
  { induction n as [|n IH]; intros es d; cbn [draw_rounds]; [done|]. rewrite IH. unfold draw.
    by destruct (draw_round _ _ _ _ _). }
  unfold leader, sc_slots. destruct (_ <? _); cbn [fst sc_drawn]; [|apply Hd].
  destruct (dr_leaders _); [|done]. unfold draw. by destruct (draw_round _ _ _ _ _).
Qed.

Lemma filter_key_le {A} (P : N * A -> Prop) `{forall x, Decision (P x)} (m : gmap N A) :
  key_le (filter P m) m.
Proof. intros r [x Hx]. apply map_lookup_filter_Some in Hx as [Hx _]. eauto. Qed.

Lemma collect_garbage_settles k r : settles k (collect_garbage k r).
Proof.
  unfold collect_garbage. destruct (checked_sub _ _) as [floor|]; [|reflexivity].
  destruct (floor <=? _) eqn:Hf; [reflexivity|]. split; try done; cbn [co_verts].
  - unfold collect_vertices, dag_prune_below. rewrite Hf. cbn. apply filter_key_le.
  - unfold collect_vertices. destruct (dag_prune_below _ _). cbn. apply filter_key_le.
Qed.

(** A change that leaves the schedule's slots, the next slot and the DAG. *)
Lemma settles_same k k' : sc_slots (o_schedule (co_ord k')) = sc_slots (o_schedule (co_ord k)) ->
  o_next_slot (co_ord k') = o_next_slot (co_ord k) -> co_verts k' = co_verts k -> settles k k'.
Proof. intros ? ? Hv. split; try done; rewrite Hv; by intros r. Qed.

Lemma build_loop_settles fuel k : settles k (build_loop cp_digest root_of fuel k).
Proof.
  revert k. induction fuel as [|fuel IH]; intros k; cbn [build_loop]; [reflexivity|].
  destruct (k_decided _) as [|pc rest]; [reflexivity|]. destruct (pc_ordering_root pc); [|reflexivity].
  destruct (negb _); [reflexivity|]. destruct (_ && _); [reflexivity|].
  etrans; [|apply IH]. by apply settles_same.
Qed.

Lemma seal_settles k : settles k (seal_decided ordering_digest cp_digest root_of k).
Proof.
  unfold seal_decided. etrans; [|apply build_loop_settles].
  destruct (last _); [|reflexivity]. destruct (bool_decide _); [|reflexivity]. by apply settles_same.
Qed.

Lemma commit_blocks_settles k a t h released : settles k (commit_blocks k a t h released).
Proof.
  unfold commit_blocks. destruct (existsb _ _); [|reflexivity].
  generalize (block_chunks released MAX_TRANSACTIONS_PER_BLOCK) as chunks. intros chunks. revert k.
  induction chunks as [|x chunks IH]; intros k; cbn [foldl]; [reflexivity|].
  etrans; [|apply IH]. by apply settles_same.
Qed.

Lemma commit_checkpoint_settles k a t : settles k (commit_checkpoint seed_hash order_hash k a t).
Proof.
  unfold commit_checkpoint. destruct (_ && _); [|destruct (_ && _); [|reflexivity]];
    apply settles_same; try done; apply advance_slots.
Qed.

Lemma commit_settles k a : settles k (commit k a).
Proof.
  unfold Order.commit. destruct (commit_history k a) as [k1 h] eqn:E1.
  destruct (commit_batches k1 a h) as [k2 released] eqn:E2.
  etrans; [|apply seal_settles]. etrans; [|apply collect_garbage_settles].
  etrans; [|apply commit_checkpoint_settles]. etrans; [|apply commit_blocks_settles].
  transitivity k1; [|transitivity k2]; [| |by apply settles_same].
  - unfold commit_history in E1. injection E1 as <- _. by apply settles_same.
  - unfold commit_batches in E2. destruct (release_history _ _ _ _). injection E2 as <- _.
    by apply settles_same.
Qed.

Lemma skip_slot_settles k s : settles k (skip_slot draw_hash k s).
Proof.
  unfold skip_slot. pose proof (leader_slots (o_schedule (co_ord k)) s.1 s.2) as H.
  destruct (leader _ _ _ _) as [sc l]. by apply settles_same.
Qed.

Lemma draw_leaders_settles k : settles k (draw_leaders draw_hash k).
Proof.
  unfold draw_leaders. destruct (decisions _ _); [reflexivity|]. destruct (top_round _ _); [|reflexivity].
  apply settles_same; try done. apply leader_slots.
Qed.

(** The same when the next slot moves. *)
Definition shrinks (k k' : Core) : Prop :=
  sc_slots (o_schedule (co_ord k')) = sc_slots (o_schedule (co_ord k)) /\
  key_le (rounds (x_dag (co_verts k'))) (rounds (x_dag (co_verts k))) /\
  key_le (x_first_proposals (co_verts k')) (x_first_proposals (co_verts k)).

#[local] Instance shrinks_trans : Transitive shrinks.
Proof. intros a b c (? & ? & ?) (? & ? & ?). split_and!; [congruence| |]; unfold key_le in *; eauto. Qed.

Lemma settles_shrinks k k' : settles k k' -> shrinks k k'.
Proof. by intros []. Qed.

Lemma pass_slot_shrinks k s : shrinks k (pass_slot k s).
Proof. split_and!; try done; by intros r. Qed.

(** A pass that is made again stopped after one of the slots it decided. *)
Lemma take_decisions_again ds k k' : take_decisions k ds = (k', true) ->
  exists slot, slot ∈ ds.*1 /\ shrinks k k' /\
    o_next_slot (co_ord k') = slot_after (sc_slots (o_schedule (co_ord k))) slot.
Proof.
  revert k. induction ds as [|[s d] ds IH]; intros k; cbn [Order.take_decisions]; [done|].
  assert (forall k1, settles (pass_slot k s) k1 -> shrinks k k1) as Hs.
  { intros k1 H1. etrans; [apply pass_slot_shrinks|by apply settles_shrinks, H1]. }
  assert (forall k1, settles (pass_slot k s) k1 -> take_decisions k1 ds = (k', true) ->
    exists slot, slot ∈ ((s, d) :: ds).*1 /\ shrinks k k' /\
      o_next_slot (co_ord k') = slot_after (sc_slots (o_schedule (co_ord k))) slot) as Hnext.
  { intros k1 H1 (slot & Hin & H2 & Heq)%IH. exists slot. specialize (Hs k1 H1). split_and!.
    - by right.
    - by etrans.
    - by rewrite Heq, (proj1 Hs). }
  destruct d as [a| |]; [| |done].
  - destruct (_ || _); [|apply Hnext, commit_settles]. intros [= <-]. exists s.
    split_and!; [left|apply Hs, commit_settles|apply (se_next _ _ (commit_settles (pass_slot k s) a))].
  - apply Hnext, skip_slot_settles.
Qed.

Lemma max_key_spec {A} (m : gmap N A) t : max_key m = Some t ->
  is_Some (m !! t) /\ forall r, is_Some (m !! r) -> r <= t.
Proof.
  unfold max_key. intros H.
  assert (forall l t, foldr (fun k acc => Some (from_option (N.max k) k acc)) None l = Some t ->
    t ∈ l /\ forall r, r ∈ l -> r <= t) as Hl.
  { clear. induction l as [|x l IH]; cbn; [done|]. intros t. destruct (foldr _ _ l) as [y|] eqn:E.
    - intros [= <-]. destruct (IH y eq_refl) as [Hin Hle]. cbn. split.
      + destruct (N.max_spec x y) as [[_ ->]|[_ ->]]; [by right|left].
      + intros r [->|Hr]%elem_of_cons; [lia|]. specialize (Hle r Hr). lia.
    - intros [= <-]. cbn. destruct l; [|done]. split; [left|]. by intros r ->%list_elem_of_singleton. }
  apply Hl in H as [Hin Hle]. setoid_rewrite list_elem_of_fmap in Hle. apply list_elem_of_fmap in Hin.
  destruct Hin as ([k x] & -> & Hx%elem_of_map_to_list). split; [by eexists|].
  intros r [y Hy]. apply Hle. exists (r, y). split; [done|]. by apply elem_of_map_to_list.
Qed.

Lemma max_key_none {A} (m : gmap N A) : max_key m = None -> m = ∅.
Proof. unfold max_key. intros H. apply map_to_list_empty_iff. by destruct (map_to_list m). Qed.

Lemma max_key_le {A B} (m' : gmap N A) (m : gmap N B) t' : key_le m' m -> max_key m' = Some t' ->
  exists t, max_key m = Some t /\ t' <= t.
Proof.
  intros Hle [Hin _]%max_key_spec. apply Hle in Hin. destruct (max_key m) as [t|] eqn:E.
  - apply max_key_spec in E as [_ E]. eauto.
  - apply max_key_none in E as ->. destruct Hin as [? H]. by rewrite lookup_empty in H.
Qed.

Lemma top_round_le k k' t' : shrinks k k' ->
  top_round (x_dag (co_verts k')) (x_first_proposals (co_verts k')) = Some t' ->
  exists t, top_round (x_dag (co_verts k)) (x_first_proposals (co_verts k)) = Some t /\ t' <= t.
Proof.
  intros (_ & Hr & Hp). unfold top_round, highest_round.
  destruct (max_key (rounds (x_dag (co_verts k')))) as [a|] eqn:E1;
    [destruct (max_key_le _ _ a Hr E1) as (a' & -> & ?)|];
    (destruct (max_key (x_first_proposals (co_verts k'))) as [b|] eqn:E2;
      [destruct (max_key_le _ _ b Hp E2) as (b' & -> & ?)|]); intros [=]; subst.
  - eexists. split; [done|]. lia.
  - destruct (max_key (x_first_proposals (co_verts k))); eexists; (split; [done|]); lia.
  - destruct (max_key (rounds (x_dag (co_verts k)))); eexists; (split; [done|]); lia.
Qed.

(** The slots decided are those from the next one to the round below the top. *)
Lemma decisions_elem k s : s ∈ (decisions draw_hash k).*1 <->
  exists t, top_round (x_dag (co_verts k)) (x_first_proposals (co_verts k)) = Some t /\
    ~ slot_lt s (o_next_slot (co_ord k)) /\ s.1 + 1 <= t /\ (s.2 < sc_slots (o_schedule (co_ord k)))%nat.
Proof.
  unfold decisions, decide_slots. destruct (top_round _ _) as [t|]; [|split; [by intros ?%elem_of_nil|by intros (? & ? & _)]].
  unfold checked_sub. destruct (N.leb_spec 1 t).
  - rewrite decide_down_keys, list_elem_of_filter, slots_between_elem. unfold slot_lt. split.
    + intros (? & ? & ?). exists t. split_and!; try done; lia.
    + intros (t' & [= <-] & ? & ? & ?). split; [done|]. split; [|done]. destruct s as [r i]. cbn in *. lia.
  - split; [by intros ?%elem_of_nil|]. intros (t' & [= <-] & _ & ? & _). lia.
Qed.

Lemma decisions_nodup k : NoDup (decisions draw_hash k).*1.
Proof.
  unfold decisions, decide_slots. destruct (top_round _ _) as [t|]; [|constructor].
  destruct (checked_sub t 1) as [hi|]; [|constructor]. rewrite decide_down_keys.
  apply NoDup_filter. pose proof (slots_between_sorted (sc_slots (o_schedule (co_ord k))) (o_next_slot (co_ord k)).1 hi) as H.
  induction H as [|x l _ IH HF]; [constructor|]. constructor; [|done].
  intros Hx. rewrite Forall_forall in HF. specialize (HF x Hx). unfold slot_lt in HF. lia.
Qed.

Lemma decisions_fewer k k' slot : slot ∈ (decisions draw_hash k).*1 -> shrinks k k' ->
  o_next_slot (co_ord k') = slot_after (sc_slots (o_schedule (co_ord k))) slot ->
  (length (decisions draw_hash k') < length (decisions draw_hash k))%nat.
Proof.
  intros Hs Hk Hn. rewrite <-(length_fmap fst (decisions draw_hash k')), <-(length_fmap fst (decisions draw_hash k)).
  assert (slot :: (decisions draw_hash k').*1 ⊆+ (decisions draw_hash k).*1) as Hsub%submseteq_length; [|cbn in Hsub; lia].
  pose proof Hs as (t & Ht & Hge & _ & Hlt)%decisions_elem.
  assert (forall s, s ∈ (decisions draw_hash k').*1 -> s ∈ (decisions draw_hash k).*1 /\ slot_lt slot s) as Hin.
  { intros s (t' & Ht' & Hge' & Hle' & Hlt')%decisions_elem.
    destruct (top_round_le k k' t' Hk Ht') as (t0 & Ht0 & Hle0).
    assert (slot_lt slot s) as Hls.
    { rewrite Hn in Hge'. unfold slot_after in Hge'. destruct slot as [r i], s as [r' i'].
      destruct Hk as [Hsl _]. unfold slot_lt in *. cbn [fst snd] in *.
      destruct (Nat.eqb_spec (i + 1) (sc_slots (o_schedule (co_ord k)))); cbn [fst snd] in *; lia. }
    split; [|done]. apply decisions_elem. exists t0. rewrite (proj1 Hk) in Hlt'.
    split_and!; try done; [|lia]. intros H. apply Hge. by etrans. }
  apply NoDup_submseteq.
  - constructor; [|apply decisions_nodup]. intros H. apply Hin in H as [_ H]. unfold slot_lt in H. lia.
  - intros s [->|H]%elem_of_cons; [done|by apply Hin].
Qed.

Lemma try_commit_loop_total n k : (length (decisions draw_hash k) <= n)%nat ->
  exists k', forall fuel, (n < fuel)%nat -> try_commit_loop fuel k = Some k'.
Proof.
  revert k. induction n as [n IH] using lt_wf_ind. intros k Hn.
  destruct (o_halted (co_ord k)) eqn:Hh.
  { exists k. intros [|fuel] Hf; [lia|]. cbn [Order.try_commit_loop]. by rewrite Hh. }
  destruct (take_decisions (draw_leaders draw_hash k) (decisions draw_hash k)) as [k1 again] eqn:Ht.
  destruct again.
  - destruct (take_decisions_again _ _ _ Ht) as (slot & Hin & Hs & Hnext).
    pose proof (draw_leaders_settles k) as Hd. rewrite (se_slots _ _ Hd) in Hnext.
    assert (length (decisions draw_hash k1) < n)%nat as Hlt.
    { eapply Nat.lt_le_trans; [|exact Hn]. eapply decisions_fewer; [done| |done].
      etrans; [apply settles_shrinks, Hd|done]. }
    destruct (IH _ Hlt k1 (Nat.le_refl _)) as [k' Hk']. exists k'. intros [|fuel] Hf; [lia|].
    cbn [Order.try_commit_loop]. rewrite Hh, Ht. apply Hk'. lia.
  - exists k1. intros [|fuel] Hf; [lia|]. cbn [Order.try_commit_loop]. by rewrite Hh, Ht.
Qed.
End ends.

(** C29: The commit loop ends: each pass that goes round again has taken a slot
    off the decisions, so with more passes than decisions it returns, and what
    it returns no longer depends on the bound. *)
Theorem try_commit_terminates draw_hash seed_hash order_hash ordering_digest cp_digest root_of k fuel :
  (length (decisions draw_hash k) < fuel)%nat ->
  try_commit_loop draw_hash seed_hash order_hash ordering_digest cp_digest root_of fuel k =
    Some (try_commit draw_hash seed_hash order_hash ordering_digest cp_digest root_of k).
Proof.
  intros Hf. unfold try_commit.
  destruct (try_commit_loop_total draw_hash seed_hash order_hash ordering_digest cp_digest root_of _ k
    (Nat.le_refl _)) as [k' Hk].
  rewrite !Hk by lia. done.
Qed.

(** ** A small epoch

    Four validators of one seat; in every round each references all vertices
    of the round before and introduces one batch of 600 transactions. *)

Definition demo_dig (r : Round) (s : ValidatorIndex) : Digest := 1 + 10 * r + N.of_nat s.
Definition demo_batch (r : Round) (s : ValidatorIndex) : BatchRef :=
  mkBatchRef r (1000 + demo_dig r s) 4 600.
Definition demo_payload (r : Round) (s : ValidatorIndex) : BatchPayload := mkPayload 0 s r 600 [].
Definition demo_vertex (r : Round) (s : ValidatorIndex) : Vertex :=
  mkVertex 0 r s (if r =? 0 then [] else (fun j => mkRef (r - 1) j (demo_dig (r - 1) j)) <$> seq 0 4) []
    [demo_batch r s] [] (100 * r + N.of_nat s).
Definition demo_rounds : list (Round * ValidatorIndex) :=
  r ← [0; 1; 2; 3; 4]; (fun s => (r, s)) <$> seq 0 4.
Definition demo_digest (v : Vertex) : Digest := demo_dig (v_round v) (v_source v).
Definition demo_dag : Dag :=
  foldl (fun g p => let v := demo_vertex p.1 p.2 in
                    (offer demo_digest (expect g (demo_digest v) (v_round v)) v).1.1)
    (with_vouching [1; 1; 1; 1] 2) demo_rounds.

Definition demo_config : CoreConfig := mkConfig 1 9 1000 50 1 90 3 8 10 2 1 100 100.
Definition demo_start : EpochStart := mkStart 1 1 77 0 [(0, 500, 600)] 2.
Definition demo_result (h : N) : Digest * Digest * list Digest := (500 + h, 600 + h, []).
Definition demo_root (l : list Digest) : Digest := foldl (fun a x => a * 31 + x) 7 l.
Definition demo_cp_digest (cp : Checkpoint) : Digest := cp_index cp * 1000 + cp_blocks_root cp mod 1000.
Definition demo_order (a i l d : N) : Digest := a + i + l + d.
Definition demo_state (o : OrderingState) : Digest := or_index o * 7 + or_next_height o.

Abbreviation demo_step f := (f sample_hash (fun d => d + 1) demo_order demo_state demo_cp_digest demo_root)
  (only parsing).

Definition demo_core : Core := core_new demo_config four_seats 0 demo_start 5.

(** The DAG delivered and the payloads held. *)
Definition demo_filled : Core :=
  let x := co_verts demo_core in
  let b := co_bat demo_core in
  with_verts
    (with_bat demo_core
       (mkBat (b_availability b)
          (list_to_map ((fun p => (1000 + demo_dig p.1 p.2, demo_payload p.1 p.2)) <$> demo_rounds))
          ∅ [] ∅ ∅ ∅ (b_waiting b) ∅ 0))
    (mkVerts demo_dag (x_rbc x) ∅ ∅ ∅ ∅ ∅ ∅).

Definition demo_committed : Core := demo_step try_commit demo_filled.

(** The blocks released, the next committee known and every block executed. *)
Definition demo_released : Core :=
  set_next_committee_root demo_cp_digest demo_root (release_segments demo_committed) 888.
Definition demo_execute (k : Core) (h : N) : Core :=
  on_executed demo_cp_digest demo_root k h (demo_result h).1.1 (demo_result h).1.2 (demo_result h).2.
Definition demo_done : Core := foldl demo_execute demo_released (heights 1 13).

Abbreviation demo_run := (demo_step core_run demo_result demo_core) (only parsing).

Lemma demo_run_done : demo_run demo_done.
Proof.
  assert (demo_run demo_released) as H.
  { eapply run_step; [|apply core_root]. eapply run_step; [|apply core_release].
    eapply run_step; [|apply core_commit]. eapply run_step; [apply run_start|]. apply core_other.
    split; try done. exists []. by rewrite app_nil_r. }
  unfold demo_done. generalize (heights 1 13) as hs. intros hs. revert H. generalize demo_released as k.
  induction hs as [|h hs IH]; intros k H; cbn [foldl]; [done|]. apply IH.
  eapply run_step; [exact H|]. by apply (core_executed _ _ _ _ _ _ _ _ h (demo_result h)).
Qed.

Lemma demo_start_ok : StartOk demo_result demo_start.
Proof. split; cbn; try lia. repeat constructor. Qed.

Lemma ordered_log_witness :
  length (blocks (emitted demo_done)) = 13%nat /\
  ends (log_of demo_done) = 1%nat /\
  (blocks (emitted demo_done)).*1 = (fun i => wadd64 1 (N.of_nat i)) <$> seq 0 (length (blocks (emitted demo_done))).
Proof.
  pose proof (ordered_log _ _ _ _ _ _ _ _ _ _ _ _ _ demo_start_ok demo_run_done) as (_ & He & _ & _ & Hc).
  split_and!; [vm_compute; reflexivity| |exact He].
  rewrite Hc. vm_compute. reflexivity.
Defined.

Lemma signed_chain_witness :
  length (signed demo_done) = 2%nat /\ chained demo_cp_digest 77 (signed demo_done).
Proof.
  split; [vm_compute; reflexivity|].
  refine (proj1 (signed_chain _ _ _ _ _ _ _ _ _ _ _ _ _ demo_start_ok demo_run_done _)).
  vm_compute. reflexivity.
Defined.

Lemma try_commit_terminates_witness :
  length (decisions sample_hash demo_filled) = 4%nat /\
  demo_step try_commit_loop 5%nat demo_filled = Some demo_committed.
Proof.
  assert (length (decisions sample_hash demo_filled) = 4%nat) as Hl by (vm_compute; reflexivity).
  split; [exact Hl|]. unfold demo_committed. apply try_commit_terminates. rewrite Hl. lia.
Defined.

(** A core that halted because its two verifiers disagree orders nothing more,
    and still signs the checkpoints already decided once their blocks are
    executed. *)
Theorem disagreement_still_signs :
  let k := on_disagreement demo_released 1 in
  o_halted (co_ord k) = true /\ signed k = [] /\
  length (signed (foldl demo_execute k (heights 1 13))) = 2%nat.
Proof. vm_compute. done. Qed.

(** A batch whose author declares more transactions than a block holds makes a
    block above the limit: nothing on the way of another validator's batch
    compares its count with the limit. *)
Theorem oversized_batch_oversizes_block :
  chunk_txs <$> block_chunks [mkOrdered (mkBatchRef 0 7 4 5000) 2 0] MAX_TRANSACTIONS_PER_BLOCK = [5000].
Proof. vm_compute. done. Qed.
