(* ===== verification/Lockstep.v ===== *)
(** Two validators that make the same decisions stay in lockstep.

    What [Order.commit] does to the ordering state is a function of that state
    and the committed leader: it does not depend on how far a validator has
    drawn the schedule ahead, which payloads it holds, how far it has executed,
    or which further vertices its DAG holds. *)

From stdpp Require Import prelude gmap list sorting.
From Stdlib Require Import NArith ZArith Lia.
From S2P Require Import Prelude Committee Checkpoint Merkle Rbc Vertex Dag DagWalk Schedule Commit Batch Order OrderLog.

(** ** The schedule apart from its cache *)

(** What of a schedule its exported state holds: everything but the draws
    cached beyond the base. *)
Definition sched_core (s : Schedule)
  : Round * list Entry * list (ValidatorIndex * bool) * nat * option (Round * list Z) :=
  (sc_lookahead s, sc_entries s, sc_outcomes s, sc_slots s, head (dr_snapshots (sc_drawn s))).

(** Snapshots are at the base and at the multiples of [SNAPSHOT_EVERY], and
    every multiple drawn has one. *)
Record CacheOk (d : Drawn) (n : nat) : Prop := {
  ca_kind : Forall (fun p => p.1 = dr_base d \/ p.1 mod SNAPSHOT_EVERY = 0) (dr_snapshots d);
  ca_every r : dr_base d < r < dr_base d + N.of_nat n -> r mod SNAPSHOT_EVERY = 0 ->
    r ∈ (dr_snapshots d).*1;
}.

Section schedule.
Context (draw_hash : Digest -> Round -> nat -> N).

Definition SchedOk (s : Schedule) (n : nat) : Prop :=
  exists c0, ScheduleOk draw_hash s c0 n /\ CacheOk (sc_drawn s) n.

Lemma draw_cache_ok entries d c0 n :
  DrawnOk draw_hash entries d c0 n -> CacheOk d n ->
  CacheOk (draw draw_hash d (entry_for entries (next_round d))) (S n).
Proof.
  intros Hok [Hk He]. pose proof (drawn_next _ _ _ _ _ Hok) as Hn. unfold draw. rewrite Hn.
  destruct (draw_round _ _ _ _ _) as [cr new].
  set (r0 := dr_base d + N.of_nat n).
  assert (r0 mod SNAPSHOT_EVERY = 0 -> match last (dr_snapshots d) with Some (r, _) => r <? r0 | None => true end = false ->
    r0 ∈ (dr_snapshots d).*1) as Hlast.
  { intros _. destruct (last (dr_snapshots d)) as [[r cr0]|] eqn:El; [|done]. intros Hge%N.ltb_ge.
    apply last_Some_elem_of in El. pose proof (do_snapshots _ _ _ _ _ Hok) as HF. rewrite Forall_forall in HF.
    destruct (HF _ El) as [Hle _]. cbn in Hle. apply list_elem_of_fmap. exists (r, cr0). split; [|done].
    cbn. unfold r0 in *. lia. }
  split; cbn [dr_base dr_snapshots].
  - destruct (_ && _) eqn:E; [|done]. apply Forall_app. split; [done|]. apply Forall_singleton. right.
    apply andb_true_iff in E as [E _]. by apply N.eqb_eq in E.
  - intros r Hr Hm. destruct (decide (r = r0)) as [->|Hne].
    + destruct (N.eqb_spec (r0 mod SNAPSHOT_EVERY) 0) as [_|]; [|done]. cbn [andb].
      destruct (match last _ with Some _ => _ | None => _ end) eqn:E; [|by apply Hlast].
      rewrite fmap_app. apply elem_of_app. right. left.
    + assert (r ∈ (dr_snapshots d).*1) as Hin by (apply He; [unfold r0 in *; lia|done]).
      destruct (_ && _); [|done]. rewrite fmap_app. apply elem_of_app. by left.
Qed.

Lemma draw_head entries d c0 n e :
  DrawnOk draw_hash entries d c0 n -> head (dr_snapshots (draw draw_hash d e)) = head (dr_snapshots d).
Proof.
  intros Hok. unfold draw. destruct (draw_round _ _ _ _ _) as [cr new]. cbn.
  pose proof (do_head _ _ _ _ _ Hok) as Hh. destruct (dr_snapshots d); [done|]. by destruct (_ && _).
Qed.

Lemma draw_rounds_cache k entries d c0 n :
  DrawnOk draw_hash entries d c0 n -> CacheOk d n ->
  CacheOk (draw_rounds draw_hash k entries d) (n + k) /\
  head (dr_snapshots (draw_rounds draw_hash k entries d)) = head (dr_snapshots d).
Proof.
  revert d n. induction k as [|k IH]; intros d n Hok Hc; cbn [draw_rounds].
  { by rewrite Nat.add_0_r. }
  rewrite Nat.add_succ_r, <-Nat.add_succ_l.
  destruct (IH _ _ (draw_ok _ _ _ _ _ Hok) (draw_cache_ok _ _ _ _ Hok Hc)) as [H1 H2].
  split; [done|]. rewrite H2. by eapply draw_head.
Qed.

(** Asking for a leader draws, and changes nothing else. *)
Lemma leader_core s n r i : SchedOk s n ->
  sched_core (leader draw_hash s r i).1 = sched_core s /\
  exists n', SchedOk (leader draw_hash s r i).1 n' /\ (n <= n')%nat /\
    (dr_base (sc_drawn s) <= r -> r < dr_base (sc_drawn s) + N.of_nat n').
Proof.
  intros (c0 & [Hok Hex] & Hc). unfold leader, SchedOk, ScheduleOk. pose proof (drawn_next _ _ _ _ _ Hok) as Hn.
  destruct (N.ltb_spec r (dr_base (sc_drawn s))) as [Hr|Hr].
  - destruct (dr_leaders (sc_drawn s)) eqn:El; cbn [fst].
    + assert (n = 0%nat) as ->.
      { pose proof (replay_length draw_hash n (sc_entries s) (dr_slots (sc_drawn s)) (dr_base (sc_drawn s)) c0) as Hl.
        rewrite <-(do_draws _ _ _ _ _ Hok), El in Hl. pose proof (do_slots _ _ _ _ _ Hok). cbn in Hl. nia. }
      assert (next_round (sc_drawn s) = dr_base (sc_drawn s)) as Hnb by lia.
      pose proof (draw_ok _ _ _ _ _ Hok) as Hok'. pose proof (draw_cache_ok _ _ _ _ Hok Hc) as Hc'.
      pose proof (draw_head _ _ _ _ (entry_for (sc_entries s) (next_round (sc_drawn s))) Hok) as Hh.
      destruct (draw_same draw_hash (sc_drawn s) (entry_for (sc_entries s) (next_round (sc_drawn s)))) as [Hs Hb].
      rewrite Hnb in *. split.
      * unfold sched_core, sc_slots. cbn. by rewrite Hs, Hh.
      * exists 1%nat. split_and!; [|lia|lia]. exists c0. cbn [sc_entries sc_drawn]. by rewrite Hb.
    + split; [done|]. exists n. split_and!; [by exists c0|lia|lia].
  - cbn [fst]. set (k := N.to_nat _).
    destruct (draw_rounds_ok draw_hash k _ _ _ _ Hok) as (Hok' & Hs & Hb).
    destruct (draw_rounds_cache k _ _ _ _ Hok Hc) as (Hc' & Hh). split.
    + unfold sched_core, sc_slots. cbn. by rewrite Hs, Hh.
    + exists (n + k)%nat. split_and!; [|lia|unfold k; lia]. exists c0. cbn [sc_entries sc_drawn]. by rewrite Hb.
Qed.

(** The leaders a schedule draws, from its core alone. *)
Definition canon (core : Round * list Entry * list (ValidatorIndex * bool) * nat * option (Round * list Z))
    (r : Round) (i : nat) : ValidatorIndex :=
  let '(_, es, _, slots, h) := core in
  match h with
  | Some (base, c0) => drawn_leader draw_hash es slots base c0 (N.max r base) (Nat.min i (slots - 1))
  | None => 0%nat
  end.

Lemma leader_canon s n r i : SchedOk s n -> leader_of draw_hash s r i = canon (sched_core s) r i.
Proof.
  intros (c0 & Hs & Hc). pose proof Hs as [Hok Hex]. unfold canon, sched_core.
  rewrite (do_head _ _ _ _ _ Hok). destruct (N.ltb_spec r (dr_base (sc_drawn s))) as [Hr|Hr].
  - replace (N.max r (dr_base (sc_drawn s))) with (dr_base (sc_drawn s)) by lia.
    unfold leader_of, leader. rewrite (proj2 (N.ltb_lt _ _) Hr). cbn [snd].
    assert (exists d m, DrawnOk draw_hash (sc_entries s) d c0 (S m) /\ dr_slots d = dr_slots (sc_drawn s) /\
      dr_base d = dr_base (sc_drawn s) /\
      match dr_leaders (sc_drawn s) with
      | [] => draw draw_hash (sc_drawn s) (entry_for (sc_entries s) (dr_base (sc_drawn s)))
      | _ => sc_drawn s end = d) as (d & m & Hd & Hsl & Hb & ->).
    { pose proof (replay_length draw_hash n (sc_entries s) (dr_slots (sc_drawn s)) (dr_base (sc_drawn s)) c0) as Hl.
      rewrite <-(do_draws _ _ _ _ _ Hok) in Hl. cbn [snd] in Hl. pose proof (do_slots _ _ _ _ _ Hok).
      destruct (dr_leaders (sc_drawn s)) as [|x ls] eqn:El.
      - assert (n = 0%nat) as -> by (cbn in Hl; nia). pose proof (drawn_next _ _ _ _ _ Hok) as Hn.
        assert (next_round (sc_drawn s) = dr_base (sc_drawn s)) as Hnb by lia.
        destruct (draw_same draw_hash (sc_drawn s) (entry_for (sc_entries s) (next_round (sc_drawn s)))) as [? ?].
        exists (draw draw_hash (sc_drawn s) (entry_for (sc_entries s) (next_round (sc_drawn s)))), 0%nat.
        split_and!; try done; [by apply draw_ok|by rewrite Hnb].
      - destruct n as [|m]; [done|]. by exists (sc_drawn s), m. }
    unfold drawn_leader, sc_slots. rewrite N.sub_diag. cbn [N.to_nat Nat.mul Nat.add]. f_equal.
    destruct Hd as [Hpos Hdr _ _ _]. rewrite Hsl, Hb in Hdr. apply (f_equal snd) in Hdr. cbn [snd] in Hdr. rewrite Hdr.
    destruct (replay_prefix draw_hash 1 (S m) (sc_entries s) (dr_slots (sc_drawn s)) (dr_base (sc_drawn s)) c0) as [rest ->]; [lia|].
    rewrite lookup_app_l; [done|]. rewrite replay_length. rewrite Hsl in Hpos. lia.
  - replace (N.max r (dr_base (sc_drawn s))) with r by lia. by apply (leader_drawn _ _ c0 n).
Qed.

Lemma rposition_last {A} (f : A -> bool) l j x :
  l !! j = Some x -> f x = true -> exists i, rposition f l = Some i /\ (j <= i)%nat.
Proof.
  revert j. induction l as [|y l IH]; intros j Hj Hf; [done|]. cbn [rposition]. destruct j as [|j].
  - injection Hj as ->. destruct (rposition f l); [eexists; split; [done|lia]|]. rewrite Hf. by eexists.
  - destruct (IH j Hj Hf) as (i & -> & Hle). eexists. split; [done|lia].
Qed.

Lemma truncate_cache_ok entries d c0 n round :
  DrawnOk draw_hash entries d c0 n -> CacheOk d n ->
  CacheOk (truncate d round entries) (Nat.min n (N.to_nat (round - dr_base d))).
Proof.
  intros Hok [Hk He]. pose proof (drawn_next _ _ _ _ _ Hok) as Hn. unfold truncate. rewrite Hn.
  destruct (N.leb_spec (dr_base d + N.of_nat n) round) as [Hle|Hlt].
  { replace (Nat.min _ _) with n by lia. by split. }
  destruct (last _) as [[from credit]|] eqn:El.
  - split; cbn [dr_base dr_snapshots].
    + apply Forall_forall. intros p [_ Hp]%list_elem_of_filter. rewrite Forall_forall in Hk. by apply Hk.
    + intros r Hr Hm. assert (r ∈ (dr_snapshots d).*1) as Hin by (apply He; [lia|done]).
      apply list_elem_of_fmap in Hin as (p & -> & Hp). apply list_elem_of_fmap. exists p. split; [done|].
      apply list_elem_of_filter. split; [lia|done].
  - split; [done|]. intros r Hr Hm. apply He; [lia|done].
Qed.

(** Pruning moves the base to the last snapshot round at or below the round. *)
Lemma prune_base_spec entries d c0 n round :
  DrawnOk draw_hash entries d c0 n -> CacheOk d n -> dr_base d <= round ->
  let d' := drawn_prune_below d round in
  (dr_base d' = dr_base d \/ dr_base d' mod SNAPSHOT_EVERY = 0) /\ dr_base d' <= round /\
  (forall r, dr_base d < r < dr_base d + N.of_nat n -> r <= round -> r mod SNAPSHOT_EVERY = 0 -> r <= dr_base d') /\
  forall k, dr_base d' = dr_base d + N.of_nat k -> (k <= n)%nat -> CacheOk d' (n - k).
Proof.
  intros Hok [Hk He] Hb d'.
  pose proof (do_head _ _ _ _ _ Hok) as Hh. pose proof (do_sorted _ _ _ _ _ Hok) as Hso.
  destruct (rposition_last (fun p => p.1 <=? round) (dr_snapshots d) 0 (dr_base d, c0)) as (keep & Hpos & _).
  { destruct (dr_snapshots d); [done|]. by injection Hh as ->. }
  { by apply N.leb_le. }
  destruct (rposition_Some _ _ _ Hpos) as ([b cr] & Hp & Hle). cbn in Hle. apply N.leb_le in Hle.
  assert (d' = mkDrawn (dr_slots d) b (drop (N.to_nat (b - dr_base d) * dr_slots d) (dr_leaders d))
    (dr_credit d) ((b, cr) :: drop (S keep) (dr_snapshots d))) as Hd.
  { unfold d', drawn_prune_below. rewrite Hpos. cbn [default from_option id]. by rewrite (drop_S _ _ _ Hp). }
  clearbody d'. subst d'. cbn [dr_base dr_snapshots].
  rewrite Forall_forall in Hk. pose proof (Hk _ (list_elem_of_lookup_2 _ _ _ Hp)) as Hkb. cbn in Hkb.
  assert (dr_snapshots d = take keep (dr_snapshots d) ++ (b, cr) :: drop (S keep) (dr_snapshots d)) as Hsp.
  { symmetry. by apply take_drop_middle. }
  rewrite Hsp in Hso. apply StronglySorted_app in Hso as (Hpre & _ & Hpost%StronglySorted_cons).
  destruct Hpost as [Hpost _]. rewrite Forall_forall in Hpost.
  assert (forall p, p ∈ dr_snapshots d -> b < p.1 -> p ∈ drop (S keep) (dr_snapshots d)) as Hafter.
  { intros p Hin Hlt. rewrite Hsp in Hin. apply elem_of_app in Hin as [Hin|Hin].
    - specialize (Hpre p (b, cr) Hin (list_elem_of_here _ _)). cbn in Hpre. lia.
    - apply elem_of_cons in Hin as [->|Hin]; [cbn in Hlt; lia|done]. }
  split_and!; [done|done| |].
  - intros r Hr Hle' Hm. destruct (N.le_gt_cases r b) as [|Hgt]; [done|]. exfalso.
    specialize (He r Hr Hm). apply list_elem_of_fmap in He as (p & -> & Hin).
    apply Hafter in Hin; [|done]. apply list_elem_of_lookup in Hin as [j Hj]. rewrite lookup_drop in Hj.
    destruct (rposition_last (fun p => p.1 <=? round) _ _ _ Hj) as (i & Hi & Hji); [by apply N.leb_le|].
    rewrite Hpos in Hi. injection Hi as <-. lia.
  - intros k Hbk Hkn. split; cbn [dr_base dr_snapshots].
    + apply Forall_cons. split; [by left|]. apply Forall_forall. intros p Hin.
      pose proof (Hpost p Hin) as Hge. cbn in Hge.
      destruct (Hk p) as [Hp1|Hp1]; [rewrite Hsp; apply elem_of_app; right; by right|left; lia|by right].
    + intros r Hr Hm. right. fold (fmap (M := list) (@fst Round (list Z))).
      specialize (He r ltac:(lia) Hm). apply list_elem_of_fmap in He as (p & -> & Hin).
      apply list_elem_of_fmap. exists p. split; [done|]. apply Hafter; [done|lia].
Qed.

(** The cache after a checkpoint: its base is the last snapshot round at or
    below the anchor, whatever was drawn beyond it. *)
Lemma advance_drawn s c0 n anchor :
  ScheduleOk draw_hash s c0 n -> CacheOk (sc_drawn s) n ->
  dr_base (sc_drawn s) <= anchor < dr_base (sc_drawn s) + N.of_nat n ->
  let base := dr_base (sc_drawn s) in
  let d := drawn_prune_below (truncate (sc_drawn s) (anchor + sc_lookahead s + 1) (sc_entries s)) anchor in
  exists k m, dr_base d = base + N.of_nat k /\ dr_slots d = dr_slots (sc_drawn s) /\
    head (dr_snapshots d) =
      Some (dr_base d, (replay draw_hash k (sc_entries s) (dr_slots (sc_drawn s)) base c0).1) /\
    dr_base d <= anchor /\ (dr_base d = base \/ dr_base d mod SNAPSHOT_EVERY = 0) /\
    (forall r, base < r <= anchor -> r mod SNAPSHOT_EVERY = 0 -> r <= dr_base d) /\
    next_round d = dr_base d + N.of_nat m /\ CacheOk d m.
Proof.
  intros [Hok Hex] Hc Hb base d. set (from := anchor + sc_lookahead s + 1) in *.
  destruct (truncate_ok draw_hash _ _ _ _ from Hok) as (Hok1 & Hs1 & Hb1).
  pose proof (truncate_cache_ok _ _ _ _ from Hok Hc) as Hc1.
  set (d1 := truncate (sc_drawn s) from (sc_entries s)) in *.
  set (n1 := Nat.min n (N.to_nat (from - dr_base (sc_drawn s)))) in *.
  destruct (drawn_prune_ok draw_hash _ _ _ _ anchor Hok1) as (k & Hk & Hb2 & Hs2 & _ & Hok2).
  destruct (prune_base_spec _ _ _ _ anchor Hok1 Hc1) as (Hkind & Hle & Hmax & Hcache); [lia|].
  fold d in Hb2, Hs2, Hok2, Hkind, Hle, Hmax, Hcache. rewrite Hb1 in *. rewrite Hs1 in *.
  exists k, (n1 - k)%nat. split_and!; try done.
  - apply (do_head _ _ _ _ _ Hok2).
  - intros r Hr Hm. apply Hmax; [unfold n1, from; lia|lia|done].
  - apply (drawn_next _ _ _ _ _ Hok2).
  - by apply Hcache.
Qed.

Lemma record_outcome_sched s n l b : SchedOk s n -> SchedOk (record_outcome s l b) n.
Proof. done. Qed.

Lemma schedule_new_sched c seed slots lookahead : SchedOk (schedule_new c seed slots lookahead) 0.
Proof.
  eexists. split; [apply schedule_new_ok|]. split; cbn.
  - repeat constructor.
  - intros r Hr. lia.
Qed.

(** The exported state is the same for all. *)
Lemma export_core s1 n1 s2 n2 : SchedOk s1 n1 -> SchedOk s2 n2 -> sched_core s1 = sched_core s2 ->
  export s1 = export s2.
Proof.
  intros (c1 & Hok1 & _) (c2 & Hok2 & _) Heq. unfold sched_core in Heq. unfold export.
  pose proof (do_head _ _ _ _ _ (proj1 Hok1)) as H1. pose proof (do_head _ _ _ _ _ (proj1 Hok2)) as H2.
  rewrite H1, H2 in Heq. injection Heq as Hla Hes Hoc Hsl Hb Hc. unfold sc_slots in Hsl.
  destruct (dr_snapshots (sc_drawn s1)) as [|[b1 x1] ?], (dr_snapshots (sc_drawn s2)) as [|[b2 x2] ?]; try done.
  injection H1 as -> ->. injection H2 as -> ->. by rewrite Hla, Hes, Hoc, Hsl, Hb, Hc.
Qed.
(** The seed a checkpoint releases. *)
Context (seed_hash : Digest -> Digest).

(** Advancing at a checkpoint does not depend on how far the leaders beyond
    the anchor were drawn. *)
Lemma advance_core c s1 n1 s2 n2 anchor seed :
  SchedOk s1 n1 -> SchedOk s2 n2 -> sched_core s1 = sched_core s2 ->
  dr_base (sc_drawn s1) <= anchor ->
  anchor < dr_base (sc_drawn s1) + N.of_nat n1 -> anchor < dr_base (sc_drawn s2) + N.of_nat n2 ->
  sched_core (advance seed_hash c s1 anchor seed) = sched_core (advance seed_hash c s2 anchor seed).
Proof.
  intros (c1 & Hok1 & Hc1) (c2 & Hok2 & Hc2) Heq Hb Hn1 Hn2.
  unfold sched_core in Heq. rewrite (do_head _ _ _ _ _ (proj1 Hok1)), (do_head _ _ _ _ _ (proj1 Hok2)) in Heq.
  injection Heq as Hla Hes Hoc Hsl Hbase Hcr. unfold sc_slots in Hsl. subst c2.
  destruct (advance_drawn s1 c1 n1 anchor Hok1 Hc1) as (k1 & m1 & B1 & S1 & H1 & L1 & K1 & M1 & _); [lia|].
  destruct (advance_drawn s2 c1 n2 anchor Hok2 Hc2) as (k2 & m2 & B2 & S2 & H2 & L2 & K2 & M2 & _); [lia|].
  rewrite <-Hla, <-Hes in *. unfold advance, sched_core, sc_slots. cbn [sc_lookahead sc_entries sc_outcomes sc_drawn].
  rewrite <-Hla, <-Hes, <-Hoc. rewrite H1, H2, S1, S2, <-Hsl.
  set (d1 := drawn_prune_below (truncate (sc_drawn s1) _ _) anchor) in *.
  set (d2 := drawn_prune_below (truncate (sc_drawn s2) _ _) anchor) in *.
  assert (dr_base d1 = dr_base d2) as Hd.
  { rewrite <-Hbase in *. destruct K1 as [K1|K1], K2 as [K2|K2].
    - lia.
    - destruct (decide (dr_base d2 = dr_base (sc_drawn s1))) as [|]; [lia|].
      specialize (M1 (dr_base d2) ltac:(lia) K2). lia.
    - destruct (decide (dr_base d1 = dr_base (sc_drawn s1))) as [|]; [lia|].
      specialize (M2 (dr_base d1) ltac:(lia) K1). lia.
    - destruct (decide (dr_base d2 = dr_base (sc_drawn s1))) as [|].
      + destruct (decide (dr_base d1 = dr_base (sc_drawn s1))) as [|]; [lia|].
        specialize (M2 (dr_base d1) ltac:(lia) K1). lia.
      + specialize (M1 (dr_base d2) ltac:(lia) K2).
        destruct (decide (dr_base d1 = dr_base (sc_drawn s1))) as [|]; [lia|].
        specialize (M2 (dr_base d1) ltac:(lia) K1). lia. }
  assert (k1 = k2) as <- by lia. by rewrite Hd, <-Hbase.
Qed.

Lemma advance_sched_ok c s n anchor seed :
  SchedOk s n -> dr_base (sc_drawn s) <= anchor < dr_base (sc_drawn s) + N.of_nat n ->
  exists m, SchedOk (advance seed_hash c s anchor seed) m /\
    dr_base (sc_drawn (advance seed_hash c s anchor seed)) <= anchor.
Proof.
  intros (c0 & Hok & Hc) Hb.
  destruct (advance_ok draw_hash seed_hash c s anchor seed c0 n Hok) as (Hbase & (c1 & m' & Hok') & _); [lia|].
  destruct (advance_drawn s c0 n anchor Hok Hc Hb) as (k & m & _ & _ & _ & _ & _ & _ & Hn & Hc').
  exists m'. split; [|lia]. exists c1. split; [done|].
  pose proof (drawn_next _ _ _ _ _ (proj1 Hok')) as Hn'.
  change (sc_drawn (advance seed_hash c s anchor seed))
    with (drawn_prune_below (truncate (sc_drawn s) (anchor + sc_lookahead s + 1) (sc_entries s)) anchor) in *.
  assert (m = m') as <- by lia. done.
Qed.
End schedule.

(** ** What two DAGs share *)

Section views.
Context (c : Committee) (faulty : ValidatorIndex -> bool) (digest : Vertex -> Digest).
Context (U : Round -> ValidatorIndex -> option (Digest * Vertex)).

(** Delivered vertices are told apart by their digests, and weak references are
    labelled as strong ones are. *)
Record UniverseBinds : Prop := {
  ub_universe : UniverseOk c faulty digest U;
  ub_digest r s r' s' d v v' : U r s = Some (d, v) -> U r' s' = Some (d, v') -> v = v';
  ub_weak r s d v ref : U r s = Some (d, v) -> ref ∈ v_weak v -> labelled digest ref;
}.

Context (HB : UniverseBinds).
Abbreviation ViewOk := (Commit.ViewOk faulty digest U).

Lemma get_agree g1 fp1 lo1 g2 fp2 lo2 d v1 v2 :
  ViewOk g1 fp1 lo1 -> ViewOk g2 fp2 lo2 -> get g1 d = Some v1 -> get g2 d = Some v2 -> v1 = v2.
Proof.
  intros V1 V2 H1 H2. eapply (ub_digest HB).
  - eapply u_at; [exact V1|exact H1].
  - eapply u_at; [exact V2|exact H2].
Qed.

Lemma view_ref_labelled g fp lo d v ref :
  ViewOk g fp lo -> get g d = Some v -> ref ∈ refs_of v -> labelled digest ref.
Proof.
  intros V Hg [Hr|Hr]%elem_of_app; pose proof (u_at _ _ _ _ _ _ _ _ V Hg) as Hu.
  - by eapply (u_labelled _ _ _ _ (ub_universe HB)).
  - by eapply (ub_weak HB).
Qed.

(** A reference is followed exactly when it is at or above the floor. *)
Lemma view_ref g fp lo d v ref :
  ViewOk g fp lo -> get g d = Some v -> ref ∈ refs_of v ->
  is_Some (get g (r_digest ref)) <-> dag_floor g <= r_round ref.
Proof.
  intros V Hg Hr. pose proof (view_ref_labelled _ _ _ _ _ _ V Hg Hr) as Hl. split.
  - intros [w Hw]. destruct (get_stored _ _ _ _ _ (view_wf _ _ _ _ _ _ V) Hw) as (_ & _ & Hd & Hf & _).
    by rewrite <-(proj1 (Hl w Hd)).
  - intros Hf. apply (by_digest_get digest (fun _ => True)); [apply V|].
    by eapply (dw_closed _ _ _ (view_wf _ _ _ _ _ _ V)).
Qed.

Lemma ref_agree g1 fp1 lo1 g2 fp2 lo2 d v ref :
  ViewOk g1 fp1 lo1 -> ViewOk g2 fp2 lo2 -> dag_floor g1 = dag_floor g2 ->
  get g1 d = Some v -> get g2 d = Some v -> ref ∈ refs_of v ->
  get g1 (r_digest ref) = get g2 (r_digest ref).
Proof.
  intros V1 V2 Hf H1 H2 Hr. pose proof (view_ref _ _ _ _ _ _ V1 H1 Hr) as R1.
  pose proof (view_ref _ _ _ _ _ _ V2 H2 Hr) as R2. rewrite Hf in R1.
  destruct (get g1 (r_digest ref)) as [w1|] eqn:E1, (get g2 (r_digest ref)) as [w2|] eqn:E2; try done.
  - f_equal. by eapply (get_agree g1 fp1 lo1 g2 fp2 lo2).
  - destruct (proj2 R2) as [? ?]; [apply R1; by eexists|done].
  - destruct (proj2 R1) as [? ?]; [apply R2; by eexists|done].
Qed.

Lemma history_agree g1 fp1 lo1 g2 fp2 lo2 root v skip d :
  ViewOk g1 fp1 lo1 -> ViewOk g2 fp2 lo2 -> dag_floor g1 = dag_floor g2 ->
  get g1 root = Some v -> get g2 root = Some v ->
  in_history g1 root skip d -> in_history g2 root skip d /\ get g1 d = get g2 d.
Proof.
  intros V1 V2 Hf H1 H2. unfold in_history. induction 1 as [d Hd Hs|d e Hd [IH Hg] He Hs].
  - apply list_elem_of_singleton in Hd as ->. split; [|congruence]. apply wr_root; [left|done].
  - unfold history_next in He. destruct (get g1 d) as [w|] eqn:Ew; [|by apply elem_of_nil in He].
    pose proof He as (ref & -> & [Hr Hin]%list_elem_of_filter)%list_elem_of_fmap. split.
    + eapply wr_next; [exact IH| |done]. unfold history_next. by rewrite <-Hg, <-Hf.
    + by eapply (ref_agree g1 fp1 lo1 g2 fp2 lo2 d w).
Qed.

#[local] Instance ref_le_antisymm : AntiSymm (=) ref_le.
Proof.
  intros [r s d] [r' s' d']. unfold ref_le. cbn. intros H1 H2.
  assert (r = r') by lia. assert (s = s') by lia. assert (d = d') by lia. congruence.
Qed.

Lemma causal_history_agree g1 fp1 lo1 g2 fp2 lo2 root v skip :
  ViewOk g1 fp1 lo1 -> ViewOk g2 fp2 lo2 -> dag_floor g1 = dag_floor g2 ->
  get g1 root = Some v -> get g2 root = Some v ->
  causal_history g1 root skip = causal_history g2 root skip /\
  forall x, x ∈ causal_history g1 root skip -> get g1 (r_digest x) = get g2 (r_digest x).
Proof.
  intros V1 V2 Hf H1 H2.
  destruct (causal_history_walk digest _ g1 root skip (view_wf _ _ _ _ _ _ V1)) as (_ & S1 & N1 & E1).
  destruct (causal_history_walk digest _ g2 root skip (view_wf _ _ _ _ _ _ V2)) as (_ & S2 & N2 & E2).
  split.
  - eapply (StronglySorted_unique ref_le); [done|done|]. apply NoDup_Permutation; [done|done|].
    intros x. rewrite E1, E2. split; intros (Hh & w & Hg & Hx).
    + destruct (history_agree _ _ _ _ _ _ _ _ _ _ V1 V2 Hf H1 H2 Hh) as [Hh' Heq]. rewrite Heq in Hg. eauto.
    + destruct (history_agree _ _ _ _ _ _ _ _ _ _ V2 V1 (eq_sym Hf) H2 H1 Hh) as [Hh' Heq]. rewrite Heq in Hg. eauto.
  - intros x [Hh _]%E1. by destruct (history_agree _ _ _ _ _ _ _ _ _ _ V1 V2 Hf H1 H2 Hh).
Qed.

(** Pruning keeps a view, and the vertices at or above the new floor. *)
Lemma prune_at g round r s p :
  dag_at (dag_prune_below g round).1 r s = Some p -> dag_at g r s = Some p.
Proof.
  unfold dag_prune_below. destruct (_ <=? _); [done|]. unfold dag_at. cbn.
  destruct (filter _ _ !! r) as [m|] eqn:E; [|done]. apply map_lookup_filter_Some in E as [-> _]. done.
Qed.

Lemma prune_floor g round : dag_floor (dag_prune_below g round).1 = N.max round (dag_floor g).
Proof. unfold dag_prune_below. destruct (N.leb_spec round (dag_floor g)); cbn; lia. Qed.

Lemma prune_get g fp lo round d v :
  ViewOk g fp lo -> get g d = Some v -> round <= v_round v ->
  get (dag_prune_below g round).1 d = Some v.
Proof.
  intros V Hg Hr. pose proof (view_wf _ _ _ _ _ _ V) as Hwf.
  destruct (get_stored _ _ _ _ _ Hwf Hg) as (_ & Hat & _).
  apply (at_get digest (fun _ => True) _ (v_round v) (v_source v)); [by apply prune_wf|].
  unfold dag_prune_below. destruct (_ <=? _); [done|]. unfold dag_at in *. cbn.
  destruct (rounds g !! v_round v) as [m|] eqn:E; [|done].
  rewrite (proj2 (map_lookup_filter_Some _ _ _ _) (conj E Hr)). done.
Qed.

Lemma prune_view g fp lo round :
  ViewOk g fp lo -> round <= lo ->
  ViewOk (dag_prune_below g round).1 (filter (fun p => round <= p.1) fp) lo.
Proof.
  intros V Hr. split.
  - apply prune_wf, V.
  - rewrite prune_floor. pose proof (view_floor _ _ _ _ _ _ V). lia.
  - intros r s d v Hat. by eapply (view_in _ _ _ _ _ _ V), prune_at.
  - intros r props s refs [H _]%map_lookup_filter_Some. by apply (view_first _ _ _ _ _ _ V).
Qed.
End views.

(** ** Lockstep *)

(** The log with everything a block is made of: emitted, then waiting. *)
Definition event_waiting (e : Event) : option Waiting :=
  match e with
  | EvOrdered s =>
      Some (WSegment (mkWaitingSegment (sm_height s) (sm_anchor s) (sm_timestamp_ms s) (sm_batches s).*1
              (sm_vertices s)))
  | EvEpochEnds h => Some (WEpochEnds h)
  | _ => None
  end.
Definition full_log (k : Core) : list Waiting := omap event_waiting (co_events k) ++ b_waiting (co_bat k).

(** The decided checkpoints with their ordering roots: signed, then waiting. *)
Definition rooted (cp : Checkpoint) : PendingCheckpoint :=
  mkPending (cp_index cp) (cp_first_height cp) (cp_last_height cp) (cp_anchor_round cp)
    (cp_timestamp_ms cp) (bool_decide (is_Some (cp_next_committee_root cp))) (Some (cp_ordering_root cp)).
Definition rline (k : Core) : list PendingCheckpoint := (rooted <$> signed k) ++ k_decided (co_cps k).

(** The checkpoint fields the order alone determines. *)
Definition cps_core (p : Checkpoints) : N * N * bool * N * N * N * list Digest * N :=
  (k_last_state_height p, k_epoch_ends_ms p, k_epoch_closed p, k_last_checkpoint_height p,
   k_last_checkpoint_ts p, k_next_checkpoint_index p, k_seed_chain p, k_handover_index p).

(** Two cores at the same point of the order; one of them may have halted on a
    verifier disagreement. *)
Record lock (k1 k2 : Core) : Prop := {
  lk_cfg : co_cfg k1 = co_cfg k2;
  lk_committee : co_committee k1 = co_committee k2;
  lk_sched : sched_core (o_schedule (co_ord k1)) = sched_core (o_schedule (co_ord k2));
  lk_slot : o_next_slot (co_ord k1) = o_next_slot (co_ord k2);
  lk_last : o_last_committed (co_ord k1) = o_last_committed (co_ord k2);
  lk_ordered : o_ordered (co_ord k1) = o_ordered (co_ord k2);
  lk_height : o_next_height (co_ord k1) = o_next_height (co_ord k2);
  lk_time : o_last_timestamp_ms (co_ord k1) = o_last_timestamp_ms (co_ord k2);
  lk_avail : b_availability (co_bat k1) = b_availability (co_bat k2);
  lk_floor : dag_floor (x_dag (co_verts k1)) = dag_floor (x_dag (co_verts k2));
  lk_cps : cps_core (co_cps k1) = cps_core (co_cps k2);
  lk_log : full_log k1 = full_log k2;
  lk_line : rline k1 = rline k2;
}.

#[global] Instance lock_equiv : Equivalence lock.
Proof.
  split.
  - by intros k.
  - by intros k1 k2 [].
  - intros k1 k2 k3 [] []. split; by etrans.
Qed.

Lemma full_log_emit k es : Forall (fun e => event_waiting e = None) es -> full_log (emit k es) = full_log k.
Proof. intros H. unfold full_log. cbn. by rewrite omap_app, (omap_nothing _ es H), app_nil_r. Qed.

Lemma signed_emit k es : Forall (fun e => event_signed e = None) es -> signed (emit k es) = signed k.
Proof. intros H. unfold signed. cbn. by rewrite omap_app, (omap_nothing _ es H), app_nil_r. Qed.

Lemma full_log_push k ws : full_log (set_waiting k (b_waiting (co_bat k) ++ ws)) = full_log k ++ ws.
Proof. unfold full_log. cbn. by rewrite app_assoc. Qed.

Lemma rline_push k ds : signed ds = signed k -> 
  forall pcs, k_decided (co_cps ds) = k_decided (co_cps k) ++ pcs -> rline ds = rline k ++ pcs.
Proof. intros Hs pcs Hd. unfold rline. by rewrite Hs, Hd, app_assoc. Qed.

Lemma sched_core_outcome s1 s2 l b : sched_core s1 = sched_core s2 ->
  sched_core (record_outcome s1 l b) = sched_core (record_outcome s2 l b).
Proof. unfold sched_core, record_outcome, sc_slots. cbn. intros [= -> -> -> -> ->]. done. Qed.

Lemma set_timestamp_lock k1 k2 t : lock k1 k2 -> lock (set_timestamp k1 t) (set_timestamp k2 t).
Proof. intros []. by split. Qed.

Lemma push_block_lock a t n bs k1 k2 : lock k1 k2 -> lock (push_block a t n k1 bs) (push_block a t n k2 bs).
Proof.
  intros []. split; try done.
  - cbn. by rewrite lk_height0.
  - unfold push_block, full_log in *. cbn. by rewrite !app_assoc, lk_log0, lk_height0.
Qed.

Lemma commit_blocks_lock a t h released k1 k2 : lock k1 k2 ->
  lock (commit_blocks k1 a t h released) (commit_blocks k2 a t h released).
Proof.
  unfold commit_blocks. destruct (existsb _ _); [|done].
  generalize (block_chunks released MAX_TRANSACTIONS_PER_BLOCK) as chunks. intros chunks. revert k1 k2.
  induction chunks as [|bs chunks IH]; intros k1 k2 H; cbn [foldl]; [done|]. by apply IH, push_block_lock.
Qed.

Lemma collect_garbage_lock k1 k2 r : lock k1 k2 -> lock (collect_garbage k1 r) (collect_garbage k2 r).
Proof.
  intros Hk. pose proof Hk as []. unfold collect_garbage. rewrite lk_cfg0.
  destruct (checked_sub _ _) as [floor|]; [|done]. rewrite lk_floor0.
  destruct (N.leb_spec floor (dag_floor (x_dag (co_verts k2)))) as [|Hf]; [done|]. split; try done.
  - cbn. by rewrite lk_ordered0.
  - unfold collect_vertices.
    pose proof (prune_floor (x_dag (co_verts k1)) floor) as H1. pose proof (prune_floor (x_dag (co_verts k2)) floor) as H2.
    destruct (dag_prune_below (x_dag (co_verts k1)) floor), (dag_prune_below (x_dag (co_verts k2)) floor).
    cbn in *. congruence.
Qed.

Lemma pass_slot_lock k1 k2 s : lock k1 k2 -> lock (pass_slot k1 s) (pass_slot k2 s).
Proof.
  intros []. split; try done. cbn. pose proof lk_sched0 as H. unfold sched_core in H. injection H as _ _ _ -> _. done.
Qed.

Section stages.
Context (draw_hash : Digest -> Round -> nat -> N) (seed_hash : Digest -> Digest).
Context (order_hash : Digest -> N -> N -> Digest -> Digest).
Context (ordering_digest : OrderingState -> Digest) (cp_digest : Checkpoint -> Digest).
Context (root_of : list Digest -> Digest).
Context (c : Committee) (faulty : ValidatorIndex -> bool) (digest : Vertex -> Digest).
Context (U : Round -> ValidatorIndex -> option (Digest * Vertex)).
Context (HB : UniverseBinds c faulty digest U).

Abbreviation commit := (Order.commit seed_hash order_hash ordering_digest cp_digest root_of).
Abbreviation build_loop := (Order.build_loop cp_digest root_of).
Abbreviation seal_decided := (Order.seal_decided ordering_digest cp_digest root_of).
Abbreviation commit_checkpoint := (Order.commit_checkpoint seed_hash order_hash).
Abbreviation view k lo :=
  (ViewOk faulty digest U (x_dag (co_verts k)) (x_first_proposals (co_verts k)) lo).

(** The DAG inputs of a commit. *)
Record same_inputs (k1 k2 : Core) (a : VertexRef) : Prop := {
  sn_history : causal_history (x_dag (co_verts k1)) (r_digest a) (is_ordered (co_ord k1)) =
    causal_history (x_dag (co_verts k2)) (r_digest a) (is_ordered (co_ord k2));
  sn_vertices x : x ∈ causal_history (x_dag (co_verts k1)) (r_digest a) (is_ordered (co_ord k1)) ->
    get (x_dag (co_verts k1)) (r_digest x) = get (x_dag (co_verts k2)) (r_digest x);
  sn_anchor : get (x_dag (co_verts k1)) (r_digest a) = get (x_dag (co_verts k2)) (r_digest a);
  sn_parents v ref : get (x_dag (co_verts k1)) (r_digest a) = Some v -> ref ∈ v_strong v ->
    get (x_dag (co_verts k1)) (r_digest ref) = get (x_dag (co_verts k2)) (r_digest ref);
}.

Lemma views_same_inputs k1 lo1 v1 k2 lo2 v2 a :
  lock k1 k2 -> view k1 lo1 -> view k2 lo2 ->
  get (x_dag (co_verts k1)) (r_digest a) = Some v1 -> get (x_dag (co_verts k2)) (r_digest a) = Some v2 ->
  same_inputs k1 k2 a.
Proof.
  intros [] V1 V2 H1 H2. assert (v1 = v2) as <- by by eapply (get_agree c faulty digest U HB _ _ _ _ _ _ _ _ _ V1 V2).
  assert (is_ordered (co_ord k1) = is_ordered (co_ord k2)) as Ho.
  { unfold is_ordered. by rewrite lk_ordered0. }
  destruct (causal_history_agree c faulty digest U HB _ _ _ _ _ _ _ _ (is_ordered (co_ord k1)) V1 V2 lk_floor0 H1 H2)
    as [Hh Hv].
  split; [by rewrite <-Ho|done|congruence|].
  intros v ref Hv' Hr. rewrite H1 in Hv'. injection Hv' as <-.
  eapply (ref_agree c faulty digest U HB _ _ _ _ _ _ _ _ _ V1 V2 lk_floor0 H1 H2). apply elem_of_app. by left.
Qed.

Lemma commit_history_lock k1 k2 a : lock k1 k2 -> same_inputs k1 k2 a ->
  (commit_history k1 a).2 = (commit_history k2 a).2 /\ lock (commit_history k1 a).1 (commit_history k2 a).1.
Proof.
  intros [] [Hh _ _ _]. split; [exact Hh|]. split; try done; cbn -[record_outcome causal_history].
  - by apply sched_core_outcome.
  - by rewrite Hh, lk_ordered0.
Qed.

Lemma omap_agree {A B} (f g : A -> option B) (l : list A) : (forall x, x ∈ l -> f x = g x) -> omap f l = omap g l.
Proof.
  induction l as [|x l IH]; intros H; [done|]. cbn. rewrite (H x) by left.
  rewrite IH; [done|]. intros. apply H. by right.
Qed.

Lemma commit_batches_lock k1 k2 a h : lock k1 k2 ->
  (forall x, x ∈ h -> get (x_dag (co_verts k1)) (r_digest x) = get (x_dag (co_verts k2)) (r_digest x)) ->
  get (x_dag (co_verts k1)) (r_digest a) = get (x_dag (co_verts k2)) (r_digest a) ->
  (commit_batches k1 a h).2 = (commit_batches k2 a h).2 /\ lock (commit_batches k1 a h).1 (commit_batches k2 a h).1.
Proof.
  intros [] Hv Ha.
  assert (release_history (x_dag (co_verts k1)) a h (b_availability (co_bat k1)) =
    release_history (x_dag (co_verts k2)) a h (b_availability (co_bat k2))) as Hr.
  { unfold release_history, vertices_of. rewrite lk_avail0, Ha, lk_floor0.
    by rewrite (omap_agree _ (fun r => get (x_dag (co_verts k2)) (r_digest r)) h Hv). }
  unfold commit_batches. rewrite Hr. clear Hr. destruct (release_history _ _ _ _) as [av released]. split; [done|].
  assert (forall ps, Forall (fun e => event_waiting e = None /\ event_signed e = None) (EvUnordered <$> ps)) as Hu.
  { intros ps. apply Forall_forall. intros e (p & -> & _)%list_elem_of_fmap. done. }
  cbn [fst]. split; try done.
  - rewrite !full_log_emit; [exact lk_log0|eapply Forall_impl; [apply Hu|by intros ? []]..].
  - unfold rline. rewrite !signed_emit; [exact lk_line0|eapply Forall_impl; [apply Hu|by intros ? []]..].
Qed.

Lemma commit_timestamp_lock k1 k2 a : lock k1 k2 ->
  get (x_dag (co_verts k1)) (r_digest a) = get (x_dag (co_verts k2)) (r_digest a) ->
  (forall v ref, get (x_dag (co_verts k1)) (r_digest a) = Some v -> ref ∈ v_strong v ->
    get (x_dag (co_verts k1)) (r_digest ref) = get (x_dag (co_verts k2)) (r_digest ref)) ->
  commit_timestamp k1 a = commit_timestamp k2 a.
Proof.
  intros [] Ha Hp. unfold commit_timestamp. rewrite <-Ha, lk_time0.
  destruct (get (x_dag (co_verts k1)) (r_digest a)) as [v|]; [|done].
  rewrite (omap_agree _ (fun r => v_timestamp_ms <$> get (x_dag (co_verts k2)) (r_digest r)) (v_strong v)); [done|].
  intros ref Hr. by rewrite (Hp v ref eq_refl Hr).
Qed.

(** A checkpoint is decided alike, the leaders drawn through the anchor. *)
Lemma decide_checkpoint_lock k1 n1 k2 n2 a lh t ends :
  lock k1 k2 -> SchedOk draw_hash (o_schedule (co_ord k1)) n1 -> SchedOk draw_hash (o_schedule (co_ord k2)) n2 ->
  dr_base (sc_drawn (o_schedule (co_ord k1))) <= r_round a ->
  r_round a < dr_base (sc_drawn (o_schedule (co_ord k1))) + N.of_nat n1 ->
  r_round a < dr_base (sc_drawn (o_schedule (co_ord k2))) + N.of_nat n2 ->
  lock (decide_checkpoint seed_hash order_hash k1 a lh t ends) (decide_checkpoint seed_hash order_hash k2 a lh t ends).
Proof.
  intros [] S1 S2 Hb Hn1 Hn2. pose proof lk_cps0 as Hc. unfold cps_core in Hc.
  injection Hc as E1 E2 E3 E4 E5 E6 E7 E8.
  split; try done; cbn -[advance checkpoint_state_height].
  - rewrite lk_committee0, E7, E6. by eapply advance_core.
  - unfold cps_core. cbn -[checkpoint_state_height]. by rewrite E2, E3, E4, E6, E7, E8.
  - unfold rline in *. cbn. rewrite !app_assoc, E4, E6. f_equal. exact lk_line0.
Qed.

Lemma commit_checkpoint_lock k1 n1 k2 n2 a t :
  lock k1 k2 -> SchedOk draw_hash (o_schedule (co_ord k1)) n1 -> SchedOk draw_hash (o_schedule (co_ord k2)) n2 ->
  dr_base (sc_drawn (o_schedule (co_ord k1))) <= r_round a ->
  r_round a < dr_base (sc_drawn (o_schedule (co_ord k1))) + N.of_nat n1 ->
  r_round a < dr_base (sc_drawn (o_schedule (co_ord k2))) + N.of_nat n2 ->
  lock (commit_checkpoint k1 a t) (commit_checkpoint k2 a t).
Proof.
  intros Hk S1 S2 Hb Hn1 Hn2. pose proof Hk as []. pose proof lk_cps0 as Hc. unfold cps_core in Hc.
  injection Hc as E1 E2 E3 E4 E5 E6 E7 E8.
  unfold Order.commit_checkpoint. rewrite lk_height0, lk_cfg0, E1, E2, E3, E4, E5.
  destruct (negb _ && _); [|destruct (_ && _); [by eapply decide_checkpoint_lock|done]].
  eapply (decide_checkpoint_lock _ n1 _ n2); try done. split; try done; cbn.
  - unfold cps_core. cbn. by rewrite E1, E2, E4, E5, E6, E7, lk_cfg0.
  - unfold full_log in *. cbn. rewrite !app_assoc. f_equal. exact lk_log0.
Qed.

(** Signing moves a checkpoint along the line. *)
Lemma sign_front_lock k pc rest root : k_decided (co_cps k) = pc :: rest ->
  pc_ordering_root pc = Some root ->
  (pc_ends_epoch pc = true -> is_Some (k_next_committee_root (co_cps k))) ->
  lock k (sign_front cp_digest k rest (pc_last_height pc) (checkpoint_of root_of k pc root)).
Proof.
  intros Hd Hr He. split; try done.
  - symmetry. by apply (full_log_emit (with_cps k _)), Forall_singleton.
  - unfold rline, signed. rewrite Hd. cbn. rewrite omap_app, fmap_app, <-app_assoc. cbn. f_equal. f_equal.
    unfold rooted. destruct pc as [i f l ar t e o]. cbn in *. subst o. f_equal.
    destruct e; [|done]. symmetry. by apply bool_decide_eq_true, He.
Qed.

Lemma build_loop_lock fuel k : lock k (build_loop fuel k).
Proof.
  revert k. induction fuel as [|fuel IH]; intros k; cbn [Order.build_loop]; [reflexivity|].
  destruct (k_decided (co_cps k)) as [|pc rest] eqn:Hd; [reflexivity|].
  destruct (pc_ordering_root pc) as [root|] eqn:Hr; [|reflexivity].
  destruct (negb _); [reflexivity|]. destruct (_ && _) eqn:He; [reflexivity|].
  etrans; [|apply IH]. apply sign_front_lock; [done|done|].
  intros Hp. rewrite Hp in He. apply negb_false_iff in He. by apply bool_decide_eq_true in He.
Qed.

(** The checkpoint without a root is the last of the line. *)
Lemma unrooted_last k pc : pc_ordering_root pc = None ->
  last (k_decided (co_cps k)) = Some pc <-> last (rline k) = Some pc.
Proof.
  intros Hn. unfold rline. rewrite last_app. destruct (last (k_decided (co_cps k))) as [q|]; [done|].
  split; [done|]. intros Hl%last_Some_elem_of. apply list_elem_of_fmap in Hl as (cp & -> & _). done.
Qed.

Lemma ordering_state_lock k1 n1 k2 n2 i : lock k1 k2 ->
  SchedOk draw_hash (o_schedule (co_ord k1)) n1 -> SchedOk draw_hash (o_schedule (co_ord k2)) n2 ->
  ordering_state k1 i = ordering_state k2 i.
Proof.
  intros [] S1 S2. pose proof lk_cps0 as Hc. unfold cps_core in Hc. injection Hc as E1 E2 E3 E4 E5 E6 E7 E8.
  unfold ordering_state. rewrite (export_core draw_hash _ _ _ _ S1 S2 lk_sched0).
  by rewrite lk_committee0, lk_last0, lk_slot0, lk_floor0, lk_ordered0, lk_height0, lk_time0, lk_avail0,
    E1, E2, E3, E4, E5, E7, E8.
Qed.

Lemma rline_set_root k pc root states : last (k_decided (co_cps k)) = Some pc ->
  rline (set_decided k (removelast (k_decided (co_cps k)) ++ [set_root pc root]) states) =
  removelast (rline k) ++ [set_root pc root].
Proof.
  intros Hl. assert (rline k = ((rooted <$> signed k) ++ removelast (k_decided (co_cps k))) ++ [pc]) as ->.
  { unfold rline. by rewrite <-app_assoc, <-(last_split _ _ Hl). }
  rewrite removelast_last. unfold rline. cbn. by rewrite app_assoc.
Qed.

Lemma seal_decided_lock k1 n1 k2 n2 : lock k1 k2 ->
  SchedOk draw_hash (o_schedule (co_ord k1)) n1 -> SchedOk draw_hash (o_schedule (co_ord k2)) n2 ->
  lock (seal_decided k1) (seal_decided k2).
Proof.
  intros Hk S1 S2. pose proof Hk as []. unfold Order.seal_decided. etrans; [symmetry; apply build_loop_lock|].
  etrans; [|apply build_loop_lock].
  assert (forall k k' pc, lock k k' -> last (k_decided (co_cps k)) = Some pc -> pc_ordering_root pc = None ->
    last (k_decided (co_cps k')) = Some pc) as Hsame.
  { intros k k' pc Hl H1 H2. apply unrooted_last; [done|]. rewrite <-(lk_line _ _ Hl). by apply unrooted_last. }
  destruct (last (k_decided (co_cps k1))) as [pc|] eqn:E1.
  - case_bool_decide as Hr.
    + rewrite (Hsame _ _ _ Hk E1 Hr), bool_decide_true by done.
      rewrite (ordering_state_lock k1 n1 k2 n2 _ Hk S1 S2). split; try done.
      rewrite !rline_set_root; [by rewrite lk_line0|by apply (Hsame k1)|done].
    + destruct (last (k_decided (co_cps k2))) as [pc'|] eqn:E2; [|done].
      case_bool_decide as Hr'; [|done]. symmetry in Hk. pose proof (Hsame _ _ _ Hk E2 Hr'). congruence.
  - destruct (last (k_decided (co_cps k2))) as [pc'|] eqn:E2; [|done].
    case_bool_decide as Hr'; [|done]. symmetry in Hk. pose proof (Hsame _ _ _ Hk E2 Hr'). congruence.
Qed.

(** A core that can commit [a]: its DAG holds the leader and its leaders are
    drawn through the leader's round. *)
Record Ready (k : Core) (a : VertexRef) (n : nat) : Prop := {
  rd_view : exists lo, view k lo;
  rd_get : exists v, get (x_dag (co_verts k)) (r_digest a) = Some v;
  rd_sched : SchedOk draw_hash (o_schedule (co_ord k)) n;
  rd_drawn : dr_base (sc_drawn (o_schedule (co_ord k))) <= r_round a <
    dr_base (sc_drawn (o_schedule (co_ord k))) + N.of_nat n;
}.

(** The commit up to the blocks. *)
Definition commit_front (k : Core) (a : VertexRef) : Core * N :=
  let '(k, history) := commit_history k a in
  let '(k, released) := commit_batches k a history in
  let t := commit_timestamp k a in
  (commit_blocks (set_timestamp k t) a t history released, t).

Lemma commit_unfold k a : commit k a =
  let '(k, t) := commit_front k a in
  seal_decided (collect_garbage (commit_checkpoint k a t) (r_round a)).
Proof.
  unfold Order.commit, commit_front. destruct (commit_history k a) as [k1 h].
  by destruct (commit_batches k1 a h) as [k2 released].
Qed.

Lemma commit_blocks_keeps k a t h released :
  o_schedule (co_ord (commit_blocks k a t h released)) = o_schedule (co_ord k) /\
  o_next_slot (co_ord (commit_blocks k a t h released)) = o_next_slot (co_ord k) /\
  o_halted (co_ord (commit_blocks k a t h released)) = o_halted (co_ord k) /\
  co_verts (commit_blocks k a t h released) = co_verts k /\ co_cfg (commit_blocks k a t h released) = co_cfg k.
Proof.
  unfold commit_blocks. destruct (existsb _ _); [|done].
  generalize (block_chunks released MAX_TRANSACTIONS_PER_BLOCK) as chunks. intros chunks. revert k.
  induction chunks as [|x chunks IH]; intros k; cbn [foldl]; [done|].
  destruct (IH (push_block a t (length h) k x)) as (-> & -> & -> & -> & ->). done.
Qed.

Lemma commit_front_keeps k a : let k' := (commit_front k a).1 in
  o_schedule (co_ord k') = record_outcome (o_schedule (co_ord k)) (r_source a) true /\
  o_next_slot (co_ord k') = o_next_slot (co_ord k) /\ o_halted (co_ord k') = o_halted (co_ord k) /\
  co_verts k' = co_verts k /\ co_cfg k' = co_cfg k /\ co_cps k' = co_cps k.
Proof.
  unfold commit_front. destruct (commit_history k a) as [k1 h] eqn:E1.
  unfold commit_history in E1. injection E1 as <- <-. destruct (commit_batches _ a _) as [k2 released] eqn:E2.
  unfold commit_batches in E2. destruct (release_history _ _ _ _) as [av rel]. injection E2 as <- <-.
  set (k2 := emit _ _). set (t := commit_timestamp k2 a). set (h := causal_history _ _ _). cbn [fst].
  rewrite commit_blocks_cps. by destruct (commit_blocks_keeps (set_timestamp k2 t) a t h rel) as (-> & -> & -> & -> & ->).
Qed.

Lemma commit_front_lock k1 k2 a : lock k1 k2 -> same_inputs k1 k2 a ->
  (commit_front k1 a).2 = (commit_front k2 a).2 /\ lock (commit_front k1 a).1 (commit_front k2 a).1.
Proof.
  intros Hk Hin. destruct (commit_history_lock k1 k2 a Hk Hin) as [Hh Hl]. destruct Hin as [Hi1 Hi2 Hi3 Hi4].
  unfold commit_front.
  assert (forall k, co_verts (commit_history k a).1 = co_verts k) as Hv by done.
  destruct (commit_history k1 a) as [k1' h] eqn:E1, (commit_history k2 a) as [k2' h'] eqn:E2.
  cbn [fst snd] in *. subst h'. pose proof (Hv k1) as Hv1. pose proof (Hv k2) as Hv2. rewrite E1 in Hv1. rewrite E2 in Hv2.
  cbn [fst] in Hv1, Hv2.
  assert (h = causal_history (x_dag (co_verts k1)) (r_digest a) (is_ordered (co_ord k1))) as Hhd.
  { unfold commit_history in E1. by injection E1 as _ <-. }
  destruct (commit_batches_lock k1' k2' a h Hl) as [Hr Hl']; [rewrite Hv1, Hv2, Hhd; exact Hi2|by rewrite Hv1, Hv2|].
  assert (forall k, co_verts (commit_batches k a h).1 = co_verts k) as Hvb.
  { intros k. unfold commit_batches. by destruct (release_history _ _ _ _). }
  pose proof (Hvb k1') as Hvb1. pose proof (Hvb k2') as Hvb2.
  destruct (commit_batches k1' a h) as [k1'' rel], (commit_batches k2' a h) as [k2'' rel']. cbn [fst snd] in *. subst rel'.
  assert (commit_timestamp k1'' a = commit_timestamp k2'' a) as Ht.
  { apply commit_timestamp_lock; [done| |]; rewrite Hvb1, Hvb2, Hv1, Hv2; [done|exact Hi4]. }
  rewrite Ht. split; [done|]. by apply commit_blocks_lock, set_timestamp_lock.
Qed.

Lemma commit_checkpoint_sched k n a t : SchedOk draw_hash (o_schedule (co_ord k)) n ->
  dr_base (sc_drawn (o_schedule (co_ord k))) <= r_round a < dr_base (sc_drawn (o_schedule (co_ord k))) + N.of_nat n ->
  exists m, SchedOk draw_hash (o_schedule (co_ord (commit_checkpoint k a t))) m /\
    dr_base (sc_drawn (o_schedule (co_ord (commit_checkpoint k a t)))) <= r_round a.
Proof.
  intros Hs Hb. unfold Order.commit_checkpoint.
  destruct (_ && _); [|destruct (_ && _); [|exists n; split; [done|lia]]]; by eapply advance_sched_ok.
Qed.

(** Committing keeps two validators in lockstep: from the same point of the
    order, with whatever further vertices, payloads, draws and results each
    holds, committing one leader gives both the same blocks, batches,
    timestamps, checkpoints, ordering roots, schedule and release frontier. *)
Lemma commit_lock k1 n1 k2 n2 a : lock k1 k2 -> Ready k1 a n1 -> Ready k2 a n2 -> lock (commit k1 a) (commit k2 a).
Proof.
  intros Hk [[lo1 V1] [v1 G1] S1 D1] [[lo2 V2] [v2 G2] S2 D2]. rewrite !commit_unfold.
  pose proof (views_same_inputs _ _ _ _ _ _ _ Hk V1 V2 G1 G2) as Hin.
  destruct (commit_front_lock k1 k2 a Hk Hin) as [Ht Hl].
  destruct (commit_front_keeps k1 a) as (F1 & _). destruct (commit_front_keeps k2 a) as (F2 & _).
  destruct (commit_front k1 a) as [f1 t1], (commit_front k2 a) as [f2 t2]. cbn [fst snd] in *. subst t2.
  assert (SchedOk draw_hash (o_schedule (co_ord f1)) n1) as S1' by by rewrite F1.
  assert (SchedOk draw_hash (o_schedule (co_ord f2)) n2) as S2' by by rewrite F2.
  assert (sc_drawn (o_schedule (co_ord f1)) = sc_drawn (o_schedule (co_ord k1))) as Hd1 by by rewrite F1.
  assert (sc_drawn (o_schedule (co_ord f2)) = sc_drawn (o_schedule (co_ord k2))) as Hd2 by by rewrite F2.
  rewrite <-Hd1 in D1. rewrite <-Hd2 in D2.
  assert (lock (commit_checkpoint f1 a t1) (commit_checkpoint f2 a t1)) as Hc.
  { eapply (commit_checkpoint_lock f1 n1 f2 n2); try done; lia. }
  destruct (commit_checkpoint_sched f1 n1 a t1 S1' D1) as (m1 & M1 & _).
  destruct (commit_checkpoint_sched f2 n2 a t1 S2' D2) as (m2 & M2 & _).
  assert (forall k, o_schedule (co_ord (collect_garbage k (r_round a))) = o_schedule (co_ord k)) as Hg.
  { intros k. unfold collect_garbage. destruct (checked_sub _ _); [|done]. by destruct (_ <=? _). }
  eapply (seal_decided_lock _ m1 _ m2); rewrite ?Hg; try done. by apply collect_garbage_lock.
Qed.
End stages.
