(* ===== verification/Replicas.v ===== *)
(** Validators agree on the order.

    Two honest validators of an epoch run the ordering half of the core
    ([Order]) on their own DAGs, at their own pace. Their blocks, with every
    batch in them, and their checkpoints are one sequence, of which each holds a
    prefix: the safety of the commit rule ([Commit]), lockstep of commits
    ([Lockstep]) and the invariants of one core ([OrderLog]) composed. *)

From stdpp Require Import prelude gmap list sorting.
From Stdlib Require Import NArith ZArith Lia.
From S2P Require Import Prelude Committee Checkpoint Merkle Rbc Vertex Dag DagWalk Schedule Commit Batch Order OrderLog Lockstep.

(** ** The rule reads the leaders only *)

Section ext.
Context (c : Committee) (l1 l2 : Round -> nat -> ValidatorIndex) (Hl : forall r i, l1 r i = l2 r i).
Context (g : Dag) (fp : FirstProposals).

Lemma slot_vertex_ext s : slot_vertex l1 g s = slot_vertex l2 g s.
Proof. unfold slot_vertex. by rewrite Hl. Qed.

Lemma direct_ext s : direct c l1 g fp s = direct c l2 g fp s.
Proof. destruct s as [r k]. unfold direct. rewrite slot_vertex_ext. by rewrite Hl. Qed.

Lemma anchor_decision_ext s later : anchor_decision l1 g s later = anchor_decision l2 g s later.
Proof.
  induction later as [|[b [a| |]] later IH]; cbn [anchor_decision]; [done| |done|done].
  by rewrite slot_vertex_ext.
Qed.

Lemma decide_down_ext ss : decide_down c l1 g fp ss = decide_down c l2 g fp ss.
Proof.
  induction ss as [|s ss IH]; cbn [decide_down]; [done|]. rewrite IH. f_equal. f_equal.
  unfold decide_slot, indirect. rewrite direct_ext. destruct (direct c l2 g fp s); try done.
  apply anchor_decision_ext.
Qed.

Lemma decide_slots_ext slots n : decide_slots c l1 slots g fp n = decide_slots c l2 slots g fp n.
Proof.
  unfold decide_slots. destruct (top_round g fp) as [t|]; [|done]. destruct (checked_sub t 1); [|done].
  apply decide_down_ext.
Qed.
End ext.

(** ** Slots in order *)

(** [ss] are the slots from [next] on, up to a round. *)
Definition runs_from (slots : nat) (hi : Round) (next : Slot) (ss : list Slot) : Prop :=
  StronglySorted slot_lt ss /\
  forall s, s ∈ ss <-> ~ slot_lt s next /\ s.1 <= hi /\ (s.2 < slots)%nat.

Lemma runs_from_cons slots hi next s ss : (next.2 < slots)%nat ->
  runs_from slots hi next (s :: ss) -> s = next /\ runs_from slots hi (slot_after slots next) ss.
Proof.
  intros Hn [Hs Hin]. apply StronglySorted_cons in Hs as [HF Hs]. rewrite Forall_forall in HF.
  assert (s = next) as ->.
  { pose proof (proj1 (Hin s) (list_elem_of_here _ _)) as (Hge & Hle & _).
    assert (next ∈ s :: ss) as Hnx.
    { apply Hin. unfold slot_lt in *. split_and!; lia. }
    apply elem_of_cons in Hnx as [|Hnx]; [done|]. specialize (HF next Hnx). done. }
  split; [done|]. split; [done|]. intros x.
  assert (x ∈ ss <-> x ∈ next :: ss /\ x <> next) as ->.
  { split.
    - intros Hx. split; [by right|]. intros ->. specialize (HF next Hx). unfold slot_lt in HF. lia.
    - intros [[->|Hx]%elem_of_cons Hne]; done. }
  rewrite Hin. destruct x as [r i], next as [r' i']. unfold slot_lt, slot_after. cbn [fst snd] in *.
  destruct (Nat.eqb_spec (i' + 1) slots); cbn [fst snd]; split.
  - intros ((H1 & H2 & H3) & Hne). split_and!; try done. intros [|[]]; [|lia]. apply Hne. f_equal; lia.
  - intros (H1 & H2 & H3). split; [split_and!; try done; lia|]. intros [= -> ->]. lia.
  - intros ((H1 & H2 & H3) & Hne). split_and!; try done. intros [|[? ?]]; [lia|]. apply Hne. f_equal; lia.
  - intros (H1 & H2 & H3). split; [split_and!; try done; lia|]. intros [= -> ->]. lia.
Qed.

Lemma decide_slots_runs c lead slots g fp n ds : decide_slots c lead slots g fp n = ds -> ds <> [] ->
  exists t, top_round g fp = Some t /\ 1 <= t /\ runs_from slots (t - 1) n ds.*1.
Proof.
  intros <- Hne. unfold decide_slots in *. destruct (top_round g fp) as [t|]; [|done].
  unfold checked_sub in *. destruct (N.leb_spec 1 t); [|done]. exists t. split_and!; [done|done|].
  rewrite decide_down_keys. split; [apply StronglySorted_filter, slots_between_sorted|].
  intros s. rewrite list_elem_of_filter, slots_between_elem. unfold slot_lt. split.
  - intros (? & ? & ?). split_and!; try done; lia.
  - intros (? & ? & ?). split_and!; try done; lia.
Qed.

Section replicas.
Context (draw_hash : Digest -> Round -> nat -> N) (seed_hash : Digest -> Digest).
Context (order_hash : Digest -> N -> N -> Digest -> Digest).
Context (ordering_digest : OrderingState -> Digest) (cp_digest : Checkpoint -> Digest).
Context (root_of : list Digest -> Digest).
(** What executing the block at a height gives, and the next committee. *)
Context (result_at : N -> Digest * Digest * list Digest) (next_root : Digest).
Context (c : Committee) (faulty : ValidatorIndex -> bool) (digest : Vertex -> Digest).
Context (U : Round -> ValidatorIndex -> option (Digest * Vertex)).
Context (cfg : CoreConfig) (start : EpochStart) (seed : Digest).

Abbreviation commit := (Order.commit seed_hash order_hash ordering_digest cp_digest root_of).
Abbreviation try_commit :=
  (Order.try_commit draw_hash seed_hash order_hash ordering_digest cp_digest root_of).
Abbreviation try_commit_loop :=
  (Order.try_commit_loop draw_hash seed_hash order_hash ordering_digest cp_digest root_of).
Abbreviation take_decisions :=
  (Order.take_decisions draw_hash seed_hash order_hash ordering_digest cp_digest root_of).
Abbreviation view k lo :=
  (ViewOk faulty digest U (x_dag (co_verts k)) (x_first_proposals (co_verts k)) lo).
Abbreviation sched k := (o_schedule (co_ord k)).
Abbreviation SchedOk := (Lockstep.SchedOk draw_hash).
Abbreviation Ready := (Lockstep.Ready draw_hash faulty digest U).

(** ** A validator's run *)

(** Heights have not wrapped around. *)
Definition fits (k : Core) : Prop :=
  es_first_height start + N.of_nat (length (blocks (log_of k))) < 2 ^ 64.

(** What messages and ticks change: vertices delivered into the DAG, payloads,
    certificates; not the order. A validator whose two verifiers disagree halts. *)
Record receives (k k' : Core) : Prop := {
  rv_other : other_change k k';
  rv_sched : sched k' = sched k;
  rv_slot : o_next_slot (co_ord k') = o_next_slot (co_ord k);
  rv_halted : o_halted (co_ord k) = true -> o_halted (co_ord k') = true;
  rv_last : o_last_committed (co_ord k') = o_last_committed (co_ord k);
  rv_ordered : o_ordered (co_ord k') = o_ordered (co_ord k);
  rv_avail : b_availability (co_bat k') = b_availability (co_bat k);
  rv_executed : b_executed_through (co_bat k') = b_executed_through (co_bat k);
  rv_floor : dag_floor (x_dag (co_verts k')) = dag_floor (x_dag (co_verts k));
  rv_view : view k' (o_next_slot (co_ord k')).1;
}.

Inductive replica_step (k : Core) : Core -> Prop :=
| rp_commit : replica_step k (try_commit k)
| rp_release : replica_step k (release_segments k)
| rp_executed h : let x := result_at h in
    replica_step k (on_executed cp_digest root_of k h x.1.1 x.1.2 x.2)
| rp_root : replica_step k (set_next_committee_root cp_digest root_of k next_root)
| rp_leader r i :
    replica_step k (set_schedule k (leader draw_hash (sched k) r i).1 (o_halted (co_ord k)))
| rp_receive k' : receives k k' -> replica_step k k'.

(** The states of validator [me] in the epoch. *)
Inductive replica_run (me : ValidatorIndex) : Core -> Prop :=
| rr_start : replica_run me (core_new cfg c me start seed)
| rr_step k k' : replica_run me k -> replica_step k k' -> fits k' -> replica_run me k'.

Lemma replica_core_step k k' : replica_step k k' ->
  core_step draw_hash seed_hash order_hash ordering_digest cp_digest root_of result_at k k'.
Proof.
  intros [ | |h x| |r i|k'' []].
  - apply core_commit.
  - apply core_release.
  - by apply (core_executed _ _ _ _ _ _ _ _ h x).
  - apply core_root.
  - apply core_other. split; try done. exists []. cbn. by rewrite app_nil_r.
  - by apply core_other.
Qed.

Context (wf : CommitteeWf c) (Hf : weight c faulty <= max_faulty c).
Context (HB : UniverseBinds c faulty digest U) (Hstart : StartOk result_at start).

(** *** The state between steps *)

Record Good (k : Core) : Prop := {
  gd_run : RunOk cp_digest root_of result_at cfg (c_epoch c) start k;
  gd_committee : co_committee k = c;
  gd_executed : b_executed_through (co_bat k) = 0;
  gd_sched : exists n, SchedOk (sched k) n;
  gd_base : dr_base (sc_drawn (sched k)) <= (o_next_slot (co_ord k)).1;
  gd_slot : ((o_next_slot (co_ord k)).2 < sc_slots (sched k))%nat;
  gd_view : view k (o_next_slot (co_ord k)).1;
}.

Lemma good_start me : Good (core_new cfg c me start seed).
Proof.
  destruct Hstart. split; try done.
  - by apply (core_new_ok draw_hash seed_hash order_hash).
  - exists 0%nat. apply schedule_new_sched.
  - cbn. lia.
Qed.

(** *** Steps that leave the order alone *)

Lemma other_full_log k k' : other_change k k' -> full_log k' = full_log k.
Proof.
  intros Ho. destruct (oc_events _ _ Ho) as (es & He & HF). unfold full_log. rewrite He, omap_app, (oc_waiting _ _ Ho).
  rewrite (omap_nothing _ es), app_nil_r; [done|]. eapply Forall_impl; [exact HF|]. by intros [] [].
Qed.

Lemma other_rline k k' : other_change k k' -> rline k' = rline k.
Proof.
  intros Ho. unfold rline. destruct (other_views k k' Ho) as (_ & -> & _). by rewrite (oc_cps _ _ Ho).
Qed.

Lemma receives_lock k k' : receives k k' -> lock k k'.
Proof.
  intros []. pose proof rv_other0 as []. split; try congruence.
  - symmetry. by apply other_full_log.
  - symmetry. by apply other_rline.
Qed.

Lemma set_executed_lock k m root : lock k (set_executed k m root).
Proof. by split. Qed.

Lemma draw_lock k n r i h : SchedOk (sched k) n -> h = o_halted (co_ord k) ->
  lock k (set_schedule k (leader draw_hash (sched k) r i).1 h).
Proof.
  intros Hs ->. destruct (leader_core draw_hash (sched k) n r i Hs) as [He _]. split; try done.
Qed.

(** Waiting segments are past what was executed before the epoch, so that they
    are emitted as they were ordered. *)
Lemma waiting_heights k s : Good k -> fits k -> WSegment s ∈ b_waiting (co_bat k) -> 1 <= ws_height s.
Proof.
  intros [([Hlog _ _] & _) _ _ _ _ _ _] Hfit Hin. destruct Hlog as [Hh _ _ _ _]. destruct Hstart.
  assert (ws_height s ∈ (blocks (log_of k)).*1) as Hb.
  { apply list_elem_of_fmap. exists (ws_height s, ws_timestamp_ms s). split; [done|].
    apply list_elem_of_omap. exists (LBlock (ws_height s) (ws_timestamp_ms s)). split; [|done].
    unfold log_of. apply elem_of_app. right. apply list_elem_of_fmap. by exists (WSegment s). }
  rewrite Hh in Hb. apply list_elem_of_fmap in Hb as (i & -> & Hi%elem_of_seq). unfold fits in Hfit.
  rewrite wadd64_below; lia.
Qed.

Lemma release_segment_lock k s rest : b_waiting (co_bat k) = WSegment s :: rest ->
  b_executed_through (co_bat k) < ws_height s ->
  existsb (fun b => negb (bool_decide (is_Some (b_payloads (co_bat k) !! b_digest (ob_batch b))))) (ws_batches s) = false ->
  lock k (release_segment k s rest).
Proof.
  intros Hw Hx He. split; try done.
  - unfold full_log, release_segment. cbn. rewrite Hw, omap_app, <-app_assoc. cbn. f_equal. f_equal.
    rewrite (proj2 (N.leb_gt _ _) Hx). destruct s as [h a t bs n]. cbn in *. do 2 f_equal. clear - He.
    induction bs as [|b bs IH]; [done|]. cbn in *. apply orb_false_iff in He as [Hb He].
    apply negb_false_iff, bool_decide_eq_true in Hb as [p ->]. cbn. by rewrite <-IH.
  - unfold rline, signed, release_segment. cbn. by rewrite omap_app, app_nil_r.
Qed.

Lemma release_loop_lock waiting k : b_waiting (co_bat k) = waiting ->
  b_executed_through (co_bat k) = 0 -> Forall (fun w => match w with WSegment s => 1 <= ws_height s | _ => True end) waiting ->
  lock k (release_loop k waiting) /\ b_executed_through (co_bat (release_loop k waiting)) = 0 /\
  sched (release_loop k waiting) = sched k /\ co_verts (release_loop k waiting) = co_verts k.
Proof.
  revert k. induction waiting as [|[s|h] rest IH]; intros k Hw Hx HF; cbn [release_loop]; [done| |];
    apply Forall_cons in HF as [Hh HF].
  - destruct (_ && existsb _ _) eqn:E; [done|].
    assert (lock k (release_segment k s rest)) as Hl.
    { apply release_segment_lock; [done|lia|]. rewrite Hx in E.
      by rewrite (proj2 (N.leb_gt _ _)) in E by lia. }
    destruct (IH (release_segment k s rest)) as (H1 & H2 & H3 & H4); [done|done|done|].
    split_and!; [by etrans|done|by rewrite H3|by rewrite H4].
  - assert (lock k (emit (set_waiting k rest) [EvEpochEnds h])) as Hl.
    { split; try done.
      - unfold full_log. cbn. by rewrite Hw, omap_app, <-app_assoc.
      - unfold rline, signed. cbn. by rewrite omap_app, app_nil_r. }
    destruct (IH (emit (set_waiting k rest) [EvEpochEnds h])) as (H1 & H2 & H3 & H4); [done|done|done|].
    split_and!; [by etrans|done|by rewrite H3|by rewrite H4].
Qed.

Lemma build_loop_keeps fuel k : let k' := build_loop cp_digest root_of fuel k in
  co_bat k' = co_bat k /\ co_ord k' = co_ord k /\ co_verts k' = co_verts k /\ co_committee k' = co_committee k.
Proof.
  revert k. induction fuel as [|fuel IH]; intros k; cbn [build_loop]; [done|].
  destruct (k_decided (co_cps k)) as [|pc rest]; [done|]. destruct (pc_ordering_root pc) as [d|]; [|done].
  destruct (negb _); [done|]. destruct (_ && _); [done|].
  by destruct (IH (sign_front cp_digest k rest (pc_last_height pc) (checkpoint_of root_of k pc d))) as (-> & -> & -> & ->).
Qed.

(** Steps other than a pass of the commit rule. *)
Lemma quiet_good k k' : replica_step k k' -> fits k -> Good k -> k' = try_commit k \/ (lock k k' /\ Good k').
Proof.
  intros Hstep Hfit Hk. pose proof Hk as [Hrun Hc Hx [n Hs] Hb Hsl Hv].
  assert (RunOk cp_digest root_of result_at cfg (c_epoch c) start k') as Hrun'.
  { eapply core_step_ok; [apply Hstart|by apply replica_core_step|done]. }
  destruct Hstep as [ | |h x| |r i|k' Hr]; [by left|right..].
  - destruct (release_loop_lock (b_waiting (co_bat k)) k) as (Hl & Hx' & Hs' & Hv'); [done|done| |].
    { apply Forall_forall. intros [s|?] Hin; [|done]. by apply (waiting_heights k). }
    fold (release_segments k) in *. split; [done|].
    split; rewrite ?Hs', ?Hv', <-?(lk_slot _ _ Hl), <-?(lk_committee _ _ Hl); eauto.
  - unfold on_executed, build_checkpoints in *. set (k1 := set_executed k _ _) in *.
    destruct (build_loop_keeps (length (k_decided (co_cps k1))) k1) as (B1 & B2 & B3 & B4).
    split; [etrans; [|apply build_loop_lock]; apply set_executed_lock|].
    split; rewrite ?B1, ?B2, ?B3, ?B4; cbn; eauto.
  - unfold set_next_committee_root, build_checkpoints in *. set (k1 := set_executed k _ _) in *.
    destruct (build_loop_keeps (length (k_decided (co_cps k1))) k1) as (B1 & B2 & B3 & B4).
    split; [etrans; [|apply build_loop_lock]; apply set_executed_lock|].
    split; rewrite ?B1, ?B2, ?B3, ?B4; cbn; eauto.
  - split; [by eapply draw_lock|]. destruct (leader_core draw_hash (sched k) n r i Hs) as (He & n' & Hs' & _).
    assert (dr_base (sc_drawn (leader draw_hash (sched k) r i).1) = dr_base (sc_drawn (sched k)) /\
      sc_slots (leader draw_hash (sched k) r i).1 = sc_slots (sched k)) as [E1 E2].
    { destruct Hs as (c0 & [Hd0 _] & _). destruct Hs' as (c1 & [Hd1 _] & _). unfold sched_core in He.
      rewrite (do_head _ _ _ _ _ Hd0), (do_head _ _ _ _ _ Hd1) in He. by injection He. }
    split; cbn [set_schedule with_ord co_committee co_bat co_ord o_schedule o_next_slot co_verts]; rewrite ?E1, ?E2; eauto.
  - split; [by apply receives_lock|]. pose proof Hr as []. pose proof rv_other0 as [].
    split; rewrite ?rv_sched0, ?rv_slot0, ?rv_executed0; eauto; [congruence|]. by rewrite <-rv_slot0.
Qed.

(** *** The order as a sequence of decisions *)

Definition lead_of (k : Core) : Round -> nat -> ValidatorIndex := canon draw_hash (sched_core (sched k)).

Definition taken (k : Core) (s : Slot) (d : SlotDecision) : Core :=
  match d with
  | Commit a => commit (pass_slot k s) a
  | Skip => skip_slot draw_hash (pass_slot k s) s
  | Undecided => k
  end.

(** A decision a validator takes: of its next slot, under its schedule, on a
    view it had. *)
Record justified (k : Core) (s : Slot) (d : SlotDecision) : Prop := {
  ju_slot : s = o_next_slot (co_ord k);
  ju_decided : d <> Undecided;
  ju_view : exists g fp n, ViewOk faulty digest U g fp n.1 /\
    (s, d) ∈ decide_slots c (lead_of k) (sc_slots (sched k)) g fp n;
  ju_sched : exists n, SchedOk (sched k) n;
  ju_sealed : sealed k;
  ju_ready a : d = Commit a -> exists n, Ready (pass_slot k s) a n;
}.

Lemma skip_slot_lock k1 n1 k2 n2 s : SchedOk (sched k1) n1 -> SchedOk (sched k2) n2 -> lock k1 k2 ->
  lock (skip_slot draw_hash k1 s) (skip_slot draw_hash k2 s).
Proof.
  intros S1 S2 Hk. unfold skip_slot. pose proof Hk as [].
  pose proof (leader_canon draw_hash _ _ s.1 s.2 S1) as L1. pose proof (leader_canon draw_hash _ _ s.1 s.2 S2) as L2.
  destruct (leader_core draw_hash _ _ s.1 s.2 S1) as [C1 _]. destruct (leader_core draw_hash _ _ s.1 s.2 S2) as [C2 _].
  unfold leader_of in *. destruct (leader draw_hash (sched k1) s.1 s.2) as [s1 l1], (leader draw_hash (sched k2) s.1 s.2) as [s2 l2].
  cbn [fst snd] in *. assert (l1 = l2) as -> by congruence.
  split; try done. apply sched_core_outcome. congruence.
Qed.

Lemma lock_slots k1 k2 : lock k1 k2 -> sc_slots (sched k1) = sc_slots (sched k2).
Proof. intros Hk. pose proof (lk_sched _ _ Hk) as He. unfold sched_core in He. by injection He. Qed.

(** From the same point, validators take the same decision, and stay together. *)
Lemma justified_agree k1 s1 d1 k2 s2 d2 : lock k1 k2 -> justified k1 s1 d1 -> justified k2 s2 d2 ->
  (s1, d1) = (s2, d2) /\ lock (taken k1 s1 d1) (taken k2 s2 d2).
Proof.
  intros Hk [-> N1 (g1 & fp1 & m1 & V1 & I1) [n1 S1] _ R1] [-> N2 (g2 & fp2 & m2 & V2 & I2) [n2 S2] _ R2].
  rewrite (lk_slot _ _ Hk) in *.
  assert (d1 = d2) as <-.
  { rewrite (lock_slots _ _ Hk) in I1. unfold lead_of in *. rewrite (lk_sched _ _ Hk) in I1.
    pose proof (ub_universe _ _ _ _ HB) as HU.
    eapply (decisions_agree c wf faulty Hf digest U HU _ _ g1 fp1 m1 _ g2 fp2 m2 _ V1 V2);
      [by eapply decide_slots_decisions; eauto..|exact I1|exact I2|done|done]. }
  split; [done|]. pose proof (pass_slot_lock k1 k2 (o_next_slot (co_ord k2)) Hk) as Hp.
  destruct d1 as [a| |]; cbn [taken]; [| |done].
  - destruct (R1 a eq_refl) as [r1 Q1], (R2 a eq_refl) as [r2 Q2].
    by eapply (commit_lock draw_hash seed_hash order_hash ordering_digest cp_digest root_of c faulty digest U HB).
  - by eapply (skip_slot_lock _ n1 _ n2).
Qed.

(** A state reached by taking the decisions [ts] in turn. *)
Inductive order : list (Slot * SlotDecision) -> Core -> Prop :=
| or_start me : order [] (core_new cfg c me start seed)
| or_quiet ts k k' : order ts k -> lock k k' -> order ts k'
| or_take ts k s d : order ts k -> justified k s d -> order (ts ++ [(s, d)]) (taken k s d).

Lemma order_nil k : order [] k -> exists me, lock (core_new cfg c me start seed) k.
Proof.
  remember [] as ts eqn:Hts. induction 1 as [me|ts k k' _ IH Hl|ts k s d _ _ _].
  - by exists me.
  - destruct (IH Hts) as [me Hm]. exists me. by etrans.
  - by destruct ts.
Qed.

Lemma order_snoc ts x k : order (ts ++ [x]) k ->
  exists k0, order ts k0 /\ justified k0 x.1 x.2 /\ lock (taken k0 x.1 x.2) k.
Proof.
  remember (ts ++ [x]) as ts' eqn:Hts. induction 1 as [me|ts' k k' _ IH Hl|ts' k s d Ho _ Hj].
  - by destruct ts.
  - destruct (IH Hts) as (k0 & H1 & H2 & H3). exists k0. split_and!; [done|done|by etrans].
  - apply app_inj_tail in Hts as [-> <-]. by exists k.
Qed.

Lemma order_lock ts k1 k2 : order ts k1 -> order ts k2 -> lock k1 k2.
Proof.
  revert k1 k2. induction ts as [|x ts IH] using rev_ind; intros k1 k2 H1 H2.
  - destruct (order_nil _ H1) as [m1 L1], (order_nil _ H2) as [m2 L2].
    etrans; [symmetry; exact L1|]. etrans; [|exact L2]. by split.
  - destruct (order_snoc _ _ _ H1) as (p1 & O1 & J1 & L1), (order_snoc _ _ _ H2) as (p2 & O2 & J2 & L2).
    etrans; [symmetry; exact L1|]. etrans; [|exact L2].
    by apply (justified_agree p1 x.1 x.2 p2 x.1 x.2 (IH _ _ O1 O2) J1 J2).
Qed.

Lemma order_prefix ts rest k : order (ts ++ rest) k -> exists k0, order ts k0.
Proof.
  revert k. induction rest as [|x rest IH] using rev_ind; intros k; [rewrite app_nil_r; eauto|].
  rewrite app_assoc. intros (k0 & H & _)%order_snoc. by eapply IH.
Qed.

(** The decisions of two validators are one sequence. *)
Lemma order_comparable ts1 k1 ts2 k2 : order ts1 k1 -> order ts2 k2 ->
  ts1 `prefix_of` ts2 \/ ts2 `prefix_of` ts1.
Proof.
  revert k1. induction ts1 as [|x ts IH] using rev_ind; intros k1 H1 H2; [left; apply prefix_nil|].
  destruct (order_snoc _ _ _ H1) as (p1 & O1 & J1 & _).
  destruct (IH p1 O1 H2) as [[rest ->]|Hpre]; [|right; by apply prefix_app_r].
  destruct rest as [|y rest]; [right; rewrite app_nil_r; by apply prefix_app_r|left].
  rewrite (cons_middle y ts rest), app_assoc in H2. destruct (order_prefix _ _ _ H2) as [q Hq].
  destruct (order_snoc _ _ _ Hq) as (p2 & O2 & J2 & _).
  destruct (justified_agree p1 x.1 x.2 p2 y.1 y.2 (order_lock _ _ _ O1 O2) J1 J2) as [Heq _].
  assert (x = y) as <- by (destruct x, y; exact Heq).
  rewrite (cons_middle x ts rest), app_assoc. by apply prefix_app_r.
Qed.

(** *** The log and the line only grow *)

Lemma commit_blocks_log k a t h released :
  full_log k `prefix_of` full_log (commit_blocks k a t h released) /\
  rline (commit_blocks k a t h released) = rline k.
Proof.
  unfold commit_blocks. destruct (existsb _ _); [|done].
  generalize (block_chunks released MAX_TRANSACTIONS_PER_BLOCK) as chunks. intros chunks. revert k.
  induction chunks as [|x chunks IH]; intros k; cbn [foldl]; [done|].
  destruct (IH (push_block a t (length h) k x)) as [H1 H2]. split; [|by rewrite H2].
  etrans; [|exact H1]. unfold push_block, full_log. cbn. rewrite app_assoc. by apply prefix_app_r.
Qed.

Lemma commit_front_log k a : full_log k `prefix_of` full_log (commit_front k a).1 /\
  rline (commit_front k a).1 = rline k.
Proof.
  unfold commit_front. destruct (commit_history k a) as [k1 h] eqn:E1. destruct (commit_batches k1 a h) as [k2 rel] eqn:E2.
  pose proof (commit_history_other k a) as H1. rewrite E1 in H1. cbn in H1.
  pose proof (commit_batches_other k1 a h) as H2. rewrite E2 in H2. cbn in H2.
  assert (full_log k2 = full_log k) as Hl by by rewrite (other_full_log _ _ H2), (other_full_log _ _ H1).
  assert (rline k2 = rline k) as Hr by by rewrite (other_rline _ _ H2), (other_rline _ _ H1).
  cbn [fst]. set (t := commit_timestamp k2 a).
  destruct (commit_blocks_log (set_timestamp k2 t) a t h rel) as [H3 H4]. rewrite H4.
  change (full_log (set_timestamp k2 t)) with (full_log k2) in H3.
  change (rline (set_timestamp k2 t)) with (rline k2). by rewrite Hl in H3.
Qed.

Lemma commit_checkpoint_log k a t :
  full_log k `prefix_of` full_log (commit_checkpoint seed_hash order_hash k a t) /\
  exists pcs, rline (commit_checkpoint seed_hash order_hash k a t) = rline k ++ pcs /\
    (pcs = [] \/ exists pc, pcs = [pc] /\ pc_ordering_root pc = None).
Proof.
  unfold commit_checkpoint. destruct (_ && _); [|destruct (_ && _)].
  - split.
    + unfold full_log. cbn. rewrite app_assoc. by apply prefix_app_r.
    + eexists. split; [unfold rline; cbn; rewrite app_assoc; reflexivity|]. right. by eexists.
  - split; [done|]. eexists. split; [unfold rline; cbn; rewrite app_assoc; reflexivity|]. right. by eexists.
  - split; [done|]. exists []. rewrite app_nil_r. auto.
Qed.

Lemma seal_decided_log k pcs l :
  rline k = l ++ pcs -> (forall pc, last l = Some pc -> pc_ordering_root pc <> None) ->
  (pcs = [] \/ exists pc, pcs = [pc] /\ pc_ordering_root pc = None) ->
  full_log (seal_decided ordering_digest cp_digest root_of k) = full_log k /\
  l `prefix_of` rline (seal_decided ordering_digest cp_digest root_of k).
Proof.
  intros Hl Hroot Hp. unfold seal_decided. set (k1 := match last _ with Some _ => _ | None => _ end).
  assert (lock k1 (build_checkpoints cp_digest root_of k1)) as Hb by apply build_loop_lock.
  rewrite <-(lk_log _ _ Hb), <-(lk_line _ _ Hb). unfold k1. clear k1 Hb.
  destruct (last (k_decided (co_cps k))) as [q|] eqn:Eq; [|rewrite Hl; split; [done|by apply prefix_app_r]].
  case_bool_decide as Hq; [|rewrite Hl; split; [done|by apply prefix_app_r]].
  split; [done|]. rewrite rline_set_root by done.
  apply (unrooted_last k q Hq) in Eq. rewrite Hl in *. destruct Hp as [->|(pc & -> & Hpc)].
  - rewrite app_nil_r in Eq. by destruct (Hroot q Eq).
  - rewrite removelast_last. by apply prefix_app_r.
Qed.

Lemma sealed_last k pc : sealed k -> last (rline k) = Some pc -> pc_ordering_root pc <> None.
Proof.
  intros Hs Hl%last_Some_elem_of Hn. unfold rline in Hl. apply elem_of_app in Hl as [Hl|Hl].
  - by apply list_elem_of_fmap in Hl as (cp & -> & _).
  - unfold sealed in Hs. rewrite Forall_forall in Hs. destruct (Hs _ Hl) as [? ?]. congruence.
Qed.

Lemma commit_log k a : sealed k ->
  full_log k `prefix_of` full_log (commit k a) /\ rline k `prefix_of` rline (commit k a).
Proof.
  intros Hs. rewrite commit_unfold. destruct (commit_front_log k a) as [H1 H2].
  destruct (commit_front k a) as [k1 t]. cbn [fst] in *.
  destruct (commit_checkpoint_log k1 a t) as (H3 & pcs & H4 & Hp).
  pose proof (collect_garbage_other (commit_checkpoint seed_hash order_hash k1 a t) (r_round a)) as Hg.
  destruct (seal_decided_log (collect_garbage (commit_checkpoint seed_hash order_hash k1 a t) (r_round a)) pcs (rline k)) as [H5 H6].
  - by rewrite (other_rline _ _ Hg), H4, H2.
  - intros pc. by apply sealed_last.
  - done.
  - rewrite H5, (other_full_log _ _ Hg). split; [by etrans|done].
Qed.

Lemma order_grows ts rest k k' : order ts k -> order (ts ++ rest) k' ->
  full_log k `prefix_of` full_log k' /\ rline k `prefix_of` rline k'.
Proof.
  revert k'. induction rest as [|x rest IH] using rev_ind; intros k' H1 H2.
  - rewrite app_nil_r in H2. destruct (order_lock _ _ _ H1 H2). by rewrite lk_log, lk_line.
  - rewrite app_assoc in H2. destruct (order_snoc _ _ _ H2) as (k0 & O & J & L).
    destruct (IH k0 H1 O) as [Ha Hb]. rewrite <-(lk_log _ _ L), <-(lk_line _ _ L).
    assert (full_log k0 `prefix_of` full_log (taken k0 x.1 x.2) /\ rline k0 `prefix_of` rline (taken k0 x.1 x.2)) as [Hc Hd].
    { destruct x as [s [a| |]]; cbn [fst snd taken] in *; [| |done].
      - apply (commit_log (pass_slot k0 s) a). exact (ju_sealed _ _ _ J).
      - pose proof (skip_slot_other draw_hash (pass_slot k0 s) s) as Hk.
        by rewrite (other_full_log _ _ Hk), (other_rline _ _ Hk). }
    split; by etrans.
Qed.

(** *** What a commit leaves *)

Lemma commit_parts k a (P : Core -> Prop) :
  (forall k1 t, k1 = (commit_front k a).1 -> t = (commit_front k a).2 ->
    P (seal_decided ordering_digest cp_digest root_of
         (collect_garbage (commit_checkpoint seed_hash order_hash k1 a t) (r_round a)))) -> P (commit k a).
Proof. intros H. rewrite commit_unfold. destruct (commit_front k a) as [k1 t]. by apply H. Qed.

Lemma seal_keeps k : let k' := seal_decided ordering_digest cp_digest root_of k in
  co_bat k' = co_bat k /\ co_ord k' = co_ord k /\ co_verts k' = co_verts k /\ co_committee k' = co_committee k.
Proof.
  cbn. unfold seal_decided, build_checkpoints. set (k1 := match last _ with Some _ => _ | None => _ end).
  destruct (build_loop_keeps (length (k_decided (co_cps k1))) k1) as (-> & -> & -> & ->).
  unfold k1. destruct (last _); [|done]. by destruct (bool_decide _).
Qed.

Lemma checkpoint_keeps k a t : let k' := commit_checkpoint seed_hash order_hash k a t in
  co_verts k' = co_verts k /\ co_committee k' = co_committee k /\
  b_executed_through (co_bat k') = b_executed_through (co_bat k) /\ co_cfg k' = co_cfg k.
Proof. cbn. unfold commit_checkpoint. destruct (_ && _); [done|]. by destruct (_ && _). Qed.

Lemma garbage_keeps k r : let k' := collect_garbage k r in
  sched k' = sched k /\ co_committee k' = co_committee k /\ co_cps k' = co_cps k /\
  b_executed_through (co_bat k') = b_executed_through (co_bat k) /\
  exists fl, fl <= r /\ x_dag (co_verts k') = (dag_prune_below (x_dag (co_verts k)) fl).1 /\
    (x_first_proposals (co_verts k') = x_first_proposals (co_verts k) \/
     x_first_proposals (co_verts k') = filter (fun p => fl <= p.1) (x_first_proposals (co_verts k))).
Proof.
  clear -k r. cbn. unfold collect_garbage.
  assert (dag_prune_below (x_dag (co_verts k)) 0 = (x_dag (co_verts k), [])) as H0.
  { unfold dag_prune_below. by rewrite (proj2 (N.leb_le _ _)) by lia. }
  assert (exists fl, fl <= r /\ x_dag (co_verts k) = (dag_prune_below (x_dag (co_verts k)) fl).1 /\
    (x_first_proposals (co_verts k) = x_first_proposals (co_verts k) \/
     x_first_proposals (co_verts k) = filter (fun p => fl <= p.1) (x_first_proposals (co_verts k)))) as Hsame.
  { exists 0. rewrite H0. split; [lia|]. auto. }
  destruct (checked_sub r (cg_gc_depth (co_cfg k))) as [fl|] eqn:E; [|done].
  destruct (fl <=? dag_floor _); [done|]. split_and!; try done. exists fl.
  assert (fl <= r) as Hfl by (unfold checked_sub in E; case_match; [injection E as <-; lia|done]).
  split; [done|]. cbn [co_verts]. unfold collect_vertices. destruct (dag_prune_below _ fl) as [g pruned].
  cbn. auto.
Qed.

Lemma commit_batches_executed k a h :
  b_executed_through (co_bat (commit_batches k a h).1) = b_executed_through (co_bat k) /\
  co_committee (commit_batches k a h).1 = co_committee k.
Proof. unfold commit_batches. by destruct (release_history _ _ _ _). Qed.

Lemma commit_front_executed k a :
  b_executed_through (co_bat (commit_front k a).1) = b_executed_through (co_bat k) /\
  co_committee (commit_front k a).1 = co_committee k.
Proof.
  unfold commit_front. destruct (commit_history k a) as [k1 h] eqn:E1.
  pose proof (commit_batches_executed k1 a h) as [H1 H2]. destruct (commit_batches k1 a h) as [k2 rel].
  cbn [fst] in *. injection E1 as <- _. cbn in H1, H2. rewrite <-H1, <-H2.
  set (t := commit_timestamp k2 a). unfold commit_blocks. destruct (existsb _ _); [|done].
  generalize (block_chunks rel MAX_TRANSACTIONS_PER_BLOCK) as chunks. intros chunks.
  change (b_executed_through (co_bat k2)) with (b_executed_through (co_bat (set_timestamp k2 t))).
  change (co_committee k2) with (co_committee (set_timestamp k2 t)). generalize (set_timestamp k2 t) as k3.
  induction chunks as [|x chunks IH]; intros k3; cbn [foldl]; [done|].
  by destruct (IH (push_block a t (length h) k3 x)) as [-> ->].
Qed.

Lemma commit_dag k a : exists fl, fl <= r_round a /\
  x_dag (co_verts (commit k a)) = (dag_prune_below (x_dag (co_verts k)) fl).1 /\
  (x_first_proposals (co_verts (commit k a)) = x_first_proposals (co_verts k) \/
   x_first_proposals (co_verts (commit k a)) = filter (fun p => fl <= p.1) (x_first_proposals (co_verts k))).
Proof.
  pattern (commit k a). apply commit_parts. intros k1 t -> _.
  destruct (commit_front_keeps k a) as (_ & _ & _ & F4 & _). set (k1 := (commit_front k a).1) in *.
  destruct (checkpoint_keeps k1 a t) as (C1 & _). set (k2 := commit_checkpoint seed_hash order_hash k1 a t) in *.
  destruct (garbage_keeps k2 (r_round a)) as (_ & _ & _ & _ & fl & G4).
  destruct (seal_keeps (collect_garbage k2 (r_round a))) as (_ & _ & -> & _).
  exists fl. by rewrite C1, F4 in G4.
Qed.

Lemma commit_view k a lo : view k lo -> r_round a <= lo -> view (commit k a) lo.
Proof.
  intros Hv Hr. destruct (commit_dag k a) as (fl & Hfl & -> & Hfp).
  pose proof (prune_view faulty digest U _ _ _ fl Hv) as Hpv. destruct Hfp as [->| ->]; [|apply Hpv; lia].
  destruct (Hpv ltac:(lia)) as [P1 P2 P3 P4]. split; try done. apply (view_first _ _ _ _ _ _ Hv).
Qed.

Lemma commit_sched k a n : SchedOk (sched k) n ->
  dr_base (sc_drawn (sched k)) <= r_round a < dr_base (sc_drawn (sched k)) + N.of_nat n ->
  (exists m, SchedOk (sched (commit k a)) m) /\ dr_base (sc_drawn (sched (commit k a))) <= r_round a /\
  b_executed_through (co_bat (commit k a)) = b_executed_through (co_bat k) /\
  co_committee (commit k a) = co_committee k.
Proof.
  intros Hs Hd. pattern (commit k a). apply commit_parts. intros k1 t -> _.
  destruct (commit_front_executed k a) as [F1 F2]. destruct (commit_front_keeps k a) as (F3 & _).
  set (k1 := (commit_front k a).1) in *. destruct (checkpoint_keeps k1 a t) as (_ & C2 & C3 & _).
  destruct (commit_checkpoint_sched draw_hash seed_hash order_hash k1 n a t) as (m & M1 & M2);
    [by rewrite F3|by rewrite F3|].
  set (k2 := commit_checkpoint seed_hash order_hash k1 a t) in *.
  destruct (garbage_keeps k2 (r_round a)) as (G1 & G2 & _ & G3 & _).
  destruct (seal_keeps (collect_garbage k2 (r_round a))) as (-> & -> & _ & ->).
  rewrite G1, G2, G3, C2, C3, F1, F2. eauto.
Qed.

Lemma commit_good k a n : Good k -> SchedOk (sched k) n ->
  dr_base (sc_drawn (sched k)) <= r_round a < dr_base (sc_drawn (sched k)) + N.of_nat n ->
  r_round a <= (o_next_slot (co_ord k)).1 -> Good (commit k a).
Proof.
  intros [[Hrun [Hse _]] Hc Hx _ Hb Hsl Hv] Hs Hd Hr.
  destruct (commit_settles seed_hash order_hash ordering_digest cp_digest root_of k a) as [Hslots Hnext _ _].
  destruct (commit_sched k a n Hs Hd) as (Hm & Hbase & Hex & Hco).
  split; [|congruence|congruence|done|rewrite Hnext; lia|by rewrite Hnext, Hslots|].
  - destruct Hstart. split; [by apply (commit_ok draw_hash)|].
    by apply (commit_waits draw_hash _ _ _ _ _ result_at (c_epoch c) start).
  - rewrite Hnext. by apply commit_view.
Qed.

Lemma succ_mod_moves m i : 1 < m -> (i + 1) mod m <> i.
Proof.
  clear. intros Hm H. pose proof (N.mod_lt (i + 1) m ltac:(lia)) as Hlt. rewrite H in Hlt.
  destruct (N.lt_ge_cases (i + 1) m) as [Hs|Hs].
  - rewrite N.mod_small in H by done. lia.
  - assert (i + 1 = m) as He by lia. rewrite He, N.Div0.mod_same in H. lia.
Qed.

Lemma wadd64_moves i : wadd64 i 1 <> i.
Proof. by apply succ_mod_moves. Qed.

Lemma lock_index k1 k2 : lock k1 k2 ->
  k_next_checkpoint_index (co_cps k1) = k_next_checkpoint_index (co_cps k2).
Proof. intros Hk. pose proof (lk_cps _ _ Hk) as He. unfold cps_core in He. by injection He. Qed.

Lemma seal_index k :
  k_next_checkpoint_index (co_cps (seal_decided ordering_digest cp_digest root_of k)) =
  k_next_checkpoint_index (co_cps k).
Proof.
  unfold seal_decided. etrans; [symmetry; apply lock_index, build_loop_lock|].
  destruct (last _); [|done]. by destruct (bool_decide _).
Qed.

(** Without a new checkpoint a commit leaves the leaders as they are. *)
Lemma commit_no_checkpoint k a :
  k_next_checkpoint_index (co_cps (commit k a)) = k_next_checkpoint_index (co_cps k) ->
  sched (commit k a) = record_outcome (sched k) (r_source a) true.
Proof.
  pattern (commit k a). apply commit_parts. intros k1 t -> _.
  destruct (commit_front_keeps k a) as (F3 & _ & _ & _ & _ & F5). rewrite <-F3, <-F5. generalize (commit_front k a).1 as k1.
  clear F3 F5. intros k1. rewrite seal_index.
  destruct (garbage_keeps (commit_checkpoint seed_hash order_hash k1 a t) (r_round a)) as (G1 & _ & -> & _).
  destruct (seal_keeps (collect_garbage (commit_checkpoint seed_hash order_hash k1 a t) (r_round a))) as (_ & -> & _ & _).
  rewrite G1. unfold commit_checkpoint. destruct (_ && _); [|destruct (_ && _); [|done]];
    intros Hk; by destruct (wadd64_moves (k_next_checkpoint_index (co_cps k1))).
Qed.

Lemma pass_slot_good k : Good k -> Good (pass_slot k (o_next_slot (co_ord k))).
Proof.
  intros [Hrun Hc Hx Hs Hb Hsl Hv]. set (k' := pass_slot k _).
  assert ((o_next_slot (co_ord k)).1 <= (o_next_slot (co_ord k')).1 /\
    ((o_next_slot (co_ord k')).2 < sc_slots (sched k))%nat) as [H1 H2].
  { unfold k'. cbn. unfold slot_after. destruct (o_next_slot (co_ord k)) as [r i]. cbn in *.
    destruct (Nat.eqb_spec (i + 1) (sc_slots (sched k))); cbn; lia. }
  split; try done.
  - eapply other_run_ok; [apply pass_slot_other|done].
  - etrans; [exact Hb|done].
  - destruct Hv as [V1 V2 V3 V4]. split; try done. etrans; [exact V2|done].
Qed.

(** A pass of the rule under way: [ds] are the decisions left, made on the view
    [g], [fp] from slot [n0]. *)
Record PassOk (g : Dag) (fp : FirstProposals) (n0 : Slot) (hi : Round) (k : Core)
    (ds : list (Slot * SlotDecision)) (n : nat) : Prop := {
  pa_good : Good k;
  pa_sched : SchedOk (sched k) n;
  pa_drawn : hi < dr_base (sc_drawn (sched k)) + N.of_nat n;
  pa_runs : runs_from (sc_slots (sched k)) hi (o_next_slot (co_ord k)) ds.*1;
  pa_view : ViewOk faulty digest U g fp n0.1;
  pa_made x : x ∈ ds -> x ∈ decide_slots c (lead_of k) (sc_slots (sched k)) g fp n0;
  pa_anchors s a : (s, Commit a) ∈ ds -> r_round a = s.1 /\
    exists v, get (x_dag (co_verts k)) (r_digest a) = Some v /\ v_round v = s.1;
}.

Lemma pass_head g fp n0 hi k s d ds n : PassOk g fp n0 hi k ((s, d) :: ds) n ->
  s = o_next_slot (co_ord k) /\ s.1 <= hi /\ (d <> Undecided -> justified k s d) /\
  runs_from (sc_slots (sched k)) hi (slot_after (sc_slots (sched k)) s) ds.*1.
Proof.
  intros [Hg Hs Hd Hr Hv Hm Ha]. pose proof Hg as [Hrun _ _ _ Hb Hsl Hview]. cbn in Hr.
  destruct (runs_from_cons _ _ _ _ _ Hsl Hr) as [Hn Hrest].
  destruct Hr as [_ Hin]. destruct (proj1 (Hin s) (list_elem_of_here _ _)) as (_ & Hle & _).
  rewrite Hn in *. split_and!; [done|done| |done]. intros Hne. split; try done.
  - exists g, fp, n0. split; [done|]. apply Hm. left.
  - by exists n.
  - apply Hrun.
  - intros a ->. destruct (Ha (o_next_slot (co_ord k)) a) as (Ha1 & v & Hget & _); [left|].
    exists n. split; [by exists (o_next_slot (co_ord k)).1|by exists v|done|]. cbn. rewrite Ha1. lia.
Qed.

(** Outcomes do not change the leaders in force. *)
Lemma canon_outcome s l b : canon draw_hash (sched_core (record_outcome s l b)) = canon draw_hash (sched_core s).
Proof. done. Qed.

Lemma outcome_drawn s l b : sc_drawn (record_outcome s l b) = sc_drawn s.
Proof. done. Qed.

(** After one decision the pass goes on with the rest, unless the leaders may
    have been redrawn. *)
Lemma pass_skip g fp n0 hi k s ds n : PassOk g fp n0 hi k ((s, Skip) :: ds) n ->
  exists n', PassOk g fp n0 hi (taken k s Skip) ds n'.
Proof.
  intros Hp. destruct (pass_head _ _ _ _ _ _ _ _ _ Hp) as (-> & _ & _ & Hr).
  destruct Hp as [Hg Hs Hd _ Hv Hm Ha]. pose proof (pass_slot_good k Hg) as Hpg. cbn [taken].
  set (k1 := pass_slot k (o_next_slot (co_ord k))) in *.
  destruct (leader_core draw_hash (sched k1) n (o_next_slot (co_ord k)).1 (o_next_slot (co_ord k)).2 Hs) as (He & n' & Hs' & Hle & _).
  assert (Hdr : dr_base (sc_drawn (leader draw_hash (sched k1) (o_next_slot (co_ord k)).1 (o_next_slot (co_ord k)).2).1) = dr_base (sc_drawn (sched k))).
  { destruct Hs as (c0 & [Hd0 _] & _). destruct Hs' as (c1 & [Hd1 _] & _). unfold sched_core in He.
    change (sched k1) with (sched k) in *.
    rewrite (do_head _ _ _ _ _ Hd0), (do_head _ _ _ _ _ Hd1) in He. by injection He. }
  pose proof (skip_slot_settles draw_hash k1 (o_next_slot (co_ord k))) as [Hsl Hnx _ _].
  assert (Hsk : exists l, sched (skip_slot draw_hash k1 (o_next_slot (co_ord k))) =
    record_outcome (leader draw_hash (sched k1) (o_next_slot (co_ord k)).1 (o_next_slot (co_ord k)).2).1 l false /\
    co_verts (skip_slot draw_hash k1 (o_next_slot (co_ord k))) = co_verts k /\
    co_committee (skip_slot draw_hash k1 (o_next_slot (co_ord k))) = co_committee k /\
    co_bat (skip_slot draw_hash k1 (o_next_slot (co_ord k))) = co_bat k).
  { unfold skip_slot. destruct (leader _ _ _ _) as [sc l]. by exists l. }
  destruct Hsk as (l & Hsk & Hvk & Hck & Hbk).
  assert (Hlead : lead_of (skip_slot draw_hash k1 (o_next_slot (co_ord k))) = lead_of k).
  { unfold lead_of. rewrite Hsk, canon_outcome, He. done. }
  pose proof Hpg as [P1 P2 P3 _ P5 P6 P7]. exists n'. split.
  - split; try done.
    + eapply other_run_ok; [apply skip_slot_other|done].
    + by rewrite Hck.
    + by rewrite Hbk.
    + exists n'. by rewrite Hsk.
    + rewrite Hsk, Hnx, outcome_drawn, Hdr. exact P5.
    + by rewrite Hnx, Hsl.
    + rewrite Hnx, Hvk. exact P7.
  - by rewrite Hsk.
  - rewrite Hsk, outcome_drawn, Hdr. lia.
  - rewrite Hsl, Hnx. exact Hr.
  - done.
  - intros x Hx. rewrite Hlead, Hsl. apply Hm. by right.
  - intros s a Hx. rewrite Hvk. apply Ha. by right.
Qed.

Lemma pass_commit g fp n0 hi k s a ds n : PassOk g fp n0 hi k ((s, Commit a) :: ds) n ->
  Good (taken k s (Commit a)) /\
  (k_next_checkpoint_index (co_cps (taken k s (Commit a))) = k_next_checkpoint_index (co_cps k) ->
   PassOk g fp n0 hi (taken k s (Commit a)) ds n).
Proof.
  intros Hp. destruct (pass_head _ _ _ _ _ _ _ _ _ Hp) as (-> & Hle & _ & Hr).
  destruct Hp as [Hg Hs Hd Hruns Hv Hm Ha]. pose proof (pass_slot_good k Hg) as Hpg. cbn [taken].
  destruct (Ha _ _ (list_elem_of_here _ _)) as (Har & v & Hget & Hvr).
  set (s := o_next_slot (co_ord k)) in *. set (k1 := pass_slot k s) in *.
  assert (Good (commit k1 a)) as Hgood.
  { apply (commit_good k1 a n); [done|done| |].
    - change (sched k1) with (sched k). rewrite Har. pose proof (gd_base _ Hg) as Hb. fold s in Hb. lia.
    - rewrite Har. unfold k1. cbn. unfold slot_after. destruct (_ =? _)%nat; cbn; lia. }
  split; [done|]. intros Hi. pose proof (commit_no_checkpoint k1 a Hi) as Hsc.
  destruct (commit_settles seed_hash order_hash ordering_digest cp_digest root_of k1 a) as [Hslots Hnext _ _].
  destruct (commit_dag k1 a) as (fl & Hfl & Hdag & _). change (sched k1) with (sched k) in *.
  split; try done.
  - by rewrite Hsc.
  - by rewrite Hsc.
  - rewrite Hslots, Hnext. exact Hr.
  - intros x Hx. rewrite Hslots. unfold lead_of. rewrite Hsc, canon_outcome. apply Hm. by right.
  - intros s' b Hin. destruct (Ha s' b) as (Hbr & w & Hw & Hwr); [by right|]. split; [done|]. exists w.
    split; [|done]. rewrite Hdag. eapply prune_get; [exact (gd_view _ Hg)|exact Hw|].
    rewrite Hwr. etrans; [exact Hfl|]. rewrite Har.
    assert (s' ∈ ds.*1) as Hin' by (apply list_elem_of_fmap; by exists (s', Commit b)).
    destruct Hruns as [Hso _]. cbn in Hso. apply StronglySorted_cons in Hso as [HF _]. rewrite Forall_forall in HF.
    specialize (HF s' Hin'). unfold slot_lt in HF. lia.
Qed.

(** *** The next committee in signed checkpoints *)

Definition agreed (r : option Digest) : Prop := r = None \/ r = Some next_root.

Definition roots_ok (k : Core) : Prop :=
  agreed (k_next_committee_root (co_cps k)) /\ Forall (fun cp => agreed (cp_next_committee_root cp)) (signed k).

(** What [roots_ok] reads is unchanged. *)
Definition roots_same (k k' : Core) : Prop :=
  k_next_committee_root (co_cps k') = k_next_committee_root (co_cps k) /\ signed k' = signed k.

Lemma roots_same_ok k k' : roots_same k k' -> roots_ok k -> roots_ok k'.
Proof. unfold roots_ok. by intros [-> ->]. Qed.

#[local] Instance roots_same_trans : Transitive roots_same.
Proof. intros k1 k2 k3 [] []. split; by etrans. Qed.

Lemma other_roots k k' : other_change k k' -> roots_same k k'.
Proof.
  intros Ho. split; [by rewrite (oc_cps _ _ Ho)|]. by destruct (other_views k k' Ho) as (_ & -> & _).
Qed.

Lemma build_loop_roots fuel k : roots_ok k -> roots_ok (build_loop cp_digest root_of fuel k).
Proof.
  revert k. induction fuel as [|fuel IH]; intros k [Hr HF]; cbn [build_loop]; [done|].
  destruct (k_decided (co_cps k)) as [|pc rest]; [done|]. destruct (pc_ordering_root pc) as [d|]; [|done].
  destruct (negb _); [done|]. destruct (_ && _); [done|]. apply IH. split; [done|].
  unfold signed, sign_front. cbn. rewrite omap_app. apply Forall_app. split; [done|].
  apply Forall_singleton. unfold checkpoint_of. cbn. destruct (pc_ends_epoch pc); [done|by left].
Qed.

Lemma commit_blocks_roots k a t h released : roots_same k (commit_blocks k a t h released).
Proof.
  unfold commit_blocks. destruct (existsb _ _); [|done].
  generalize (block_chunks released MAX_TRANSACTIONS_PER_BLOCK) as chunks. intros chunks. revert k.
  induction chunks as [|x chunks IH]; intros k; cbn [foldl]; [done|]. etrans; [|apply IH]. done.
Qed.

Lemma commit_roots k a : roots_ok k -> roots_ok (commit k a).
Proof.
  intros Hk. unfold Order.commit. destruct (commit_history k a) as [k1 h] eqn:E1.
  destruct (commit_batches k1 a h) as [k2 rel] eqn:E2.
  pose proof (commit_history_other k a) as H1. rewrite E1 in H1. cbn in H1.
  pose proof (commit_batches_other k1 a h) as H2. rewrite E2 in H2. cbn in H2.
  unfold seal_decided, build_checkpoints. set (k3 := commit_blocks _ _ _ _ _).
  assert (roots_same k k3) as H3.
  { etrans; [apply (other_roots _ _ H1)|]. etrans; [apply (other_roots _ _ H2)|].
    etrans; [|apply commit_blocks_roots]. done. }
  apply build_loop_roots. eapply roots_same_ok; [|exact Hk]. etrans; [exact H3|]. clearbody k3. clear.
  set (k4 := commit_checkpoint _ _ _ _ _). assert (roots_same k3 k4) as H4.
  { unfold k4, commit_checkpoint. destruct (_ && _); [done|]. by destruct (_ && _). }
  etrans; [exact H4|]. etrans; [apply other_roots, (collect_garbage_other k4 (r_round a))|].
  destruct (last _); [|done]. by destruct (bool_decide _).
Qed.

(** A pass takes decisions in order. *)
#[local] Opaque Order.commit skip_slot pass_slot.

Lemma take_decisions_cons k s d ds : take_decisions k ((s, d) :: ds) =
  match d with
  | Undecided => (k, false)
  | Skip => take_decisions (taken k s d) ds
  | Commit _ =>
      if negb (k_next_checkpoint_index (co_cps (taken k s d)) =? k_next_checkpoint_index (co_cps k))
         || o_halted (co_ord (taken k s d))
      then (taken k s d, true) else take_decisions (taken k s d) ds
  end.
Proof. destruct d; cbn [Order.take_decisions taken]; reflexivity. Qed.

Lemma take_decisions_order g fp n0 hi ds k n ts : PassOk g fp n0 hi k ds n -> order ts k ->
  exists ts', order ts' (take_decisions k ds).1 /\ Good (take_decisions k ds).1.
Proof.
  revert k n ts. induction ds as [|[s d] ds IH]; intros k n ts Hp Ho.
  { exists ts. split; [done|apply Hp]. }
  destruct (pass_head _ _ _ _ _ _ _ _ _ Hp) as (_ & _ & Hj & _). rewrite take_decisions_cons.
  assert (d <> Undecided -> order (ts ++ [(s, d)]) (taken k s d)) as Ho' by (intros; by apply or_take, Hj).
  clear Hj. destruct d as [a| |].
  - destruct (pass_commit _ _ _ _ _ _ _ _ _ Hp) as [Hg Hnext]. specialize (Ho' ltac:(done)).
    revert Hg Hnext Ho'. generalize (taken k s (Commit a)) as k'. intros k' Hg Hnext Ho'.
    destruct (N.eqb_spec (k_next_checkpoint_index (co_cps k')) (k_next_checkpoint_index (co_cps k))) as [E|E]; [|by eexists].
    cbn [negb orb]. destruct (o_halted (co_ord k')); [by eexists|]. by eapply IH; [apply Hnext|].
  - destruct (pass_skip _ _ _ _ _ _ _ _ Hp) as [n' Hp']. specialize (Ho' ltac:(done)).
    revert Hp' Ho'. generalize (taken k s Skip) as k'. intros k' Hp' Ho'. by eapply IH.
  - exists ts. split; [done|apply Hp].
Qed.

Lemma leader_good k r i : Good k ->
  let k' := set_schedule k (leader draw_hash (sched k) r i).1 (o_halted (co_ord k)) in
  lock k k' /\ Good k' /\ exists n, SchedOk (sched k') n /\
    dr_base (sc_drawn (sched k')) = dr_base (sc_drawn (sched k)) /\
    (dr_base (sc_drawn (sched k)) <= r -> r < dr_base (sc_drawn (sched k)) + N.of_nat n).
Proof.
  intros [Hrun Hc Hx [n Hs] Hb Hsl Hv] k'.
  destruct (leader_core draw_hash (sched k) n r i Hs) as (He & n' & Hs' & _ & Hn).
  assert (dr_base (sc_drawn (sched k')) = dr_base (sc_drawn (sched k)) /\ sc_slots (sched k') = sc_slots (sched k)) as [E1 E2].
  { destruct Hs as (c0 & [Hd0 _] & _). destruct Hs' as (c1 & [Hd1 _] & _). unfold sched_core in He.
    rewrite (do_head _ _ _ _ _ Hd0), (do_head _ _ _ _ _ Hd1) in He. by injection He. }
  split; [by eapply draw_lock|]. split; [|by exists n'].
  split; try done; [|by exists n'|by rewrite E1|by rewrite E2].
  eapply other_run_ok; [|done]. split; try done. exists []. cbn. by rewrite app_nil_r.
Qed.

Lemma draw_leaders_good k : Good k -> lock k (draw_leaders draw_hash k) /\ Good (draw_leaders draw_hash k).
Proof.
  intros Hk. unfold draw_leaders. destruct (decisions draw_hash k); [done|].
  destruct (top_round _ _) as [t|]; [|done]. by destruct (leader_good k (t - 1) 0 Hk) as (? & ? & _).
Qed.

Lemma decisions_lead k : Good k -> decisions draw_hash k =
  decide_slots c (lead_of k) (sc_slots (sched k)) (x_dag (co_verts k)) (x_first_proposals (co_verts k)) (o_next_slot (co_ord k)).
Proof.
  intros [_ Hc _ [n Hs] _ _ _]. unfold decisions. rewrite Hc. apply decide_slots_ext.
  intros r i. by apply (leader_canon _ _ n).
Qed.

Lemma pass_start k : Good k -> decisions draw_hash k <> [] ->
  exists hi n, PassOk (x_dag (co_verts k)) (x_first_proposals (co_verts k)) (o_next_slot (co_ord k)) hi
    (draw_leaders draw_hash k) (decisions draw_hash k) n.
Proof.
  intros Hk Hne. pose proof (decisions_lead k Hk) as Hds. pose proof Hk as [_ Hc _ _ Hb Hsl Hv].
  destruct (decide_slots_runs _ _ _ _ _ _ _ (eq_sym Hds) Hne) as (t & Ht & H1 & Hr).
  destruct (leader_good k (t - 1) 0 Hk) as (Hl & Hg & n & Hs & Hbase & Hn).
  assert (draw_leaders draw_hash k = set_schedule k (leader draw_hash (sched k) (t - 1) 0).1 (o_halted (co_ord k))) as ->.
  { unfold draw_leaders. destruct (decisions draw_hash k); [done|]. by rewrite Ht. }
  set (k' := set_schedule k _ _) in *. assert (sc_slots (sched k') = sc_slots (sched k)) as Hsl' by by rewrite (lock_slots _ _ Hl).
  assert (lead_of k' = lead_of k) as Hlead by (unfold lead_of; by rewrite (lk_sched _ _ Hl)).
  exists (t - 1), n. split; try done.
  - rewrite Hbase. apply Hn. etrans; [exact Hb|].
    destruct Hr as [_ Hin]. destruct (decisions draw_hash k) as [|[s d] ds]; [done|].
    destruct (proj1 (Hin s) (list_elem_of_here _ _)) as (Hge & Hle & _). unfold slot_lt in Hge. lia.
  - by rewrite Hsl'.
  - intros x Hx. rewrite Hlead, Hsl', <-Hds. done.
  - intros s a Hin. rewrite Hds in Hin. pose proof (ub_universe _ _ _ _ HB) as HU.
    assert (slot_vertex (lead_of k) (x_dag (co_verts k)) s = Some a) as Hx.
    { eapply (decision_commit c faulty Hf digest U HU); [exact Hv|by eapply decide_slots_decisions; eauto|exact Hin]. }
    destruct (slot_vertex_spec faulty digest U _ _ _ _ _ _ Hv Hx) as (v & Ha & Hg' & Hvr & _).
    split; [by rewrite Ha|]. by exists v.
Qed.

Lemma try_commit_loop_order fuel k k' ts : order ts k -> Good k -> try_commit_loop fuel k = Some k' ->
  exists ts', order ts' k' /\ Good k'.
Proof.
  revert k ts. induction fuel as [|fuel IH]; intros k ts Ho Hk; cbn [Order.try_commit_loop];
    destruct (o_halted (co_ord k)); intros Heq; try by (simplify_eq; eauto).
  destruct (draw_leaders_good k Hk) as [Hl Hg].
  assert (exists ts', order ts' (take_decisions (draw_leaders draw_hash k) (decisions draw_hash k)).1 /\
    Good (take_decisions (draw_leaders draw_hash k) (decisions draw_hash k)).1) as (ts' & Ho' & Hg').
  { assert (order ts (draw_leaders draw_hash k)) as Hod by by eapply or_quiet.
    destruct (decisions draw_hash k) eqn:E; [by exists ts|]. rewrite <-E.
    destruct (pass_start k Hk) as (hi & n & Hp); [by rewrite E|]. by eapply take_decisions_order. }
  destruct (take_decisions _ _) as [k1 again]. cbn [fst] in *. destruct again; [by eapply IH|].
  simplify_eq. eauto.
Qed.

Lemma replica_order me k : replica_run me k -> fits k /\ Good k /\ exists ts, order ts k.
Proof.
  induction 1 as [|k k' _ (Hfit & Hg & ts & Ho) Hstep Hfit'].
  - split_and!; [|apply good_start|eexists; apply or_start].
    unfold fits. cbn -[N.pow]. destruct Hstart. lia.
  - destruct (quiet_good k k' Hstep Hfit Hg) as [->|[Hl Hg']].
    + split; [done|]. unfold Order.try_commit in *. destruct (try_commit_loop _ k) as [k1|] eqn:E.
      * destruct (try_commit_loop_order _ _ _ _ Ho Hg E) as (ts' & Ho' & Hg'). eauto.
      * eauto.
    + split_and!; [done|done|]. exists ts. by eapply or_quiet.
Qed.

Lemma take_decisions_roots ds k : roots_ok k -> roots_ok (take_decisions k ds).1.
Proof.
  revert k. induction ds as [|[s [a| |]] ds IH]; intros k Hk; cbn [Order.take_decisions fst]; try done.
  - pose proof (commit_roots (pass_slot k s) a (roots_same_ok _ _ (other_roots _ _ (pass_slot_other k s)) Hk)) as Hc.
    destruct (_ || _); [done|]. by apply IH.
  - apply IH. eapply roots_same_ok; [|exact Hk]. etrans; [apply other_roots, pass_slot_other|].
    apply other_roots, skip_slot_other.
Qed.

Lemma try_commit_loop_roots fuel k k' : try_commit_loop fuel k = Some k' -> roots_ok k -> roots_ok k'.
Proof.
  revert k. induction fuel as [|fuel IH]; intros k; cbn [Order.try_commit_loop];
    destruct (o_halted (co_ord k)); intros Heq Hk; try by simplify_eq.
  pose proof (take_decisions_roots (decisions draw_hash k) (draw_leaders draw_hash k)) as Ht.
  destruct (take_decisions _ _) as [k1 again]. cbn [fst] in Ht.
  assert (roots_ok k1) as H1 by (apply Ht; by eapply roots_same_ok; [apply other_roots, draw_leaders_other|]).
  destruct again; [by eapply IH|]. by simplify_eq.
Qed.

Lemma release_loop_roots waiting k : roots_same k (release_loop k waiting).
Proof.
  revert k. induction waiting as [|[s|h] rest IH]; intros k; cbn [release_loop]; [done| |].
  - destruct (_ && _); [done|]. etrans; [|apply IH]. split; [done|]. unfold signed, release_segment. cbn.
    by rewrite omap_app, app_nil_r.
  - etrans; [|apply IH]. split; [done|]. unfold signed. cbn. by rewrite omap_app, app_nil_r.
Qed.

Lemma replica_roots me k : replica_run me k -> roots_ok k.
Proof.
  induction 1 as [|k k' _ IH Hstep _]; [split; [by left|constructor]|].
  destruct Hstep as [ | |h x| |r i|k' Hr].
  - unfold Order.try_commit. destruct (try_commit_loop _ k) as [k1|] eqn:E; [|done].
    by eapply try_commit_loop_roots.
  - eapply roots_same_ok; [apply release_loop_roots|done].
  - apply build_loop_roots. done.
  - apply build_loop_roots. destruct IH. split; [by right|done].
  - done.
  - eapply roots_same_ok; [apply other_roots, (rv_other _ _ Hr)|done].
Qed.

(** *** A signed checkpoint is determined by its place in the order *)

Abbreviation built := (OrderLog.built root_of result_at cfg (c_epoch c)).
Abbreviation chained := (OrderLog.chained cp_digest).

Lemma built_rooted cp1 cp2 : rooted cp1 = rooted cp2 -> built cp1 -> built cp2 ->
  agreed (cp_next_committee_root cp1) -> agreed (cp_next_committee_root cp2) ->
  cp_prev cp1 = cp_prev cp2 -> cp1 = cp2.
Proof.
  clear. intros [= H1 H2 H3 H4 H5 H6 H7] [(A1 & A2 & A3) A4 A5 A6 A7] [(B1 & B2 & B3) B4 B5 B6 B7] HA HB Hp.
  assert (cp_next_committee_root cp1 = cp_next_committee_root cp2) as Hn.
  { destruct HA as [E|E], HB as [F|F]; rewrite E, F in *; done. }
  destruct cp1, cp2. cbn in *. subst. congruence.
Qed.

Lemma rline_signed prev l1 l2 r1 r2 :
  (rooted <$> l1) ++ r1 `prefix_of` (rooted <$> l2) ++ r2 ->
  Forall built l1 -> Forall built l2 ->
  Forall (fun cp => agreed (cp_next_committee_root cp)) l1 -> Forall (fun cp => agreed (cp_next_committee_root cp)) l2 ->
  chained prev l1 -> chained prev l2 -> l1 `prefix_of` l2 \/ l2 `prefix_of` l1.
Proof.
  clear. revert prev l2. induction l1 as [|x l1 IH]; intros prev l2; [intros; left; apply prefix_nil|].
  destruct l2 as [|y l2]; [intros; right; apply prefix_nil|]. cbn [fmap list_fmap app OrderLog.chained].
  intros Hp [B1 B1']%Forall_cons [B2 B2']%Forall_cons [A1 A1']%Forall_cons [A2 A2']%Forall_cons [C1 C1'] [C2 C2'].
  assert (x = y) as <-.
  { apply built_rooted; try done; [|congruence]. by apply prefix_cons_inv_1 in Hp. }
  apply prefix_cons_inv_2 in Hp. destruct (IH _ l2 Hp B1' B2' A1' A2' C1' C2'); [left|right]; by apply prefix_cons.
Qed.

Lemma replica_signed me k : replica_run me k ->
  Forall built (signed k) /\ chained (es_prev_checkpoint start) (signed k) /\
  Forall (fun cp => agreed (cp_next_committee_root cp)) (signed k).
Proof.
  intros Hr. destruct (replica_order me k Hr) as (_ & [([_ _ []] & _) _ _ _ _ _ _] & _).
  destruct (replica_roots me k Hr). done.
Qed.

(** The orders of two validators, compared. *)
Lemma replicas_compare me1 k1 me2 k2 : replica_run me1 k1 -> replica_run me2 k2 ->
  (full_log k1 `prefix_of` full_log k2 /\ rline k1 `prefix_of` rline k2) \/
  (full_log k2 `prefix_of` full_log k1 /\ rline k2 `prefix_of` rline k1).
Proof.
  intros H1 H2. destruct (replica_order me1 k1 H1) as (_ & _ & ts1 & O1), (replica_order me2 k2 H2) as (_ & _ & ts2 & O2).
  destruct (order_comparable _ _ _ _ O1 O2) as [[rest ->]|[rest ->]]; [left|right]; by eapply order_grows.
Qed.

Lemma replicas_signed_compare me1 k1 me2 k2 : replica_run me1 k1 -> replica_run me2 k2 ->
  signed k1 `prefix_of` signed k2 \/ signed k2 `prefix_of` signed k1.
Proof.
  intros H1 H2. destruct (replica_signed me1 k1 H1) as (B1 & C1 & A1), (replica_signed me2 k2 H2) as (B2 & C2 & A2).
  destruct (replicas_compare me1 k1 me2 k2 H1 H2) as [[_ Hp]|[_ Hp]].
  - by eapply rline_signed.
  - destruct (rline_signed _ _ _ _ _ Hp B2 B1 A2 A1 C2 C1); auto.
Qed.

(** Validators of an epoch, of which the faulty hold at most a third of the
    weight, agree on the order: whatever each received and however its steps were
    taken, the blocks one has ordered, emitted or waiting, with height, anchor,
    time and every batch, are a prefix of the other's, and so are the checkpoints
    decided. *)
Theorem replicas_agree me1 k1 me2 k2 : replica_run me1 k1 -> replica_run me2 k2 ->
  (full_log k1 `prefix_of` full_log k2 /\ rline k1 `prefix_of` rline k2) \/
  (full_log k2 `prefix_of` full_log k1 /\ rline k2 `prefix_of` rline k1).
Proof. apply replicas_compare. Qed.

(** No two validators sign different checkpoints of an epoch: the signed
    checkpoints of one are a prefix of the other's, field by field, so that their
    votes are for one digest. *)
Theorem signed_agree me1 k1 me2 k2 : replica_run me1 k1 -> replica_run me2 k2 ->
  signed k1 `prefix_of` signed k2 \/ signed k2 `prefix_of` signed k1.
Proof. apply replicas_signed_compare. Qed.
End replicas.

(** ** Two validators of the demo epoch

    Validator 0 has delivered every vertex, validator 1 not those of the last
    round; both hold the payloads. *)

Definition demo_vertices : list Vertex := (fun p => demo_vertex p.1 p.2) <$> demo_rounds.
Abbreviation demo_net f := (f demo_vertices demo_digest) (only parsing).
Definition demo_faulty (i : ValidatorIndex) : bool := (i =? 3)%nat.

Definition demo_deliver (me : ValidatorIndex) (ws : list Vertex) : Core :=
  let k := core_new demo_config four_seats me demo_start 5 in
  let x := co_verts k in
  with_verts (with_bat k (co_bat demo_filled)) (mkVerts (demo_net net_view_of ws) (x_rbc x) ∅ ∅ ∅ ∅ ∅ ∅).

Definition demo_finish (k : Core) : Core :=
  foldl demo_execute
    (set_next_committee_root demo_cp_digest demo_root (release_segments (demo_step try_commit k)) 888)
    (heights 1 13).

Definition demo_ahead : Core := demo_finish (demo_deliver 0 demo_vertices).
Definition demo_behind : Core :=
  demo_finish (demo_deliver 1 (filter (fun v => v_round v < 4) demo_vertices)).

Lemma demo_binds : UniverseBinds four_seats demo_faulty (demo_net net_digest) (demo_net net_U).
Proof.
  split.
  - apply net_universe. vm_compute. reflexivity.
  - intros r s r' s' d v v' (H1 & _ & _ & E1)%net_U_spec (H2 & _ & _ & E2)%net_U_spec.
    assert (forallb (fun v => forallb (fun v' => negb (demo_net net_digest v =? demo_net net_digest v') ||
      bool_decide (v = v')) demo_vertices) demo_vertices = true) as Hc by (vm_compute; reflexivity).
    rewrite forallb_forall in Hc. apply list_elem_of_In in H1, H2. specialize (Hc v H1).
    rewrite forallb_forall in Hc. specialize (Hc v' H2). rewrite E1, E2, N.eqb_refl in Hc.
    by apply bool_decide_eq_true in Hc.
  - intros r s d v ref (H1 & _)%net_U_spec Hr.
    apply list_elem_of_fmap in H1 as (p & -> & _). by apply not_elem_of_nil in Hr.
Qed.

Abbreviation demo_replica :=
  (replica_run sample_hash (fun d => d + 1) demo_order demo_state demo_cp_digest demo_root demo_result
     888 four_seats demo_faulty (demo_net net_digest) (demo_net net_U) demo_config demo_start 5) (only parsing).

Lemma build_loop_log_of cp_digest root_of fuel k : log_of (build_loop cp_digest root_of fuel k) = log_of k.
Proof.
  revert k. induction fuel as [|fuel IH]; intros k; cbn [build_loop]; [done|].
  destruct (k_decided (co_cps k)) as [|pc rest]; [done|]. destruct (pc_ordering_root pc) as [d|]; [|done].
  destruct (negb _); [done|]. destruct (_ && _); [done|]. rewrite IH.
  unfold log_of, emitted, sign_front. cbn. by rewrite omap_app, app_nil_r.
Qed.

Lemma demo_replica_finish me ws :
  view_inb demo_vertices demo_digest (demo_net net_view_of ws) = true ->
  dag_floor (demo_net net_view_of ws) = 0 ->
  fits demo_start (demo_step try_commit (demo_deliver me ws)) ->
  fits demo_start (release_segments (demo_step try_commit (demo_deliver me ws))) ->
  demo_replica me (demo_finish (demo_deliver me ws)).
Proof.
  intros Hin Hfl F1 F2. unfold demo_finish. set (k := set_next_committee_root _ _ _ _).
  assert (demo_replica me k /\ fits demo_start k) as [Hr Hf].
  { assert (fits demo_start k) as F3.
    { unfold fits, k, set_next_committee_root, build_checkpoints. by rewrite build_loop_log_of. }
    split; [|done]. eapply rr_step; [|apply rp_root|exact F3]. eapply rr_step; [|apply rp_release|exact F2].
    eapply rr_step; [|apply rp_commit|exact F1]. eapply rr_step; [apply rr_start| |by vm_compute].
    apply rp_receive. split; try done.
    - split; try done. exists []. by rewrite app_nil_r.
    - by apply net_view. }
  clearbody k. revert k Hr Hf. generalize (heights 1 13) as hs.
  induction hs as [|h hs IH]; intros k Hr Hf; cbn [foldl]; [done|].
  assert (fits demo_start (demo_execute k h)) as Hf'.
  { unfold fits, demo_execute, on_executed, build_checkpoints. by rewrite build_loop_log_of. }
  apply IH; [|done]. eapply rr_step; [exact Hr|apply rp_executed|exact Hf'].
Qed.

Lemma demo_ahead_run : demo_replica 0%nat demo_ahead.
Proof. apply demo_replica_finish; vm_compute; reflexivity. Qed.

Lemma demo_behind_run : demo_replica 1%nat demo_behind.
Proof. apply demo_replica_finish; vm_compute; reflexivity. Qed.

Lemma replicas_agree_witness :
  length (full_log demo_behind) = 9%nat /\ length (full_log demo_ahead) = 14%nat /\
  full_log demo_behind `prefix_of` full_log demo_ahead.
Proof.
  assert (length (full_log demo_behind) = 9%nat) as H1 by (vm_compute; reflexivity).
  assert (length (full_log demo_ahead) = 14%nat) as H2 by (vm_compute; reflexivity).
  split_and!; [exact H1|exact H2|].
  destruct (replicas_agree sample_hash (fun d => d + 1) demo_order demo_state demo_cp_digest demo_root
    demo_result 888 four_seats demo_faulty (demo_net net_digest) (demo_net net_U) demo_config demo_start 5
    four_seats_wf ltac:(vm_compute; discriminate) demo_binds demo_start_ok
    1 demo_behind 0 demo_ahead demo_behind_run demo_ahead_run) as [[H _]|[H _]]; [exact H|].
  apply prefix_length in H. rewrite H1, H2 in H. lia.
Defined.

Lemma signed_agree_witness :
  length (signed demo_behind) = 1%nat /\ length (signed demo_ahead) = 2%nat /\
  signed demo_behind `prefix_of` signed demo_ahead.
Proof.
  assert (length (signed demo_behind) = 1%nat) as H1 by (vm_compute; reflexivity).
  assert (length (signed demo_ahead) = 2%nat) as H2 by (vm_compute; reflexivity).
  split_and!; [exact H1|exact H2|].
  destruct (signed_agree sample_hash (fun d => d + 1) demo_order demo_state demo_cp_digest demo_root
    demo_result 888 four_seats demo_faulty (demo_net net_digest) (demo_net net_U) demo_config demo_start 5
    four_seats_wf ltac:(vm_compute; discriminate) demo_binds demo_start_ok
    1 demo_behind 0 demo_ahead demo_behind_run demo_ahead_run) as [H|H]; [exact H|].
  apply prefix_length in H. rewrite H1, H2 in H. lia.
Defined.
