(* ===== verification/Node.v ===== *)
(** The rest of the consensus core ([tenzro-consensus/src/core.rs]): rounds and
    proposals, messages, fetches and repair, votes and certificates.

    [Order] holds the ordering half of [Core]. A [Node] is that half with the
    other fields, in records by concern: rounds and time ([Pace]), fetches and
    replies ([Fetches]), votes and certificates ([Certs]), what waits for a
    checkpoint's state ([Resuming]), and what is handed to the caller, messages
    and journal. [nd_delivered] is a history of the digests reliable broadcast
    delivered, for the statements of theorems; nothing reads it. Counters and
    durations kept for diagnosis are left out. A hash map is iterated in the
    order [hash_order] gives. *)

From stdpp Require Import prelude gmap list sorting.
From Stdlib Require Import NArith ZArith Lia.
From S2P Require Import Prelude Committee Checkpoint Merkle Rbc Vertex Dag Schedule Commit Batch Order.

(** ** Messages and records *)

Record Frontier := mkFrontier {
  f_round : option Round;
  f_highest : list VertexRef;
  f_next_checkpoint : N;
}.

Inductive Message :=
| MPropose (v : Vertex)
| MSignals (ss : list Signal)
| MBatch (p : BatchPayload)
| MFetchVertices (ds : list Digest)
| MVertices (vs : list Vertex)
| MFetchBatches (ds : list Digest)
| MBatches (ps : list BatchPayload)
| MVote (v : CheckpointVote)
| MCertificate (c : Certificate)
| MFrontier (f : Frontier)
| MFetchOrdering (index : N)
| MOrdering (s : OrderingState).

Inductive Target := All | One (v : ValidatorIndex).

(** [Record] of the recovery journal; [Resumed] is a certificate with its
    state. *)
Inductive JournalRecord :=
| JOwn (v : Vertex)
| JSignal (s : Signal)
| JDelivered (v : Vertex)
| JBatch (p : BatchPayload)
| JResumed (c : Certificate) (s : OrderingState).

(** ** State *)

Record Pace := mkPace {
  n_round : option Round;
  n_round_entered_ms : N;
  n_next_batch_sequence : N;
  n_now_ms : N;
  n_last_payload_round : option Round;
  n_frontier_held : bool;
  n_connected : SeatSet;
  n_started : bool;
  n_last_repair_ms : N;
}.

Record Fetches := mkFetches {
  h_frame_fetches : nat;
  h_batch_reply_bytes : gmap ValidatorIndex N;
  h_batch_replied : gmap (ValidatorIndex * Digest) N;
  h_frame_answered_frontier : bool;
  h_frame_answered_ordering : bool;
  h_frontier_answered_ms : gmap ValidatorIndex N;
}.

Record Certs := mkCerts {
  f_votes : VoteCollector;
  f_sessions : SessionBook;
  f_certificates : gmap N Certificate;
  f_own_votes : gmap N CheckpointVote;
  f_certified_handover_index : N;
}.

Record Resuming := mkResuming {
  rs_certificate : Certificate;
  rs_own_round : option Round;
  rs_asked_ms : N;
}.

Record Node := mkNode {
  nd_core : Core;
  nd_start : EpochStart;
  nd_pace : Pace;
  nd_fetch : Fetches;
  nd_certs : Certs;
  nd_resuming : option Resuming;
  nd_outbox : list (Target * Message);
  nd_journal : list JournalRecord;
  nd_delivered : list (Round * ValidatorIndex * Digest);
}.

Definition MAX_FETCH : nat := N.to_nat 1024.
Definition MAX_FETCHES_PER_FRAME : nat := 4.
Definition MAX_BATCH_REPLY_BYTES : N := N.shiftl 8 20.
Definition BATCH_REPLY_COOLDOWN_RETRIES : N := 8.
Definition MAX_SIGNALS_PER_FRAME : nat := N.to_nat 4096.
Definition LIVE_ROUNDS : Round := 2.
Definition MAX_BULK_FETCH : nat := 256.
Definition MIN_UNCOMMITTED_ROUNDS : Round := 16.
Definition MAX_BATCH_BYTES : N := N.shiftl 1 20.

(** *** Field updates *)

Definition set_core (n : Node) (k : Core) : Node :=
  mkNode k (nd_start n) (nd_pace n) (nd_fetch n) (nd_certs n) (nd_resuming n) (nd_outbox n) (nd_journal n) (nd_delivered n).
Definition set_pace (n : Node) (p : Pace) : Node :=
  mkNode (nd_core n) (nd_start n) p (nd_fetch n) (nd_certs n) (nd_resuming n) (nd_outbox n) (nd_journal n) (nd_delivered n).
Definition set_fetch (n : Node) (h : Fetches) : Node :=
  mkNode (nd_core n) (nd_start n) (nd_pace n) h (nd_certs n) (nd_resuming n) (nd_outbox n) (nd_journal n) (nd_delivered n).
Definition set_certs (n : Node) (f : Certs) : Node :=
  mkNode (nd_core n) (nd_start n) (nd_pace n) (nd_fetch n) f (nd_resuming n) (nd_outbox n) (nd_journal n) (nd_delivered n).
Definition set_resuming (n : Node) (r : option Resuming) : Node :=
  mkNode (nd_core n) (nd_start n) (nd_pace n) (nd_fetch n) (nd_certs n) r (nd_outbox n) (nd_journal n) (nd_delivered n).
Definition send (n : Node) (to : Target) (m : Message) : Node :=
  mkNode (nd_core n) (nd_start n) (nd_pace n) (nd_fetch n) (nd_certs n) (nd_resuming n)
    (nd_outbox n ++ [(to, m)]) (nd_journal n) (nd_delivered n).
Definition journal (n : Node) (r : JournalRecord) : Node :=
  mkNode (nd_core n) (nd_start n) (nd_pace n) (nd_fetch n) (nd_certs n) (nd_resuming n)
    (nd_outbox n) (nd_journal n ++ [r]) (nd_delivered n).
(** Reliable broadcast delivered a digest. *)
Definition note_delivered (n : Node) (x : Round * ValidatorIndex * Digest) : Node :=
  mkNode (nd_core n) (nd_start n) (nd_pace n) (nd_fetch n) (nd_certs n) (nd_resuming n)
    (nd_outbox n) (nd_journal n) (nd_delivered n ++ [x]).

Definition upd_core (f : Core -> Core) (n : Node) : Node := set_core n (f (nd_core n)).

Definition set_now (p : Pace) (now : N) : Pace :=
  mkPace (n_round p) (n_round_entered_ms p) (n_next_batch_sequence p) now (n_last_payload_round p)
    (n_frontier_held p) (n_connected p) (n_started p) (n_last_repair_ms p).
Definition set_payload_round (p : Pace) (r : option Round) : Pace :=
  mkPace (n_round p) (n_round_entered_ms p) (n_next_batch_sequence p) (n_now_ms p) r
    (n_frontier_held p) (n_connected p) (n_started p) (n_last_repair_ms p).
Definition set_round (p : Pace) (r : option Round) (entered : N) : Pace :=
  mkPace r entered (n_next_batch_sequence p) (n_now_ms p) (n_last_payload_round p)
    (n_frontier_held p) (n_connected p) (n_started p) (n_last_repair_ms p).
Definition set_sequence (p : Pace) (s : N) : Pace :=
  mkPace (n_round p) (n_round_entered_ms p) s (n_now_ms p) (n_last_payload_round p)
    (n_frontier_held p) (n_connected p) (n_started p) (n_last_repair_ms p).
Definition set_connected (p : Pace) (s : SeatSet) (started : bool) : Pace :=
  mkPace (n_round p) (n_round_entered_ms p) (n_next_batch_sequence p) (n_now_ms p)
    (n_last_payload_round p) (n_frontier_held p) s started (n_last_repair_ms p).
Definition set_repair (p : Pace) (at_ms : N) : Pace :=
  mkPace (n_round p) (n_round_entered_ms p) (n_next_batch_sequence p) (n_now_ms p)
    (n_last_payload_round p) (n_frontier_held p) (n_connected p) (n_started p) at_ms.

Definition set_dag (x : Vertices) (g : Dag) : Vertices :=
  mkVerts g (x_rbc x) (x_first_proposals x) (x_bodies x) (x_unechoed x) (x_wanted_vertices x)
    (x_history x) (x_history_rounds x).
Definition set_rbc (x : Vertices) (rb : ReliableBroadcast) : Vertices :=
  mkVerts (x_dag x) rb (x_first_proposals x) (x_bodies x) (x_unechoed x) (x_wanted_vertices x)
    (x_history x) (x_history_rounds x).
Definition set_first_proposals (x : Vertices) fp : Vertices :=
  mkVerts (x_dag x) (x_rbc x) fp (x_bodies x) (x_unechoed x) (x_wanted_vertices x)
    (x_history x) (x_history_rounds x).
Definition set_bodies (x : Vertices) m : Vertices :=
  mkVerts (x_dag x) (x_rbc x) (x_first_proposals x) m (x_unechoed x) (x_wanted_vertices x)
    (x_history x) (x_history_rounds x).
Definition set_unechoed (x : Vertices) m : Vertices :=
  mkVerts (x_dag x) (x_rbc x) (x_first_proposals x) (x_bodies x) m (x_wanted_vertices x)
    (x_history x) (x_history_rounds x).
Definition set_wanted_vertices (x : Vertices) m : Vertices :=
  mkVerts (x_dag x) (x_rbc x) (x_first_proposals x) (x_bodies x) (x_unechoed x) m
    (x_history x) (x_history_rounds x).

Definition set_payloads (b : Batches) ps prs : Batches :=
  mkBat (b_availability b) ps prs (b_own_unintroduced b) (b_own_introduced b) (b_carry_pool b)
    (b_wanted b) (b_waiting b) (b_uncertified b) (b_executed_through b).
Definition set_own (b : Batches) unintroduced introduced : Batches :=
  mkBat (b_availability b) (b_payloads b) (b_payload_round b) unintroduced introduced
    (b_carry_pool b) (b_wanted b) (b_waiting b) (b_uncertified b) (b_executed_through b).
Definition set_carry_pool (b : Batches) m : Batches :=
  mkBat (b_availability b) (b_payloads b) (b_payload_round b) (b_own_unintroduced b)
    (b_own_introduced b) m (b_wanted b) (b_waiting b) (b_uncertified b) (b_executed_through b).
Definition set_wanted (b : Batches) m : Batches :=
  mkBat (b_availability b) (b_payloads b) (b_payload_round b) (b_own_unintroduced b)
    (b_own_introduced b) (b_carry_pool b) m (b_waiting b) (b_uncertified b) (b_executed_through b).
Definition set_uncertified_payloads (b : Batches) m : Batches :=
  mkBat (b_availability b) (b_payloads b) (b_payload_round b) (b_own_unintroduced b)
    (b_own_introduced b) (b_carry_pool b) (b_wanted b) (b_waiting b) m (b_executed_through b).

Definition upd_verts (f : Vertices -> Vertices) : Node -> Node :=
  upd_core (fun k => with_verts k (f (co_verts k))).
Definition upd_bat (f : Batches -> Batches) : Node -> Node :=
  upd_core (fun k => with_bat k (f (co_bat k))).
Definition emits (es : list Event) : Node -> Node := upd_core (fun k => emit k es).

(** *** Reading *)

Definition cfg_of (n : Node) : CoreConfig := co_cfg (nd_core n).
Definition comm_of (n : Node) : Committee := co_committee (nd_core n).
Definition me_of (n : Node) : ValidatorIndex := co_me (nd_core n).
Definition verts_of (n : Node) : Vertices := co_verts (nd_core n).
Definition dag_of (n : Node) : Dag := x_dag (co_verts (nd_core n)).
Definition bat_of (n : Node) : Batches := co_bat (nd_core n).
Definition round_or_0 (n : Node) : Round := default 0 (n_round (nd_pace n)).

(** [chunks(k)]. *)
Fixpoint chunks_loop {A} (fuel : nat) (k : nat) (l : list A) : list (list A) :=
  match fuel, l with
  | S fuel, _ :: _ => take k l :: chunks_loop fuel k (drop k l)
  | _, _ => []
  end.
Definition chunks {A} (k : nat) (l : list A) : list (list A) := chunks_loop (length l) k l.

Definition sends (to : Target) (ms : list Message) (n : Node) : Node := foldl (fun n m => send n to m) n ms.

Definition max_opt (a b : option N) : option N :=
  match a, b with
  | Some x, Some y => Some (N.max x y)
  | Some x, None => Some x
  | None, b => b
  end.

(** The map's highest entry. *)
Definition last_key {A} (m : gmap N A) : option N := max_key m.

(** Digests in order. *)
Definition sort_digests (ds : list Digest) : list Digest := merge_sort N.le ds.

(** The functions the code takes from libraries: leader draws and seeds, the
    digests of ordering states, checkpoints, Merkle leaves, vertices, batches and
    session certificates, composite signatures, the two ML-DSA-65
    implementations over the representative of a message, and the order in which
    a hash map is iterated. *)
Class Library := {
  draw_hash : Digest -> Round -> nat -> N;
  seed_hash : Digest -> Digest;
  order_hash : Digest -> N -> N -> Digest -> Digest;
  ordering_digest : OrderingState -> Digest;
  cp_digest : Checkpoint -> Digest;
  root_of : list Digest -> Digest;
  vertex_digest : Vertex -> Digest;
  batch_digest : BatchPayload -> Digest;
  fingerprint : ValidatorPublicKey -> Digest;
  session_digest : SessionCertificate -> Digest;
  key_verify : ValidatorPublicKey -> Domain -> list N -> CompositeSignature -> bool;
  message_representative : Domain -> list N -> option (list N);
  primary : list N -> list N -> list N -> bool;
  second : list N -> list N -> list N -> bool;
  hash_order : forall A : Type, list A -> list A;
}.

Section node.
Context `{Library}.

Definition entries {K A} `{Countable K} (m : gmap K A) : list (K * A) := hash_order _ (map_to_list m).

(** ** Two verifiers ([nversion.rs]) *)

Definition agree (key : ValidatorPublicKey) (domain : Domain) (message : list N)
    (sig : CompositeSignature) : bool :=
  match message_representative domain message with
  | None => true
  | Some rep => Bool.eqb (primary (ml_dsa key) rep (sig_ml_dsa sig)) (second (ml_dsa key) rep (sig_ml_dsa sig))
  end.

Definition session_agrees (c : Committee) (s : SessionCertificate) : bool :=
  match member_position fingerprint c s with
  | None => true
  | Some (_, m) =>
      agree (m_public_key m) SESSION_CERTIFICATE_DOMAIN (certificate_message fingerprint s) (sc_signature s)
  end.

Definition vote_agrees (c : Committee) (v : CheckpointVote) : bool :=
  session_agrees c (vs_session (vt_signature v)) &&
  agree (sc_session_key (vs_session (vt_signature v))) CHECKPOINT_VOTE_DOMAIN
    (be_bytes 32 (cp_digest (vt_checkpoint v))) (vs_signature (vt_signature v)).

Definition certificate_agrees (ct : Certificate) (b : SessionBook) : bool :=
  forallb (fun p => match book_get b p.1 with
                    | None => true
                    | Some (_, s) => agree (sc_session_key s) CHECKPOINT_VOTE_DOMAIN
                                       (be_bytes 32 (cp_digest (ct_checkpoint ct))) p.2
                    end) (zip (ct_sessions ct) (ct_signatures ct)).

(** ** Votes and certificates *)

Definition set_votes (f : Certs) (vc : VoteCollector) : Certs :=
  mkCerts vc (f_sessions f) (f_certificates f) (f_own_votes f) (f_certified_handover_index f).
Definition set_sessions (f : Certs) (b : SessionBook) : Certs :=
  mkCerts (f_votes f) b (f_certificates f) (f_own_votes f) (f_certified_handover_index f).
Definition set_own_votes (f : Certs) (m : gmap N CheckpointVote) : Certs :=
  mkCerts (f_votes f) (f_sessions f) (f_certificates f) m (f_certified_handover_index f).
Definition set_certified_handover (f : Certs) (i : N) : Certs :=
  mkCerts (f_votes f) (f_sessions f) (f_certificates f) (f_own_votes f) i.
Definition upd_certs (g : Certs -> Certs) (n : Node) : Node := set_certs n (g (nd_certs n)).

Definition disagreement (n : Node) (index : N) : Node := upd_core (fun k => on_disagreement k index) n.

Definition context_of (n : Node) : CertificateContext :=
  mkContext (cg_chain_id (cfg_of n)) (cg_genesis_hash (cfg_of n)) (comm_of n) (f_sessions (nd_certs n)).

Definition complete_epoch (n : Node) (handover : Certificate) : Node :=
  let b := bat_of n in
  let stranded := sort_digests ((map_to_list (b_own_introduced b)).*1 ++ (b_digest <$> b_own_unintroduced b)) in
  emits [EvEpochComplete handover]
    (emits (EvUnordered <$> omap (fun d => b_payloads b !! d) stranded)
       (upd_bat (fun b => set_own b [] ∅) n)).

(** A certificate new to this validator, and whether it completes the epoch. *)
Definition certified (n : Node) (ct : Certificate) : Node :=
  let cp := ct_checkpoint ct in
  let index := cp_index cp in
  let n := upd_bat (fun b => set_uncertified_payloads b
             (filter (fun p => wadd64 (cp_last_height cp) 1 <= p.1) (b_uncertified b))) n in
  upd_certs (fun f =>
    mkCerts (vc_prune_below (f_votes f) (index - 16)) (f_sessions f)
      (keep_last 8 (<[index := ct]> (f_certificates f)))
      (filter (fun p => wadd64 index 1 <= p.1) (f_own_votes f))
      (if bool_decide (is_Some (cp_next_committee_root cp)) && negb (k_epoch_closed (co_cps (nd_core n)))
       then wadd64 index (cg_handover_confirmations (cfg_of n))
       else f_certified_handover_index f)) n.

Definition on_certified (n : Node) (ct : Certificate) : Node :=
  let index := cp_index (ct_checkpoint ct) in
  if bool_decide (is_Some (f_certificates (nd_certs n) !! index)) then n
  else
    let n := certified n ct in
    if (index =? k_handover_index (co_cps (nd_core n))) ||
       (index =? f_certified_handover_index (nd_certs n))
    then complete_epoch n ct
    else emits [EvCertified ct] n.

Definition equivocation_of (c : Committee) (a b : CheckpointVote) : list Event :=
  match member c (vt_signer a) with
  | Some m => [EvEquivocation (mkEquivocation (m_public_key m) (vt_checkpoint a) (vt_signature a)
                 (vt_checkpoint b) (vt_signature b))]
  | None => []
  end.

Definition count_vote (n : Node) (vote : CheckpointVote) : Node :=
  match book_admit fingerprint key_verify session_digest (f_sessions (nd_certs n)) (comm_of n)
          (vs_session (vt_signature vote)) with
  | Err _ => n
  | Ok (b, _) =>
      let n := upd_certs (fun f => set_sessions f b) n in
      let '(vc, out) := add session_digest cp_digest (comm_of n) (f_votes (nd_certs n)) vote in
      let n := upd_certs (fun f => set_votes f vc) n in
      match out with
      | Certified ct => on_certified n ct
      | Equivocation a b => emits (equivocation_of (comm_of n) a b) n
      | Counted | Duplicate => n
      end
  end.

(** The highest index a vote is held for. *)
Definition vote_reach (n : Node) : N :=
  let next := k_next_checkpoint_index (co_cps (nd_core n)) in
  sat_add64 (match last_key (f_certificates (nd_certs n)) with
             | None => next
             | Some i => N.max next (wadd64 i 1)
             end) SIGNED_VOTE_WINDOW.

Definition on_vote (n : Node) (vote : CheckpointVote) : Node :=
  match member (comm_of n) (vt_signer vote) with
  | None => n
  | Some m =>
      let cp := vt_checkpoint vote in
      if negb (cp_epoch cp =? c_epoch (comm_of n)) || negb (cp_chain_id cp =? cg_chain_id (cfg_of n))
         || negb (cp_genesis_hash cp =? cg_genesis_hash (cfg_of n)) then n
      else if vote_reach n <? cp_index cp then n
      else if negb (vote_agrees (comm_of n) vote) then disagreement n (cp_index cp)
      else if negb (vote_verify fingerprint key_verify cp_digest vote (m_public_key m)) then n
      else count_vote n vote
  end.

Definition on_certificate (n : Node) (ct : Certificate) : Node :=
  let cp := ct_checkpoint ct in
  if negb (certificate_agrees ct (f_sessions (nd_certs n))) then disagreement n (cp_index cp)
  else if negb (is_ok (certificate_verify key_verify cp_digest ct (context_of n))) then n
  else
    match f_certificates (nd_certs n) !! cp_index cp with
    | Some mine =>
        if cp_digest (ct_checkpoint mine) =? cp_digest cp then n
        else emits ((fun e => EvEquivocation e.2) <$>
               from_conflicting_certificates key_verify cp_digest mine ct (context_of n)) n
    | None => on_certified n ct
    end.

Definition on_own_vote (n : Node) (vote : CheckpointVote) : Node :=
  let cp := vt_checkpoint vote in
  if negb (cp_epoch cp =? c_epoch (comm_of n)) then n
  else
    let n := if bool_decide (is_Some (f_certificates (nd_certs n) !! cp_index cp)) then n
             else upd_certs (fun f => set_own_votes f (<[cp_index cp := vote]> (f_own_votes f))) n in
    count_vote (send n All (MVote vote)) vote.

(** The session certificates that come with a certificate; [None] once the
    verifiers disagree on one. *)
Fixpoint admit_sessions (n : Node) (index : N) (ss : list SessionCertificate) : Node * bool :=
  match ss with
  | [] => (n, true)
  | s :: ss =>
      if negb (session_agrees (comm_of n) s) then (disagreement n index, false)
      else
        let b := f_sessions (nd_certs n) in
        admit_sessions
          (match book_admit fingerprint key_verify session_digest b (comm_of n) s with
           | Ok (b', _) => upd_certs (fun f => set_sessions f b') n
           | Err _ => n
           end) index ss
  end.

Definition adopt_certificate (n : Node) (ct : Certificate) (ss : list SessionCertificate) : Node :=
  let '(n, ok) := admit_sessions n (cp_index (ct_checkpoint ct)) ss in
  if ok then on_certificate n ct else n.

Definition adopt_handover (n : Node) (ct : Certificate) (ss : list SessionCertificate) : Node :=
  let cp := ct_checkpoint ct in
  let '(n, ok) := admit_sessions n (cp_index cp) ss in
  if negb ok then n
  else if negb (certificate_agrees ct (f_sessions (nd_certs n))) then disagreement n (cp_index cp)
  else if negb (is_ok (certificate_verify key_verify cp_digest ct (context_of n))) then n
  else
    if (cp_epoch cp =? c_epoch (comm_of n)) && negb (k_epoch_closed (co_cps (nd_core n)))
       && (f_certified_handover_index (nd_certs n) =? U64_MAX)
    then
      let n := upd_certs (fun f => set_certified_handover f (cp_index cp)) n in
      match f_certificates (nd_certs n) !! cp_index cp with
      | Some held => complete_epoch n held
      | None => on_certificate n ct
      end
    else on_certificate n ct.

(** Where the next epoch starts, from the certificate that hands over. *)
Definition next_epoch_start (n : Node) (handover : Certificate) : EpochStart :=
  let cp := ct_checkpoint handover in
  let k := nd_core n in
  let next := o_next_height (co_ord k) in
  let below := merge_sort (fun a b : N * (Digest * Digest * list Digest) => a.1 <= b.1)
                 (map_to_list (filter (fun p => p.1 < next) (k_executed (co_cps k)))) in
  let keep := N.to_nat (STATE_ROOT_LAG + 1) in
  mkStart (N.max next (wadd64 (cp_last_height cp) 1)) (wadd64 (cp_index cp) 1) (cp_digest cp)
    (cp_timestamp_ms cp)
    ((fun p => (p.1, p.2.1.1, p.2.1.2)) <$> drop (length below - keep) below)
    (sc_lookahead (o_schedule (co_ord k))).

Definition latest_certificate (n : Node) : option Certificate :=
  last_key (f_certificates (nd_certs n)) ≫= fun i => f_certificates (nd_certs n) !! i.

(** ** Reliable broadcast and the DAG *)

(** [HashMap::entry(d).or_default()] on [Wanted]. *)
Definition want (m : gmap Digest Wanted) (d : Digest) : gmap Digest Wanted :=
  match m !! d with Some _ => m | None => <[d := mkWanted 0 0 None 0]> m end.

(** [entry(d).or_insert(w)], then the highest round of a vertex naming it. *)
Definition want_at (w : Wanted) (round : Round) (m : gmap Digest Wanted) (d : Digest) : gmap Digest Wanted :=
  let w := default w (m !! d) in
  <[d := mkWanted (wt_asked_ms w) (wt_attempts w) (wt_holder w) (N.max (wt_round w) round)]> m.

Definition held_payload (n : Node) (d : Digest) : bool := bool_decide (is_Some (b_payloads (bat_of n) !! d)).

(** Every batch a vertex introduces or carries. *)
Definition named_batches (v : Vertex) : list BatchRef := v_batches v ++ (cb_batch <$> v_carried v).

(** A vertex that entered the DAG. *)
Definition record_inserted (n : Node) (r : VertexRef) : Node :=
  let n := upd_verts (fun x => set_bodies (set_wanted_vertices x (delete (r_digest r) (x_wanted_vertices x)))
                                 (delete (r_digest r) (x_bodies x))) n in
  match get (dag_of n) (r_digest r) with
  | None => n
  | Some v =>
      let n := if bool_decide (v_batches v = []) && bool_decide (v_carried v = []) then n
               else set_pace n (set_payload_round (nd_pace n)
                      (max_opt (n_last_payload_round (nd_pace n)) (Some (v_round v)))) in
      let n := journal n (JDelivered v) in
      let n := upd_bat (fun b => set_carry_pool b
                 (foldl (fun m x => delete (v_source v, b_sequence x) m) (b_carry_pool b) (v_batches v))) n in
      let missing := filter (fun x => held_payload n (b_digest x) = false /\ v_source v <> me_of n)
                       (named_batches v) in
      upd_bat (fun b => set_wanted b
        (foldl (fun m x => want_at (mkWanted 0 0 (Some (v_source v)) (v_round v)) (v_round v) m (b_digest x))
           (b_wanted b) missing)) n
  end.

Definition after_offer (n : Node) (inserted : list VertexRef) (missing : list Digest) : Node :=
  let n := foldl record_inserted n inserted in
  upd_verts (fun x => set_wanted_vertices x (foldl want (x_wanted_vertices x) missing)) n.

Definition core_offer (n : Node) (v : Vertex) : Node :=
  let '(g, inserted, missing) := offer vertex_digest (dag_of n) v in
  after_offer (upd_verts (fun x => set_dag x g) n) inserted missing.

Definition core_hold (n : Node) (v : Vertex) : Node :=
  let '(g, inserted, missing) := hold vertex_digest (dag_of n) v in
  after_offer (upd_verts (fun x => set_dag x g) n) inserted missing.

(** The instance of [(round, source)] delivered [d]. *)
Definition deliver_vertex (n : Node) (round : Round) (source : ValidatorIndex) (d : Digest) : Node :=
  let n := note_delivered n (round, source, d) in
  let n := upd_verts (fun x => set_dag x (expect (x_dag x) d round)) n in
  let n := match x_unechoed (verts_of n) !! (round, source) with
           | Some v => if vertex_digest v =? d then upd_verts (fun x => set_bodies x (<[d := v]> (x_bodies x))) n else n
           | None => n
           end in
  match x_bodies (verts_of n) !! d with
  | Some v => core_offer n v
  | None => upd_verts (fun x => set_wanted_vertices x (want (x_wanted_vertices x) d)) n
  end.

Definition apply_action (st : Node * list Signal) (a : RbcAction) : Node * list Signal :=
  let '(n, signals) := st in
  match a with
  | Broadcast s => (journal n (JSignal s), signals ++ [s])
  | Deliver round source d => (deliver_vertex n round source d, signals)
  end.

Definition apply_rbc (n : Node) (acts : list RbcAction) : Node :=
  let '(n, signals) := foldl apply_action (n, []) acts in
  match signals with [] => n | _ => send n All (MSignals signals) end.

(** ** Proposals of others *)

(** [None] while a named batch is missing, otherwise whether each is what it is
    named as. *)
Fixpoint holds_named (payloads : gmap Digest BatchPayload) (named : list (ValidatorIndex * BatchRef))
    (ok : bool) : option bool :=
  match named with
  | [] => Some ok
  | (author, b) :: named =>
      match payloads !! b_digest b with
      | None => None
      | Some p =>
          holds_named payloads named
            (ok && ((bp_author p =? author)%nat && (bp_sequence p =? b_sequence b)
                    && (bp_transactions p =? b_transactions b)
                    && (N.of_nat (length (bp_body p)) =? b_bytes b)))
      end
  end.

Definition holds_batches_of (n : Node) (v : Vertex) : option bool :=
  holds_named (b_payloads (bat_of n))
    ((pair (v_source v) <$> v_batches v) ++ ((fun c => (cb_author c, cb_batch c)) <$> v_carried v)) true.

Definition echo (n : Node) (v : Vertex) : Node :=
  let d := vertex_digest v in
  let '(rb, acts) := Rbc.on_propose (comm_of n) (x_rbc (verts_of n)) (v_source v) (v_round v) (v_source v) d in
  let n := upd_verts (fun x => set_rbc x rb) n in
  let n := match acts with
           | [] => n
           | _ => if contains (dag_of n) d then n
                  else upd_verts (fun x => set_bodies x (<[d := v]> (x_bodies x))) n
           end in
  apply_rbc n acts.

Definition echo_held (n : Node) : Node :=
  let ready := omap (fun p => (fun ok => (p.1, ok)) <$> holds_batches_of n p.2)
                 (entries (x_unechoed (verts_of n))) in
  foldl (fun n p =>
    match x_unechoed (verts_of n) !! p.1 with
    | None => n
    | Some v =>
        let n := upd_verts (fun x => set_unechoed x (delete p.1 (x_unechoed x))) n in
        if p.2 : bool then echo n v else n
    end) n ready.

Definition horizon (n : Node) : Round := wadd64 (round_or_0 n) (cg_max_rounds_ahead (cfg_of n)).

Definition note_first_proposal (round : Round) (source : ValidatorIndex) (strong : list VertexRef)
    (x : Vertices) : Vertices :=
  let at_round := default ∅ (x_first_proposals x !! round) in
  set_first_proposals x (<[round := <[source := strong]> at_round]> (x_first_proposals x)).

Definition core_on_propose (n : Node) (from : ValidatorIndex) (v : Vertex) : Node :=
  if negb (from =? v_source v)%nat || negb (is_ok (check_structure (comm_of n) v)) then n
  else if (v_round v <? dag_floor (dag_of n)) || (horizon n <? v_round v) then n
  else
    let slot := (v_round v, v_source v) in
    if negb (is_none (get_proposed (x_rbc (verts_of n)) (v_round v) (v_source v)))
       || negb (is_none (x_unechoed (verts_of n) !! slot)) then n
    else
      let n := upd_verts (note_first_proposal (v_round v) (v_source v) (v_strong v)) n in
      let missing := filter (fun d => held_payload n d = false) (b_digest <$> named_batches v) in
      match missing with
      | [] => if bool_decide (holds_batches_of n v = Some true) then echo n v else n
      | _ =>
          let n := upd_bat (fun b => set_wanted b
                     (foldl (want_at (mkWanted (n_now_ms (nd_pace n)) 1 (Some (v_source v)) (v_round v)) (v_round v))
                        (b_wanted b) missing)) n in
          let n := sends (One (v_source v)) (MFetchBatches <$> chunks MAX_FETCH missing) n in
          upd_verts (fun x => set_unechoed x (<[slot := v]> (x_unechoed x))) n
      end.

(** ** Batches *)

Definition batch_reference (p : BatchPayload) : BatchRef :=
  mkBatchRef (bp_sequence p) (batch_digest p) (N.of_nat (length (bp_body p)) mod 2 ^ 32) (bp_transactions p).

Definition store_payload (n : Node) (d : Digest) (p : BatchPayload) : Node :=
  upd_bat (fun b => set_payloads b (<[d := p]> (b_payloads b)) (<[d := round_or_0 n]> (b_payload_round b))) n.

Definition on_batch (n : Node) (from : ValidatorIndex) (p : BatchPayload) : Node :=
  if negb (bp_author p =? from)%nat || negb (bp_epoch p =? c_epoch (comm_of n))
     || (MAX_BATCH_BYTES <? N.of_nat (length (bp_body p))) || o_halted (co_ord (nd_core n)) then n
  else
    let d := batch_digest p in
    if held_payload n d then n
    else
      let b := bat_of n in
      let base := released_through (b_availability b) (bp_author p) in
      let wanted := bool_decide (is_Some (b_wanted b !! d)) in
      if (wadd64 base MAX_AHEAD_PER_AUTHOR <=? bp_sequence p)
         || (negb wanted && ((bp_sequence p <? base)
             || bool_decide (is_Some (b_carry_pool b !! (bp_author p, bp_sequence p))))) then n
      else
        let n := upd_bat (fun b => set_wanted b (delete d (b_wanted b))) n in
        let n := if base <=? bp_sequence p
                 then upd_bat (fun b => set_carry_pool b
                        (<[(bp_author p, bp_sequence p) := batch_reference p]> (b_carry_pool b))) n
                 else n in
        store_payload n d p.

Definition submit_part (n : Node) (part : BatchPart) : Node :=
  let payload := seal (c_epoch (comm_of n)) (me_of n) (n_next_batch_sequence (nd_pace n)) [part] in
  if o_halted (co_ord (nd_core n)) || (MAX_BATCH_BYTES <? N.of_nat (length (bp_body payload)))
     || (MAX_TRANSACTIONS_PER_BLOCK <? p_transactions part)
  then emits [EvUnordered payload] n
  else
    let n := set_pace n (set_sequence (nd_pace n) (wadd64 (n_next_batch_sequence (nd_pace n)) 1)) in
    let r := batch_reference payload in
    let n := store_payload n (b_digest r) payload in
    let n := journal n (JBatch payload) in
    let n := upd_bat (fun b => set_own b (b_own_unintroduced b ++ [r]) (b_own_introduced b)) n in
    send n All (MBatch payload).

(** ** Rounds *)

Definition round_weight (n : Node) (r : Round) : N :=
  nsum ((fun p => seats (comm_of n) p.1) <$> dag_round (dag_of n) r).

Definition is_idle (n : Node) : bool :=
  let b := bat_of n in
  bool_decide (b_own_unintroduced b = []) && bool_decide (b_own_introduced b = ∅)
  && bool_decide (b_carry_pool b = ∅) && match b_waiting b with [] => true | _ => false end
  && match n_last_payload_round (nd_pace n) with
     | None => true
     | Some r => match o_last_committed (co_ord (nd_core n)) with
                 | Some c => wadd64 r 1 <? c
                 | None => false
                 end
     end.

Definition max_uncommitted_rounds (n : Node) : Round :=
  N.min (N.max (cg_gc_depth (cfg_of n)) MIN_UNCOMMITTED_ROUNDS * 2) U64_MAX.

(** The round a node proposes in of its own pace at most. *)
Definition round_cap (n : Node) : Round :=
  sat_add64 (default 0 (o_last_committed (co_ord (nd_core n)))) (max_uncommitted_rounds n).

Definition stall_after_ms (n : Node) : N :=
  let pace := if is_idle n then cg_idle_round_interval_ms (cfg_of n) else cg_min_round_interval_ms (cfg_of n) in
  N.min (N.max (N.max (cg_leader_timeout_ms (cfg_of n)) (cg_fetch_retry_ms (cfg_of n))) pace * 2) U64_MAX.

Definition sched_of (n : Node) : Schedule := o_schedule (co_ord (nd_core n)).

(** Asking for the leaders of a round draws them, and keeps the draw. *)
Definition draw_to (n : Node) (r : Round) : Node :=
  upd_core (fun k => set_schedule k (leader draw_hash (o_schedule (co_ord k)) r 0).1 (o_halted (co_ord k))) n.

Definition author_seq_le (a b : ValidatorIndex * N * BatchRef) : Prop :=
  (a.1.1 < b.1.1)%nat \/ (a.1.1 = b.1.1 /\ a.1.2 <= b.1.2).

#[local] Instance author_seq_le_dec a b : Decision (author_seq_le a b).
Proof. unfold author_seq_le. apply _. Defined.

(** [carry_pool.pop_first()] until [MAX_CARRIED] are taken. *)
Definition take_carried (pool : gmap (ValidatorIndex * N) BatchRef) : list (ValidatorIndex * N * BatchRef) :=
  take MAX_CARRIED (merge_sort author_seq_le (map_to_list pool)).

Definition strong_refs (n : Node) (round : Round) : list VertexRef :=
  if round =? 0 then []
  else merge_sort ref_le ((fun p => mkRef (round - 1) p.1 p.2.1) <$> dag_round (dag_of n) (round - 1)).

Definition weak_refs (n : Node) (round : Round) (strong : list VertexRef) : list VertexRef :=
  if 2 <=? round
  then orphans_below (dag_of n) (round - 1) (r_digest <$> strong) (is_ordered (co_ord (nd_core n)))
         (cg_max_weak_refs (cfg_of n))
  else [].

(** The vertex proposed, and the node with the batches taken into it. *)
Definition build_vertex (n : Node) (round : Round) (now_ms : N) : Node * Vertex :=
  let strong := strong_refs n round in
  let weak := weak_refs n round strong in
  let halted := o_halted (co_ord (nd_core n)) in
  let batches := if halted then [] else b_own_unintroduced (bat_of n) in
  let n := if halted then n
           else upd_bat (fun b => set_own b []
                  (foldl (fun m x => <[b_digest x := round]> m) (b_own_introduced b) batches)) n in
  let lead := negb halted && leads draw_hash (sched_of n) round (me_of n) in
  let taken := if lead then take_carried (b_carry_pool (bat_of n)) else [] in
  let n := if halted then n else draw_to n round in
  let n := upd_bat (fun b => set_carry_pool b (foldl (fun m x => delete x.1 m) (b_carry_pool b) taken)) n in
  (n, mkVertex (c_epoch (comm_of n)) round (me_of n) strong weak batches
        ((fun x => mkCarried x.1.1 x.2) <$> taken)
        (N.max now_ms (o_last_timestamp_ms (co_ord (nd_core n))))).

Definition propose (n : Node) (round : Round) (now_ms : N) : Node :=
  let '(n, v) := build_vertex n round now_ms in
  let n := set_pace n (set_round (nd_pace n) (Some round) now_ms) in
  let d := vertex_digest v in
  let n := upd_verts (note_first_proposal round (me_of n) (v_strong v)) n in
  let n := upd_verts (fun x => set_bodies x (<[d := v]> (x_bodies x))) n in
  let n := journal n (JOwn v) in
  let n := send n All (MPropose v) in
  let '(rb, acts) := Rbc.on_propose (comm_of n) (x_rbc (verts_of n)) (me_of n) round (me_of n) d in
  apply_rbc (upd_verts (fun x => set_rbc x rb) n) acts.

(** Whether every leader vertex of a round is held, or every vertex while its
    leaders are not settled; the node keeps the draw. *)
Definition leaders_held (n : Node) (r : Round) : Node * bool :=
  if leaders_settled r (o_next_slot (co_ord (nd_core n))).1 (sc_lookahead (sched_of n))
  then (draw_to n r,
        forallb (fun k => negb (is_none (dag_at (dag_of n) r (leader_of draw_hash (sched_of n) r k))))
          (seq 0 (sc_slots (sched_of n))))
  else (n, (length (dag_round (dag_of n) r) =? committee_size (comm_of n))%nat).

Definition own_slot_missing (n : Node) (r : Round) (paced : bool) : Node * bool :=
  if negb paced && is_none (dag_at (dag_of n) r (me_of n))
  then (draw_to n r, leads draw_hash (sched_of n) r (me_of n))
  else (n, false).

Definition enter_after (n : Node) (r : Round) (now_ms : N) (paced : bool) : Node * bool :=
  let p := nd_pace n in
  if match n_round p with Some current => r <? current | None => false end then (n, false)
  else
    let interval := if o_halted (co_ord (nd_core n)) || is_idle n
                    then cg_idle_round_interval_ms (cfg_of n) else cg_min_round_interval_ms (cfg_of n) in
    if paced && (n_frontier_held p || (now_ms <? sat_add64 (n_round_entered_ms p) interval)) then (n, false)
    else if paced && (round_cap n <? wadd64 r 1) then (n, false)
    else if round_weight n r <? quorum (comm_of n) then (n, false)
    else
      let '(n, held) := leaders_held n r in
      let '(n, own_missing) := own_slot_missing n r paced in
      let waited := negb own_missing
                    && (sat_add64 (n_round_entered_ms p) (cg_leader_timeout_ms (cfg_of n)) <=? now_ms) in
      if negb held && negb waited then (n, false)
      else (propose n (wadd64 r 1) now_ms, true).

(** [while top > current && weight(top) < quorum { top -= 1 }]. *)
Fixpoint lower_top (fuel : nat) (n : Node) (current top : Round) : Round :=
  match fuel with
  | O => top
  | S fuel => if (current <? top) && (round_weight n top <? quorum (comm_of n))
              then lower_top fuel n current (top - 1) else top
  end.

Definition or_else (st : Node * bool) (f : Node -> Node * bool) : Node * bool :=
  if st.2 : bool then st else f st.1.

(** One pass of [try_advance]: the node, and whether a round was entered. *)
Definition advance_once (n : Node) (now_ms : N) : Node * bool :=
  match n_round (nd_pace n) with
  | None => (n, false)
  | Some current =>
      let top := match highest_round (dag_of n) with Some h => N.max h current | None => current end in
      let top := lower_top (N.to_nat (top - current)) n current top in
      if current <? top then
        let lead := leads draw_hash (sched_of n) top (me_of n) in
        let n := draw_to n top in
        or_else
          (or_else (if lead then enter_after n (top - 1) now_ms false else (n, false))
             (fun n => enter_after n top now_ms false))
          (fun n => enter_after n current now_ms true)
      else enter_after n current now_ms true
  end.

Fixpoint try_advance_loop (fuel : nat) (n : Node) (now_ms : N) : option Node :=
  let '(n', entered) := advance_once n now_ms in
  if negb entered then Some n'
  else match fuel with O => None | S fuel => try_advance_loop fuel n' now_ms end.

(** The highest round of a vertex the node holds, in the DAG or beside it. *)
Definition top_of {K} `{Countable K} (m : gmap K Vertex) : Round :=
  foldr N.max 0 ((fun p => v_round p.2) <$> map_to_list m).

Definition node_top (n : Node) : Round :=
  let g := dag_of n in
  let x := verts_of n in
  N.max (default 0 (highest_round g))
    (N.max (N.max (top_of (pending g)) (top_of (held g))) (N.max (top_of (x_bodies x)) (top_of (x_unechoed x)))).

(** A pass that goes round again enters a later round, up to one past the
    highest it knows of or the cap. *)
Definition advance_fuel (n : Node) : nat :=
  N.to_nat (N.max (node_top n + 1) (round_cap n) - round_or_0 n).

Definition try_advance (n : Node) (now_ms : N) : Node :=
  default n (try_advance_loop (advance_fuel n) n now_ms).

Definition progress (n : Node) (now_ms : N) : Node :=
  let n := upd_core (try_commit draw_hash seed_hash order_hash ordering_digest cp_digest root_of) n in
  let n := try_advance n now_ms in
  upd_core release_segments n.

(** ** Repair *)

(** The rounds from [hi] down to [lo]. *)
Definition rounds_down (lo hi : Round) : list Round :=
  rev ((fun i => lo + N.of_nat i) <$> seq 0 (N.to_nat (hi + 1 - lo))).

(** The first that is given. *)
Fixpoint find_map {A B} (f : A -> option B) (l : list A) : option B :=
  match l with
  | [] => None
  | x :: l => match f x with Some y => Some y | None => find_map f l end
  end.

Definition frontier_of (n : Node) (source : ValidatorIndex) : option VertexRef :=
  let g := dag_of n in
  let top := default 0 (highest_round g) in
  let below := match undelivered_from (x_rbc (verts_of n)) !! source with
               | Some hole => if hole <=? dag_floor g then None else Some (N.min (hole - 1) top)
               | None => Some top
               end in
  below ≫= fun hi => find_map (fun r => (fun p => mkRef r source p.1) <$> dag_at g r source)
                       (rounds_down (dag_floor g) hi).

Definition frontier (n : Node) : Frontier :=
  mkFrontier (n_round (nd_pace n)) (omap (frontier_of n) (seq 0 (committee_size (comm_of n))))
    (match last_key (f_certificates (nd_certs n)) with
     | Some i => wadd64 i 1
     | None => es_first_checkpoint (nd_start n)
     end).

Definition delivered_of (f : Frontier) (source : ValidatorIndex) : option Round :=
  foldr (fun r acc => max_opt (Some (r_round r)) acc) None
    (filter (fun r => r_source r = source) (f_highest f)).

(** One past the highest round delivered. *)
Definition first_lacking (f : Frontier) (source : ValidatorIndex) : Round :=
  match delivered_of f source with Some r => sat_add64 r 1 | None => 0 end.

Definition own_vertex (n : Node) (r : Round) : option Vertex :=
  match dag_at (dag_of n) r (me_of n) with
  | Some (_, v) => Some v
  | None => head (filter (fun v => v_source v = me_of n /\ v_round v = r) (entries (x_bodies (verts_of n))).*2)
  end.

Definition set_answered (h : Fetches) (m : gmap ValidatorIndex N) : Fetches :=
  mkFetches (h_frame_fetches h) (h_batch_reply_bytes h) (h_batch_replied h) (h_frame_answered_frontier h)
    (h_frame_answered_ordering h) m.
Definition set_frame (h : Fetches) (fetches : nat) (frontier ordering : bool) : Fetches :=
  mkFetches fetches (h_batch_reply_bytes h) (h_batch_replied h) frontier ordering (h_frontier_answered_ms h).
Definition set_replied (h : Fetches) bytes replied : Fetches :=
  mkFetches (h_frame_fetches h) bytes replied (h_frame_answered_frontier h) (h_frame_answered_ordering h)
    (h_frontier_answered_ms h).

(** What the peer's frontier shows it lacks, in the order it is sent. *)
Definition frontier_reply (n : Node) (current : Round) (f : Frontier) : list Message :=
  let floor := dag_floor (dag_of n) in
  let low := foldl (fun low s => N.min low (first_lacking f s)) (default 0 (f_round f))
               (seq 0 (committee_size (comm_of n))) in
  let low := N.max low floor in
  if current <? low then []
  else
    let mine_from := N.max (first_lacking f (me_of n)) floor in
    let vertices := omap (own_vertex n) (rev (rounds_down mine_from current)) in
    let votes := (merge_sort (fun a b : N * CheckpointVote => a.1 <= b.1)
                    (filter (fun p => f_next_checkpoint f <= p.1) (map_to_list (f_own_votes (nd_certs n))))).*2 in
    (MPropose <$> vertices)
    ++ (MSignals <$> chunks MAX_SIGNALS_PER_FRAME (sent_signals (x_rbc (verts_of n)) low))
    ++ (MVote <$> votes)
    ++ match last_key (f_certificates (nd_certs n)) with
       | Some i => if f_next_checkpoint f <=? i
                   then match f_certificates (nd_certs n) !! i with Some c => [MCertificate c] | None => [] end
                   else []
       | None => []
       end.

Definition on_frontier (n : Node) (peer : ValidatorIndex) (f : Frontier) : Node :=
  match n_round (nd_pace n) with
  | None => n
  | Some current =>
      let now := n_now_ms (nd_pace n) in
      if match h_frontier_answered_ms (nd_fetch n) !! peer with
         | Some at_ms => now - at_ms <? cg_fetch_retry_ms (cfg_of n)
         | None => false
         end then n
      else
        let n := set_fetch n (set_answered (nd_fetch n) (<[peer := now]> (h_frontier_answered_ms (nd_fetch n)))) in
        sends (One peer) (frontier_reply n current f) n
  end.

Definition repair_stall (n : Node) (now_ms : N) : Node :=
  if o_halted (co_ord (nd_core n)) || is_none (n_round (nd_pace n)) then n
  else
    let after := stall_after_ms n in
    if (now_ms <? sat_add64 (n_round_entered_ms (nd_pace n)) after)
       || (now_ms <? sat_add64 (n_last_repair_ms (nd_pace n)) after) then n
    else send (set_pace n (set_repair (nd_pace n) now_ms)) All (MFrontier (frontier n)).

(** ** Fetches *)

Definition batch_reply_cooldown_ms (n : Node) : N :=
  N.min (cg_fetch_retry_ms (cfg_of n) * BATCH_REPLY_COOLDOWN_RETRIES) U64_MAX.

(** The batches sent in answer, with the budget left and when each was sent. *)
Definition reply_batch (n : Node) (from : ValidatorIndex)
    (st : N * gmap (ValidatorIndex * Digest) N * list BatchPayload) (d : Digest)
  : N * gmap (ValidatorIndex * Digest) N * list BatchPayload :=
  let '(budget, replied, found) := st in
  match b_payloads (bat_of n) !! d with
  | None => st
  | Some p =>
      let now := n_now_ms (nd_pace n) in
      if match replied !! (from, d) with
         | Some at_ms => now - at_ms <? batch_reply_cooldown_ms n
         | None => false
         end then st
      else
        let len := N.max (N.of_nat (length (bp_body p))) 1 in
        if budget <? len then st
        else (budget - len, <[(from, d) := now]> replied, found ++ [p])
  end.

Definition answer_batch_fetch (n : Node) (from : ValidatorIndex) (ds : list Digest) : Node :=
  let h := nd_fetch n in
  let used := default 0 (h_batch_reply_bytes h !! from) in
  let room := MAX_BATCH_REPLY_BYTES - used in
  let '(budget, replied, found) :=
    foldl (reply_batch n from) (room, h_batch_replied h, []) (take MAX_FETCH ds) in
  let n := set_fetch n (set_replied h (h_batch_reply_bytes h) replied) in
  match found with
  | [] => n
  | _ =>
      let n := set_fetch n (set_replied (nd_fetch n)
                 (<[from := used + (room - budget)]> (h_batch_reply_bytes h)) replied) in
      send n (One from) (MBatches found)
  end.

Definition find_vertex (n : Node) (d : Digest) : option Vertex :=
  match get (dag_of n) d with
  | Some v => Some v
  | None => match x_bodies (verts_of n) !! d with
            | Some v => Some v
            | None => x_history (verts_of n) !! d
            end
  end.

(** The peer asked on the [attempts]-th attempt: by the digest's first bytes,
    never this validator. *)
Definition pick_peer (size : nat) (me : ValidatorIndex) (attempts : N) (d : Digest) : ValidatorIndex :=
  let base := (N.shiftr d 248 mod 256 + N.shiftr d 240 mod 256 * 256 + attempts) mod 2 ^ 32 in
  let i := base mod (N.of_nat size - 1) in
  N.to_nat (if N.of_nat me <=? i then i + 1 else i).

Definition asked (w : Wanted) (now_ms : N) : Wanted :=
  mkWanted now_ms ((wt_attempts w + 1) mod 2 ^ 32) (wt_holder w) (wt_round w).

Definition due (w : Wanted) (now_ms retry : N) : bool :=
  (wt_attempts w =? 0) || (retry <=? now_ms - wt_asked_ms w).

(** The vertices asked for, with the number of old ones among them. *)
Definition retry_vertex (n : Node) (now_ms : N)
    (st : gmap Digest Wanted * nat * list (ValidatorIndex * Digest)) (p : Digest * Wanted)
  : gmap Digest Wanted * nat * list (ValidatorIndex * Digest) :=
  let '(m, bulk, out) := st in
  let '(d, w) := p in
  if negb (due w now_ms (cg_fetch_retry_ms (cfg_of n))) then st
  else
    let live_from := round_or_0 n - LIVE_ROUNDS in
    let old := match expected_round (dag_of n) d with Some r => r <? live_from | None => false end in
    if old && (bulk =? MAX_BULK_FETCH)%nat then st
    else
      let peer := pick_peer (committee_size (comm_of n)) (me_of n) (wt_attempts w) d in
      (<[d := asked w now_ms]> m, if old then S bulk else bulk, out ++ [(peer, d)]).

Definition batch_peer (n : Node) (w : Wanted) (d : Digest) : ValidatorIndex :=
  let pick a := pick_peer (committee_size (comm_of n)) (me_of n) a d in
  match wt_holder w with
  | Some h => if (h =? me_of n)%nat then pick (wt_attempts w)
              else if wt_attempts w mod 2 =? 0 then h else pick (wt_attempts w / 2)
  | None => pick (wt_attempts w)
  end.

Definition retry_batch (n : Node) (now_ms : N)
    (st : gmap Digest Wanted * list (ValidatorIndex * Digest)) (p : Digest * Wanted)
  : gmap Digest Wanted * list (ValidatorIndex * Digest) :=
  let '(m, out) := st in
  let '(d, w) := p in
  if negb (due w now_ms (cg_fetch_retry_ms (cfg_of n))) then st
  else (<[d := asked w now_ms]> m, out ++ [(batch_peer n w d, d)]).

Definition asked_of (out : list (ValidatorIndex * Digest)) (p : ValidatorIndex) : list Digest :=
  (filter (fun x => x.1 = p) out).*2.

Definition retry_fetches (n : Node) (now_ms : N) : Node :=
  if (committee_size (comm_of n) <? 2)%nat then n
  else
    let '(wv, _, vs) := foldl (retry_vertex n now_ms) (x_wanted_vertices (verts_of n), 0%nat, [])
                          (entries (x_wanted_vertices (verts_of n))) in
    let '(wb, bs) := foldl (retry_batch n now_ms) (b_wanted (bat_of n), []) (entries (b_wanted (bat_of n))) in
    let n := upd_verts (fun x => set_wanted_vertices x wv) n in
    let n := upd_bat (fun b => set_wanted b wb) n in
    foldl (fun n p =>
      sends (One p) ((MFetchVertices <$> chunks MAX_FETCH (asked_of vs p))
                     ++ (MFetchBatches <$> chunks MAX_FETCH (asked_of bs p))) n)
      n (hash_order _ (remove_dups (vs.*1 ++ bs.*1))).

(** ** Resuming from a certified checkpoint *)

Definition ask_ordering (n : Node) (now_ms : N) : Node :=
  let retry := N.min (N.max (cg_fetch_retry_ms (cfg_of n)) 1 * 4) U64_MAX in
  match nd_resuming n with
  | None => n
  | Some r =>
      if negb (rs_asked_ms r =? 0) && (now_ms <? sat_add64 (rs_asked_ms r) retry) then n
      else
        let n := set_resuming n (Some (mkResuming (rs_certificate r) (rs_own_round r) (N.max now_ms 1))) in
        send n All (MFetchOrdering (cp_index (ct_checkpoint (rs_certificate r))))
  end.

(** The ordering fields taken from a state; a state without a schedule is not
    one a core exports. *)
Definition install_core (k : Core) (ct : Certificate) (st : OrderingState) : Core :=
  let cp := ct_checkpoint ct in
  let index := cp_index cp in
  let o := co_ord k in
  let p := co_cps k in
  let b := co_bat k in
  let x := co_verts k in
  let c := co_committee k in
  let seeds := match or_seed_tail st with [] => [cp_prev cp] | l => l end in
  mkCore (co_cfg k) c (co_me k)
    (mkOrd (match or_schedule st with Some s => import s | None => o_schedule o end)
       ((or_next_slot st).1, N.to_nat (or_next_slot st).2) (o_halted o) (o_leaders_committed o)
       (o_leaders_skipped o) (o_skipped_slots o) (Some (or_anchor_round st))
       (foldl (fun m e => <[e.1 := e.2]> m) ∅ (or_ordered st)) (or_next_height st) (or_last_timestamp_ms st))
    (mkBat (av_import (or_availability st)) (b_payloads b) (b_payload_round b) (b_own_unintroduced b)
       (b_own_introduced b) (b_carry_pool b) (b_wanted b) [] ∅ (b_executed_through b))
    (mkCps (or_last_state_height st) (or_epoch_ends_ms st) (or_epoch_closed st)
       (or_last_checkpoint_height st) (or_last_checkpoint_ts st) (wadd64 index 1) [] seeds
       (k_executed p) (cp_digest cp) (k_next_committee_root p) (or_handover_index st)
       (<[index := st]> (k_ordering_states p)))
    (mkVerts (dag_prune_below (with_vouching (m_seats <$> c_members c) (validity c)) (or_floor st)).1
       (x_rbc x) (x_first_proposals x) (x_bodies x) (x_unechoed x) ∅ (x_history x) (x_history_rounds x))
    (co_events k).

(** The sequence after this validator's highest introduced batch. *)
Definition own_next (me : ValidatorIndex) (st : OrderingState) : N :=
  let early := flat_map (fun p : ValidatorIndex * list (N * Intro) =>
                 if (p.1 =? me)%nat then (fun e => wadd64 e.1 1) <$> p.2 else [])
                 (as_early (or_availability st)) in
  N.max (foldr N.max 0 early) (released_through (av_import (or_availability st)) me).

Definition install (n : Node) (ct : Certificate) (st : OrderingState) (own_round : option Round)
    (now_ms : N) : Node :=
  let n := journal (set_resuming n None) (JResumed ct st) in
  let n := upd_core (fun k => install_core k ct st) n in
  let p := nd_pace n in
  let p := set_sequence p (N.max (n_next_batch_sequence p) (own_next (me_of n) st)) in
  let n := set_pace n (set_round p (max_opt own_round (Some (or_anchor_round st))) now_ms) in
  upd_certs (fun f => mkCerts (f_votes f) (f_sessions f)
    (<[cp_index (ct_checkpoint ct) := ct]> (f_certificates f)) (f_own_votes f)
    (f_certified_handover_index f)) n.

Definition on_ordering (n : Node) (st : OrderingState) : Node :=
  match nd_resuming n with
  | None => n
  | Some r =>
      let cp := ct_checkpoint (rs_certificate r) in
      if negb (or_index st =? cp_index cp) || negb (or_epoch st =? cp_epoch cp)
         || negb (ordering_digest st =? cp_ordering_root cp) then n
      else
        let now := n_now_ms (nd_pace n) in
        let n := install n (rs_certificate r) st (rs_own_round r) now in
        let n := set_pace n (set_repair (nd_pace n) now) in
        let n := send n All (MFrontier (frontier n)) in
        progress n now
  end.

(** ** Inputs *)

Definition on_signals (n : Node) (from : ValidatorIndex) (ss : list Signal) : Node :=
  let limit := horizon n in
  foldl (fun n s =>
    if limit <? s_round s then n
    else
      let '(rb, acts) := on_signal (comm_of n) (x_rbc (verts_of n)) from s in
      apply_rbc (upd_verts (fun x => set_rbc x rb) n) acts) n ss.

Definition on_vertex (n : Node) (v : Vertex) : Node :=
  let d := vertex_digest v in
  if negb (is_ok (check_structure (comm_of n) v)) then n
  else
    let wanted := bool_decide (is_Some (x_wanted_vertices (verts_of n) !! d)) in
    let n := upd_verts (fun x => set_wanted_vertices x (delete d (x_wanted_vertices x))) n in
    if is_expected (dag_of n) d then core_offer n v
    else if wanted && negb (contains (dag_of n) d) then core_hold n v else n.

Definition on_fetched_batch (n : Node) (p : BatchPayload) : Node :=
  let d := batch_digest p in
  if negb (bp_epoch p =? c_epoch (comm_of n)) then n
  else
    let wanted := bool_decide (is_Some (b_wanted (bat_of n) !! d)) in
    let n := upd_bat (fun b => set_wanted b (delete d (b_wanted b))) n in
    if wanted && (N.of_nat (length (bp_body p)) <=? MAX_BATCH_BYTES) then store_payload n d p else n.

Definition on_message (n : Node) (from : ValidatorIndex) (m : Message) : Node :=
  let h := nd_fetch n in
  let counted := set_fetch n (set_frame h (S (h_frame_fetches h)) (h_frame_answered_frontier h)
                                (h_frame_answered_ordering h)) in
  match m with
  | MPropose v => core_on_propose n from v
  | MSignals ss => on_signals n from ss
  | MBatch p => on_batch n from p
  | MFetchVertices ds =>
      if (MAX_FETCHES_PER_FRAME <=? h_frame_fetches h)%nat then n
      else match omap (find_vertex n) (take MAX_FETCH ds) with
           | [] => counted
           | found => send counted (One from) (MVertices found)
           end
  | MVertices vs => foldl on_vertex n vs
  | MFetchBatches ds =>
      if (MAX_FETCHES_PER_FRAME <=? h_frame_fetches h)%nat then n else answer_batch_fetch counted from ds
  | MBatches ps => foldl on_fetched_batch n ps
  | MVote v => on_vote n v
  | MCertificate c => on_certificate n c
  | MFrontier f =>
      if h_frame_answered_frontier h then n
      else on_frontier (set_fetch n (set_frame h (h_frame_fetches h) true (h_frame_answered_ordering h))) from f
  | MFetchOrdering index =>
      if h_frame_answered_ordering h then n
      else
        let n := set_fetch n (set_frame h (h_frame_fetches h) (h_frame_answered_frontier h) true) in
        match k_ordering_states (co_cps (nd_core n)) !! index with
        | Some st => send n (One from) (MOrdering st)
        | None => n
        end
  | MOrdering _ => n
  end.

Definition on_messages (n : Node) (from : ValidatorIndex) (ms : list Message) (now_ms : N) : Node :=
  if (from =? me_of n)%nat || is_none (member (comm_of n) from) then n
  else
    let n := set_pace n (set_now (nd_pace n) now_ms) in
    match nd_resuming n with
    | Some _ => foldl (fun n m => match m with MOrdering st => on_ordering n st | _ => n end) n ms
    | None =>
        let n := set_fetch n (set_frame (nd_fetch n) 0 false false) in
        let n := foldl (fun n m => on_message n from m) n ms in
        progress (echo_held n) now_ms
    end.

Definition on_tick (n : Node) (now_ms : N) : Node :=
  let n := set_pace n (set_now (nd_pace n) now_ms) in
  match nd_resuming n with
  | Some _ => ask_ordering n now_ms
  | None => repair_stall (progress (retry_fetches n now_ms) now_ms) now_ms
  end.

Definition try_start (n : Node) (now_ms : N) : Node :=
  let p := nd_pace n in
  if n_started p && is_none (nd_resuming n) && is_none (n_round p)
     && (quorum (comm_of n) <=? ss_weight (n_connected p))
  then propose n 0 now_ms else n.

Definition connect (n : Node) (peer : ValidatorIndex) (started : bool) : Node :=
  let p := nd_pace n in
  set_pace n (set_connected p (ss_insert (n_connected p) peer (seats (comm_of n) peer)).1 started).

Definition start (n : Node) (now_ms : N) : Node :=
  let n := connect (set_pace n (set_now (nd_pace n) now_ms)) (me_of n) true in
  match nd_resuming n with
  | Some _ => ask_ordering n now_ms
  | None => try_start n now_ms
  end.

Definition on_peer_up (n : Node) (peer : ValidatorIndex) (now_ms : N) : Node :=
  if (peer =? me_of n)%nat || is_none (member (comm_of n) peer) then n
  else
    let n := connect (set_pace n (set_now (nd_pace n) now_ms)) peer (n_started (nd_pace n)) in
    match nd_resuming n with
    | Some r => send n (One peer) (MFetchOrdering (cp_index (ct_checkpoint (rs_certificate r))))
    | None => try_start (send n (One peer) (MFrontier (frontier n))) now_ms
    end.

Definition hold_frontier (n : Node) (h : bool) : Node :=
  let p := nd_pace n in
  set_pace n (mkPace (n_round p) (n_round_entered_ms p) (n_next_batch_sequence p) (n_now_ms p)
    (n_last_payload_round p) h (n_connected p) (n_started p) (n_last_repair_ms p)).

(** [take_outbox]; what was taken is given too. *)
Definition take_outbox (n : Node) : Node * list (Target * Message) :=
  let h := nd_fetch n in
  let now := n_now_ms (nd_pace n) in
  let h := set_replied h ∅ (filter (fun p => now - p.2 < batch_reply_cooldown_ms n) (h_batch_replied h)) in
  (mkNode (nd_core n) (nd_start n) (nd_pace n) h (nd_certs n) (nd_resuming n) [] (nd_journal n)
     (nd_delivered n), nd_outbox n).

(** ** New nodes *)

Definition node_new (cfg : CoreConfig) (c : Committee) (me : ValidatorIndex) (st : EpochStart) (seed : Digest)
  : Node :=
  mkNode (core_new cfg c me st seed) st
    (mkPace None 0 0 0 None false ss_new false 0)
    (mkFetches 0 ∅ ∅ false false ∅)
    (mkCerts collector_new (book_new (cg_chain_id cfg) (cg_genesis_hash cfg) (c_epoch c)) ∅ ∅ U64_MAX)
    None [] [] [].

(** The node of a validator that waits for the ordering state [ct] commits. *)
Definition node_resume (cfg : CoreConfig) (c : Committee) (me : ValidatorIndex) (seed : Digest)
    (ct : Certificate) (ss : list SessionCertificate) (own_round : option Round)
    (next_batch_sequence executed_through : N) (lookahead : Round) : Node :=
  let cp := ct_checkpoint ct in
  let n := node_new cfg c me
    (mkStart (wadd64 (cp_last_height cp) 1) (wadd64 (cp_index cp) 1) (cp_digest cp) (cp_timestamp_ms cp) []
       lookahead) seed in
  let n := foldl (fun n s =>
    match book_admit fingerprint key_verify session_digest (f_sessions (nd_certs n)) c s with
    | Ok (b, _) => upd_certs (fun f => set_sessions f b) n
    | Err _ => n
    end) n ss in
  let n := upd_core (fun k =>
    let o := co_ord k in
    let b := co_bat k in
    with_bat
      (with_ord k (mkOrd (o_schedule o) (o_next_slot o) (o_halted o) (o_leaders_committed o)
         (o_leaders_skipped o) (o_skipped_slots o) (Some (cp_anchor_round cp)) (o_ordered o)
         (o_next_height o) (o_last_timestamp_ms o)))
      (mkBat (b_availability b) (b_payloads b) (b_payload_round b) (b_own_unintroduced b) (b_own_introduced b)
         (b_carry_pool b) (b_wanted b) (b_waiting b) (b_uncertified b) executed_through)) n in
  let n := set_pace n (set_sequence (nd_pace n) next_batch_sequence) in
  set_resuming n (Some (mkResuming ct own_round 0)).

(** What the caller hands the core. *)
Inductive Input :=
| InMessages (from : ValidatorIndex) (ms : list Message) (now_ms : N)
| InTick (now_ms : N)
| InStart (now_ms : N)
| InPeerUp (peer : ValidatorIndex) (now_ms : N)
| InPart (part : BatchPart)
| InExecuted (height : N) (block_hash post_state_root : Digest) (statements : list Digest)
| InNextCommittee (root : Digest)
| InOwnVote (vote : CheckpointVote)
| InCertificate (ct : Certificate) (ss : list SessionCertificate)
| InHandover (ct : Certificate) (ss : list SessionCertificate)
| InHold (h : bool)
| InTake.

Definition node_step (n : Node) (i : Input) : Node :=
  match i with
  | InMessages from ms now => on_messages n from ms now
  | InTick now => on_tick n now
  | InStart now => start n now
  | InPeerUp peer now => on_peer_up n peer now
  | InPart part => submit_part n part
  | InExecuted h b s sts => upd_core (fun k => on_executed cp_digest root_of k h b s sts) n
  | InNextCommittee r => upd_core (fun k => set_next_committee_root cp_digest root_of k r) n
  | InOwnVote v => on_own_vote n v
  | InCertificate ct ss => adopt_certificate n ct ss
  | InHandover ct ss => adopt_handover n ct ss
  | InHold h => hold_frontier n h
  | InTake => (take_outbox n).1
  end.
End node.
