(* ===== verification/NodeFrame.v ===== *)
(** What the handlers of a node leave alone.

    Messages, fetches, votes and repair change the DAG by its own operations,
    and batches, certificates and messages; not the order ([calm]), nor the
    round and the proposals of the validator ([still]). *)

From stdpp Require Import prelude gmap list sorting.
From Stdlib Require Import NArith ZArith Lia.
From S2P Require Import Prelude Committee Checkpoint Merkle Rbc Vertex Dag Schedule Commit Batch Order OrderLog Node.

(** ** Delivery leaves the floor where it is *)

Lemma reach_item_floor g r authors : dag_floor (reach_item g r authors).1 = dag_floor g.
Proof.
  unfold reach_item. destruct (_ || _); [done|]. destruct (default _ _) as [round s0].
  destruct (insert_new s0 authors) as [s [|x added]]; [done|].
  destruct (_ <=? _); destruct (held _ !! _); done.
Qed.

Lemma reach_floor g work : dag_floor (reach g work) = dag_floor g.
Proof.
  unfold reach. destruct (_ =? _); [done|]. generalize (reach_fuel g (rev work)) as fuel.
  generalize (rev work) as w. intros w fuel. destruct (reach_loop fuel g w) as [g'|] eqn:E; [cbn|done].
  revert g w E. induction fuel as [|fuel IH]; intros g [|[r authors] w] E; cbn [reach_loop] in E; try by simplify_eq.
  pose proof (reach_item_floor g r authors) as Hf. destruct (reach_item g r authors) as [g1 pushed].
  cbn in Hf. rewrite <-Hf. by eapply IH.
Qed.

Lemma enter_floor st x : dag_floor (enter st x).1 = dag_floor st.1.
Proof.
  destruct st as [g ins]. unfold enter. destruct (pending g !! _) as [v|]; [|done]. by destruct (_ !! v_source v).
Qed.

Lemma drain_floor g : dag_floor (drain_pending g).1.1 = dag_floor g.
Proof.
  unfold drain_pending. destruct (drain_loop (size (pending g)) g []) as [[g' ins']|] eqn:E; cbn; [|done].
  revert E. generalize (size (pending g)) as fuel. generalize (@nil VertexRef) as ins. intros ins fuel. revert g ins.
  induction fuel as [|fuel IH]; intros g ins E; cbn [drain_loop] in E.
  - destruct (ready_refs g); by simplify_eq.
  - destruct (ready_refs g) as [|x xs]; [by simplify_eq|].
    assert (forall l st, dag_floor (foldl enter st l).1 = dag_floor st.1) as Hf.
    { induction l as [|y l IHl]; intros st; cbn [foldl]; [done|]. by rewrite IHl, enter_floor. }
    specialize (Hf (x :: xs) (g, ins)). destruct (foldl enter (g, ins) (x :: xs)) as [g1 ins1].
    cbn in Hf. rewrite <-Hf. by eapply IH.
Qed.

Lemma offer_floor digest g v : dag_floor (offer digest g v).1.1 = dag_floor g.
Proof.
  unfold offer. destruct (_ || _); [done|]. destruct (expected g !! _); [|done].
  destruct (accept _ _ v) as [g1 work] eqn:E. rewrite drain_floor, reach_floor. unfold accept in E. by simplify_eq.
Qed.

Lemma hold_floor digest g v : dag_floor (hold digest g v).1.1 = dag_floor g.
Proof.
  unfold hold. destruct (_ || _); [done|]. destruct (is_expected g _); [apply offer_floor|].
  by rewrite drain_floor, reach_floor.
Qed.

Section frame.
Context `{Library}.

(** What every vertex that reaches the node satisfies. *)
Context (good : Vertex -> Prop).

(** First proposals a step may record: round, author and strong references. *)
Implicit Types P : Round -> ValidatorIndex -> list VertexRef -> Prop.

(** A digest the node delivered. *)
Definition delivered_in (n : Node) (d : Digest) : Prop := exists r s, (r, s, d) ∈ nd_delivered n.

(** The vertices kept beside the DAG. *)
Definition stores (n : Node) : Prop :=
  (forall d v, x_bodies (verts_of n) !! d = Some v -> good v) /\
  (forall k v, x_unechoed (verts_of n) !! k = Some v -> good v).

Lemma stores_body n d v : stores n -> x_bodies (verts_of n) !! d = Some v -> good v.
Proof. intros [Hs _]. apply Hs. Qed.

Lemma stores_unechoed n k v : stores n -> x_unechoed (verts_of n) !! k = Some v -> good v.
Proof. intros [_ Hs]. apply Hs. Qed.

Record calm P (n n' : Node) : Prop := {
  cm_other : other_change (nd_core n) (nd_core n');
  cm_me : me_of n' = me_of n;
  cm_start : nd_start n' = nd_start n;
  cm_sched : sched_of n' = sched_of n;
  cm_slot : o_next_slot (co_ord (nd_core n')) = o_next_slot (co_ord (nd_core n));
  cm_halted : o_halted (co_ord (nd_core n)) = true -> o_halted (co_ord (nd_core n')) = true;
  cm_last : o_last_committed (co_ord (nd_core n')) = o_last_committed (co_ord (nd_core n));
  cm_ordered : o_ordered (co_ord (nd_core n')) = o_ordered (co_ord (nd_core n));
  cm_avail : b_availability (bat_of n') = b_availability (bat_of n);
  cm_executed : b_executed_through (bat_of n') = b_executed_through (bat_of n);
  cm_floor : dag_floor (dag_of n') = dag_floor (dag_of n);
  cm_delivered : nd_delivered n `prefix_of` nd_delivered n';
  cm_dag : stores n ->
    stores n' /\ dag_reachable vertex_digest good (delivered_in n') (dag_of n) (dag_of n');
  cm_first r props s refs : x_first_proposals (verts_of n') !! r = Some props -> props !! s = Some refs ->
    (exists props0, x_first_proposals (verts_of n) !! r = Some props0 /\ props0 !! s = Some refs) \/ P r s refs;
}.

(** The vertices a node proposed, in order. *)
Definition own_vertices (n : Node) : list Vertex :=
  omap (fun r => match r with JOwn v => Some v | _ => None end) (nd_journal n).

Record still (n n' : Node) : Prop := {
  sl_round : n_round (nd_pace n') = n_round (nd_pace n);
  sl_own : own_vertices n' = own_vertices n;
  sl_resuming : nd_resuming n' = nd_resuming n;
  sl_outbox v : (All, MPropose v) ∈ nd_outbox n' -> (All, MPropose v) ∈ nd_outbox n;
}.

Definition quiet P (n n' : Node) : Prop := calm P n n' /\ still n n'.

(** *** Steps compose *)

Lemma reachable_trans legit (g1 g2 g3 : Dag) :
  dag_reachable vertex_digest good legit g1 g2 ->
  dag_reachable vertex_digest good legit g2 g3 ->
  dag_reachable vertex_digest good legit g1 g3.
Proof. intros H1 H2. induction H2 as [|g g' _ IH Hs]; [done|]. by eapply dr_step. Qed.

Lemma reachable_weaken (legit legit' : Digest -> Prop) (g1 g2 : Dag) :
  (forall d, legit d -> legit' d) ->
  dag_reachable vertex_digest good legit g1 g2 ->
  dag_reachable vertex_digest good legit' g1 g2.
Proof.
  intros Hl. induction 1 as [|g g' _ IH Hs]; [constructor|]. eapply dr_step; [exact IH|].
  destruct Hs as [d r Hd|v ?|v ?|r]; constructor; auto.
Qed.

Lemma delivered_mono (n n' : Node) d :
  nd_delivered n `prefix_of` nd_delivered n' -> delivered_in n d -> delivered_in n' d.
Proof. intros [l Hl] (r & s & Hin). exists r, s. rewrite Hl. apply elem_of_app. by left. Qed.

#[global] Instance calm_refl P : Reflexive (calm P).
Proof.
  intros n. split; try done.
  - split; try done. exists []. by rewrite app_nil_r.
  - split; [done|constructor].
  - eauto.
Qed.

#[global] Instance calm_trans P : Transitive (calm P).
Proof.
  intros n1 n2 n3 A B. pose proof A as [OA]. pose proof B as [OB].
  split; try congruence.
  - destruct OA, OB. split; try congruence. destruct oc_events as (e1 & E1 & F1), oc_events0 as (e2 & E2 & F2).
    exists (e1 ++ e2). rewrite E2, E1, app_assoc. split; [done|]. by apply Forall_app.
  - intros Hh. by apply B, A.
  - etrans; [apply A|apply B].
  - intros H1. destruct (cm_dag _ _ _ A H1) as [H2 RA]. destruct (cm_dag _ _ _ B H2) as [H3 RB]. split; [done|].
    eapply reachable_trans; [|exact RB]. eapply reachable_weaken; [|exact RA].
    intros d. apply delivered_mono, B.
  - intros r props s refs H1 H2. destruct (cm_first _ _ _ B r props s refs H1 H2) as [(p0 & H3 & H4)|Hp]; [|by right].
    by apply (cm_first _ _ _ A r p0 s refs).
Qed.

#[global] Instance still_refl : Reflexive still.
Proof. by intros n. Qed.

#[global] Instance still_trans : Transitive still.
Proof. intros n1 n2 n3 [] []. split; [congruence..|]. auto. Qed.

#[global] Instance quiet_refl P : Reflexive (quiet P).
Proof. by intros n. Qed.

#[global] Instance quiet_trans P : Transitive (quiet P).
Proof. intros n1 n2 n3 [] []. split; by etrans. Qed.

Lemma foldl_quiet {A} P (f : Node -> A -> Node) l n :
  (forall n x, x ∈ l -> quiet P n (f n x)) -> quiet P n (foldl f n l).
Proof.
  revert n. induction l as [|x l IH]; intros n Hf; cbn [foldl]; [done|].
  etrans; [apply Hf; left|]. apply IH. intros. apply Hf. by right.
Qed.

Lemma quiet_weaken P P' n n' : (forall r s refs, P r s refs -> P' r s refs) -> quiet P n n' -> quiet P' n n'.
Proof.
  intros HP [[] Hs]. split; [|done]. split; try done. intros r props s refs H1 H2.
  destruct (cm_first0 r props s refs H1 H2); auto.
Qed.

(** *** Field updates *)

(** An update of what neither the order nor the DAG reads. *)
Ltac frame := split; split; try done;
  [split; try done; exists []; by rewrite app_nil_r|by split; [|constructor]|eauto].

Lemma quiet_send P n to m : (forall v, (to, m) <> (All, MPropose v)) -> quiet P n (send n to m).
Proof.
  intros Hm. split; split; try done; [split; try done; exists []; by rewrite app_nil_r|by split; [|constructor]|eauto|].
  intros v. cbn. rewrite elem_of_app, list_elem_of_singleton. intros [?|Hv]; [done|]. by destruct (Hm v).
Qed.

Lemma quiet_sends P n p ms : quiet P n (sends (One p) ms n).
Proof. apply foldl_quiet. intros. by apply quiet_send. Qed.

Lemma quiet_journal P n r : (forall v, r <> JOwn v) -> quiet P n (journal n r).
Proof.
  intros Hr. split; [|split; try done].
  - split; try done; [split; try done; exists []; by rewrite app_nil_r|by split; [|constructor]|eauto].
  - unfold own_vertices. cbn. rewrite omap_app. destruct r; try (by rewrite app_nil_r). by destruct (Hr v).
Qed.

Lemma quiet_fetch P n h : quiet P n (set_fetch n h).
Proof. frame. Qed.

Lemma quiet_certs P n f : quiet P n (set_certs n f).
Proof. frame. Qed.

Lemma quiet_pace P n p : n_round p = n_round (nd_pace n) -> quiet P n (set_pace n p).
Proof. intros. frame. Qed.

(** Events other than segments, ends of the epoch and signatures. *)
Lemma quiet_emits P n es :
  Forall (fun e => event_item e = None /\ event_signed e = None) es -> quiet P n (emits es n).
Proof.
  intros Hes. split; split; try done; [|by split; [|constructor]|eauto]. split; try done. by exists es.
Qed.

Lemma quiet_bat P n f :
  (forall b, b_availability (f b) = b_availability b /\ b_waiting (f b) = b_waiting b /\
             b_executed_through (f b) = b_executed_through b) ->
  quiet P n (upd_bat f n).
Proof.
  intros Hf. destruct (Hf (co_bat (nd_core n))) as (H1 & H2 & H3). split; split; try done; [|by split; [|constructor]|eauto].
  split; try done. exists []. by rewrite app_nil_r.
Qed.

(** Vertices beside the DAG: forgotten, or kept when they are good. *)
Lemma quiet_verts_from P n0 n f : quiet P n0 n ->
  (forall x, x_dag (f x) = x_dag x /\ x_first_proposals (f x) = x_first_proposals x) ->
  (stores n0 -> stores n -> stores (upd_verts f n)) -> quiet P n0 (upd_verts f n).
Proof.
  intros [[] [R1 R2 R3 R4]] Hf Hst. destruct (Hf (co_verts (nd_core n))) as (H1 & H2). split; [|by split]. split; try done.
  - by destruct cm_other0.
  - unfold dag_of, upd_verts, upd_core in *. cbn. by rewrite H1.
  - intros Hs. destruct (cm_dag0 Hs) as [Hn Hr]. split; [by apply Hst|].
    unfold dag_of, upd_verts, upd_core in *. cbn. by rewrite H1.
  - unfold verts_of, upd_verts, upd_core in *. cbn. by rewrite H2.
Qed.

Lemma quiet_verts_gen P n f :
  (forall x, x_dag (f x) = x_dag x /\ x_first_proposals (f x) = x_first_proposals x) ->
  (stores n -> stores (upd_verts f n)) -> quiet P n (upd_verts f n).
Proof. intros Hf Hst. apply quiet_verts_from; [done|done|]. by intros _. Qed.

Lemma quiet_verts P n f :
  (forall x, x_dag (f x) = x_dag x /\ x_first_proposals (f x) = x_first_proposals x /\
             x_bodies (f x) = x_bodies x /\ x_unechoed (f x) = x_unechoed x) ->
  quiet P n (upd_verts f n).
Proof.
  intros Hf. apply quiet_verts_gen; [intros x; by destruct (Hf x) as (? & ? & _)|].
  unfold stores, verts_of, upd_verts, upd_core. cbn. by destruct (Hf (co_verts (nd_core n))) as (_ & _ & -> & ->).
Qed.

Lemma quiet_keep_body P n0 n d v : quiet P n0 n -> (stores n0 -> good v) ->
  quiet P n0 (upd_verts (fun x => set_bodies x (<[d := v]> (x_bodies x))) n).
Proof.
  intros Hq Hv. apply quiet_verts_from; [done|done|]. intros H0 Hs. split; [|apply Hs].
  intros d' v'. cbn. rewrite lookup_insert_Some. intros [[_ <-]|[_ ?]]; [auto|by eapply stores_body].
Qed.

Lemma quiet_keep_unechoed P n k v : (stores n -> good v) ->
  quiet P n (upd_verts (fun x => set_unechoed x (<[k := v]> (x_unechoed x))) n).
Proof.
  intros Hv. apply quiet_verts_gen; [done|]. intros Hs. split; [apply Hs|].
  intros k' v'. cbn. rewrite lookup_insert_Some. intros [[_ <-]|[_ ?]]; [auto|by eapply stores_unechoed].
Qed.

Lemma quiet_drop_unechoed P n k :
  quiet P n (upd_verts (fun x => set_unechoed x (delete k (x_unechoed x))) n).
Proof.
  apply quiet_verts_gen; [done|]. intros Hs. split; [apply Hs|].
  intros k' v'. cbn. rewrite lookup_delete_Some. intros [_ ?]. by eapply stores_unechoed.
Qed.

(** *** Reliable broadcast *)

Lemma quiet_dag P n g :
  (stores n -> dag_reachable vertex_digest good (delivered_in n) (dag_of n) g) ->
  dag_floor g = dag_floor (dag_of n) -> quiet P n (upd_verts (fun x => set_dag x g) n).
Proof.
  intros Hg Hf. split; split; try done; [|by split; [|apply Hg]|eauto]. split; try done. exists []. by rewrite app_nil_r.
Qed.

Lemma quiet_note P n x : quiet P n (note_delivered n x).
Proof.
  split; split; try done; [split; try done; exists []; by rewrite app_nil_r|by apply prefix_app_r|by split; [|constructor]|eauto].
Qed.

Lemma record_inserted_quiet P n r : quiet P n (record_inserted n r).
Proof.
  unfold record_inserted. set (n1 := upd_verts _ n).
  assert (quiet P n n1) as H1.
  { apply quiet_verts_gen; [done|]. intros Hs. split; [|apply Hs]. intros d v. cbn.
    rewrite lookup_delete_Some. intros [_ ?]. by eapply stores_body. }
  etrans; [exact H1|]. clearbody n1. clear H1. destruct (get _ _) as [v|]; [|done]. set (n2 := if _ && _ then _ else _).
  assert (quiet P n1 n2) as H2.
  { unfold n2. destruct (_ && _); [done|]. by apply quiet_pace. }
  etrans; [exact H2|]. clearbody n2. etrans; [by apply (quiet_journal P n2 (JDelivered v))|].
  etrans; [|by apply quiet_bat]. by apply quiet_bat.
Qed.

Lemma after_offer_quiet P n inserted missing : quiet P n (after_offer n inserted missing).
Proof.
  unfold after_offer. transitivity (foldl record_inserted n inserted); [|by apply quiet_verts].
  apply foldl_quiet. intros. apply record_inserted_quiet.
Qed.

Lemma core_offer_quiet P n v : (stores n -> good v) -> quiet P n (core_offer n v).
Proof.
  intros Hv. unfold core_offer. pose proof (offer_floor vertex_digest (dag_of n) v) as Hf.
  pose proof (ds_offer vertex_digest good (delivered_in n) (dag_of n) v) as Hs.
  destruct (offer vertex_digest (dag_of n) v) as [[g inserted] missing]. cbn in *.
  etrans; [|apply after_offer_quiet]. apply quiet_dag; [|done]. intros Hst. eapply dr_step; [constructor|auto].
Qed.

Lemma core_hold_quiet P n v : (stores n -> good v) -> quiet P n (core_hold n v).
Proof.
  intros Hv. unfold core_hold. pose proof (hold_floor vertex_digest (dag_of n) v) as Hf.
  pose proof (ds_hold vertex_digest good (delivered_in n) (dag_of n) v) as Hs.
  destruct (hold vertex_digest (dag_of n) v) as [[g inserted] missing]. cbn in *.
  etrans; [|apply after_offer_quiet]. apply quiet_dag; [|done]. intros Hst. eapply dr_step; [constructor|auto].
Qed.

Lemma deliver_vertex_quiet P n round source d : quiet P n (deliver_vertex n round source d).
Proof.
  unfold deliver_vertex. set (n1 := note_delivered n _). set (n2 := upd_verts _ n1).
  assert (quiet P n n2) as H2.
  { etrans; [apply quiet_note|]. apply quiet_dag.
    - intros _. eapply dr_step; [constructor|]. apply ds_expect. exists round, source. apply elem_of_app. right. left.
    - unfold expect. by destruct (_ && _). }
  etrans; [exact H2|]. clearbody n2. clear H2 n1. set (n3 := match x_unechoed _ !! _ with Some _ => _ | None => _ end).
  assert (quiet P n2 n3) as H3.
  { unfold n3. destruct (x_unechoed _ !! _) as [v|] eqn:Eu; [|done]. destruct (_ =? _); [|done].
    apply quiet_keep_body; [done|]. intros Hs. by eapply stores_unechoed. }
  etrans; [exact H3|]. clearbody n3. destruct (x_bodies _ !! d) as [v|] eqn:Eb; [|by apply quiet_verts].
  apply core_offer_quiet. intros Hs. by eapply stores_body.
Qed.

Lemma apply_rbc_quiet P n acts : quiet P n (apply_rbc n acts).
Proof.
  unfold apply_rbc. assert (forall st, quiet P st.1 (foldl apply_action st acts).1) as Hf.
  { induction acts as [|a acts IH]; intros st; cbn [foldl]; [done|]. etrans; [|apply IH].
    destruct st as [m ss], a as [s|r s d]; cbn [apply_action fst].
    - by apply quiet_journal.
    - apply deliver_vertex_quiet. }
  specialize (Hf (n, [])). destruct (foldl apply_action (n, []) acts) as [m [|s ss]]; cbn in Hf; [done|].
  etrans; [exact Hf|]. by apply quiet_send.
Qed.

Lemma quiet_rbc P n rb : quiet P n (upd_verts (fun x => set_rbc x rb) n).
Proof. by apply quiet_verts. Qed.

Lemma echo_quiet P n0 n v : quiet P n0 n -> (stores n0 -> good v) -> quiet P n0 (echo n v).
Proof.
  intros Hq Hv. unfold echo. destruct (Rbc.on_propose _ _ _ _ _ _) as [rb acts].
  etrans; [|apply apply_rbc_quiet]. assert (quiet P n0 (upd_verts (fun x => set_rbc x rb) n)) as Hr.
  { etrans; [exact Hq|apply quiet_rbc]. }
  destruct acts; [done|]. destruct (contains _ _); [done|]. by apply quiet_keep_body.
Qed.

Lemma echo_held_quiet P n : quiet P n (echo_held n).
Proof.
  unfold echo_held. apply foldl_quiet. intros m [k ok] _. cbn [fst snd].
  destruct (x_unechoed _ !! k) as [v|] eqn:Ek; [|done]. pose proof (quiet_drop_unechoed P m k) as Hd.
  destruct ok; [|done]. apply echo_quiet; [done|]. intros Hs. by eapply stores_unechoed.
Qed.

Lemma note_first_quiet P n r s refs : P r s refs -> quiet P n (upd_verts (note_first_proposal r s refs) n).
Proof.
  intros HP. split; split; try done.
  - split; try done. exists []. by rewrite app_nil_r.
  - by split; [|constructor].
  - intros r' props s' refs'. unfold verts_of, upd_verts, upd_core, note_first_proposal. cbn.
    rewrite lookup_insert_Some. intros [[<- <-]|[_ Hr]]; [|eauto]. rewrite lookup_insert_Some.
    intros [[<- <-]|[_ Hs]]; [by right|]. left.
    destruct (x_first_proposals (co_verts (nd_core n)) !! r) as [props|]; [by eexists|done].
Qed.

Lemma core_on_propose_quiet P n from v :
  P (v_round v) from (v_strong v) -> good v -> quiet P n (core_on_propose n from v).
Proof.
  intros HP Hv. unfold core_on_propose. destruct (Nat.eqb_spec from (v_source v)) as [->|]; cbn [negb orb]; [|done].
  destruct (negb _); [done|]. destruct (_ || _); [done|]. destruct (_ || _); [done|].
  etrans; [by apply (note_first_quiet P n _ _ _ HP)|]. set (n1 := upd_verts _ n). clearbody n1.
  destruct (filter _ _) as [|d ds]; [destruct (bool_decide _); [by apply echo_quiet|done]|].
  etrans; [|by apply quiet_keep_unechoed]. etrans; [|apply quiet_sends]. by apply quiet_bat.
Qed.

(** *** Votes and certificates *)

(** Halting on a disagreement. *)
Lemma disagreement_quiet P n i : quiet P n (disagreement n i).
Proof.
  split; split; try done; [|by split; [|constructor]|eauto].
  split; try done. eexists. split; [reflexivity|]. by repeat constructor.
Qed.

Lemma complete_epoch_quiet P n ct : quiet P n (complete_epoch n ct).
Proof.
  unfold complete_epoch. etrans; [|apply quiet_emits; by repeat constructor].
  etrans; [|apply quiet_emits]; [by apply quiet_bat|]. apply Forall_fmap. by apply Forall_true.
Qed.

Lemma on_certified_quiet P n ct : quiet P n (on_certified n ct).
Proof.
  unfold on_certified. destruct (bool_decide _); [done|]. set (n1 := certified n ct).
  assert (quiet P n n1) as H1 by (etrans; [|apply quiet_certs]; by apply quiet_bat).
  etrans; [exact H1|]. clearbody n1. destruct (_ || _); [apply complete_epoch_quiet|].
  apply quiet_emits. by repeat constructor.
Qed.

Lemma count_vote_quiet P n v : quiet P n (count_vote n v).
Proof.
  unfold count_vote. destruct (book_admit _ _ _ _ _ _) as [[b d]|]; [|done].
  etrans; [apply (quiet_certs P n (set_sessions (nd_certs n) b))|]. set (n1 := upd_certs _ n).
  change (set_certs n _) with n1. clearbody n1. destruct (add _ _ _ _ _) as [vc out].
  etrans; [apply (quiet_certs P n1 (set_votes (nd_certs n1) vc))|]. set (n2 := upd_certs _ n1).
  change (set_certs n1 _) with n2. clearbody n2. destruct out as [| |ct|a b']; [done|done|apply on_certified_quiet|].
  apply quiet_emits. unfold equivocation_of. destruct (member _ _); by repeat constructor.
Qed.

Lemma on_vote_quiet P n v : quiet P n (on_vote n v).
Proof.
  unfold on_vote. destruct (member _ _) as [m|]; [|done]. destruct (_ || _); [done|]. destruct (_ <? _); [done|].
  destruct (vote_agrees _ v) eqn:E; cbn [negb].
  - destruct (negb _); [done|]. apply count_vote_quiet.
  - apply disagreement_quiet.
Qed.

Lemma on_certificate_quiet P n ct : quiet P n (on_certificate n ct).
Proof.
  unfold on_certificate. destruct (certificate_agrees ct _) eqn:E; cbn [negb].
  - destruct (negb _); [done|]. destruct (f_certificates _ !! _) as [mine|]; [|apply on_certified_quiet].
    destruct (_ =? _); [done|]. apply quiet_emits. apply Forall_fmap. by apply Forall_true.
  - apply disagreement_quiet.
Qed.

Lemma on_own_vote_quiet P n v : quiet P n (on_own_vote n v).
Proof.
  unfold on_own_vote. destruct (negb _); [done|]. etrans; [|apply count_vote_quiet]. etrans; [|by apply quiet_send].
  destruct (bool_decide _); [done|]. apply quiet_certs.
Qed.

Lemma admit_sessions_quiet P n i ss : quiet P n (admit_sessions n i ss).1.
Proof.
  revert n. induction ss as [|s ss IH]; intros n; cbn [admit_sessions]; [done|].
  destruct (session_agrees _ s) eqn:E; cbn [negb].
  - etrans; [|apply IH]. destruct (book_admit _ _ _ _ _ _) as [[b d]|]; [apply quiet_certs|done].
  - apply disagreement_quiet.
Qed.

Lemma adopt_certificate_quiet P n ct ss : quiet P n (adopt_certificate n ct ss).
Proof.
  unfold adopt_certificate. pose proof (admit_sessions_quiet P n (cp_index (ct_checkpoint ct)) ss) as Ha.
  destruct (admit_sessions _ _ _) as [n1 ok]. cbn in Ha. destruct ok; [|done].
  etrans; [exact Ha|apply on_certificate_quiet].
Qed.

Lemma adopt_handover_quiet P n ct ss : quiet P n (adopt_handover n ct ss).
Proof.
  unfold adopt_handover. pose proof (admit_sessions_quiet P n (cp_index (ct_checkpoint ct)) ss) as Ha.
  destruct (admit_sessions _ _ _) as [n1 ok]. cbn in Ha. destruct ok; [|done]. cbn [negb].
  etrans; [exact Ha|]. clear Ha. destruct (certificate_agrees ct _) eqn:E; cbn [negb].
  - destruct (negb _); [done|]. destruct (_ && _); [|apply on_certificate_quiet].
    etrans; [apply (quiet_certs P n1 (set_certified_handover (nd_certs n1) (cp_index (ct_checkpoint ct))))|].
    unfold upd_certs. destruct (f_certificates _ !! _); [apply complete_epoch_quiet|apply on_certificate_quiet].
  - apply disagreement_quiet.
Qed.

(** *** Batches, fetches and repair *)

Lemma store_payload_quiet P n d p : quiet P n (store_payload n d p).
Proof. by apply quiet_bat. Qed.

Lemma on_batch_quiet P n from p : quiet P n (on_batch n from p).
Proof.
  unfold on_batch. destruct (_ || _); [done|]. destruct (held_payload _ _); [done|]. destruct (_ || _); [done|].
  etrans; [|apply store_payload_quiet]. etrans; [by apply (quiet_bat P n (fun b => set_wanted b (delete (batch_digest p) (b_wanted b))))|].
  destruct (_ <=? _); [|done]. by apply quiet_bat.
Qed.

Lemma submit_part_quiet P n part : quiet P n (submit_part n part).
Proof.
  unfold submit_part. destruct (_ || _); [apply quiet_emits; by repeat constructor|].
  etrans; [|by apply quiet_send]. etrans; [|by apply quiet_bat]. etrans; [|by apply quiet_journal].
  etrans; [|apply store_payload_quiet]. by apply quiet_pace.
Qed.

Lemma on_frontier_quiet P n peer f : quiet P n (on_frontier n peer f).
Proof.
  unfold on_frontier. destruct (n_round _); [|done]. destruct (match _ !! peer with Some _ => _ | None => _ end); [done|].
  etrans; [|apply quiet_sends]. apply quiet_fetch.
Qed.

Lemma repair_stall_quiet P n now : quiet P n (repair_stall n now).
Proof.
  unfold repair_stall. destruct (_ || _); [done|]. destruct (_ || _); [done|].
  etrans; [|by apply quiet_send]. by apply quiet_pace.
Qed.

Lemma answer_batch_fetch_quiet P n from ds : quiet P n (answer_batch_fetch n from ds).
Proof.
  unfold answer_batch_fetch. destruct (foldl _ _ _) as [[budget replied] [|x found]]; [apply quiet_fetch|].
  etrans; [|by apply quiet_send]. etrans; [|apply quiet_fetch]. apply quiet_fetch.
Qed.

Lemma retry_fetches_quiet P n now : quiet P n (retry_fetches n now).
Proof.
  unfold retry_fetches. destruct (_ <? _)%nat; [done|]. destruct (foldl (retry_vertex n now) _ _) as [[wv bulk] vs].
  destruct (foldl (retry_batch n now) _ _) as [wb bs]. set (n2 := upd_bat _ _).
  transitivity n2; [etrans; [|by apply quiet_bat]; by apply quiet_verts|].
  apply foldl_quiet. intros. apply quiet_sends.
Qed.

Lemma ask_ordering_calm P n now : calm P n (ask_ordering n now) /\
  n_round (nd_pace (ask_ordering n now)) = n_round (nd_pace n) /\
  own_vertices (ask_ordering n now) = own_vertices n.
Proof.
  unfold ask_ordering. destruct (nd_resuming n) as [r|]; [|done]. destruct (_ && _); [done|]. split; [|done].
  split; try done; [split; try done; exists []; by rewrite app_nil_r|by split; [|constructor]|eauto].
Qed.

(** *** Messages *)

(** The proposals in messages from a peer. *)
Definition proposed_in (from : ValidatorIndex) (ms : list Message) (r : Round) (s : ValidatorIndex)
    (refs : list VertexRef) : Prop :=
  s = from /\ exists v, MPropose v ∈ ms /\ v_round v = r /\ v_strong v = refs.

Lemma on_signals_quiet P n from ss : quiet P n (on_signals n from ss).
Proof.
  unfold on_signals. generalize (horizon n) as limit. intros limit. apply foldl_quiet. intros m s _.
  destruct (_ <? _); [done|]. destruct (on_signal _ _ _ _) as [rb acts].
  etrans; [apply (quiet_rbc P m rb)|]. apply apply_rbc_quiet.
Qed.

Lemma on_vertex_quiet P n v : good v -> quiet P n (on_vertex n v).
Proof.
  intros Hv. unfold on_vertex. destruct (negb _); [done|].
  etrans; [by apply (quiet_verts P n (fun x => set_wanted_vertices x (delete (vertex_digest v) (x_wanted_vertices x))))|].
  destruct (is_expected _ _); [by apply core_offer_quiet|]. destruct (_ && _); [by apply core_hold_quiet|done].
Qed.

Lemma on_fetched_batch_quiet P n p : quiet P n (on_fetched_batch n p).
Proof.
  unfold on_fetched_batch. destruct (negb _); [done|].
  etrans; [by apply (quiet_bat P n (fun b => set_wanted b (delete (batch_digest p) (b_wanted b))))|].
  destruct (_ && _); [apply store_payload_quiet|done].
Qed.

Definition good_message (m : Message) : Prop :=
  match m with MPropose v => good v | MVertices vs => Forall good vs | _ => True end.

Lemma on_message_quiet P n from m :
  (forall v, m = MPropose v -> P (v_round v) from (v_strong v)) -> good_message m ->
  quiet P n (on_message n from m).
Proof.
  intros HP Hm. destruct m; cbn [on_message].
  - apply core_on_propose_quiet; [by apply HP|done].
  - apply on_signals_quiet.
  - apply on_batch_quiet.
  - destruct (_ <=? _)%nat; [done|]. destruct (omap _ _); [apply quiet_fetch|].
    etrans; [|by apply quiet_send]. apply quiet_fetch.
  - apply foldl_quiet. intros. apply on_vertex_quiet. by eapply Forall_forall in Hm.
  - destruct (_ <=? _)%nat; [done|]. etrans; [|apply answer_batch_fetch_quiet]. apply quiet_fetch.
  - apply foldl_quiet. intros. apply on_fetched_batch_quiet.
  - apply on_vote_quiet.
  - apply on_certificate_quiet.
  - destruct (h_frame_answered_frontier _); [done|]. etrans; [|apply on_frontier_quiet]. apply quiet_fetch.
  - destruct (h_frame_answered_ordering _); [done|]. etrans; [apply quiet_fetch|].
    destruct (k_ordering_states _ !! _); [by apply quiet_send|done].
  - done.
Qed.

Lemma messages_quiet n from ms : Forall good_message ms ->
  quiet (proposed_in from ms) n (foldl (fun n m => on_message n from m) n ms).
Proof.
  intros Hms. apply foldl_quiet. intros m x Hx. rewrite Forall_forall in Hms. apply on_message_quiet; [|auto].
  intros v ->. split; [done|]. by exists v.
Qed.

Lemma connect_quiet P n peer started : quiet P n (connect n peer started).
Proof. by apply quiet_pace. Qed.
End frame.
