(* ===== verification/Propose.v ===== *)
(** Rounds and proposals of one validator.

    A step of a node moves its core by the DAG's own operations and by drawing
    leaders ([moves]), and proposes in rounds that only go up; every vertex it
    broadcasts is one it journaled. *)

From stdpp Require Import prelude gmap list sorting.
From Stdlib Require Import NArith ZArith Lia.
From S2P Require Import Prelude Committee Checkpoint Merkle Rbc Vertex Dag Schedule Commit Batch Order OrderLog Lockstep Replicas Node NodeFrame.

(** Rounds are of 64 bits. *)
Definition typed (v : Vertex) : Prop := v_round v < 2 ^ 64.

Section moves.
Context `{Library} (good : Vertex -> Prop).
Implicit Types P : Round -> ValidatorIndex -> list VertexRef -> Prop.

Definition move P (n n' : Node) : Prop := calm good P n n' \/ exists r, n' = draw_to n r.
Definition moves P : relation Node := rtc (move P).

Lemma calm_moves P n n' : calm good P n n' -> moves P n n'.
Proof. intros Hc. apply rtc_once. by left. Qed.

Lemma quiet_moves P n n' : quiet good P n n' -> moves P n n'.
Proof. intros [Hc _]. by apply calm_moves. Qed.

Lemma draw_moves P n r : moves P n (draw_to n r).
Proof. apply rtc_once. right. by exists r. Qed.

Lemma moves_weaken P P' n n' : (forall r s refs, P r s refs -> P' r s refs) -> moves P n n' -> moves P' n n'.
Proof.
  intros HP. apply rtc_subrel. intros a b [Hc|Hd]; [left|by right].
  destruct Hc. split; try done. intros r props s refs H1 H2. destruct (cm_first r props s refs H1 H2); auto.
Qed.

(** ** Proposing *)

(** First proposals of the node's own vertices. *)
Definition own_first (n : Node) (r : Round) (s : ValidatorIndex) (refs : list VertexRef) : Prop :=
  s = me_of n /\ exists v, v ∈ own_vertices n /\ v_round v = r /\ v_strong v = refs.

Lemma build_vertex_moves P n r now : moves P n (build_vertex n r now).1.
Proof.
  unfold build_vertex. destruct (o_halted _); cbn [fst].
  - apply quiet_moves. by apply quiet_bat.
  - etrans; [|apply quiet_moves; by apply quiet_bat]. etrans; [|apply draw_moves]. apply quiet_moves. by apply quiet_bat.
Qed.

Lemma calm_pace P n p : calm good P n (set_pace n p).
Proof. split; try done; [split; try done; exists []; by rewrite app_nil_r|by split; [|constructor]|eauto]. Qed.

Lemma calm_send P n to m : calm good P n (send n to m).
Proof. split; try done; [split; try done; exists []; by rewrite app_nil_r|by split; [|constructor]|eauto]. Qed.

Lemma calm_journal P n r : calm good P n (journal n r).
Proof. split; try done; [split; try done; exists []; by rewrite app_nil_r|by split; [|constructor]|eauto]. Qed.

(** One more proposal of the node's own. *)
Record proposes (n n' : Node) (r : Round) : Prop := {
  pr_round : n_round (nd_pace n') = Some r;
  pr_own : exists v, own_vertices n' = own_vertices n ++ [v] /\ v_round v = r;
  pr_resuming : nd_resuming n' = nd_resuming n;
  pr_outbox v : (All, MPropose v) ∈ nd_outbox n' -> (All, MPropose v) ∈ nd_outbox n \/ v ∈ own_vertices n';
}.

Lemma proposes_still n n1 n2 n' r : still n n1 -> proposes n1 n2 r -> still n2 n' -> proposes n n' r.
Proof.
  intros [A1 A2 A3 A4] [P1 (v & Hv & Hr) P3 P4] [B1 B2 B3 B4]. split; [congruence| |congruence|].
  - exists v. split; [congruence|done].
  - intros w Hw. rewrite B2. destruct (P4 w); auto.
Qed.

Lemma build_vertex_still n r now :
  still n (build_vertex n r now).1 /\ v_round (build_vertex n r now).2 = r /\
  me_of (build_vertex n r now).1 = me_of n.
Proof. unfold build_vertex. by destruct (o_halted _). Qed.

Lemma propose_proposes n r now : proposes n (propose n r now) r.
Proof.
  unfold propose. pose proof (build_vertex_still n r now) as (Hs & Hr & _).
  destruct (build_vertex n r now) as [n1 v]. cbn [fst snd] in *.
  destruct (Rbc.on_propose _ _ _ _ _ _) as [rb acts]. set (n2 := upd_verts (fun x => set_rbc x rb) _).
  destruct (apply_rbc_quiet (fun _ => True) (fun _ _ _ => True) n2 acts) as [_ Ha].
  eapply (proposes_still n n1 n2); [exact Hs| |exact Ha]. split; try done.
  - exists v. split; [|done]. unfold own_vertices, n2. cbn. by rewrite omap_app.
  - intros w. unfold n2. cbn. rewrite elem_of_app, list_elem_of_singleton. intros [?|[= ->]]; [by left|right].
    unfold own_vertices. cbn. rewrite omap_app. apply elem_of_app. right. left.
Qed.

Lemma propose_own n r now :
  own_vertices (propose n r now) = own_vertices n ++ [(build_vertex n r now).2].
Proof.
  unfold propose. pose proof (build_vertex_still n r now) as ([_ Ho _ _] & _).
  destruct (build_vertex n r now) as [n1 v]. cbn [fst snd] in *.
  destruct (Rbc.on_propose _ _ _ _ _ _) as [rb acts]. set (n2 := upd_verts (fun x => set_rbc x rb) _).
  destruct (apply_rbc_quiet (fun _ => True) (fun _ _ _ => True) n2 acts) as [_ [_ -> _ _]].
  rewrite <-Ho. unfold own_vertices, n2. cbn. by rewrite omap_app.
Qed.

Lemma propose_moves P n r now : good (build_vertex n r now).2 ->
  P r (me_of n) (v_strong (build_vertex n r now).2) -> moves P n (propose n r now).
Proof.
  intros Hv HP. unfold propose.
  pose proof (build_vertex_moves P n r now) as Hm. destruct (build_vertex_still n r now) as (_ & _ & Hme).
  destruct (build_vertex n r now) as [n1 v]. cbn [fst snd] in *. rewrite <-Hme in HP.
  destruct (Rbc.on_propose _ _ _ _ _ _) as [rb acts]. etrans; [exact Hm|].
  etrans; [|apply quiet_moves, apply_rbc_quiet]. etrans; [|apply quiet_moves; by apply quiet_rbc].
  etrans; [|apply calm_moves, calm_send]. etrans; [|apply calm_moves, calm_journal].
  etrans; [|apply quiet_moves; by apply quiet_keep_body]. etrans; [|apply quiet_moves; by apply note_first_quiet].
  apply calm_moves, calm_pace.
Qed.

(** ** Entering a round *)

Lemma moves_me P n n' : moves P n n' -> me_of n' = me_of n.
Proof.
  induction 1 as [|n n1 n2 [Hc|[r ->]] _ IH]; [done| |by rewrite IH]. rewrite IH. apply Hc.
Qed.

Lemma leaders_held_moves P n r : moves P n (leaders_held n r).1 /\ still n (leaders_held n r).1 /\
  me_of (leaders_held n r).1 = me_of n.
Proof. unfold leaders_held. destruct (leaders_settled _ _ _); [|done]. split; [apply draw_moves|done]. Qed.

Lemma own_slot_missing_moves P n r paced : moves P n (own_slot_missing n r paced).1 /\
  still n (own_slot_missing n r paced).1 /\ me_of (own_slot_missing n r paced).1 = me_of n.
Proof. unfold own_slot_missing. destruct (_ && _); [|done]. split; [apply draw_moves|done]. Qed.

End moves.

(** ** The last round of 64 bits

    Rounds only fail to go up where they wrap around, past the last round. A
    class of vertices [good] for the validator of a seat holds what that
    validator may itself propose; unless rounds are [free] to wrap, it holds no
    vertex of the last round by anyone else. *)
Class RoundsOk (good : ValidatorIndex -> Vertex -> Prop) (free : Prop) : Prop := {
  ro_typed me v : good me v -> typed v;
  ro_own me v : typed v -> v_source v = me -> good me v;
  ro_last me v : good me v -> v_round v = U64_MAX -> v_source v = me \/ free;
}.

Definition any_round (_ : ValidatorIndex) (v : Vertex) : Prop := typed v.
Definition below_last (me : ValidatorIndex) (v : Vertex) : Prop :=
  typed v /\ (v_source v = me \/ v_round v < U64_MAX).

#[global] Instance any_round_ok : RoundsOk any_round True.
Proof. split; try done. by right. Qed.

#[global] Instance below_last_ok : RoundsOk below_last False.
Proof.
  split; [by intros me v []|by split; [|left]|].
  intros me v [_ [?|Hr]] He; [by left|]. rewrite He in Hr. by apply N.lt_irrefl in Hr.
Qed.

(** ** New and resumed nodes *)

(** [prior] is the last round the validator proposed in before. *)
Inductive fresh `{Library} : option Round -> Node -> Prop :=
| fresh_new cfg c me st seed : CommitteeWf c -> fresh None (node_new cfg c me st seed)
| fresh_resume cfg c me seed ct ss prior seq_ ex la : CommitteeWf c ->
    fresh prior (node_resume cfg c me seed ct ss prior seq_ ex la).

Section rounds.
Context `{Library} (good : ValidatorIndex -> Vertex -> Prop) (free : Prop) `{!RoundsOk good free}.
Implicit Types P : Round -> ValidatorIndex -> list VertexRef -> Prop.
Abbreviation moves P n n' := (Propose.moves (good (me_of n)) P n n').

Lemma build_typed n r now : r < 2 ^ 64 -> good (me_of n) (build_vertex n r now).2.
Proof. intros Hr. apply ro_own; unfold build_vertex, typed; by destruct (o_halted _). Qed.

Lemma wadd64_typed r : wadd64 r 1 < 2 ^ 64.
Proof. unfold wadd64. by apply N.mod_lt. Qed.

(** Every own vertex of the node is one [P] allows. *)
Definition allows P (n : Node) : Prop := Forall (fun v => P (v_round v) (me_of n) (v_strong v)) (own_vertices n).

(** Entering after [r] proposes in the round after it, which a quorum and the
    rounds before allow; otherwise leaders were drawn at most. *)
Record enters (n : Node) (r : Round) (n' : Node) (entered : bool) : Prop := {
  en_moves P : allows P n' -> moves P n n';
  en_me : me_of n' = me_of n;
  en_cases : if entered
    then proposes n n' (wadd64 r 1) /\ quorum (comm_of n) <= round_weight n r /\
         forall current, n_round (nd_pace n) = Some current -> current <= r
    else still n n';
}.

Lemma enter_after_enters n r now paced : enters n r (enter_after n r now paced).1 (enter_after n r now paced).2.
Proof.
  assert (enters n r n false) as Hno by (split; [done..|reflexivity]).
  unfold enter_after. destruct (match n_round _ with Some _ => _ | None => _ end) eqn:Ecur; [done|].
  destruct (_ && _); [done|]. destruct (_ && _); [done|]. destruct (_ <? quorum _) eqn:Eq; [done|]. clear Hno.
  pose proof (fun P => leaders_held_moves (good (me_of n)) P n r) as H1. destruct (leaders_held n r) as [n1 held].
  pose proof (fun P => own_slot_missing_moves (good (me_of n)) P n1 r paced) as H2. destruct (own_slot_missing n1 r paced) as [n2 missing].
  cbn [fst] in *. destruct (H1 (fun _ _ _ => True)) as (_ & S1 & E1), (H2 (fun _ _ _ => True)) as (_ & S2 & E2).
  assert (forall P, moves P n n2) as Hm by (intros P; etrans; [apply H1|apply H2]).
  assert (still n n2) as S3 by by etrans. destruct (_ && _); cbn [fst snd].
  - split; [done|congruence|done].
  - pose proof (moves_me _ _ _ _ (propose_moves _ (fun _ _ _ => True) n2 (wadd64 r 1) now
      (build_typed _ _ _ (wadd64_typed r)) I)) as E3. assert (me_of n2 = me_of n) as E4 by congruence. split.
    + intros P HP. etrans; [apply Hm|].
      apply propose_moves; [rewrite <-E4; apply build_typed, wadd64_typed|].
      unfold allows in HP. rewrite propose_own, Forall_app, Forall_singleton in HP. destruct HP as [_ HP].
      destruct (build_vertex_still n2 (wadd64 r 1) now) as (_ & Hr & _). by rewrite Hr, E3 in HP.
    + congruence.
    + split_and!.
      * eapply proposes_still; [exact S3|apply propose_proposes|done].
      * by apply N.ltb_ge.
      * intros current Hc. rewrite Hc in Ecur. by apply N.ltb_ge in Ecur.
Qed.

(** ** The DAG of a node *)

(** The node's DAG grew from an empty one by its own operations, and every
    vertex kept beside it is good; a validator that is a quorum by itself is
    free to wrap around. *)
Record DagOk (n : Node) : Prop := {
  dk_wf : CommitteeWf (comm_of n);
  dk_alone : quorum (comm_of n) <= seats (comm_of n) (me_of n) -> free;
  dk_stores : stores (good (me_of n)) n;
  dk_dag : dag_reachable vertex_digest (good (me_of n)) (delivered_in n)
    (with_vouching (m_seats <$> c_members (comm_of n)) (validity (comm_of n))) (dag_of n);
}.

Lemma calm_dag_ok P n n' : calm (good (me_of n)) P n n' -> DagOk n -> DagOk n'.
Proof.
  intros Hc [Hwf Ha Hs Hd]. assert (comm_of n' = comm_of n) as He by apply Hc. pose proof (cm_me _ _ _ _ Hc) as Hm.
  destruct (cm_dag _ _ _ _ Hc Hs) as [Hs' Hd']. split; rewrite ?He, ?Hm; try done.
  eapply reachable_trans; [|exact Hd']. eapply reachable_weaken; [|exact Hd]. intros d. apply delivered_mono, Hc.
Qed.

Lemma moves_dag_ok P n n' : moves P n n' -> DagOk n -> DagOk n'.
Proof.
  generalize (eq_refl (me_of n)). generalize (me_of n) at 1 3 as me. intros me Hme Hm. revert Hme.
  induction Hm as [|n n1 n2 [Hc|[r ->]] _ IH]; intros -> Hd; [done| |].
  - apply IH; [symmetry; apply Hc|]. by eapply calm_dag_ok.
  - apply IH; [done|]. by destruct Hd.
Qed.

(** The vertices of a round in the DAG are good ones of the round, each by its
    author. *)
Lemma round_entry n r s d v : DagOk n -> (s, (d, v)) ∈ dag_round (dag_of n) r ->
  v_round v = r /\ v_source v = s /\ dag_floor (dag_of n) <= r /\ good (me_of n) v.
Proof.
  intros [_ _ _ Hd] Hin. pose proof (reachable_wf _ _ _ _ _ _ Hd) as Hok. unfold dag_round in Hin.
  destruct (rounds (dag_of n) !! r) as [m|] eqn:Em; [|by apply elem_of_nil in Hin].
  apply elem_of_map_to_list in Hin. assert (dag_at (dag_of n) r s = Some (d, v)) as Hat by (unfold dag_at; by rewrite Em).
  by destruct (dw_slot _ _ _ Hok _ _ _ _ Hat) as (_ & <- & <- & _ & Hf & Hg).
Qed.

Lemma round_authors n r : NoDup (dag_round (dag_of n) r).*1.
Proof. unfold dag_round. destruct (rounds _ !! r); [apply NoDup_fst_map_to_list|constructor]. Qed.

(** A round with a quorum is a round of 64 bits, at or above the floor: the
    range that [orphans_below] walks for the vertex of the round after it is one
    [BTreeMap::range] accepts. *)
Lemma quorum_round n r : DagOk n -> quorum (comm_of n) <= round_weight n r ->
  r < 2 ^ 64 /\ dag_floor (dag_of n) <= r.
Proof.
  intros Hd Hq. assert (0 < quorum (comm_of n)) as Hpos.
  { pose proof (faulty_bound _ (dk_wf _ Hd)) as Hf. unfold quorum, total_seats in *. lia. }
  unfold round_weight in Hq. destruct (dag_round (dag_of n) r) as [|[s [d v]] l] eqn:El; [cbn in Hq; lia|].
  destruct (round_entry n r s d v Hd) as (<- & _ & Hf & Hg); [rewrite El; left|].
  split; [|done]. by eapply (ro_typed (me_of n)).
Qed.

(** A quorum of the last round has its vertex by another validator. *)
Lemma quorum_last n : DagOk n -> quorum (comm_of n) <= round_weight n U64_MAX -> free.
Proof.
  intros Hd Hq. unfold round_weight in Hq. pose proof (round_authors n U64_MAX) as Hnd.
  pose proof (fun s d v => round_entry n U64_MAX s d v Hd) as He.
  assert (Forall (fun p => p.1 = me_of n \/ free) (dag_round (dag_of n) U64_MAX)) as HF.
  { apply Forall_forall. intros [s [d v]] Hin. destruct (He s d v Hin) as (Hr & <- & _ & Hg).
    by apply (ro_last (me_of n) v). }
  clear He. pose proof (dk_alone _ Hd) as Ha. destruct (dag_round (dag_of n) U64_MAX) as [|p [|p' l]]; cbn in Hq.
  - apply Ha. lia.
  - apply Forall_singleton in HF as [E|?]; [|done]. apply Ha. rewrite E in Hq. lia.
  - apply Forall_cons in HF as [[E1|?] [[E2|?] _]%Forall_cons]; [|done..].
    apply NoDup_cons in Hnd as [Hn _]. destruct Hn. rewrite E1, <-E2. left.
Qed.

Lemma wadd64_up r : r < 2 ^ 64 -> r = U64_MAX \/ wadd64 r 1 = r + 1.
Proof.
  intros Hr. unfold wadd64, U64_MAX. destruct (N.eq_dec (r + 1) (2 ^ 64)) as [He|Hne]; [left; lia|right].
  rewrite N.mod_small; lia.
Qed.

(** ** Rounds go up *)

(** At most one proposal, past the node's round unless the number wraps; a node
    that is in no round starts with the first. *)
Definition climb (n n' : Node) : Prop :=
  still n n' \/
  exists r, proposes n n' r /\
    match n_round (nd_pace n) with Some current => current < r \/ free | None => r = 0 end.

(** What a node does of its own accord: proposes and draws. *)
Record advances (n n' : Node) : Prop := {
  av_me : me_of n' = me_of n;
  av_own : own_vertices n `prefix_of` own_vertices n';
  av_moves P : allows P n' -> moves P n n';
  av_climbs : rtc climb n n';
}.

#[global] Instance advances_refl : Reflexive advances.
Proof. by intros n. Qed.

Lemma allows_prefix P n n' : me_of n' = me_of n -> own_vertices n `prefix_of` own_vertices n' ->
  allows P n' -> allows P n.
Proof. unfold allows. intros -> [l ->]. by intros [? _]%Forall_app. Qed.

#[global] Instance advances_trans : Transitive advances.
Proof.
  intros n1 n2 n3 [A1 A2 A3 A4] [B1 B2 B3 B4]. split; [congruence|by etrans| |by etrans].
  intros P HP. rewrite A1 in B3. etrans; [apply A3|by apply B3]. by eapply allows_prefix.
Qed.

Lemma advances_dag_ok n n' : advances n n' -> DagOk n -> DagOk n'.
Proof.
  intros Ha. eapply (moves_dag_ok (fun _ _ _ => True)), Ha. by apply Forall_true.
Qed.

Lemma enters_advances n r n' entered current : enters n r n' entered -> DagOk n ->
  n_round (nd_pace n) = Some current -> advances n n'.
Proof.
  intros [He Hme Hc] Hd Hcur. destruct entered.
  - destruct Hc as (Hp & Hq & Hle). specialize (Hle _ Hcur). split; [done| |done|].
    + destruct (pr_own _ _ _ Hp) as (v & -> & _). by apply prefix_app_r.
    + apply rtc_once. right. exists (wadd64 r 1). split; [done|]. rewrite Hcur.
      destruct (wadd64_up r (proj1 (quorum_round n r Hd Hq))) as [->|]; [right; by eapply quorum_last|left; lia].
  - split; [done| |done|apply rtc_once; by left]. by rewrite (sl_own _ _ Hc).
Qed.

Lemma draw_advances n r : advances n (draw_to n r).
Proof. split; try done; [intros; apply draw_moves|]. apply rtc_once. by left. Qed.

Lemma enter_after_advances n r now paced current : DagOk n -> n_round (nd_pace n) = Some current ->
  advances n (enter_after n r now paced).1 /\
  ((enter_after n r now paced).2 = false -> n_round (nd_pace (enter_after n r now paced).1) = Some current).
Proof.
  intros Hd Hc. pose proof (enter_after_enters n r now paced) as He. split; [by eapply enters_advances|].
  intros Hf. destruct He as [_ _ He]. rewrite Hf in He. by rewrite (sl_round _ _ He).
Qed.

Lemma advance_once_advances n now : DagOk n -> advances n (advance_once n now).1.
Proof.
  intros Hd. unfold advance_once. destruct (n_round _) as [current|] eqn:Ec; [|done].
  set (top := lower_top _ _ _ _). destruct (current <? top); [|by eapply enter_after_advances].
  set (n1 := draw_to n top). assert (advances n n1) as H1 by apply draw_advances.
  assert (DagOk n1) as D1 by by eapply advances_dag_ok. assert (n_round (nd_pace n1) = Some current) as C1 by done.
  etrans; [exact H1|]. clearbody n1. clear H1.
  assert (forall st f, advances n1 st.1 -> (st.2 = false -> n_round (nd_pace st.1) = Some current) ->
    (forall n, DagOk n -> n_round (nd_pace n) = Some current ->
       advances n (f n).1 /\ ((f n).2 = false -> n_round (nd_pace (f n).1) = Some current)) ->
    advances n1 (or_else st f).1 /\ ((or_else st f).2 = false -> n_round (nd_pace (or_else st f).1) = Some current)) as Hor.
  { intros [m b] f Ha Hr Hf. unfold or_else. cbn [fst snd] in *. destruct b; [done|].
    destruct (Hf m) as [F1 F2]; [by eapply advances_dag_ok|by apply Hr|]. split; [by etrans|done]. }
  apply Hor; [apply Hor| | ]; try (intros; by apply enter_after_advances).
  - destruct (leads _ _ _ _); [by eapply enter_after_advances|done].
  - destruct (leads _ _ _ _); [by apply enter_after_advances|done].
  - apply Hor; [|destruct (leads _ _ _ _); [by apply enter_after_advances|done]|intros; by apply enter_after_advances].
    destruct (leads _ _ _ _); [by eapply enter_after_advances|done].
Qed.

Lemma try_advance_loop_advances fuel n now n' :
  DagOk n -> try_advance_loop fuel n now = Some n' -> advances n n'.
Proof.
  revert n. induction fuel as [|fuel IH]; intros n Hd; cbn [try_advance_loop];
    pose proof (advance_once_advances n now Hd) as Ha; destruct (advance_once n now) as [n1 entered]; cbn [fst] in Ha;
    destruct entered; cbn [negb]; intros Heq; simplify_eq; try done.
  etrans; [exact Ha|]. apply IH; [by eapply advances_dag_ok|done].
Qed.

Lemma try_advance_advances n now : DagOk n -> advances n (try_advance n now).
Proof.
  intros Hd. unfold try_advance. destruct (try_advance_loop _ n now) as [n'|] eqn:E; cbn; [|done].
  by eapply try_advance_loop_advances.
Qed.

Lemma try_start_advances n now : advances n (try_start n now).
Proof.
  unfold try_start. destruct (_ && _) eqn:E; [|done]. apply andb_true_iff in E as [E _].
  apply andb_true_iff in E as [_ E]. destruct (n_round (nd_pace n)) eqn:Er; [done|].
  pose proof (propose_proposes n 0 now) as Hp. assert (me_of (propose n 0 now) = me_of n) as Hme.
  { by eapply (moves_me typed (fun _ _ _ => True)), propose_moves. }
  split; [done|destruct (pr_own _ _ _ Hp) as (v & -> & _); by apply prefix_app_r| |].
  - intros P HP. apply propose_moves; [by apply build_typed|]. unfold allows in HP.
    rewrite propose_own, Forall_app, Forall_singleton, Hme in HP. destruct HP as [_ HP].
    destruct (build_vertex_still n 0 now) as (_ & Hr & _). by rewrite Hr in HP.
  - apply rtc_once. right. exists 0. by rewrite Er.
Qed.

(** ** Ordering collects vertices *)

(** Rounds pruned from the DAG, and vertices beside it dropped. *)
Record prunes (x x' : Vertices) : Prop := {
  pn_dag good legit : dag_reachable vertex_digest good legit (x_dag x) (x_dag x');
  pn_bodies d v : x_bodies x' !! d = Some v -> x_bodies x !! d = Some v;
  pn_unechoed k v : x_unechoed x' !! k = Some v -> x_unechoed x !! k = Some v;
}.

#[global] Instance prunes_refl : Reflexive prunes.
Proof. intros x. split; try done. intros. constructor. Qed.

#[global] Instance prunes_trans : Transitive prunes.
Proof. intros x y z [] []. split; eauto. intros. eapply reachable_trans; eauto. Qed.

Lemma collect_vertices_prunes cfg fl x : prunes x (collect_vertices cfg fl x).
Proof.
  unfold collect_vertices. pose proof (fun good legit => ds_prune vertex_digest good legit (x_dag x) fl) as Hp.
  destruct (dag_prune_below (x_dag x) fl) as [g pruned]. cbn [fst] in Hp. split; cbn.
  - intros good' legit. eapply dr_step; [constructor|apply Hp].
  - intros d v [? _]%map_lookup_filter_Some. done.
  - intros k v [? _]%map_lookup_filter_Some. done.
Qed.

Abbreviation commit := (Order.commit seed_hash order_hash ordering_digest cp_digest root_of).
Abbreviation try_commit :=
  (Order.try_commit draw_hash seed_hash order_hash ordering_digest cp_digest root_of).
Abbreviation try_commit_loop :=
  (Order.try_commit_loop draw_hash seed_hash order_hash ordering_digest cp_digest root_of).
Abbreviation take_decisions :=
  (Order.take_decisions draw_hash seed_hash order_hash ordering_digest cp_digest root_of).

(** An ordering step of the core. *)
Record orders (k k' : Core) : Prop := {
  os_verts : prunes (co_verts k) (co_verts k');
  os_me : co_me k' = co_me k;
  os_committee : co_committee k' = co_committee k;
  os_cfg : co_cfg k' = co_cfg k;
}.

#[global] Instance orders_refl : Reflexive orders.
Proof. by intros k. Qed.

#[global] Instance orders_trans : Transitive orders.
Proof. intros k1 k2 k3 [] []. split; [by etrans|congruence..]. Qed.

Lemma collect_garbage_orders k r : orders k (collect_garbage k r).
Proof.
  unfold collect_garbage. destruct (checked_sub _ _); [|done]. destruct (_ <=? _); [done|].
  split; try done. apply collect_vertices_prunes.
Qed.

Lemma build_loop_me fuel k :
  co_me (build_loop cp_digest root_of fuel k) = co_me k /\ co_cfg (build_loop cp_digest root_of fuel k) = co_cfg k.
Proof.
  revert k. induction fuel as [|fuel IH]; intros k; cbn [build_loop]; [done|].
  destruct (k_decided (co_cps k)) as [|pc rest]; [done|]. destruct (pc_ordering_root pc) as [d|]; [|done].
  destruct (negb _); [done|]. destruct (_ && _); [done|].
  by destruct (IH (sign_front cp_digest k rest (pc_last_height pc) (checkpoint_of root_of k pc d))) as [-> ->].
Qed.

Lemma build_checkpoints_orders k : orders k (build_checkpoints cp_digest root_of k).
Proof.
  unfold build_checkpoints. destruct (build_loop_keeps cp_digest root_of (length (k_decided (co_cps k))) k) as (_ & _ & E1 & E2).
  split; [by rewrite E1|apply build_loop_me|done|apply build_loop_me].
Qed.

Lemma commit_orders k a : orders k (commit k a).
Proof.
  unfold Order.commit. destruct (commit_history k a) as [k1 h] eqn:E1. destruct (commit_batches k1 a h) as [k2 rel] eqn:E2.
  assert (orders k k1) as H1 by (injection E1 as <- _; done).
  assert (orders k1 k2) as H2.
  { unfold commit_batches in E2. destruct (release_history _ _ _ _). injection E2 as <- _. done. }
  etrans; [exact H1|]. etrans; [exact H2|]. clear. set (t := commit_timestamp k2 a).
  assert (forall k, orders k (commit_blocks k a t h rel)) as H3.
  { intros k. unfold commit_blocks. destruct (existsb _ _); [|done].
    generalize (block_chunks rel MAX_TRANSACTIONS_PER_BLOCK) as chunks. intros chunks. revert k.
    induction chunks as [|x chunks IH]; intros k; cbn [foldl]; [done|]. etrans; [|apply IH]. done. }
  assert (forall k, orders k (commit_checkpoint seed_hash order_hash k a t)) as H4.
  { intros k. unfold commit_checkpoint. destruct (_ && _); [done|]. by destruct (_ && _). }
  etrans; [|etrans; [apply (H3 (set_timestamp k2 t))|]]; [done|]. etrans; [apply H4|].
  etrans; [apply (collect_garbage_orders _ (r_round a))|]. unfold seal_decided.
  etrans; [|apply build_checkpoints_orders]. destruct (last _); [|done]. by destruct (bool_decide _).
Qed.

Lemma skip_slot_orders k s : orders k (skip_slot draw_hash k s).
Proof. unfold skip_slot. by destruct (leader _ _ _ _). Qed.

Lemma take_decisions_orders ds k : orders k (take_decisions k ds).1.
Proof.
  revert k. induction ds as [|[s [a| |]] ds IH]; intros k; cbn [Order.take_decisions fst]; try done.
  - assert (orders k (commit (pass_slot k s) a)) as Hc by (etrans; [|apply commit_orders]; done).
    destruct (_ || _); [done|]. by etrans.
  - etrans; [|apply IH]. etrans; [|apply skip_slot_orders]. done.
Qed.

Lemma draw_leaders_orders k : orders k (draw_leaders draw_hash k).
Proof. unfold draw_leaders. destruct (decisions _ k); [done|]. by destruct (top_round _ _). Qed.

Lemma try_commit_orders k : orders k (try_commit k).
Proof.
  unfold Order.try_commit. destruct (try_commit_loop _ k) as [k'|] eqn:E; [|done]. cbn. revert E.
  generalize (S (length (decisions draw_hash k))) as fuel. intros fuel. revert k.
  induction fuel as [|fuel IH]; intros k; cbn [Order.try_commit_loop]; destruct (o_halted (co_ord k)); intros E;
    try by simplify_eq.
  pose proof (take_decisions_orders (decisions draw_hash k) (draw_leaders draw_hash k)) as Ht.
  destruct (take_decisions _ _) as [k1 again]. cbn [fst] in Ht.
  assert (orders k k1) as H1 by (etrans; [apply draw_leaders_orders|done]).
  destruct again; [etrans; [exact H1|by apply IH]|by simplify_eq].
Qed.

Lemma release_loop_orders waiting k : orders k (release_loop k waiting).
Proof.
  revert k. induction waiting as [|[s|h] rest IH]; intros k; cbn [release_loop]; [done| |].
  - destruct (_ && _); [done|]. etrans; [|apply IH]. done.
  - etrans; [|apply IH]. done.
Qed.

Lemma orders_dag_ok n f : orders (nd_core n) (f (nd_core n)) -> DagOk n -> DagOk (upd_core f n).
Proof.
  intros [[Hd Hb Hu] Hme Hc _] [Hwf Ha [S1 S2] Hr].
  assert (me_of (upd_core f n) = me_of n) as Em by done. assert (comm_of (upd_core f n) = comm_of n) as Ec by done.
  split; rewrite ?Em, ?Ec; try done.
  - split; intros ? ? ?; eauto.
  - eapply reachable_trans; [exact Hr|apply Hd].
Qed.

(** ** The invariant of proposals *)

Definition own_rounds (n : Node) : list Round := v_round <$> own_vertices n.

(** With the last round proposed in before, if any. *)
Definition all_rounds (prior : option Round) (n : Node) : list Round := option_list prior ++ own_rounds n.

Record ProposeOk (prior : option Round) (n : Node) : Prop := {
  po_up : ~ free -> StronglySorted N.lt (all_rounds prior n);
  po_round : match nd_resuming n with
    | Some rs => rs_own_round rs = prior /\ own_vertices n = []
    | None => ~ free -> forall r, r ∈ all_rounds prior n ->
        exists current, n_round (nd_pace n) = Some current /\ r <= current
    end;
  po_outbox v : (All, MPropose v) ∈ nd_outbox n -> v ∈ own_vertices n;
}.

Lemma still_propose_ok prior n n' : still n n' -> ProposeOk prior n -> ProposeOk prior n'.
Proof.
  intros [S1 S2 S3 S4] [P1 P2 P3]. unfold all_rounds, own_rounds in *.
  split; unfold all_rounds, own_rounds; rewrite ?S2, ?S3, ?S1; auto.
Qed.

Lemma sorted_snoc (l : list N) x : StronglySorted N.lt l -> Forall (fun y => y < x) l -> StronglySorted N.lt (l ++ [x]).
Proof.
  intros Hs HF. apply StronglySorted_app_2; [|done|by repeat constructor]. intros a b Ha Hb.
  apply list_elem_of_singleton in Hb as ->. by eapply Forall_forall in HF.
Qed.

Lemma climb_propose_ok prior n n' : nd_resuming n = None -> climb n n' -> ProposeOk prior n ->
  ProposeOk prior n' /\ nd_resuming n' = None.
Proof.
  intros Hr [Hs|(r & Hp & Hup)] Hn.
  { split; [by eapply still_propose_ok|]. by rewrite (sl_resuming _ _ Hs). }
  destruct Hp as [R1 (v & R2 & R3) R4 R5]. split; [|congruence]. destruct Hn as [P1 P2 P3]. rewrite Hr in P2.
  assert (all_rounds prior n' = all_rounds prior n ++ [r]) as El.
  { unfold all_rounds, own_rounds. rewrite R2, fmap_app, app_assoc, <-R3. done. }
  assert (~ free -> Forall (fun x => x < r) (all_rounds prior n)) as Hl.
  { intros H0. apply Forall_forall. intros x Hx. destruct (P2 H0 x Hx) as (current & Hc & Hle).
    rewrite Hc in Hup. destruct Hup; [lia|done]. }
  split; rewrite ?El.
  - intros H0. apply sorted_snoc; auto.
  - rewrite R4, Hr. intros H0 x. rewrite R1. intros [Hx|Hx]%elem_of_app; (eexists; split; [reflexivity|]).
    + specialize (Hl H0). eapply Forall_forall in Hl; [|exact Hx]. lia.
    + apply list_elem_of_singleton in Hx. lia.
  - intros w Hw. destruct (R5 w Hw) as [Ho|Ho]; [|done]. rewrite R2. apply elem_of_app. left. auto.
Qed.

Lemma climbs_propose_ok prior n n' : rtc climb n n' -> nd_resuming n = None -> ProposeOk prior n ->
  ProposeOk prior n' /\ nd_resuming n' = None.
Proof.
  induction 1 as [|n n1 n2 Hc _ IH]; intros Hr Hn; [done|].
  destruct (climb_propose_ok prior n n1 Hr Hc Hn) as [H1 H2]. by apply IH.
Qed.

(** ** Inputs *)

Context (me : ValidatorIndex).

Definition good_input (i : Input) : Prop :=
  match i with InMessages _ ms _ => Forall (good_message (good me)) ms | _ => True end.

Record NodeOk (prior : option Round) (n : Node) : Prop := {
  no_me : me_of n = me;
  no_dag : DagOk n;
  no_propose : ProposeOk prior n;
}.

Lemma quiet_node_ok P prior n n' : quiet (good (me_of n)) P n n' -> NodeOk prior n -> NodeOk prior n'.
Proof.
  intros [Hc Hs] [Hm Hd Hp]. split; [rewrite <-Hm; apply Hc|by eapply calm_dag_ok|by eapply still_propose_ok].
Qed.

Lemma orders_node_ok prior n f : (forall k, orders k (f k)) -> NodeOk prior n -> NodeOk prior (upd_core f n).
Proof.
  intros Hf [Hm Hd Hp]. split; [rewrite <-Hm; apply (os_me _ _ (Hf (nd_core n)))|by apply orders_dag_ok|].
  eapply still_propose_ok; [|exact Hp]. done.
Qed.

Lemma advances_node_ok prior n n' : nd_resuming n = None -> advances n n' -> NodeOk prior n ->
  NodeOk prior n' /\ nd_resuming n' = None.
Proof.
  intros Hr Ha [Hm Hd Hp]. destruct (climbs_propose_ok prior n n') as [H1 H2]; [apply Ha|done|done|].
  split; [|done]. split; [rewrite <-Hm; apply Ha|by eapply advances_dag_ok|done].
Qed.

Lemma progress_node_ok prior n now : nd_resuming n = None -> NodeOk prior n ->
  NodeOk prior (progress n now) /\ nd_resuming (progress n now) = None.
Proof.
  intros Hr Hn. unfold progress. set (n1 := upd_core try_commit n).
  assert (NodeOk prior n1) as H1 by (apply orders_node_ok; [apply try_commit_orders|done]).
  destruct (advances_node_ok prior n1 (try_advance n1 now)) as [H2 H3]; [done|apply try_advance_advances, H1|done|].
  split; [|done]. apply orders_node_ok; [|done]. intros k. apply release_loop_orders.
Qed.

Lemma install_node_ok prior n ct st own now rs : nd_resuming n = Some rs -> own = rs_own_round rs -> NodeOk prior n ->
  NodeOk prior (install n ct st own now) /\ nd_resuming (install n ct st own now) = None.
Proof.
  intros Hr -> [Hm [D1 D0 [D2 D3] D4] [P1 P2 P3]]. rewrite Hr in P2. destruct P2 as [<- Ho]. split; [|done].
  assert (own_vertices (install n ct st (rs_own_round rs) now) = []) as Ho'.
  { rewrite <-Ho. unfold own_vertices, install. cbn. by rewrite omap_app, app_nil_r. }
  split; [done|split; [done|done|split; [exact D2|exact D3]|]|split].
  - unfold install, dag_of, comm_of. cbn. eapply dr_step; [constructor|apply ds_prune].
  - unfold all_rounds, own_rounds. rewrite Ho'. unfold all_rounds, own_rounds in P1. by rewrite Ho in P1.
  - cbn [install nd_resuming]. intros _ r. unfold all_rounds, own_rounds. rewrite Ho', app_nil_r.
    destruct (rs_own_round rs) as [p|]; cbn; [|by intros ?%elem_of_nil]. intros ->%list_elem_of_singleton.
    eexists. split; [reflexivity|]. lia.
  - intros v Hv. rewrite Ho'. rewrite <-Ho. by apply P3.
Qed.

Lemma on_ordering_node_ok prior n st : NodeOk prior n -> NodeOk prior (on_ordering n st).
Proof.
  intros Hn. unfold on_ordering. destruct (nd_resuming n) as [rs|] eqn:Er; [|done]. destruct (_ || _); [done|].
  set (now := n_now_ms (nd_pace n)).
  destruct (install_node_ok prior n (rs_certificate rs) st (rs_own_round rs) now rs Er eq_refl Hn) as [H1 H2].
  set (n1 := install n _ _ _ _) in *. apply progress_node_ok; [done|].
  eapply (quiet_node_ok (fun _ _ _ => True)); [|exact H1]. etrans; [|by apply quiet_send]. by apply quiet_pace.
Qed.

Lemma ask_ordering_node_ok prior n now : NodeOk prior n -> NodeOk prior (ask_ordering n now).
Proof.
  intros [Hm Hd [P1 P2 P3]]. destruct (ask_ordering_calm (good (me_of n)) (fun _ _ _ => True) n now) as (Hc & Hr & Ho).
  split; [rewrite <-Hm; apply Hc|by eapply calm_dag_ok|]. unfold all_rounds, own_rounds in *.
  split; unfold all_rounds, own_rounds; rewrite ?Ho, ?Hr; [done| |].
  - unfold ask_ordering. destruct (nd_resuming n) as [rs|] eqn:E; [|by rewrite E].
    destruct (_ && _); [by rewrite E|done].
  - intros v. unfold ask_ordering. destruct (nd_resuming n); [|apply P3]. destruct (_ && _); [apply P3|]. cbn.
    rewrite elem_of_app, list_elem_of_singleton. intros [?|?]; [by apply P3|done].
Qed.

Lemma take_outbox_node_ok prior n : NodeOk prior n -> NodeOk prior (take_outbox n).1.
Proof.
  intros [Hm [D1 D0 D2 D3] [P1 P2 P3]]. split; [done|by split|]. split; try done. cbn. intros v ?%elem_of_nil. done.
Qed.

Lemma node_step_ok prior n i : good_input i -> NodeOk prior n -> NodeOk prior (node_step n i).
Proof.
  intros Hi Hn. set (any := fun (_ : Round) (_ : ValidatorIndex) (_ : list VertexRef) => True).
  destruct i; cbn [node_step].
  - unfold on_messages. destruct (_ || _); [done|]. set (n1 := set_pace n _).
    assert (NodeOk prior n1) as H1 by (eapply (quiet_node_ok any); [by apply quiet_pace|done]).
    cbn [good_input] in Hi. rewrite <-(no_me _ _ H1) in Hi. clearbody n1. destruct (nd_resuming n1) as [rs|] eqn:Er.
    + clear Er Hi. revert n1 H1. induction ms as [|m ms IH]; intros n1 H1; cbn [foldl]; [done|].
      apply IH. destruct m; try done. by apply on_ordering_node_ok.
    + set (n2 := echo_held _). assert (quiet (good (me_of n1)) (proposed_in from ms) n1 n2) as Hq.
      { etrans; [|apply echo_held_quiet]. etrans; [|by apply messages_quiet]. apply quiet_fetch. }
      apply progress_node_ok; [|by eapply quiet_node_ok]. by rewrite (sl_resuming _ _ (proj2 Hq)).
  - unfold on_tick. set (n1 := set_pace n _).
    assert (NodeOk prior n1) as H1 by (eapply (quiet_node_ok any); [by apply quiet_pace|done]). clearbody n1.
    destruct (nd_resuming n1) as [rs|] eqn:Er; [by apply ask_ordering_node_ok|].
    eapply (quiet_node_ok any); [apply repair_stall_quiet|].
    pose proof (retry_fetches_quiet (good (me_of n1)) any n1 now_ms) as Hq.
    apply progress_node_ok; [|by eapply quiet_node_ok]. by rewrite (sl_resuming _ _ (proj2 Hq)).
  - unfold start. set (n1 := connect _ _ _).
    assert (NodeOk prior n1) as H1.
    { eapply (quiet_node_ok any); [|exact Hn]. etrans; [|apply connect_quiet]. by apply quiet_pace. }
    clearbody n1. destruct (nd_resuming n1) as [rs|] eqn:Er; [by apply ask_ordering_node_ok|].
    apply advances_node_ok with n1; [done|apply try_start_advances|done].
  - unfold on_peer_up. destruct (_ || _); [done|]. set (n1 := connect _ _ _).
    assert (NodeOk prior n1) as H1.
    { eapply (quiet_node_ok any); [|exact Hn]. etrans; [|apply connect_quiet]. by apply quiet_pace. }
    clearbody n1. destruct (nd_resuming n1) as [rs|] eqn:Er.
    + eapply (quiet_node_ok any); [by apply quiet_send|done].
    + set (n2 := send n1 _ _). assert (NodeOk prior n2) as H2 by (eapply (quiet_node_ok any); [by apply quiet_send|done]).
      apply advances_node_ok with n2; [done|apply try_start_advances|done].
  - eapply (quiet_node_ok any); [apply submit_part_quiet|done].
  - apply orders_node_ok; [|done]. intros k. etrans; [|apply build_checkpoints_orders]. done.
  - apply orders_node_ok; [|done]. intros k. etrans; [|apply build_checkpoints_orders]. done.
  - eapply (quiet_node_ok any); [apply on_own_vote_quiet|done].
  - eapply (quiet_node_ok any); [apply adopt_certificate_quiet|done].
  - eapply (quiet_node_ok any); [apply adopt_handover_quiet|done].
  - eapply (quiet_node_ok any); [by apply quiet_pace|done].
  - by apply take_outbox_node_ok.
Qed.

Lemma admit_all_frame ss c n : let n' := foldl (fun n s =>
    match book_admit fingerprint key_verify session_digest (f_sessions (nd_certs n)) c s with
    | Ok (b, _) => upd_certs (fun f => set_sessions f b) n
    | Err _ => n
    end) n ss in
  nd_core n' = nd_core n /\ nd_journal n' = nd_journal n /\ nd_outbox n' = nd_outbox n.
Proof.
  cbn. revert n. induction ss as [|s ss IH]; intros n; cbn [foldl]; [done|].
  destruct (book_admit _ _ _ _ _ _) as [[b d]|]; [|apply IH].
  destruct (IH (upd_certs (fun f => set_sessions f b) n)) as (-> & -> & ->). done.
Qed.

Lemma fresh_ok prior n : fresh prior n -> me_of n = me ->
  (quorum (comm_of n) <= seats (comm_of n) me -> free) -> NodeOk prior n.
Proof.
  intros Hf Hm Ha. destruct Hf as [cfg c me' st seed wf|cfg c me' seed ct ss pr sq ex la wf].
  - split; [done|split; [done|by rewrite Hm|by split|constructor]|].
    split; [constructor|by intros _ r ?%elem_of_nil|by intros v ?%elem_of_nil].
  - unfold node_resume in *. set (n0 := node_new _ _ _ _ _) in *.
    destruct (admit_all_frame ss c n0) as (Hc & Hj & Ho). set (n1 := foldl _ n0 ss) in *.
    assert (forall m, nd_journal m = nd_journal n1 -> own_vertices m = []) as Hown.
    { intros m E. unfold own_vertices. by rewrite E, Hj. }
    split; [done|split|split].
    + unfold comm_of. cbn. by rewrite Hc.
    + by rewrite Hm.
    + split; intros ? ?; unfold verts_of; cbn; by rewrite Hc.
    + unfold dag_of, comm_of. cbn. rewrite Hc. constructor.
    + unfold all_rounds, own_rounds. intros _. rewrite Hown by done. destruct pr; repeat constructor.
    + cbn [nd_resuming set_resuming]. split; [done|by apply Hown].
    + intros v. cbn. rewrite Ho. by intros ?%elem_of_nil.
Qed.

Lemma inputs_ok prior n ins : Forall good_input ins -> NodeOk prior n -> NodeOk prior (foldl node_step n ins).
Proof.
  revert n. induction ins as [|i ins IH]; intros n Hi Hn; cbn [foldl]; [done|].
  apply Forall_cons in Hi as [Hi His]. apply IH; [done|]. by apply node_step_ok.
Qed.
End rounds.

(** Every vertex handed to a node has a round of 64 bits. *)
Definition typed_input (i : Input) : Prop :=
  match i with InMessages _ ms _ => Forall (good_message typed) ms | _ => True end.

(** Whatever the bound on rounds, a node's state is well formed. *)
Lemma run_node_ok `{Library} prior n ins : fresh prior n -> Forall typed_input ins ->
  NodeOk any_round True (me_of n) prior (foldl node_step n ins).
Proof.
  intros Hf Hi. apply (inputs_ok any_round True (me_of n) prior n ins Hi). by apply (fresh_ok any_round True).
Qed.

(** Every vertex handed to a node is below the last round of 64 bits. *)
Definition low_input (i : Input) : Prop :=
  match i with InMessages _ ms _ => Forall (good_message (fun v => v_round v < U64_MAX)) ms | _ => True end.

Lemma low_below me v : v_round v < U64_MAX -> below_last me v.
Proof. unfold below_last, typed, U64_MAX. lia. Qed.

(** C5: a validator proposes each round at most once. Whatever messages, ticks,
    results and certificates reach it, in whatever order, the rounds of the
    vertices it proposes strictly increase, from the round it proposed in before
    a resumption, and every vertex it broadcasts is one it recorded in its
    journal. Rounds are of 64 bits and wrap around: no vertex handed to the
    validator is of the last round, and it is not a quorum by itself. *)
Theorem proposes_once `{Library} prior n0 ins :
  fresh prior n0 -> seats (comm_of n0) (me_of n0) < quorum (comm_of n0) -> Forall low_input ins ->
  let n := foldl node_step n0 ins in
  StronglySorted N.lt (all_rounds prior n) /\
  forall v, (All, MPropose v) ∈ nd_outbox n -> v ∈ own_vertices n.
Proof.
  intros Hf Hs Hi n. destruct (inputs_ok below_last False (me_of n0) prior n0 ins) as [_ _ [P1 _ P3]].
  - eapply Forall_impl; [exact Hi|]. intros [] Hin; try done. cbn in *. eapply Forall_impl; [exact Hin|].
    intros [v| | | |vs| | | | | | |] Hm; try done; [by apply low_below|].
    eapply Forall_impl; [exact Hm|]. intros v. apply low_below.
  - apply (fresh_ok below_last False); [done..|]. lia.
  - auto.
Qed.

(** ** A committee of one *)

Definition lone_committee : Committee :=
  {| c_epoch := 0; c_members := take 1 (c_members four_seats); c_total_seats := 1; c_by_address := ∅ |}.

Lemma lone_committee_wf : CommitteeWf lone_committee.
Proof. constructor; vm_compute; try done. repeat constructor; done. Qed.

Definition demo_library : Library := {|
  draw_hash := sample_hash;
  seed_hash := fun d => d + 1;
  order_hash := demo_order;
  ordering_digest := demo_state;
  cp_digest := demo_cp_digest;
  root_of := demo_root;
  vertex_digest := demo_digest;
  batch_digest := fun p => 1000 + bp_sequence p;
  fingerprint := key_fp;
  session_digest := sample_session_digest;
  key_verify := any_key;
  message_representative := fun _ m => Some m;
  primary := fun _ _ _ => true;
  second := fun _ _ _ => true;
  hash_order := fun _ l => l;
|}.

Definition lone_inputs : list Input :=
  [InStart 0; InTick 1000; InPart (mkPart 3 [1; 2]); InTick 2000; InTick 3000; InTick 4000].
Definition lone_run (ins : list Input) : Node :=
  foldl (@node_step demo_library) (@node_new demo_config lone_committee 0%nat demo_start 5) ins.

(** ** A validator of four

    Validator 0 hears of the rounds of validators 1 and 2, and of its own vertex
    from them. *)

Definition peer_vertex (r : Round) (s : ValidatorIndex) : Vertex :=
  mkVertex 0 r s (if r =? 0 then [] else (fun i => mkRef (r - 1) i (demo_dig (r - 1) i)) <$> [0; 1; 2]%nat) [] [] []
    (1000 * r).

Definition peer_round (r : Round) : list Input :=
  ((fun p => InMessages p
      [MPropose (peer_vertex r p);
       MSignals (x ← [Echo; Vote; Ack; Rbc.Ready]; i ← [0; 1; 2]%nat; [mkSignal x r i (demo_dig r i)])]
      (1000 * (r + 1))) <$> [1; 2]%nat)
  ++ [InTick (1000 * (r + 1) + 500)].

Definition four_inputs : list Input :=
  [InStart 0; InPeerUp 1 0; InPeerUp 2 0; InStart 0] ++ peer_round 0 ++ peer_round 1 ++ peer_round 2.
Definition four_node : Node := @node_new demo_config four_seats 0%nat demo_start 5.
Definition four_run (ins : list Input) : Node := foldl (@node_step demo_library) four_node ins.

Lemma proposes_once_witness :
  own_rounds (four_run four_inputs) = [0; 1; 2; 3] /\
  StronglySorted N.lt (all_rounds None (four_run four_inputs)).
Proof.
  split; [vm_compute; reflexivity|]. apply (@proposes_once demo_library).
  - apply fresh_new, four_seats_wf.
  - vm_compute. reflexivity.
  - repeat constructor.
Defined.
