(* ===== verification/Refine.v ===== *)
(** A node refines a replica.

    In a network that meets [NetworkOk], whatever reaches a node that runs an
    epoch from its start, its core moves as a replica of [Replicas] does: by
    passes of the commit rule, released segments, results, drawn leaders, and
    vertices received into a DAG that holds delivered vertices only, halting
    where its verifiers disagree. The order of two nodes is then one order. *)

From stdpp Require Import prelude gmap list sorting.
From Stdlib Require Import NArith ZArith Lia.
From S2P Require Import Prelude Committee Checkpoint Merkle Rbc Vertex Dag DagWalk Schedule Commit Batch Order OrderLog Lockstep Replicas Node NodeFrame Propose.

(** ** Blocks are only added *)

Section blocks.
Context `{Library}.

Definition block_count (k : Core) : nat := length (blocks (log_of k)).
Definition adds (k k' : Core) : Prop := (block_count k <= block_count k')%nat.

#[global] Instance adds_preorder : PreOrder adds.
Proof. split; unfold adds; [by intros k|intros k1 k2 k3; lia]. Qed.

Lemma log_adds k k' : log_of k' = log_of k -> adds k k'.
Proof. unfold adds, block_count. by intros ->. Qed.

Lemma other_adds k k' : other_change k k' -> adds k k'.
Proof. intros Ho. apply log_adds, (other_views k k' Ho). Qed.

Lemma build_adds k : adds k (build_checkpoints cp_digest root_of k).
Proof.
  unfold build_checkpoints. generalize (length (k_decided (co_cps k))) as fuel. intros fuel. revert k.
  induction fuel as [|fuel IH]; intros k; cbn [build_loop]; [done|].
  destruct (k_decided (co_cps k)) as [|pc rest]; [done|]. destruct (pc_ordering_root pc) as [d|]; [|done].
  destruct (negb _); [done|]. destruct (_ && _); [done|]. etrans; [|apply IH]. apply log_adds.
  unfold log_of, emitted. cbn. by rewrite omap_app, app_nil_r.
Qed.

Lemma commit_adds k a : adds k (Order.commit seed_hash order_hash ordering_digest cp_digest root_of k a).
Proof.
  unfold Order.commit. pose proof (commit_history_other k a) as H1. destruct (commit_history k a) as [k1 h].
  pose proof (commit_batches_other k1 a h) as H2. destruct (commit_batches k1 a h) as [k2 rel]. cbn [fst] in *.
  etrans; [apply (other_adds _ _ H1)|]. etrans; [apply (other_adds _ _ H2)|]. set (t := commit_timestamp k2 a).
  assert (forall k, adds k (commit_blocks k a t h rel)) as H3.
  { intros k3. unfold commit_blocks. destruct (existsb _ _); [|done].
    generalize (block_chunks rel MAX_TRANSACTIONS_PER_BLOCK) as chunks. intros chunks. revert k3.
    induction chunks as [|x chunks IH]; intros k3; cbn [foldl]; [done|]. etrans; [|apply IH].
    unfold adds, block_count. rewrite blocks_push. rewrite length_app. lia. }
  assert (forall k, adds k (commit_checkpoint seed_hash order_hash k a t)) as H4.
  { intros k3. unfold commit_checkpoint. destruct (_ && _); [|by destruct (_ && _); apply log_adds].
    unfold adds, block_count, log_of, emitted. cbn. rewrite fmap_app, !blocks_app, !length_app. lia. }
  etrans; [|etrans; [apply (H3 (set_timestamp k2 t))|]]; [by apply log_adds|]. etrans; [apply H4|].
  etrans; [apply other_adds, (collect_garbage_other _ (r_round a))|]. unfold seal_decided.
  etrans; [|apply build_adds]. by destruct (last _); [destruct (bool_decide _)|]; apply log_adds.
Qed.

Lemma take_decisions_adds ds k :
  adds k (take_decisions draw_hash seed_hash order_hash ordering_digest cp_digest root_of k ds).1.
Proof.
  revert k. induction ds as [|[s [a| |]] ds IH]; intros k; cbn [Order.take_decisions fst]; try done.
  - etrans; [apply (commit_adds (pass_slot k s) a)|]. destruct (_ || _); [done|apply IH].
  - etrans; [|apply IH]. etrans; [|apply other_adds, skip_slot_other]. by apply log_adds.
Qed.

Lemma try_commit_adds k :
  adds k (try_commit draw_hash seed_hash order_hash ordering_digest cp_digest root_of k).
Proof.
  unfold try_commit. destruct (try_commit_loop _ _ _ _ _ _ _ k) as [k'|] eqn:E; [|done]. cbn. revert E.
  generalize (S (length (decisions draw_hash k))) as fuel. intros fuel. revert k.
  induction fuel as [|fuel IH]; intros k; cbn [Order.try_commit_loop]; destruct (o_halted (co_ord k)); intros E;
    try by simplify_eq.
  pose proof (take_decisions_adds (decisions draw_hash k) (draw_leaders draw_hash k)) as Ht.
  destruct (take_decisions _ _ _ _ _ _ _ _) as [k1 again]. cbn [fst] in Ht.
  assert (adds k k1) as H1 by (etrans; [|exact Ht]; unfold draw_leaders; destruct (decisions _ k); [done|];
    destruct (top_round _ _); by apply log_adds).
  destruct again; [etrans; [exact H1|by apply IH]|by simplify_eq].
Qed.

Lemma release_adds k : adds k (release_segments k).
Proof.
  unfold release_segments. generalize (eq_refl (b_waiting (co_bat k))).
  generalize (b_waiting (co_bat k)) at 1 3 as waiting. intros waiting. revert k.
  induction waiting as [|[s|h] rest IH]; intros k Hw; cbn [release_loop]; [done| |].
  - destruct (_ && _); [done|]. etrans; [|apply IH; done]. apply log_adds.
    unfold log_of, emitted, release_segment. cbn. by rewrite <-Hw, omap_app, <-app_assoc.
  - etrans; [|apply IH; done]. apply log_adds. unfold log_of, emitted. cbn. by rewrite <-Hw, omap_app, <-app_assoc.
Qed.
End blocks.

(** ** The network a node is in *)

Section network.
Context `{Library}.
Context (result_at : N -> Digest * Digest * list Digest) (next_root : Digest).
Context (c : Committee) (faulty : ValidatorIndex -> bool).
Context (U : Round -> ValidatorIndex -> option (Digest * Vertex)).
Context (cfg : CoreConfig) (start : EpochStart) (seed : Digest).

(** Vertices an honest author vouches for: its own, and what it references. *)
Inductive vouched : Digest -> Prop :=
| vouched_own r s d v : U r s = Some (d, v) -> faulty s = false -> vouched d
| vouched_ref r s d v ref : vouched d -> U r s = Some (d, v) -> ref ∈ refs_of v -> vouched (r_digest ref).

(** What the broadcast and the honest authors guarantee of the vertices of an
    epoch, [U]. [nw_binds] holds one thing that no check of the code enforces: the
    references of a delivered vertex, a faulty author's too, are labelled with the
    round and author of the vertex they name. *)
Record NetworkOk : Prop := {
  nw_committee : CommitteeWf c;
  nw_faulty : weight c faulty <= max_faulty c;
  nw_binds : UniverseBinds c faulty vertex_digest U;
  (** No vertex has the digest of another that was delivered. *)
  nw_collision r s v w : U r s = Some (vertex_digest v, w) -> v = w;
  (** What an honest author references was delivered, and so was all that leads
      back from it, below the floor of a pruned DAG too, where the code does not
      look references up. *)
  nw_vouched d : vouched d -> exists r s v, U r s = Some (d, v);
  nw_start : StartOk result_at start;
}.

(** An honest author's first proposal is its vertex of the round. *)
Definition first_ok (r : Round) (s : ValidatorIndex) (refs : list VertexRef) : Prop :=
  faulty s = false -> exists d v, U r s = Some (d, v) /\ v_strong v = refs.

Definition input_ok (i : Input) : Prop :=
  typed_input i /\
  match i with
  | InMessages from ms _ => faulty from = false ->
      forall v, MPropose v ∈ ms -> U (v_round v) from = Some (vertex_digest v, v)
  | InExecuted h b s sts => result_at h = (b, s, sts)
  | InNextCommittee r => r = next_root
  | _ => True
  end.

(** What a node delivered is of the network, and its heights have not wrapped
    around. *)
Definition sound (n : Node) : Prop :=
  (forall r s d, (r, s, d) ∈ nd_delivered n -> exists v, U r s = Some (d, v)) /\ fits start (nd_core n).

(** What it proposed is of the network. *)
Definition own_ok (n : Node) : Prop :=
  forall v, v ∈ own_vertices n -> U (v_round v) (me_of n) = Some (vertex_digest v, v).

Abbreviation run me := (replica_run draw_hash seed_hash order_hash ordering_digest cp_digest root_of
  result_at next_root c faulty vertex_digest U cfg start seed me).
Abbreviation step := (replica_step draw_hash seed_hash order_hash ordering_digest cp_digest root_of
  result_at next_root faulty vertex_digest U).

Context (net : NetworkOk).

Abbreviation DagOk := (Propose.DagOk any_round True).
Abbreviation NodeOk := (Propose.NodeOk any_round True).
Abbreviation advances := (Propose.advances any_round True).

(** *** Views *)

Definition legit (d : Digest) : Prop := exists r s v, U r s = Some (d, v).

Lemma dag_view_in n r s d v : DagOk n -> comm_of n = c -> sound n ->
  dag_at (dag_of n) r s = Some (d, v) -> U r s = Some (d, v).
Proof.
  intros [Hwf _ _ Hd] Hc Hn Hat. rewrite Hc in Hd.
  assert (dag_reachable vertex_digest typed legit (with_vouching (m_seats <$> c_members c) (validity c)) (dag_of n)) as Hr.
  { eapply reachable_weaken; [|exact Hd]. intros x (r' & s' & Hx). destruct (proj1 Hn _ _ _ Hx) as [w Hw].
    by exists r', s', w. }
  pose proof (reachable_wf _ _ _ _ _ _ Hr) as Hg. destruct (dw_slot _ _ _ Hg _ _ _ _ Hat) as (Hb & <- & <- & Hdig & _).
  assert (legit d) as (r' & s' & w & Hw).
  { eapply (dl_in c faulty legit vouched); [|by eexists].
    eapply (reachable_legit vertex_digest typed c faulty (nw_committee net) (nw_faulty net)); [| | |exact Hr].
    - intros x (r' & s' & w & Hw) Hh. pose proof (nw_collision net _ _ _ _ Hw) as <-.
      destruct (u_vertex _ _ _ _ (ub_universe _ _ _ _ (nw_binds net)) _ _ _ _ Hw) as (_ & <- & _). by eapply vouched_own.
    - intros x ref Hx Hin. destruct (nw_vouched net _ Hx) as (r' & s' & w & Hw).
      pose proof (nw_collision net _ _ _ _ Hw) as <-. by eapply vouched_ref.
    - intros x Hx. destruct (nw_vouched net _ Hx) as (r' & s' & w & Hw). by exists r', s', w. }
  rewrite <-Hdig in Hw. pose proof (nw_collision net _ _ _ _ Hw) as <-.
  destruct (u_vertex _ _ _ _ (ub_universe _ _ _ _ (nw_binds net)) _ _ _ _ Hw) as (-> & -> & _ & _). by rewrite <-Hdig.
Qed.

Lemma calm_receives P n n' : (forall r s refs, P r s refs -> first_ok r s refs) ->
  calm typed P n n' -> DagOk n' -> comm_of n' = c -> sound n' ->
  (forall r props s refs, x_first_proposals (verts_of n) !! r = Some props -> props !! s = Some refs -> first_ok r s refs) ->
  dag_floor (dag_of n) <= (o_next_slot (co_ord (nd_core n))).1 ->
  receives faulty vertex_digest U (nd_core n) (nd_core n').
Proof.
  intros HP Hc Hd Hcm Hn Hfirst Hfl. destruct Hc. split; try done.
  split.
  - eapply (wf_weaken _ typed); [done|]. eapply reachable_wf. apply Hd.
  - change (x_dag (co_verts (nd_core n'))) with (dag_of n'). rewrite cm_floor, cm_slot. done.
  - intros r s d v. by apply dag_view_in.
  - intros r props s refs H1 H2. destruct (cm_first _ _ _ _ H1 H2) as [(props0 & H3 & H4)|H3]; [by eapply Hfirst|by apply HP].
Qed.

(** *** Steps of a node *)

(** From [n] to [n'] the core runs as a replica's. *)
Record refines (n n' : Node) : Prop := {
  rf_me : me_of n' = me_of n;
  rf_committee : comm_of n' = comm_of n;
  rf_dag : DagOk n -> DagOk n';
  rf_sound : sound n' -> sound n;
  rf_run me : DagOk n -> comm_of n = c -> sound n' -> run me (nd_core n) -> run me (nd_core n');
}.

#[local] Instance refines_preorder : PreOrder refines.
Proof.
  split; [by intros n|]. intros n1 n2 n3 [A1 A2 A3 A4 A5] [B1 B2 B3 B4 B5].
  split; [congruence|congruence|auto|auto|]. intros me Hd Hc Hs Hr. apply B5; [auto|congruence|done|]. apply A5; auto.
Qed.

Lemma adds_fits k k' : adds k k' -> fits start k' -> fits start k.
Proof. unfold adds, block_count, fits. lia. Qed.

Lemma calm_refines P n n' : (forall r s refs, P r s refs -> first_ok r s refs) -> calm typed P n n' -> refines n n'.
Proof.
  intros HP Hc. assert (comm_of n' = comm_of n) as Hcm by apply Hc. split.
  - apply Hc.
  - done.
  - by eapply calm_dag_ok.
  - intros [Hdel Hfit]. destruct (cm_delivered _ _ _ _ Hc) as [l Hl]. split.
    + intros r s d Hin. apply Hdel. rewrite Hl. apply elem_of_app. by left.
    + eapply adds_fits; [|exact Hfit]. apply other_adds, Hc.
  - intros me Hd Hcn Hs Hr. eapply rr_step; [exact Hr| |apply Hs]. apply rp_receive.
    destruct (replica_order _ _ _ _ _ _ _ _ _ _ _ _ _ _ _ (nw_faulty net) (nw_binds net) (nw_start net)
      me _ Hr) as (_ & [_ _ _ _ _ _ [_ V2 _ V4]] & _).
    eapply calm_receives; [exact HP|exact Hc|by eapply calm_dag_ok|congruence| |exact V4|exact V2]. done.
Qed.

Lemma draw_refines n r : refines n (draw_to n r).
Proof.
  split; try done; [by intros []|]. intros me _ _ [_ Hf] Hr. eapply rr_step; [exact Hr|apply (rp_leader _ _ _ _ _ _ _ _ _ _ _ _ r 0)|done].
Qed.

Lemma moves_refines P n n' : (forall r s refs, P r s refs -> first_ok r s refs) -> moves typed P n n' -> refines n n'.
Proof.
  intros HP. induction 1 as [|n n1 n2 [Hc|[r ->]] _ IH]; [done| |].
  - etrans; [by eapply calm_refines|done].
  - etrans; [apply draw_refines|done].
Qed.

Lemma quiet_refines P n n' : (forall r s refs, P r s refs -> first_ok r s refs) -> quiet typed P n n' -> refines n n'.
Proof. intros HP [Hc _]. by eapply calm_refines. Qed.

(** A step of the replica taken by the core. *)
Lemma core_refines n f : (forall k, step k (f k)) -> (forall k, orders k (f k)) -> (forall k, adds k (f k)) ->
  refines n (upd_core f n).
Proof.
  intros Hs Ho Ha. split.
  - apply (os_me _ _ (Ho (nd_core n))).
  - apply (os_committee _ _ (Ho (nd_core n))).
  - by apply orders_dag_ok.
  - intros [H1 H2]. split; [done|]. eapply adds_fits; [apply Ha|exact H2].
  - intros me _ _ [_ Hf] Hr. eapply rr_step; [exact Hr|apply Hs|done].
Qed.

(** Steps that propose refine when the proposals are of the network. *)
Definition grows_refines (n n' : Node) : Prop :=
  me_of n' = me_of n /\ nd_resuming n' = nd_resuming n /\ own_vertices n `prefix_of` own_vertices n' /\
  (own_ok n' -> refines n n').

#[local] Instance grows_refines_preorder : PreOrder grows_refines.
Proof.
  split; [intros n; split_and!; [done..|by intros _]|]. intros n1 n2 n3 (A1 & A4 & A2 & A3) (B1 & B4 & B2 & B3).
  split_and!; [congruence|congruence|by etrans|].
  intros Ho. etrans; [apply A3|by apply B3]. intros v Hv. rewrite <-B1. apply Ho.
  destruct B2 as [l ->]. apply elem_of_app. by left.
Qed.

Lemma refines_grows n n' : refines n n' -> still n n' -> grows_refines n n'.
Proof. intros Hr Hs. split_and!; [apply Hr|apply Hs|by rewrite (sl_own _ _ Hs)|done]. Qed.

Lemma quiet_grows P n n' : (forall r s refs, P r s refs -> first_ok r s refs) -> quiet typed P n n' -> grows_refines n n'.
Proof. intros HP Hq. apply refines_grows; [by eapply quiet_refines|]. apply Hq. Qed.

Lemma silent_grows n n' : quiet typed (fun _ _ _ => False) n n' -> grows_refines n n'.
Proof. intros Hq. eapply quiet_grows; [|exact Hq]. by intros. Qed.

Lemma core_grows n f : (forall k, step k (f k)) -> (forall k, orders k (f k)) -> (forall k, adds k (f k)) ->
  grows_refines n (upd_core f n).
Proof. intros. apply refines_grows; [by apply core_refines|done]. Qed.

Lemma advances_grows n n' : advances n n' -> grows_refines n n'.
Proof.
  intros Ha. split_and!; [apply Ha| |apply Ha|].
  { pose proof (av_climbs _ _ _ _ Ha) as Hc. clear Ha. induction Hc as [|n1 n2 n3 [Hs|(r & Hp & _)] _ IH]; [done|rewrite IH; apply Hs|rewrite IH; apply Hp]. }
  intros Ho. eapply (moves_refines first_ok); [done|].
  apply Ha. apply Forall_forall. intros v Hv _. exists (vertex_digest v), v. split; [|done]. by apply Ho.
Qed.

Lemma progress_grows n now : DagOk n -> grows_refines n (progress n now).
Proof.
  intros Hd. unfold progress. set (n1 := upd_core _ n).
  assert (DagOk n1) as H1 by (apply orders_dag_ok; [apply try_commit_orders|done]).
  etrans; [apply (core_grows n (try_commit draw_hash seed_hash order_hash ordering_digest cp_digest root_of))|].
  - intros k. apply rp_commit.
  - apply try_commit_orders.
  - apply try_commit_adds.
  - fold n1. etrans; [apply advances_grows, (try_advance_advances any_round True n1 now H1)|]. apply core_grows.
    + intros k. apply rp_release.
    + intros k. apply release_loop_orders.
    + apply release_adds.
Qed.

Lemma take_outbox_grows n : grows_refines n (take_outbox n).1.
Proof. apply refines_grows; split; try done; [by intros []|]. cbn. by intros v ?%elem_of_nil. Qed.

(** Outside resumption a step of the node is steps of a replica. *)
Lemma node_step_refines n i : input_ok i -> DagOk n -> nd_resuming n = None -> grows_refines n (node_step n i).
Proof.
  intros [Ht Hi] Hd Hres. destruct i; cbn [node_step] in *.
  - unfold on_messages. destruct (_ || _); [done|]. set (n1 := set_pace n _). change (nd_resuming n1) with (nd_resuming n).
    rewrite Hres. set (n2 := echo_held _). assert (quiet typed (proposed_in from ms) n n2) as Hq.
    { trans n1; [by apply quiet_pace|]. etrans; [|apply echo_held_quiet]. etrans; [|by apply messages_quiet]. apply quiet_fetch. }
    etrans; [eapply quiet_grows; [|exact Hq]|apply progress_grows].
    + intros r s refs (-> & v & Hv & <- & <-) Hh. exists (vertex_digest v), v. split; [|done]. by apply Hi.
    + eapply calm_dag_ok; [apply Hq|done].
  - unfold on_tick. set (n1 := set_pace n _). change (nd_resuming n1) with (nd_resuming n). rewrite Hres.
    etrans; [|apply silent_grows, repair_stall_quiet].
    assert (quiet typed (fun _ _ _ => False) n (retry_fetches n1 now_ms)) as Hq.
    { etrans; [|apply retry_fetches_quiet]. by apply quiet_pace. }
    etrans; [by apply silent_grows|]. apply progress_grows. eapply calm_dag_ok; [apply Hq|done].
  - unfold Node.start. set (n1 := connect _ _ _). change (nd_resuming n1) with (nd_resuming n). rewrite Hres.
    etrans; [|apply advances_grows, (try_start_advances any_round True)]. apply silent_grows. etrans; [|apply connect_quiet]. by apply quiet_pace.
  - unfold on_peer_up. destruct (_ || _); [done|]. set (n1 := connect _ _ _).
    change (nd_resuming n1) with (nd_resuming n). rewrite Hres.
    etrans; [|apply advances_grows, (try_start_advances any_round True)]. apply silent_grows. etrans; [|by apply quiet_send].
    etrans; [|apply connect_quiet]. by apply quiet_pace.
  - apply silent_grows, submit_part_quiet.
  - apply core_grows; intros k.
    + pose proof (rp_executed draw_hash seed_hash order_hash ordering_digest cp_digest root_of result_at next_root
        faulty vertex_digest U k height) as Hs. cbn in Hs. by rewrite Hi in Hs.
    + etrans; [|apply build_checkpoints_orders]. done.
    + etrans; [|apply build_adds]. by apply log_adds.
  - subst root. apply core_grows; intros k; [apply rp_root| |].
    + etrans; [|apply build_checkpoints_orders]. done.
    + etrans; [|apply build_adds]. by apply log_adds.
  - apply silent_grows, on_own_vote_quiet.
  - apply silent_grows, adopt_certificate_quiet.
  - apply silent_grows, adopt_handover_quiet.
  - apply silent_grows. by apply quiet_pace.
  - apply take_outbox_grows.
Qed.

Lemma node_inputs_grow me prior n ins : Forall input_ok ins -> NodeOk me prior n -> nd_resuming n = None ->
  grows_refines n (foldl node_step n ins).
Proof.
  intros Hi. revert n. induction Hi as [|i ins Hi _ IH]; intros n Hn Hr; cbn [foldl]; [done|].
  pose proof (node_step_refines n i Hi (no_dag _ _ _ _ _ Hn) Hr) as Hs. etrans; [exact Hs|].
  apply IH; [apply (node_step_ok any_round True); [apply Hi|done]|]. by rewrite (proj1 (proj2 Hs)).
Qed.

(** The core of a node is a replica's. *)
Lemma node_refines_replica me ins : Forall input_ok ins ->
  let n := foldl node_step (node_new cfg c me start seed) ins in
  own_ok n -> sound n -> run me (nd_core n).
Proof.
  intros Hi n Ho Hs. pose proof (run_node_ok None _ [] (fresh_new cfg c me start seed (nw_committee net)) (Forall_nil_2 _)) as Hn.
  destruct (node_inputs_grow _ None _ ins Hi Hn eq_refl) as (_ & _ & _ & Hg).
  apply (rf_run _ _ (Hg Ho)); [apply Hn|done|done|apply rr_start].
Qed.

(** C2: a node that runs an epoch from its start is a replica: whatever messages,
    ticks and results reach it, in whatever order, every state of its core is one
    the abstract replica of [Replicas] reaches, whose only steps are passes of the
    commit rule, released segments, results, drawn leaders, and vertices received,
    with which it may halt on a verifier disagreement. Its DAG holds only vertices
    of [U], fetched ones included. The conditions are those of [NetworkOk]: the
    faulty hold at most [f] of the weight; the broadcast delivers one vertex [U]
    for a round and author, no other vertex has its digest, and every reference
    of these, a faulty author's too, carries the round and author of the vertex
    it names, which the code does not check; what honest authors propose, this node included, and what they build
    on, back through every reference, is in [U]; results and the next committee are those all execute; heights
    stay below 2^64. A node that resumed in the epoch is not covered. *)
Theorem node_refines me ins : Forall input_ok ins ->
  let n := foldl node_step (node_new cfg c me start seed) ins in
  own_ok n -> sound n ->
  run me (nd_core n) /\ forall r s d v, dag_at (dag_of n) r s = Some (d, v) -> U r s = Some (d, v).
Proof.
  intros Hi n Ho Hs. pose proof (node_refines_replica me ins Hi Ho Hs) as Hr. split; [done|]. fold n in Hr.
  destruct (replica_order _ _ _ _ _ _ _ _ _ _ _ _ _ _ _ (nw_faulty net) (nw_binds net) (nw_start net)
    me _ Hr) as (_ & [_ _ _ _ _ _ V] & _). apply V.
Qed.

(** C1: nodes agree. Two nodes that run an epoch from its start, of which the
    faulty hold at most [f] of the weight, are handed messages, ticks and results
    in any order, halt on verifier disagreements or not: the blocks one has
    ordered are a prefix of the other's, batch by batch, and so are the
    checkpoints they sign, field by field. The conditions are those of
    [NetworkOk]: the broadcast delivers one vertex [U] for a round and author
    ([RbcNet]), and no other vertex has its digest; every reference of these, a faulty author's too, carries the round
    and author of the vertex it names, which the code does not check and without
    which honest validators can decide a slot differently
    ([Commit.mislabelled_reference_splits_decisions]); what honest authors propose
    and build on, back through every reference, is in [U]; results and the next committee are those all execute;
    heights stay below 2^64. Nodes that resumed in the epoch are not covered. *)
Theorem nodes_agree me1 ins1 me2 ins2 : Forall input_ok ins1 -> Forall input_ok ins2 ->
  let n1 := foldl node_step (node_new cfg c me1 start seed) ins1 in
  let n2 := foldl node_step (node_new cfg c me2 start seed) ins2 in
  own_ok n1 -> sound n1 -> own_ok n2 -> sound n2 ->
  (full_log (nd_core n1) `prefix_of` full_log (nd_core n2) \/ full_log (nd_core n2) `prefix_of` full_log (nd_core n1)) /\
  (signed (nd_core n1) `prefix_of` signed (nd_core n2) \/ signed (nd_core n2) `prefix_of` signed (nd_core n1)).
Proof.
  intros Hi1 Hi2 n1 n2 Ho1 Hs1 Ho2 Hs2.
  pose proof (node_refines_replica me1 ins1 Hi1 Ho1 Hs1) as R1. pose proof (node_refines_replica me2 ins2 Hi2 Ho2 Hs2) as R2.
  split; [|by eapply replicas_signed_compare; [apply net..|exact R1|exact R2]].
  edestruct (replicas_compare draw_hash) as [[? _]|[? _]]; [apply net..|exact R1|exact R2|by left|by right].
Qed.
End network.
