(* ===== verification/Certify.v ===== *)
(** Certificates a node holds.

    Votes and certificates reach a node in any order. Every certificate it holds
    is backed by a quorum whose signatures verify under session keys the signers'
    hardware keys certified; no two nodes hold certificates of different
    checkpoints at one index; and the epoch after starts alike everywhere. *)

From stdpp Require Import prelude gmap list sorting.
From Stdlib Require Import NArith ZArith Lia.
From S2P Require Import Prelude Committee Checkpoint Merkle Rbc Vertex Dag DagWalk Schedule Commit Batch Order OrderLog Lockstep Replicas Node NodeFrame Propose Refine.

(** ** What leaves certificates alone *)

Section kept.
Context `{Library}.

(** What certificates are checked against, and they themselves. *)
Definition cert_state (n : Node) : Certs * option Resuming * CoreConfig * Committee :=
  (nd_certs n, nd_resuming n, cfg_of n, comm_of n).

Lemma foldl_kept {A} (f : Node -> A -> Node) l n :
  (forall n x, cert_state (f n x) = cert_state n) -> cert_state (foldl f n l) = cert_state n.
Proof. intros Hf. revert n. induction l as [|x l IH]; intros n; cbn [foldl]; [done|]. by rewrite IH, Hf. Qed.

Lemma record_inserted_kept n r : cert_state (record_inserted n r) = cert_state n.
Proof. unfold record_inserted. destruct (get _ _); [|done]. by destruct (_ && _). Qed.

Lemma after_offer_kept n ins missing : cert_state (after_offer n ins missing) = cert_state n.
Proof. unfold after_offer. apply (foldl_kept record_inserted). apply record_inserted_kept. Qed.

Lemma core_offer_kept n v : cert_state (core_offer n v) = cert_state n.
Proof. unfold core_offer. destruct (offer _ _ _) as [[g ins] ms]. by rewrite after_offer_kept. Qed.

Lemma core_hold_kept n v : cert_state (core_hold n v) = cert_state n.
Proof. unfold core_hold. destruct (hold _ _ _) as [[g ins] ms]. by rewrite after_offer_kept. Qed.

Lemma deliver_vertex_kept n r s d : cert_state (deliver_vertex n r s d) = cert_state n.
Proof.
  unfold deliver_vertex. set (n1 := upd_verts _ (note_delivered n (r, s, d))).
  assert (cert_state n1 = cert_state n) as <- by done. clearbody n1.
  set (n2 := match x_unechoed _ !! _ with Some _ => _ | None => _ end).
  assert (cert_state n2 = cert_state n1) as <- by (unfold n2; destruct (_ !! _); [by destruct (_ =? _)|done]).
  clearbody n2. destruct (_ !! _); [apply core_offer_kept|done].
Qed.

Lemma apply_rbc_kept n acts : cert_state (apply_rbc n acts) = cert_state n.
Proof.
  unfold apply_rbc. assert (forall l n0, cert_state (foldl apply_action (n0, l) acts).1 = cert_state n0) as Hf.
  { induction acts as [|a acts IH]; intros l n0; cbn [foldl]; [done|]. destruct a; cbn [apply_action]; rewrite IH; [done|].
    apply deliver_vertex_kept. }
  specialize (Hf [] n). destruct (foldl apply_action (n, []) acts) as [n1 [|s ss]]; cbn [fst] in Hf; by rewrite <-Hf.
Qed.

Lemma echo_kept n v : cert_state (echo n v) = cert_state n.
Proof.
  unfold echo. destruct (Rbc.on_propose _ _ _ _ _ _) as [rb acts]. rewrite apply_rbc_kept.
  destruct acts; [done|]. by destruct (contains _ _).
Qed.

Lemma echo_held_kept n : cert_state (echo_held n) = cert_state n.
Proof.
  unfold echo_held. apply foldl_kept. intros m [k ok]. destruct (_ !! _); [|done]. destruct ok; [|done]. cbn [snd].
  by rewrite echo_kept.
Qed.

Lemma sends_kept n to ms : cert_state (sends to ms n) = cert_state n.
Proof. unfold sends. by apply (foldl_kept (fun n m => send n to m)). Qed.

Lemma core_on_propose_kept n from v : cert_state (core_on_propose n from v) = cert_state n.
Proof.
  unfold core_on_propose. destruct (_ || _); [done|]. destruct (_ || _); [done|]. destruct (_ || _); [done|].
  set (n1 := upd_verts _ n). change (cert_state n) with (cert_state n1). clearbody n1. destruct (filter _ _).
  - destruct (bool_decide _); [apply echo_kept|done].
  - set (n2 := sends _ _ _). change (cert_state n2 = cert_state n1). unfold n2. by rewrite sends_kept.
Qed.

Lemma on_batch_kept n from p : cert_state (on_batch n from p) = cert_state n.
Proof.
  unfold on_batch. destruct (_ || _); [done|]. destruct (held_payload _ _); [done|]. destruct (_ || _); [done|].
  by destruct (_ <=? _).
Qed.

Lemma submit_part_kept n part : cert_state (submit_part n part) = cert_state n.
Proof. unfold submit_part. by destruct (_ || _). Qed.

Lemma build_vertex_kept n r now : cert_state (build_vertex n r now).1 = cert_state n.
Proof. unfold build_vertex. by destruct (o_halted _). Qed.

Lemma propose_kept n r now : cert_state (propose n r now) = cert_state n.
Proof.
  unfold propose. rewrite <-(build_vertex_kept n r now). destruct (build_vertex n r now) as [n1 v]. cbn [fst].
  destruct (Rbc.on_propose _ _ _ _ _ _). by rewrite apply_rbc_kept.
Qed.

Lemma enter_after_kept n r now paced : cert_state (enter_after n r now paced).1 = cert_state n.
Proof.
  unfold enter_after. destruct (match n_round _ with Some _ => _ | None => _ end); [done|].
  destruct (_ && _); [done|]. destruct (_ && _); [done|]. destruct (_ <? quorum _); [done|].
  assert (cert_state (leaders_held n r).1 = cert_state n) as <- by (unfold leaders_held; by destruct (leaders_settled _ _ _)).
  destruct (leaders_held n r) as [n1 held]. cbn [fst].
  assert (cert_state (own_slot_missing n1 r paced).1 = cert_state n1) as <- by (unfold own_slot_missing; by destruct (_ && _)).
  destruct (own_slot_missing n1 r paced) as [n2 missing]. destruct (_ && _); [done|]. apply propose_kept.
Qed.

Lemma or_else_kept n st f : cert_state st.1 = cert_state n -> (forall m, cert_state (f m).1 = cert_state m) ->
  cert_state (or_else st f).1 = cert_state n.
Proof. unfold or_else. destruct st as [m []]; cbn; [done|]. intros H1 H2. by rewrite H2. Qed.

Lemma advance_once_kept n now : cert_state (advance_once n now).1 = cert_state n.
Proof.
  unfold advance_once. destruct (n_round _); [|done]. destruct (_ <? lower_top _ _ _ _); [|apply enter_after_kept].
  apply or_else_kept; [apply or_else_kept|]; try (intros; apply enter_after_kept).
  destruct (leads _ _ _ _); [by rewrite enter_after_kept|done].
Qed.

Lemma try_advance_kept n now : cert_state (try_advance n now) = cert_state n.
Proof.
  unfold try_advance. generalize (advance_fuel n) as fuel. intros fuel.
  destruct (try_advance_loop fuel n now) as [n'|] eqn:E; [cbn|done]. revert n E.
  induction fuel as [|fuel IH]; intros n; cbn [try_advance_loop]; pose proof (advance_once_kept n now) as Ha;
    destruct (advance_once n now) as [n1 []]; cbn [negb fst] in *; intros E; try done; try by injection E as <-.
  rewrite <-Ha. by apply IH.
Qed.

Lemma core_kept n f : orders (nd_core n) (f (nd_core n)) -> cert_state (upd_core f n) = cert_state n.
Proof. intros []. unfold cert_state, cfg_of, comm_of, upd_core. cbn. congruence. Qed.

Lemma progress_kept n now : cert_state (progress n now) = cert_state n.
Proof.
  unfold progress. rewrite core_kept by apply release_loop_orders. rewrite try_advance_kept.
  apply core_kept, try_commit_orders.
Qed.

Lemma on_signals_kept n from ss : cert_state (on_signals n from ss) = cert_state n.
Proof.
  unfold on_signals. apply foldl_kept. intros m s. destruct (_ <? _); [done|]. destruct (on_signal _ _ _ _).
  by rewrite apply_rbc_kept.
Qed.

Lemma on_vertex_kept n v : cert_state (on_vertex n v) = cert_state n.
Proof.
  unfold on_vertex. destruct (negb _); [done|]. destruct (is_expected _ _); [by rewrite core_offer_kept|].
  destruct (_ && _); [by rewrite core_hold_kept|done].
Qed.

Lemma on_fetched_batch_kept n p : cert_state (on_fetched_batch n p) = cert_state n.
Proof. unfold on_fetched_batch. destruct (negb _); [done|]. by destruct (_ && _). Qed.

Lemma on_frontier_kept n peer f : cert_state (on_frontier n peer f) = cert_state n.
Proof.
  unfold on_frontier. destruct (n_round _); [|done]. destruct (match _ !! _ with Some _ => _ | None => _ end); [done|].
  by rewrite sends_kept.
Qed.

Lemma answer_batch_fetch_kept n from ds : cert_state (answer_batch_fetch n from ds) = cert_state n.
Proof. unfold answer_batch_fetch. destruct (foldl _ _ _) as [[budget replied] found]. by destruct found. Qed.

Lemma retry_fetches_kept n now : cert_state (retry_fetches n now) = cert_state n.
Proof.
  unfold retry_fetches. destruct (_ <? _)%nat; [done|]. destruct (foldl _ _ _) as [[wv x] vs]. destruct (foldl _ _ _) as [wb bs].
  rewrite foldl_kept; [done|]. intros. apply sends_kept.
Qed.

Lemma repair_stall_kept n now : cert_state (repair_stall n now) = cert_state n.
Proof. unfold repair_stall. destruct (_ || _); [done|]. by destruct (_ || _). Qed.

Lemma try_start_kept n now : cert_state (try_start n now) = cert_state n.
Proof. unfold try_start. destruct (_ && _); [apply propose_kept|done]. Qed.
End kept.

(** ** Votes and certificates that verify *)

Section held.
Context `{Library}.

(** What a vote counted satisfies. *)
Record VoteOk (cx : CertificateContext) (v : CheckpointVote) : Prop := {
  vo_chain : cp_chain_id (vt_checkpoint v) = cx_chain_id cx;
  vo_genesis : cp_genesis_hash (vt_checkpoint v) = cx_genesis_hash cx;
  vo_epoch : cp_epoch (vt_checkpoint v) = c_epoch (cx_committee cx);
  vo_member : (vt_signer v < committee_size (cx_committee cx))%nat;
  vo_session : book_get (cx_sessions cx) (session_digest (vs_session (vt_signature v)))
                 = Some (vt_signer v, vs_session (vt_signature v));
  vo_signed : key_verify (sc_session_key (vs_session (vt_signature v))) CHECKPOINT_VOTE_DOMAIN
                (be_bytes 32 (cp_digest (vt_checkpoint v))) (vs_signature (vt_signature v)) = true;
}.

(** A certificate of the context's chain and epoch that a quorum signed. *)
Record Backed (cx : CertificateContext) (ct : Certificate) : Prop := {
  bk_chain : cp_chain_id (ct_checkpoint ct) = cx_chain_id cx;
  bk_genesis : cp_genesis_hash (ct_checkpoint ct) = cx_genesis_hash cx;
  bk_of_epoch : cp_epoch (ct_checkpoint ct) = c_epoch (cx_committee cx);
  bk_sigs : length (ct_signers ct) = length (ct_signatures ct);
  bk_sess : length (ct_signers ct) = length (ct_sessions ct);
  bk_sorted : StronglySorted lt (ct_signers ct);
  bk_members : Forall (fun s => (s < committee_size (cx_committee cx))%nat) (ct_signers ct);
  bk_quorum : quorum (cx_committee cx) <= signer_weight (cx_committee cx) (ct_signers ct);
  bk_signed : Forall (signed_by_session key_verify (cx_sessions cx) (cp_digest (ct_checkpoint ct)))
                (zip (zip (ct_signers ct) (ct_sessions ct)) (ct_signatures ct));
}.

Lemma verified_backed cx ct : CommitteeWf (cx_committee cx) ->
  is_ok (certificate_verify key_verify cp_digest ct cx) = true -> Backed cx ct.
Proof.
  intros wf Hv. destruct (certificate_verify _ _ _ _) as [[]|] eqn:E; [|done].
  apply certificate_verify_iff in E as []; [|done]. by split.
Qed.


Lemma collected_backed cx ct v votes : VoteOk cx v -> ct_checkpoint ct = vt_checkpoint v ->
  BackedBy session_digest cp_digest (cx_committee cx) (VoteOk cx) ct votes -> Backed cx ct.
Proof.
  intros [] Hcp [Hsig Hsort Hq Hv Hse Hsg]. constructor; rewrite ?Hcp; try done.
  - by rewrite Hsig, Hsg, !length_fmap.
  - by rewrite Hsig, Hse, !length_fmap.
  - rewrite Hsig. apply Forall_fmap. eapply Forall_impl; [exact Hv|]. intros u (Hu & _). apply Hu.
  - rewrite Hsig, Hse, Hsg. clear Hsort Hq Hsig Hse Hsg.
    induction votes as [|u votes IH]; [constructor|]. apply Forall_cons in Hv as [(Hu & _ & Hd) Hv].
    cbn [fmap list_fmap zip zip_with]. constructor; [|by apply IH].
    exists (vs_session (vt_signature u)). cbn [fst snd]. split; [apply Hu|].
    rewrite <-Hcp, <-Hd. apply Hu.
Qed.

(** ** The book only grows *)

Definition book_le (b b' : SessionBook) : Prop :=
  bk_chain_id b' = bk_chain_id b /\ bk_genesis_hash b' = bk_genesis_hash b /\ bk_epoch b' = bk_epoch b /\
  bk_by_digest b ⊆ bk_by_digest b'.

Lemma admit_le b c s b' d : book_admit fingerprint key_verify session_digest b c s = Ok (b', d) -> book_le b b'.
Proof.
  unfold book_admit. case_bool_decide as Hin; [by intros [= <- <-]|].
  rewrite guard_ok, rbind_ok. intros (_ & [i m] & _ & Hrest). rewrite !guard_ok in Hrest.
  destruct Hrest as (_ & _ & [= <- <-]). split_and!; try done. cbn. apply insert_subseteq.
  destruct (bk_by_digest b !! session_digest s); [|done]. destruct Hin. eauto.
Qed.

Definition with_book (cx : CertificateContext) (b : SessionBook) : CertificateContext :=
  mkContext (cx_chain_id cx) (cx_genesis_hash cx) (cx_committee cx) b.

Lemma book_le_get b b' d p : book_le b b' -> book_get b d = Some p -> book_get b' d = Some p.
Proof. intros (_ & _ & _ & Hs) Hg. by eapply lookup_weaken. Qed.

Lemma vote_ok_grows cx b' v : book_le (cx_sessions cx) b' -> VoteOk cx v -> VoteOk (with_book cx b') v.
Proof. intros Hb []. split; try done. by eapply book_le_get. Qed.

Lemma backed_grows cx b' ct : book_le (cx_sessions cx) b' -> Backed cx ct -> Backed (with_book cx b') ct.
Proof.
  intros Hb []. split; try done. eapply Forall_impl; [done|]. intros p (cert & Hg & Hk).
  exists cert. split; [by eapply book_le_get|done].
Qed.

Lemma collector_grows c (P Q : CheckpointVote -> Prop) vc : (forall v, P v -> Q v) ->
  CollectorOk cp_digest c P vc -> CollectorOk cp_digest c Q vc.
Proof. intros HPQ Hc i e He. destruct (Hc i e He) as [H1 H2]. split; [|done]. intros s v Hv. destruct (H1 s v Hv) as (? & ? & ?). auto. Qed.
End held.

(** ** The invariant *)

Section invariant.
Context `{Library}.
(** Digests of session certificates, and fingerprints of members, tell them apart. *)
Context (session_binds : forall s s', session_digest s = session_digest s' -> s = s').

Definition keys_differ (c : Committee) : Prop := forall i j m m',
  member c i = Some m -> member c j = Some m' ->
  fingerprint (m_public_key m) = fingerprint (m_public_key m') -> i = j.

Definition cx_of (cfg : CoreConfig) (c : Committee) (f : Certs) : CertificateContext :=
  mkContext (cg_chain_id cfg) (cg_genesis_hash cfg) c (f_sessions f).

Record CertsOk (cfg : CoreConfig) (c : Committee) (f : Certs) : Prop := {
  ck_wf : CommitteeWf c;
  ck_keys : keys_differ c;
  ck_book : BookOk fingerprint key_verify session_digest c (f_sessions f);
  ck_chain : bk_chain_id (f_sessions f) = cg_chain_id cfg;
  ck_genesis : bk_genesis_hash (f_sessions f) = cg_genesis_hash cfg;
  ck_epoch : bk_epoch (f_sessions f) = c_epoch c;
  ck_votes : CollectorOk cp_digest c (VoteOk (cx_of cfg c f)) (f_votes f);
  ck_certs i ct : f_certificates f !! i = Some ct -> cp_index (ct_checkpoint ct) = i /\ Backed (cx_of cfg c f) ct;
}.

Definition certs_inv (n : Node) : Prop := CertsOk (cfg_of n) (comm_of n) (nd_certs n) /\ nd_resuming n = None.

Lemma kept_inv n n' : cert_state n' = cert_state n -> certs_inv n -> certs_inv n'.
Proof. unfold cert_state, certs_inv. intros [= -> -> -> ->]. done. Qed.

Lemma certs_kept cfg c f own handover : CertsOk cfg c f ->
  CertsOk cfg c (mkCerts (f_votes f) (f_sessions f) (f_certificates f) own handover).
Proof. by intros []. Qed.

(** A session certificate admitted is the one in the book, filed under the
    member whose key it names. *)
Lemma admit_certs cfg c f s b d : CertsOk cfg c f ->
  book_admit fingerprint key_verify session_digest (f_sessions f) c s = Ok (b, d) ->
  CertsOk cfg c (set_sessions f b) /\
  exists i m, book_get b (session_digest s) = Some (i, s) /\ member c i = Some m /\
    fingerprint (m_public_key m) = sc_validator s.
Proof.
  intros [] Hb. pose proof (admit_le _ _ _ _ _ Hb) as Hle. pose proof Hle as (E1 & E2 & E3 & _).
  destruct (admit_ok _ _ _ _ _ _ _ _ ck_book0 Hb) as (Hbook & _ & _ & _ & -> & [[i s'] Hin]). split.
  - split; cbn; try done; try congruence.
    + eapply collector_grows; [|exact ck_votes0]. intros v. by apply (vote_ok_grows (cx_of cfg c f) b).
    + intros j ct Hct. destruct (ck_certs0 j ct Hct) as [? ?]. split; [done|]. by apply (backed_grows (cx_of cfg c f) b).
  - destruct (bo_entry _ _ _ _ _ Hbook _ _ _ Hin) as (Hd & m & Hm & Hcert). apply session_binds in Hd as ->.
    exists i, m. split_and!; [done|done|]. unfold certifies in Hcert. propify. intuition congruence.
Qed.

(** A vote that verifies under its signer's key is counted under its signer. *)
Lemma admit_vote cfg c f v m b d : CertsOk cfg c f -> member c (vt_signer v) = Some m ->
  cp_epoch (vt_checkpoint v) = c_epoch c -> cp_chain_id (vt_checkpoint v) = cg_chain_id cfg ->
  cp_genesis_hash (vt_checkpoint v) = cg_genesis_hash cfg ->
  vote_verify fingerprint key_verify cp_digest v (m_public_key m) = true ->
  book_admit fingerprint key_verify session_digest (f_sessions f) c (vs_session (vt_signature v)) = Ok (b, d) ->
  CertsOk cfg c (set_sessions f b) /\ VoteOk (cx_of cfg c (set_sessions f b)) v.
Proof.
  intros Hf Hm He Hc Hg Hv Hb. destruct (admit_certs _ _ _ _ _ _ Hf Hb) as (Hf' & i & m' & Hget & Hm' & Hfp). split; [done|].
  unfold vote_verify, vote_sig_verify, certifies in Hv.
  repeat setoid_rewrite andb_true_iff in Hv. rewrite !N.eqb_eq in Hv. destruct Hv as [[[_ Hval] _] Hk].
  assert (i = vt_signer v) as ->.
  { eapply (ck_keys _ _ _ Hf); [exact Hm'|exact Hm|congruence]. }
  split; try done. cbn. unfold member in Hm. by apply lookup_lt_Some in Hm.
Qed.

Lemma keep_last_lookup {A} k (m : gmap N A) i x : keep_last k m !! i = Some x -> m !! i = Some x.
Proof.
  unfold keep_last. generalize (take (length (merge_sort N.le (map_to_list m).*1) - k) (merge_sort N.le (map_to_list m).*1)) as l.
  intros l. revert m. induction l as [|j l IH]; intros m; cbn [foldl]; [done|]. intros Hl%IH.
  by apply lookup_delete_Some in Hl as [_ ?].
Qed.

Lemma complete_epoch_kept n ct : cert_state (complete_epoch n ct) = cert_state n.
Proof. done. Qed.

Lemma on_certified_inv n ct : Backed (context_of n) ct -> certs_inv n -> certs_inv (on_certified n ct).
Proof.
  intros Hb [Hf Hr]. unfold on_certified. destruct (bool_decide _); [done|]. set (n1 := certified n ct).
  assert (certs_inv n1) as H1.
  { split; [|done]. destruct Hf. split; try done; cbn.
    - by apply prune_ok.
    - intros i ct' [[<- <-]|[_ Hi]]%keep_last_lookup%lookup_insert_Some; [done|]. by apply ck_certs0. }
  clearbody n1. by destruct (_ || _).
Qed.

Lemma count_vote_inv n v m : member (comm_of n) (vt_signer v) = Some m ->
  cp_epoch (vt_checkpoint v) = c_epoch (comm_of n) -> cp_chain_id (vt_checkpoint v) = cg_chain_id (cfg_of n) ->
  cp_genesis_hash (vt_checkpoint v) = cg_genesis_hash (cfg_of n) ->
  vote_verify fingerprint key_verify cp_digest v (m_public_key m) = true ->
  certs_inv n -> certs_inv (count_vote n v).
Proof.
  intros Hm He Hc Hg Hv [Hf Hr]. unfold count_vote. destruct (book_admit _ _ _ _ _ _) as [[b d]|] eqn:Eb; [|done].
  destruct (admit_vote _ _ _ _ _ _ _ Hf Hm He Hc Hg Hv Eb) as [Hf1 Hok].
  set (n1 := upd_certs (fun f => set_sessions f b) n). change (comm_of n1) with (comm_of n).
  destruct (add _ _ _ _ _) as [vc out] eqn:Ea.
  set (cx := cx_of (cfg_of n) (comm_of n) (set_sessions (nd_certs n) b)) in *.
  destruct (add_ok _ _ _ (ck_wf _ _ _ Hf) (VoteOk cx) (vo_member cx) _ _ _ _ (ck_votes _ _ _ Hf1) Hok Ea) as (Hvc & _ & Hout).
  set (n2 := upd_certs (fun f => set_votes f vc) n1).
  assert (certs_inv n2) as H2 by (split; [|done]; destruct Hf1; by split).
  destruct out as [| |ct|a b']; try done. destruct Hout as (Hcp & votes & Hb). apply on_certified_inv; [|done].
  by eapply collected_backed.
Qed.

Lemma disagreement_inv n i : certs_inv n -> certs_inv (disagreement n i).
Proof. apply kept_inv. done. Qed.

Lemma on_vote_inv n v : certs_inv n -> certs_inv (on_vote n v).
Proof.
  intros Hn. unfold on_vote. destruct (member _ _) as [m|] eqn:Em; [|done]. destruct (_ || _) eqn:Ec; [done|].
  destruct (_ <? _); [done|]. destruct (negb (vote_agrees _ _)); [by apply disagreement_inv|].
  destruct (negb (vote_verify _ _ _ _ _)) eqn:Ev; [done|]. apply negb_false_iff in Ev.
  rewrite !orb_false_iff, !negb_false_iff, !N.eqb_eq in Ec. destruct Ec as [[? ?] ?]. by eapply count_vote_inv.
Qed.

Lemma on_certificate_inv n ct : certs_inv n -> certs_inv (on_certificate n ct).
Proof.
  intros Hn. unfold on_certificate. destruct (negb (certificate_agrees _ _)); [by apply disagreement_inv|]. destruct (negb _) eqn:Ev; [done|].
  destruct (_ !! _); [by destruct (_ =? _)|]. apply on_certified_inv; [|done]. apply verified_backed; [apply Hn|].
  by apply negb_false_iff.
Qed.

Lemma admit_sessions_inv ss i n : certs_inv n -> certs_inv (admit_sessions n i ss).1.
Proof.
  revert n. induction ss as [|s ss IH]; intros n Hn; cbn [admit_sessions]; [done|].
  destruct (negb _); [by eapply disagreement_inv|]. apply IH. destruct (book_admit _ _ _ _ _ _) as [[b d]|] eqn:E; [|done].
  destruct Hn as [Hf Hr]. split; [|done]. by apply (admit_certs _ _ _ _ _ _ Hf E).
Qed.

Lemma adopt_certificate_inv n ct ss : certs_inv n -> certs_inv (adopt_certificate n ct ss).
Proof.
  intros Hn. unfold adopt_certificate. pose proof (admit_sessions_inv ss (cp_index (ct_checkpoint ct)) n Hn) as H1.
  destruct (admit_sessions _ _ _) as [n1 []]; [by apply on_certificate_inv|done].
Qed.

Lemma adopt_handover_inv n ct ss : certs_inv n -> certs_inv (adopt_handover n ct ss).
Proof.
  intros Hn. unfold adopt_handover. pose proof (admit_sessions_inv ss (cp_index (ct_checkpoint ct)) n Hn) as H1.
  destruct (admit_sessions _ _ _) as [n1 ok]. cbn [fst] in H1. destruct (negb ok); [done|].
  destruct (negb _); [by eapply disagreement_inv|]. destruct (negb _); [done|]. destruct (_ && _); [|by apply on_certificate_inv].
  set (n2 := upd_certs _ n1). assert (certs_inv n2) as H2 by (destruct H1 as [Hf ?]; split; [by destruct Hf|done]).
  clearbody n2. destruct (_ !! _); [done|by apply on_certificate_inv].
Qed.

(** The caller hands in votes it signed with a session its hardware key
    certified. *)
Definition own_vote_ok (cfg : CoreConfig) (c : Committee) (i : Input) : Prop :=
  match i with
  | InOwnVote v => exists m, member c (vt_signer v) = Some m /\
      cp_chain_id (vt_checkpoint v) = cg_chain_id cfg /\ cp_genesis_hash (vt_checkpoint v) = cg_genesis_hash cfg /\
      vote_verify fingerprint key_verify cp_digest v (m_public_key m) = true
  | _ => True
  end.

Lemma on_own_vote_inv n v : own_vote_ok (cfg_of n) (comm_of n) (InOwnVote v) -> certs_inv n -> certs_inv (on_own_vote n v).
Proof.
  intros (m & Hm & Hc & Hg & Hv) Hn. unfold on_own_vote. destruct (negb _) eqn:Ee; [done|].
  apply negb_false_iff, N.eqb_eq in Ee. set (n1 := if bool_decide _ then n else _).
  assert (certs_inv n1 /\ cfg_of n1 = cfg_of n /\ comm_of n1 = comm_of n) as (H1 & E1 & E2).
  { unfold n1. destruct (bool_decide _); [done|]. split_and!; [|done..]. destruct Hn as [[] ?]. by split. }
  clearbody n1. set (n2 := send n1 _ _). rewrite <-E1 in Hc, Hg. rewrite <-E2 in Hm, Ee.
  by apply (count_vote_inv n2 v m).
Qed.

Lemma on_message_inv n from m : certs_inv n -> certs_inv (on_message n from m).
Proof.
  intros Hn. destruct m; cbn [on_message]; try by (eapply kept_inv; [|exact Hn]).
  - eapply kept_inv; [|exact Hn]. apply core_on_propose_kept.
  - eapply kept_inv; [|exact Hn]. apply on_signals_kept.
  - eapply kept_inv; [|exact Hn]. apply on_batch_kept.
  - destruct (_ <=? _)%nat; [done|]. by destruct (omap _ _).
  - eapply kept_inv; [|exact Hn]. apply foldl_kept. apply on_vertex_kept.
  - destruct (_ <=? _)%nat; [done|]. eapply kept_inv; [|exact Hn]. by rewrite answer_batch_fetch_kept.
  - eapply kept_inv; [|exact Hn]. apply foldl_kept. apply on_fetched_batch_kept.
  - by apply on_vote_inv.
  - by apply on_certificate_inv.
  - destruct (h_frame_answered_frontier _); [done|]. eapply kept_inv; [|exact Hn]. by rewrite on_frontier_kept.
  - destruct (h_frame_answered_ordering _); [done|]. by destruct (_ !! index).
Qed.

Lemma messages_inv ms n from : certs_inv n -> certs_inv (foldl (fun n m => on_message n from m) n ms).
Proof. revert n. induction ms as [|m ms IH]; intros n Hn; cbn [foldl]; [done|]. by apply IH, on_message_inv. Qed.

Lemma node_step_certs n i : own_vote_ok (cfg_of n) (comm_of n) i -> certs_inv n -> certs_inv (node_step n i).
Proof.
  intros Hi Hn. pose proof (proj2 Hn) as Hr. destruct i; cbn [node_step].
  - unfold on_messages. destruct (_ || _); [done|]. change (nd_resuming (set_pace n _)) with (nd_resuming n). rewrite Hr.
    eapply kept_inv; [apply progress_kept|]. eapply kept_inv; [apply echo_held_kept|]. by apply messages_inv.
  - unfold on_tick. change (nd_resuming (set_pace n _)) with (nd_resuming n). rewrite Hr.
    eapply kept_inv; [|exact Hn]. by rewrite repair_stall_kept, progress_kept, retry_fetches_kept.
  - unfold start. change (nd_resuming (connect _ _ _)) with (nd_resuming n). rewrite Hr.
    eapply kept_inv; [|exact Hn]. by rewrite try_start_kept.
  - unfold on_peer_up. destruct (_ || _); [done|]. change (nd_resuming (connect _ _ _)) with (nd_resuming n). rewrite Hr.
    eapply kept_inv; [|exact Hn]. by rewrite try_start_kept.
  - eapply kept_inv; [apply submit_part_kept|done].
  - eapply kept_inv; [apply core_kept|exact Hn]. etrans; [|apply build_checkpoints_orders]. done.
  - eapply kept_inv; [apply core_kept|exact Hn]. etrans; [|apply build_checkpoints_orders]. done.
  - by apply on_own_vote_inv.
  - by apply adopt_certificate_inv.
  - by apply adopt_handover_inv.
  - done.
  - done.
Qed.

Lemma quiet_context P n n' : quiet (fun _ => True) P n n' -> cfg_of n' = cfg_of n /\ comm_of n' = comm_of n.
Proof. intros [[] _]. destruct cm_other. done. Qed.

Lemma kept_context n n' : cert_state n' = cert_state n -> cfg_of n' = cfg_of n /\ comm_of n' = comm_of n.
Proof. by intros [= _ _ -> ->]. Qed.

Lemma node_step_context n i : nd_resuming n = None ->
  cfg_of (node_step n i) = cfg_of n /\ comm_of (node_step n i) = comm_of n.
Proof.
  intros Hr. destruct i; cbn [node_step].
  - unfold on_messages. destruct (_ || _); [done|]. change (nd_resuming (set_pace n _)) with (nd_resuming n). rewrite Hr.
    set (n1 := set_fetch _ _). change (cfg_of n) with (cfg_of n1). change (comm_of n) with (comm_of n1). clearbody n1.
    assert (Forall (good_message (fun _ => True)) ms) as Hg.
    { apply Forall_true. intros []; try done. by apply Forall_true. }
    destruct (quiet_context _ _ _ (messages_quiet (fun _ => True) n1 from ms Hg)) as [<- <-].
    apply kept_context. by rewrite progress_kept, echo_held_kept.
  - unfold on_tick. change (nd_resuming (set_pace n _)) with (nd_resuming n). rewrite Hr.
    apply kept_context. by rewrite repair_stall_kept, progress_kept, retry_fetches_kept.
  - unfold start. change (nd_resuming (connect _ _ _)) with (nd_resuming n). rewrite Hr.
    apply kept_context. by rewrite try_start_kept.
  - unfold on_peer_up. destruct (_ || _); [done|]. change (nd_resuming (connect _ _ _)) with (nd_resuming n). rewrite Hr.
    apply kept_context. by rewrite try_start_kept.
  - apply kept_context, submit_part_kept.
  - apply kept_context, core_kept. etrans; [|apply build_checkpoints_orders]. done.
  - apply kept_context, core_kept. etrans; [|apply build_checkpoints_orders]. done.
  - eapply (quiet_context (fun _ _ _ => True)), on_own_vote_quiet.
  - eapply (quiet_context (fun _ _ _ => True)), adopt_certificate_quiet.
  - eapply (quiet_context (fun _ _ _ => True)), adopt_handover_quiet.
  - done.
  - done.
Qed.

Lemma certs_new cfg c me st seed : CommitteeWf c -> keys_differ c -> certs_inv (node_new cfg c me st seed).
Proof. intros wf Hk. split; [|done]. by split. Qed.

Lemma node_run_certs cfg c me st seed ins : CommitteeWf c -> keys_differ c -> Forall (own_vote_ok cfg c) ins ->
  let n := foldl node_step (node_new cfg c me st seed) ins in
  certs_inv n /\ cfg_of n = cfg /\ comm_of n = c.
Proof.
  intros wf Hk Hi. cbn zeta. induction ins as [|i ins IH] using rev_ind; [split; [by apply certs_new|done]|].
  rewrite foldl_app. cbn [foldl]. apply Forall_app in Hi as [Hi [Hx _]%Forall_cons]. destruct (IH Hi) as (Hn & E1 & E2).
  set (n := foldl _ _ ins) in *. split; [apply node_step_certs; [by rewrite E1, E2|done]|].
  destruct (node_step_context n i (proj2 Hn)) as [-> ->]. done.
Qed.
End invariant.

(** ** Certificates of one index are of one checkpoint *)

Section agreement.
Context `{Library}.
Context (result_at : N -> Digest * Digest * list Digest) (next_root : Digest).
Context (c : Committee) (faulty : ValidatorIndex -> bool).
Context (U : Round -> ValidatorIndex -> option (Digest * Vertex)).
Context (cfg : CoreConfig) (start : EpochStart) (seed : Digest).
Context (net : NetworkOk result_at c faulty U start).
(** The checkpoints honest validators voted for. *)
Context (casts : ValidatorIndex -> Checkpoint -> Prop).

Definition vote_bytes (cp : Checkpoint) : list N := be_bytes 32 (cp_digest cp).

(** A state of validator [i] in the network. *)
Definition reaches (i : ValidatorIndex) (n : Node) : Prop :=
  exists ins, Forall (input_ok result_at next_root faulty U) ins /\
    n = foldl node_step (node_new cfg c i start seed) ins /\ own_ok U n /\ sound U start n.

Record VotesOk : Prop := {
  (** An honest validator votes for what its core signs. *)
  vt_cast i cp : casts i cp -> exists n, reaches i n /\ cp ∈ signed (nd_core n) /\
    N.of_nat (length (signed (nd_core n))) < 2 ^ 64;
  (** Its sessions sign nothing else. *)
  vt_unforged i m s sig cp : faulty i = false -> member c i = Some m ->
    certifies fingerprint key_verify s (m_public_key m) (cg_chain_id cfg) (cg_genesis_hash cfg) (c_epoch c) = true ->
    key_verify (sc_session_key s) CHECKPOINT_VOTE_DOMAIN (vote_bytes cp) sig = true ->
    exists cp', casts i cp' /\ vote_bytes cp' = vote_bytes cp;
  (** No other checkpoint has the bytes of one voted for. *)
  vt_binds i cp cp' : casts i cp -> vote_bytes cp = vote_bytes cp' -> cp = cp';
  vt_sessions s s' : session_digest s = session_digest s' -> s = s';
  vt_keys : keys_differ c;
}.

Context (votes : VotesOk).

Lemma zip_signer (ct : Certificate) i : length (ct_signers ct) = length (ct_signatures ct) ->
  length (ct_signers ct) = length (ct_sessions ct) -> i ∈ ct_signers ct ->
  exists d sig, (i, d, sig) ∈ zip (zip (ct_signers ct) (ct_sessions ct)) (ct_signatures ct).
Proof.
  intros H1 H2 [p Hp]%list_elem_of_lookup. pose proof (lookup_lt_Some _ _ _ Hp) as Hlt.
  destruct (lookup_lt_is_Some_2 (ct_sessions ct) p) as [d Hd]; [lia|].
  destruct (lookup_lt_is_Some_2 (ct_signatures ct) p) as [sig Hs]; [lia|].
  exists d, sig. apply list_elem_of_lookup. exists p. rewrite !lookup_zip_with, Hp, Hd, Hs. done.
Qed.

(** A certificate a node holds is of a checkpoint some honest node signed. *)
Lemma held_cast me ins i ct : Forall (own_vote_ok cfg c) ins ->
  f_certificates (nd_certs (foldl node_step (node_new cfg c me start seed) ins)) !! i = Some ct ->
  cp_index (ct_checkpoint ct) = i /\ exists s, faulty s = false /\ casts s (ct_checkpoint ct).
Proof.
  intros Hi Hct. destruct (node_run_certs (vt_sessions votes) cfg c me start seed ins (nw_committee _ _ _ _ _ net)
    (vt_keys votes) Hi) as ([Hf _] & E1 & E2). set (n := foldl _ _ ins) in *. rewrite E1, E2 in Hf.
  destruct (ck_certs _ _ _ Hf i ct Hct) as [Hidx []]. split; [done|]. cbn [cx_of cx_committee cx_sessions] in *.
  destruct (quorums_honest c faulty _ _ (nw_committee _ _ _ _ _ net) (nw_faulty _ _ _ _ _ net) bk_quorum0 bk_quorum0)
    as (s & _ & Hs & _ & Hh). apply bool_decide_eq_true in Hs. exists s. split; [done|].
  destruct (zip_signer ct s bk_sigs0 bk_sess0 Hs) as (d & sig & Hin). rewrite Forall_forall in bk_signed0.
  destruct (bk_signed0 _ Hin) as (cert & Hg & Hk). cbn [fst snd] in *.
  destruct (bo_entry _ _ _ _ _ (ck_book _ _ _ Hf) _ _ _ Hg) as (_ & m & Hm & Hc).
  rewrite (ck_chain _ _ _ Hf), (ck_genesis _ _ _ Hf), (ck_epoch _ _ _ Hf) in Hc.
  destruct (vt_unforged votes s m cert sig (ct_checkpoint ct) Hh Hm Hc Hk) as (cp & Hcast & Hb).
  by rewrite <-(vt_binds votes s cp _ Hcast Hb).
Qed.

Lemma reaches_run i n : reaches i n ->
  replica_run draw_hash seed_hash order_hash ordering_digest cp_digest root_of result_at next_root c faulty vertex_digest
    U cfg start seed i (nd_core n).
Proof. intros (ins & Hi & -> & Ho & Hs). by apply node_refines_replica. Qed.

Lemma wadd64_inj a i j : i < 2 ^ 64 -> j < 2 ^ 64 -> wadd64 a i = wadd64 a j -> i = j.
Proof.
  clear. unfold wadd64. intros Hi Hj He. pose proof (N.Div0.div_mod (a + i) (2 ^ 64)) as H1.
  pose proof (N.Div0.div_mod (a + j) (2 ^ 64)) as H2. rewrite He in H1. lia.
Qed.

(** A core signs one checkpoint of an index. *)
Lemma signed_unique i n cp cp' : reaches i n -> N.of_nat (length (signed (nd_core n))) < 2 ^ 64 ->
  cp ∈ signed (nd_core n) -> cp' ∈ signed (nd_core n) -> cp_index cp = cp_index cp' -> cp = cp'.
Proof.
  intros Hr Hlen [p Hp]%list_elem_of_lookup [q Hq]%list_elem_of_lookup He. apply reaches_run in Hr.
  destruct (replica_order _ _ _ _ _ _ _ _ _ _ _ _ _ _ _ (nw_faulty _ _ _ _ _ net) (nw_binds _ _ _ _ _ net)
    (nw_start _ _ _ _ _ net) i _ Hr) as (_ & [([_ [Hl _ _ _ _ _ _] _] & _) _ _ _ _ _ _] & _). apply line_signed in Hl.
  assert (forall p cp, signed (nd_core n) !! p = Some cp ->
    cp_index cp = wadd64 (es_first_checkpoint start) (N.of_nat p) /\ N.of_nat p < 2 ^ 64) as Hat.
  { intros k x Hx. pose proof (lookup_lt_Some _ _ _ Hx) as Hlt. split; [|lia].
    apply (f_equal (.!! k)) in Hl. rewrite !list_lookup_fmap, Hx, lookup_seq_lt in Hl by done. by injection Hl. }
  destruct (Hat _ _ Hp) as [I1 ?], (Hat _ _ Hq) as [I2 ?]. rewrite He, I2 in I1. apply wadd64_inj in I1; [|done..].
  assert (p = q) as -> by lia. congruence.
Qed.


(** C3: no two checkpoints of an index are certified. Whatever votes and
    certificates reach two validators that run an epoch from its start, in
    whatever order, the certificates they hold for one index are of one
    checkpoint, field by field: each has an honest validator among its signers,
    whose core signed the checkpoint, and honest cores sign one sequence. The
    conditions are those of the agreement of nodes, [NetworkOk]: at most [f] of
    the weight is faulty, one vertex is delivered for a round and author, every
    reference delivered, a faulty author's too, is labelled with the round and
    author of the vertex it names, and the honest signers did not resume in the
    epoch; and [VotesOk]: honest validators vote only for what their cores sign,
    session signatures are not forged, and the digests voted on do not
    collide. *)
Theorem certified_agree me1 ins1 me2 ins2 i ct1 ct2 :
  Forall (own_vote_ok cfg c) ins1 -> Forall (own_vote_ok cfg c) ins2 ->
  f_certificates (nd_certs (foldl node_step (node_new cfg c me1 start seed) ins1)) !! i = Some ct1 ->
  f_certificates (nd_certs (foldl node_step (node_new cfg c me2 start seed) ins2)) !! i = Some ct2 ->
  ct_checkpoint ct1 = ct_checkpoint ct2.
Proof.
  intros Hi1 Hi2 H1 H2. destruct (held_cast _ _ _ _ Hi1 H1) as (I1 & s1 & _ & C1), (held_cast _ _ _ _ Hi2 H2) as (I2 & s2 & _ & C2).
  destruct (vt_cast votes _ _ C1) as (n1 & R1 & S1 & L1), (vt_cast votes _ _ C2) as (n2 & R2 & S2 & L2).
  edestruct (replicas_signed_compare draw_hash) as [Hp|Hp];
    [apply net..|exact (reaches_run _ _ R1)|exact (reaches_run _ _ R2)| |]; destruct Hp as [l Hl].
  - apply (signed_unique s2 n2); [done|done|rewrite Hl; apply elem_of_app; by left|done|congruence].
  - apply (signed_unique s1 n1); [done|done|done|rewrite Hl; apply elem_of_app; by left|congruence].
Qed.

End agreement.
