(* ===== verification/Cluster.v ===== *)
(** Three validators that run an epoch.

    Nodes 0, 1 and 2 of a committee of four exchange what their outboxes hold,
    propose batches and execute blocks; validator 3 is silent. The vertices they
    propose are the network's, on which the theorems of [Refine] are applied. *)

From stdpp Require Import prelude gmap list sorting.
From Stdlib Require Import NArith ZArith Lia.
From S2P Require Import Prelude Committee Checkpoint Merkle Rbc Vertex Dag DagWalk Schedule Commit Batch Order OrderLog Lockstep Replicas Node NodeFrame Propose Refine Certify.

(** ** Exchanging messages *)

(** [f] applied [k] times, 300 milliseconds apart. *)
Fixpoint every_300 {A} (f : nat -> N -> A -> A) (k : nat) (now : N) (x : A) : A :=
  match k with
  | O => x
  | S k => every_300 f k (now + 300) (f k now x)
  end.

Lemma every_300_keeps {A} (P : A -> Prop) f k now x :
  (forall k now x, P x -> P (f k now x)) -> P x -> P (every_300 f k now x).
Proof. intros Hf. revert now x. induction k as [|k IH]; intros now x Hx; cbn [every_300]; auto. Qed.

Section cluster.
Context `{Library}.

(** The nodes, each with what it was handed. *)
Abbreviation Cluster := (list (Node * list Input)).

Definition cluster_config : CoreConfig := mkConfig 1 9 1000 50 1 90 3 8 10 50 1 100 100.
Definition members : list ValidatorIndex := [0; 1; 2]%nat.

Definition feed (i : ValidatorIndex) (x : Input) (l : Cluster) : Cluster :=
  alter (fun p => (node_step p.1 x, p.2 ++ [x])) i l.

Definition mail (j : ValidatorIndex) (o : list (Target * Message)) : list Message :=
  omap (fun tm => match tm.1 with All => Some tm.2 | One k => if (k =? j)%nat then Some tm.2 else None end) o.

(** Each node's outbox is taken and handed to the others. *)
Definition exchange (now : N) (l : Cluster) : Cluster :=
  foldl (fun l i =>
    let o := default [] ((fun p => nd_outbox p.1) <$> l !! i) in
    foldl (fun l j =>
      if (i =? j)%nat then l
      else match mail j o with [] => l | ms => feed j (InMessages i ms now) l end) (feed i InTake l) members)
    l members.

Definition on_all (f : ValidatorIndex -> Input) (l : Cluster) : Cluster := foldl (fun l i => feed i (f i) l) l members.

Definition launch : Cluster :=
  let l := (fun me => (node_new cluster_config four_seats me demo_start 5, [])) <$> members in
  let l := on_all (fun _ => InNextCommittee 888) (on_all (fun _ => InStart 0) l) in
  foldl (fun l j => on_all (fun _ => InPeerUp j 0) l) l members.

Definition turn (k : nat) (now : N) (l : Cluster) : Cluster :=
  let l := on_all (fun i => InPart (mkPart 3 [N.of_nat k; N.of_nat i])) l in
  on_all (fun _ => InTick (now + 300)) (exchange now (exchange now (exchange now (exchange now l)))).

Definition turns (k : nat) (now : N) (l : Cluster) : Cluster := every_300 turn k now l.

Definition executes (l : Cluster) : Cluster :=
  foldl (fun l h => let x := demo_result h in on_all (fun _ => InExecuted h x.1.1 x.1.2 x.2) l) l (heights 1 6).

(** Each votes for what its core signed, with a session of its own. *)
Definition own_session (i : ValidatorIndex) : SessionCertificate :=
  mkSession 1 9 0 (N.of_nat i) {| ml_dsa := [100 + N.of_nat i]; p256 := [] |} (mkSig [N.of_nat i] []).
Definition own_vote (i : ValidatorIndex) (cp : Checkpoint) : CheckpointVote :=
  mkVote cp i (mkVoteSig (own_session i) (mkSig [cp_index cp] [])).

Definition polls (l : Cluster) : Cluster :=
  foldl (fun l i => foldl (fun l cp => feed i (InOwnVote (own_vote i cp)) l) l
    (default [] ((fun p => signed (nd_core p.1)) <$> l !! i))) l members.

Definition epoch_run : Cluster := exchange 5100 (exchange 5000 (polls (executes (turns 9 0 launch)))).

(** *** Every node is what its inputs make of it *)

Definition fresh_node (i : ValidatorIndex) : Node := node_new cluster_config four_seats i demo_start 5.
Definition replays (l : Cluster) : Prop :=
  forall i p, l !! i = Some p -> p.1 = foldl node_step (fresh_node i) p.2.

Lemma feed_replays i x l : replays l -> replays (feed i x l).
Proof.
  intros Hl j p. unfold feed. destruct (decide (i = j)) as [->|Hne].
  - rewrite list_lookup_alter_eq. destruct (l !! j) as [q|] eqn:E; [|done]. cbn. intros [= <-]. cbn [fst snd].
    by rewrite foldl_app, <-(Hl j q E).
  - rewrite list_lookup_alter_ne by done. apply Hl.
Qed.

Lemma foldl_replays {A} (f : Cluster -> A -> Cluster) xs l :
  (forall l x, replays l -> replays (f l x)) -> replays l -> replays (foldl f l xs).
Proof. intros Hf. revert l. induction xs as [|x xs IH]; intros l Hl; cbn [foldl]; [done|]. by apply IH, Hf. Qed.

Lemma on_all_replays f l : replays l -> replays (on_all f l).
Proof. apply foldl_replays. intros. by apply feed_replays. Qed.

Lemma exchange_replays now l : replays l -> replays (exchange now l).
Proof.
  apply foldl_replays. intros l1 i Hl. apply foldl_replays; [|by apply feed_replays]. intros l2 j Hl2.
  destruct (_ =? _)%nat; [done|]. destruct (mail _ _); [done|]. by apply feed_replays.
Qed.

Lemma turn_replays k now l : replays l -> replays (turn k now l).
Proof. intros Hl. apply on_all_replays. do 4 apply exchange_replays. by apply on_all_replays. Qed.

Lemma turns_replays k now l : replays l -> replays (turns k now l).
Proof. apply (every_300_keeps replays). apply turn_replays. Qed.

Lemma launch_replays : replays launch.
Proof.
  unfold launch. apply foldl_replays; [intros; by apply on_all_replays|]. do 2 apply on_all_replays.
  intros i p. rewrite list_lookup_fmap. destruct i as [|[|[|i]]]; cbn; by intros [= <-].
Qed.

Lemma epoch_run_replays : replays epoch_run.
Proof.
  unfold epoch_run. do 2 apply exchange_replays. unfold polls. apply foldl_replays.
  { intros l i Hl. apply foldl_replays; [|done]. intros. by apply feed_replays. }
  unfold executes. apply foldl_replays; [intros; by apply on_all_replays|]. apply turns_replays, launch_replays.
Qed.
End cluster.

(** A digest of session certificates that tells them apart. *)
Definition session_code (s : SessionCertificate) : Digest :=
  Npos (encode (sc_chain_id s, sc_genesis_hash s, sc_epoch s, sc_validator s,
    (ml_dsa (sc_session_key s), p256 (sc_session_key s)), (sig_ml_dsa (sc_signature s), sig_p256 (sc_signature s)))).

Lemma session_code_inj s s' : session_code s = session_code s' -> s = s'.
Proof.
  unfold session_code. intros [= He]. apply (inj encode) in He.
  destruct s as [? ? ? ? [] []], s' as [? ? ? ? [] []]. cbn in He. by injection He as -> -> -> -> -> -> -> ->.
Qed.

(** Hardware keys sign sessions with their own number; session keys sign what
    they are given in [signs]. *)
Definition cluster_verify (signs : list (list N)) (k : ValidatorPublicKey) (dm : Domain) (m : list N)
    (s : CompositeSignature) : bool :=
  match dm with
  | SESSION_CERTIFICATE_DOMAIN => bool_decide (sig_ml_dsa s = ml_dsa k)
  | CHECKPOINT_VOTE_DOMAIN => bool_decide (m ∈ signs)
  end.

Definition label_library (digest : Vertex -> Digest) (cps : Checkpoint -> Digest) (signs : list (list N)) : Library := {|
  draw_hash := sample_hash;
  seed_hash := fun d => d + 1;
  order_hash := demo_order;
  ordering_digest := demo_state;
  cp_digest := cps;
  root_of := demo_root;
  vertex_digest := digest;
  batch_digest := fun p => 1000 + 10 * bp_sequence p + N.of_nat (bp_author p);
  fingerprint := key_fp;
  session_digest := session_code;
  key_verify := cluster_verify signs;
  message_representative := fun _ m => Some m;
  primary := fun _ _ _ => true;
  second := fun _ _ _ => true;
  hash_order := fun _ l => l;
|}.

(** ** The network of the run *)

(** The run with labels for digests, from which the vertices and checkpoints of
    the network are read. *)
Definition cluster_vertices : list Vertex :=
  Eval vm_compute in concat ((fun p => own_vertices p.1) <$> @epoch_run (label_library demo_digest demo_cp_digest [])).
Definition signed_at (i : ValidatorIndex) (l : list (Node * list Input)) : list Checkpoint :=
  default [] ((fun p => signed (nd_core p.1)) <$> l !! i).
Definition cluster_checkpoints : list Checkpoint :=
  Eval vm_compute in signed_at 0 (@epoch_run (label_library demo_digest demo_cp_digest [])).
(** Those every validator voted for. *)
Definition cluster_voted : list Checkpoint :=
  Eval vm_compute in signed_at 1 (@epoch_run (label_library demo_digest demo_cp_digest [])).

Definition cluster_cp_digest (cp : Checkpoint) : Digest :=
  if bool_decide (cp ∈ cluster_checkpoints) then demo_cp_digest cp else 0.

Abbreviation cluster_net f := (f cluster_vertices demo_digest) (only parsing).
Definition cluster_library : Library :=
  label_library (cluster_net net_digest) cluster_cp_digest
    ((fun cp => be_bytes 32 (cluster_cp_digest cp)) <$> cluster_voted).
#[local] Existing Instance cluster_library.

Lemma cluster_injective v w : w ∈ cluster_vertices -> cluster_net net_digest v = cluster_net net_digest w -> v = w.
Proof.
  intros Hw He. assert (forallb (fun w => negb (cluster_net net_digest w =? 0) &&
    forallb (fun v => negb (cluster_net net_digest v =? cluster_net net_digest w) || bool_decide (v = w)) cluster_vertices)
    cluster_vertices = true) as Hc by (vm_compute; reflexivity).
  rewrite forallb_forall in Hc. setoid_rewrite <-list_elem_of_In in Hc. specialize (Hc w Hw).
  apply andb_true_iff in Hc as [Hnz Hc]. rewrite forallb_forall in Hc. setoid_rewrite <-list_elem_of_In in Hc.
  assert (v ∈ cluster_vertices) as Hv.
  { unfold net_digest in He at 1. case_bool_decide; [done|]. by rewrite <-He in Hnz. }
  specialize (Hc v Hv). rewrite He, N.eqb_refl in Hc. by apply bool_decide_eq_true in Hc.
Qed.

Lemma cluster_refs v ref : v ∈ cluster_vertices -> ref ∈ refs_of v ->
  net_names cluster_vertices demo_digest ref = true /\
  exists w, cluster_net net_U (r_round ref) (r_source ref) = Some (r_digest ref, w).
Proof.
  intros Hv Hr. assert (forallb (fun v => forallb (fun ref => net_names cluster_vertices demo_digest ref &&
    match cluster_net net_U (r_round ref) (r_source ref) with Some (d, _) => d =? r_digest ref | None => false end)
    (refs_of v)) cluster_vertices = true) as Hc by (vm_compute; reflexivity).
  rewrite forallb_forall in Hc. setoid_rewrite <-list_elem_of_In in Hc. specialize (Hc v Hv).
  rewrite forallb_forall in Hc. setoid_rewrite <-list_elem_of_In in Hc. specialize (Hc ref Hr).
  apply andb_true_iff in Hc as [Hn Hc]. split; [done|]. destruct (net_U _ _ _ _) as [[d w]|]; [|done].
  apply N.eqb_eq in Hc as ->. by exists w.
Qed.

Lemma cluster_network : NetworkOk demo_result four_seats demo_faulty (cluster_net net_U) demo_start.
Proof.
  split.
  - apply four_seats_wf.
  - vm_compute. discriminate.
  - split.
    + apply net_universe. vm_compute. reflexivity.
    + intros r s r' s' d v v' (H1 & _ & _ & E1)%net_U_spec (H2 & _ & _ & E2)%net_U_spec.
      apply cluster_injective; [done|congruence].
    + intros r s d v ref (H1 & _)%net_U_spec Hr. eapply net_labelled, cluster_refs; [exact H1|].
      apply elem_of_app. by right.
  - intros r s v w (H1 & _ & _ & E1)%net_U_spec. by apply cluster_injective.
  - intros d Hd. induction Hd as [r s d v Hu _|r s d v ref _ _ Hu Hr]; [by exists r, s, v|].
    apply net_U_spec in Hu as (Hv & _). destruct (cluster_refs v ref Hv Hr) as (_ & w & Hw). eauto.
  - apply demo_start_ok.
Qed.

(** *** What the nodes were handed *)

Definition typedb (v : Vertex) : bool := v_round v <? 2 ^ 64.

Definition input_okb (i : Input) : bool :=
  match i with
  | InMessages from ms _ => forallb (fun m => match m with
      | MPropose v => typedb v && bool_decide (cluster_net net_U (v_round v) from = Some (vertex_digest v, v))
      | MVertices vs => forallb typedb vs
      | _ => true
      end) ms
  | InExecuted h b s sts => bool_decide (demo_result h = (b, s, sts))
  | InNextCommittee r => r =? 888
  | _ => true
  end.

Abbreviation cluster_input_ok := (input_ok demo_result 888 demo_faulty (cluster_net net_U)) (only parsing).

Lemma input_okb_sound i : input_okb i = true -> cluster_input_ok i.
Proof.
  destruct i; cbn; try by split.
  - rewrite forallb_forall. setoid_rewrite <-list_elem_of_In. intros Hm. split.
    + cbn. apply Forall_forall. intros m Hin. specialize (Hm m Hin). destruct m; try done; cbn.
      * apply andb_true_iff in Hm as [Hm _]. by apply N.ltb_lt.
      * apply Forall_forall. intros v Hv. rewrite forallb_forall in Hm. by apply N.ltb_lt, Hm, list_elem_of_In.
    + intros _ v Hv. specialize (Hm _ Hv). cbn in Hm. apply andb_true_iff in Hm as [_ Hm]. by apply bool_decide_eq_true in Hm.
  - intros Hd. split; [done|]. by apply bool_decide_eq_true in Hd.
  - intros Hd. split; [done|]. by apply N.eqb_eq.
Qed.

Lemma inputs_okb_sound ins : forallb input_okb ins = true -> Forall cluster_input_ok ins.
Proof.
  rewrite forallb_forall. setoid_rewrite <-list_elem_of_In. intros Hi. apply Forall_forall.
  intros i Hin. by apply input_okb_sound, Hi.
Qed.

Definition own_okb (n : Node) : bool :=
  forallb (fun v => bool_decide (cluster_net net_U (v_round v) (me_of n) = Some (vertex_digest v, v))) (own_vertices n).

Lemma own_okb_sound n : own_okb n = true -> own_ok (cluster_net net_U) n.
Proof.
  unfold own_okb. rewrite forallb_forall. setoid_rewrite <-list_elem_of_In. intros Ho v Hv.
  by eapply bool_decide_eq_true, Ho.
Qed.

Definition soundb (n : Node) : bool :=
  forallb (fun x => match cluster_net net_U x.1.1 x.1.2 with Some (d, _) => d =? x.2 | None => false end) (nd_delivered n) &&
  (es_first_height demo_start + N.of_nat (length (blocks (log_of (nd_core n)))) <? 2 ^ 64).

Lemma soundb_sound n : soundb n = true -> sound (cluster_net net_U) demo_start n.
Proof.
  unfold soundb. rewrite andb_true_iff, forallb_forall, N.ltb_lt. setoid_rewrite <-list_elem_of_In. intros [Hd Hf].
  split; [|done]. intros r s d Hin. specialize (Hd _ Hin). cbn in Hd. destruct (net_U _ _ r s) as [[d' v]|]; [|done].
  apply N.eqb_eq in Hd as ->. by exists v.
Qed.

(** *** The run, evaluated *)

Definition own_voteb (i : Input) : bool :=
  match i with
  | InOwnVote v => match member four_seats (vt_signer v) with
                   | Some m => (cp_chain_id (vt_checkpoint v) =? 1) && (cp_genesis_hash (vt_checkpoint v) =? 9) &&
                       vote_verify fingerprint key_verify cp_digest v (m_public_key m)
                   | None => false
                   end
  | _ => true
  end.

Lemma own_voteb_sound ins : forallb own_voteb ins = true -> Forall (own_vote_ok cluster_config four_seats) ins.
Proof.
  rewrite forallb_forall. setoid_rewrite <-list_elem_of_In. intros Hi. apply Forall_forall. intros [] Hin; try done.
  specialize (Hi _ Hin). cbn [own_voteb] in Hi. cbn [own_vote_ok]. destruct (member four_seats _) as [m|]; [|done].
  rewrite !andb_true_iff, !N.eqb_eq in Hi. destruct Hi as [[? ?] ?]. by exists m.
Qed.

(** What is read of a validator at the end: its log's length, what it signed,
    and the signers of the certificate it holds for index 1. *)
Definition summary (n : Node) : nat * list Checkpoint * option (list ValidatorIndex) :=
  (length (full_log (nd_core n)), signed (nd_core n), ct_signers <$> f_certificates (nd_certs n) !! 1).

Definition run_checkb (l : list (Node * list Input)) : bool :=
  forallb (fun p => forallb input_okb p.2 && forallb own_voteb p.2 && own_okb p.1 && soundb p.1) l &&
  bool_decide ((fun p => summary p.1) <$> l =
    [(5%nat, cluster_checkpoints, Some [0; 1; 2]%nat); (4%nat, cluster_voted, Some [0; 1; 2]%nat);
     (4%nat, cluster_voted, Some [0; 1; 2]%nat)]).

Lemma run_checked : run_checkb epoch_run = true.
Proof. vm_compute. reflexivity. Qed.

(** What is claimed of a validator at the end of a run. *)
Record PlayedOk (n : Node) (ins : list Input) (sum : nat * list Checkpoint * option (list ValidatorIndex)) : Prop := {
  pl_inputs : Forall cluster_input_ok ins;
  pl_votes : Forall (own_vote_ok cluster_config four_seats) ins;
  pl_own : own_ok (cluster_net net_U) n;
  pl_sound : sound (cluster_net net_U) demo_start n;
  pl_log : length (full_log (nd_core n)) = sum.1.1;
  pl_signed : signed (nd_core n) = sum.1.2;
  pl_certificate : ct_signers <$> f_certificates (nd_certs n) !! 1 = sum.2;
}.

Lemma run_checkb_sound l i p : run_checkb l = true -> l !! i = Some p ->
  exists sum, PlayedOk p.1 p.2 sum /\
    [(5%nat, cluster_checkpoints, Some [0; 1; 2]%nat); (4%nat, cluster_voted, Some [0; 1; 2]%nat);
     (4%nat, cluster_voted, Some [0; 1; 2]%nat)] !! i = Some sum.
Proof.
  unfold run_checkb. intros [Hc Hs]%andb_true_iff Hp. apply bool_decide_eq_true in Hs.
  rewrite forallb_forall in Hc. setoid_rewrite <-list_elem_of_In in Hc. specialize (Hc p (list_elem_of_lookup_2 _ _ _ Hp)).
  rewrite !andb_true_iff in Hc. destruct Hc as [[[H1 H2] H3] H4]. exists (summary p.1). split.
  - split; [by apply inputs_okb_sound|by apply own_voteb_sound|by apply own_okb_sound|by apply soundb_sound|done..].
  - by rewrite <-Hs, list_lookup_fmap, Hp.
Qed.

Lemma run_size l : run_checkb l = true -> length l = 3%nat.
Proof. unfold run_checkb. intros [_ Hs]%andb_true_iff. apply bool_decide_eq_true, (f_equal length) in Hs. by rewrite length_fmap in Hs. Qed.

Definition cluster_state (i : ValidatorIndex) : Node * list Input := default (fresh_node i, []) (epoch_run !! i).
#[local] Opaque epoch_run.

(** Validator [i] handed the inputs of the run. *)
Definition cluster_node (i : ValidatorIndex) : Node := foldl node_step (fresh_node i) (cluster_state i).2.

Lemma cluster_played i : (i < 3)%nat -> exists sum, PlayedOk (cluster_node i) (cluster_state i).2 sum /\
    [(5%nat, cluster_checkpoints, Some [0; 1; 2]%nat); (4%nat, cluster_voted, Some [0; 1; 2]%nat);
     (4%nat, cluster_voted, Some [0; 1; 2]%nat)] !! i = Some sum.
Proof.
  intros Hi. pose proof run_checked as Hc. pose proof epoch_run_replays as Hr. unfold cluster_node, cluster_state.
  revert Hc Hr. generalize epoch_run as l. intros l Hc Hr. pose proof (run_size l Hc) as Hl.
  destruct (lookup_lt_is_Some_2 l i) as [p Hp]; [lia|]. rewrite Hp. cbn [from_option id].
  rewrite <-(Hr i p Hp). by apply (run_checkb_sound l).
Qed.

Lemma played_ahead : PlayedOk (cluster_node 0) (cluster_state 0).2 (5%nat, cluster_checkpoints, Some [0; 1; 2]%nat).
Proof. destruct (cluster_played 0) as (sum & Hp & [= <-]); [lia|exact Hp]. Qed.

Lemma played_behind : PlayedOk (cluster_node 1) (cluster_state 1).2 (4%nat, cluster_voted, Some [0; 1; 2]%nat).
Proof. destruct (cluster_played 1) as (sum & Hp & [= <-]); [lia|exact Hp]. Qed.

Lemma node_refines_witness :
  length (full_log (nd_core (cluster_node 0))) = 5%nat /\ signed (nd_core (cluster_node 0)) = cluster_checkpoints /\
  forall r s d v, dag_at (dag_of (cluster_node 0)) r s = Some (d, v) -> cluster_net net_U r s = Some (d, v).
Proof.
  destruct played_ahead as [H1 _ H3 H4 H5 H6 _]. split; [exact H5|]. split; [exact H6|].
  apply (node_refines demo_result 888 four_seats demo_faulty (cluster_net net_U) cluster_config demo_start 5
    cluster_network 0 (cluster_state 0).2); [exact H1|exact H3|exact H4].
Defined.

Lemma nodes_agree_witness :
  length (full_log (nd_core (cluster_node 1))) = 4%nat /\ length (full_log (nd_core (cluster_node 0))) = 5%nat /\
  full_log (nd_core (cluster_node 1)) `prefix_of` full_log (nd_core (cluster_node 0)).
Proof.
  destruct played_ahead as [H1 _ H3 H4 H5 _ _], played_behind as [I1 _ I3 I4 I5 _ _]. cbn [fst snd] in H5, I5.
  split; [exact I5|]. split; [exact H5|].
  destruct (nodes_agree demo_result 888 four_seats demo_faulty (cluster_net net_U) cluster_config demo_start 5
    cluster_network 1 (cluster_state 1).2 0 (cluster_state 0).2 I1 H1 I3 I4 H3 H4) as [[H|H] _]; [exact H|].
  apply prefix_length in H. change (length (full_log (nd_core (cluster_node 0))) <= length (full_log (nd_core (cluster_node 1))))%nat in H.
  rewrite H5, I5 in H. lia.
Defined.

(** ** Votes of the run *)

Definition cluster_casts (i : ValidatorIndex) (cp : Checkpoint) : Prop := (i < 3)%nat /\ cp ∈ cluster_voted.

Lemma voted_checkpoint cp : cp ∈ cluster_voted -> cp ∈ cluster_checkpoints.
Proof.
  assert (forallb (fun cp => bool_decide (cp ∈ cluster_checkpoints)) cluster_voted = true) as Hb by (vm_compute; reflexivity).
  rewrite forallb_forall in Hb. setoid_rewrite <-list_elem_of_In in Hb. intros Hcp. by eapply bool_decide_eq_true, Hb.
Qed.

Lemma cluster_signed i cp : cluster_casts i cp -> cp ∈ signed (nd_core (cluster_node i)) /\
  (length (signed (nd_core (cluster_node i))) <= 4)%nat.
Proof.
  intros [Hi Hcp]. destruct (cluster_played i Hi) as (sum & [_ _ _ _ _ Hsig _] & Hs). rewrite Hsig. clear Hsig.
  destruct i as [|[|[|i]]]; [| | |lia]; injection Hs as <-; cbn [fst snd];
    (split; [|by apply Nat.leb_le; vm_compute]); [by apply voted_checkpoint|exact Hcp..].
Qed.

Lemma cluster_binds cp cp' : cp ∈ cluster_checkpoints ->
  be_bytes 32 (cluster_cp_digest cp) = be_bytes 32 (cluster_cp_digest cp') -> cp = cp'.
Proof.
  intros Hcp Hb. assert (forallb (fun x => bool_decide (be_bytes 32 (cluster_cp_digest x) <> be_bytes 32 0) &&
    forallb (fun y => bool_decide (be_bytes 32 (cluster_cp_digest x) <> be_bytes 32 (cluster_cp_digest y)) ||
      bool_decide (x = y)) cluster_checkpoints) cluster_checkpoints = true) as Hc by (vm_compute; reflexivity).
  rewrite forallb_forall in Hc. setoid_rewrite <-list_elem_of_In in Hc. specialize (Hc cp Hcp).
  apply andb_true_iff in Hc as [Hz Hc]. apply bool_decide_eq_true in Hz. rewrite forallb_forall in Hc.
  setoid_rewrite <-list_elem_of_In in Hc. assert (cp' ∈ cluster_checkpoints) as Hcp'.
  { unfold cluster_cp_digest in Hb at 2. case_bool_decide; [done|]. by destruct Hz. }
  specialize (Hc cp' Hcp'). rewrite bool_decide_false in Hc by tauto. by apply bool_decide_eq_true in Hc.
Qed.

Lemma cluster_cast i cp : cluster_casts i cp ->
  exists n, reaches demo_result 888 four_seats demo_faulty (cluster_net net_U) cluster_config demo_start 5 i n /\
    cp ∈ signed (nd_core n) /\ N.of_nat (length (signed (nd_core n))) < 2 ^ 64.
Proof.
  intros Hc. destruct (cluster_signed i cp Hc) as [Hs Hl]. destruct Hc as [Hi _].
  destruct (cluster_played i Hi) as (sum & [H1 _ H3 H4 _ _ _] & _). exists (cluster_node i). split; [|split; [exact Hs|]].
  - exists (cluster_state i).2. split; [exact H1|]. split; [|split; [exact H3|exact H4]]. unfold cluster_node, fresh_node. reflexivity.
  - revert Hl. generalize (length (signed (nd_core (cluster_node i)))). intros. lia.
Qed.

Lemma cluster_verify_vote signs k m s : cluster_verify signs k CHECKPOINT_VOTE_DOMAIN m s = true -> m ∈ signs.
Proof. apply bool_decide_eq_true. Qed.

Lemma honest_small i m : demo_faulty i = false -> member four_seats i = Some m -> (i < 3)%nat.
Proof. unfold member, demo_faulty. intros Hh%Nat.eqb_neq Hm%lookup_lt_Some. cbn in Hm. lia. Qed.

Lemma cluster_key_verify k m s : key_verify k CHECKPOINT_VOTE_DOMAIN m s = true ->
  m ∈ (fun cp => be_bytes 32 (cluster_cp_digest cp)) <$> cluster_voted.
Proof. exact (cluster_verify_vote _ k m s). Qed.

Lemma vote_bytes_eq cp : vote_bytes cp = be_bytes 32 (cluster_cp_digest cp).
Proof. unfold vote_bytes. f_equal. Qed.

Lemma cluster_unforged i m s sig cp : demo_faulty i = false -> member four_seats i = Some m ->
  key_verify (sc_session_key s) CHECKPOINT_VOTE_DOMAIN (vote_bytes cp) sig = true ->
  exists cp', cluster_casts i cp' /\ vote_bytes cp' = vote_bytes cp.
Proof.
  intros Hh Hm Hk. apply cluster_key_verify in Hk. apply list_elem_of_fmap in Hk as (cp' & Hb & Hcp).
  exists cp'. cbn beta in Hb. split; [|rewrite vote_bytes_eq; symmetry; exact Hb]. split; [|exact Hcp]. by apply (honest_small i m).
Qed.

Lemma four_keys_differ : keys_differ four_seats.
Proof.
  intros i j m m' Hi Hj. unfold member in *. cbn in *.
  destruct i as [|[|[|[|i]]]], j as [|[|[|[|j]]]]; cbn in *; simplify_eq; done.
Qed.

Lemma cluster_votes :
  VotesOk demo_result 888 four_seats demo_faulty (cluster_net net_U) cluster_config demo_start 5 cluster_casts.
Proof.
  split.
  - apply cluster_cast.
  - intros i m s sig cp Hh Hm _. by apply (cluster_unforged i m).
  - intros i cp cp' [_ Hcp%voted_checkpoint]. by apply cluster_binds.
  - apply session_code_inj.
  - apply four_keys_differ.
Qed.

(** The certificate a node holds for index 1. *)
Definition certificate_at (i : ValidatorIndex) : Certificate :=
  default (mkCertificate (sample_checkpoint 0) [] [] []) (f_certificates (nd_certs (cluster_node i)) !! 1).

Lemma certificate_held n signers : ct_signers <$> f_certificates (nd_certs n) !! 1 = Some signers ->
  f_certificates (nd_certs n) !! 1 =
  Some (default (mkCertificate (sample_checkpoint 0) [] [] []) (f_certificates (nd_certs n) !! 1)).
Proof. by destruct (f_certificates (nd_certs n) !! 1). Qed.

Lemma certified_agree_witness : ct_checkpoint (certificate_at 0) = ct_checkpoint (certificate_at 1).
Proof.
  destruct played_ahead as [_ H2 _ _ _ _ H3], played_behind as [_ I2 _ _ _ _ I3].
  exact (certified_agree demo_result 888 four_seats demo_faulty (cluster_net net_U) cluster_config demo_start 5
    cluster_network cluster_casts cluster_votes 0 (cluster_state 0).2 1 (cluster_state 1).2 1 _ _ H2 I2
    (certificate_held _ _ H3) (certificate_held _ _ I3)).
Defined.

