(* ===== verification/Split.v ===== *)
(** How a settlement's value is divided ([tenzro-types/src/split.rs]).

    The protocol fee comes off the gross first, then the network fees, then the
    lines of a split rule share what is left: fixed amounts in order, basis
    points by largest remainder, one line the remainder. [pro_rata] shares a
    shortfall the same way, over a full 256-bit product. All of it is u128
    arithmetic of the release build: what the source adds, subtracts or
    multiplies unchecked wraps, and the theorems show that on a rule that
    validates nothing does. *)

From stdpp Require Import prelude list sorting.
From Stdlib Require Import NArith ZArith Lia.
From S2P Require Import Prelude Committee Validator Checkpoint Chain.

(** ** 128-bit arithmetic that wraps *)

Definition wadd128 (a b : N) : N := (a + b) mod 2 ^ 128.
Definition wsub128 (a b : N) : N := (a + 2 ^ 128 - b) mod 2 ^ 128.
Definition wmul128 (a b : N) : N := (a * b) mod 2 ^ 128.
Definition sat_add128 (a b : N) : N := N.min (a + b) U128_MAX.

(** ** Rules *)

Definition SPLIT_RULE_VERSION : N := 1.
Definition MAX_SPLIT_LINES : nat := 16.
Definition MAX_SPLIT_DID_LEN : nat := N.to_nat 256.
Definition BPS : N := 10000.

(** [b"tenzro/split-rule/v1"]. *)
Definition RULE_DOMAIN : list N :=
  [116; 101; 110; 122; 114; 111; 47; 115; 112; 108; 105; 116; 45; 114; 117; 108; 101; 47; 118; 49].

Inductive SplitRole :=
| Payee | Publisher | Licensor | Referrer | Facilitator | Relayer | Solver | Prover | Refund.

Definition is_intermediary (r : SplitRole) : bool :=
  match r with Facilitator | Relayer => true | _ => false end.

Definition role_tag (r : SplitRole) : N :=
  match r with
  | Payee => 0 | Publisher => 1 | Licensor => 2 | Referrer => 3 | Facilitator => 4
  | Relayer => 5 | Solver => 6 | Prover => 7 | Refund => 8
  end.

Inductive SplitRecipient :=
| ToAddress (a : Address)
| DidDerived (did : list N)
| LegSubmitter.

Inductive SplitBasis :=
| Bps (b : N)
| Fixed (v : N)
| Remainder.

Record SplitLine := mkLine {
  sl_role : SplitRole;
  sl_recipient : SplitRecipient;
  sl_basis : SplitBasis;
  sl_cap : option N;
}.

Record SplitRule := mkRule {
  sr_version : N;
  sr_lines : list SplitLine;
}.

(** [Rule] with its message, a constructor each, and the other two. *)
Inductive SplitError :=
| UnknownVersion
| LineCount
| RemainderCapped
| BpsZero
| FixedZero
| DidLength
| RemainderCount
| BpsAboveWhole
| FeesExceedGross (fees gross : N)
| IntermediaryShare (max_bps : N).

Definition sole (role : SplitRole) (recipient : Address) : SplitRule :=
  mkRule SPLIT_RULE_VERSION [mkLine role (ToAddress recipient) Remainder None].

Definition did_fits (r : SplitRecipient) : bool :=
  match r with
  | DidDerived did => negb ((length did =? 0)%nat || (MAX_SPLIT_DID_LEN <? length did)%nat)
  | _ => true
  end.

(** The loop of [validate]: the remainder lines and the basis points so far. *)
Fixpoint validate_lines (lines : list SplitLine) (remainders : nat) (bps_sum : N)
  : result SplitError (nat * N) :=
  match lines with
  | [] => Ok (remainders, bps_sum)
  | l :: lines =>
      let? st :=
        match sl_basis l with
        | Remainder =>
            check? negb (bool_decide (is_Some (sl_cap l))) else RemainderCapped in
            Ok (S remainders, bps_sum)
        | Bps b => check? negb (b =? 0) else BpsZero in Ok (remainders, bps_sum + b)
        | Fixed v => check? negb (v =? 0) else FixedZero in Ok (remainders, bps_sum)
        end in
      check? did_fits (sl_recipient l) else DidLength in
      validate_lines lines st.1 st.2
  end.

Definition validate (r : SplitRule) : result SplitError unit :=
  check? sr_version r =? SPLIT_RULE_VERSION else UnknownVersion in
  check? negb ((length (sr_lines r) =? 0)%nat || (MAX_SPLIT_LINES <? length (sr_lines r))%nat) else LineCount in
  let? st := validate_lines (sr_lines r) 0 0 in
  check? (st.1 =? 1)%nat else RemainderCount in
  check? st.2 <=? BPS else BpsAboveWhole in
  Ok tt.

Definition recipient_bytes (r : SplitRecipient) : list N :=
  match r with
  | ToAddress a => 0 :: be_bytes 32 a
  | DidDerived did => 1 :: be_bytes 2 (N.min (N.of_nat (length did)) U16_MAX) ++ did
  | LegSubmitter => [2]
  end.

Definition basis_bytes (b : SplitBasis) : list N :=
  match b with
  | Bps b => 0 :: be_bytes 2 b
  | Fixed v => 1 :: be_bytes 16 v
  | Remainder => [2]
  end.

Definition cap_bytes (c : option N) : list N :=
  match c with
  | Some c => 1 :: be_bytes 16 c
  | None => [0]
  end.

Definition line_bytes (l : SplitLine) : list N :=
  role_tag (sl_role l) :: recipient_bytes (sl_recipient l) ++ basis_bytes (sl_basis l) ++ cap_bytes (sl_cap l).

Definition canonical_bytes (r : SplitRule) : list N :=
  RULE_DOMAIN ++ be_bytes 2 (sr_version r) ++ [N.of_nat (length (sr_lines r) `min` 255)]
    ++ concat (line_bytes <$> sr_lines r).

Definition rule_hash (sha256 : list N -> Digest) (r : SplitRule) : Digest := sha256 (canonical_bytes r).

(** The most a line can take, in units of one basis point of a base unit. *)
Definition line_share (gross : N) (l : SplitLine) : N :=
  let share := match sl_basis l with
               | Bps b => sat_mul128 gross b
               | Fixed a => sat_mul128 (N.min a gross) BPS
               | Remainder => sat_mul128 gross BPS
               end in
  match sl_cap l with
  | None => share
  | Some c => N.min share (sat_mul128 (N.min c gross) BPS)
  end.

Definition check_intermediary_share (r : SplitRule) (gross max_bps : N) : result SplitError unit :=
  let most := foldl (fun most l => if is_intermediary (sl_role l) then sat_add128 most (line_share gross l) else most)
                0 (sr_lines r) in
  if sat_mul128 gross max_bps <? most then Err (IntermediaryShare max_bps) else Ok tt.

(** ** Fees *)

Record FeeParams := mkFeeParams {
  fp_fee_bps : N;
  fp_min_fee : N;
  fp_burn_bps : N;
  fp_insurance_bps : N;
}.

Record FeeAllocation := mkFee {
  fa_fee : N;
  fa_burn : N;
  fa_treasury : N;
  fa_insurance : N;
}.

Record Allocation := mkAllocation {
  al_gross : N;
  al_fee : FeeAllocation;
  al_network_fees : N;
  al_net : N;
  al_credits : list N;
}.

Definition checked_sum128 (l : list N) : option N :=
  foldl (fun a x => a ≫= fun a => checked_add128 a x) (Some 0) l.

Definition conserves (a : Allocation) : bool :=
  let f := al_fee a in
  let fee_parts := checked_add128 (fa_burn f) (fa_treasury f) ≫= fun v => checked_add128 v (fa_insurance f) in
  match fee_parts, checked_sum128 (al_credits a) with
  | Some parts, Some credits =>
      (parts =? fa_fee f) && (credits =? al_net a)
      && bool_decide ((checked_add128 (fa_fee f) (al_network_fees a) ≫= fun v => checked_add128 v (al_net a))
                      = Some (al_gross a))
  | _, _ => false
  end.

Definition bps_of (value bps : N) : N :=
  wadd128 (wmul128 (value / BPS) bps) (wmul128 (value mod BPS) bps / BPS).

Definition fee_allocation (gross : N) (p : FeeParams) : FeeAllocation :=
  let fee := N.min (N.max (bps_of gross (N.min (fp_fee_bps p) 10000)) (fp_min_fee p)) gross in
  let burn := bps_of fee (N.min (fp_burn_bps p) 10000) in
  let unburned := wsub128 fee burn in
  let insurance := bps_of unburned (N.min (fp_insurance_bps p) 10000) in
  mkFee fee burn (wsub128 unburned insurance) insurance.

(** ** Largest remainders *)

(** [for &(_, i) in sorted.take(n) { v[i] += 1 }]. *)
Definition add_units (sorted : list (N * nat)) (v : list N) : list N :=
  foldl (fun v x => alter (fun c => wadd128 c 1) x.2 v) v sorted.

(** The same loop with a counter and a break. *)
Fixpoint add_extra (sorted : list (N * nat)) (extra : N) (v : list N) : list N :=
  match sorted with
  | [] => v
  | x :: sorted =>
      if extra =? 0 then v
      else add_extra sorted (extra - 1) (alter (fun c => wadd128 c 1) x.2 v)
  end.

(** ** Dividing over the lines *)

(** Fixed lines in index order, each capped by what remains. *)
Fixpoint pay_fixed (lines : list SplitLine) (rest : N) : list N * N :=
  match lines with
  | [] => ([], rest)
  | l :: lines =>
      let paid := match sl_basis l with
                  | Fixed v => N.min (N.min v (default U128_MAX (sl_cap l))) rest
                  | _ => 0
                  end in
      let '(credits, rest) := pay_fixed lines (rest - paid) in
      (paid :: credits, rest)
  end.

Definition line_bps (l : SplitLine) : option N :=
  match sl_basis l with Bps b => Some b | _ => None end.

(** The basis-point lines, each with its index. *)
Definition bps_lines (lines : list SplitLine) : list (nat * N) :=
  omap (fun p => pair p.1 <$> line_bps p.2) (imap pair lines).

(** [credits[i] = bps_of(pool, b)] for every basis-point line. *)
Definition assign_bps (pool : N) (lines : list SplitLine) (credits : list N) : list N :=
  zip_with (fun l c => match line_bps l with Some b => bps_of pool b | None => c end) lines credits.

Definition cap_bps (lines : list SplitLine) (credits : list N) : list N :=
  zip_with (fun l c => match sl_basis l, sl_cap l with
                       | Bps _, Some cap => if cap <? c then cap else c
                       | _, _ => c
                       end) lines credits.

Definition is_remainder (l : SplitLine) : bool :=
  match sl_basis l with Remainder => true | _ => false end.

Definition remainder_at (lines : list SplitLine) : option nat :=
  fst <$> list_find (fun l => is_remainder l = true) lines.

Definition wsum128 (l : list N) : N := foldl wadd128 0 l.

Definition divide (net : N) (lines : list SplitLine) : list N :=
  let '(credits, pool) := pay_fixed lines net in
  let bl := bps_lines lines in
  let target := bps_of pool (wsum128 bl.*2) in
  let credits := assign_bps pool lines credits in
  let floors_sum := wsum128 ((fun x => bps_of pool x.2) <$> bl) in
  let fractions := (fun x => (wmul128 (pool mod BPS) x.2 mod BPS, x.1)) <$> bl in
  let credits := add_extra (merge_sort remainder_le fractions) (wsub128 target floors_sum) credits in
  let credits := cap_bps lines credits in
  let paid := wsum128 credits in
  match remainder_at lines with
  | Some r => <[r := wsub128 net paid]> credits
  | None => credits
  end.

Definition apply (gross : N) (rule : SplitRule) (params : FeeParams) (network_fees : N)
  : result SplitError Allocation :=
  let? _ := validate rule in
  let fee := fee_allocation gross params in
  let? fees := ok_or (checked_add128 (fa_fee fee) network_fees) (FeesExceedGross U128_MAX gross) in
  check? negb (gross <? fees) else FeesExceedGross fees gross in
  let net := gross - fees in
  Ok (mkAllocation gross fee network_fees net (divide net (sr_lines rule))).

(** ** Pro rata *)

(** The 256-bit product of [mul_div_rem], as [(high, low)]. *)
Definition full_mul (a b : N) : N * N :=
  let a1 := N.shiftr a 64 in let a0 := N.land a U64_MAX in
  let b1 := N.shiftr b 64 in let b0 := N.land b U64_MAX in
  let lo := wmul128 a0 b0 in
  let mid1 := wmul128 a1 b0 in
  let mid2 := wmul128 a0 b1 in
  let mid := wadd128 mid1 mid2 in
  let carry := U128_MAX <? mid1 + mid2 in
  let shifted := N.shiftl mid 64 mod 2 ^ 128 in
  let low := wadd128 lo shifted in
  let c2 := U128_MAX <? lo + shifted in
  (wadd128 (wadd128 (wadd128 (wmul128 a1 b1) (N.shiftr mid 64))
      (if carry then N.shiftl 1 64 else 0)) (N.b2n c2), low).

(** One bit of the long division: [st] is [(q, r)]. *)
Definition rem_step (p : N * N) (d bit : N) (st : N * N) : N * N :=
  let next := product_bit p bit in
  let over := N.shiftr st.2 127 =? 1 in
  let r := N.lor (N.shiftl st.2 1 mod 2 ^ 128) next in
  if over || (d <=? r)
  then (if bit <? 128 then N.lor st.1 (N.shiftl 1 bit) else st.1, wsub128 r d)
  else (st.1, r).

Fixpoint rem_loop (p : N * N) (d : N) (k : nat) (st : N * N) : N * N :=
  match k with
  | O => st
  | S k => rem_loop p d k (rem_step p d (N.of_nat k) st)
  end.

Definition mul_div_rem (a b d : N) : N * N := rem_loop (full_mul a b) d 256 (0, 0).

Definition pro_rata (value : N) (claims : list N) : list N :=
  let total := foldl sat_add128 0 claims in
  if total =? 0 then replicate (length claims) 0
  else
    let value := N.min value total in
    let parts := (fun c => mul_div_rem value c total) <$> claims in
    let shares := parts.*1 in
    let fractions := imap (fun i p => (p.2, i)) parts in
    let given := wsum128 shares in
    let units := wsub128 value given mod 2 ^ 64 in
    add_units (take (N.to_nat units) (merge_sort remainder_le fractions)) shares.

Example divide_tie :
  let line b := mkLine Payee LegSubmitter (Bps b) None in
  divide 10 [line 3334; line 3333; line 3333; mkLine Refund LegSubmitter Remainder None] = [4; 3; 3; 0].
Proof. vm_compute. reflexivity. Qed.

Example pro_rata_thirds : pro_rata 10 [5; 5; 5] = [4; 3; 3].
Proof. vm_compute. reflexivity. Qed.

(** ** What the wrapping operations compute in range *)

Lemma wadd128_small a b : a + b <= U128_MAX -> wadd128 a b = a + b.
Proof. intros. apply N.mod_small. unfold U128_MAX in *. lia. Qed.

Lemma wsub128_small a b : b <= a -> a <= U128_MAX -> wsub128 a b = a - b.
Proof.
  intros. unfold wsub128. replace (a + 2 ^ 128 - b) with (a - b + 1 * 2 ^ 128) by lia.
  rewrite N.Div0.mod_add. apply N.mod_small. unfold U128_MAX in *. lia.
Qed.

Lemma wmul128_small a b : a * b <= U128_MAX -> wmul128 a b = a * b.
Proof. intros. apply N.mod_small. unfold U128_MAX in *. lia. Qed.

Lemma wsum128_from l a : nsum l + a <= U128_MAX -> foldl wadd128 a l = a + nsum l.
Proof.
  revert a. induction l as [|x l IH]; intros a H; cbn [foldl]; autorewrite with tenzro in *; [lia|].
  rewrite wadd128_small by lia. rewrite IH by lia. lia.
Qed.

Lemma wsum128_small l : nsum l <= U128_MAX -> wsum128 l = nsum l.
Proof. intros. unfold wsum128. rewrite wsum128_from; lia. Qed.

Lemma sat_sum_from l a : a <= U128_MAX -> foldl sat_add128 a l = N.min (a + nsum l) U128_MAX.
Proof.
  revert a. induction l as [|x l IH]; intros a H; cbn [foldl]; autorewrite with tenzro; [lia|].
  change (sat_add128 a x) with (N.min (a + x) U128_MAX). rewrite IH; lia.
Qed.

Lemma checked_sum128_from l a :
  a + nsum l <= U128_MAX -> foldl (fun a x => a ≫= fun a => checked_add128 a x) (Some a) l = Some (a + nsum l).
Proof.
  revert a. induction l as [|x l IH]; intros a H; cbn [foldl]; autorewrite with tenzro in *; [f_equal; lia|].
  assert (checked_add128 a x = Some (a + x)) as E.
  { unfold checked_add128. by destruct (N.leb_spec (a + x) U128_MAX); [|lia]. }
  change (Some a ≫= fun a => checked_add128 a x) with (checked_add128 a x). rewrite E, IH by lia. f_equal. lia.
Qed.

Lemma bps_of_exact value bps : value <= U128_MAX -> bps <= BPS -> bps_of value bps = value * bps / BPS.
Proof.
  intros Hv Hb. unfold bps_of. pose proof (N.div_mod value BPS ltac:(done)) as E.
  pose proof (N.mod_lt value BPS ltac:(done)) as L.
  assert (value * bps / BPS = value / BPS * bps + value mod BPS * bps / BPS) as X.
  { rewrite E at 1. rewrite N.mul_add_distr_r, <-N.mul_assoc, (N.mul_comm BPS), N.div_add_l by done. done. }
  assert (value mod BPS * bps / BPS <= value mod BPS) as Y.
  { apply N.Div0.div_le_upper_bound. rewrite N.mul_comm. by apply N.mul_le_mono_r. }
  assert (value / BPS * bps <= value / BPS * BPS) as Z by (by apply N.mul_le_mono_l).
  assert (value mod BPS * bps <= BPS * BPS) as W by (apply N.mul_le_mono; lia). clear Hb.
  assert (value mod BPS * bps <= U128_MAX) by (etrans; [exact W|done]).
  rewrite !wmul128_small by lia. rewrite wadd128_small by lia. by rewrite X.
Qed.

Lemma bps_of_le value bps : value <= U128_MAX -> bps <= BPS -> bps_of value bps <= value.
Proof. intros. rewrite bps_of_exact by done. apply N.Div0.div_le_upper_bound. rewrite N.mul_comm. by apply N.mul_le_mono_r. Qed.

(** ** The full product and its division *)

Lemma mod_sum4 a b c d m : ((((a + b) mod m + c) mod m) + d) mod m = (a + b + c + d) mod m.
Proof. by rewrite N.Div0.add_mod_idemp_l, <-N.add_assoc, N.Div0.add_mod_idemp_l, N.add_assoc. Qed.

Lemma full_mul_wide a b : full_mul a b = wide_mul a b.
Proof.
  unfold full_mul, wide_mul, wmul128, wadd128. cbv zeta.
  rewrite (N.add_comm ((N.shiftr a 64 * N.land b U64_MAX) mod 2 ^ 128)).
  f_equal. rewrite mod_sum4. do 2 f_equal. by case_match.
Qed.

Lemma lor_bit x k : N.lor (x * 2 ^ (k + 1)) (2 ^ k) = x * 2 ^ (k + 1) + 2 ^ k.
Proof.
  assert (N.land (x * 2 ^ (k + 1)) (2 ^ k) = 0) as H.
  { apply N.bits_inj_0. intros j. rewrite N.land_spec, N.pow2_bits_eqb.
    destruct (N.eqb_spec k j) as [->|]; [|apply andb_false_r].
    rewrite N.mul_pow2_bits_low by lia. done. }
  rewrite <-N.lxor_lor by done. symmetry. by apply N.add_nocarry_lxor.
Qed.

Lemma mod_pow_mod2 x : (x mod 2 ^ 128) mod 2 = x mod 2.
Proof. change (2 ^ 128) with (2 * 2 ^ 127). rewrite N.Div0.mod_mul_r. by rewrite N.mul_comm, N.Div0.mod_add, N.Div0.mod_mod. Qed.

(** The quotient bits so far, at their place. *)
Lemma quotient_bit q b k :
  b <= 1 -> k < 256 ->
  (if (b =? 1) && (k <? 128) then N.lor ((q * 2 ^ (k + 1)) mod 2 ^ 128) (N.shiftl 1 k)
   else (q * 2 ^ (k + 1)) mod 2 ^ 128) = ((2 * q + b) * 2 ^ k) mod 2 ^ 128.
Proof.
  intros Hb Hk. replace ((2 * q + b) * 2 ^ k) with (q * 2 ^ (k + 1) + b * 2 ^ k)
    by (rewrite N.pow_add_r; lia).
  destruct (N.eqb_spec b 1) as [->|]; cbn [andb]; [|by replace b with 0 by lia; rewrite N.mul_0_l, N.add_0_r].
  rewrite N.mul_1_l. destruct (N.ltb_spec k 128) as [Hl|Hl].
  - rewrite N.shiftl_1_l. assert (2 ^ 128 = 2 ^ (127 - k) * 2 ^ (k + 1)) as E.
    { rewrite <-N.pow_add_r. f_equal. lia. }
    rewrite E, N.Div0.mul_mod_distr_r, lor_bit.
    apply (N.mod_unique _ _ (q / 2 ^ (127 - k))).
    + pose proof (N.mod_lt q (2 ^ (127 - k)) ltac:(apply N.pow_nonzero; done)).
      rewrite N.pow_add_r, N.pow_1_r. pose proof (N.pow_nonzero 2 k ltac:(done)). nia.
    + pose proof (N.div_mod q (2 ^ (127 - k)) ltac:(apply N.pow_nonzero; done)). nia.
  - replace (2 ^ k) with (2 ^ (k - 128) * 2 ^ 128) by (rewrite <-N.pow_add_r; f_equal; lia).
    by rewrite N.Div0.mod_add.
Qed.

Lemma rem_step_exact p d k x :
  0 < d < 2 ^ 128 -> k < 256 -> p.2 < 2 ^ 128 ->
  let bit := product_bit p k in
  rem_step p d k (((x / d) * 2 ^ (k + 1)) mod 2 ^ 128, x mod d) =
  (((2 * x + bit) / d * 2 ^ k) mod 2 ^ 128, (2 * x + bit) mod d).
Proof.
  intros Hd Hk Hp bit.
  assert (bit <= 1) as Hb.
  { unfold bit. rewrite product_bit_value by done. pose proof (N.mod_lt ((p.1 * 2 ^ 128 + p.2) / 2 ^ k) 2 ltac:(done)). lia. }
  pose proof (div_step_exact d bit x Hd Hb) as Hs.
  pose proof (N.mod_lt x d ltac:(lia)) as Hr. pose proof (N.div_mod x d ltac:(lia)) as Ex.
  destruct (double_div_mod d (x / d) (x mod d) bit Hr Hb) as [Hge Hlt]. rewrite <-Ex in Hge, Hlt.
  unfold rem_step. cbn [fst snd]. fold bit. unfold div_step in Hs. cbn [fst snd] in Hs. unfold wsub128.
  set (c := _ || _) in Hs |- *. pose proof (quotient_bit (x / d) (N.b2n c) k ltac:(destruct c; cbn; lia) Hk) as Hq.
  assert ((2 * x + bit) / d = 2 * (x / d) + N.b2n c) as Hc.
  { assert (((2 * x + bit) / d) mod 2 = N.b2n c) as Hp2.
    { rewrite <-mod_pow_mod2. destruct c; injection Hs as _ <-; rewrite shl1_mod.
      - rewrite lor_even by (try done; apply even_mod). by rewrite N.Div0.add_mod, even_mod.
      - apply even_mod. }
    destruct (decide (d <= 2 * (x mod d) + bit)) as [H|H];
      [destruct (Hge H) as [E _]|apply N.nle_gt in H; destruct (Hlt H) as [E _]]; rewrite E in Hp2 |- *;
      rewrite <-Hp2; clear; generalize (x / d); intros q; lia. }
  rewrite Hc. destruct c; cbn [N.b2n N.eqb Pos.eqb andb] in Hq |- *; injection Hs as -> _; by rewrite <-Hq.
Qed.

Lemma rem_loop_exact p d k :
  0 < d < 2 ^ 128 -> (k <= 256)%nat -> p.2 < 2 ^ 128 ->
  let X := p.1 * 2 ^ 128 + p.2 in
  let Y := X / 2 ^ N.of_nat k in
  rem_loop p d k ((Y / d * 2 ^ N.of_nat k) mod 2 ^ 128, Y mod d) = ((X / d) mod 2 ^ 128, X mod d).
Proof.
  intros Hd Hk Hl X. induction k as [|k IH]; cbn zeta; cbn [rem_loop].
  { change (2 ^ N.of_nat 0) with 1. by rewrite N.div_1_r, N.mul_1_r. }
  replace (2 ^ N.of_nat (S k)) with (2 ^ (N.of_nat k + 1)) by (f_equal; lia).
  rewrite rem_step_exact by (try done; lia). rewrite product_bit_value by done. fold X.
  replace (X / 2 ^ (N.of_nat k + 1)) with (X / 2 ^ N.of_nat k / 2)
    by (rewrite N.pow_add_r, <-N.Div0.div_div; done).
  rewrite <-N.div_mod by done. apply IH. lia.
Qed.

Lemma mul_div_rem_exact a b d :
  a < 2 ^ 128 -> b < 2 ^ 128 -> 0 < d < 2 ^ 128 -> a <= d ->
  mul_div_rem a b d = (a * b / d, (a * b) mod d).
Proof.
  intros Ha Hb Hd Had. unfold mul_div_rem. rewrite full_mul_wide.
  destruct (wide_mul_value a b Ha Hb) as (E & Lh & Ll).
  pose proof (rem_loop_exact (wide_mul a b) d 256 Hd (le_n _) Ll) as Hx. cbv zeta in Hx. rewrite E in Hx.
  change (N.of_nat 256) with 256 in Hx.
  assert (a * b / 2 ^ 256 = 0) as Hz.
  { apply N.div_small. change (2 ^ 256) with (2 ^ 128 * 2 ^ 128). nia. }
  rewrite Hz, N.Div0.div_0_l, N.mod_small, N.Div0.mod_0_l in Hx by lia. rewrite N.mul_0_l in Hx. rewrite Hx.
  f_equal. apply N.mod_small. apply N.Div0.div_lt_upper_bound. nia.
Qed.

(** ** Handing out the units left *)

Lemma add_extra_take sorted extra v : add_extra sorted extra v = add_units (take (N.to_nat extra) sorted) v.
Proof.
  revert extra v. induction sorted as [|x sorted IH]; intros extra v; cbn [add_extra]; [by rewrite take_nil|].
  destruct (N.eqb_spec extra 0) as [->|H]; [done|]. rewrite IH.
  by replace (N.to_nat extra) with (S (N.to_nat (extra - 1))) by lia.
Qed.

Lemma add_units_cons x xs v : add_units (x :: xs) v = add_units xs (alter (fun c => wadd128 c 1) x.2 v).
Proof. done. Qed.

Lemma add_units_length xs v : length (add_units xs v) = length v.
Proof. revert v. induction xs as [|x xs IH]; intros v; [done|]. by rewrite add_units_cons, IH, length_alter. Qed.

Lemma add_units_lookup xs v i :
  NoDup (xs.*2) ->
  add_units xs v !! i = (if decide (i ∈ xs.*2) then fun c => wadd128 c 1 else id) <$> v !! i.
Proof.
  revert v. induction xs as [|x xs IH]; intros v Hnd.
  { rewrite decide_False by (apply not_elem_of_nil). by rewrite option_fmap_id. }
  apply NoDup_cons in Hnd as [Hx Hnd]. rewrite add_units_cons.
  rewrite IH by done. rewrite fmap_cons. destruct (decide (i = x.2)) as [->|Hi].
  - rewrite list_lookup_alter_eq, decide_False, decide_True by (done || left). by destruct (v !! x.2).
  - rewrite list_lookup_alter_ne by done. destruct (decide (i ∈ xs.*2)).
    + by rewrite decide_True by (by right).
    + rewrite decide_False; [done|]. by intros [?|?]%elem_of_cons.
Qed.

Lemma add_units_sum xs v :
  NoDup (xs.*2) -> (forall i, i ∈ xs.*2 -> exists c, v !! i = Some c /\ c + 1 <= U128_MAX) ->
  nsum (add_units xs v) = nsum v + N.of_nat (length xs).
Proof.
  revert v. induction xs as [|x xs IH]; intros v Hnd Hb; [by rewrite N.add_0_r|].
  apply NoDup_cons in Hnd as [Hx Hnd]. rewrite add_units_cons.
  destruct (Hb x.2) as (c & Hc & Hc1); [left|]. rewrite IH; [|done|].
  - pose proof (nsum_alter (fun c => wadd128 c 1) x.2 v c Hc) as Ha. cbn beta in Ha.
    rewrite wadd128_small in Ha by done. cbn [length]. lia.
  - intros i Hi. destruct (Hb i) as (c' & ? & ?); [by right|]. exists c'. split; [|done].
    rewrite list_lookup_alter_ne; [done|]. by intros <-.
Qed.

Lemma nsum_fst_bound {A} (l : list (N * A)) t :
  Forall (fun p => p.1 < t) l -> nsum l.*1 <= N.of_nat (length l) * t.
Proof.
  induction 1; cbn [fmap list_fmap length]; autorewrite with tenzro; [lia|].
  fold (fmap (M := list) fst l). nia.
Qed.

(** When the remainders add up to [k] wholes or more, the [k] largest are positive: no
    unit goes to an exact share. *)
Lemma largest_positive t (l : list (N * nat)) k j x :
  StronglySorted remainder_le l -> Forall (fun p => p.1 < t) l ->
  N.of_nat k * t <= nsum l.*1 -> (j < k)%nat -> l !! j = Some x -> 0 < x.1.
Proof.
  intros Hs Hf Hn Hj Hx. destruct (decide (x.1 = 0)) as [E|]; [|lia]. exfalso.
  rewrite <-(take_drop_middle l j x Hx) in Hs, Hn.
  apply StronglySorted_app_1_r, StronglySorted_cons in Hs as [Hs _].
  assert (nsum (drop (S j) l).*1 = 0) as Hz.
  { revert Hs. generalize (drop (S j) l). clear -E. intros l.
    induction 1 as [|y l Hy]; [done|]. rewrite fmap_cons, nsum_cons. unfold remainder_le in Hy. lia. }
  rewrite fmap_app, fmap_cons, nsum_app, nsum_cons, Hz, E in Hn.
  pose proof (nsum_fst_bound (take j l) t ltac:(by apply Forall_take)) as Hb.
  rewrite length_take_le in Hb by (apply lookup_lt_Some in Hx; lia).
  assert (0 < t) by (eapply Forall_lookup_1 in Hf; [|exact Hx]; cbn in Hf; lia). nia.
Qed.

Lemma imap_snd_seq {A} (f : A -> N) (l : list A) : (imap (fun i p => (f p, i)) l).*2 = seq 0 (length l).
Proof.
  apply list_eq. intros i. rewrite list_lookup_fmap, list_lookup_imap.
  destruct (decide (i < length l)%nat).
  - rewrite lookup_seq_lt by done. by destruct (lookup_lt_is_Some_2 l i) as [w ->].
  - by rewrite lookup_seq_ge, lookup_ge_None_2 by lia.
Qed.

Lemma imap_fst {A} (f : A -> N) (l : list A) : (imap (fun i p => (f p, i)) l).*1 = f <$> l.
Proof. rewrite fmap_imap. apply list_eq. intros i. rewrite list_lookup_imap, list_lookup_fmap. done. Qed.

(** ** Pro rata *)

Section pro_rata.
Context (value : N) (claims : list N).
Context (Htotal : nsum claims <= U128_MAX) (Hpos : 0 < nsum claims) (Hlen : N.of_nat (length claims) <= U64_MAX).

Let T := nsum claims.
Let V := N.min value T.
Let exact := (fun c => V * c) <$> claims.
Let shares := (fun e => e / T) <$> exact.
Let fractions := imap (fun i e => (e mod T, i)) exact.
Let sorted := merge_sort remainder_le fractions.

Lemma share_sums : nsum shares * T + nsum ((fun e => e mod T) <$> exact) = V * T.
Proof.
  pose proof (nsum_div_mod exact T ltac:(unfold T; lia)) as H. fold shares in H. rewrite H.
  unfold exact. rewrite <-(N.mul_comm T). unfold T.
  rewrite <-(nsum_scale claims V). f_equal. apply list_fmap_ext. intros. lia.
Qed.

Lemma sorted_fractions_nodup : NoDup sorted.*2.
Proof.
  assert (sorted.*2 ≡ₚ seq 0 (length exact)) as ->; [|apply NoDup_seq].
  rewrite <-(imap_snd_seq (fun e => e mod T)). apply fmap_Permutation, merge_sort_Permutation.
Qed.

Lemma taken_nodup n : NoDup (take n sorted).*2.
Proof.
  pose proof sorted_fractions_nodup as H. rewrite <-(take_drop n sorted), fmap_app in H.
  by apply NoDup_app in H as [? _].
Qed.

Lemma shares_lookup i c : claims !! i = Some c -> shares !! i = Some (V * c / T).
Proof. intros Hc. unfold shares, exact. by rewrite !list_lookup_fmap, Hc. Qed.

Lemma shares_le_value : nsum shares <= V.
Proof. pose proof share_sums. unfold T in *. nia. Qed.

Lemma units_lt : V - nsum shares < N.of_nat (length claims).
Proof.
  assert (Forall (fun e => e < T) ((fun e => e mod T) <$> exact)) as Hf.
  { apply Forall_fmap, Forall_true. intros e. cbn. apply N.mod_lt. unfold T. lia. }
  apply nsum_bound in Hf. rewrite length_fmap in Hf. unfold exact in Hf at 2 3. rewrite length_fmap in Hf.
  assert (0 < N.of_nat (length claims)) by (destruct claims; [done|cbn; lia]).
  pose proof share_sums as Hs. assert (0 < T) by done. nia.
Qed.

Lemma pro_rata_unfold : pro_rata value claims = add_units (take (N.to_nat (V - nsum shares)) sorted) shares.
Proof.
  unfold pro_rata. rewrite sat_sum_from by done. rewrite N.add_0_l, N.min_l by done.
  fold T. destruct (N.eqb_spec T 0); [unfold T in *; lia|]. fold V.
  assert ((fun c => mul_div_rem V c T) <$> claims = (fun e => (e / T, e mod T)) <$> exact) as ->.
  { unfold exact. rewrite <-list_fmap_compose. apply list_fmap_ext. intros i c Hc. cbn.
    apply list_elem_of_lookup_2, nsum_elem_le in Hc.
    apply mul_div_rem_exact; unfold V, T, U128_MAX in *; lia. }
  rewrite <-list_fmap_compose. change (fst ∘ (fun e : N => (e / T, e mod T))) with (fun e => e / T).
  fold shares. pose proof shares_le_value as Hs.
  rewrite wsum128_small by (unfold V, T in *; lia). rewrite wsub128_small by (unfold V, T in *; lia).
  rewrite imap_fmap. change (imap _ exact) with fractions. fold sorted. f_equal. f_equal. f_equal.
  apply N.mod_small. pose proof units_lt. unfold U64_MAX in *. lia.
Qed.

(** A unit more goes only to a share that was rounded down. *)
Lemma unit_positive i c :
  claims !! i = Some c -> i ∈ (take (N.to_nat (V - nsum shares)) sorted).*2 -> 0 < (V * c) mod T.
Proof.
  intros Hc (x & -> & (j & Hj & Hlt)%elem_of_take)%list_elem_of_fmap.
  assert (x = ((V * c) mod T, x.2)) as Hx.
  { apply list_elem_of_lookup_2 in Hj. unfold sorted in Hj. rewrite merge_sort_Permutation in Hj.
    apply list_elem_of_lookup in Hj as [k Hk]. unfold fractions, exact in Hk.
    rewrite list_lookup_imap, list_lookup_fmap in Hk. destruct (claims !! k) as [c'|] eqn:E; [|done].
    cbn in Hk. injection Hk as <-. cbn in Hc. rewrite E in Hc. by injection Hc as ->. }
  change ((V * c) mod T) with (((V * c) mod T, x.2).1). rewrite <-Hx.
  apply (largest_positive T sorted (N.to_nat (V - nsum shares)) j); [| | |done|done].
  - apply StronglySorted_merge_sort; apply _.
  - unfold sorted. rewrite merge_sort_Permutation. apply Forall_forall. intros y Hy.
    apply list_elem_of_lookup in Hy as [k Hk]. unfold fractions in Hk. rewrite list_lookup_imap in Hk.
    destruct (exact !! k); [|done]. injection Hk as <-. cbn. apply N.mod_lt. unfold T. lia.
  - rewrite (nsum_perm sorted.*1 fractions.*1) by (apply fmap_Permutation, merge_sort_Permutation).
    unfold fractions. rewrite imap_fst. pose proof share_sums as Hs. pose proof shares_le_value. nia.
Qed.

Lemma pro_rata_lookup i c :
  claims !! i = Some c ->
  exists u, pro_rata value claims !! i = Some (V * c / T + u) /\ u <= 1 /\ V * c / T + u <= c.
Proof.
  intros Hc. rewrite pro_rata_unfold, add_units_lookup.
  2:{ apply taken_nodup. }
  rewrite (shares_lookup i c Hc). cbn.
  assert (V * c / T <= c) as Hle.
  { apply N.Div0.div_le_upper_bound. unfold V, T. apply N.mul_le_mono_r. lia. }
  case_decide as Hin; [|exists 0; rewrite N.add_0_r; split_and!; [done|lia|done]].
  assert (V * c / T + 1 <= c) as Hle1.
  { pose proof (unit_positive i c Hc Hin). pose proof (N.div_mod (V * c) T ltac:(unfold T; lia)).
    assert (V * c <= T * c) by (unfold V; apply N.mul_le_mono_r; lia). nia. }
  exists 1. split_and!; [|done|done]. f_equal. apply wadd128_small.
  apply list_elem_of_lookup_2, nsum_elem_le in Hc. lia.
Qed.

Lemma pro_rata_sum : nsum (pro_rata value claims) = V.
Proof.
  rewrite pro_rata_unfold. pose proof units_lt. pose proof shares_le_value.
  assert (length sorted = length claims) as Hl.
  { unfold sorted. rewrite merge_sort_Permutation. unfold fractions, exact. by rewrite length_imap, length_fmap. }
  rewrite add_units_sum.
  - rewrite length_take_le by lia. lia.
  - apply taken_nodup.
  - intros i Hi. assert (i < length claims)%nat as Hli.
    { apply list_elem_of_fmap in Hi as (x & -> & (j & Hj & _)%elem_of_take). apply list_elem_of_lookup_2 in Hj.
      unfold sorted in Hj. rewrite merge_sort_Permutation in Hj. apply (list_elem_of_fmap_2 snd) in Hj.
      unfold fractions in Hj. rewrite imap_snd_seq in Hj. apply elem_of_seq in Hj. unfold exact in Hj.
      rewrite length_fmap in Hj. lia. }
    destruct (lookup_lt_is_Some_2 claims i Hli) as [c Hc]. exists (V * c / T).
    split; [by apply shares_lookup|].
    pose proof (unit_positive i c Hc Hi). pose proof (N.div_mod (V * c) T ltac:(unfold T; lia)).
    assert (V * c <= T * c) by (unfold V; apply N.mul_le_mono_r; lia).
    apply list_elem_of_lookup_2, nsum_elem_le in Hc. assert (V * c / T + 1 <= c) by nia. lia.
Qed.
End pro_rata.

(** C23: a shortfall shared pro rata is shared exactly. Claims that add up within
    128 bits are given the value, or all they claim where that is less, to the
    unit; each is given the floor of its exact share or one unit more, and none
    more than it claims. *)
Theorem pro_rata_spec value claims :
  nsum claims <= U128_MAX -> N.of_nat (length claims) <= U64_MAX ->
  length (pro_rata value claims) = length claims /\
  nsum (pro_rata value claims) = N.min value (nsum claims) /\
  forall i c s, claims !! i = Some c -> pro_rata value claims !! i = Some s ->
    let exact := N.min value (nsum claims) * c / nsum claims in exact <= s <= exact + 1 /\ s <= c.
Proof.
  intros Ht Hl. destruct (decide (nsum claims = 0)) as [Hz|Hp].
  - assert (pro_rata value claims = replicate (length claims) 0) as ->.
    { unfold pro_rata. by rewrite sat_sum_from, N.add_0_l, Hz by done. }
    rewrite length_replicate, Hz, N.min_0_r. split_and!; [done| |].
    + clear. induction claims as [|c claims IH]; [done|]. cbn [length replicate]. rewrite nsum_cons. lia.
    + intros i c s Hc [-> _]%lookup_replicate. cbn. lia.
  - assert (0 < nsum claims) by lia. split_and!.
    + rewrite pro_rata_unfold by done. by rewrite add_units_length, !length_fmap.
    + by apply pro_rata_sum.
    + intros i c s Hc Hs. destruct (pro_rata_lookup value claims) with (i := i) (c := c) as (u & E & Hu & Hle); try done.
      rewrite E in Hs. injection Hs as <-. cbn. lia.
Qed.

Lemma pro_rata_spec_witness :
  nsum [2 ^ 127; 3; 2 ^ 126] <= U128_MAX /\ nsum (pro_rata (2 ^ 100) [2 ^ 127; 3; 2 ^ 126]) = 2 ^ 100.
Proof.
  split; [vm_compute; discriminate|].
  destruct (pro_rata_spec (2 ^ 100) [2 ^ 127; 3; 2 ^ 126]) as (_ & -> & _); vm_compute; done || discriminate.
Defined.

(** ** Rules that validate *)

Definition line_ok (l : SplitLine) : Prop :=
  match sl_basis l with
  | Remainder => sl_cap l = None
  | Bps b => b <> 0
  | Fixed v => v <> 0
  end /\ did_fits (sl_recipient l) = true.

Definition bps_total (lines : list SplitLine) : N := nsum (omap line_bps lines).

Definition remainders (lines : list SplitLine) : nat := length (filter (fun l => is_remainder l = true) lines).

Record ValidRule (r : SplitRule) : Prop := {
  vr_version : sr_version r = SPLIT_RULE_VERSION;
  vr_length : (1 <= length (sr_lines r) <= MAX_SPLIT_LINES)%nat;
  vr_lines : Forall line_ok (sr_lines r);
  vr_remainder : remainders (sr_lines r) = 1%nat;
  vr_bps : bps_total (sr_lines r) <= BPS;
}.

Lemma bps_total_cons l lines :
  bps_total (l :: lines) = (match sl_basis l with Bps b => b | _ => 0 end) + bps_total lines.
Proof. unfold bps_total. cbn [omap list_omap]. unfold line_bps at 1. by destruct (sl_basis l). Qed.

Lemma remainders_cons l lines :
  remainders (l :: lines) = ((if is_remainder l then 1 else 0) + remainders lines)%nat.
Proof. unfold remainders. rewrite filter_cons. by destruct (is_remainder l). Qed.

Lemma validate_lines_spec lines n b st :
  validate_lines lines n b = Ok st <->
  Forall line_ok lines /\ st = ((n + remainders lines)%nat, b + bps_total lines).
Proof.
  revert n b. induction lines as [|l lines IH]; intros n b; cbn [validate_lines].
  { rewrite N.add_0_r, Nat.add_0_r. split; [by intros [= <-]|]. by intros [_ ->]. }
  rewrite Forall_cons, bps_total_cons, remainders_cons, rbind_ok. unfold line_ok at 1, is_remainder.
  destruct (sl_basis l) as [x|v|] eqn:E; split.
  - intros (y & [Hx [= <-]]%guard_ok & [Hd [? ->]%IH]%guard_ok). cbn. propify. by rewrite N.add_assoc.
  - intros [[[Hx Hd] Hl] ->]. exists (n, b + x). rewrite !guard_ok, IH. cbn. rewrite N.add_assoc.
    split_and!; [by apply negb_true_iff, N.eqb_neq|done..].
  - intros (y & [Hx [= <-]]%guard_ok & [Hd [? ->]%IH]%guard_ok). cbn. by propify.
  - intros [[[Hx Hd] Hl] ->]. exists (n, b). rewrite !guard_ok, IH. cbn.
    split_and!; [by apply negb_true_iff, N.eqb_neq|done..].
  - intros (y & [Hx [= <-]]%guard_ok & [Hd [? ->]%IH]%guard_ok). cbn. propify. rewrite Nat.add_succ_r.
    split_and!; [|done..]. by apply eq_None_not_Some.
  - intros [[[Hx Hd] Hl] ->]. exists (S n, b). rewrite !guard_ok, IH, Hx. cbn. by rewrite Nat.add_succ_r.
Qed.

Lemma validate_spec r : validate r = Ok tt <-> ValidRule r.
Proof.
  unfold validate. rewrite !guard_ok, rbind_ok. split.
  - intros (Hv & Hl & st & [Hf ->]%validate_lines_spec & [Hr [Hb _]%guard_ok]%guard_ok). cbn in Hr, Hb. propify.
    split; try done; lia.
  - intros [Hv Hl Hf Hr Hb]. split_and!; [by apply N.eqb_eq| |].
    + rewrite negb_true_iff, orb_false_iff, Nat.eqb_neq, Nat.ltb_ge. lia.
    + exists (1%nat, bps_total (sr_lines r)). rewrite validate_lines_spec, !guard_ok, Hr. cbn.
      split_and!; [done..| |done]. by apply N.leb_le.
Qed.

(** ** Dividing a net amount *)

(** What the phases leave a line with: after the fixed lines, after the shares
    are rounded, and at the end. *)
Definition fixed_credit (l : SplitLine) (c : N) : Prop :=
  match sl_basis l with
  | Fixed v => c <= v /\ c <= default U128_MAX (sl_cap l)
  | _ => c = 0
  end.

Definition rounded_credit (pool : N) (l : SplitLine) (c : N) : Prop :=
  match sl_basis l with
  | Fixed v => c <= v /\ c <= default U128_MAX (sl_cap l)
  | Bps b => c * BPS <= pool * b + (BPS - 1)
  | Remainder => c = 0
  end.

Definition within_line (pool : N) (l : SplitLine) (c : N) : Prop :=
  match sl_basis l with
  | Fixed v => c <= v
  | Bps b => c * BPS <= pool * b + (BPS - 1)
  | Remainder => True
  end /\ c <= default c (sl_cap l).

Lemma pay_fixed_spec lines rest :
  nsum (pay_fixed lines rest).1 + (pay_fixed lines rest).2 = rest /\
  Forall2 fixed_credit lines (pay_fixed lines rest).1.
Proof.
  revert rest. induction lines as [|l lines IH]; intros rest; cbn [pay_fixed]; [by split|].
  set (paid := match sl_basis l with Fixed _ => _ | _ => _ end).
  assert (paid <= rest /\ fixed_credit l paid) as [Hp Hc].
  { unfold paid, fixed_credit. destruct (sl_basis l); lia. }
  specialize (IH (rest - paid)). destruct (pay_fixed lines (rest - paid)) as [cs pool]. cbn [fst snd] in *.
  destruct IH as [Hs Hf]. split; [|by constructor]. rewrite nsum_cons. lia.
Qed.

Lemma assign_bps_sum pool lines cs :
  Forall2 fixed_credit lines cs ->
  nsum (assign_bps pool lines cs) = nsum cs + nsum (bps_of pool <$> omap line_bps lines).
Proof.
  unfold assign_bps. induction 1 as [|l c lines cs Hc Hf IH]; cbn [zip_with omap list_omap]; [done|].
  rewrite !nsum_cons, IH. unfold fixed_credit, line_bps in *. destruct (sl_basis l); [|lia..].
  rewrite fmap_cons, nsum_cons, Hc. fold line_bps. lia.
Qed.

Lemma assign_bps_spec pool lines cs :
  pool <= U128_MAX -> (forall b, b ∈ omap line_bps lines -> b <= BPS) -> Forall2 fixed_credit lines cs ->
  Forall2 (fun l c => match line_bps l with Some b => c = pool * b / BPS | None => fixed_credit l c end)
    lines (assign_bps pool lines cs).
Proof.
  intros Hp Hb Hf. revert Hb. induction Hf as [|l c ls cs Hc Hf IH]; intros Hb; [constructor|]. constructor.
  - cbn in Hb. destruct (line_bps l) as [b|]; [|done]. apply bps_of_exact; [done|]. apply Hb. left.
  - apply IH. intros b Hin. apply Hb. cbn. destruct (line_bps l); [by right|done].
Qed.

Lemma bps_lines_gen (g : nat -> nat) lines :
  let bl := omap (fun p => pair p.1 <$> line_bps p.2) (imap (fun i l => (g i, l)) lines) in
  bl.*2 = omap line_bps lines /\
  (forall i b, (i, b) ∈ bl <-> exists j l, i = g j /\ lines !! j = Some l /\ line_bps l = Some b).
Proof.
  revert g. induction lines as [|l lines IH]; intros g; cbn.
  { split; [done|]. intros i b. split; [by intros ?%elem_of_nil|]. intros (j & l & _ & H & _). by destruct j. }
  destruct (IH (g ∘ S)) as [IH1 IH2]. split.
  - destruct (line_bps l); cbn; [f_equal|]; apply IH1.
  - intros i b. destruct (line_bps l) as [b'|] eqn:E; cbn [fmap option_fmap option_map];
      [rewrite elem_of_cons|]; rewrite IH2; split.
    + intros [[= -> ->]|(j & l' & -> & H1 & H2)]; [by exists 0%nat, l|by exists (S j), l'].
    + intros ([|j] & l' & -> & H1 & H2); cbn in H1; [left; congruence|right; by exists j, l'].
    + intros (j & l' & -> & H1 & H2). by exists (S j), l'.
    + intros ([|j] & l' & -> & H1 & H2); cbn in H1; [congruence|by exists j, l'].
Qed.

Lemma bps_lines_nodup lines : NoDup (bps_lines lines).*1.
Proof.
  unfold bps_lines. change (imap pair lines) with (imap (fun i l => (id i, l)) lines).
  assert (Inj (=) (=) (@id nat)) as Hi by (intros ??; done). revert Hi. generalize (@id nat).
  induction lines as [|l lines IH]; intros g Hg; [constructor|]. cbn.
  assert (Inj (=) (=) (g ∘ S)) as Hg' by (intros x y H%Hg; by injection H).
  destruct (line_bps l) eqn:E; cbn [fmap option_fmap option_map]; [|by apply (IH (g ∘ S))].
  rewrite fmap_cons. constructor; [|by apply (IH (g ∘ S))].
  intros ([i b] & Heq & Hin)%list_elem_of_fmap. apply (bps_lines_gen (g ∘ S)) in Hin as (j & l' & -> & _).
  cbn in Heq. by apply Hg in Heq.
Qed.

Lemma bps_lines_snd lines : (bps_lines lines).*2 = omap line_bps lines.
Proof. apply (bps_lines_gen id lines). Qed.

Lemma elem_of_bps_lines lines i b :
  (i, b) ∈ bps_lines lines <-> exists l, lines !! i = Some l /\ sl_basis l = Bps b.
Proof.
  unfold bps_lines. change (imap pair lines) with (imap (fun i l => (id i, l)) lines).
  rewrite (proj2 (bps_lines_gen id lines)). unfold line_bps, id. split.
  - intros (j & l & -> & Hl & H). exists l. split; [done|]. destruct (sl_basis l); congruence.
  - intros (l & Hl & H). exists i, l. by rewrite H.
Qed.

Lemma cap_bps_spec pool lines cs :
  Forall2 (rounded_credit pool) lines cs ->
  Forall2 (fun l c => (is_remainder l = true -> c = 0) /\ (is_remainder l = false -> within_line pool l c))
    lines (cap_bps lines cs) /\
  nsum (cap_bps lines cs) <= nsum cs.
Proof.
  induction 1 as [|l c ls cs Hc Hf [IH1 IH2]]; [by split; [constructor|]|].
  unfold cap_bps. cbn [zip_with]. fold (cap_bps ls cs). rewrite !nsum_cons.
  set (c' := match sl_basis l with Bps _ => _ | _ => _ end).
  assert (c' <= c /\ (is_remainder l = true -> c' = 0) /\ (is_remainder l = false -> within_line pool l c')) as (H1 & H2).
  { unfold c', rounded_credit, within_line, is_remainder in *. clear IH1 IH2 Hf.
    destruct (sl_basis l), (sl_cap l) as [cap|]; cbn in *; try destruct (N.ltb_spec cap c); cbn; unfold BPS in *;
      split_and!; intros; try done; lia. }
  split; [by constructor|lia].
Qed.

Lemma remainder_at_Some lines :
  remainders lines = 1%nat -> exists r l, remainder_at lines = Some r /\ lines !! r = Some l /\ is_remainder l = true.
Proof.
  unfold remainder_at, remainders. intros H.
  destruct (list_find _ lines) as [[r l]|] eqn:E.
  - apply list_find_Some in E as (? & ? & _). by exists r, l.
  - apply list_find_None in E. exfalso. revert H E. clear. induction lines as [|l lines IH]; [done|].
    rewrite filter_cons, Forall_cons. intros H [Hl Hf]. rewrite decide_False in H by done. auto.
Qed.

Lemma nsum_insert r x y l : l !! r = Some y -> nsum (<[r := x]> l) + y = nsum l + x.
Proof.
  revert r. induction l as [|z l IH]; intros [|r] H; [done|done| |].
  - injection H as ->. change (<[0%nat := x]> (y :: l)) with (x :: l). rewrite !nsum_cons. lia.
  - change (<[S r := x]> (z :: l)) with (z :: <[r := x]> l). rewrite !nsum_cons. specialize (IH r H). lia.
Qed.

Section divide.
Context (net : N) (lines : list SplitLine).
Context (Hnet : net <= U128_MAX) (Hbps : bps_total lines <= BPS) (Hrem : remainders lines = 1%nat).

Let pool := (pay_fixed lines net).2.
Let bl := bps_lines lines.
Let exact := (fun b => pool * b) <$> omap line_bps lines.
Let floors := nsum ((fun e => e / BPS) <$> exact).
Let target := pool * bps_total lines / BPS.
Let fractions := (fun x : nat * N => ((pool * x.2) mod BPS, x.1)) <$> bl.
Let sorted := merge_sort remainder_le fractions.
Let assigned := assign_bps pool lines (pay_fixed lines net).1.
Let rounded := add_units (take (N.to_nat (target - floors)) sorted) assigned.

Lemma pool_le : pool <= U128_MAX.
Proof. unfold pool. destruct (pay_fixed_spec lines net) as [H _]. lia. Qed.

Lemma line_bps_le b : b ∈ omap line_bps lines -> b <= BPS.
Proof. intros H%nsum_elem_le. unfold bps_total in *. lia. Qed.

Lemma exact_sum : nsum exact = pool * bps_total lines.
Proof.
  transitivity (nsum ((fun w => w * pool) <$> omap line_bps lines)).
  - unfold exact. f_equal. apply list_fmap_ext. intros. lia.
  - rewrite nsum_scale. apply N.mul_comm.
Qed.

Lemma fractions_sum : floors * BPS + nsum fractions.*1 = pool * bps_total lines.
Proof.
  rewrite <-exact_sum, <-(nsum_div_mod exact BPS) by done. f_equal. f_equal.
  unfold fractions, exact, bl. rewrite <-bps_lines_snd, <-!list_fmap_compose. done.
Qed.

Lemma fractions_lt : Forall (fun p => p.1 < BPS) fractions.
Proof. apply Forall_fmap, Forall_true. intros x. cbn. by apply N.mod_lt. Qed.

Lemma floors_target : floors <= target /\ (target - floors) * BPS <= nsum fractions.*1 /\
  target - floors <= N.of_nat (length fractions) /\ target <= pool.
Proof.
  pose proof fractions_sum as Hs. pose proof (nsum_fst_bound _ _ fractions_lt) as Hf.
  pose proof (N.div_mod (pool * bps_total lines) BPS ltac:(done)) as Hd. fold target in Hd.
  assert (target <= pool).
  { apply N.Div0.div_le_upper_bound. rewrite N.mul_comm. by apply N.mul_le_mono_r. }
  unfold BPS in *. lia.
Qed.

Lemma sorted_divide_nodup n : NoDup (take n sorted).*2.
Proof.
  assert (NoDup sorted.*2) as H.
  { assert (sorted.*2 ≡ₚ bl.*1) as ->; [|apply bps_lines_nodup].
    transitivity (fractions.*2); [apply fmap_Permutation, merge_sort_Permutation|].
    unfold fractions. by rewrite <-list_fmap_compose. }
  rewrite <-(take_drop n sorted), fmap_app in H. by apply NoDup_app in H as [? _].
Qed.

Lemma assigned_spec :
  Forall2 (fun l c => match line_bps l with Some b => c = pool * b / BPS | None => fixed_credit l c end) lines assigned /\
  nsum assigned + pool = net + floors.
Proof.
  destruct (pay_fixed_spec lines net) as [Hs Hf]. fold pool in Hs. split.
  - apply assign_bps_spec; [apply pool_le|apply line_bps_le|done].
  - unfold assigned. rewrite assign_bps_sum by done. unfold floors, exact. rewrite <-list_fmap_compose.
    assert (bps_of pool <$> omap line_bps lines = ((fun e => e / BPS) ∘ (fun b => pool * b)) <$> omap line_bps lines) as ->.
    { apply list_fmap_ext. intros i b Hi. apply bps_of_exact; [apply pool_le|]. by eapply line_bps_le, list_elem_of_lookup_2. }
    lia.
Qed.

Lemma taken_bps i :
  i ∈ (take (N.to_nat (target - floors)) sorted).*2 ->
  exists l b, lines !! i = Some l /\ sl_basis l = Bps b /\ 0 < (pool * b) mod BPS.
Proof.
  intros (x & -> & (j & Hj & Hlt)%elem_of_take)%list_elem_of_fmap.
  assert (0 < x.1) as Hpos.
  { apply (largest_positive BPS sorted (N.to_nat (target - floors)) j); [| | |done|done].
    - apply StronglySorted_merge_sort; apply _.
    - unfold sorted. rewrite merge_sort_Permutation. apply fractions_lt.
    - rewrite (nsum_perm sorted.*1 fractions.*1) by (apply fmap_Permutation, merge_sort_Permutation).
      pose proof floors_target. lia. }
  apply list_elem_of_lookup_2 in Hj. unfold sorted in Hj. rewrite merge_sort_Permutation in Hj.
  apply list_elem_of_fmap in Hj as ([i b] & -> & (l & Hl & Hb)%elem_of_bps_lines). eauto.
Qed.

Lemma unit_fits i l b c :
  lines !! i = Some l -> sl_basis l = Bps b -> 0 < (pool * b) mod BPS -> assigned !! i = Some c -> c + 1 <= U128_MAX.
Proof.
  intros Hl Hb Hpos Hc. destruct assigned_spec as [Ha _].
  pose proof (Forall2_lookup_lr _ _ _ _ _ _ Ha Hl Hc) as Hlc. cbn in Hlc.
  unfold line_bps in Hlc. rewrite Hb in Hlc. pose proof pool_le. pose proof (line_bps_le b) as Hbl.
  assert (b ∈ omap line_bps lines) as Hin.
  { apply list_elem_of_omap. exists l. split; [by eapply list_elem_of_lookup_2|]. unfold line_bps. by rewrite Hb. }
  assert (pool * b <= pool * BPS) by (apply N.mul_le_mono_l; auto).
  pose proof (N.div_mod (pool * b) BPS ltac:(done)). unfold BPS in *. lia.
Qed.

Lemma rounded_lookup i l c :
  lines !! i = Some l -> assigned !! i = Some c ->
  exists u, rounded !! i = Some (c + u) /\
    (u = 0 \/ u = 1 /\ exists b, sl_basis l = Bps b /\ 0 < (pool * b) mod BPS).
Proof.
  intros Hl Hc. unfold rounded. rewrite add_units_lookup by apply sorted_divide_nodup. rewrite Hc. cbn.
  case_decide as Hin; [|exists 0; rewrite N.add_0_r; auto]. exists 1.
  destruct (taken_bps i Hin) as (l' & b & Hl' & Hb & Hpos). simplify_eq.
  split; [f_equal; by eapply wadd128_small, unit_fits|eauto].
Qed.

Lemma rounded_spec : Forall2 (rounded_credit pool) lines rounded /\ nsum rounded + pool = net + target.
Proof.
  destruct assigned_spec as [Ha Hs]. destruct floors_target as (Hft & _ & Hlen & Htp).
  assert (length rounded = length lines) as Hlr.
  { unfold rounded. rewrite add_units_length. symmetry. by eapply Forall2_length. }
  split.
  - apply Forall2_same_length_lookup_2; [done|]. intros i l c Hl Hc.
    destruct (lookup_lt_is_Some_2 assigned i) as [a Hai].
    { rewrite <-(Forall2_length _ _ _ Ha). by eapply lookup_lt_Some. }
    destruct (rounded_lookup i l a Hl Hai) as (u & Hu & Hcase). rewrite Hu in Hc. injection Hc as <-.
    pose proof (Forall2_lookup_lr _ _ _ _ _ _ Ha Hl Hai) as Hlc. cbn in Hlc.
    unfold rounded_credit, line_bps, fixed_credit in *. destruct (sl_basis l) as [b|v|].
    + subst a. pose proof (N.div_mod (pool * b) BPS ltac:(done)).
      destruct Hcase as [->|(-> & b' & [= <-] & Hpos)]; unfold BPS in *; lia.
    + destruct Hcase as [->|(_ & b' & ? & _)]; [|done]. by rewrite N.add_0_r.
    + destruct Hcase as [->|(_ & b' & ? & _)]; [lia|done].
  - unfold rounded. rewrite add_units_sum; [|apply sorted_divide_nodup|].
    + assert (length sorted = length fractions) as Hl by (unfold sorted; by rewrite merge_sort_Permutation).
      rewrite length_take_le by lia. lia.
    + intros i Hi. destruct (taken_bps i Hi) as (l & b & Hl & Hb & Hpos).
      destruct (lookup_lt_is_Some_2 assigned i) as [a Hai].
      { rewrite <-(Forall2_length _ _ _ Ha). by eapply lookup_lt_Some. }
      exists a. split; [done|]. by eapply unit_fits.
Qed.

Lemma divide_phases :
  divide net lines =
  (let credits := cap_bps lines rounded in
   match remainder_at lines with
   | Some r => <[r := wsub128 net (wsum128 credits)]> credits
   | None => credits
   end).
Proof.
  unfold divide. rewrite (surjective_pairing (pay_fixed lines net)). fold pool bl assigned.
  assert (wsum128 bl.*2 = bps_total lines) as ->.
  { unfold bl. rewrite bps_lines_snd. apply wsum128_small. etrans; [exact Hbps|done]. }
  rewrite (bps_of_exact pool) by (done || apply pool_le). fold target.
  assert ((fun x : nat * N => bps_of pool x.2) <$> bl = (fun e => e / BPS) <$> exact) as ->.
  { unfold exact, bl. rewrite <-bps_lines_snd, <-!list_fmap_compose. apply list_fmap_ext. intros i x Hx. cbn.
    apply bps_of_exact; [apply pool_le|]. apply line_bps_le. rewrite <-bps_lines_snd.
    by eapply list_elem_of_fmap_2, list_elem_of_lookup_2. }
  destruct floors_target as (Hft & _ & _ & Htp). pose proof pool_le.
  rewrite (wsum128_small ((fun e => e / BPS) <$> exact)) by (fold floors; lia). fold floors.
  rewrite (wsub128_small target floors) by lia.
  assert ((fun x : nat * N => (wmul128 (pool mod BPS) x.2 mod BPS, x.1)) <$> bl = fractions) as ->.
  { apply list_fmap_ext. intros i x Hx. f_equal. rewrite wmul128_small; [by rewrite N.Div0.mul_mod_idemp_l|].
    pose proof (N.mod_lt pool BPS ltac:(done)). assert (x.2 <= BPS) as Hxb.
    { apply line_bps_le. rewrite <-bps_lines_snd. by eapply list_elem_of_fmap_2, list_elem_of_lookup_2. }
    transitivity (BPS * BPS); [apply N.mul_le_mono; lia|done]. }
  fold sorted. by rewrite add_extra_take.
Qed.

(** The whole net amount is divided, and every line is within its bounds. *)
Lemma divide_spec :
  Forall line_ok lines -> nsum (divide net lines) = net /\ Forall2 (within_line pool) lines (divide net lines).
Proof.
  intros Hok. rewrite divide_phases. cbv zeta.
  destruct rounded_spec as [Hf Hs]. destruct floors_target as (_ & _ & _ & Htp).
  destruct (cap_bps_spec _ _ _ Hf) as [Hc Hle]. revert Hs Hc Hle Htp. generalize (cap_bps lines rounded).
  intros cs Hs Hc Hle Htp. destruct (remainder_at_Some lines Hrem) as (r & l & -> & Hl & Hrl).
  assert (nsum cs <= net) as Hcs by lia. rewrite wsum128_small, wsub128_small by lia.
  destruct (Forall2_lookup_l _ _ _ _ _ Hc Hl) as (c & Hcr & H0 & _). specialize (H0 Hrl). subst c. split.
  - pose proof (nsum_insert r (net - nsum cs) 0 cs Hcr). lia.
  - apply Forall2_same_length_lookup_2.
    { rewrite length_insert. by eapply Forall2_length. }
    intros i l' c Hl' Hci. destruct (decide (i = r)) as [->|Hne].
    + rewrite list_lookup_insert_eq in Hci by (by eapply lookup_lt_Some). simplify_eq.
      pose proof (Forall_lookup_1 _ _ _ _ Hok Hl) as [Hk _]. unfold is_remainder, within_line in *.
      destruct (sl_basis l); try done. by rewrite Hk.
    + rewrite list_lookup_insert_ne in Hci by done.
      destruct (Forall2_lookup_lr _ _ _ _ _ _ Hc Hl' Hci) as [H1 H2]. destruct (is_remainder l') eqn:E; [|auto].
      rewrite (H1 eq_refl). unfold is_remainder, within_line in *. destruct (sl_basis l'); try done. split; [done|lia].
Qed.
End divide.

(** ** The fee *)

Lemma fee_allocation_spec gross p :
  gross <= U128_MAX ->
  let f := fee_allocation gross p in
  fa_burn f + fa_treasury f + fa_insurance f = fa_fee f /\
  fa_fee f = N.min (N.max (gross * N.min (fp_fee_bps p) BPS / BPS) (fp_min_fee p)) gross /\
  fa_burn f = fa_fee f * N.min (fp_burn_bps p) BPS / BPS.
Proof.
  intros Hg. unfold fee_allocation. cbv zeta. cbn [fa_fee fa_burn fa_treasury fa_insurance].
  rewrite (bps_of_exact gross) by (unfold BPS; lia). fold BPS.
  set (fee := N.min (N.max _ _) gross). assert (fee <= U128_MAX) as Hf by lia.
  pose proof (bps_of_le fee (N.min (fp_burn_bps p) BPS) Hf ltac:(lia)) as Hb.
  rewrite (wsub128_small fee) by done.
  pose proof (bps_of_le (fee - bps_of fee (N.min (fp_burn_bps p) BPS)) (N.min (fp_insurance_bps p) BPS)
    ltac:(lia) ltac:(lia)) as Hi.
  rewrite wsub128_small by lia. split_and!; [lia|done|]. apply bps_of_exact; lia.
Qed.

Lemma conserves_sums a :
  fa_burn (al_fee a) + fa_treasury (al_fee a) + fa_insurance (al_fee a) = fa_fee (al_fee a) ->
  nsum (al_credits a) = al_net a -> fa_fee (al_fee a) + al_network_fees a + al_net a = al_gross a ->
  al_gross a <= U128_MAX -> conserves a = true.
Proof.
  intros Hf Hc Hg Hb. unfold conserves, checked_sum128. rewrite checked_sum128_from by lia.
  unfold checked_add128. rewrite !(proj2 (N.leb_le _ _)) by lia. cbn.
  rewrite !(proj2 (N.leb_le _ _)) by lia. cbn. rewrite Hf, Hg, Hc.
  rewrite !N.eqb_refl. by rewrite bool_decide_eq_true_2.
Qed.

Lemma apply_ok gross rule p nf a :
  apply gross rule p nf = Ok a <->
  ValidRule rule /\ fa_fee (fee_allocation gross p) + nf <= U128_MAX /\
  fa_fee (fee_allocation gross p) + nf <= gross /\
  let net := gross - (fa_fee (fee_allocation gross p) + nf) in
  a = mkAllocation gross (fee_allocation gross p) nf net (divide net (sr_lines rule)).
Proof.
  unfold apply. rewrite rbind_ok. set (fee := fa_fee _). unfold checked_add128. split.
  - intros ([] & Hv%validate_spec & H). destruct (N.leb_spec (fee + nf) U128_MAX); [|done].
    cbn [ok_or rbind] in H. apply guard_ok in H as [Hg [= <-]]. propify. done.
  - intros (Hv%validate_spec & H1 & H2 & ->). exists tt. split; [done|].
    rewrite (proj2 (N.leb_le _ _) H1). cbn [ok_or rbind]. apply guard_ok. split; [|done].
    apply negb_true_iff. by apply N.ltb_ge.
Qed.

Lemma apply_credits gross rule p nf a :
  gross <= U128_MAX -> apply gross rule p nf = Ok a ->
  al_net a <= gross /\ nsum (al_credits a) = al_net a /\ Forall2 (within_line (al_net a)) (sr_lines rule) (al_credits a).
Proof.
  intros Hg ([_ _ Hl Hr Hb] & _ & Hle & ->)%apply_ok. cbn [al_net al_credits]. set (net := gross - _).
  destruct (divide_spec net (sr_lines rule)) as [Hs Hw]; [unfold net; lia|done..|].
  split_and!; [unfold net; lia|done|].
  eapply Forall2_impl; [exact Hw|]. intros l c [H1 H2]. split; [|done].
  revert H1. destruct (sl_basis l) as [b| |]; [|done..]. destruct (pay_fixed_spec (sr_lines rule) net) as [Hp _].
  assert ((pay_fixed (sr_lines rule) net).2 * b <= net * b) by (apply N.mul_le_mono_r; lia). lia.
Qed.

(** C20: a division conserves the gross to the unit. On a rule that validates, and
    only then, and when the fees do not exceed the gross, [apply] divides it: the
    parts of the fee add up to the fee, the credits to the net, and fee, network
    fees and net to the gross, whatever the caps, the rounding and the fee
    parameters; no line takes more than its amount or its cap, and a basis-point
    line less than a unit above its exact share. No step of it wraps. *)
Theorem apply_conserves gross rule p nf :
  gross <= U128_MAX ->
  (is_ok (apply gross rule p nf) = true <->
     validate rule = Ok tt /\ fa_fee (fee_allocation gross p) + nf <= gross) /\
  forall a, apply gross rule p nf = Ok a ->
    conserves a = true /\ al_gross a = gross /\ al_network_fees a = nf /\
    Forall2 (within_line (al_net a)) (sr_lines rule) (al_credits a).
Proof.
  intros Hg. split.
  - rewrite validate_spec. split.
    + destruct (apply gross rule p nf) as [a|] eqn:E; [|done]. by apply apply_ok in E as (? & _ & ? & _).
    + intros [Hv Hf]. assert (exists a, apply gross rule p nf = Ok a) as [a ->]; [|done].
      eexists. apply apply_ok. split_and!; [done|lia|done|reflexivity].
  - intros a Ha. destruct (apply_credits _ _ _ _ _ Hg Ha) as (Hn & Hs & Hw).
    apply apply_ok in Ha as (_ & _ & Hle & ->). cbn [al_gross al_network_fees al_net al_credits] in *.
    split_and!; [|done..]. apply conserves_sums; cbn [al_gross al_fee al_network_fees al_net al_credits];
      [by apply fee_allocation_spec|done|lia|done].
Qed.

Definition sale_rule : SplitRule :=
  mkRule 1 [mkLine Facilitator LegSubmitter (Bps 250) (Some 40);
            mkLine Licensor (ToAddress 7) (Fixed 300) None;
            mkLine Publisher (ToAddress 8) (Bps 3333) None;
            mkLine Payee (ToAddress 9) Remainder None].

Lemma apply_conserves_witness :
  9999 <= U128_MAX /\
  exists a, apply 9999 sale_rule (mkFeeParams 10 1 5000 1000) 5 = Ok a /\ conserves a = true.
Proof.
  split; [vm_compute; discriminate|].
  destruct (apply_conserves 9999 sale_rule (mkFeeParams 10 1 5000 1000) 5) as [_ H]; [vm_compute; discriminate|].
  eexists. split; [reflexivity|]. eapply H. reflexivity.
Defined.

(** ** Intermediaries *)

(** What the facilitator and relayer lines are credited. *)
Definition intermediary_credits (lines : list SplitLine) (credits : list N) : N :=
  nsum (zip_with (fun l c => if is_intermediary (sl_role l) then c else 0) lines credits).

(** The basis-point lines among them, which rounding can favour. *)
Definition intermediary_bps_lines (lines : list SplitLine) : N :=
  nsum ((fun l => if is_intermediary (sl_role l) && bool_decide (is_Some (line_bps l)) then 1 else 0) <$> lines).

Definition most_share (gross : N) (lines : list SplitLine) : N :=
  nsum ((fun l => if is_intermediary (sl_role l) then line_share gross l else 0) <$> lines).

Lemma most_fold gross lines m :
  m <= U128_MAX ->
  foldl (fun most l => if is_intermediary (sl_role l) then sat_add128 most (line_share gross l) else most) m lines
  = N.min (m + most_share gross lines) U128_MAX.
Proof.
  unfold most_share. revert m. induction lines as [|l lines IH]; intros m Hm; cbn [foldl]; [cbn; lia|].
  rewrite fmap_cons, nsum_cons, IH; unfold sat_add128; destruct (is_intermediary _); lia.
Qed.

Lemma line_share_covers gross net l c :
  gross * 2 ^ 16 <= U128_MAX -> net <= gross -> c <= net -> default 0 (line_bps l) <= BPS -> within_line net l c ->
  c * BPS <= line_share gross l + match line_bps l with Some _ => BPS - 1 | None => 0 end.
Proof.
  intros Hg Hn Hc Hb [Hw Hcap]. unfold line_share, line_bps, sat_mul128 in *.
  assert (net * default 0 (line_bps l) <= gross * default 0 (line_bps l)) as Hm by (by apply N.mul_le_mono_r).
  assert (gross * default 0 (line_bps l) <= gross * BPS) as Hm' by (by apply N.mul_le_mono_l).
  unfold line_bps in *. unfold BPS in *.
  destruct (sl_basis l) as [b|v|], (sl_cap l) as [cap|]; cbn [from_option id] in *; unfold id in *; clear Hb; change (2 ^ 16) with 65536 in *; lia.
Qed.

Lemma intermediary_sum gross net lines cs :
  gross * 2 ^ 16 <= U128_MAX -> net <= gross -> nsum cs <= net -> bps_total lines <= BPS ->
  Forall2 (within_line net) lines cs ->
  intermediary_credits lines cs * BPS <= most_share gross lines + (BPS - 1) * intermediary_bps_lines lines.
Proof.
  intros Hg Hn Hs Hb Hf. revert Hs Hb. unfold intermediary_credits, most_share, intermediary_bps_lines.
  induction Hf as [|l c lines cs Hw Hf IH]; intros Hs Hb; cbn [zip_with]; [done|].
  rewrite !fmap_cons, !nsum_cons. rewrite nsum_cons in Hs. rewrite bps_total_cons in Hb.
  specialize (IH ltac:(lia) ltac:(lia)).
  pose proof (line_share_covers gross net l c Hg Hn ltac:(lia)) as Hc.
  assert (default 0 (line_bps l) <= BPS) as Hd by (unfold line_bps; destruct (sl_basis l); cbn; lia).
  specialize (Hc Hd Hw). destruct (is_intermediary (sl_role l)); cbn [andb]; [|lia].
  destruct (line_bps l); cbn [bool_decide]; [rewrite bool_decide_eq_true_2 by eauto|rewrite bool_decide_eq_false_2 by (by intros [])]; lia.
Qed.

(** The share of intermediaries is bounded as an agent's terms ask. When a rule
    passes [check_intermediary_share] for a gross amount, the facilitator and
    relayer lines of its division take at most the allowed share of the gross,
    whatever fees are charged, and less than one unit above it for each of their
    basis-point lines, which rounding can favour. *)
Theorem intermediary_bounded gross rule p nf max_bps a :
  gross * 2 ^ 16 <= U128_MAX -> max_bps <= U16_MAX ->
  check_intermediary_share rule gross max_bps = Ok tt -> apply gross rule p nf = Ok a ->
  intermediary_credits (sr_lines rule) (al_credits a) * BPS <=
  gross * max_bps + (BPS - 1) * intermediary_bps_lines (sr_lines rule).
Proof.
  intros Hg Hm Hc Ha. assert (gross <= U128_MAX) as Hg' by lia.
  destruct (apply_credits _ _ _ _ _ Hg' Ha) as (Hn & Hs & Hw).
  apply apply_ok in Ha as ([_ _ _ _ Hb] & _).
  pose proof (intermediary_sum gross (al_net a) (sr_lines rule) (al_credits a) Hg Hn ltac:(lia) Hb Hw) as Hi.
  unfold check_intermediary_share, sat_mul128 in Hc. rewrite most_fold in Hc by lia. case_if_in Hc; [done|]. propify.
  assert (gross * max_bps <= gross * U16_MAX) by (by apply N.mul_le_mono_l).
  unfold U16_MAX, U128_MAX in *. lia.
Qed.

Lemma intermediary_bounded_witness :
  check_intermediary_share sale_rule 9999 250 = Ok tt /\
  exists a, apply 9999 sale_rule (mkFeeParams 10 1 5000 1000) 5 = Ok a /\
    intermediary_credits (sr_lines sale_rule) (al_credits a) * BPS <= 9999 * 250 + (BPS - 1) * 1.
Proof.
  split; [reflexivity|]. eexists. split; [reflexivity|].
  apply (intermediary_bounded 9999 sale_rule (mkFeeParams 10 1 5000 1000) 5 250);
    [vm_compute; discriminate|vm_compute; discriminate|reflexivity|reflexivity].
Defined.

(** The unit above is real: a facilitator allowed half of the gross takes all of
    it, when the gross is one unit and the tie of the fractions is its own. *)
Example rounding_exceeds_share :
  let line role basis := mkLine role LegSubmitter basis None in
  let rule := mkRule 1 [line Facilitator (Bps 5000); line Payee (Bps 5000); line Refund Remainder] in
  check_intermediary_share rule 1 5000 = Ok tt /\
  al_credits <$> (match apply 1 rule (mkFeeParams 0 0 0 0) 0 with Ok a => Some a | Err _ => None end) = Some [1; 0; 0].
Proof. by vm_compute. Qed.

(** ** The canonical encoding *)

(** An encoding is read off the front of what follows it in one way only. *)
Definition decodable {A} (P : A -> Prop) (f : A -> list N) : Prop :=
  forall a b x y, P a -> P b -> f a ++ x = f b ++ y -> a = b /\ x = y.

Lemma cons_both {A} (x y : A) l k : x :: l = y :: k -> x = y /\ l = k.
Proof. intros H. split; [by apply (f_equal head) in H; injection H|by apply (f_equal tail) in H]. Qed.

Lemma decodable_be n : decodable (fun x => x < 256 ^ N.of_nat n) (be_bytes n).
Proof.
  intros a b x y Ha Hb H. apply app_inj_1 in H as [H ->]; [|by rewrite !be_bytes_length].
  split; [by eapply be_bytes_inj|done].
Qed.

Definition recipient_fits (r : SplitRecipient) : Prop :=
  match r with
  | ToAddress a => a < 256 ^ 32
  | DidDerived did => (length did <= MAX_SPLIT_DID_LEN)%nat
  | LegSubmitter => True
  end.

Definition basis_fits (b : SplitBasis) : Prop :=
  match b with Bps b => b <= U16_MAX | Fixed v => v <= U128_MAX | Remainder => True end.

Definition cap_fits (c : option N) : Prop :=
  match c with Some c => c <= U128_MAX | None => True end.

Definition line_fits (l : SplitLine) : Prop :=
  recipient_fits (sl_recipient l) /\ basis_fits (sl_basis l) /\ cap_fits (sl_cap l).

(** Every field is within its width, as the types of the source ensure, and the
    rule within the limits [validate] sets. *)
Definition rule_fits (r : SplitRule) : Prop :=
  sr_version r <= U16_MAX /\ (length (sr_lines r) <= 255)%nat /\ Forall line_fits (sr_lines r).

Lemma decodable_recipient : decodable recipient_fits recipient_bytes.
Proof.
  unfold decodable, recipient_fits.
  intros [a|d|] [a'|d'|] x y Ha Hb [Ht H]%cons_both; try discriminate Ht; [| |by cbn in H].
  - apply (decodable_be 32) in H as [-> ->]; done.
  - change ((be_bytes 2 (N.min (N.of_nat (length d)) U16_MAX) ++ d) ++ x =
            (be_bytes 2 (N.min (N.of_nat (length d')) U16_MAX) ++ d') ++ y) in H.
    rewrite <-!app_assoc in H. unfold MAX_SPLIT_DID_LEN, U16_MAX in *.
    apply (decodable_be 2) in H as [Hl H]; [|change (256 ^ N.of_nat 2) with 65536; lia..].
    apply app_inj_1 in H as [-> ->]; [done|lia].
Qed.

Lemma decodable_basis : decodable basis_fits basis_bytes.
Proof.
  unfold decodable, basis_fits, U16_MAX, U128_MAX.
  intros [a|v|] [a'|v'|] x y Ha Hb [Ht H]%cons_both; try discriminate Ht; [| |by cbn in H].
  - apply (decodable_be 2) in H as [-> ->]; [done|change (256 ^ N.of_nat 2) with (2 ^ 16); lia..].
  - apply (decodable_be 16) in H as [-> ->]; [done|change (256 ^ N.of_nat 16) with (2 ^ 128); lia..].
Qed.

Lemma decodable_cap : decodable cap_fits cap_bytes.
Proof.
  unfold decodable, cap_fits, U128_MAX.
  intros [a|] [a'|] x y Ha Hb [Ht H]%cons_both; try discriminate Ht; [|by cbn in H].
  apply (decodable_be 16) in H as [-> ->]; [done|change (256 ^ N.of_nat 16) with (2 ^ 128); lia..].
Qed.

Lemma role_tag_inj r s : role_tag r = role_tag s -> r = s.
Proof. by destruct r, s. Qed.

Lemma decodable_line : decodable line_fits line_bytes.
Proof.
  intros [ro re ba ca] [ro' re' ba' ca'] x y (H1 & H2 & H3) (H4 & H5 & H6) H. apply cons_both in H as [Hro%role_tag_inj H].
  cbn [sl_role] in Hro. subst ro'.
  change ((recipient_bytes re ++ basis_bytes ba ++ cap_bytes ca) ++ x =
          (recipient_bytes re' ++ basis_bytes ba' ++ cap_bytes ca') ++ y) in H.
  cbn [sl_role sl_recipient sl_basis sl_cap] in *. rewrite <-!app_assoc in H.
  apply decodable_recipient in H as [-> H]; [|done..]. apply decodable_basis in H as [-> H]; [|done..].
  by apply decodable_cap in H as [-> ->].
Qed.

Lemma decodable_lines ls ls' :
  length ls = length ls' -> Forall line_fits ls -> Forall line_fits ls' ->
  concat (line_bytes <$> ls) = concat (line_bytes <$> ls') -> ls = ls'.
Proof.
  revert ls'. induction ls as [|l ls IH]; intros [|l' ls'] Hl Hf Hf' H; try done.
  apply Forall_cons in Hf as [? ?], Hf' as [? ?]. injection Hl as Hl.
  rewrite !fmap_cons in H. cbn [concat] in H. apply decodable_line in H as [-> H]; [|done..]. f_equal. auto.
Qed.

(** The canonical bytes commit to the rule. Two rules with fields within their
    widths that have the same encoding are the same rule, so that with a hash
    that does not collide the rule hash a quote signs names one rule. *)
Theorem canonical_bytes_inj r s :
  rule_fits r -> rule_fits s -> canonical_bytes r = canonical_bytes s -> r = s.
Proof.
  intros (Hv & Hl & Hf) (Hv' & Hl' & Hf') H. unfold canonical_bytes, U16_MAX in *.
  apply app_inv_head in H. apply (decodable_be 2) in H as [Ev H]; [|change (256 ^ N.of_nat 2) with (2 ^ 16); lia..].
  apply cons_both in H as [En H]. destruct r as [v ls], s as [v' ls']. cbn [sr_version sr_lines] in *. subst v'. f_equal.
  apply decodable_lines; [lia|done..].
Qed.

Lemma canonical_bytes_inj_witness :
  rule_fits sale_rule /\ forall s, rule_fits s -> canonical_bytes sale_rule = canonical_bytes s -> sale_rule = s.
Proof.
  assert (rule_fits sale_rule) as H.
  { split; [vm_compute; discriminate|]. split; [cbn; lia|]. repeat constructor; vm_compute; discriminate || done. }
  split; [done|]. intros s. by apply canonical_bytes_inj.
Defined.
