(* ===== verification/Netting.v ===== *)
(** Multilateral netting ([tenzro-settlement/src/netting.rs]).

    Gross obligations are reduced to a net position per asset and party, and a
    greedy matching of the largest debtor with the largest creditor turns the
    positions into instructions. The batch commits to its obligations by a
    Merkle root, against which a participant's statement is checked. An address
    is the number its 32 bytes spell, whose order is that of the bytes; an asset
    is the bytes of its string. SHA-256 and the tree's hashes are parameters. *)

From stdpp Require Import prelude gmap list sorting.
From Stdlib Require Import NArith ZArith Lia.
From S2P Require Import Prelude Committee Checkpoint Chain Merkle.

Abbreviation Asset := (list N) (only parsing).

(** ** Orders as comparison functions *)

(** What [Ord] asks of [cmp]. *)
Class LawfulCmp {A} (cmp : A -> A -> comparison) : Prop := {
  cmp_eq : forall a b, cmp a b = Eq -> a = b;
  cmp_opp : forall a b, cmp b a = CompOpp (cmp a b);
  cmp_lt_trans : forall a b c, cmp a b = Lt -> cmp b c = Lt -> cmp a c = Lt;
}.

Arguments cmp_opp {A} cmp {_} a b.

Definition then_with (c d : comparison) : comparison :=
  match c with Eq => d | _ => c end.

Definition cmp_le {A} (cmp : A -> A -> comparison) (a b : A) : Prop := cmp a b <> Gt.

#[global] Instance cmp_le_dec {A} (cmp : A -> A -> comparison) a b : Decision (cmp_le cmp a b).
Proof. unfold cmp_le. destruct (cmp a b); [left|left|right]; naive_solver. Defined.

(** Byte strings, lexicographically. *)
Fixpoint bytes_cmp (a b : list N) : comparison :=
  match a, b with
  | [], [] => Eq
  | [], _ => Lt
  | _, [] => Gt
  | x :: a, y :: b => then_with (x ?= y) (bytes_cmp a b)
  end.

Definition pair_cmp {A B} (ca : A -> A -> comparison) (cb : B -> B -> comparison) (x y : A * B) : comparison :=
  then_with (ca x.1 y.1) (cb x.2 y.2).

(** ** Obligations and instructions *)

Record Obligation := mkObligation {
  ob_debtor : Address;
  ob_creditor : Address;
  ob_asset : Asset;
  ob_amount : N;
}.

Record SettlementInstruction := mkInstruction {
  in_from : Address;
  in_to : Address;
  in_asset : Asset;
  in_amount : N;
}.

Record NettingBatch := mkBatch {
  nb_batch_id : list N;
  nb_obligations : list Obligation;
  nb_instructions : list SettlementInstruction;
  nb_gross_total : N;
  nb_net_total : N;
}.

(** The variants the module returns, each message a constructor. *)
Inductive SettlementError :=
| EmptySet
| AmountZero
| DebtorIsCreditor
| AssetEmpty
| DebitOverflow
| CreditOverflow
| GrossOverflow
| NetOverflow
| FlowsDiffer
| NotInBatch (index : N)
| AmountOverflows
| GrossDiffersFromNet (gross net : Z).

Definition obligation_cmp (a b : Obligation) : comparison :=
  then_with (ob_debtor a ?= ob_debtor b)
    (then_with (ob_creditor a ?= ob_creditor b)
      (then_with (bytes_cmp (ob_asset a) (ob_asset b)) (ob_amount a ?= ob_amount b))).

Definition sort_obligations (obs : list Obligation) : list Obligation := merge_sort (cmp_le obligation_cmp) obs.

(** Little-endian bytes of a number. *)
Definition le_bytes (n : nat) (x : N) : list N := rev (be_bytes n x).

(** [b"tenzro/settlement/netting"]. *)
Definition NETTING_ID_DOMAIN : list N :=
  [116; 101; 110; 122; 114; 111; 47; 115; 101; 116; 116; 108; 101; 109; 101; 110; 116; 47; 110; 101; 116; 116; 105; 110; 103].

(** [b"tenzro/settlement/netting/obligation"]. *)
Definition OBLIGATION_LEAF_DOMAIN : list N :=
  NETTING_ID_DOMAIN ++ [47; 111; 98; 108; 105; 103; 97; 116; 105; 111; 110].

(** ** Positions *)

Abbreviation PositionKey := (Asset * Address)%type (only parsing).

(** Totals of [(credit, debit)]. *)
Abbreviation PositionMap := (gmap (Asset * Address) (N * N)) (only parsing).

Definition accumulate (positions : PositionMap) (asset : Asset) (debtor creditor : Address) (amount : N)
  : result SettlementError PositionMap :=
  let d := default (0, 0) (positions !! (asset, debtor)) in
  let? debit := ok_or (checked_add128 d.2 amount) DebitOverflow in
  let positions := <[(asset, debtor) := (d.1, debit)]> positions in
  let c := default (0, 0) (positions !! (asset, creditor)) in
  let? credit := ok_or (checked_add128 c.1 amount) CreditOverflow in
  Ok (<[(asset, creditor) := (credit, c.2)]> positions).

(** [(is_creditor, net_amount)], nothing for a flat party. *)
Definition net_of (p : N * N) : option (bool * N) :=
  let '(credit, debit) := p in
  if debit <? credit then Some (true, credit - debit)
  else if credit <? debit then Some (false, debit - credit)
  else None.

Definition reduce (positions : PositionMap) : gmap (Asset * Address) (bool * N) := omap net_of positions.

Fixpoint net_positions_from (positions : PositionMap) (obs : list Obligation) : result SettlementError PositionMap :=
  match obs with
  | [] => Ok positions
  | o :: obs =>
      let? positions := accumulate positions (ob_asset o) (ob_debtor o) (ob_creditor o) (ob_amount o) in
      net_positions_from positions obs
  end.

Definition net_positions (obs : list Obligation) : result SettlementError PositionMap := net_positions_from ∅ obs.

Fixpoint instruction_positions_from (positions : PositionMap) (ins : list SettlementInstruction)
  : result SettlementError PositionMap :=
  match ins with
  | [] => Ok positions
  | i :: ins =>
      let? positions := accumulate positions (in_asset i) (in_from i) (in_to i) (in_amount i) in
      instruction_positions_from positions ins
  end.

Definition instruction_positions (ins : list SettlementInstruction) : result SettlementError PositionMap :=
  instruction_positions_from ∅ ins.

Definition verify_netting_invariant (obs : list Obligation) (ins : list SettlementInstruction)
  : result SettlementError unit :=
  let? expected := net_positions obs in
  let? actual := instruction_positions ins in
  check? bool_decide (reduce expected = reduce actual) else FlowsDiffer in Ok tt.

(** ** The matching *)

Abbreviation Side := (list (Address * N)) (only parsing).

(** Largest amount first, ties by ascending address. *)
Definition party_cmp (a b : Address * N) : comparison := then_with (b.2 ?= a.2) (a.1 ?= b.1).

Definition retain_positive (l : Side) : Side := filter (fun p => 0 < p.2) l.

(** [while !debtors.is_empty() && !creditors.is_empty()]: every pass settles one
    of the two parties it matches. *)
Fixpoint match_loop (fuel : nat) (asset : Asset) (debtors creditors : Side)
    (ins : list SettlementInstruction) (net_total : N)
  : result SettlementError (Side * Side * list SettlementInstruction * N) :=
  match fuel, debtors, creditors with
  | S fuel, _ :: _, _ :: _ =>
      match merge_sort (cmp_le party_cmp) debtors, merge_sort (cmp_le party_cmp) creditors with
      | (d, owes) :: debtors, (c, owed) :: creditors =>
          let matched := N.min owes owed in
          let ins := ins ++ [mkInstruction d c asset matched] in
          let? net_total := ok_or (checked_add128 net_total matched) NetOverflow in
          match_loop fuel asset
            (retain_positive ((d, owes - matched) :: debtors))
            (retain_positive ((c, owed - matched) :: creditors)) ins net_total
      | _, _ => Ok (debtors, creditors, ins, net_total)
      end
  | _, _, _ => Ok (debtors, creditors, ins, net_total)
  end.

(** Net positions grouped by asset, as [(debtors, creditors)]. *)
Definition group_entry (m : gmap Asset (Side * Side)) (e : (Asset * Address) * (bool * N)) : gmap Asset (Side * Side) :=
  let '((asset, party), (is_creditor, net)) := e in
  let '(debtors, creditors) := default ([], []) (m !! asset) in
  if is_creditor : bool then <[asset := (debtors, creditors ++ [(party, net)])]> m
  else <[asset := (debtors ++ [(party, net)], creditors)]> m.

(** A BTreeMap is iterated in the order of its keys. *)
Definition in_order {K A} `{Countable K} (cmp : K -> K -> comparison) (m : gmap K A) : list (K * A) :=
  merge_sort (cmp_le (fun x y : K * A => cmp x.1 y.1)) (map_to_list m).

Definition per_asset (positions : PositionMap) : gmap Asset (Side * Side) :=
  foldl group_entry ∅ (in_order (pair_cmp bytes_cmp N.compare) (reduce positions)).

Fixpoint settle_assets (groups : list (Asset * (Side * Side))) (ins : list SettlementInstruction) (net_total : N)
  : result SettlementError (list SettlementInstruction * N) :=
  match groups with
  | [] => Ok (ins, net_total)
  | (asset, (debtors, creditors)) :: groups =>
      let? st := match_loop (length debtors + length creditors) asset debtors creditors ins net_total in
      let '(_, _, ins, net_total) := st in
      settle_assets groups ins net_total
  end.

Fixpoint check_obligations (obs : list Obligation) : result SettlementError unit :=
  match obs with
  | [] => Ok tt
  | o :: obs =>
      check? negb (ob_amount o =? 0) else AmountZero in
      check? negb (ob_debtor o =? ob_creditor o) else DebtorIsCreditor in
      check? negb (bool_decide (ob_asset o = [])) else AssetEmpty in
      check_obligations obs
  end.

Fixpoint gross_from (total : N) (obs : list Obligation) : result SettlementError N :=
  match obs with
  | [] => Ok total
  | o :: obs => let? total := ok_or (checked_add128 total (ob_amount o)) GrossOverflow in gross_from total obs
  end.

Definition compute_netting (obs : list Obligation)
  : result SettlementError (list Obligation * list SettlementInstruction * N * N) :=
  check? negb (bool_decide (obs = [])) else EmptySet in
  let? _ := check_obligations obs in
  let obs := sort_obligations obs in
  let? gross_total := gross_from 0 obs in
  let? positions := net_positions obs in
  let? st := settle_assets (in_order bytes_cmp (per_asset positions)) [] 0 in
  Ok (obs, st.1, gross_total, st.2).

#[global] Instance Obligation_eq_dec : EqDecision Obligation.
Proof. solve_decision. Defined.

#[global] Instance SettlementInstruction_eq_dec : EqDecision SettlementInstruction.
Proof. solve_decision. Defined.

(** ** Batches and statements *)

Record ProvenObligation := mkProven {
  po_index : N;
  po_obligation : Obligation;
  po_path : list PathStep;
}.

Record Statement := mkStatement {
  st_participant : Address;
  st_obligations : list ProvenObligation;
  st_instructions : list SettlementInstruction;
}.

(** i128: a sum wraps into the signed range. *)
Definition wrap_i128 (z : Z) : Z := ((z + 2 ^ 127) mod 2 ^ 128 - 2 ^ 127)%Z.

Definition I128_MAX : N := 2 ^ 127 - 1.

Definition to_i128 (amount : N) : option Z := if amount <=? I128_MAX then Some (Z.of_N amount) else None.

(** [x += amount] when [plus], then [x -= amount] when [minus]. *)
Definition signed_add (x : Z) (plus minus : bool) (amount : Z) : Z :=
  let x := if plus then wrap_i128 (x + amount) else x in
  if minus then wrap_i128 (x - amount) else x.

Section batch.
Context (sha256 : list N -> Digest) (hex : Digest -> list N).
Context (empty_root : Digest) (hash_leaf : Digest -> Digest) (hash_pair : Digest -> Digest -> Digest).

Definition id_bytes (o : Obligation) : list N :=
  be_bytes 32 (ob_debtor o) ++ be_bytes 32 (ob_creditor o)
    ++ le_bytes 4 (N.of_nat (length (ob_asset o)) mod 2 ^ 32) ++ ob_asset o ++ le_bytes 16 (ob_amount o).

Definition compute_batch_id (sorted : list Obligation) : list N :=
  hex (sha256 (NETTING_ID_DOMAIN ++ concat (id_bytes <$> sorted))).

Definition compute_batch (obs : list Obligation) : result SettlementError NettingBatch :=
  let? st := compute_netting obs in
  let '(sorted, ins, gross_total, net_total) := st in
  Ok (mkBatch (compute_batch_id sorted) sorted ins gross_total net_total).

Definition obligation_leaf (o : Obligation) : Digest :=
  sha256 (OBLIGATION_LEAF_DOMAIN ++ be_bytes 32 (ob_debtor o) ++ be_bytes 32 (ob_creditor o)
    ++ be_bytes 4 (N.of_nat (length (ob_asset o)) mod 2 ^ 32) ++ ob_asset o ++ be_bytes 16 (ob_amount o)).

Definition obligations_root (sorted : list Obligation) : Digest :=
  merkle_root empty_root hash_leaf hash_pair (obligation_leaf <$> sorted).

Definition names (p : Address) (o : Obligation) : bool := (ob_debtor o =? p) || (ob_creditor o =? p).

Definition statement (b : NettingBatch) (p : Address) : Statement :=
  let leaves := obligation_leaf <$> nb_obligations b in
  mkStatement p
    ((fun x => mkProven (N.of_nat x.1 mod 2 ^ 32) x.2 (default [] (merkle_path hash_leaf hash_pair leaves x.1)))
       <$> filter (fun x => names p x.2 = true) (imap pair (nb_obligations b)))
    (filter (fun i => ((in_from i =? p) || (in_to i =? p)) = true) (nb_instructions b)).

Fixpoint gross_position (root : Digest) (p : Address) (gross : Z) (pos : list ProvenObligation)
  : result SettlementError Z :=
  match pos with
  | [] => Ok gross
  | po :: pos =>
      let o := po_obligation po in
      check? root_from_path hash_leaf hash_pair (obligation_leaf o) (po_path po) =? root else NotInBatch (po_index po) in
      let? amount := ok_or (to_i128 (ob_amount o)) AmountOverflows in
      gross_position root p (signed_add gross (ob_creditor o =? p) (ob_debtor o =? p) amount) pos
  end.

Fixpoint net_position (p : Address) (net : Z) (ins : list SettlementInstruction) : result SettlementError Z :=
  match ins with
  | [] => Ok net
  | i :: ins =>
      let? amount := ok_or (to_i128 (in_amount i)) AmountOverflows in
      net_position p (signed_add net (in_to i =? p) (in_from i =? p) amount) ins
  end.

Definition verify_statement (root : Digest) (s : Statement) : result SettlementError unit :=
  let? gross := gross_position root (st_participant s) 0 (st_obligations s) in
  let? net := net_position (st_participant s) 0 (st_instructions s) in
  check? (gross =? net)%Z else GrossDiffersFromNet gross net in Ok tt.
End batch.

Example bilateral :
  let o d c n := mkObligation d c [1] n in
  compute_netting [o 1 2 100; o 2 1 30] =
  Ok ([o 1 2 100; o 2 1 30], [mkInstruction 1 2 [1] 70], 130, 70).
Proof. vm_compute. reflexivity. Qed.

(** ** The orders are lawful *)

#[global] Instance N_compare_lawful : LawfulCmp N.compare.
Proof.
  split.
  - intros a b. apply N.compare_eq.
  - intros a b. apply N.compare_antisym.
  - intros a b c. rewrite !N.compare_lt_iff. lia.
Qed.

Section lawful.
Context {A : Type} (cmp : A -> A -> comparison) `{L : !LawfulCmp cmp}.

Lemma cmp_refl a : cmp a a = Eq.
Proof. pose proof (cmp_opp cmp a a) as H. by destruct (cmp a a). Qed.

#[export] Instance cmp_le_total : Total (cmp_le cmp).
Proof. intros a b. unfold cmp_le. rewrite (cmp_opp cmp a b). destruct (cmp a b); [left|left|right]; done. Qed.

#[export] Instance cmp_le_trans : Transitive (cmp_le cmp).
Proof.
  intros a b c. unfold cmp_le. intros H1 H2. destruct (cmp a b) eqn:E1; [| |done].
  - by apply cmp_eq in E1 as ->.
  - destruct (cmp b c) eqn:E2; [| |done].
    + apply cmp_eq in E2 as <-. by rewrite E1.
    + by rewrite (cmp_lt_trans a b c).
Qed.

#[export] Instance cmp_le_antisymm : AntiSymm (=) (cmp_le cmp).
Proof.
  intros a b. unfold cmp_le. rewrite (cmp_opp cmp a b). destruct (cmp a b) eqn:E; [|done|done]. intros _ _. by apply cmp_eq.
Qed.
End lawful.

Lemma pair_cmp_lawful {A B} (ca : A -> A -> comparison) (cb : B -> B -> comparison) :
  LawfulCmp ca -> LawfulCmp cb -> LawfulCmp (pair_cmp ca cb).
Proof.
  intros La Lb. unfold pair_cmp, then_with. split.
  - intros [a b] [a' b']; cbn. destruct (ca a a') eqn:E; try done. apply cmp_eq in E as ->. by intros ->%cmp_eq.
  - intros [a b] [a' b']; cbn. rewrite (cmp_opp ca a a'). destruct (ca a a'); cbn; try done. exact (cmp_opp _ _ _).
  - intros [a b] [a' b'] [a'' b'']; cbn. destruct (ca a a') eqn:E1, (ca a' a'') eqn:E2; try done; intros H1 H2.
    + apply cmp_eq in E1 as ->. rewrite E2. by eapply cmp_lt_trans.
    + apply cmp_eq in E1 as ->. by rewrite E2.
    + apply cmp_eq in E2 as ->. by rewrite E1.
    + by rewrite (cmp_lt_trans a a' a'').
Qed.

#[global] Instance bytes_cmp_lawful : LawfulCmp bytes_cmp.
Proof.
  unfold then_with. split.
  - induction a as [|x a IH]; intros [|y b]; cbn; try done. unfold then_with.
    destruct (x ?= y) eqn:E; try done. apply cmp_eq in E as ->. intros H. by rewrite (IH b H).
  - induction a as [|x a IH]; intros [|y b]; cbn; try done. unfold then_with.
    rewrite (cmp_opp N.compare x y). destruct (x ?= y); cbn; done || apply IH.
  - induction a as [|x a IH]; intros [|y b] [|z c]; cbn; try done. unfold then_with.
    destruct (x ?= y) eqn:E1, (y ?= z) eqn:E2; try done; intros H1 H2.
    + apply cmp_eq in E1 as ->. rewrite E2. by eapply IH.
    + apply cmp_eq in E1 as ->. by rewrite E2.
    + apply cmp_eq in E2 as ->. by rewrite E1.
    + by rewrite (cmp_lt_trans x y z).
Qed.

Definition obligation_key (o : Obligation) : Address * (Address * (Asset * N)) :=
  (ob_debtor o, (ob_creditor o, (ob_asset o, ob_amount o))).

#[global] Instance obligation_cmp_lawful : LawfulCmp obligation_cmp.
Proof.
  pose proof (pair_cmp_lawful bytes_cmp N.compare _ _) as L1.
  pose proof (pair_cmp_lawful N.compare _ _ L1) as L2. pose proof (pair_cmp_lawful N.compare _ _ L2) as L3.
  assert (forall a b, obligation_cmp a b = pair_cmp N.compare (pair_cmp N.compare (pair_cmp bytes_cmp N.compare))
    (obligation_key a) (obligation_key b)) as E by done.
  split; intros; rewrite !E in *.
  - apply cmp_eq in H. destruct a, b. unfold obligation_key in H. cbn in H. congruence.
  - exact (cmp_opp _ _ _).
  - by eapply cmp_lt_trans.
Qed.

Lemma sort_obligations_perm obs obs' : obs ≡ₚ obs' -> sort_obligations obs = sort_obligations obs'.
Proof.
  intros H. unfold sort_obligations. apply (Sorted_unique (cmp_le obligation_cmp)).
  - apply Sorted_merge_sort. apply _.
  - apply Sorted_merge_sort. apply _.
  - by rewrite !merge_sort_Permutation.
Qed.

(** ** Flows

    Obligations and instructions move an amount of an asset from one party to
    another; [credit] and [debit] are what a party of an asset receives and
    gives in a list of them. *)

Record Flow := mkFlow {
  fl_asset : Asset;
  fl_from : Address;
  fl_to : Address;
  fl_amount : N;
}.

Definition ob_flow (o : Obligation) : Flow := mkFlow (ob_asset o) (ob_debtor o) (ob_creditor o) (ob_amount o).
Definition in_flow (i : SettlementInstruction) : Flow := mkFlow (in_asset i) (in_from i) (in_to i) (in_amount i).

Definition when (b : bool) (n : N) : N := if b then n else 0.

Definition credit (l : list Flow) (k : Asset * Address) : N :=
  nsum ((fun f => when (bool_decide ((fl_asset f, fl_to f) = k)) (fl_amount f)) <$> l).
Definition debit (l : list Flow) (k : Asset * Address) : N :=
  nsum ((fun f => when (bool_decide ((fl_asset f, fl_from f) = k)) (fl_amount f)) <$> l).
Definition volume (l : list Flow) : N := nsum (fl_amount <$> l).

Lemma credit_cons f l k :
  credit (f :: l) k = when (bool_decide ((fl_asset f, fl_to f) = k)) (fl_amount f) + credit l k.
Proof. done. Qed.

Lemma debit_cons f l k :
  debit (f :: l) k = when (bool_decide ((fl_asset f, fl_from f) = k)) (fl_amount f) + debit l k.
Proof. done. Qed.

Lemma volume_cons f l : volume (f :: l) = fl_amount f + volume l.
Proof. done. Qed.

Lemma credit_app l l' k : credit (l ++ l') k = credit l k + credit l' k.
Proof. unfold credit. by rewrite fmap_app, nsum_app. Qed.

Lemma debit_app l l' k : debit (l ++ l') k = debit l k + debit l' k.
Proof. unfold debit. by rewrite fmap_app, nsum_app. Qed.

Lemma flow_sums_le l k : credit l k <= volume l /\ debit l k <= volume l.
Proof.
  induction l as [|f l IH]; [done|]. rewrite credit_cons, debit_cons, volume_cons. unfold when.
  destruct (bool_decide _), (bool_decide _); lia.
Qed.

(** The positions of a list of flows, as both loops compute them. *)
Fixpoint positions_from (m : PositionMap) (l : list Flow) : result SettlementError PositionMap :=
  match l with
  | [] => Ok m
  | f :: l => let? m := accumulate m (fl_asset f) (fl_from f) (fl_to f) (fl_amount f) in positions_from m l
  end.

Lemma net_positions_flows obs : net_positions obs = positions_from ∅ (ob_flow <$> obs).
Proof.
  unfold net_positions. generalize (∅ : PositionMap). induction obs as [|o obs IH]; intros m; [done|].
  cbn. destruct (accumulate _ _ _ _ _); [apply IH|done].
Qed.

Lemma instruction_positions_flows ins : instruction_positions ins = positions_from ∅ (in_flow <$> ins).
Proof.
  unfold instruction_positions. generalize (∅ : PositionMap). induction ins as [|o ins IH]; intros m; [done|].
  cbn. destruct (accumulate _ _ _ _ _); [apply IH|done].
Qed.

Lemma accumulate_spec m f m' :
  accumulate m (fl_asset f) (fl_from f) (fl_to f) (fl_amount f) = Ok m' ->
  forall k, default (0, 0) (m' !! k) =
    ((default (0, 0) (m !! k)).1 + when (bool_decide ((fl_asset f, fl_to f) = k)) (fl_amount f),
     (default (0, 0) (m !! k)).2 + when (bool_decide ((fl_asset f, fl_from f) = k)) (fl_amount f)).
Proof.
  unfold accumulate. set (kd := (fl_asset f, fl_from f)). set (kc := (fl_asset f, fl_to f)).
  unfold checked_add128. intros H. inv_ok. repeat case_match; simplify_eq. intros k. unfold when.
  destruct (decide (kc = k)) as [<-|Hc].
  - rewrite lookup_insert_eq, (bool_decide_eq_true_2 (kc = kc)) by done. cbn.
    destruct (decide (kd = kc)) as [->|Hd].
    + rewrite bool_decide_eq_true_2, lookup_insert_eq by done. done.
    + rewrite bool_decide_eq_false_2, lookup_insert_ne by done. by rewrite N.add_0_r.
  - rewrite lookup_insert_ne, (bool_decide_eq_false_2 (kc = k)) by done. rewrite N.add_0_r.
    destruct (decide (kd = k)) as [<-|Hd].
    + by rewrite lookup_insert_eq, bool_decide_eq_true_2 by done.
    + rewrite lookup_insert_ne, bool_decide_eq_false_2, N.add_0_r by done. apply surjective_pairing.
Qed.

Lemma positions_spec l m m' :
  positions_from m l = Ok m' ->
  forall k, default (0, 0) (m' !! k) =
    ((default (0, 0) (m !! k)).1 + credit l k, (default (0, 0) (m !! k)).2 + debit l k).
Proof.
  revert m. induction l as [|f l IH]; intros m H k; cbn [positions_from] in H.
  - injection H as ->. cbn. rewrite !N.add_0_r. apply surjective_pairing.
  - apply rbind_ok in H as (m1 & H1 & H2). rewrite (IH m1 H2 k), (accumulate_spec _ _ _ H1 k).
    rewrite credit_cons, debit_cons. cbn. by rewrite !N.add_assoc.
Qed.

Lemma positions_ok l m :
  (forall k, (default (0, 0) (m !! k)).1 + volume l <= U128_MAX /\ (default (0, 0) (m !! k)).2 + volume l <= U128_MAX) ->
  exists m', positions_from m l = Ok m'.
Proof.
  revert m. induction l as [|f l IH]; intros m H; cbn [positions_from]; [eauto|].
  rewrite volume_cons in H.
  assert (exists m1, accumulate m (fl_asset f) (fl_from f) (fl_to f) (fl_amount f) = Ok m1) as [m1 E].
  { unfold accumulate, checked_add128. set (kd := (fl_asset f, fl_from f)). set (kc := (fl_asset f, fl_to f)).
    destruct (H kd) as [_ H1], (H kc) as [H2 _]. rewrite (proj2 (N.leb_le _ _)) by lia. cbn [ok_or rbind].
    destruct (decide (kd = kc)) as [E|E].
    - rewrite E, lookup_insert_eq in *. cbn. rewrite (proj2 (N.leb_le _ _)) by lia. cbn. eauto.
    - rewrite lookup_insert_ne by done. rewrite (proj2 (N.leb_le _ _)) by lia. cbn. eauto. }
  rewrite E. cbn [rbind]. apply IH. intros k. rewrite (accumulate_spec _ _ _ E k). cbn. unfold when.
  specialize (H k). destruct (bool_decide _), (bool_decide _); lia.
Qed.

Lemma positions_empty l :
  volume l <= U128_MAX -> exists m, positions_from ∅ l = Ok m /\ forall k, default (0, 0) (m !! k) = (credit l k, debit l k).
Proof.
  intros H. destruct (positions_ok l ∅) as [m Hm].
  - intros k. rewrite lookup_empty. cbn. lia.
  - exists m. split; [done|]. intros k. rewrite (positions_spec _ _ _ Hm k), lookup_empty. cbn. done.
Qed.

Lemma reduce_lookup m k : reduce m !! k = net_of (default (0, 0) (m !! k)).
Proof. unfold reduce. rewrite lookup_omap. by destruct (m !! k). Qed.

(** ** Sums over the entries of a map *)

Lemma nsum_zero {A} (f : A -> N) l : (forall x, x ∈ l -> f x = 0) -> nsum (f <$> l) = 0.
Proof.
  induction l as [|x l IH]; intros H; [done|]. rewrite fmap_cons, nsum_cons, (H x) by left.
  rewrite IH; [done|]. intros y Hy. apply H. by right.
Qed.

Lemma nsum_ext {A} (f g : A -> N) l : (forall x, x ∈ l -> f x = g x) -> nsum (f <$> l) = nsum (g <$> l).
Proof.
  induction l as [|x l IH]; intros H; [done|]. rewrite !fmap_cons, !nsum_cons, (H x) by left.
  rewrite IH; [done|]. intros y Hy. apply H. by right.
Qed.

Lemma nsum_add {A} (f g : A -> N) l : nsum ((fun x => f x + g x) <$> l) = nsum (f <$> l) + nsum (g <$> l).
Proof. induction l as [|x l IH]; [done|]. rewrite !fmap_cons, !nsum_cons, IH. lia. Qed.

(** In a list without repetition one element contributes once. *)
Lemma nsum_single {A} `{EqDecision A} (K : list A) k n :
  NoDup K -> k ∈ K -> nsum ((fun x => when (bool_decide (k = x)) n) <$> K) = n.
Proof.
  induction 1 as [|x K Hx Hnd IH]; intros Hk; [by apply elem_of_nil in Hk|].
  rewrite fmap_cons, nsum_cons. apply elem_of_cons in Hk as [->|Hk].
  - rewrite bool_decide_eq_true_2 by done. cbn [when]. rewrite nsum_zero; [lia|].
    intros y Hy. rewrite bool_decide_eq_false_2; [done|]. by intros ->.
  - rewrite bool_decide_eq_false_2 by (by intros ->). cbn [when]. by rewrite IH.
Qed.

(** Summing the entries of a map is summing over any keys that include its own. *)
Lemma nsum_map_keys {K A} `{Countable K} (g : K -> A -> N) (m : gmap K A) keys :
  NoDup keys -> (forall k, is_Some (m !! k) -> k ∈ keys) ->
  nsum ((fun e => g e.1 e.2) <$> map_to_list m) =
  nsum ((fun k => from_option (g k) 0 (m !! k)) <$> keys).
Proof.
  intros Hnd. revert m. induction Hnd as [|k keys Hk Hnd IH]; intros m Hm.
  - assert (m = ∅) as ->; [|by rewrite map_to_list_empty].
    apply map_eq. intros k. rewrite lookup_empty. apply eq_None_not_Some. intros Hs. by apply Hm, elem_of_nil in Hs.
  - rewrite fmap_cons, nsum_cons.
    assert (nsum ((fun k => from_option (g k) 0 (m !! k)) <$> keys) =
            nsum ((fun k0 => from_option (g k0) 0 (delete k m !! k0)) <$> keys)) as ->.
    { apply nsum_ext. intros x Hx. rewrite lookup_delete_ne; [done|]. by intros ->. }
    rewrite <-IH.
    + destruct (m !! k) as [v|] eqn:E; cbn [from_option].
      * rewrite <-(nsum_perm _ _ (fmap_Permutation (fun e => g e.1 e.2) _ _ (map_to_list_delete m k v E))).
        by rewrite fmap_cons, nsum_cons.
      * by rewrite delete_id by done.
    + intros x Hx. destruct (decide (x = k)) as [->|Hne]; [by rewrite lookup_delete_eq in Hx; destruct Hx|].
      rewrite lookup_delete_ne in Hx by done. apply Hm in Hx. by apply elem_of_cons in Hx as [?|?].
Qed.

(** ** What the matching pays *)

(** The amount of a party on one side. *)
Definition amt (l : list (Address * N)) (p : Address) : N :=
  nsum ((fun x => when (bool_decide (x.1 = p)) x.2) <$> l).

Lemma amt_perm l l' p : l ≡ₚ l' -> amt l p = amt l' p.
Proof. intros H. by apply nsum_perm, fmap_Permutation. Qed.

Lemma amt_cons x l p : amt (x :: l) p = when (bool_decide (x.1 = p)) x.2 + amt l p.
Proof. done. Qed.

Lemma retain_sum l : nsum (retain_positive l).*2 = nsum l.*2.
Proof.
  unfold retain_positive. induction l as [|x l IH]; [done|]. rewrite filter_cons. rewrite fmap_cons, nsum_cons.
  case_decide; [rewrite fmap_cons, nsum_cons|]; lia.
Qed.

Lemma retain_amt l p : amt (retain_positive l) p = amt l p.
Proof.
  unfold retain_positive. induction l as [|x l IH]; [done|]. rewrite filter_cons. rewrite amt_cons.
  case_decide; [rewrite amt_cons; lia|]. unfold when. destruct (bool_decide _); lia.
Qed.

Lemma retain_all l : Forall (fun x : Address * N => 0 < x.2) l -> retain_positive l = l.
Proof.
  unfold retain_positive. induction 1 as [|x l Hx Hl IH]; [done|]. by rewrite filter_cons_True, IH.
Qed.

Lemma retain_length x l :
  Forall (fun x : Address * N => 0 < x.2) l ->
  length (retain_positive (x :: l)) = if decide (0 < x.2) then S (length l) else length l.
Proof.
  intros H. unfold retain_positive. rewrite filter_cons. fold (retain_positive l). rewrite retain_all by done. by case_decide.
Qed.

Lemma retain_positive_all l : Forall (fun x : Address * N => 0 < x.2) (retain_positive l).
Proof. apply Forall_forall. by intros x [? _]%list_elem_of_filter. Qed.

Lemma positive_sum_nil l : Forall (fun x : Address * N => 0 < x.2) l -> nsum l.*2 = 0 -> l = [].
Proof. destruct 1; [done|]. rewrite fmap_cons, nsum_cons. lia. Qed.

(** The instructions the matching appends: of its asset, positive, from a debtor
    to a creditor, and paying every debt and every credit in full. *)
Record Matched (asset : Asset) (ds cs : list (Address * N)) (new : list SettlementInstruction) : Prop := {
  mt_each : Forall (fun i => in_asset i = asset /\ 0 < in_amount i /\ in_from i ∈ ds.*1 /\ in_to i ∈ cs.*1) new;
  mt_paid : forall a p, debit (in_flow <$> new) (a, p) = when (bool_decide (a = asset)) (amt ds p);
  mt_received : forall a p, credit (in_flow <$> new) (a, p) = when (bool_decide (a = asset)) (amt cs p);
  mt_volume : volume (in_flow <$> new) = nsum ds.*2;
  mt_length : (length new <= length ds + length cs - 1)%nat;
}.

Lemma retain_cons_fst x l y : y ∈ (retain_positive (x :: l)).*1 -> y ∈ (x :: l).*1.
Proof. intros (z & -> & [_ Hz]%list_elem_of_filter)%list_elem_of_fmap. by apply list_elem_of_fmap_2. Qed.

Lemma matched_perm asset ds ds' cs cs' new :
  ds ≡ₚ ds' -> cs ≡ₚ cs' -> Matched asset ds cs new -> Matched asset ds' cs' new.
Proof.
  intros Hd Hc [He Hp Hr Hv Hl]. split.
  - eapply Forall_impl; [exact He|]. intros i (? & ? & H1 & H2).
    rewrite (fmap_Permutation fst _ _ Hd) in H1. by rewrite (fmap_Permutation fst _ _ Hc) in H2.
  - intros a p. by rewrite <-(amt_perm _ _ p Hd).
  - intros a p. by rewrite <-(amt_perm _ _ p Hc).
  - by rewrite <-(nsum_perm _ _ (fmap_Permutation snd _ _ Hd)).
  - by rewrite <-Hd, <-Hc.
Qed.

(** One pass: the pair at the front is matched, then the rest. *)
Lemma matched_step asset d owes ds c owed cs m new :
  m = N.min owes owed -> 0 < m ->
  Forall (fun x : Address * N => 0 < x.2) ds -> Forall (fun x : Address * N => 0 < x.2) cs ->
  nsum (((d, owes) :: ds).*2) = nsum (((c, owed) :: cs).*2) ->
  Matched asset (retain_positive ((d, owes - m) :: ds)) (retain_positive ((c, owed - m) :: cs)) new ->
  Matched asset ((d, owes) :: ds) ((c, owed) :: cs) (mkInstruction d c asset m :: new).
Proof.
  intros Hm Hm0 Hds Hcs Hs [He Hp Hr Hv Hl]. rewrite !fmap_cons, !nsum_cons in Hs. cbn [snd] in Hs. split.
  - constructor; [cbn; split_and!; [done|done|left|left]|].
    eapply Forall_impl; [exact He|]. intros i (? & ? & H1%retain_cons_fst & H2%retain_cons_fst). done.
  - intros a p. rewrite fmap_cons, debit_cons, Hp, retain_amt, !amt_cons. cbn.
    unfold when. destruct (decide (a = asset)) as [->|Ha].
    + rewrite (bool_decide_eq_true_2 (asset = asset)) by done.
      rewrite (bool_decide_ext ((asset, d) = (asset, p)) (d = p)) by naive_solver. destruct (bool_decide _); lia.
    + rewrite !bool_decide_eq_false_2 by congruence. lia.
  - intros a p. rewrite fmap_cons, credit_cons, Hr, retain_amt, !amt_cons. cbn.
    unfold when. destruct (decide (a = asset)) as [->|Ha].
    + rewrite (bool_decide_eq_true_2 (asset = asset)) by done.
      rewrite (bool_decide_ext ((asset, c) = (asset, p)) (c = p)) by naive_solver. destruct (bool_decide _); lia.
    + rewrite !bool_decide_eq_false_2 by congruence. lia.
  - rewrite fmap_cons, volume_cons, Hv, retain_sum, !fmap_cons, !nsum_cons. cbn. lia.
  - rewrite !retain_length in Hl by done. cbn [snd] in Hl. cbn [length].
    destruct (decide (0 < owes - m)), (decide (0 < owed - m)); [lia..|].
    destruct ds as [|x ds]; [|cbn [length] in *; lia]. destruct new as [|i new]; [cbn; lia|].
    exfalso. apply Forall_cons in He as [(_ & _ & Hin & _) _]. unfold retain_positive in Hin.
    rewrite filter_cons_False in Hin by (cbn; lia). by apply elem_of_nil in Hin.
Qed.

Lemma match_loop_spec fuel asset ds cs ins net :
  (length ds + length cs <= fuel)%nat ->
  Forall (fun x : Address * N => 0 < x.2) ds -> Forall (fun x : Address * N => 0 < x.2) cs ->
  nsum ds.*2 = nsum cs.*2 -> net + nsum ds.*2 <= U128_MAX ->
  exists new, match_loop fuel asset ds cs ins net = Ok ([], [], ins ++ new, net + nsum ds.*2) /\ Matched asset ds cs new.
Proof.
  revert ds cs ins net. induction fuel as [|fuel IH]; intros ds cs ins net Hf Hds Hcs Hs Hn.
  all: assert (ds = [] -> cs = [] -> exists new, Ok (ds, cs, ins, net) = (Ok ([], [], ins ++ new, net + nsum ds.*2)
    : result SettlementError _) /\ Matched asset ds cs new) as Hstop.
  1,3: intros -> ->; exists []; rewrite app_nil_r, N.add_0_r; split; [done|]; split; try done;
    intros; cbn; unfold when; by destruct (bool_decide _).
  { destruct ds, cs; cbn in Hf; try lia. by apply Hstop. }
  destruct ds as [|d0 ds0].
  { cbn [match_loop]. apply Hstop; [done|]. apply positive_sum_nil; [done|]. by rewrite <-Hs. }
  destruct cs as [|c0 cs0].
  { cbn [match_loop]. exfalso. by apply positive_sum_nil in Hs. }
  cbn [match_loop]. clear Hstop.
  pose proof (merge_sort_Permutation (cmp_le party_cmp) (d0 :: ds0)) as Pd.
  pose proof (merge_sort_Permutation (cmp_le party_cmp) (c0 :: cs0)) as Pc.
  destruct (merge_sort _ (d0 :: ds0)) as [|[d owes] ds]; [by apply Permutation_nil_l in Pd|].
  destruct (merge_sort _ (c0 :: cs0)) as [|[c owed] cs]; [by apply Permutation_nil_l in Pc|].
  rewrite <-Pd in Hds. rewrite <-Pc in Hcs. apply Forall_cons in Hds as [Hd Hds], Hcs as [Hc Hcs]. cbn in Hd, Hc.
  assert (nsum (((d, owes) :: ds).*2) = nsum (d0 :: ds0).*2) as Sd by (by apply nsum_perm, fmap_Permutation).
  assert (nsum (((c, owed) :: cs).*2) = nsum (c0 :: cs0).*2) as Sc by (by apply nsum_perm, fmap_Permutation).
  apply Permutation_length in Pd as Ld. apply Permutation_length in Pc as Lc. cbn [length] in Ld, Lc, Hf.
  set (m := N.min owes owed). assert (m <= nsum (d0 :: ds0).*2) as Hm.
  { rewrite <-Sd, fmap_cons, nsum_cons. cbn. lia. }
  unfold checked_add128. rewrite (proj2 (N.leb_le _ _)) by lia. cbn [ok_or rbind].
  assert (nsum (retain_positive ((d, owes - m) :: ds)).*2 = nsum (d0 :: ds0).*2 - m) as Rd.
  { rewrite retain_sum, <-Sd, !fmap_cons, !nsum_cons. cbn. lia. }
  assert (nsum (retain_positive ((c, owed - m) :: cs)).*2 = nsum (d0 :: ds0).*2 - m) as Rc.
  { rewrite Hs, retain_sum, <-Sc, !fmap_cons, !nsum_cons. cbn. lia. }
  destruct (IH (retain_positive ((d, owes - m) :: ds)) (retain_positive ((c, owed - m) :: cs))
    (ins ++ [mkInstruction d c asset m]) (net + m)) as (new & E & Hnew).
  - rewrite !retain_length by done. cbn [snd]. unfold m. repeat case_decide; lia.
  - apply retain_positive_all.
  - apply retain_positive_all.
  - by rewrite Rd, Rc.
  - lia.
  - exists (mkInstruction d c asset m :: new). rewrite E. split.
    + f_equal. f_equal; [f_equal; by rewrite <-app_assoc|lia].
    + apply (matched_perm asset _ _ _ _ _ Pd Pc). apply matched_step; try done; [lia|]. by rewrite Sd, Sc.
Qed.

(** ** Grouping by asset *)

Abbreviation NetEntry := ((Asset * Address) * (bool * N))%type (only parsing).

Definition debtors_of (es : list NetEntry) (a : Asset) : list (Address * N) :=
  omap (fun e => if bool_decide (e.1.1 = a) && negb e.2.1 then Some (e.1.2, e.2.2) else None) es.
Definition creditors_of (es : list NetEntry) (a : Asset) : list (Address * N) :=
  omap (fun e => if bool_decide (e.1.1 = a) && e.2.1 then Some (e.1.2, e.2.2) else None) es.

Lemma omap_snoc {A B} (f : A -> option B) l x : omap f (l ++ [x]) = omap f l ++ omap f [x].
Proof. by rewrite omap_app. Qed.

Lemma group_spec es a :
  default ([], []) (foldl group_entry ∅ es !! a) = (debtors_of es a, creditors_of es a).
Proof.
  induction es as [|[[b p] [cr n]] es IH] using rev_ind; [done|].
  rewrite foldl_app. cbn [foldl]. unfold group_entry at 1, debtors_of, creditors_of. rewrite !omap_snoc. cbn.
  fold (debtors_of es a) (creditors_of es a). set (m := foldl group_entry ∅ es) in *.
  destruct (decide (b = a)) as [->|Hb].
  - rewrite bool_decide_eq_true_2 by done. rewrite IH. destruct cr; cbn; rewrite lookup_insert_eq, app_nil_r; done.
  - rewrite bool_decide_eq_false_2 by done. cbn. rewrite !app_nil_r.
    destruct (default ([], []) (m !! b)). destruct cr; by rewrite lookup_insert_ne.
Qed.

Lemma amt_debtors es a p :
  amt (debtors_of es a) p =
  nsum ((fun e : NetEntry => when (bool_decide ((a, p) = e.1)) (if e.2.1 then 0 else e.2.2)) <$> es).
Proof.
  unfold debtors_of. induction es as [|[[b q] [cr n]] es IH]; [done|]. cbn [omap list_omap fst snd].
  rewrite fmap_cons, nsum_cons, <-IH. cbn [fst snd]. destruct (decide (b = a)) as [->|Hb].
  - rewrite (bool_decide_eq_true_2 (a = a)) by done. rewrite (bool_decide_ext ((a, p) = (a, q)) (q = p)) by naive_solver.
    destruct cr; cbn [andb negb]; [unfold when; by destruct (bool_decide _)|done].
  - rewrite !bool_decide_eq_false_2 by congruence. done.
Qed.

Lemma amt_creditors es a p :
  amt (creditors_of es a) p =
  nsum ((fun e : NetEntry => when (bool_decide ((a, p) = e.1)) (if e.2.1 then e.2.2 else 0)) <$> es).
Proof.
  unfold creditors_of. induction es as [|[[b q] [cr n]] es IH]; [done|]. cbn [omap list_omap fst snd].
  rewrite fmap_cons, nsum_cons, <-IH. cbn [fst snd]. destruct (decide (b = a)) as [->|Hb].
  - rewrite (bool_decide_eq_true_2 (a = a)) by done. rewrite (bool_decide_ext ((a, p) = (a, q)) (q = p)) by naive_solver.
    destruct cr; cbn [andb negb]; [done|unfold when; by destruct (bool_decide _)].
  - rewrite !bool_decide_eq_false_2 by congruence. done.
Qed.

Lemma nsum_single_le {A} `{EqDecision A} (K : list A) k n :
  NoDup K -> nsum ((fun x => when (bool_decide (k = x)) n) <$> K) <= n.
Proof.
  intros Hnd. destruct (decide (k ∈ K)) as [Hk|Hk]; [by rewrite nsum_single|].
  rewrite nsum_zero; [lia|]. intros x Hx. rewrite bool_decide_eq_false_2; [done|]. by intros ->.
Qed.

(** Every entry is on one side of one asset. *)
Lemma sides_length (es : list NetEntry) A :
  NoDup A -> nsum ((fun a => N.of_nat (length (debtors_of es a) + length (creditors_of es a))) <$> A) <= N.of_nat (length es).
Proof.
  intros Hnd. induction es as [|e es IH]; [rewrite nsum_zero; done|].
  rewrite (nsum_ext _ (fun a => when (bool_decide (e.1.1 = a)) 1 + N.of_nat (length (debtors_of es a) + length (creditors_of es a)))).
  - rewrite nsum_add. pose proof (nsum_single_le A e.1.1 1 Hnd). cbn [length]. lia.
  - intros a _. unfold debtors_of, creditors_of. cbn [omap list_omap]. destruct (bool_decide (e.1.1 = a)), e.2.1;
      cbn [andb negb when length]; lia.
Qed.

Definition debt_in (a : Asset) (k : Asset * Address) (v : bool * N) : N :=
  when (bool_decide (k.1 = a)) (if v.1 then 0 else v.2).
Definition credit_in (a : Asset) (k : Asset * Address) (v : bool * N) : N :=
  when (bool_decide (k.1 = a)) (if v.1 then v.2 else 0).

Lemma sum_debtors es a :
  nsum (debtors_of es a).*2 =
  nsum ((fun e : NetEntry => debt_in a e.1 e.2) <$> es).
Proof.
  unfold debtors_of, debt_in. induction es as [|[[b q] [cr n]] es IH]; [done|]. cbn [omap list_omap fst snd].
  rewrite fmap_cons, nsum_cons, <-IH. cbn [fst snd]. by destruct (bool_decide (b = a)), cr.
Qed.

Lemma sum_creditors es a :
  nsum (creditors_of es a).*2 =
  nsum ((fun e : NetEntry => credit_in a e.1 e.2) <$> es).
Proof.
  unfold creditors_of, credit_in. induction es as [|[[b q] [cr n]] es IH]; [done|]. cbn [omap list_omap fst snd].
  rewrite fmap_cons, nsum_cons, <-IH. cbn [fst snd]. by destruct (bool_decide (b = a)), cr.
Qed.

Lemma in_order_perm {K A} `{Countable K} (cmp : K -> K -> comparison) (m : gmap K A) : in_order cmp m ≡ₚ map_to_list m.
Proof. apply merge_sort_Permutation. Qed.

(** The one entry of a key. *)
Lemma nsum_map_single {K A} `{Countable K} (h : A -> N) (m : gmap K A) k :
  nsum ((fun e => when (bool_decide (k = e.1)) (h e.2)) <$> map_to_list m) = from_option h 0 (m !! k).
Proof.
  set (keys := elements ({[k]} ∪ dom m : gset K)).
  transitivity (nsum ((fun x => from_option (fun v => when (bool_decide (k = x)) (h v)) 0 (m !! x)) <$> keys)).
  - pose (g := fun (x : K) (v : A) => when (bool_decide (k = x)) (h v)).
    apply (nsum_map_keys g m keys); [apply NoDup_elements|].
    intros x Hx. apply elem_of_elements, elem_of_union. right. by apply elem_of_dom.
  - rewrite <-(nsum_single keys k (from_option h 0 (m !! k))); [|apply NoDup_elements|unfold keys; set_solver].
    apply nsum_ext. intros x _. destruct (decide (k = x)) as [->|Hne].
    + rewrite bool_decide_eq_true_2 by done. by destruct (m !! x).
    + rewrite bool_decide_eq_false_2 by done. by destruct (m !! x).
Qed.

(** Every entry belongs to one asset. *)
Lemma debt_over_assets (es : list NetEntry) A :
  NoDup A -> (forall e, e ∈ es -> e.1.1 ∈ A) ->
  nsum ((fun a => nsum (debtors_of es a).*2) <$> A) = nsum ((fun e : NetEntry => if e.2.1 then 0 else e.2.2) <$> es).
Proof.
  intros Hnd. induction es as [|e es IH]; intros HA.
  - rewrite nsum_zero; [done|]. done.
  - rewrite fmap_cons, nsum_cons, <-IH by (intros; apply HA; by right).
    rewrite <-(nsum_single A e.1.1 (if e.2.1 then 0 else e.2.2)), <-nsum_add by (done || apply HA; left).
    apply nsum_ext. intros a _. rewrite !sum_debtors, fmap_cons, nsum_cons. done.
Qed.

(** ** All assets *)

(** The instructions of the groups, each settled in its own asset. *)
Record Settled (groups : list (Asset * (list (Address * N) * list (Address * N)))) (new : list SettlementInstruction)
  : Prop := {
  sd_each : Forall (fun i => 0 < in_amount i /\
    exists ds cs, (in_asset i, (ds, cs)) ∈ groups /\ in_from i ∈ ds.*1 /\ in_to i ∈ cs.*1) new;
  sd_paid : forall a p, debit (in_flow <$> new) (a, p) =
    nsum ((fun g => when (bool_decide (a = g.1)) (amt g.2.1 p)) <$> groups);
  sd_received : forall a p, credit (in_flow <$> new) (a, p) =
    nsum ((fun g => when (bool_decide (a = g.1)) (amt g.2.2 p)) <$> groups);
  sd_volume : volume (in_flow <$> new) = nsum ((fun g => nsum g.2.1.*2) <$> groups);
  sd_length : (length new <= sum_list_with (fun g => length g.2.1 + length g.2.2 - 1) groups)%nat;
}.

Definition balanced_group (g : Asset * (list (Address * N) * list (Address * N))) : Prop :=
  nsum g.2.1.*2 = nsum g.2.2.*2 /\
  Forall (fun x => 0 < x.2) g.2.1 /\ Forall (fun x => 0 < x.2) g.2.2.

Lemma settle_assets_spec groups ins net :
  Forall balanced_group groups -> net + nsum ((fun g => nsum g.2.1.*2) <$> groups) <= U128_MAX ->
  exists new, settle_assets groups ins net = Ok (ins ++ new, net + nsum ((fun g => nsum g.2.1.*2) <$> groups)) /\
    Settled groups new.
Proof.
  intros Hb. revert ins net. induction Hb as [|[a [ds cs]] groups (H1 & H2 & H3) Hb IH]; intros ins net Hn.
  - exists []. rewrite app_nil_r, N.add_0_r. by split; [|split].
  - rewrite fmap_cons, nsum_cons in Hn |- *. cbn [fst snd] in *. cbn [settle_assets].
    destruct (match_loop_spec (length ds + length cs) a ds cs ins net) as (new & -> & Hm); [lia|done..|lia|].
    cbn [rbind]. destruct (IH (ins ++ new) (net + nsum ds.*2)) as (new' & -> & Hs); [lia|].
    exists (new ++ new'). split; [f_equal; f_equal; [by rewrite app_assoc|lia]|].
    destruct Hm as [E1 E2 E3 E4 E5], Hs as [S1 S2 S3 S4 S5]. split.
    + apply Forall_app. split.
      * eapply Forall_impl; [exact E1|]. intros i (-> & Hi & Hf & Ht). split; [done|]. exists ds, cs. split; [left|done].
      * eapply Forall_impl; [exact S1|]. intros i (Hi & ds' & cs' & Hin & ?). split; [done|].
        exists ds', cs'. split; [by right|done].
    + intros b p. by rewrite fmap_app, debit_app, fmap_cons, nsum_cons, E2, S2.
    + intros b p. by rewrite fmap_app, credit_app, fmap_cons, nsum_cons, E3, S3.
    + unfold volume in *. by rewrite !fmap_app, nsum_app, E4, S4, fmap_cons, nsum_cons.
    + rewrite length_app. cbn. lia.
Qed.

(** ** The positions of a list of flows balance *)

(** What is owed over distinct keys is at most what was moved. *)
Lemma debit_sum_le l K : NoDup K -> nsum (debit l <$> K) <= volume l.
Proof.
  intros Hnd. induction l as [|f l IH].
  - rewrite nsum_zero; [done|]. done.
  - rewrite (nsum_ext (debit (f :: l)) (fun k => when (bool_decide ((fl_asset f, fl_from f) = k)) (fl_amount f) + debit l k))
      by (intros; apply debit_cons).
    rewrite nsum_add, volume_cons. pose proof (nsum_single_le K (fl_asset f, fl_from f) (fl_amount f) Hnd). lia.
Qed.

(** The parties of a list of flows. *)
Definition touched (l : list Flow) : list (Asset * Address) :=
  elements (list_to_set (((fun f => (fl_asset f, fl_from f)) <$> l) ++ ((fun f => (fl_asset f, fl_to f)) <$> l))
    : gset (Asset * Address)).

Lemma touched_nodup l : NoDup (touched l).
Proof. unfold touched. apply NoDup_elements. Qed.

Lemma touched_flow l f : f ∈ l -> (fl_asset f, fl_from f) ∈ touched l /\ (fl_asset f, fl_to f) ∈ touched l.
Proof.
  intros Hf. unfold touched. rewrite !elem_of_elements, !elem_of_list_to_set, !elem_of_app.
  split; [left|right]; apply list_elem_of_fmap; eauto.
Qed.

Lemma nonzero_touched l k : credit l k <> 0 \/ debit l k <> 0 -> k ∈ touched l.
Proof.
  intros H. destruct (decide (k ∈ touched l)) as [|Hn]; [done|]. exfalso.
  destruct H as [H|H]; apply H; apply nsum_zero; intros f Hf; destruct (touched_flow l f Hf);
    rewrite bool_decide_eq_false_2; try done; by intros <-.
Qed.

(** Within an asset, what the parties receive and give is what was moved. *)
Lemma asset_sums l K a :
  NoDup K -> (forall f, f ∈ l -> (fl_asset f, fl_from f) ∈ K /\ (fl_asset f, fl_to f) ∈ K) ->
  nsum ((fun k : Asset * Address => when (bool_decide (k.1 = a)) (credit l k)) <$> K) =
  nsum ((fun k : Asset * Address => when (bool_decide (k.1 = a)) (debit l k)) <$> K).
Proof.
  intros Hnd. induction l as [|f l IH]; intros HK.
  { apply nsum_ext. intros k _. done. }
  assert (forall (to : bool) (g : Asset * Address -> N) (k0 : Asset * Address), k0 ∈ K -> k0.1 = fl_asset f ->
    nsum ((fun k : Asset * Address => when (bool_decide (k.1 = a)) (when (bool_decide (k0 = k)) (fl_amount f) + g k)) <$> K)
    = when (bool_decide (fl_asset f = a)) (fl_amount f) + nsum ((fun k : Asset * Address => when (bool_decide (k.1 = a)) (g k)) <$> K))
    as Hstep.
  { intros _ g k0 Hk0 E. rewrite <-(nsum_single K k0 (when (bool_decide (fl_asset f = a)) (fl_amount f)) Hnd Hk0), <-nsum_add.
    apply nsum_ext. intros k _. unfold when. destruct (decide (k0 = k)) as [<-|Hne].
    - rewrite (bool_decide_eq_true_2 (k0 = k0)), E by done. destruct (bool_decide _); lia.
    - rewrite (bool_decide_eq_false_2 (k0 = k)) by done. destruct (bool_decide _); lia. }
  destruct (HK f) as [Hf1 Hf2]; [left|].
  rewrite (nsum_ext _ (fun k : Asset * Address => when (bool_decide (k.1 = a))
    (when (bool_decide ((fl_asset f, fl_to f) = k)) (fl_amount f) + credit l k))) by (intros; by rewrite credit_cons).
  rewrite (Hstep true (credit l) _ Hf2 eq_refl).
  rewrite (nsum_ext (fun k : Asset * Address => when (bool_decide (k.1 = a)) (debit (f :: l) k))
    (fun k : Asset * Address => when (bool_decide (k.1 = a))
    (when (bool_decide ((fl_asset f, fl_from f) = k)) (fl_amount f) + debit l k))) by (intros; by rewrite debit_cons).
  rewrite (Hstep true (debit l) _ Hf1 eq_refl). rewrite IH; [done|]. intros g Hg. apply HK. by right.
Qed.

Section netting.
Context (l : list Flow) (m : PositionMap).
Context (Hvol : volume l <= U128_MAX) (Hm : forall k, default (0, 0) (m !! k) = (credit l k, debit l k)).

Let R := reduce m.
Let es := in_order (pair_cmp bytes_cmp N.compare) R.
Let groups := in_order bytes_cmp (per_asset m).

Lemma net_lookup k : R !! k = net_of (credit l k, debit l k).
Proof. unfold R. by rewrite reduce_lookup, Hm. Qed.

Lemma net_debt k : from_option (fun v : bool * N => if v.1 then 0 else v.2) 0 (R !! k) = debit l k - credit l k.
Proof.
  rewrite net_lookup. unfold net_of. destruct (N.ltb_spec (debit l k) (credit l k)); cbn; [lia|].
  destruct (N.ltb_spec (credit l k) (debit l k)); cbn; lia.
Qed.

Lemma net_credit k : from_option (fun v : bool * N => if v.1 then v.2 else 0) 0 (R !! k) = credit l k - debit l k.
Proof.
  rewrite net_lookup. unfold net_of. destruct (N.ltb_spec (debit l k) (credit l k)); cbn; [lia|].
  destruct (N.ltb_spec (credit l k) (debit l k)); cbn; lia.
Qed.

Lemma net_touched k : is_Some (R !! k) -> k ∈ touched l.
Proof.
  rewrite net_lookup. unfold net_of. intros H. apply nonzero_touched.
  destruct (N.ltb_spec (debit l k) (credit l k)); [lia|].
  destruct (N.ltb_spec (credit l k) (debit l k)); [lia|]. by destruct H.
Qed.

(** A sum over the entries of [R] is one over the parties. *)
Lemma net_sum (h : Asset * Address -> bool * N -> N) :
  nsum ((fun e => h e.1 e.2) <$> es) = nsum ((fun k => from_option (h k) 0 (R !! k)) <$> touched l).
Proof.
  rewrite <-(nsum_map_keys h R (touched l) (touched_nodup l) net_touched).
  apply nsum_perm, fmap_Permutation, in_order_perm.
Qed.

Lemma from_option_when (h : bool * N -> N) b (o : option (bool * N)) :
  from_option (fun v => when b (h v)) 0 o = when b (from_option h 0 o).
Proof. by destruct o, b. Qed.

Lemma groups_balance a : nsum (debtors_of es a).*2 = nsum (creditors_of es a).*2.
Proof.
  rewrite sum_debtors, sum_creditors.
  rewrite (net_sum (debt_in a)), (net_sum (credit_in a)).
  pose proof (asset_sums l (touched l) a (touched_nodup l) (touched_flow l)) as Hs.
  rewrite (nsum_ext (fun k => from_option (debt_in a k) 0 (R !! k))
    (fun k : Asset * Address => when (bool_decide (k.1 = a)) (debit l k - credit l k)))
    by (intros; unfold debt_in; by rewrite from_option_when, net_debt).
  rewrite (nsum_ext (fun k => from_option (credit_in a k) 0 (R !! k))
    (fun k : Asset * Address => when (bool_decide (k.1 = a)) (credit l k - debit l k)))
    by (intros; unfold credit_in; by rewrite from_option_when, net_credit).
  assert (nsum ((fun k : Asset * Address => when (bool_decide (k.1 = a)) (debit l k - credit l k)) <$> touched l) +
          nsum ((fun k : Asset * Address => when (bool_decide (k.1 = a)) (credit l k)) <$> touched l) =
          nsum ((fun k : Asset * Address => when (bool_decide (k.1 = a)) (credit l k - debit l k)) <$> touched l) +
          nsum ((fun k : Asset * Address => when (bool_decide (k.1 = a)) (debit l k)) <$> touched l)) as H.
  { rewrite <-!nsum_add. apply nsum_ext. intros k _. unfold when. destruct (bool_decide _); lia. }
  lia.
Qed.

Lemma group_lookup a ds cs : (a, (ds, cs)) ∈ groups -> ds = debtors_of es a /\ cs = creditors_of es a.
Proof.
  unfold groups. rewrite in_order_perm. intros H%elem_of_map_to_list. pose proof (group_spec es a) as Hg.
  unfold per_asset in H. fold R es in H. rewrite H in Hg. cbn in Hg. by injection Hg.
Qed.

(** What one asset's group holds for a party, none if there is no group. *)
Lemma group_side {B} (h : list (Address * N) * list (Address * N) -> B) (z : B) a :
  h ([], []) = z -> from_option h z (per_asset m !! a) = h (debtors_of es a, creditors_of es a).
Proof.
  intros Hz. unfold per_asset. fold R es. rewrite <-(group_spec es a). by destruct (foldl group_entry ∅ es !! a).
Qed.

Lemma entry_positive (e : NetEntry) :
  e ∈ es -> 0 < e.2.2 /\ e.2.2 = (if e.2.1 then credit l e.1 - debit l e.1 else debit l e.1 - credit l e.1).
Proof.
  unfold es. rewrite in_order_perm. destruct e as [k v]. intros H%elem_of_map_to_list. rewrite net_lookup in H.
  unfold net_of in H. destruct (N.ltb_spec (debit l k) (credit l k)); [injection H as <-; cbn; lia|].
  destruct (N.ltb_spec (credit l k) (debit l k)); [injection H as <-; cbn; lia|done].
Qed.

Lemma debtor_entry a x : x ∈ debtors_of es a -> 0 < x.2 /\ x.2 = debit l (a, x.1) - credit l (a, x.1).
Proof.
  intros (e & He & Hx)%list_elem_of_omap. pose proof (entry_positive e He) as [H1 H2]. destruct e as [[b p] [cr n]]. cbn in *.
  destruct (decide (b = a)) as [->|]; [rewrite bool_decide_eq_true_2 in Hx by done|by rewrite bool_decide_eq_false_2 in Hx].
  destruct cr; [done|]. injection Hx as <-. cbn. done.
Qed.

Lemma creditor_entry a x : x ∈ creditors_of es a -> 0 < x.2 /\ x.2 = credit l (a, x.1) - debit l (a, x.1).
Proof.
  intros (e & He & Hx)%list_elem_of_omap. pose proof (entry_positive e He) as [H1 H2]. destruct e as [[b p] [cr n]]. cbn in *.
  destruct (decide (b = a)) as [->|]; [rewrite bool_decide_eq_true_2 in Hx by done|by rewrite bool_decide_eq_false_2 in Hx].
  destruct cr; [|done]. injection Hx as <-. cbn. done.
Qed.

Lemma groups_balanced : Forall balanced_group groups.
Proof.
  apply Forall_forall. intros [a [ds cs]] [-> ->]%group_lookup. unfold balanced_group. cbn [fst snd].
  split_and!; [apply groups_balance|..]; apply Forall_forall; intros x Hx;
    [by apply debtor_entry in Hx as [? _]|by apply creditor_entry in Hx as [? _]].
Qed.

Lemma groups_sum_nodup (h : list (Address * N) * list (Address * N) -> N) a :
  h ([], []) = 0 ->
  nsum ((fun g : Asset * (list (Address * N) * list (Address * N)) => when (bool_decide (a = g.1)) (h g.2)) <$> groups) = h (debtors_of es a, creditors_of es a).
Proof.
  intros Hz. rewrite <-(group_side h 0 a Hz), <-(nsum_map_single h (per_asset m) a).
  apply nsum_perm, fmap_Permutation, in_order_perm.
Qed.

Lemma settled_paid a p :
  nsum ((fun g : Asset * (list (Address * N) * list (Address * N)) => when (bool_decide (a = g.1)) (amt g.2.1 p)) <$> groups) = debit l (a, p) - credit l (a, p).
Proof.
  rewrite (groups_sum_nodup (fun x => amt x.1 p) a) by done. cbn [fst]. rewrite amt_debtors, <-net_debt.
  rewrite <-(nsum_map_single (fun v : bool * N => if v.1 then 0 else v.2) R (a, p)).
  apply nsum_perm, fmap_Permutation, in_order_perm.
Qed.

Lemma settled_received a p :
  nsum ((fun g : Asset * (list (Address * N) * list (Address * N)) => when (bool_decide (a = g.1)) (amt g.2.2 p)) <$> groups) = credit l (a, p) - debit l (a, p).
Proof.
  rewrite (groups_sum_nodup (fun x => amt x.2 p) a) by done. cbn [snd]. rewrite amt_creditors, <-net_credit.
  rewrite <-(nsum_map_single (fun v : bool * N => if v.1 then v.2 else 0) R (a, p)).
  apply nsum_perm, fmap_Permutation, in_order_perm.
Qed.

(** The whole debt, over the parties. *)
Definition net_debts : N := nsum ((fun k => debit l k - credit l k) <$> touched l).

Lemma net_debts_le : net_debts <= volume l.
Proof.
  etrans; [|apply (debit_sum_le l (touched l)), touched_nodup]. unfold net_debts. generalize (touched l).
  induction l0 as [|k K IH]; [done|]. rewrite !fmap_cons, !nsum_cons. lia.
Qed.

Lemma groups_volume : nsum ((fun g => nsum g.2.1.*2) <$> groups) = net_debts.
Proof.
  set (A := elements (dom (per_asset m) ∪ list_to_set ((fun e : NetEntry => e.1.1) <$> es) : gset Asset)).
  transitivity (nsum ((fun a => nsum (debtors_of es a).*2) <$> A)).
  - rewrite (nsum_perm _ _ (fmap_Permutation (fun g => nsum g.2.1.*2) _ _ (in_order_perm bytes_cmp (per_asset m)))).
    rewrite (nsum_map_keys (fun (_ : Asset) x => nsum x.1.*2) (per_asset m) A).
    + apply nsum_ext. intros a _. by rewrite (group_side (fun x => nsum x.1.*2) 0 a).
    + apply NoDup_elements.
    + intros a Ha. apply elem_of_elements, elem_of_union. left. by apply elem_of_dom.
  - rewrite debt_over_assets.
    + rewrite (net_sum (fun _ v => if v.1 then 0 else v.2)). apply nsum_ext. intros k _. apply net_debt.
    + apply NoDup_elements.
    + intros e He. apply elem_of_elements, elem_of_union. right. apply elem_of_list_to_set.
      by apply (list_elem_of_fmap_2 (fun e : NetEntry => e.1.1)).
Qed.

Lemma entries_le : (length es <= 2 * length l)%nat.
Proof.
  unfold es, in_order. rewrite merge_sort_Permutation. rewrite length_map_to_list.
  transitivity (length (touched l)).
  - rewrite <-(size_list_to_set (C := gset (Asset * Address)) (touched l)) by apply touched_nodup.
    rewrite <-(size_dom (D := gset (Asset * Address)) R). apply subseteq_size. intros k Hk%elem_of_dom. apply elem_of_list_to_set. by apply net_touched.
  - assert (touched l ⊆+ ((fun f => (fl_asset f, fl_from f)) <$> l) ++ ((fun f => (fl_asset f, fl_to f)) <$> l)) as H.
    { apply NoDup_submseteq; [apply touched_nodup|]. intros k. unfold touched. by rewrite elem_of_elements, elem_of_list_to_set. }
    apply submseteq_length in H. rewrite length_app, !length_fmap in H. lia.
Qed.

Lemma groups_length :
  (sum_list_with (fun g : Asset * (list (Address * N) * list (Address * N)) => length g.2.1 + length g.2.2 - 1) groups <= length es)%nat.
Proof.
  pose proof (sides_length es groups.*1) as H.
  assert (NoDup groups.*1) as Hnd.
  { unfold groups. rewrite (in_order_perm _ (per_asset m)). apply NoDup_fst_map_to_list. }
  specialize (H Hnd). rewrite <-list_fmap_compose in H.
  assert (forall G, (forall g, g ∈ G -> g ∈ groups) ->
    N.of_nat (sum_list_with (fun g : Asset * (list (Address * N) * list (Address * N)) => length g.2.1 + length g.2.2 - 1)%nat G)
    <= nsum (((fun a => N.of_nat (length (debtors_of es a) + length (creditors_of es a))) ∘ fst) <$> G)) as HG.
  { induction G as [|[a [ds cs]] G IH]; intros HG; [done|]. cbn [sum_list_with fmap list_fmap]. rewrite nsum_cons.
    destruct (group_lookup a ds cs (HG _ ltac:(left))) as [-> ->]. cbn [fst snd compose].
    assert (forall g, g ∈ G -> g ∈ groups) as Hsub by (intros g Hg; apply HG; by right). specialize (IH Hsub). lia. }
  specialize (HG groups (fun _ H => H)). lia.
Qed.

(** The instructions of a list of flows. *)
Record Nets (new : list SettlementInstruction) : Prop := {
  ns_each : Forall (fun i => 0 < in_amount i /\ in_from i <> in_to i) new;
  ns_paid : forall k, debit (in_flow <$> new) k = debit l k - credit l k;
  ns_received : forall k, credit (in_flow <$> new) k = credit l k - debit l k;
  ns_volume : volume (in_flow <$> new) = net_debts;
  ns_length : (length new <= 2 * length l)%nat;
}.

Lemma settle_nets : exists new, settle_assets groups [] 0 = Ok (new, net_debts) /\ Nets new.
Proof.
  destruct (settle_assets_spec groups [] 0) as (new & E & [S1 S2 S3 S4 S5]).
  - apply groups_balanced.
  - rewrite groups_volume. pose proof net_debts_le. lia.
  - exists new. rewrite E, groups_volume. split; [done|]. split.
    + eapply Forall_impl; [exact S1|]. intros i (Hi & ds & cs & [-> ->]%group_lookup & Hf & Ht). split; [done|].
      intros Heq. apply list_elem_of_fmap in Hf as (x & Ex & Hx), Ht as (y & Ey & Hy).
      apply debtor_entry in Hx as [X1 X2]. apply creditor_entry in Hy as [Y1 Y2].
      rewrite <-Ex in X2. rewrite <-Ey, <-Heq in Y2. lia.
    + intros [a p]. by rewrite S2, settled_paid.
    + intros [a p]. by rewrite S3, settled_received.
    + by rewrite S4, groups_volume.
    + pose proof groups_length. pose proof entries_le. lia.
Qed.
End netting.

(** ** The batch *)

Lemma check_obligations_ok obs :
  check_obligations obs = Ok tt <-> Forall (fun o => 0 < ob_amount o /\ ob_debtor o <> ob_creditor o /\ ob_asset o <> []) obs.
Proof.
  induction obs as [|o obs IH]; [by split|]. cbn [check_obligations]. rewrite !guard_ok, IH, Forall_cons.
  rewrite !negb_true_iff, !N.eqb_neq, bool_decide_eq_false. split; intros H; destruct_and?; split_and!; done || lia.
Qed.

Lemma gross_from_spec obs t :
  gross_from t obs = (if t + volume (ob_flow <$> obs) <=? U128_MAX then Ok (t + volume (ob_flow <$> obs)) else Err GrossOverflow)
  \/ U128_MAX < t.
Proof.
  revert t. induction obs as [|o obs IH]; intros t; cbn [gross_from].
  - change (volume (ob_flow <$> [])) with 0. rewrite N.add_0_r. destruct (N.leb_spec t U128_MAX); auto.
  - rewrite fmap_cons, volume_cons. cbn [fl_amount ob_flow]. unfold checked_add128.
    destruct (N.leb_spec (t + ob_amount o) U128_MAX) as [H|H]; cbn [ok_or rbind].
    + destruct (IH (t + ob_amount o)) as [E|E]; [|lia]. left. by rewrite E, N.add_assoc.
    + left. destruct (N.leb_spec (t + (ob_amount o + volume (ob_flow <$> obs))) U128_MAX); [lia|done].
Qed.

Lemma volume_perm l l' : l ≡ₚ l' -> volume l = volume l'.
Proof. intros H. by apply nsum_perm, fmap_Permutation. Qed.

Lemma flows_perm l l' k : l ≡ₚ l' -> credit l k = credit l' k /\ debit l k = debit l' k.
Proof. intros H. split; by apply nsum_perm, fmap_Permutation. Qed.

Lemma sort_perm obs : sort_obligations obs ≡ₚ obs.
Proof. apply merge_sort_Permutation. Qed.

(** Obligations the module accepts. *)
Definition acceptable (obs : list Obligation) : Prop :=
  obs <> [] /\ Forall (fun o => 0 < ob_amount o /\ ob_debtor o <> ob_creditor o /\ ob_asset o <> []) obs /\
  volume (ob_flow <$> obs) <= U128_MAX.

Lemma compute_netting_ok obs :
  acceptable obs -> exists ins,
    compute_netting obs = Ok (sort_obligations obs, ins, volume (ob_flow <$> obs), volume (in_flow <$> ins)) /\
    Nets (ob_flow <$> sort_obligations obs) ins.
Proof.
  intros (Hne & Hf & Hv). unfold compute_netting. rewrite bool_decide_eq_false_2 by done. cbn [negb guard_r rbind].
  rewrite (proj2 (check_obligations_ok obs) Hf). cbn [rbind].
  set (l := ob_flow <$> sort_obligations obs).
  assert (volume l = volume (ob_flow <$> obs)) as Hvl by (apply volume_perm, fmap_Permutation, sort_perm).
  destruct (gross_from_spec (sort_obligations obs) 0) as [->|H]; [|done]. fold l.
  rewrite N.add_0_l, (proj2 (N.leb_le (volume l) U128_MAX)) by lia. cbn [rbind].
  rewrite net_positions_flows. fold l. destruct (positions_empty l) as (m & -> & Hm); [lia|]. cbn [rbind].
  destruct (settle_nets l m) as (new & E & Hn); [lia|done|].
  rewrite E. cbn [rbind fst snd]. exists new. rewrite Hvl. by rewrite (ns_volume _ _ Hn).
Qed.

Lemma compute_netting_err obs : ~ acceptable obs -> exists e, compute_netting obs = Err e.
Proof.
  intros Hna. destruct (compute_netting obs) as [x|e] eqn:E; [|eauto]. exfalso. apply Hna.
  unfold compute_netting in E. rewrite guard_ok, rbind_ok in E. destruct E as (Hne & [] & Hc%check_obligations_ok & E).
  apply rbind_ok in E as (g & Hg & _). split_and!; [|done|].
  - by rewrite negb_true_iff, bool_decide_eq_false in Hne.
  - destruct (gross_from_spec (sort_obligations obs) 0) as [H|H]; [|done]. rewrite H, N.add_0_l in Hg.
    rewrite <-(volume_perm _ _ (fmap_Permutation ob_flow _ _ (sort_perm obs))).
    by destruct (N.leb_spec (volume (ob_flow <$> sort_obligations obs)) U128_MAX).
Qed.

(** Two lists of flows reduce to the same positions exactly when every party's
    net is the same. *)
Lemma reduce_same l l' m m' :
  (forall k, default (0, 0) (m !! k) = (credit l k, debit l k)) ->
  (forall k, default (0, 0) (m' !! k) = (credit l' k, debit l' k)) ->
  reduce m = reduce m' <->
  forall k, (Z.of_N (credit l k) - Z.of_N (debit l k) = Z.of_N (credit l' k) - Z.of_N (debit l' k))%Z.
Proof.
  intros Hm Hm'. split.
  - intros E k. assert (reduce m !! k = reduce m' !! k) as Hk by (by rewrite E). rewrite !reduce_lookup, Hm, Hm' in Hk.
    revert Hk. unfold net_of.
    destruct (N.ltb_spec (debit l k) (credit l k)), (N.ltb_spec (debit l' k) (credit l' k)),
      (N.ltb_spec (credit l k) (debit l k)), (N.ltb_spec (credit l' k) (debit l' k)); intros [=]; lia.
  - intros H. apply map_eq. intros k. rewrite !reduce_lookup, Hm, Hm'. specialize (H k). unfold net_of.
    destruct (N.ltb_spec (debit l k) (credit l k)), (N.ltb_spec (debit l' k) (credit l' k)),
      (N.ltb_spec (credit l k) (debit l k)), (N.ltb_spec (credit l' k) (debit l' k)); try lia; try done;
      f_equal; f_equal; lia.
Qed.

(** The check accepts exactly the instructions that give every party its net. *)
Lemma verify_invariant_spec obs ins :
  volume (ob_flow <$> obs) <= U128_MAX -> volume (in_flow <$> ins) <= U128_MAX ->
  verify_netting_invariant obs ins = Ok tt <->
  forall k, (Z.of_N (credit (ob_flow <$> obs) k) - Z.of_N (debit (ob_flow <$> obs) k) =
             Z.of_N (credit (in_flow <$> ins) k) - Z.of_N (debit (in_flow <$> ins) k))%Z.
Proof.
  intros Ho Hi. unfold verify_netting_invariant. rewrite net_positions_flows, instruction_positions_flows.
  destruct (positions_empty _ Ho) as (m & -> & Hm), (positions_empty _ Hi) as (m' & -> & Hm'). cbn [rbind].
  rewrite guard_ok, bool_decide_eq_true, <-(reduce_same _ _ m m' Hm Hm'). by split; [intros [? _]|].
Qed.

Lemma nets_same obs ins :
  Nets (ob_flow <$> sort_obligations obs) ins ->
  forall k, (Z.of_N (credit (ob_flow <$> obs) k) - Z.of_N (debit (ob_flow <$> obs) k) =
             Z.of_N (credit (in_flow <$> ins) k) - Z.of_N (debit (in_flow <$> ins) k))%Z.
Proof.
  intros [_ Hp Hr _ _] k. destruct (flows_perm _ _ k (fmap_Permutation ob_flow _ _ (sort_perm obs))) as [<- <-].
  rewrite Hp, Hr. lia.
Qed.

Lemma net_debts_least l l' :
  (forall k, (Z.of_N (credit l k) - Z.of_N (debit l k) = Z.of_N (credit l' k) - Z.of_N (debit l' k))%Z) ->
  net_debts l <= volume l'.
Proof.
  intros H. etrans; [|apply (debit_sum_le l' (touched l)), touched_nodup]. unfold net_debts.
  generalize (touched l). intros K. induction K as [|k K IH]; [done|]. rewrite !fmap_cons, !nsum_cons. specialize (H k). lia.
Qed.

Section batches.
Context (sha256 : list N -> Digest) (hex : Digest -> list N).

Lemma compute_batch_ok obs :
  acceptable obs -> exists b, compute_batch sha256 hex obs = Ok b /\
    nb_obligations b = sort_obligations obs /\ nb_gross_total b = volume (ob_flow <$> obs) /\
    nb_net_total b = volume (in_flow <$> nb_instructions b) /\
    Nets (ob_flow <$> sort_obligations obs) (nb_instructions b).
Proof.
  intros H. destruct (compute_netting_ok obs H) as (ins & E & Hn). unfold compute_batch. rewrite E. cbn [rbind].
  eexists. split; [reflexivity|]. done.
Qed.

Lemma compute_batch_acceptable obs b : compute_batch sha256 hex obs = Ok b -> acceptable obs.
Proof.
  intros Hb. destruct (decide (acceptable obs)) as [|Hn]; [done|]. exfalso.
  destruct (compute_netting_err obs Hn) as [e E]. unfold compute_batch in Hb. by rewrite E in Hb.
Qed.
End batches.

(** C19: netting settles exactly what was owed. A batch is computed for every list
    of obligations that is not empty, is valid and adds up within 128 bits, and
    for no other; its instructions pass [verify_netting_invariant], each moves a
    positive amount between two parties, none pays and receives in one asset,
    and together they move no more than the gross. *)
Theorem netting_settles sha256 hex obs :
  (is_ok (compute_batch sha256 hex obs) = true <-> acceptable obs) /\
  forall b, compute_batch sha256 hex obs = Ok b ->
    nb_obligations b ≡ₚ obs /\
    verify_netting_invariant (nb_obligations b) (nb_instructions b) = Ok tt /\
    Forall (fun i => 0 < in_amount i /\ in_from i <> in_to i) (nb_instructions b) /\
    (forall k, credit (in_flow <$> nb_instructions b) k = 0 \/ debit (in_flow <$> nb_instructions b) k = 0) /\
    nb_gross_total b = nsum (ob_amount <$> obs) /\ nb_net_total b = nsum (in_amount <$> nb_instructions b) /\
    nb_net_total b <= nb_gross_total b.
Proof.
  assert (is_ok (compute_batch sha256 hex obs) = true <-> acceptable obs) as Hiff.
  { split.
    - destruct (compute_batch sha256 hex obs) as [b|] eqn:E; [|done]. intros _. by eapply compute_batch_acceptable.
    - intros H. by destruct (compute_batch_ok sha256 hex obs H) as (b & -> & _). }
  split; [done|]. intros b Hb. assert (acceptable obs) as Ha by (apply Hiff; by rewrite Hb).
  destruct (compute_batch_ok sha256 hex obs Ha) as (b' & E & Ho & Hg & Ht & Hn). rewrite Hb in E. injection E as <-.
  destruct Ha as (_ & _ & Hv). pose proof (nets_same obs _ Hn) as Hs. pose proof (net_debts_least _ _ (nets_same obs _ Hn)).
  pose proof Hn as [H1 H2 H3 H4 _]. pose proof (net_debts_le (ob_flow <$> sort_obligations obs)) as Hle.
  rewrite (volume_perm _ _ (fmap_Permutation ob_flow _ _ (sort_perm obs))) in Hle.
  split_and!.
  - rewrite Ho. apply sort_perm.
  - apply verify_invariant_spec; [rewrite Ho, (volume_perm _ _ (fmap_Permutation ob_flow _ _ (sort_perm obs))); done|lia|].
    intros k. rewrite <-Hs, Ho. by destruct (flows_perm _ _ k (fmap_Permutation ob_flow _ _ (sort_perm obs))) as [-> ->].
  - done.
  - intros k. rewrite H2, H3. lia.
  - rewrite Hg. unfold volume. by rewrite <-list_fmap_compose.
  - rewrite Ht. unfold volume. by rewrite <-list_fmap_compose.
  - lia.
Qed.

(** Three parties and two assets. *)
Definition cycle_obligations : list Obligation :=
  let o d c a n := mkObligation d c [a] n in
  [o 1 2 7 70; o 1 3 7 60; o 2 3 7 30; o 3 2 7 30; o 2 1 8 5; o 3 2 8 9].

Lemma netting_settles_witness :
  exists b, compute_batch (fun _ => 0) (fun _ => []) cycle_obligations = Ok b /\
    verify_netting_invariant (nb_obligations b) (nb_instructions b) = Ok tt /\ nb_net_total b <= nb_gross_total b.
Proof.
  destruct (netting_settles (fun _ => 0) (fun _ => []) cycle_obligations) as [_ H].
  eexists. split; [vm_compute; reflexivity|]. edestruct H as (_ & H1 & _ & _ & _ & _ & H2); [vm_compute; reflexivity|].
  by split.
Defined.

(** C24: netting moves the least value. Any instructions that give every party its
    net position, whatever their number and order, move at least as much in all
    as those of the batch. *)
Theorem netting_least sha256 hex obs b ins :
  compute_batch sha256 hex obs = Ok b -> nsum (in_amount <$> ins) <= U128_MAX ->
  verify_netting_invariant obs ins = Ok tt -> nb_net_total b <= nsum (in_amount <$> ins).
Proof.
  intros Hb Hi Hv. pose proof (compute_batch_acceptable _ _ _ _ Hb) as Ha.
  destruct (compute_batch_ok sha256 hex obs Ha) as (b' & E & _ & _ & Ht & Hn). rewrite Hb in E. injection E as <-.
  assert (volume (in_flow <$> ins) = nsum (in_amount <$> ins)) as Hvol by (unfold volume; by rewrite <-list_fmap_compose).
  rewrite <-Hvol in *. rewrite Ht, (ns_volume _ _ Hn). apply net_debts_least. intros k.
  destruct (flows_perm _ _ k (fmap_Permutation ob_flow _ _ (sort_perm obs))) as [-> ->].
  destruct Ha as (_ & _ & Hvo). by apply (verify_invariant_spec obs ins Hvo Hi).
Qed.

Lemma netting_least_witness :
  let ins := [mkInstruction 1 2 [7] 70; mkInstruction 1 3 [7] 60; mkInstruction 2 1 [8] 5; mkInstruction 3 2 [8] 9] in
  verify_netting_invariant cycle_obligations ins = Ok tt /\
  exists b, compute_batch (fun _ => 0) (fun _ => []) cycle_obligations = Ok b /\ nb_net_total b <= 144.
Proof.
  split; [vm_compute; reflexivity|]. eexists. split; [vm_compute; reflexivity|].
  apply (netting_least (fun _ => 0) (fun _ => []) cycle_obligations _
    [mkInstruction 1 2 [7] 70; mkInstruction 1 3 [7] 60; mkInstruction 2 1 [8] 5; mkInstruction 3 2 [8] 9]);
    vm_compute; done || discriminate.
Defined.

(** The least in value is not the fewest in number: with debts of 3 and 4 owed to
    parties of 2, 2 and 3, three payments settle what the batch does in four. *)
Example netting_not_fewest :
  let o d c n := mkObligation d c [7] n in
  let obs := [o 1 3 2; o 1 4 1; o 2 4 1; o 2 5 3] in
  let few := [mkInstruction 1 5 [7] 3; mkInstruction 2 3 [7] 2; mkInstruction 2 4 [7] 2] in
  verify_netting_invariant obs few = Ok tt /\
  exists ins, compute_netting obs = Ok (obs, ins, 7, 7) /\ length ins = 4%nat.
Proof. split; [vm_compute; reflexivity|]. eexists. split; vm_compute; reflexivity. Qed.

(** Every node computes the identical batch. The batch, with its identifier,
    instructions and totals, depends on the obligations and not on the order
    they come in. *)
Theorem netting_deterministic sha256 hex obs obs' b :
  obs ≡ₚ obs' -> compute_batch sha256 hex obs = Ok b -> compute_batch sha256 hex obs' = Ok b.
Proof.
  intros Hp Hb. unfold compute_batch, compute_netting in *.
  apply rbind_ok in Hb as (x & [Hne Hx]%guard_ok & Hb). apply rbind_ok in Hx as ([] & Hc & Hx).
  rewrite bool_decide_eq_false_2; [|intros ->; apply Permutation_nil_r in Hp; by rewrite Hp in Hne].
  assert (check_obligations obs' = Ok tt) as ->.
  { apply check_obligations_ok. rewrite <-Hp. by apply check_obligations_ok. }
  cbn [negb guard_r rbind]. rewrite <-(sort_obligations_perm _ _ Hp), Hx. exact Hb.
Qed.

Lemma netting_deterministic_witness :
  exists b, compute_batch (fun _ => 0) (fun _ => []) (rev cycle_obligations) = Ok b /\ nb_net_total b = 139.
Proof.
  eexists. split.
  - apply (netting_deterministic (fun _ => 0) (fun _ => []) cycle_obligations); [apply Permutation_rev|vm_compute; reflexivity].
  - reflexivity.
Defined.

(** ** Statements *)

Lemma wrap_add x y : wrap_i128 (wrap_i128 x + y) = wrap_i128 (x + y).
Proof.
  unfold wrap_i128. f_equal.
  replace ((x + 2 ^ 127) mod 2 ^ 128 - 2 ^ 127 + y + 2 ^ 127)%Z with ((x + 2 ^ 127) mod 2 ^ 128 + y)%Z by lia.
  rewrite Zplus_mod_idemp_l. f_equal. lia.
Qed.

Definition signed (plus minus : bool) (n : N) : Z := ((if plus then Z.of_N n else 0) - (if minus then Z.of_N n else 0))%Z.

Lemma signed_add_wrap x plus minus n :
  signed_add (wrap_i128 x) plus minus (Z.of_N n) = wrap_i128 (x + signed plus minus n).
Proof.
  unfold signed_add, signed. destruct plus, minus; rewrite ?wrap_add; unfold Z.sub; rewrite ?wrap_add; f_equal; lia.
Qed.

(** A participant's net over flows of every asset. *)
Definition flow_net (p : Address) (l : list Flow) : Z :=
  foldr (fun f z => (signed (fl_to f =? p)%N (fl_from f =? p)%N (fl_amount f) + z)%Z) 0%Z l.

Definition party_in (p : Address) (l : list Flow) : N := nsum ((fun f => when (fl_to f =? p) (fl_amount f)) <$> l).
Definition party_out (p : Address) (l : list Flow) : N := nsum ((fun f => when (fl_from f =? p) (fl_amount f)) <$> l).

Lemma flow_net_sums p l : flow_net p l = (Z.of_N (party_in p l) - Z.of_N (party_out p l))%Z.
Proof.
  unfold party_in, party_out. induction l as [|f l IH]; [done|]. rewrite !fmap_cons, !nsum_cons. cbn [flow_net foldr].
  fold (flow_net p l). rewrite IH. unfold signed, when. destruct (fl_to f =? p), (fl_from f =? p); lia.
Qed.

(** Over the assets, the parts of a party add up. *)
Lemma party_sums p l A :
  NoDup A -> (forall f, f ∈ l -> fl_asset f ∈ A) ->
  party_in p l = nsum ((fun a => credit l (a, p)) <$> A) /\ party_out p l = nsum ((fun a => debit l (a, p)) <$> A).
Proof.
  intros Hnd. unfold party_in, party_out. induction l as [|f l IH]; intros HA.
  { split; symmetry; apply nsum_zero; done. }
  destruct IH as [IH1 IH2]; [intros; apply HA; by right|]. rewrite !fmap_cons, !nsum_cons, IH1, IH2.
  assert (fl_asset f ∈ A) as Hf by (apply HA; left).
  rewrite <-(nsum_single A (fl_asset f) (when (fl_to f =? p) (fl_amount f)) Hnd Hf).
  rewrite <-(nsum_single A (fl_asset f) (when (fl_from f =? p) (fl_amount f)) Hnd Hf). rewrite <-!nsum_add.
  split; apply nsum_ext; intros a _; rewrite ?credit_cons, ?debit_cons; f_equal; unfold when;
    destruct (decide (fl_asset f = a)) as [<-|Hne].
  1: rewrite (bool_decide_eq_true_2 (fl_asset f = fl_asset f)) by done; destruct (N.eqb_spec (fl_to f) p) as [->|];
    [by rewrite bool_decide_eq_true_2|by rewrite bool_decide_eq_false_2 by congruence].
  2: rewrite (bool_decide_eq_true_2 (fl_asset f = fl_asset f)) by done; destruct (N.eqb_spec (fl_from f) p) as [->|];
    [by rewrite bool_decide_eq_true_2|by rewrite bool_decide_eq_false_2 by congruence].
  all: by rewrite !bool_decide_eq_false_2 by congruence.
Qed.

Lemma flow_net_same p l l' :
  (forall k, (Z.of_N (credit l k) - Z.of_N (debit l k) = Z.of_N (credit l' k) - Z.of_N (debit l' k))%Z) ->
  flow_net p l = flow_net p l'.
Proof.
  intros H. set (A := elements (list_to_set (fl_asset <$> l ++ l') : gset Asset)).
  assert (forall f, f ∈ l ++ l' -> fl_asset f ∈ A) as HA.
  { intros f Hf. apply elem_of_elements, elem_of_list_to_set. by apply list_elem_of_fmap_2. }
  rewrite !flow_net_sums.
  destruct (party_sums p l A) as [-> ->]; [apply NoDup_elements|intros; apply HA, elem_of_app; by left|].
  destruct (party_sums p l' A) as [-> ->]; [apply NoDup_elements|intros; apply HA, elem_of_app; by right|].
  clear HA. induction A as [|a A IH]; [done|]. rewrite !fmap_cons, !nsum_cons. specialize (H (a, p)). lia.
Qed.

Lemma net_position_ok p z ins :
  Forall (fun i => in_amount i <= I128_MAX) ins ->
  net_position p (wrap_i128 z) ins = Ok (wrap_i128 (z + flow_net p (in_flow <$> ins))).
Proof.
  intros H. revert z. induction H as [|i ins Ha _ IH]; intros z.
  - cbn. by rewrite Z.add_0_r.
  - cbn [net_position]. unfold to_i128. rewrite (proj2 (N.leb_le _ _) Ha). cbn [ok_or rbind].
    rewrite signed_add_wrap, IH, fmap_cons. cbn [flow_net foldr]. cbn. f_equal. f_equal. unfold flow_net. lia.
Qed.

Lemma flow_net_filter {A} (g : A -> Flow) (P : A -> Prop) `{forall x, Decision (P x)} p l :
  (forall x, x ∈ l -> ~ P x -> fl_to (g x) <> p /\ fl_from (g x) <> p) ->
  flow_net p (g <$> filter P l) = flow_net p (g <$> l).
Proof.
  induction l as [|x l IH]; intros Hx; [done|]. rewrite filter_cons.
  assert (flow_net p (g <$> filter P l) = flow_net p (g <$> l)) as E by (apply IH; intros; apply Hx; [by right|done]).
  case_decide as HP; rewrite ?fmap_cons; cbn [flow_net foldr]; fold (flow_net p (g <$> l)); fold (flow_net p (g <$> filter P l));
    rewrite E; [done|].
  destruct (Hx x) as [H1 H2]; [left|done|]. unfold signed.
  rewrite (proj2 (N.eqb_neq _ _) H1), (proj2 (N.eqb_neq _ _) H2). lia.
Qed.

Section statements.
Context (sha256 : list N -> Digest) (hash_leaf : Digest -> Digest) (hash_pair : Digest -> Digest -> Digest).

Lemma gross_position_ok root p z pos :
  Forall (fun po => root_from_path hash_leaf hash_pair (obligation_leaf sha256 (po_obligation po)) (po_path po) = root /\
                    ob_amount (po_obligation po) <= I128_MAX) pos ->
  gross_position sha256 hash_leaf hash_pair root p (wrap_i128 z) pos =
  Ok (wrap_i128 (z + flow_net p (ob_flow <$> (po_obligation <$> pos)))).
Proof.
  intros H. revert z. induction H as [|po pos [Hr Ha] _ IH]; intros z.
  - cbn. by rewrite Z.add_0_r.
  - cbn [gross_position]. rewrite Hr, N.eqb_refl. cbn [guard_r rbind]. unfold to_i128.
    rewrite (proj2 (N.leb_le _ _) Ha). cbn [ok_or rbind]. rewrite signed_add_wrap, IH. rewrite !fmap_cons. cbn [flow_net foldr].
    cbn. f_equal. f_equal. unfold flow_net. lia.
Qed.

Lemma statement_obligations b p :
  po_obligation <$> st_obligations (statement sha256 hash_leaf hash_pair b p) =
  filter (fun o => names p o = true) (nb_obligations b).
Proof.
  unfold statement. cbn [st_obligations]. rewrite <-list_fmap_compose. generalize (nb_obligations b). intros obs.
  change (imap pair obs) with (imap (fun i o => (id i, o)) obs).
  generalize (obligation_leaf sha256 <$> obs). intros lv. generalize (@id nat).
  induction obs as [|o obs IH]; intros g; [done|]. cbn [imap]. rewrite !filter_cons. cbn [snd].
  specialize (IH (g ∘ S)). case_decide; [rewrite fmap_cons; f_equal|]; done.
Qed.

Lemma statement_paths empty_root b p :
  Forall (fun po => root_from_path hash_leaf hash_pair (obligation_leaf sha256 (po_obligation po)) (po_path po) =
    obligations_root sha256 empty_root hash_leaf hash_pair (nb_obligations b))
    (st_obligations (statement sha256 hash_leaf hash_pair b p)).
Proof.
  apply Forall_fmap, Forall_forall. intros [i o] [_ Hi]%list_elem_of_filter. cbn.
  apply list_elem_of_lookup in Hi as [j Hj]. rewrite list_lookup_imap in Hj.
  destruct (nb_obligations b !! j) as [o'|] eqn:E; [|done]. injection Hj as <- <-.
  destruct (merkle_path_root empty_root hash_leaf hash_pair (obligation_leaf sha256 <$> nb_obligations b) j
    (obligation_leaf sha256 o')) as (path & -> & Hr); [by rewrite list_lookup_fmap, E|]. exact Hr.
Qed.

Lemma verify_statement_ok root s :
  Forall (fun po => root_from_path hash_leaf hash_pair (obligation_leaf sha256 (po_obligation po)) (po_path po) = root /\
                    ob_amount (po_obligation po) <= I128_MAX) (st_obligations s) ->
  Forall (fun i => in_amount i <= I128_MAX) (st_instructions s) ->
  flow_net (st_participant s) (ob_flow <$> (po_obligation <$> st_obligations s)) =
  flow_net (st_participant s) (in_flow <$> st_instructions s) ->
  verify_statement sha256 hash_leaf hash_pair root s = Ok tt.
Proof.
  intros H1 H2 H3. unfold verify_statement. change 0%Z with (wrap_i128 0).
  rewrite gross_position_ok, net_position_ok by done. cbn [rbind]. rewrite H3. by rewrite Z.eqb_refl.
Qed.
End statements.

(** Every participant can prove its position. For a batch that [compute_batch]
    made, the statement of any participant verifies against the batch's
    obligations root, as long as the amounts in it fit a signed 128-bit
    integer; sums that wrap do so alike on both sides. *)
Theorem statement_verifies sha256 hex empty_root hash_leaf hash_pair obs b p :
  compute_batch sha256 hex obs = Ok b ->
  let s := statement sha256 hash_leaf hash_pair b p in
  Forall (fun po => ob_amount (po_obligation po) <= I128_MAX) (st_obligations s) ->
  Forall (fun i => in_amount i <= I128_MAX) (st_instructions s) ->
  verify_statement sha256 hash_leaf hash_pair
    (obligations_root sha256 empty_root hash_leaf hash_pair (nb_obligations b)) s = Ok tt.
Proof.
  intros Hb s Ho Hi. pose proof (compute_batch_acceptable _ _ _ _ Hb) as Ha.
  destruct (compute_batch_ok sha256 hex obs Ha) as (b' & E & Hob & _ & _ & Hn). rewrite Hb in E. injection E as <-.
  apply verify_statement_ok; [|exact Hi|].
  - apply Forall_and. split; [apply statement_paths|done].
  - unfold s. rewrite statement_obligations. cbn [statement st_participant st_instructions].
    rewrite (flow_net_filter ob_flow), (flow_net_filter in_flow).
    + apply flow_net_same. intros k. rewrite Hob. rewrite <-(nets_same obs _ Hn k).
      by destruct (flows_perm _ _ k (fmap_Permutation ob_flow _ _ (sort_perm obs))) as [-> ->].
    + intros i _ Hi'. cbn. rewrite not_true_iff_false, orb_false_iff, !N.eqb_neq in Hi'. tauto.
    + intros o _ Ho'. cbn. unfold names in Ho'. rewrite not_true_iff_false, orb_false_iff, !N.eqb_neq in Ho'. tauto.
Qed.

(** Hashes for the examples: cheap ones, with collisions. *)
Definition sum_hash (bytes : list N) : N := foldl (fun a x => (a * 257 + x) mod 1000003) 1 bytes.

Definition cycle_batch : NettingBatch :=
  match compute_batch sum_hash (fun _ => []) cycle_obligations with Ok b => b | Err _ => mkBatch [] [] [] 0 0 end.

Lemma cycle_batch_ok : compute_batch sum_hash (fun _ => []) cycle_obligations = Ok cycle_batch.
Proof. vm_compute. reflexivity. Qed.

Lemma all_le {A} (f : A -> N) n l : forallb (fun x => f x <=? n) l = true -> Forall (fun x => f x <= n) l.
Proof. induction l as [|x l IH]; cbn; intros H; [constructor|]. propify. constructor; auto. Qed.

Lemma statement_verifies_witness :
  length (st_obligations (statement sum_hash (fun x => x + 1) (fun x y => 2 * x + 3 * y) cycle_batch 2)) = 5%nat /\
  verify_statement sum_hash (fun x => x + 1) (fun x y => 2 * x + 3 * y)
    (obligations_root sum_hash 0 (fun x => x + 1) (fun x y => 2 * x + 3 * y) (nb_obligations cycle_batch))
    (statement sum_hash (fun x => x + 1) (fun x y => 2 * x + 3 * y) cycle_batch 2) = Ok tt.
Proof.
  split; [vm_compute; reflexivity|].
  apply (statement_verifies sum_hash (fun _ => []) 0 (fun x => x + 1) (fun x y => 2 * x + 3 * y) cycle_obligations
    cycle_batch 2 cycle_batch_ok); apply all_le; vm_compute; reflexivity.
Defined.

(** A statement that verifies need not be complete. A participant owes 50 and is
    owed 50: the statement without either obligation verifies too, and so does
    one that pays in another asset what the batch pays in its own. *)
Example incomplete_statement_verifies :
  let h := fun x : N => x + 1 in
  let g := fun x y : N => 2 * x + 3 * y in
  let o d c a n := mkObligation d c [a] n in
  let obs := [o 1 2 7 50; o 2 1 7 50; o 3 2 7 10] in
  let root := obligations_root sum_hash 0 h g obs in
  exists b, compute_batch sum_hash (fun _ => []) obs = Ok b /\
    length (st_obligations (statement sum_hash h g b 1)) = 2%nat /\
    verify_statement sum_hash h g root (mkStatement 1 [] []) = Ok tt /\
    verify_statement sum_hash h g root
      (mkStatement 2 (st_obligations (statement sum_hash h g b 2)) [mkInstruction 3 2 [99] 10]) = Ok tt.
Proof. eexists. split; [vm_compute; reflexivity|]. split; [|split]; vm_compute; reflexivity. Qed.
