(* ===== verification/Tokens.v ===== *)
(** The token ledger ([tenzro-vm/src/token_ledger.rs]).

    One store holds every token: native TNZO in the native balance map, every
    other token in the factory's storage, a word per token and account for the
    balance and the frozen part, a word per token for the holder count and the
    halt. An account is its ledger account, the form the storage slots are
    derived from, so two spellings of an account are one here; a slot is a key
    of a map, which is to take the slot hashes as free of collisions. Times are
    [Z]. The change records an operation appends for the receipt repeat what it
    writes and are left out. The error of a storage read exists in the EVM's
    view alone; over chain state every read succeeds. *)

From stdpp Require Import prelude gmap list strings.
From Stdlib Require Import NArith ZArith Lia.
From S2P Require Import Prelude Committee Validator Checkpoint Chain Merkle Split Netting.

Abbreviation TokenId := N (only parsing).
Abbreviation Str := (list N) (only parsing).

(** The bytes of a literal. *)
Definition str (s : string) : Str := Ascii.N_of_ascii <$> String.list_ascii_of_string s.

(** ** Rules and records *)

Inductive HolderKind := AnyHolder | HumanRoot | AgentUnderTerms | MachineHolder.

Inductive Rule :=
| RequireClaim (kind : Str) (issuers : list Str)
| DenyJurisdiction (blocs : list Str)
| AllowJurisdiction (blocs : list Str)
| HolderKindRule (kind : HolderKind)
| MaxHolders (max : N)
| MaxBalanceBps (bps : N)
| Lockup (until_ms : Z)
| MinTermsVerification (level : N)
| MinKycTier (tier : N).

(** The fields the ledger reads; the issuer's powers and the queued changes
    belong to the factory. *)
Record TokenRecord := mkToken {
  tr_name : Str;
  tr_symbol : Str;
  tr_decimals : N;
  tr_total_supply : N;
  tr_creator : Address;
  tr_max_supply : option N;
  tr_eligibility : list Rule;
}.

Record Claim := mkClaim {
  cl_value : Str;
  cl_expires_ms : Z;
}.

Record ServingNode := mkServing {
  sn_operator_did : Str;
  sn_key_certification : Str;
}.

Record AgentTerms := mkTerms {
  at_serving_nodes : list ServingNode;
  at_expires_at_ms : option N;
}.

Inductive HolderClass :=
| Human
| Agent (level : N)
| Unverified (level : N)
| Machine
| Unknown.

Inductive Refusal :=
| UnknownToken
| Halted
| Frozen
| LockedUntil (until_ms : Z)
| Ineligible (rule : Rule).

Definition code (r : Refusal) : N :=
  match r with UnknownToken => 1 | Halted => 2 | Frozen => 3 | LockedUntil _ => 4 | Ineligible _ => 5 end.

Inductive TokenError :=
| BadName
| SupplyAboveMax
| NoSuchToken
| Refused (r : Refusal)
| MintAboveMax
| BalanceOverflow
| TokenHalted
| BurnAboveFree (free held amount : N)
| FreezeAboveBalance (held amount : N)
| ForcedAboveBalance.

Definition MAX_TOKEN_NAME_LEN : nat := 64.
Definition MAX_TOKEN_DECIMALS : N := 36.

(** [[0x01, 0, ..., 0]]. *)
Definition tnzo_id : TokenId := 2 ^ 248.

(** ** The store *)

Record Ledger := mkLedger {
  lg_native : gmap Address N;
  lg_tokens : gmap TokenId TokenRecord;
  lg_balances : gmap (TokenId * Address) N;
  lg_holders : gmap TokenId N;
  lg_frozen : gmap (TokenId * Address) N;
  lg_halted : gmap TokenId N;
  lg_claims : gmap (TokenId * Address * (Str * Str)) Claim;
  lg_identities : gmap Address Str;
  lg_terms : gmap Str AgentTerms;
  lg_nonces : gmap Address N;
  lg_count : N;
  lg_facades : gmap N TokenId;
}.

Definition empty_ledger : Ledger := mkLedger ∅ ∅ ∅ ∅ ∅ ∅ ∅ ∅ ∅ ∅ 0 ∅.

Definition with_native (L : Ledger) (m : gmap Address N) : Ledger :=
  mkLedger m (lg_tokens L) (lg_balances L) (lg_holders L) (lg_frozen L) (lg_halted L) (lg_claims L)
    (lg_identities L) (lg_terms L) (lg_nonces L) (lg_count L) (lg_facades L).
Definition with_tokens (L : Ledger) (m : gmap TokenId TokenRecord) : Ledger :=
  mkLedger (lg_native L) m (lg_balances L) (lg_holders L) (lg_frozen L) (lg_halted L) (lg_claims L)
    (lg_identities L) (lg_terms L) (lg_nonces L) (lg_count L) (lg_facades L).
Definition with_balances (L : Ledger) (m : gmap (TokenId * Address) N) (h : gmap TokenId N) : Ledger :=
  mkLedger (lg_native L) (lg_tokens L) m h (lg_frozen L) (lg_halted L) (lg_claims L)
    (lg_identities L) (lg_terms L) (lg_nonces L) (lg_count L) (lg_facades L).
Definition with_frozen (L : Ledger) (m : gmap (TokenId * Address) N) : Ledger :=
  mkLedger (lg_native L) (lg_tokens L) (lg_balances L) (lg_holders L) m (lg_halted L) (lg_claims L)
    (lg_identities L) (lg_terms L) (lg_nonces L) (lg_count L) (lg_facades L).
Definition with_halted (L : Ledger) (m : gmap TokenId N) : Ledger :=
  mkLedger (lg_native L) (lg_tokens L) (lg_balances L) (lg_holders L) (lg_frozen L) m (lg_claims L)
    (lg_identities L) (lg_terms L) (lg_nonces L) (lg_count L) (lg_facades L).
Definition with_index (L : Ledger) (nonces : gmap Address N) (count : N) (facades : gmap N TokenId) : Ledger :=
  mkLedger (lg_native L) (lg_tokens L) (lg_balances L) (lg_holders L) (lg_frozen L) (lg_halted L) (lg_claims L)
    (lg_identities L) (lg_terms L) nonces count facades.

(** A word that was never written is zero. *)
Definition word {K} `{Countable K} (m : gmap K N) (k : K) : N := default 0 (m !! k).

Definition balance (L : Ledger) (token : TokenId) (owner : Address) : N :=
  if token =? tnzo_id then word (lg_native L) owner else word (lg_balances L) (token, owner).

Definition holders_after (holders before after : N) : N :=
  match before =? 0, after =? 0 with
  | true, false => wadd128 holders 1
  | false, true => holders - 1
  | _, _ => holders
  end.

(** [write_balance]: the factory word and the holder count. *)
Definition write_balance (L : Ledger) (id : TokenId) (owner : Address) (value : N) : Ledger :=
  let before := word (lg_balances L) (id, owner) in
  let holders := word (lg_holders L) id in
  let next := holders_after holders before value in
  with_balances L (<[(id, owner) := value]> (lg_balances L))
    (if next =? holders then lg_holders L else <[id := next]> (lg_holders L)).

Definition set_balance (L : Ledger) (token : TokenId) (owner : Address) (value : N) : Ledger :=
  if token =? tnzo_id then with_native L (<[owner := value]> (lg_native L))
  else write_balance L token owner value.

Definition read_token (L : Ledger) (id : TokenId) : option TokenRecord := lg_tokens L !! id.
Definition frozen (L : Ledger) (id : TokenId) (owner : Address) : N := word (lg_frozen L) (id, owner).
Definition halted (L : Ledger) (id : TokenId) : bool := negb (word (lg_halted L) id =? 0).

(** ** Amounts *)

Definition initial_supply_within (total : N) (max : option N) : bool :=
  match max with Some m => total <=? m | None => true end.

Definition within_balance_ceiling (held amount supply bps : N) : bool :=
  let ceiling := N.min (supply * bps) U128_MAX / 10000 in
  sat_add128 held amount <=? ceiling.

Definition supply_after_mint (total : N) (max : option N) (amount : N) : option N :=
  match checked_add128 total amount with
  | Some s => if initial_supply_within s max then Some s else None
  | None => None
  end.

Definition frozen_after (frozen left : N) : N := N.min frozen left.
Definition freeze_within (amount held : N) : option N := if amount <=? held then Some amount else None.
Definition spendable (held frozen : N) : N := held - N.min frozen held.

(** ** The rule engine *)

Definition live_claim (L : Ledger) (token : TokenId) (subject : Address) (kind issuer : Str) (now_ms : Z) : option Str :=
  match lg_claims L !! (token, subject, (kind, issuer)) with
  | Some c => if (now_ms <? cl_expires_ms c)%Z then Some (cl_value c) else None
  | None => None
  end.

(** Claim issuers a token's policy names, each once, in order. *)
Definition push_new (out : list Str) (i : Str) : list Str := if decide (i ∈ out) then out else out ++ [i].
Definition named_issuers (r : TokenRecord) : list Str :=
  foldl (fun out rule => match rule with RequireClaim _ issuers => foldl push_new out issuers | _ => out end)
    [] (tr_eligibility r).

Definition HUMAN_DID_PREFIX : Str := str "did:tenzro:human:".

Definition starts_with (s p : Str) : bool := bool_decide (take (length p) s = p).

(** A u64 read as an i64. *)
Definition as_i64 (n : N) : Z := if n <? 2 ^ 63 then Z.of_N n else (Z.of_N n - 2 ^ 64)%Z.

Definition terms_level (t : AgentTerms) : N :=
  let nodes := at_serving_nodes t in
  if bool_decide (nodes = []) || existsb (fun n => bool_decide (sn_key_certification n = [])) nodes then 1
  else if (2 <=? length (remove_dups (sn_operator_did <$> nodes)))%nat then 3 else 2.

Definition holder_class (L : Ledger) (account : Address) (now_ms : Z) : HolderClass :=
  match lg_identities L !! account with
  | None | Some [] => Unknown
  | Some did =>
      if starts_with did HUMAN_DID_PREFIX then Human
      else match lg_terms L !! did with
           | Some t =>
               if match at_expires_at_ms t with None => true | Some e => (now_ms <? as_i64 e)%Z end
               then Agent (terms_level t) else Unverified 0
           | None => Machine
           end
  end.

Definition from_grade (grade : Str) : option N :=
  if decide (grade = str "basic") then Some 1
  else if decide (grade = str "enhanced") then Some 2
  else if decide (grade = str "full") then Some 3
  else None.

Definition kyc_tier (L : Ledger) (token : TokenId) (r : TokenRecord) (subject : Address) (now_ms : Z) : N :=
  foldl (fun best issuer =>
    match live_claim L token subject (str "kyc") issuer now_ms ≫= from_grade with
    | Some tier => N.max best tier
    | None => best
    end) 0 (named_issuers r).

Definition to_lower (c : N) : N := if (65 <=? c) && (c <=? 90) then c + 32 else c.
Definition eq_ignore_ascii_case (a b : Str) : bool := bool_decide (to_lower <$> a = to_lower <$> b).

(** Whether an issuer's live jurisdiction claim names one of [blocs]. *)
Definition names_bloc (L : Ledger) (token : TokenId) (to : Address) (blocs : list Str) (now_ms : Z) (issuer : Str) : bool :=
  match live_claim L token to (str "jurisdiction") issuer now_ms with
  | Some code => existsb (fun b => eq_ignore_ascii_case b code) blocs
  | None => false
  end.

(** One pass of the loop over the rules: whether the rule lets [to] receive. *)
Definition rule_allows (L : Ledger) (token : TokenId) (r : TokenRecord) (to : Address) (amount : N) (now_ms : Z)
    (rule : Rule) : bool :=
  let held := word (lg_balances L) (token, to) in
  match rule with
  | RequireClaim kind issuers => existsb (fun i => bool_decide (is_Some (live_claim L token to kind i now_ms))) issuers
  | DenyJurisdiction blocs => negb (existsb (names_bloc L token to blocs now_ms) (named_issuers r))
  | AllowJurisdiction blocs => existsb (names_bloc L token to blocs now_ms) (named_issuers r)
  | HolderKindRule kind =>
      match kind, holder_class L to now_ms with
      | AnyHolder, _ | HumanRoot, Human | AgentUnderTerms, Agent _ | MachineHolder, Machine | MachineHolder, Agent _ => true
      | _, _ => false
      end
  | MaxHolders max => negb ((held =? 0) && (0 <? amount) && (max <=? word (lg_holders L) token))
  | MaxBalanceBps bps => within_balance_ceiling held amount (tr_total_supply r) bps
  | Lockup _ => true
  | MinTermsVerification level =>
      match holder_class L to now_ms with
      | Agent have | Unverified have => level <=? have
      | Machine | Unknown => false
      | Human => true
      end
  | MinKycTier tier => tier <=? kyc_tier L token r to now_ms
  end.

Definition can_receive (L : Ledger) (token : TokenId) (r : TokenRecord) (to : Address) (amount : N) (now_ms : Z)
  : result Refusal unit :=
  match list_find (fun rule => rule_allows L token r to amount now_ms rule = false) (tr_eligibility r) with
  | Some (_, rule) => Err (Ineligible rule)
  | None => Ok tt
  end.

Definition locked (now_ms : Z) (rule : Rule) : option Z :=
  match rule with Lockup until => if (now_ms <? until)%Z then Some until else None | _ => None end.

Definition can_transfer (L : Ledger) (token : TokenId) (from to : Address) (amount : N) (now_ms : Z)
  : result Refusal unit :=
  if token =? tnzo_id then Ok tt
  else
    let? record := ok_or (read_token L token) UnknownToken in
    check? word (lg_halted L) token =? 0 else Halted in
    let held := word (lg_balances L) (token, from) in
    check? negb ((amount <=? held) && (spendable held (frozen L token from) <? amount)) else Frozen in
    match omap (locked now_ms) (tr_eligibility record) with
    | until :: _ => Err (LockedUntil until)
    | [] => can_receive L token record to amount now_ms
    end.

(** ** Moving *)

(** [Ok (Some _)] is [Ok true], [Ok None] is [Ok false]. The debit stands when
    the credit overflows. *)
Definition move_balance (L : Ledger) (token : TokenId) (from to : Address) (amount : N)
  : Ledger * result TokenError bool :=
  let from_before := balance L token from in
  if from_before <? amount then (L, Ok false)
  else
    let L := set_balance L token from (from_before - amount) in
    match checked_add128 (balance L token to) amount with
    | Some to_after => (set_balance L token to to_after, Ok true)
    | None => (L, Err BalanceOverflow)
    end.

Definition transfer (L : Ledger) (token : TokenId) (from to : Address) (amount : N) (now_ms : Z)
  : Ledger * result TokenError bool :=
  match can_transfer L token from to amount now_ms with
  | Err r => (L, Err (Refused r))
  | Ok _ => move_balance L token from to amount
  end.

Definition forced_transfer (L : Ledger) (id : TokenId) (from to : Address) (amount : N) (now_ms : Z)
  : Ledger * result TokenError unit :=
  match read_token L id with
  | None => (L, Err NoSuchToken)
  | Some record =>
      match can_receive L id record to amount now_ms with
      | Err r => (L, Err (Refused r))
      | Ok _ =>
          match move_balance L id from to amount with
          | (L, Err e) => (L, Err e)
          | (L, Ok false) => (L, Err ForcedAboveBalance)
          | (L, Ok true) =>
              let left := balance L id from in
              if frozen_after (frozen L id from) left =? frozen L id from then (L, Ok tt)
              else (with_frozen L (<[(id, from) := left]> (lg_frozen L)), Ok tt)
          end
      end
  end.

(** ** Issuing *)

Section ledger.
Context (token_id : Address -> N -> TokenId) (facade_address : TokenId -> N).

Definition create (L : Ledger) (creator : Address) (spec : TokenRecord) : result TokenError (Ledger * TokenId) :=
  check? negb (bool_decide (tr_name spec = []) || bool_decide (tr_symbol spec = [])
               || (MAX_TOKEN_NAME_LEN <? length (tr_name spec))%nat
               || (MAX_TOKEN_NAME_LEN <? length (tr_symbol spec))%nat
               || (MAX_TOKEN_DECIMALS <? tr_decimals spec)) else BadName in
  check? initial_supply_within (tr_total_supply spec) (tr_max_supply spec) else SupplyAboveMax in
  let nonce := word (lg_nonces L) creator in
  let L := with_index L (<[creator := wadd128 nonce 1]> (lg_nonces L)) (lg_count L) (lg_facades L) in
  let id := token_id creator nonce in
  let record := mkToken (tr_name spec) (tr_symbol spec) (tr_decimals spec) (tr_total_supply spec) creator
                  (tr_max_supply spec) (tr_eligibility spec) in
  let L := with_tokens L (<[id := record]> (lg_tokens L)) in
  let L := with_index L (lg_nonces L) (lg_count L) (<[facade_address id := id]> (lg_facades L)) in
  let L := write_balance L id creator (tr_total_supply record) in
  Ok (with_index L (lg_nonces L) (wadd128 (lg_count L) 1) (lg_facades L), id).

Definition define (L : Ledger) (id : TokenId) (record : TokenRecord) : Ledger :=
  match read_token L id with
  | Some _ => L
  | None =>
      let L := with_tokens L (<[id := record]> (lg_tokens L)) in
      with_index L (lg_nonces L) (wadd128 (lg_count L) 1) (<[facade_address id := id]> (lg_facades L))
  end.
End ledger.

Definition with_supply (r : TokenRecord) (supply : N) : TokenRecord :=
  mkToken (tr_name r) (tr_symbol r) (tr_decimals r) supply (tr_creator r) (tr_max_supply r) (tr_eligibility r).

(** The record is written before the balance is added up: an error there is
    undone with the transaction. *)
Definition mint (L : Ledger) (id : TokenId) (to : Address) (amount : N) (now_ms : Z) : result TokenError Ledger :=
  let? record := ok_or (read_token L id) NoSuchToken in
  match can_receive L id record to amount now_ms with
  | Err r => Err (Refused r)
  | Ok _ =>
      let? supply := ok_or (supply_after_mint (tr_total_supply record) (tr_max_supply record) amount) MintAboveMax in
      let L := with_tokens L (<[id := with_supply record supply]> (lg_tokens L)) in
      let? held := ok_or (checked_add128 (word (lg_balances L) (id, to)) amount) BalanceOverflow in
      Ok (write_balance L id to held)
  end.

Definition burn (L : Ledger) (id : TokenId) (from : Address) (amount : N) : result TokenError Ledger :=
  let? record := ok_or (read_token L id) NoSuchToken in
  check? negb (halted L id) else TokenHalted in
  let held := word (lg_balances L) (id, from) in
  let free := spendable held (frozen L id from) in
  check? amount <=? free else BurnAboveFree free held amount in
  let L := write_balance L id from (held - amount) in
  Ok (with_tokens L (<[id := with_supply record (tr_total_supply record - amount)]> (lg_tokens L))).

Definition set_frozen (L : Ledger) (id : TokenId) (owner : Address) (amount : N) : result TokenError Ledger :=
  let held := balance L id owner in
  let? amount := ok_or (freeze_within amount held) (FreezeAboveBalance held amount) in
  Ok (with_frozen L (<[(id, owner) := amount]> (lg_frozen L))).

Definition set_halted (L : Ledger) (id : TokenId) (halt : bool) : Ledger :=
  with_halted L (<[id := if halt then 1 else 0]> (lg_halted L)).

Example freeze_blocks_transfer :
  let r := mkToken (str "T") (str "T") 0 10 7 None [MaxHolders 2] in
  match create (fun c n => c + n) id empty_ledger 7 r with
  | Ok (L, t) =>
      match set_frozen L t 7 4 with
      | Ok L => (transfer L t 7 8 7 0).2 = Err (Refused Frozen) /\ (transfer L t 7 8 6 0).2 = Ok true
      | Err _ => False
      end
  | Err _ => False
  end.
Proof. vm_compute. done. Qed.

(** ** Sums over the words of a map *)

Section words.
Context {K : Type} `{Countable K}.
Implicit Types (m : gmap K N) (g : K -> N -> N).

Definition msum g m : N := nsum ((fun e => g e.1 e.2) <$> map_to_list m).

Lemma msum_insert_new g m k v : m !! k = None -> msum g (<[k := v]> m) = g k v + msum g m.
Proof.
  intros Hk. unfold msum. rewrite (nsum_perm _ _ (fmap_Permutation _ _ _ (map_to_list_insert m k v Hk))).
  by rewrite fmap_cons, nsum_cons.
Qed.

(** Writing a word changes the sum by what the word changes. *)
Lemma msum_insert g m k v :
  (forall k, g k 0 = 0) -> msum g (<[k := v]> m) + g k (word m k) = msum g m + g k v.
Proof.
  intros Hg. unfold word. destruct (m !! k) as [w|] eqn:E.
  - rewrite <-(insert_delete_eq m k v), msum_insert_new by apply lookup_delete_eq.
    assert (msum g m = g k w + msum g (delete k m)) as ->; [|cbn [from_option id]; lia].
    rewrite <-msum_insert_new by apply lookup_delete_eq. by rewrite insert_delete_eq, insert_id.
  - rewrite msum_insert_new by done. cbn [from_option]. rewrite Hg. lia.
Qed.

Lemma msum_word g m k : (forall k, g k 0 = 0) -> g k (word m k) <= msum g m.
Proof.
  intros Hg. pose proof (msum_insert g m k 0 Hg) as E. rewrite Hg in E. lia.
Qed.

(** Two words of the map. *)
Lemma msum_two g m k k' : (forall k, g k 0 = 0) -> k <> k' -> g k (word m k) + g k' (word m k') <= msum g m.
Proof.
  intros Hg Hne. pose proof (msum_insert g m k 0 Hg) as E. rewrite Hg in E.
  pose proof (msum_word g (<[k := 0]> m) k' Hg) as E'. unfold word in *. rewrite lookup_insert_ne in E' by done. lia.
Qed.

Lemma msum_le g g' m : (forall k n, g k n <= g' k n) -> msum g m <= msum g' m.
Proof.
  intros Hg. unfold msum. induction (map_to_list m) as [|e l IH]; [done|].
  rewrite !fmap_cons, !nsum_cons. specialize (Hg e.1 e.2). lia.
Qed.

Lemma msum_empty g : msum g ∅ = 0.
Proof. unfold msum. by rewrite map_to_list_empty. Qed.

Lemma word_insert m k v : word (<[k := v]> m) k = v.
Proof. unfold word. by rewrite lookup_insert_eq. Qed.

Lemma word_insert_ne m k k' v : k <> k' -> word (<[k := v]> m) k' = word m k'.
Proof. intros E. unfold word. by rewrite lookup_insert_ne. Qed.
End words.

(** ** The invariant of a token *)

Definition held_of (id : TokenId) (k : TokenId * Address) (n : N) : N := when (k.1 =? id) n.
Definition holds (id : TokenId) (k : TokenId * Address) (n : N) : N := when ((k.1 =? id) && negb (n =? 0)) 1.

(** What the accounts hold of a token, and how many hold some. *)
Definition supply_of (L : Ledger) (id : TokenId) : N := msum (held_of id) (lg_balances L).
Definition holders_of (L : Ledger) (id : TokenId) : N := msum (holds id) (lg_balances L).

Definition recorded_supply (L : Ledger) (id : TokenId) : N := from_option tr_total_supply 0 (read_token L id).

Record TokenOk (L : Ledger) (id : TokenId) : Prop := {
  ok_supply : supply_of L id = recorded_supply L id;
  ok_width : supply_of L id <= U128_MAX;
  ok_max : forall r, read_token L id = Some r -> initial_supply_within (tr_total_supply r) (tr_max_supply r) = true;
  ok_holders : word (lg_holders L) id = holders_of L id;
  ok_frozen : forall a, frozen L id a <= word (lg_balances L) (id, a);
}.

(** Native TNZO is not a token of the factory. *)
Definition LedgerOk (L : Ledger) : Prop := forall id, id <> tnzo_id -> TokenOk L id.

Lemma held_of_zero id k : held_of id k 0 = 0.
Proof. unfold held_of, when. by destruct (k.1 =? id). Qed.

Lemma holds_zero id k : holds id k 0 = 0.
Proof. unfold holds, when. by destruct (k.1 =? id). Qed.

Lemma holders_le_supply L id : holders_of L id <= supply_of L id.
Proof. apply msum_le. intros k n. unfold holds, held_of, when. destruct (k.1 =? id), (N.eqb_spec n 0); cbn; lia. Qed.

Section write.
Context (L : Ledger) (id : TokenId) (o : Address) (v : N).
Let old := word (lg_balances L) (id, o).
Let L' := write_balance L id o v.

Lemma write_same : word (lg_balances L') (id, o) = v.
Proof. apply word_insert. Qed.

Lemma write_other id' a : (id', a) <> (id, o) -> word (lg_balances L') (id', a) = word (lg_balances L) (id', a).
Proof. intros E. apply word_insert_ne. congruence. Qed.

Lemma write_supply : supply_of L' id + old = supply_of L id + v.
Proof.
  pose proof (msum_insert (held_of id) (lg_balances L) (id, o) v (held_of_zero id)) as E.
  unfold held_of in E at 2 4. cbn [fst] in E. rewrite N.eqb_refl in E. exact E.
Qed.

Lemma write_supply_other id' : id' <> id -> supply_of L' id' = supply_of L id'.
Proof.
  intros Hne. pose proof (msum_insert (held_of id') (lg_balances L) (id, o) v (held_of_zero id')) as E.
  unfold held_of in E at 2 4. cbn [fst] in E. rewrite (proj2 (N.eqb_neq id id')) in E by done. cbn [when] in E.
  unfold supply_of, L'. cbn [write_balance with_balances lg_balances]. lia.
Qed.

Lemma write_holders_of :
  holders_of L' id + when (negb (old =? 0)) 1 = holders_of L id + when (negb (v =? 0)) 1.
Proof.
  pose proof (msum_insert (holds id) (lg_balances L) (id, o) v (holds_zero id)) as E.
  unfold holds in E at 2 4. cbn [fst] in E. rewrite N.eqb_refl in E. exact E.
Qed.

Lemma write_holders_other id' : id' <> id -> holders_of L' id' = holders_of L id' /\ word (lg_holders L') id' = word (lg_holders L) id'.
Proof.
  intros Hne. split.
  - pose proof (msum_insert (holds id') (lg_balances L) (id, o) v (holds_zero id')) as E.
    unfold holds in E at 2 4. cbn [fst] in E. rewrite (proj2 (N.eqb_neq id id')) in E by done. cbn [when andb] in E.
    unfold holders_of, L'. cbn [write_balance with_balances lg_balances]. lia.
  - unfold L', write_balance. cbn [with_balances lg_holders]. case_match; [done|]. by apply word_insert_ne.
Qed.

(** The count follows the balances while it fits its word. *)
Lemma write_holders :
  word (lg_holders L) id = holders_of L id -> supply_of L' id <= U128_MAX -> word (lg_holders L') id = holders_of L' id.
Proof.
  intros Hh Hw. pose proof write_holders_of as E. pose proof (holders_le_supply L' id) as Hle. rewrite <-Hh in E.
  unfold L' at 1, write_balance. cbn [with_balances lg_holders]. fold old.
  assert (holders_after (word (lg_holders L) id) old v = holders_of L' id) as ->.
  { unfold holders_after. destruct (old =? 0), (v =? 0); cbn [negb when] in E; [lia| |lia|lia].
    rewrite wadd128_small; lia. }
  destruct (N.eqb_spec (holders_of L' id) (word (lg_holders L) id)) as [->|_]; [done|]. apply word_insert.
Qed.

(** A balance written with a supply that fits keeps a token's count, and its
    other accounts. *)
Lemma write_frozen a : a <> o -> frozen L id a <= word (lg_balances L) (id, a) -> frozen L' id a <= word (lg_balances L') (id, a).
Proof. intros Ha H. rewrite write_other by congruence. exact H. Qed.
End write.

Lemma write_ok_other L id o v id' : id' <> id -> TokenOk L id' -> TokenOk (write_balance L id o v) id'.
Proof.
  intros Hne [S W M H F]. destruct (write_holders_other L id o v id' Hne) as [Hc Hw]. split.
  - by rewrite write_supply_other.
  - by rewrite write_supply_other.
  - exact M.
  - by rewrite Hc, Hw.
  - intros a. rewrite write_other by congruence. apply F.
Qed.

Lemma token_ok_frame L L' id :
  lg_balances L' = lg_balances L -> lg_holders L' = lg_holders L -> (forall a, frozen L' id a = frozen L id a) ->
  read_token L' id = read_token L id -> TokenOk L id -> TokenOk L' id.
Proof.
  intros Eb Eh Ef Et [S W M H F].
  split; [| | | |intros a; rewrite Ef]; unfold supply_of, recorded_supply, holders_of in *; rewrite ?Eb, ?Eh, ?Et; auto.
Qed.

(** ** What a move does *)

Record Moved (L L' : Ledger) (id : TokenId) (from to : Address) (amount : N) : Prop := {
  mv_balance : forall a, word (lg_balances L') (id, a) + when (a =? from) amount = word (lg_balances L) (id, a) + when (a =? to) amount;
  mv_other : forall id' a, id' <> id -> word (lg_balances L') (id', a) = word (lg_balances L) (id', a);
  mv_supply : supply_of L' id = supply_of L id;
  mv_count : word (lg_holders L') id = holders_of L' id;
  mv_holders : holders_of L' id <= holders_of L id + when ((word (lg_balances L) (id, to) =? 0) && (0 <? amount)) 1;
  mv_tokens : lg_tokens L' = lg_tokens L;
  mv_frozen : lg_frozen L' = lg_frozen L;
  mv_native : lg_native L' = lg_native L;
  mv_others : forall id', id' <> id -> TokenOk L id' -> TokenOk L' id';
}.

Lemma balance_factory L id a : id <> tnzo_id -> balance L id a = word (lg_balances L) (id, a).
Proof. intros H. unfold balance. by rewrite (proj2 (N.eqb_neq _ _)). Qed.

Lemma balance_native L a : balance L tnzo_id a = word (lg_native L) a.
Proof. unfold balance. by rewrite N.eqb_refl. Qed.

Lemma account_le_supply L id a : word (lg_balances L) (id, a) <= supply_of L id.
Proof.
  pose proof (msum_word (held_of id) (lg_balances L) (id, a) (held_of_zero id)) as E.
  unfold held_of in E at 1. cbn [fst] in E. by rewrite N.eqb_refl in E.
Qed.

Lemma two_accounts_le_supply L id a b :
  a <> b -> word (lg_balances L) (id, a) + word (lg_balances L) (id, b) <= supply_of L id.
Proof.
  intros Hne. pose proof (msum_two (held_of id) (lg_balances L) (id, a) (id, b) (held_of_zero id)) as E.
  unfold held_of in E at 1 2. cbn [fst] in E. rewrite N.eqb_refl in E. apply E. congruence.
Qed.

Lemma move_short L id from to amount :
  balance L id from < amount -> move_balance L id from to amount = (L, Ok false).
Proof. intros H. unfold move_balance. by rewrite (proj2 (N.ltb_lt _ _)). Qed.

Lemma move_factory L id from to amount :
  id <> tnzo_id -> supply_of L id <= U128_MAX -> word (lg_holders L) id = holders_of L id ->
  amount <= word (lg_balances L) (id, from) ->
  exists L', move_balance L id from to amount = (L', Ok true) /\ Moved L L' id from to amount.
Proof.
  intros Hid Hw Hh Ha. unfold move_balance, set_balance. rewrite balance_factory by done.
  rewrite (proj2 (N.ltb_ge _ _)), (proj2 (N.eqb_neq id tnzo_id)) by done.
  set (b := word (lg_balances L) (id, from)) in *. set (L1 := write_balance L id from (b - amount)).
  rewrite (balance_factory L1) by done. set (w := word (lg_balances L1) (id, to)).
  pose proof (write_supply L id from (b - amount)) as S1. fold b L1 in S1.
  assert (w + amount <= U128_MAX /\ supply_of L1 id + amount = supply_of L id) as [Hfit HS1].
  { pose proof (account_le_supply L id from). fold b in H. split; [|lia]. unfold w.
    destruct (decide (to = from)) as [->|Hne]; unfold L1.
    - rewrite write_same. lia.
    - rewrite write_other by congruence. pose proof (two_accounts_le_supply L id from to). fold b in H0. lia. }
  unfold checked_add128. rewrite (proj2 (N.leb_le _ _)) by lia.
  set (L2 := write_balance L1 id to (w + amount)).
  pose proof (write_supply L1 id to (w + amount)) as S2. fold w L2 in S2.
  pose proof (write_holders_of L id from (b - amount)) as H1. fold b L1 in H1.
  pose proof (write_holders_of L1 id to (w + amount)) as H2. fold w L2 in H2.
  exists L2. split; [done|]. split; [| | | | |done|done|done|].
  - intros a. unfold L2. destruct (N.eqb_spec a to) as [->|Hat]; cbn [when].
    + rewrite write_same. unfold w, L1. destruct (N.eqb_spec to from) as [->|Hne]; cbn [when].
      * rewrite write_same. fold b. lia.
      * rewrite write_other by congruence. lia.
    + rewrite write_other by congruence. unfold L1. destruct (N.eqb_spec a from) as [->|Hne]; cbn [when].
      * rewrite write_same. fold b. lia.
      * rewrite write_other by congruence. lia.
  - intros id' a Hne. unfold L2, L1. by rewrite !write_other by congruence.
  - lia.
  - apply write_holders; [apply write_holders; [done|]|]; fold L1; fold L2; lia.
  - destruct (decide (to = from)) as [->|Hne].
    + assert (w = b - amount) as Ew by apply write_same. fold b. rewrite Ew in H2.
      destruct (N.eqb_spec b 0), (N.eqb_spec (b - amount) 0), (N.eqb_spec (b - amount + amount) 0), (N.ltb_spec 0 amount);
        cbn [negb when andb] in *; lia.
    + assert (w = word (lg_balances L) (id, to)) as <- by (unfold w, L1; apply write_other; congruence).
      destruct (N.eqb_spec b 0), (N.eqb_spec (b - amount) 0), (N.eqb_spec w 0), (N.eqb_spec (w + amount) 0), (N.ltb_spec 0 amount);
        cbn [negb when andb] in *; lia.
  - intros id' Hne H. by apply write_ok_other, write_ok_other.
Qed.

(** The frozen part stays covered when the sender keeps it. *)
Lemma moved_ok L L' id from to amount :
  Moved L L' id from to amount -> TokenOk L id ->
  frozen L id from + amount <= word (lg_balances L) (id, from) -> TokenOk L' id.
Proof.
  intros [Hb Ho Hs Hc Hh Ht Hf Hn Hoth] [S W M H F] Hfree. split.
  - rewrite Hs. unfold recorded_supply, read_token. rewrite Ht. exact S.
  - by rewrite Hs.
  - unfold read_token. rewrite Ht. exact M.
  - done.
  - intros a. specialize (Hb a). specialize (F a). unfold frozen in *. rewrite Hf.
    destruct (N.eqb_spec a from) as [Ea|Ea], (a =? to); cbn [when] in Hb; try rewrite Ea in *; lia.
Qed.

(** ** Every operation keeps it *)

Lemma move_native_frame L from to amount :
  let L' := (move_balance L tnzo_id from to amount).1 in
  lg_balances L' = lg_balances L /\ lg_holders L' = lg_holders L /\ lg_frozen L' = lg_frozen L /\ lg_tokens L' = lg_tokens L.
Proof. unfold move_balance, set_balance. rewrite N.eqb_refl. cbn zeta. repeat case_match; done. Qed.

Lemma can_transfer_ok L id from to amount now :
  id <> tnzo_id -> can_transfer L id from to amount now = Ok tt ->
  exists r, read_token L id = Some r /\ halted L id = false /\ omap (locked now) (tr_eligibility r) = []
    /\ (amount <= word (lg_balances L) (id, from) ->
        N.min (frozen L id from) (word (lg_balances L) (id, from)) + amount <= word (lg_balances L) (id, from))
    /\ can_receive L id r to amount now = Ok tt.
Proof.
  intros Hid. unfold can_transfer. rewrite (proj2 (N.eqb_neq _ _)) by done. intros H.
  apply rbind_ok in H as (r & Hr & H). apply guard_ok in H as [Hh H]. apply guard_ok in H as [Hf H].
  destruct (omap _ _) as [|u us] eqn:El; [|done]. exists r.
  destruct (read_token L id) as [r'|]; [|done]. injection Hr as ->. split_and!; try done.
  - unfold halted. by rewrite Hh.
  - intros Ha. rewrite (proj2 (N.leb_le _ _)), andb_true_l, negb_true_iff, N.ltb_ge in Hf by done. unfold spendable in Hf. lia.
Qed.

Lemma transfer_ok L id from to amount now : LedgerOk L -> LedgerOk (transfer L id from to amount now).1.
Proof.
  intros HL id' Hid'. specialize (HL id' Hid') as Hok. unfold transfer.
  destruct (can_transfer L id from to amount now) as [[]|r] eqn:E; [|done].
  destruct (decide (id = tnzo_id)) as [->|Hid].
  { destruct (move_native_frame L from to amount) as (Eb & Eh & Ef & Et).
    apply (token_ok_frame L); [done|done|unfold frozen; by rewrite Ef|unfold read_token; by rewrite Et|done]. }
  apply can_transfer_ok in E as (r & Hr & _ & _ & Hf & _); [|done].
  destruct (N.ltb_spec (balance L id from) amount) as [Hlt|Hge]; [by rewrite move_short|].
  rewrite balance_factory in Hge by done. pose proof (HL id Hid) as Hokid.
  destruct (move_factory L id from to amount Hid (ok_width _ _ Hokid) (ok_holders _ _ Hokid) Hge) as (L' & -> & HM).
  destruct (decide (id' = id)) as [->|Hne]; [|by eapply mv_others].
  eapply moved_ok; [done|done|]. pose proof (ok_frozen _ _ Hokid from). specialize (Hf Hge). lia.
Qed.

Lemma forced_ok L id from to amount now : LedgerOk L -> LedgerOk (forced_transfer L id from to amount now).1.
Proof.
  intros HL id' Hid'. specialize (HL id' Hid') as Hok. unfold forced_transfer.
  destruct (read_token L id) as [r|] eqn:Er; [|done]. destruct (can_receive _ _ _ _ _ _) as [[]|]; [|done].
  destruct (decide (id = tnzo_id)) as [->|Hid].
  { pose proof (move_native_frame L from to amount) as F. destruct (move_balance L tnzo_id from to amount) as [L1 res].
    cbn [fst] in F. destruct F as (Eb & Eh & Ef & Et).
    apply (token_ok_frame L); unfold read_token; try (destruct res as [[]|]; repeat case_match; cbn; by rewrite ?Eb, ?Eh, ?Et).
    intros a. unfold frozen. destruct res as [[]|]; repeat case_match; cbn; rewrite ?Ef; try done.
    apply word_insert_ne. congruence. }
  destruct (N.ltb_spec (balance L id from) amount) as [Hlt|Hge]; [by rewrite move_short|].
  rewrite balance_factory in Hge by done. pose proof (HL id Hid) as Hokid.
  destruct (move_factory L id from to amount Hid (ok_width _ _ Hokid) (ok_holders _ _ Hokid) Hge) as (L1 & -> & HM).
  rewrite (balance_factory L1) by done. set (left := word (lg_balances L1) (id, from)).
  destruct (decide (id' = id)) as [->|Hne].
  - assert (forall a, a <> from -> frozen L1 id a <= word (lg_balances L1) (id, a)) as Hrest.
    { intros a Ha. pose proof (mv_balance _ _ _ _ _ _ HM a) as Hb. pose proof (ok_frozen _ _ Hokid a).
      rewrite (proj2 (N.eqb_neq a from)) in Hb by done. unfold frozen in *. rewrite (mv_frozen _ _ _ _ _ _ HM).
      destruct (a =? to); cbn [when] in Hb; lia. }
    destruct Hokid as [S W M H F]. pose proof (mv_tokens _ _ _ _ _ _ HM) as Ht.
    unfold frozen_after. destruct (N.eqb_spec (N.min (frozen L1 id from) left) (frozen L1 id from)) as [Hle|Hgt]; cbn [fst];
      (split; unfold supply_of, recorded_supply, holders_of, read_token in *; cbn [with_frozen lg_balances lg_tokens lg_holders lg_frozen];
       [rewrite Ht; etrans; [apply (mv_supply _ _ _ _ _ _ HM)|exact S] | rewrite <-W; apply N.eq_le_incl, (mv_supply _ _ _ _ _ _ HM)
       |rewrite Ht; exact M|apply (mv_count _ _ _ _ _ _ HM)|]);
      intros a; destruct (decide (a = from)) as [->|Ha]; [fold left; lia|by apply Hrest| |].
    + unfold frozen. cbn [with_frozen lg_frozen lg_balances]. rewrite word_insert. done.
    + unfold frozen. cbn [with_frozen lg_frozen lg_balances]. rewrite word_insert_ne by congruence. by apply Hrest.
  - destruct (_ =? _); cbn [fst]; [by eapply mv_others|].
    apply (token_ok_frame L1); [done|done| |done|by eapply mv_others].
    intros a. apply word_insert_ne. congruence.
Qed.

Lemma supply_within_le total max : initial_supply_within total max = true -> forall n, n <= total -> initial_supply_within n max = true.
Proof. unfold initial_supply_within. destruct max as [m|]; [|done]. rewrite N.leb_le. intros H n Hn. apply N.leb_le. lia. Qed.

(** A token's record and one balance written together. *)
Lemma issue_ok L id o v r :
  TokenOk L id -> frozen L id o <= v ->
  supply_of L id + v = tr_total_supply r + word (lg_balances L) (id, o) -> tr_total_supply r <= U128_MAX ->
  initial_supply_within (tr_total_supply r) (tr_max_supply r) = true ->
  TokenOk (write_balance (with_tokens L (<[id := r]> (lg_tokens L))) id o v) id.
Proof.
  intros [S W M H F] Hf Hs Hw Hm. set (L0 := with_tokens L _).
  pose proof (write_supply L0 id o v) as E. change (supply_of L0 id) with (supply_of L id) in E.
  change (word (lg_balances L0) (id, o)) with (word (lg_balances L) (id, o)) in E.
  assert (supply_of (write_balance L0 id o v) id = tr_total_supply r) as E' by lia.
  assert (read_token (write_balance L0 id o v) id = Some r) as Er by apply lookup_insert_eq. split.
  - unfold recorded_supply. by rewrite Er.
  - lia.
  - rewrite Er. by intros r' [= <-].
  - apply write_holders; [exact H|lia].
  - intros a. destruct (decide (a = o)) as [->|Ha]; [by rewrite write_same|]. apply write_frozen; [done|]. apply F.
Qed.

Lemma issue_ok_other L id o v r id' :
  id' <> id -> TokenOk L id' -> TokenOk (write_balance (with_tokens L (<[id := r]> (lg_tokens L))) id o v) id'.
Proof.
  intros Hne Hok. apply write_ok_other; [done|]. apply (token_ok_frame L); try done.
  unfold read_token. cbn. by rewrite lookup_insert_ne.
Qed.

Lemma mint_ok L id to amount now L' : id <> tnzo_id -> LedgerOk L -> mint L id to amount now = Ok L' -> LedgerOk L'.
Proof.
  intros Hid HL. unfold mint. rewrite rbind_ok. intros (r & Hr & H).
  destruct (can_receive _ _ _ _ _ _); [|done]. apply rbind_ok in H as (s & Hs & H).
  apply rbind_ok in H as (held & Hh & [= <-]).
  destruct (read_token L id) as [r'|] eqn:Er; [|done]. injection Hr as ->.
  unfold supply_after_mint, checked_add128 in Hs.
  destruct (N.leb_spec (tr_total_supply r + amount) U128_MAX) as [Hw|]; [|done].
  destruct (initial_supply_within _ _) eqn:Hm; [|done]. injection Hs as <-.
  unfold checked_add128 in Hh. destruct (_ <=? _); [|done]. injection Hh as <-.
  cbn [with_tokens lg_balances]. intros id' Hid'. destruct (decide (id' = id)) as [->|Hne]; [|by apply issue_ok_other, HL].
  pose proof (HL id Hid) as Hok. apply issue_ok; cbn [with_supply tr_total_supply tr_max_supply]; try done.
  - pose proof (ok_frozen _ _ Hok to). lia.
  - rewrite (ok_supply _ _ Hok). unfold recorded_supply. rewrite Er. cbn. lia.
Qed.

Lemma burn_ok L id from amount L' : id <> tnzo_id -> LedgerOk L -> burn L id from amount = Ok L' -> LedgerOk L'.
Proof.
  intros Hid HL. unfold burn. rewrite rbind_ok. intros (r & Hr & H). apply guard_ok in H as [_ H].
  apply guard_ok in H as [Ha [= <-]]. destruct (read_token L id) as [r'|] eqn:Er; [|done]. injection Hr as ->.
  pose proof (HL id Hid) as Hok. pose proof (ok_frozen _ _ Hok from) as Hf. pose proof (ok_supply _ _ Hok) as Hs.
  unfold recorded_supply in Hs. rewrite Er in Hs. cbn [from_option] in Hs.
  pose proof (account_le_supply L id from) as Hle. pose proof (ok_width _ _ Hok) as Hw.
  unfold spendable in Ha. rewrite N.leb_le in Ha. set (b := word (lg_balances L) (id, from)) in *.
  set (r2 := with_supply r (tr_total_supply r - amount)).
  change (LedgerOk (write_balance (with_tokens L (<[id := r2]> (lg_tokens L))) id from (b - amount))).
  intros id' Hid'. destruct (decide (id' = id)) as [->|Hne]; [|by apply issue_ok_other, HL].
  apply issue_ok; cbn [r2 with_supply tr_total_supply tr_max_supply]; try done; fold b; try lia.
  eapply supply_within_le; [by apply (ok_max _ _ Hok)|]. lia.
Qed.

Lemma set_frozen_ok L id o amount L' : LedgerOk L -> set_frozen L id o amount = Ok L' -> LedgerOk L'.
Proof.
  intros HL. unfold set_frozen. rewrite rbind_ok. intros (n & Hn & [= <-]) id' Hid'. pose proof (HL id' Hid') as [S W M H F].
  unfold freeze_within in Hn. destruct (N.leb_spec amount (balance L id o)) as [Hle|]; [|done]. injection Hn as <-.
  split; try done. intros a. unfold frozen. cbn [with_frozen lg_frozen lg_balances].
  destruct (decide ((id', a) = (id, o))) as [[= -> ->]|Hne].
  - rewrite word_insert. by rewrite balance_factory in Hle.
  - rewrite word_insert_ne by done. apply F.
Qed.

Section issuing.
Context (token_id : Address -> N -> TokenId) (facade_address : TokenId -> N).

(** A new id is one without a record. *)
Lemma create_ok L creator spec L' id :
  LedgerOk L -> create token_id facade_address L creator spec = Ok (L', id) ->
  read_token L id = None -> id <> tnzo_id -> tr_total_supply spec <= U128_MAX -> LedgerOk L'.
Proof.
  intros HL H Hnew Hid Hw. unfold create in H. apply guard_ok in H as [_ H]. apply guard_ok in H as [Hm H].
  injection H as HL' Hid0. set (r := mkToken _ _ _ _ _ _ _) in HL'. rewrite Hid0 in HL'.
  pose proof (HL id Hid) as Hok. pose proof (ok_supply _ _ Hok) as Hs. unfold recorded_supply in Hs. rewrite Hnew in Hs.
  cbn [from_option] in Hs. pose proof (account_le_supply L id creator). pose proof (ok_frozen _ _ Hok creator).
  intros id' Hid'. rewrite <-HL'. apply (token_ok_frame (write_balance (with_tokens L (<[id := r]> (lg_tokens L))) id creator (tr_total_supply spec))); try done.
  destruct (decide (id' = id)) as [->|Hne]; [|by apply issue_ok_other, HL]. apply issue_ok; cbn [r tr_total_supply tr_max_supply]; try done; lia.
Qed.

Lemma define_ok L id r : tr_total_supply r = 0 -> LedgerOk L -> LedgerOk (define facade_address L id r).
Proof.
  intros Hz HL id' Hid'. unfold define. destruct (read_token L id) eqn:Er; [by apply HL|].
  pose proof (HL id' Hid') as [S W M H F]. split; try done.
  - etrans; [exact S|]. unfold recorded_supply, read_token in *. cbn. destruct (decide (id' = id)) as [->|Hne].
    + by rewrite lookup_insert_eq, Er.
    + by rewrite lookup_insert_ne.
  - unfold read_token in *. cbn. intros r'. destruct (decide (id' = id)) as [->|Hne].
    + rewrite lookup_insert_eq. intros [= <-]. rewrite Hz. unfold initial_supply_within.
      destruct (tr_max_supply r); [by apply N.leb_le, N.le_0_l|done].
    + rewrite lookup_insert_ne by done. apply M.
Qed.

(** One operation on the ledger, and what the other modules do to the store:
    native balances, claims, identities, terms, and a token's rules. *)
Definition with_rules (r : TokenRecord) (rules : list Rule) : TokenRecord :=
  mkToken (tr_name r) (tr_symbol r) (tr_decimals r) (tr_total_supply r) (tr_creator r) (tr_max_supply r) rules.

Definition with_registry (L : Ledger) claims identities terms : Ledger :=
  mkLedger (lg_native L) (lg_tokens L) (lg_balances L) (lg_holders L) (lg_frozen L) (lg_halted L) claims
    identities terms (lg_nonces L) (lg_count L) (lg_facades L).

Inductive token_step (L : Ledger) : Ledger -> Prop :=
| StepCreate creator spec L' id :
    create token_id facade_address L creator spec = Ok (L', id) ->
    read_token L id = None -> id <> tnzo_id -> tr_total_supply spec <= U128_MAX -> token_step L L'
| StepDefine id r : tr_total_supply r = 0 -> token_step L (define facade_address L id r)
| StepMint id to amount now L' : id <> tnzo_id -> mint L id to amount now = Ok L' -> token_step L L'
| StepBurn id from amount L' : id <> tnzo_id -> burn L id from amount = Ok L' -> token_step L L'
| StepFreeze id owner amount L' : set_frozen L id owner amount = Ok L' -> token_step L L'
| StepHalt id halt : token_step L (set_halted L id halt)
| StepTransfer id from to amount now : token_step L (transfer L id from to amount now).1
| StepForced id from to amount now : token_step L (forced_transfer L id from to amount now).1
| StepNative native : token_step L (with_native L native)
| StepRegistry claims identities terms : token_step L (with_registry L claims identities terms)
| StepRules id r rules :
    read_token L id = Some r -> token_step L (with_tokens L (<[id := with_rules r rules]> (lg_tokens L))).

Lemma token_step_ok L L' : LedgerOk L -> token_step L L' -> LedgerOk L'.
Proof.
  intros HL [].
  - by eapply create_ok.
  - by apply define_ok.
  - by eapply mint_ok.
  - by eapply burn_ok.
  - by eapply set_frozen_ok.
  - intros id' Hid'. by apply (token_ok_frame L); [..|apply HL].
  - by apply transfer_ok.
  - by apply forced_ok.
  - intros id' Hid'. by apply (token_ok_frame L); [..|apply HL].
  - intros id' Hid'. by apply (token_ok_frame L); [..|apply HL].
  - intros id' Hid'. pose proof (HL id' Hid') as [S W M Hh F].
    split; try done; unfold recorded_supply, read_token in *; cbn [with_tokens lg_tokens lg_balances].
    + etrans; [exact S|]. destruct (decide (id' = id)) as [->|Hne]; [by rewrite H, lookup_insert_eq|by rewrite lookup_insert_ne].
    + destruct (decide (id' = id)) as [->|Hne]; [rewrite lookup_insert_eq|by rewrite lookup_insert_ne].
      intros r' [= <-]. exact (M r H).
Qed.

Lemma empty_ledger_ok : LedgerOk empty_ledger.
Proof.
  intros id _. split; try done; unfold supply_of, holders_of; cbn [empty_ledger lg_balances]; rewrite ?msum_empty; try done.
Qed.
End issuing.

(** ** The theorems *)

Abbreviation reachable token_id facade_address := (rtc (token_step token_id facade_address) empty_ledger).

Lemma reachable_ok token_id facade_address L : reachable token_id facade_address L -> LedgerOk L.
Proof.
  intros H. remember empty_ledger as L0 eqn:E. pose proof empty_ledger_ok as Hok. rewrite <-E in Hok. clear E.
  induction H as [|L L1 L2 Hs _ IH]; [done|]. apply IH. by eapply token_step_ok.
Qed.

(** C18: whatever is issued, moved, frozen, seized, burned or regoverned, the
    accounts of a token hold exactly its recorded supply, which stays within the
    token's maximum; its holder count is the number of accounts that hold some;
    and no freeze exceeds the balance it holds back. *)
Theorem token_invariant token_id facade_address L id :
  reachable token_id facade_address L -> id <> tnzo_id ->
  supply_of L id = recorded_supply L id
  /\ (forall r, read_token L id = Some r -> initial_supply_within (tr_total_supply r) (tr_max_supply r) = true)
  /\ word (lg_holders L) id = holders_of L id
  /\ (forall a, frozen L id a <= balance L id a).
Proof.
  intros Hr Hid. destruct (reachable_ok _ _ _ Hr id Hid) as [S W M H F]. split_and!; try done.
  intros a. by rewrite balance_factory.
Qed.

(** A token of ten units: four of the issuer's frozen, the other six moved. *)
Definition ten_units : TokenRecord := mkToken (str "Ten") (str "TEN") 0 10 7 (Some 12) [MaxHolders 2; MaxBalanceBps 9000].

Definition ten_created : Ledger :=
  match create (fun c n => c + n) (fun t => t) empty_ledger 7 ten_units with Ok (L, _) => L | Err _ => empty_ledger end.
Definition ten_frozen : Ledger := match set_frozen ten_created 7 7 4 with Ok L => L | Err _ => ten_created end.
Definition ten_moved : Ledger := (transfer ten_frozen 7 7 8 6 0).1.

Lemma ten_reachable : reachable (fun c n => c + n) (fun t => t) ten_moved.
Proof.
  apply rtc_l with ten_created.
  { apply (StepCreate _ _ _ 7 ten_units _ 7); [vm_compute; reflexivity|vm_compute; reflexivity|vm_compute; discriminate|].
    apply N.leb_le. vm_compute. reflexivity. }
  apply rtc_l with ten_frozen; [|apply rtc_once, StepTransfer].
  apply (StepFreeze _ _ _ 7 7 4). vm_compute. reflexivity.
Qed.

Lemma token_invariant_witness :
  reachable (fun c n => c + n) (fun t => t) ten_moved /\ supply_of ten_moved 7 = 10 /\ recorded_supply ten_moved 7 = 10.
Proof.
  assert (7 <> tnzo_id) as H by (vm_compute; discriminate).
  destruct (token_invariant _ _ ten_moved 7 ten_reachable H) as (E & _).
  split; [exact ten_reachable|]. split; [rewrite E|]; vm_compute; reflexivity.
Defined.

Lemma can_receive_iff L id r to amount now :
  can_receive L id r to amount now = Ok tt <->
  forall rule, rule ∈ tr_eligibility r -> rule_allows L id r to amount now rule = true.
Proof.
  unfold can_receive. destruct (list_find _ _) as [[i rule]|] eqn:E.
  - apply list_find_Some in E as (Hi & Hr & _). split; [done|]. intros H.
    rewrite H in Hr; [done|]. by eapply list_elem_of_lookup_2.
  - apply list_find_None in E. split; [|done]. intros _ rule Hr. rewrite Forall_forall in E.
    specialize (E rule Hr). cbn in E. by destruct (rule_allows _ _ _ _ _ _ _).
Qed.

Lemma can_transfer_intro L id from to amount now r :
  id <> tnzo_id -> frozen L id from <= balance L id from -> read_token L id = Some r -> halted L id = false ->
  (forall until, Lockup until ∈ tr_eligibility r -> (until <= now)%Z) -> frozen L id from + amount <= balance L id from ->
  (forall rule, rule ∈ tr_eligibility r -> rule_allows L id r to amount now rule = true) ->
  can_transfer L id from to amount now = Ok tt.
Proof.
  intros Hid Hf Er Hh Hl Ha Hrules. unfold can_transfer. rewrite (proj2 (N.eqb_neq _ _)), Er by done. cbn [ok_or rbind].
  apply guard_ok. split; [unfold halted in Hh; by destruct (_ =? 0)|].
  rewrite <-balance_factory by done. apply guard_ok. split.
  { unfold spendable. apply negb_true_iff, andb_false_iff. right. apply N.ltb_ge. lia. }
  destruct (omap _ _) as [|u us] eqn:El; [by apply can_receive_iff|].
  assert (u ∈ omap (locked now) (tr_eligibility r)) as Hu by (rewrite El; left).
  apply list_elem_of_omap in Hu as ([] & Hin & Hu); try done. cbn in Hu. apply Hl in Hin.
  destruct (Z.ltb_spec now until_ms); [lia|done].
Qed.

(** C21: a holder's transfer of a factory token goes through exactly when the
    token is known, not halted and past every lockup, the amount is within what
    the issuer left unfrozen, and every rule lets the recipient receive it. Then
    it moves that amount from the one account to the other and touches no other
    balance; in every other case the ledger is as it was. No balance overflows. *)
Theorem transfer_spec token_id facade_address L id from to amount now :
  reachable token_id facade_address L -> id <> tnzo_id ->
  let '(L', res) := transfer L id from to amount now in
  (res = Ok true <->
     exists r, read_token L id = Some r /\ halted L id = false
       /\ (forall until, Lockup until ∈ tr_eligibility r -> (until <= now)%Z)
       /\ frozen L id from + amount <= balance L id from
       /\ forall rule, rule ∈ tr_eligibility r -> rule_allows L id r to amount now rule = true)
  /\ (res = Ok true -> forall id' a, balance L' id' a + when ((id' =? id) && (a =? from)) amount
                        = balance L id' a + when ((id' =? id) && (a =? to)) amount)
  /\ (res <> Ok true -> L' = L) /\ res <> Err BalanceOverflow.
Proof.
  intros Hr Hid. pose proof (reachable_ok _ _ _ Hr id Hid) as Hok. pose proof (ok_frozen _ _ Hok from) as Hf.
  rewrite <-balance_factory in Hf by done.
  unfold transfer. destruct (can_transfer L id from to amount now) as [[]|e] eqn:E.
  2:{ split_and!; try done. split; [done|]. intros (r & Er & Hh & Hl & Ha & Hrules). by rewrite (can_transfer_intro L id from to amount now r) in E. }
  destruct (N.ltb_spec (balance L id from) amount) as [Hlt|Hge].
  { rewrite move_short by done. split_and!; try done. split; [done|]. intros (r & _ & _ & _ & Ha & _). lia. }
  rewrite balance_factory in Hge by done.
  destruct (move_factory L id from to amount Hid (ok_width _ _ Hok) (ok_holders _ _ Hok) Hge) as (L' & -> & HM).
  apply can_transfer_ok in E as (r & Er & Hh & Hl & Hfree & Hrec); [|done].
  split_and!; [|intros _ id' a|by destruct 1|done].
  - split; [intros _|done]. exists r. split_and!; try done.
    + intros u Hu. destruct (Z.le_gt_cases u now) as [|Hgt]; [done|].
      assert (u ∈ omap (locked now) (tr_eligibility r)) as Hin; [|rewrite Hl in Hin; by apply elem_of_nil in Hin].
      apply list_elem_of_omap. exists (Lockup u). split; [done|]. cbn. by rewrite (proj2 (Z.ltb_lt _ _)).
    + specialize (Hfree Hge). rewrite balance_factory in Hf |- * by done. lia.
    + by apply can_receive_iff.
  - destruct (N.eqb_spec id' id) as [->|Hne]; cbn [andb when].
    + rewrite !balance_factory by done. apply HM.
    + rewrite !N.add_0_r. unfold balance. destruct (id' =? tnzo_id); [by rewrite (mv_native _ _ _ _ _ _ HM)|].
      by apply (mv_other _ _ _ _ _ _ HM).
Qed.

Lemma transfer_spec_witness :
  (transfer ten_frozen 7 7 8 7 0).2 <> Ok true /\ balance (transfer ten_moved 7 8 7 2 0).1 7 8 = 4.
Proof.
  assert (7 <> tnzo_id) as H by (vm_compute; discriminate).
  pose proof (transfer_spec _ _ ten_moved 7 8 7 2 0 ten_reachable H) as S.
  split; [vm_compute; discriminate|].
  destruct (transfer ten_moved 7 8 7 2 0) as [L' res] eqn:E. destruct S as (_ & S & _).
  assert (res = Ok true) as Hres by (vm_compute in E; congruence).
  specialize (S Hres 7 8). change (balance ten_moved 7 8) with 6 in S.
  change (when ((7 =? 7) && (8 =? 8)) 2) with 2 in S. change (when ((7 =? 7) && (8 =? 7)) 2) with 0 in S.
  cbn [fst]. lia.
Defined.

(** ** The cap on holders *)

Lemma receive_under_cap L id r to amount now max :
  can_receive L id r to amount now = Ok tt -> MaxHolders max ∈ tr_eligibility r -> word (lg_holders L) id = holders_of L id ->
  holders_of L id + when ((word (lg_balances L) (id, to) =? 0) && (0 <? amount)) 1 <= N.max (holders_of L id) max.
Proof.
  intros H Hin Hh. apply can_receive_iff with (rule := MaxHolders max) in H; [|done]. cbn in H. rewrite Hh in H.
  destruct (word _ _ =? 0), (0 <? amount); cbn [andb when negb] in *; try lia.
  apply negb_true_iff, N.leb_gt in H. lia.
Qed.

Lemma move_holders L id from to amount :
  TokenOk L id -> id <> tnzo_id ->
  holders_of (move_balance L id from to amount).1 id
    <= holders_of L id + when ((word (lg_balances L) (id, to) =? 0) && (0 <? amount)) 1.
Proof.
  intros Hok Hid. destruct (N.ltb_spec (balance L id from) amount) as [Hlt|Hge]; [rewrite move_short by done; cbn [fst]; lia|].
  rewrite balance_factory in Hge by done.
  destruct (move_factory L id from to amount Hid (ok_width _ _ Hok) (ok_holders _ _ Hok) Hge) as (L' & -> & HM). apply HM.
Qed.

Lemma move_holders_other L id from to amount id' :
  id' <> id -> holders_of (move_balance L id from to amount).1 id' = holders_of L id'.
Proof.
  intros Hne. unfold move_balance, set_balance. repeat case_match; cbn [fst]; try done; unfold holders_of in *.
  - etrans; [apply (write_holders_other (write_balance L id from (balance L id from - amount)))|apply write_holders_other]; done.
  - by apply (write_holders_other L id from _ id').
Qed.

(** A balance written so that it is not zero where it was not, or grows from
    zero, adds at most that one holder. *)
Lemma write_holders_le L id o v id' :
  holders_of (write_balance L id o v) id' <=
  holders_of L id' + when ((id' =? id) && (word (lg_balances L) (id, o) =? 0) && negb (v =? 0)) 1.
Proof.
  destruct (N.eqb_spec id' id) as [->|Hne]; cbn [andb].
  - pose proof (write_holders_of L id o v) as E. destruct (word _ _ =? 0), (v =? 0); cbn [when negb andb] in *; lia.
  - etrans; [apply N.eq_le_incl; by apply (write_holders_other L id o v id')|]. cbn [when]. lia.
Qed.

Section capped.
Context (L : Ledger) (id : TokenId) (r : TokenRecord) (max : N).
Context (Hok : TokenOk L id) (Hid : id <> tnzo_id) (Er : read_token L id = Some r) (Hin : MaxHolders max ∈ tr_eligibility r).

Lemma create_holders token_id facade_address creator spec L' id' :
  create token_id facade_address L creator spec = Ok (L', id') -> read_token L id' = None -> holders_of L' id = holders_of L id.
Proof.
  intros Hc Hn. unfold create in Hc. apply guard_ok in Hc as [_ Hc]. apply guard_ok in Hc as [_ [= <- Hid']]. rewrite Hid'.
  assert (id <> id') as Hne by congruence. etrans; [apply (write_holders_other _ id' creator _ id Hne)|done].
Qed.

Lemma mint_holders id' to amount now L' : mint L id' to amount now = Ok L' -> holders_of L' id <= N.max (holders_of L id) max.
Proof.
  intros Hm. unfold mint in Hm. apply rbind_ok in Hm as (r1 & Hr1 & Hm).
  destruct (can_receive _ _ _ _ _ _) as [[]|] eqn:Hrec; [|done]. apply rbind_ok in Hm as (s & _ & Hm).
  apply rbind_ok in Hm as (held & Hheld & [= <-]). cbn [with_tokens lg_balances] in Hheld.
  unfold checked_add128 in Hheld. destruct (_ <=? _); [|done]. injection Hheld as <-.
  etrans; [apply write_holders_le|]. cbn [with_tokens lg_balances]. change (holders_of (with_tokens L _) id) with (holders_of L id).
  destruct (N.eqb_spec id id') as [<-|Hne]; cbn [andb when]; [|lia]. rewrite Er in Hr1. injection Hr1 as <-.
  pose proof (receive_under_cap _ _ _ _ _ _ _ Hrec Hin (ok_holders _ _ Hok)) as Hcap. etrans; [|exact Hcap].
  destruct (N.eqb_spec (word (lg_balances L) (id, to)) 0), (N.eqb_spec (word (lg_balances L) (id, to) + amount) 0), (N.ltb_spec 0 amount);
    cbn [when negb andb] in *; lia.
Qed.

Lemma burn_holders id' from amount L' : burn L id' from amount = Ok L' -> holders_of L' id <= holders_of L id.
Proof.
  intros Hb. unfold burn in Hb. apply rbind_ok in Hb as (r1 & _ & Hb). apply guard_ok in Hb as [_ Hb].
  apply guard_ok in Hb as [_ [= <-]]. etrans; [apply write_holders_le|].
  destruct (N.eqb_spec (word (lg_balances L) (id', from)) 0) as [->|]; cbn [negb N.eqb];
    rewrite ?N.sub_0_l, ?andb_false_r; cbn [N.eqb negb]; rewrite ?andb_false_r; cbn [when andb]; lia.
Qed.

(** A move to a recipient the rules accept. *)
Lemma accepted_holders id' r' from to amount now :
  read_token L id' = Some r' -> can_receive L id' r' to amount now = Ok tt ->
  holders_of (move_balance L id' from to amount).1 id <= N.max (holders_of L id) max.
Proof.
  intros Er' Hrec. destruct (decide (id = id')) as [<-|Hne]; [|rewrite move_holders_other by done; lia].
  rewrite Er in Er'. injection Er' as <-. etrans; [by apply move_holders|]. eapply receive_under_cap; [done|done|apply Hok].
Qed.
End capped.

(** C22: a token whose rules cap its holders never comes to have more of them by
    anything the ledger does: no operation leaves more accounts holding it than
    the cap, unless as many held it before. *)
Theorem holders_capped token_id facade_address L L' id r max :
  reachable token_id facade_address L -> token_step token_id facade_address L L' ->
  id <> tnzo_id -> read_token L id = Some r -> MaxHolders max ∈ tr_eligibility r ->
  holders_of L' id <= N.max (holders_of L id) max.
Proof.
  intros Hr Hs Hid Er Hin. pose proof (reachable_ok _ _ _ Hr id Hid) as Hok.
  assert (holders_of L id <= N.max (holders_of L id) max) as Hsame by lia.
  destruct Hs as [creator spec L' id' Hc Hn Ht Hw|id' r' Hz|id' to amount now L' Ht Hm|id' from amount L' Ht Hb|id' o amount L' Hf
    |id' halt|id' from to amount now|id' from to amount now|native|claims ids terms|id' r' rules Er']; try exact Hsame.
  - by rewrite (create_holders _ _ _ Er _ _ _ _ _ _ Hc Hn).
  - unfold define. case_match; exact Hsame.
  - by eapply mint_holders.
  - etrans; [by eapply burn_holders|done].
  - unfold set_frozen in Hf. apply rbind_ok in Hf as (n & _ & [= <-]). exact Hsame.
  - unfold transfer. destruct (can_transfer _ _ _ _ _ _) as [[]|] eqn:E; [|exact Hsame].
    destruct (decide (id' = tnzo_id)) as [->|Hid']; [by rewrite move_holders_other|].
    apply can_transfer_ok in E as (r1 & Er1 & _ & _ & _ & Hrec); [|done]. by eapply accepted_holders.
  - unfold forced_transfer. destruct (read_token L id') as [r1|] eqn:Er1; [|exact Hsame].
    destruct (can_receive _ _ _ _ _ _) as [[]|] eqn:Hrec; [|exact Hsame].
    pose proof (accepted_holders L id r max Hok Hid Er Hin id' r1 from to amount now Er1 Hrec) as Hmv.
    destruct (move_balance _ _ _ _ _) as [L1 [[]|]]; cbn [fst] in *; [case_match|..]; exact Hmv.
Qed.

Lemma holders_capped_witness :
  holders_of (forced_transfer ten_moved 7 8 9 1 0).1 7 <= N.max (holders_of ten_moved 7) 2
  /\ (forced_transfer ten_moved 7 8 9 1 0).2 = Err (Refused (Ineligible (MaxHolders 2))).
Proof.
  split; [|vm_compute; reflexivity].
  apply (holders_capped (fun c n => c + n) (fun t => t) _ _ _ ten_units);
    [exact ten_reachable|apply StepForced|vm_compute; discriminate|vm_compute; reflexivity|left].
Defined.
