(* ===== verification/Collateral.v ===== *)
(** Netted obligations settled from collateral
    ([tenzro-vm/src/native/payment_settlement/netting.rs]).

    A participant posts collateral into its vault, a netted plan commits by
    taking its fee from the vault and admitting the split's credits as
    obligations of the asset's open batch, and when the batch's epoch ends block
    execution nets it and pays the instructions from the debtors' vaults. The
    division is [Split], the netting [Netting], the store [Tokens]. A
    transaction that fails is undone, so [post], [withdraw] and [commit] return
    the new state or an error; [move_asset] returns both, because [settle] goes
    on after a move that fails. What the economy module does with a fee is the
    interface [Economy]; SHA-256, hexadecimal and the tree's hashes are
    parameters. Logs and change records are left out. *)

From stdpp Require Import prelude gmap list sorting strings.
From Stdlib Require Import NArith ZArith Lia.
From S2P Require Import Prelude Committee Validator Checkpoint Chain Merkle Split Netting Tokens.

Definition MAX_OBLIGATIONS_PER_BATCH : nat := N.to_nat 1024.
Definition MAX_BATCHES_PER_BLOCK : nat := 16.

(** [b"tenzro/settlement/collateral/v1"]. *)
Definition COLLATERAL_DOMAIN : list N := str "tenzro/settlement/collateral/v1".

Record NetDefault := mkDefault {
  nd_participant : Address;
  nd_owed : N;
  nd_paid : N;
}.

Record NetSettlement := mkSettlement {
  se_batch_id : list N;
  se_obligations_root : Digest;
  se_instructions : list SettlementInstruction;
  se_paid : list N;
  se_gross_total : N;
  se_net_total : N;
  se_settled_at_ms : N;
  se_defaults : list NetDefault;
}.

Record NetBatch := mkNetBatch {
  nt_asset : TokenId;
  nt_seq : N;
  nt_closes_at_ms : N;
  nt_obligations : list Obligation;
  nt_settlement : option NetSettlement;
}.

(** The messages of the module's errors, each a constructor. *)
Inductive VmError :=
| InsufficientBalance (required available : N)
| BalanceOverflows
| TokenFailed (e : TokenError)
| MoveNotCovered
| AmountNotPositive
| NotListed
| WithdrawAbove (most needed : N)
| NotNetted
| HasDefaulted
| SplitRefused (e : SplitError)
| NotConserved
| BatchFull
| NotCovered (usable fee debit : N)
| BadOpenAsset (s : Str)
| NettingFailed (e : SettlementError)
| EconomyFailed (reason : N)
| IndexOutOfBounds.

(** A leg of a plan; every kind but a netted one is the same to this module. *)
Inductive LegKind :=
| NettedLeg (asset : TokenId) (amount : N)
| OtherLeg.

Record SettlementPlan := mkPlan {
  pl_opened_by : Address;
  pl_split : SplitRule;
  pl_legs : list LegKind;
}.

(** A permitted settlement asset: its rate and decimals. *)
Record Permitted := mkPermitted {
  pm_rate_nano_usd : N;
  pm_decimals : N;
}.

(** ** Moving *)

(** [funding::move_balance]: both balances are read before either is written. *)
Definition native_move (L : Ledger) (from to : Address) (amount : N) : result VmError Ledger :=
  let from_balance := word (lg_native L) from in
  check? negb (from_balance <? amount) else InsufficientBalance amount from_balance in
  let to_balance := word (lg_native L) to in
  let? new_to := ok_or (checked_add128 to_balance amount) BalanceOverflows in
  Ok (with_native L (<[to := new_to]> (<[from := from_balance - amount]> (lg_native L)))).

Definition move_asset (L : Ledger) (asset : TokenId) (from to : Address) (amount : N) (now_ms : Z)
  : Ledger * result VmError unit :=
  if amount =? 0 then (L, Ok tt)
  else if asset =? tnzo_id then
    match native_move L from to amount with Ok L' => (L', Ok tt) | Err e => (L, Err e) end
  else
    match transfer L asset from to amount now_ms with
    | (L', Ok true) => (L', Ok tt)
    | (L', Ok false) => (L', Err MoveNotCovered)
    | (L', Err e) => (L', Err (TokenFailed e))
    end.

(** A move whose failure fails the transaction. *)
Definition must (m : Ledger * result VmError unit) : result VmError Ledger :=
  match m with (L, Ok _) => Ok L | (_, Err e) => Err e end.

(** ** Obligations *)

Definition net_debit (obs : list Obligation) (p : Address) : N :=
  let '(debit, credit) :=
    foldl (fun '(debit, credit) o =>
      (if ob_debtor o =? p then sat_add128 debit (ob_amount o) else debit,
       if ob_creditor o =? p then sat_add128 credit (ob_amount o) else credit)) (0, 0) obs in
  debit - credit.

Fixpoint netted_from (out : option (TokenId * N)) (legs : list LegKind) : option (TokenId * N) :=
  match legs with
  | [] => out
  | NettedLeg asset amount :: legs =>
      netted_from (Some (asset, sat_add128 (from_option snd 0 out) amount)) legs
  | OtherLeg :: _ => None
  end.

Definition netted_value (plan : SettlementPlan) : option (TokenId * N) := netted_from None (pl_legs plan).

(** [settlement_asset::value_e6], over 256-bit products. *)
Definition narrow (v : N) : N := N.min v U128_MAX.
Definition value_e6 (amount rate_nano_usd decimals : N) : N :=
  narrow (amount * rate_nano_usd / (10 ^ decimals * 1000)).

(** [Vec::dedup]: of equal neighbours the first stays. *)
Fixpoint dedup (l : list Address) : list Address :=
  match l with
  | [] => []
  | x :: l => match dedup l with y :: r => if x =? y then y :: r else x :: y :: r | [] => [x] end
  end.

Definition address_le (a b : Address) : Prop := a <= b.
#[global] Instance address_le_dec a b : Decision (address_le a b) := N.le_dec a b.

Definition debtors_in_order (ins : list SettlementInstruction) : list Address :=
  dedup (merge_sort address_le (dedup (in_from <$> ins))).

(** ** The module's state

    The batches, their numbers, the open list and the defaults are records of
    system storage, apart from the rest of it. *)

Record Vm := mkVm {
  vm_ledger : Ledger;
  vm_batches : gmap (TokenId * N) NetBatch;
  vm_seqs : gmap TokenId N;
  vm_open : list Str;
  vm_defaults : gmap Address (list (Str * N));
  vm_rest : gmap Str Str;
}.

Definition with_ledger (V : Vm) (L : Ledger) : Vm :=
  mkVm L (vm_batches V) (vm_seqs V) (vm_open V) (vm_defaults V) (vm_rest V).
Definition with_batch (V : Vm) (asset : TokenId) (seq : N) (b : NetBatch) : Vm :=
  mkVm (vm_ledger V) (<[(asset, seq) := b]> (vm_batches V)) (vm_seqs V) (vm_open V) (vm_defaults V) (vm_rest V).
Definition with_open (V : Vm) (open : list Str) : Vm :=
  mkVm (vm_ledger V) (vm_batches V) (vm_seqs V) open (vm_defaults V) (vm_rest V).
Definition with_seq (V : Vm) (asset : TokenId) (seq : N) : Vm :=
  mkVm (vm_ledger V) (vm_batches V) (<[asset := seq]> (vm_seqs V)) (vm_open V) (vm_defaults V) (vm_rest V).
Definition with_defaults (V : Vm) (p : Address) (l : list (Str * N)) : Vm :=
  mkVm (vm_ledger V) (vm_batches V) (vm_seqs V) (vm_open V) (<[p := l]> (vm_defaults V)) (vm_rest V).

Definition read_batch (V : Vm) (asset : TokenId) (seq : N) : option NetBatch := vm_batches V !! (asset, seq).
Definition latest_seq (V : Vm) (asset : TokenId) : option N := vm_seqs V !! asset.
Definition read_defaults (V : Vm) (p : Address) : list (Str * N) := default [] (vm_defaults V !! p).

Definition unsettled (b : NetBatch) : option NetBatch := match nt_settlement b with None => Some b | Some _ => None end.
Definition open_batch (V : Vm) (asset : TokenId) : option NetBatch :=
  latest_seq V asset ≫= fun seq => read_batch V asset seq ≫= unsettled.

(** What the economy module, the settlement assets and the governed parameters
    give this one. *)
Record Economy := {
  netting_epoch_ms : Vm -> N;
  fee_params : Vm -> FeeParams;
  permitted : Vm -> TokenId -> result VmError Permitted;
  in_kind_fee_params : Vm -> Permitted -> FeeParams;
  record_fee : Vm -> Address -> Address -> N -> FeeAllocation -> SettlementPlan -> result VmError Vm;
  admit_inflow : Vm -> TokenId -> Permitted -> N -> result VmError Vm;
  collect_in_kind : Vm -> TokenId -> Permitted -> Address -> Address -> Address -> N -> FeeAllocation -> SettlementPlan -> Z ->
                    result VmError Vm;
  count_settlement : Vm -> result VmError Vm;
}.

Section collateral.
Context (sha256 : list N -> Digest) (hex : N -> Str) (unhex : Str -> option N).
Context (empty_root : Digest) (hash_leaf : Digest -> Digest) (hash_pair : Digest -> Digest -> Digest).
Context (deposit_issuer : Address) (E : Economy).

Definition collateral_vault (p : Address) (asset : TokenId) : Address :=
  sha256 (COLLATERAL_DOMAIN ++ be_bytes 32 p ++ be_bytes 32 asset).

Definition usable_collateral (L : Ledger) (p : Address) (asset : TokenId) : N :=
  let vault := collateral_vault p asset in
  let held := balance L asset vault in
  if asset =? tnzo_id then held else held - frozen L asset vault.

Definition listed (L : Ledger) (asset : TokenId) : bool :=
  (asset =? tnzo_id) || match read_token L asset with Some t => tr_creator t =? deposit_issuer | None => false end.

Definition post (V : Vm) (sender : Address) (asset : TokenId) (amount : N) (now_ms : Z) : result VmError Vm :=
  check? negb (amount =? 0) else AmountNotPositive in
  check? listed (vm_ledger V) asset else NotListed in
  let? L := must (move_asset (vm_ledger V) asset sender (collateral_vault sender asset) amount now_ms) in
  Ok (with_ledger V L).

Definition withdraw (V : Vm) (sender : Address) (asset : TokenId) (amount : N) (now_ms : Z) : result VmError Vm :=
  let needed := from_option (fun b => net_debit (nt_obligations b) sender) 0 (open_batch V asset) in
  let usable := usable_collateral (vm_ledger V) sender asset in
  check? negb ((amount =? 0) || (usable - needed <? amount)) else WithdrawAbove (usable - needed) needed in
  let? L := must (move_asset (vm_ledger V) asset (collateral_vault sender asset) sender amount now_ms) in
  Ok (with_ledger V L).

(** The open batch, or a new one: its number, its place in the open list and
    the end of its epoch. *)
Definition batch_for (V : Vm) (asset : TokenId) (now_ms : N) : Vm * NetBatch :=
  match open_batch V asset with
  | Some b => (V, b)
  | None =>
      let epoch := N.max (netting_epoch_ms E V) 1 in
      let seq := from_option (fun s => wadd64 s 1) 0 (latest_seq V asset) in
      let V := with_seq V asset seq in
      let V := with_open V (vm_open V ++ [hex asset]) in
      (V, mkNetBatch asset seq (wadd64 (now_ms / epoch) 1 * epoch mod 2 ^ 64) [] None)
  end.

Definition push_obligations (debtor : Address) (asset : TokenId) (paid_to : list Address) (credits : list N)
    (obs : list Obligation) : list Obligation :=
  foldl (fun obs x => if (0 <? x.2) && negb (x.1 =? debtor) then obs ++ [mkObligation debtor x.1 (hex asset) x.2] else obs)
    obs (zip paid_to credits).

Definition with_obligations (b : NetBatch) (obs : list Obligation) : NetBatch :=
  mkNetBatch (nt_asset b) (nt_seq b) (nt_closes_at_ms b) obs (nt_settlement b).

(** The fee leaves the vault, which the caller checked holds it. *)
Definition take_fee (V : Vm) (plan : SettlementPlan) (asset : TokenId) (gross : N) (fee : FeeAllocation)
    (primary : Address) (perm : option Permitted) (now_ms : N) : result VmError (Vm * N) :=
  let debtor := pl_opened_by plan in
  let vault := collateral_vault debtor asset in
  match perm with
  | None =>
      let held := word (lg_native (vm_ledger V)) vault in
      let V := with_ledger V (with_native (vm_ledger V) (<[vault := held - fa_fee fee]> (lg_native (vm_ledger V)))) in
      let? V := record_fee E V debtor primary gross fee plan in
      Ok (V, fa_burn fee)
  | Some p =>
      let? V := admit_inflow E V asset p (value_e6 gross (pm_rate_nano_usd p) (pm_decimals p)) in
      let? V := collect_in_kind E V asset p vault debtor primary gross fee plan (as_i64 now_ms) in
      Ok (V, 0)
  end.

Definition commit (V : Vm) (plan : SettlementPlan) (paid_to : list Address) (now_ms : N)
  : result VmError (Vm * Allocation * N) :=
  let? ag := ok_or (netted_value plan) NotNetted in
  let '(asset, gross) := ag in
  let debtor := pl_opened_by plan in
  check? listed (vm_ledger V) asset else NotListed in
  check? bool_decide (read_defaults V debtor = []) else HasDefaulted in
  let? perm := (if asset =? tnzo_id then Ok None else let? p := permitted E V asset in Ok (Some p)) in
  let params := match perm with None => fee_params E V | Some p => in_kind_fee_params E V p end in
  let? alloc := match apply gross (pl_split plan) params 0 with Ok a => Ok a | Err e => Err (SplitRefused e) end in
  check? conserves alloc else NotConserved in
  let '(V, batch) := batch_for V asset now_ms in
  let obs := push_obligations debtor asset paid_to (al_credits alloc) (nt_obligations batch) in
  check? negb (MAX_OBLIGATIONS_PER_BATCH <? length obs)%nat else BatchFull in
  let fee := fa_fee (al_fee alloc) in
  let usable := usable_collateral (vm_ledger V) debtor asset in
  let debit := net_debit obs debtor in
  check? negb ((usable <? fee) || (usable - fee <? debit)) else NotCovered usable fee debit in
  let? primary := match remainder_at (sr_lines (pl_split plan)) with
                  | Some i => ok_or (paid_to !! i) IndexOutOfBounds
                  | None => Ok debtor
                  end in
  let? sb := take_fee V plan asset gross (al_fee alloc) primary perm now_ms in
  let '(V, burned) := sb in
  let? V := count_settlement E V in
  Ok (with_batch V asset (nt_seq batch) (with_obligations batch obs), alloc, burned).

(** ** Settling *)

(** One debtor's instructions, each with its index and its share: a share that
    moves is recorded as paid. *)
Fixpoint pay_shares (L : Ledger) (asset : TokenId) (vault : Address) (now : N)
    (claims : list ((nat * SettlementInstruction) * N)) (paid : list N) (total : N) : Ledger * list N * N :=
  match claims with
  | [] => (L, paid, total)
  | ((i, ins), share) :: claims =>
      match move_asset L asset vault (in_to ins) share (as_i64 now) with
      | (L, Ok _) => pay_shares L asset vault now claims (<[i := share]> paid) (wadd128 total share)
      | (L, Err _) => pay_shares L asset vault now claims paid total
      end
  end.

Definition claims_of (ins : list SettlementInstruction) (debtor : Address) : list (nat * SettlementInstruction) :=
  filter (fun x => in_from x.2 = debtor) (imap pair ins).

Definition settle_debtor (asset : TokenId) (seq : N) (ins : list SettlementInstruction) (now : N)
    (st : Vm * list N * list NetDefault) (debtor : Address) : Vm * list N * list NetDefault :=
  let '(V, paid, defaults) := st in
  let idx := claims_of ins debtor in
  let amounts := (fun x => in_amount x.2) <$> idx in
  let owed := wsum128 amounts in
  let usable := usable_collateral (vm_ledger V) debtor asset in
  let shares := if owed <=? usable then amounts else pro_rata usable amounts in
  let vault := collateral_vault debtor asset in
  let '(L, paid, total) := pay_shares (vm_ledger V) asset vault now (zip idx shares) paid 0 in
  let V := with_ledger V L in
  if usable <? owed then
    (with_defaults V debtor (read_defaults V debtor ++ [(hex asset, seq)]), paid, defaults ++ [mkDefault debtor owed total])
  else (V, paid, defaults).

Definition settle (V : Vm) (batch : NetBatch) (now : N) : result VmError Vm :=
  let? netted := match compute_batch sha256 hex (nt_obligations batch) with
                 | Ok b => Ok b
                 | Err e => Err (NettingFailed e)
                 end in
  let ins := nb_instructions netted in
  let '(V, paid, defaults) :=
    foldl (settle_debtor (nt_asset batch) (nt_seq batch) ins now) (V, replicate (length ins) 0, []) (debtors_in_order ins) in
  let settlement :=
    mkSettlement (nb_batch_id netted) (obligations_root sha256 empty_root hash_leaf hash_pair (nb_obligations netted)) ins paid
      (nb_gross_total netted) (nb_net_total netted) now defaults in
  Ok (with_batch V (nt_asset batch) (nt_seq batch)
        (mkNetBatch (nt_asset batch) (nt_seq batch) (nt_closes_at_ms batch) (nb_obligations netted) (Some settlement))).

Fixpoint settle_open (V : Vm) (open : list Str) (now : N) (still_open : list Str) (settled : nat)
  : result VmError (Vm * list Str * nat) :=
  match open with
  | [] => Ok (V, still_open, settled)
  | asset_hex :: open =>
      let? asset := ok_or (unhex asset_hex) (BadOpenAsset asset_hex) in
      match open_batch V asset with
      | Some batch =>
          if (nt_closes_at_ms batch <=? now) && (settled <? MAX_BATCHES_PER_BLOCK)%nat then
            let? V := settle V batch now in
            settle_open V open now still_open (S settled)
          else settle_open V open now (still_open ++ [asset_hex]) settled
      | None => settle_open V open now still_open settled
      end
  end.

Definition begin_block (V : Vm) (now_ms : Z) : result VmError (Vm * nat) :=
  if bool_decide (vm_open V = []) then Ok (V, O)
  else
    let now := Z.to_N (Z.max now_ms 0) in
    let? st := settle_open V (vm_open V) now [] O in
    let '(V, still_open, settled) := st in
    Ok (with_open V still_open, settled).
End collateral.

(** ** Two batches *)

(** A store with one balance of TNZO, and an economy that pays the treasury's
    part of a fee to account 1. *)
Definition funded (p : Address) (n : N) : Vm := mkVm (with_native empty_ledger {[p := n]}) ∅ ∅ [] ∅ ∅.

Definition credit_treasury (V : Vm) (n : N) : Vm :=
  let m := lg_native (vm_ledger V) in with_ledger V (with_native (vm_ledger V) (<[1 := word m 1 + n]> m)).

Definition plain_economy : Economy := {|
  netting_epoch_ms _ := 1000;
  fee_params _ := mkFeeParams 100 0 5000 0;
  permitted _ _ := Err (EconomyFailed 0);
  in_kind_fee_params _ _ := mkFeeParams 0 0 0 0;
  record_fee V _ _ _ fee _ := Ok (credit_treasury V (fa_treasury fee));
  admit_inflow _ _ _ _ := Err (EconomyFailed 0);
  collect_in_kind _ _ _ _ _ _ _ _ _ _ := Err (EconomyFailed 0);
  count_settlement V := Ok V;
|}.

Definition hex1 (a : N) : Str := [a].
Definition unhex1 (s : Str) : option N := match s with [a] => Some a | _ => None end.
Definition vault1 := collateral_vault from_be.

Definition payment (opener : Address) (to : Address) (amount : N) : SettlementPlan :=
  mkPlan opener (sole Payee to) [NettedLeg tnzo_id amount].

(** Account 5 posts 1000 and pays [to] 500; the batch then settles. *)
Definition pay_once (to : Address) : result VmError Vm :=
  let? V := post from_be 0 (funded 5 2000) 5 tnzo_id 1000 0 in
  let? r := commit from_be hex1 0 plain_economy V (payment 5 to 500) [to] 100 in
  Ok r.1.1.

Definition settle_once (to : Address) (now_ms : Z) : result VmError Vm :=
  let? V := pay_once to in
  let? r := begin_block from_be hex1 unhex1 0 (fun x => x) (fun a b => a + b) V now_ms in
  Ok r.1.

Definition native_total (L : Ledger) : N := msum (fun _ n => n) (lg_native L).

(** ** Net debits *)

Definition owes (obs : list Obligation) (p : Address) : N := party_out p (ob_flow <$> obs).
Definition is_owed (obs : list Obligation) (p : Address) : N := party_in p (ob_flow <$> obs).

Lemma owes_cons o obs p : owes (o :: obs) p = when (ob_debtor o =? p) (ob_amount o) + owes obs p.
Proof. done. Qed.

Lemma is_owed_cons o obs p : is_owed (o :: obs) p = when (ob_creditor o =? p) (ob_amount o) + is_owed obs p.
Proof. done. Qed.

(** The saturating sums are the sums cut at the width. *)
Lemma net_debit_sums obs p : net_debit obs p = N.min (owes obs p) U128_MAX - N.min (is_owed obs p) U128_MAX.
Proof.
  unfold net_debit.
  assert (forall d c, d <= U128_MAX -> c <= U128_MAX ->
    foldl (fun '(debit, credit) o =>
      (if ob_debtor o =? p then sat_add128 debit (ob_amount o) else debit,
       if ob_creditor o =? p then sat_add128 credit (ob_amount o) else credit)) (d, c) obs =
    (N.min (d + owes obs p) U128_MAX, N.min (c + is_owed obs p) U128_MAX)) as H.
  { induction obs as [|o obs IH]; intros d c Hd Hc.
    - cbn. f_equal; unfold owes, is_owed, party_out, party_in; cbn; lia.
    - cbn [foldl]. rewrite IH, owes_cons, is_owed_cons; unfold sat_add128, when; destruct (ob_debtor o =? p), (ob_creditor o =? p);
        try lia; f_equal; lia. }
  by rewrite H, !N.add_0_l by done.
Qed.

Lemma net_debit_app obs new p :
  Forall (fun o => ob_debtor o <> p) new -> net_debit (obs ++ new) p <= net_debit obs p.
Proof.
  intros Hn. rewrite !net_debit_sums. assert (owes (obs ++ new) p = owes obs p /\ is_owed obs p <= is_owed (obs ++ new) p) as [-> H].
  - induction obs as [|o obs IH]; cbn [app].
    + unfold owes at 2, is_owed at 1, party_out, party_in. cbn. split; [|lia].
      induction Hn as [|o new Ho Hn IH]; [done|]. rewrite owes_cons, IH, (proj2 (N.eqb_neq _ _)) by done. done.
    + rewrite !owes_cons, !is_owed_cons. lia.
  - lia.
Qed.

Lemma net_debit_nil p : net_debit [] p = 0.
Proof. done. Qed.

(** Without saturation, in one asset, it is the position the netting reduces. *)
Lemma net_debit_exact obs p : volume (ob_flow <$> obs) <= U128_MAX -> net_debit obs p = owes obs p - is_owed obs p.
Proof.
  intros H. rewrite net_debit_sums. assert (owes obs p <= volume (ob_flow <$> obs) /\ is_owed obs p <= volume (ob_flow <$> obs)); [|lia].
  clear H. induction obs as [|o obs IH]; [done|]. rewrite owes_cons, is_owed_cons. cbn [fmap list_fmap]. rewrite volume_cons. cbn [ob_flow fl_amount].
  unfold when. destruct (_ =? p), (_ =? p); lia.
Qed.

(** ** Moves *)

Record AssetMoved (L L' : Ledger) (asset : TokenId) (from : Address) (amount : N) : Prop := {
  am_from : balance L asset from <= balance L' asset from + amount;
  am_rest : forall token a, (token, a) <> (asset, from) -> balance L token a <= balance L' token a;
  am_frozen : lg_frozen L' = lg_frozen L;
}.

Lemma set_balance_same L token a v : balance (set_balance L token a v) token a = v.
Proof. unfold set_balance, balance. destruct (N.eqb_spec token tnzo_id); [apply word_insert|apply write_same]. Qed.

Lemma set_balance_other L token a v token' a' :
  (token', a') <> (token, a) -> balance (set_balance L token a v) token' a' = balance L token' a'.
Proof.
  intros Hne. unfold set_balance, balance. destruct (N.eqb_spec token tnzo_id) as [->|Ht], (N.eqb_spec token' tnzo_id) as [->|Ht']; try done.
  - apply word_insert_ne. congruence.
  - by apply write_other.
Qed.

Lemma set_balance_frame L token a v :
  lg_frozen (set_balance L token a v) = lg_frozen L /\ lg_tokens (set_balance L token a v) = lg_tokens L.
Proof. unfold set_balance. by destruct (token =? tnzo_id). Qed.

Lemma native_move_set L from to amount L' :
  native_move L from to amount = Ok L' ->
  amount <= balance L tnzo_id from /\ balance L tnzo_id to + amount <= U128_MAX /\
  L' = set_balance (set_balance L tnzo_id from (balance L tnzo_id from - amount)) tnzo_id to (balance L tnzo_id to + amount).
Proof.
  unfold native_move. rewrite guard_ok, rbind_ok. intros (Hle & n & Hn & [= <-]). unfold checked_add128 in Hn.
  rewrite !balance_native. rewrite negb_true_iff, N.ltb_ge in Hle.
  destruct (N.leb_spec (word (lg_native L) to + amount) U128_MAX) as [Hw|]; [|done]. injection Hn as <-.
  split_and!; [done|done|]. unfold set_balance. by rewrite N.eqb_refl.
Qed.

(** A move takes at most its amount from the sender, and nothing from anyone
    else, whether or not it succeeds. *)
Lemma move_asset_moved L asset from to amount now : AssetMoved L (move_asset L asset from to amount now).1 asset from amount.
Proof.
  assert (forall L, AssetMoved L L asset from amount) as Hrefl by (split; intros; done || lia).
  assert (forall n m, n <= balance L asset from -> balance L asset from <= n + amount ->
    let L1 := set_balance L asset from n in balance L asset to <= m + (if to =? from then amount else 0) ->
    AssetMoved L (set_balance L1 asset to m) asset from amount) as Hset.
  { intros n m Hn Hle L1 Hm. destruct (set_balance_frame L asset from n) as [F1 T1], (set_balance_frame L1 asset to m) as [F2 T2].
    split; [| |by rewrite F2].
    - destruct (N.eqb_spec to from) as [->|Hne]; [rewrite set_balance_same; lia|].
      rewrite set_balance_other by congruence. unfold L1. rewrite set_balance_same. lia.
    - intros token a Hne. destruct (decide ((token, a) = (asset, to))) as [[= -> ->]|Hne'].
      + rewrite set_balance_same. rewrite (proj2 (N.eqb_neq to from)) in Hm by congruence. lia.
      + unfold L1. by rewrite !set_balance_other. }
  unfold move_asset. destruct (amount =? 0); [apply Hrefl|].
  destruct (N.eqb_spec asset tnzo_id) as [->|Hid].
  - destruct (native_move L from to amount) as [L'|e] eqn:E; [|apply Hrefl].
    apply native_move_set in E as (H1 & H2 & ->). cbn [fst]. apply Hset; [lia|lia|]. destruct (to =? from); lia.
  - unfold transfer. destruct (can_transfer _ _ _ _ _ _) as [[]|]; [|apply Hrefl]. unfold move_balance.
    destruct (N.ltb_spec (balance L asset from) amount) as [|Hge]; [apply Hrefl|].
    set (L1 := set_balance L asset from _). unfold checked_add128. destruct (_ <=? U128_MAX); cbn [fst].
    + apply Hset; [lia|lia|]. fold L1. unfold L1. destruct (N.eqb_spec to from) as [->|Hne].
      * rewrite set_balance_same. lia.
      * rewrite set_balance_other by congruence. lia.
    + destruct (set_balance_frame L asset from (balance L asset from - amount)) as [F T]. split; [| |done].
      * unfold L1. rewrite set_balance_same. lia.
      * intros token a Hne. unfold L1. by rewrite set_balance_other.
Qed.

(** ** The interface of the economy *)

(** The netting records and the freezes are as they were. *)
Record Kept (V V' : Vm) : Prop := {
  kp_batches : vm_batches V' = vm_batches V;
  kp_seqs : vm_seqs V' = vm_seqs V;
  kp_open : vm_open V' = vm_open V;
  kp_defaults : vm_defaults V' = vm_defaults V;
  kp_frozen : lg_frozen (vm_ledger V') = lg_frozen (vm_ledger V);
}.

#[global] Instance Kept_preorder : PreOrder Kept.
Proof. split; [by intros V; split|]. intros V1 V2 V3 [] []. split; congruence. Qed.

Definition no_less (V V' : Vm) : Prop := forall token a, balance (vm_ledger V) token a <= balance (vm_ledger V') token a.

(** A fee is credited, counted and admitted without touching the netting records
    or lowering a balance, and one collected in kind takes no more than the fee,
    from the payer it names. *)
Class EconomyLaws (E : Economy) : Prop := {
  record_fee_law : forall V payer primary gross fee plan V',
    record_fee E V payer primary gross fee plan = Ok V' -> Kept V V' /\ no_less V V';
  admit_inflow_law : forall V asset p worth V', admit_inflow E V asset p worth = Ok V' -> Kept V V' /\ no_less V V';
  collect_in_kind_law : forall V asset p from payer primary gross fee plan now V',
    collect_in_kind E V asset p from payer primary gross fee plan now = Ok V' ->
    Kept V V' /\ AssetMoved (vm_ledger V) (vm_ledger V') asset from (fa_fee fee);
  count_settlement_law : forall V V', count_settlement E V = Ok V' -> Kept V V' /\ no_less V V';
}.

#[global] Instance plain_economy_laws : EconomyLaws plain_economy.
Proof.
  split; cbn; try done.
  - intros V _ _ _ fee _ V' [= <-]. split; [done|]. intros token a. unfold credit_treasury, balance. cbn.
    destruct (token =? tnzo_id); [|done]. destruct (decide (a = 1)) as [->|Hne].
    + rewrite word_insert. lia.
    + by rewrite word_insert_ne.
  - intros V V' [= <-]. split; [done|]. intros token a. done.
Qed.

(** ** Coverage *)

(** 32 bytes. *)
Definition is_address (p : Address) : Prop := p < 2 ^ 256.

Section covered.
Context (sha256 : list N -> Digest) (hex : N -> Str) (unhex : Str -> option N).
Context (empty_root : Digest) (hash_leaf : Digest -> Digest) (hash_pair : Digest -> Digest -> Digest).
Context (deposit_issuer : Address) (E : Economy) `{HE : !EconomyLaws E}.
Context (Hvault : forall p q a, is_address p -> is_address q -> collateral_vault sha256 p a = collateral_vault sha256 q a -> p = q).
Context (Hhex : forall a, unhex (hex a) = Some a).

Abbreviation vault := (collateral_vault sha256).
Abbreviation usable := (usable_collateral sha256).

(** Every open batch is on the open list, and in it nobody owes more, net, than
    its collateral can pay. *)
Record Covered (V : Vm) : Prop := {
  cv_keys : forall a s b, vm_batches V !! (a, s) = Some b -> nt_asset b = a /\ nt_seq b = s;
  cv_open : forall a b, open_batch V a = Some b -> hex a ∈ vm_open V;
  cv_covered : forall a b p, is_address p -> open_batch V a = Some b -> net_debit (nt_obligations b) p <= usable (vm_ledger V) p a;
}.

Lemma usable_le L L' p a n :
  lg_frozen L' = lg_frozen L -> balance L a (vault p a) <= balance L' a (vault p a) + n ->
  usable L p a <= usable L' p a + n.
Proof. intros Hf Hb. unfold usable_collateral, frozen. rewrite Hf. destruct (a =? tnzo_id); lia. Qed.

Lemma usable_mono L L' p a :
  lg_frozen L' = lg_frozen L -> balance L a (vault p a) <= balance L' a (vault p a) -> usable L p a <= usable L' p a.
Proof. intros Hf Hb. pose proof (usable_le L L' p a 0 Hf). lia. Qed.

Lemma open_batch_kept V V' a :
  vm_batches V' = vm_batches V -> vm_seqs V' = vm_seqs V -> open_batch V' a = open_batch V a.
Proof. intros Hb Hs. unfold open_batch, latest_seq, read_batch. by rewrite Hb, Hs. Qed.

Lemma open_batch_with_batch V a s b a' :
  a' <> a -> open_batch (with_batch V a s b) a' = open_batch V a'.
Proof.
  intros Hne. unfold open_batch, latest_seq, read_batch. cbn. destruct (vm_seqs V !! a'); [|done]. cbn.
  by rewrite lookup_insert_ne by congruence.
Qed.

Lemma open_batch_spec V a b :
  open_batch V a = Some b <-> exists s, vm_seqs V !! a = Some s /\ vm_batches V !! (a, s) = Some b /\ nt_settlement b = None.
Proof.
  unfold open_batch, latest_seq, read_batch, unsettled. split.
  - destruct (vm_seqs V !! a) as [s|]; [|done]. cbn. destruct (vm_batches V !! (a, s)) as [b'|] eqn:Eb; [|done]. cbn.
    destruct (nt_settlement b') eqn:Es; [done|]. intros [= <-]. by exists s.
  - intros (s & -> & H & Hs). cbn. rewrite H. cbn. by rewrite Hs.
Qed.

(** Nothing but collateral changed, and none was taken from a participant. *)
Lemma covered_kept V V' :
  Kept V V' -> (forall p a, usable (vm_ledger V) p a <= usable (vm_ledger V') p a) -> Covered V -> Covered V'.
Proof.
  intros [Kb Ks Ko _ _] Hu [C1 C2 C3]. split.
  - by rewrite Kb.
  - intros a b. rewrite (open_batch_kept V V' a Kb Ks), Ko. apply C2.
  - intros a b p Hp. rewrite (open_batch_kept V V' a Kb Ks). intros Hb. etrans; [by eapply C3|]. apply Hu.
Qed.

Lemma must_ok m L : must m = Ok L -> m.1 = L /\ m.2 = Ok tt.
Proof. destruct m as [L0 [[]|]]; [|done]. by intros [= ->]. Qed.

Lemma post_covered V sender asset amount now V' :
  (forall q, sender <> vault q asset) -> post sha256 deposit_issuer V sender asset amount now = Ok V' -> Covered V -> Covered V'.
Proof.
  intros Hs H. unfold post in H. apply guard_ok in H as [_ H]. apply guard_ok in H as [_ H].
  apply rbind_ok in H as (L & [HL _]%must_ok & [= <-]). pose proof (move_asset_moved (vm_ledger V) asset sender (vault sender asset) amount now) as M.
  rewrite HL in M. apply covered_kept.
  - split; try done. apply M.
  - intros p a. apply usable_mono; [apply M|]. apply (am_rest _ _ _ _ _ M).
    intros [= <- Hv]. by eapply Hs.
Qed.

Lemma withdraw_covered V sender asset amount now V' :
  is_address sender -> withdraw sha256 V sender asset amount now = Ok V' -> Covered V -> Covered V'.
Proof.
  intros Hs H HC. unfold withdraw in H. set (needed := from_option _ _ _) in H. apply guard_ok in H as [Hg H].
  apply rbind_ok in H as (L & [HL _]%must_ok & [= <-]).
  pose proof (move_asset_moved (vm_ledger V) asset (vault sender asset) sender amount now) as M. rewrite HL in M.
  rewrite negb_true_iff, orb_false_iff, N.eqb_neq, N.ltb_ge in Hg. destruct Hg as [Hpos Hle]. destruct HC as [C1 C2 C3].
  split; [done|done|]. intros a b p Hp Hb. change (open_batch V a = Some b) in Hb. cbn [with_ledger vm_ledger].
  destruct (decide ((a, p) = (asset, sender))) as [[= -> ->]|Hne].
  - assert (net_debit (nt_obligations b) sender = needed) as -> by (unfold needed; by rewrite Hb).
    pose proof (usable_le (vm_ledger V) L sender asset amount (am_frozen _ _ _ _ _ M) (am_from _ _ _ _ _ M)). lia.
  - etrans; [by eapply C3|]. apply usable_mono; [apply M|].
    apply (am_rest _ _ _ _ _ M). intros [= -> Hv%Hvault]; [congruence|done|done].
Qed.

Lemma push_obligations_app debtor asset paid_to credits obs :
  exists new, push_obligations hex debtor asset paid_to credits obs = obs ++ new /\
    Forall (fun o => ob_debtor o = debtor /\ ob_creditor o <> debtor /\ 0 < ob_amount o /\ ob_asset o = hex asset /\ ob_creditor o ∈ paid_to) new.
Proof.
  unfold push_obligations.
  assert (forall x, x ∈ zip paid_to credits -> x.1 ∈ paid_to) as Hzip.
  { intros [a n] Hx. apply elem_of_zip_l in Hx. exact Hx. }
  revert obs Hzip. generalize (zip paid_to credits). intros l. induction l as [|[to n] l IH]; intros obs Hzip.
  - exists []. by rewrite app_nil_r.
  - cbn [foldl fst snd]. destruct (IH (if (0 <? n) && negb (to =? debtor) then obs ++ [mkObligation debtor to (hex asset) n] else obs))
      as (new & -> & Hnew); [intros x Hx; apply Hzip; by right|].
    destruct (N.ltb_spec 0 n), (N.eqb_spec to debtor); cbn [andb negb]; try (by exists new).
    exists (mkObligation debtor to (hex asset) n :: new). rewrite <-app_assoc. split; [done|]. constructor; [|done].
    split_and!; try done. apply (Hzip (to, n)). left.
Qed.

Lemma moved_trans L0 L1 L2 L3 asset from n :
  lg_frozen L1 = lg_frozen L0 -> (forall t a, balance L0 t a <= balance L1 t a) ->
  AssetMoved L1 L2 asset from n -> lg_frozen L3 = lg_frozen L2 -> (forall t a, balance L2 t a <= balance L3 t a) ->
  AssetMoved L0 L3 asset from n.
Proof.
  intros F1 B1 [Mf Mr F2] F3 B3. split; [| |congruence].
  - specialize (B1 asset from). specialize (B3 asset from). lia.
  - intros t a Hne. specialize (B1 t a). specialize (Mr t a Hne). specialize (B3 t a). lia.
Qed.

Lemma take_fee_spec V plan asset gross fee primary perm now V' n :
  take_fee sha256 E V plan asset gross fee primary perm now = Ok (V', n) -> (perm = None -> asset = tnzo_id) ->
  Kept V V' /\ AssetMoved (vm_ledger V) (vm_ledger V') asset (vault (pl_opened_by plan) asset) (fa_fee fee).
Proof.
  unfold take_fee. intros H Hp. destruct perm as [p|].
  - apply rbind_ok in H as (V1 & H1 & H). apply rbind_ok in H as (V2 & H2 & [= <- _]).
    apply admit_inflow_law in H1 as [K1 B1]. apply collect_in_kind_law in H2 as [K2 M2]. split; [by etrans|].
    eapply moved_trans; [apply K1|exact B1|exact M2|done|done].
  - rewrite (Hp eq_refl) in *. clear Hp. set (v := collateral_vault _ _ _) in *. set (V1 := with_ledger V _) in H.
    apply rbind_ok in H as (V2 & H2 & [= <- _]). apply record_fee_law in H2 as [K2 B2]. split; [by transitivity V1|].
    apply (moved_trans _ (vm_ledger V) (vm_ledger V1)); [done|done| |apply K2|exact B2]. split; [| |done].
    + rewrite !balance_native. cbn. rewrite word_insert. lia.
    + intros t a Hne. unfold balance. destruct (N.eqb_spec t tnzo_id) as [->|]; [|done]. cbn. by rewrite word_insert_ne by congruence.
Qed.

(** What a plan that commits leaves: [b] is the asset's open batch, on the open
    list, grown by the opener's new obligations, and what the fee leaves of the
    opener's collateral covers its net debit there. *)
Record Opened (V V' : Vm) (plan : SettlementPlan) (paid_to : list Address) (asset : TokenId) (fee : N)
    (b : NetBatch) (new : list Obligation) : Prop := {
  op_clear : read_defaults V (pl_opened_by plan) = [];
  op_batches : vm_batches V' = <[(asset, nt_seq b) := b]> (vm_batches V);
  op_seqs : vm_seqs V' = <[asset := nt_seq b]> (vm_seqs V);
  op_key : nt_asset b = asset /\ nt_settlement b = None;
  op_open : forall s, s ∈ vm_open V' <-> s ∈ vm_open V \/ s = hex asset;
  op_obligations : nt_obligations b = from_option nt_obligations [] (open_batch V asset) ++ new;
  op_new : Forall (fun o => ob_debtor o = pl_opened_by plan /\ ob_creditor o <> pl_opened_by plan /\ 0 < ob_amount o /\
                            ob_asset o = hex asset /\ ob_creditor o ∈ paid_to) new;
  op_moved : AssetMoved (vm_ledger V) (vm_ledger V') asset (vault (pl_opened_by plan) asset) fee;
  op_covers : net_debit (nt_obligations b) (pl_opened_by plan) + fee <= usable (vm_ledger V) (pl_opened_by plan) asset;
}.

Lemma batch_for_spec V asset now V1 b :
  Covered V -> batch_for hex E V asset now = (V1, b) ->
  vm_batches V1 = vm_batches V /\ vm_ledger V1 = vm_ledger V /\ vm_seqs V1 = <[asset := nt_seq b]> (vm_seqs V) /\
  nt_asset b = asset /\ nt_settlement b = None /\ (forall s, s ∈ vm_open V1 <-> s ∈ vm_open V \/ s = hex asset) /\
  nt_obligations b = from_option nt_obligations [] (open_batch V asset).
Proof.
  intros [C1 C2 C3]. unfold batch_for. destruct (open_batch V asset) as [b0|] eqn:Eb; intros [= <- <-].
  - pose proof (C2 _ _ Eb) as Hin. apply open_batch_spec in Eb as (s & Hs & Hb & Hn). apply C1 in Hb as [Ka Ks].
    split_and!; try done; [by rewrite Ks, insert_id|]. intros x. split; [by left|]. intros [Hx| ->]; done.
  - split_and!; try done. intros x. cbn. rewrite elem_of_app, list_elem_of_singleton. done.
Qed.

Lemma commit_opened V plan paid_to now V' alloc burned :
  Covered V -> commit sha256 hex deposit_issuer E V plan paid_to now = Ok (V', alloc, burned) ->
  exists asset gross b new, netted_value plan = Some (asset, gross) /\ Opened V V' plan paid_to asset (fa_fee (al_fee alloc)) b new.
Proof.
  intros HC. unfold commit. intros H. apply rbind_ok in H as ([asset gross] & Hnv & H).
  apply guard_ok in H as [_ H]. apply guard_ok in H as [Hd H]. apply rbind_ok in H as (perm & Hperm & H).
  apply rbind_ok in H as (a0 & Ha & H). apply guard_ok in H as [_ H].
  destruct (batch_for hex E V asset now) as [V1 b] eqn:Hb. apply batch_for_spec in Hb as (B1 & L1 & S1 & A1 & N1 & O1 & Ob); [|done].
  destruct (push_obligations_app (pl_opened_by plan) asset paid_to (al_credits a0) (nt_obligations b)) as (new & Hpush & Hnew).
  rewrite Hpush in H. apply guard_ok in H as [_ H]. apply guard_ok in H as [Hcov H]. apply rbind_ok in H as (primary & _ & H).
  apply rbind_ok in H as ([V2 n] & Hfee & H). apply rbind_ok in H as (V3 & Hcount & H). injection H as <- <- <-.
  apply take_fee_spec in Hfee as [K2 M2]; [|intros ->; destruct (N.eqb_spec asset tnzo_id); [done|];
    by destruct (permitted E V asset)].
  apply count_settlement_law in Hcount as [K3 B3]. pose proof (PreOrder_Transitive _ _ _ K2 K3) as [Kb Ks Ko _ Kf].
  rewrite negb_true_iff, orb_false_iff, !N.ltb_ge, L1 in Hcov. rewrite L1 in M2.
  exists asset, gross, (with_obligations b (nt_obligations b ++ new)), new.
  split; [by destruct (netted_value plan); [injection Hnv as ->|]|].
  split; cbn [with_obligations with_batch vm_batches vm_seqs vm_open vm_ledger nt_asset nt_seq nt_settlement nt_obligations]; try done.
  - by apply bool_decide_eq_true in Hd.
  - by rewrite Kb, B1.
  - by rewrite Ks, S1.
  - intros s. rewrite Ko. apply O1.
  - by rewrite Ob.
  - apply (moved_trans _ (vm_ledger V) (vm_ledger V2)); [done|done|exact M2|apply K3|apply B3].
  - lia.
Qed.

Lemma commit_covered V plan paid_to now V' alloc burned :
  is_address (pl_opened_by plan) -> commit sha256 hex deposit_issuer E V plan paid_to now = Ok (V', alloc, burned) -> Covered V -> Covered V'.
Proof.
  intros Hd H HC. destruct (commit_opened _ _ _ _ _ _ _ HC H) as (asset & gross & b & new & _ & HO). destruct HC as [C1 C2 C3].
  destruct HO as [_ Ob Os [Oa On] Oo Oob Onew Om Oc].
  assert (open_batch V' asset = Some b) as Hopen.
  { apply open_batch_spec. exists (nt_seq b). by rewrite Os, Ob, !lookup_insert_eq. }
  assert (forall a, a <> asset -> open_batch V' a = open_batch V a) as Hother.
  { intros a Hne. unfold open_batch, latest_seq, read_batch. rewrite Os, Ob, lookup_insert_ne by done.
    destruct (vm_seqs V !! a); [|done]. cbn. by rewrite lookup_insert_ne by congruence. }
  assert (forall p a, is_address p -> (p, a) <> (pl_opened_by plan, asset) -> usable (vm_ledger V) p a <= usable (vm_ledger V') p a) as Hu.
  { intros p a Hp Hne. apply usable_mono; [apply Om|]. apply (am_rest _ _ _ _ _ Om). intros [= -> Hv%Hvault]; [congruence|done|done]. }
  split.
  - intros a s b'. rewrite Ob. destruct (decide ((a, s) = (asset, nt_seq b))) as [[= -> ->]|Hne].
    + rewrite lookup_insert_eq. by intros [= <-].
    + rewrite lookup_insert_ne by done. apply C1.
  - intros a b' Hb'. apply Oo. destruct (decide (a = asset)) as [->|Hne]; [by right|]. left. rewrite Hother in Hb' by done. by eapply C2.
  - intros a b' p Hpa Hb'. destruct (decide (a = asset)) as [->|Hne].
    + rewrite Hopen in Hb'. injection Hb' as <-. destruct (decide (p = pl_opened_by plan)) as [->|Hp].
      * pose proof (usable_le _ _ (pl_opened_by plan) asset _ (am_frozen _ _ _ _ _ Om) (am_from _ _ _ _ _ Om)). lia.
      * etrans; [|apply Hu; [done|congruence]]. rewrite Oob. etrans; [apply net_debit_app|].
        { eapply Forall_impl; [exact Onew|]. cbn. intros o (-> & _). congruence. }
        destruct (open_batch V asset) as [b0|] eqn:E0; cbn [from_option]; [by eapply C3|]. rewrite net_debit_nil. lia.
    + rewrite Hother in Hb' by done. etrans; [by eapply C3|]. apply Hu; [done|congruence].
Qed.

(** Settling a batch leaves the other assets' balances and every freeze. *)
Definition spares (asset : TokenId) (L L' : Ledger) : Prop :=
  lg_frozen L' = lg_frozen L /\ forall t a, t <> asset -> balance L t a <= balance L' t a.

Lemma pay_shares_spares L asset v now claims paid total : spares asset L (pay_shares L asset v now claims paid total).1.1.
Proof.
  revert L paid total. induction claims as [|[[i ins] share] claims IH]; intros L paid total; [by split|]. cbn [pay_shares].
  pose proof (move_asset_moved L asset v (in_to ins) share (as_i64 now)) as [_ Mr Mf].
  destruct (move_asset L asset v (in_to ins) share (as_i64 now)) as [L1 [u|e]]; cbn [fst] in Mr, Mf;
    [destruct (IH L1 (<[i := share]> paid) (wadd128 total share)) as [F B]|destruct (IH L1 paid total) as [F B]];
    (split; [congruence|]); intros t a Hne; (etrans; [apply Mr; congruence|]); by apply B.
Qed.

Record Settling (asset : TokenId) (V V' : Vm) : Prop := {
  sg_batches : vm_batches V' = vm_batches V;
  sg_seqs : vm_seqs V' = vm_seqs V;
  sg_open : vm_open V' = vm_open V;
  sg_spares : spares asset (vm_ledger V) (vm_ledger V');
}.

Lemma settle_debtors_frame asset seq ins now ds st :
  Settling asset st.1.1 (foldl (settle_debtor sha256 hex asset seq ins now) st ds).1.1.
Proof.
  revert st. induction ds as [|d ds IH]; intros [[V paid] defaults]; [by repeat split|]. cbn [foldl].
  set (st1 := settle_debtor _ _ _ _ _ _ _ d). destruct (IH st1) as [B S O [F R]].
  assert (Settling asset V st1.1.1) as [B1 S1 O1 [F1 R1]].
  { unfold st1, settle_debtor. set (cs := zip _ _).
    pose proof (pay_shares_spares (vm_ledger V) asset (vault d asset) now cs paid 0) as [F1 R1].
    destruct (pay_shares _ _ _ _ _ _ _) as [[L1 paid1] total1]. cbn [fst] in *.
    destruct (_ <? _); by repeat split. }
  split; [cbn [fst]; congruence..|]. split; [cbn [fst]; congruence|]. intros t a Hne. etrans; [by apply R1|by apply R].
Qed.

Lemma settle_frame V b now V' :
  settle sha256 hex empty_root hash_leaf hash_pair V b now = Ok V' ->
  exists b', nt_asset b' = nt_asset b /\ nt_seq b' = nt_seq b /\ is_Some (nt_settlement b') /\
    vm_batches V' = <[(nt_asset b, nt_seq b) := b']> (vm_batches V) /\ vm_seqs V' = vm_seqs V /\ vm_open V' = vm_open V /\
    spares (nt_asset b) (vm_ledger V) (vm_ledger V').
Proof.
  unfold settle. intros H. apply rbind_ok in H as (netted & _ & H). set (ins := nb_instructions netted) in *.
  pose proof (settle_debtors_frame (nt_asset b) (nt_seq b) ins now (debtors_in_order ins) (V, replicate (length ins) 0, [])) as [B S O P].
  destruct (foldl _ _ _) as [[V1 paid] defaults]. cbn [fst] in *. injection H as <-.
  eexists. split; [|split; [|split; [|split; [cbn; by rewrite B|]]]]; cbn; done || by eexists.
Qed.

Lemma settle_covered V a b now V' :
  open_batch V a = Some b -> settle sha256 hex empty_root hash_leaf hash_pair V b now = Ok V' -> Covered V ->
  open_batch V' a = None /\ Covered V'.
Proof.
  intros Ho H [C1 C2 C3]. apply settle_frame in H as (b' & Ea & Es & [st Hst] & B & S & O & F & R).
  apply open_batch_spec in Ho as (s & Hs & Hb & Hn). apply C1 in Hb as [<- <-].
  assert (open_batch V' (nt_asset b) = None) as Hnone.
  { unfold open_batch, latest_seq, read_batch. rewrite S, Hs. cbn. rewrite B, lookup_insert_eq. cbn. unfold unsettled. by rewrite Hst. }
  assert (forall a, a <> nt_asset b -> open_batch V' a = open_batch V a) as Hother.
  { intros a Hne. unfold open_batch, latest_seq, read_batch. rewrite S. destruct (vm_seqs V !! a); [|done]. cbn.
    by rewrite B, lookup_insert_ne by congruence. }
  split; [done|]. split.
  - intros a s' b0. rewrite B. destruct (decide ((a, s') = (nt_asset b, nt_seq b))) as [[= -> ->]|Hne].
    + rewrite lookup_insert_eq. by intros [= <-].
    + rewrite lookup_insert_ne by done. apply C1.
  - intros a b0 Hb0. rewrite O. destruct (decide (a = nt_asset b)) as [->|Hne]; [by rewrite Hnone in Hb0|].
    rewrite Hother in Hb0 by done. by eapply C2.
  - intros a b0 p Hp Hb0. destruct (decide (a = nt_asset b)) as [->|Hne]; [by rewrite Hnone in Hb0|].
    rewrite Hother in Hb0 by done. etrans; [by eapply C3|]. apply usable_mono; [done|]. by apply R.
Qed.

(** The open list may be cut down to what is still open. *)
Lemma covered_with_open V l :
  Covered V -> (forall a b, open_batch V a = Some b -> hex a ∈ l) -> Covered (with_open V l).
Proof. intros [C1 C2 C3] H. by split. Qed.

Lemma settle_open_covered open V now still n V' still' n' :
  settle_open sha256 hex unhex empty_root hash_leaf hash_pair V open now still n = Ok (V', still', n') ->
  Covered V -> (forall a b, open_batch V a = Some b -> hex a ∈ still ++ open) ->
  Covered V' /\ forall a b, open_batch V' a = Some b -> hex a ∈ still'.
Proof.
  revert V still n. induction open as [|h open IH]; intros V still n H HC Hin; cbn [settle_open] in H.
  { injection H as <- <- <-. split; [done|]. intros a b Hb. specialize (Hin a b Hb). by rewrite app_nil_r in Hin. }
  apply rbind_ok in H as (asset & Hu & H). destruct (unhex h) as [asset'|] eqn:Eu; [|done]. injection Hu as ->.
  assert (forall V1 a b, open_batch V1 asset = None -> (forall a, a <> asset -> open_batch V1 a = open_batch V a) ->
    open_batch V1 a = Some b -> hex a ∈ still ++ open) as Hdrop.
  { intros V1 a b Hnone Hsame Hb. destruct (decide (a = asset)) as [->|Hne]; [by rewrite Hnone in Hb|]. rewrite Hsame in Hb by done.
    specialize (Hin a b Hb). rewrite elem_of_app, elem_of_cons in Hin. rewrite elem_of_app. destruct Hin as [?|[Ha|?]]; [by left| |by right].
    exfalso. apply Hne. assert (unhex (hex a) = Some a) as Hx by apply Hhex. rewrite Ha in Hx. congruence. }
  destruct (open_batch V asset) as [batch|] eqn:Eb.
  - destruct (_ && _).
    + apply rbind_ok in H as (V1 & Hs & H). destruct (settle_covered _ _ _ _ _ Eb Hs HC) as [Hnone HC1].
      eapply IH; [exact H|done|]. intros a b. apply Hdrop; [done|]. intros a' Hne. apply settle_frame in Hs as (b' & Ea & _ & _ & B & S & _).
      apply open_batch_spec in Eb as (s & Hs & Hb & _). destruct (cv_keys _ HC _ _ _ Hb) as [Ka Ks].
      unfold open_batch, latest_seq, read_batch. rewrite S. destruct (vm_seqs V !! a'); [|done]. cbn.
      by rewrite B, lookup_insert_ne by congruence.
    + eapply IH; [exact H|done|]. intros a b Hb. specialize (Hin a b Hb). by rewrite <-app_assoc.
  - eapply IH; [exact H|done|]. intros a b. by apply Hdrop.
Qed.

Lemma begin_block_covered V now V' n :
  begin_block sha256 hex unhex empty_root hash_leaf hash_pair V now = Ok (V', n) -> Covered V -> Covered V'.
Proof.
  intros H HC. unfold begin_block in H. destruct (bool_decide _); [by injection H as <- _|].
  apply rbind_ok in H as ([[V1 still] k] & Hs & H). injection H as <- <-.
  destruct (settle_open_covered _ _ _ _ _ _ _ _ Hs HC) as [HC1 Hin]; [apply HC|]. by apply covered_with_open.
Qed.

(** What can happen to the module: its operations, and anything else that leaves
    its records and takes no collateral. A vault signs nothing, so it posts
    nothing. *)
Inductive net_step (V : Vm) : Vm -> Prop :=
| StepPost sender asset amount now V' :
    (forall q, sender <> vault q asset) -> post sha256 deposit_issuer V sender asset amount now = Ok V' -> net_step V V'
| StepWithdraw sender asset amount now V' :
    is_address sender -> withdraw sha256 V sender asset amount now = Ok V' -> net_step V V'
| StepCommit plan paid_to now V' alloc burned :
    is_address (pl_opened_by plan) -> commit sha256 hex deposit_issuer E V plan paid_to now = Ok (V', alloc, burned) -> net_step V V'
| StepBlock now V' n : begin_block sha256 hex unhex empty_root hash_leaf hash_pair V now = Ok (V', n) -> net_step V V'
| StepOther V' : Kept V V' -> (forall p a, usable (vm_ledger V) p a <= usable (vm_ledger V') p a) -> net_step V V'.

Lemma net_step_covered V V' : net_step V V' -> Covered V -> Covered V'.
Proof.
  intros [sender asset amount now V1 Hs H|sender asset amount now V1 Hs H|plan paid_to now V1 alloc burned Hs H|now V1 n H|V1 K U].
  - by eapply post_covered.
  - by eapply withdraw_covered.
  - by eapply commit_covered.
  - by eapply begin_block_covered.
  - by apply covered_kept.
Qed.
End covered.

(** ** Paying TNZO *)

Abbreviation native L := (word (lg_native L)).

Abbreviation Share := ((nat * SettlementInstruction) * N)%type (only parsing).

Definition given (cs : list Share) : N := nsum cs.*2.
Definition received (cs : list Share) (a : Address) : N := nsum ((fun c => when (in_to c.1.2 =? a) c.2) <$> cs).

Lemma total_two L a b : a <> b -> native L a + native L b <= native_total L.
Proof. apply (msum_two (fun _ n => n)). done. Qed.

(** Only native balances differ. *)
Definition only_native (L L' : Ledger) : Prop := L' = with_native L (lg_native L').

Lemma only_native_refl L : only_native L L.
Proof. unfold only_native. by destruct L. Qed.

Lemma only_native_trans L1 L2 L3 : only_native L1 L2 -> only_native L2 L3 -> only_native L1 L3.
Proof. unfold only_native. intros H1 H2. rewrite H2, H1. by destruct L1, L2, L3. Qed.

Lemma move_native_ok L v to share now :
  to <> v -> share <= native L v -> native_total L <= U128_MAX ->
  exists L', move_asset L tnzo_id v to share now = (L', Ok tt) /\ only_native L L' /\ native_total L' = native_total L /\
    native L' v + share = native L v /\ forall a, a <> v -> native L' a = native L a + when (to =? a) share.
Proof.
  intros Hne Hle Ht. unfold move_asset. destruct (N.eqb_spec share 0) as [->|Hpos].
  { exists L. split_and!; try done; [by destruct L|lia|]. intros a _. destruct (to =? a); cbn [when]; lia. }
  rewrite N.eqb_refl. unfold native_move. rewrite (proj2 (N.ltb_ge _ _)) by done. cbn [negb guard_r rbind].
  pose proof (total_two L v to) as Htwo. unfold checked_add128. rewrite (proj2 (N.leb_le _ _)) by (specialize (Htwo ltac:(congruence)); lia).
  cbn [ok_or rbind]. eexists. split; [done|]. split; [done|]. unfold native_total. cbn [with_native lg_native].
  set (m := lg_native L) in *. split_and!.
  - pose proof (msum_insert (fun _ n => n) m v (word m v - share) (fun _ => eq_refl)) as E1. cbn beta in E1.
    pose proof (msum_insert (fun _ n => n) (<[v := word m v - share]> m) to (word m to + share) (fun _ => eq_refl)) as E2. cbn beta in E2.
    rewrite word_insert_ne in E2 by congruence. lia.
  - rewrite word_insert_ne by congruence. rewrite word_insert. lia.
  - intros a Ha. destruct (N.eqb_spec to a) as [<-|Hta]; cbn [when]; [by rewrite word_insert|].
    rewrite !word_insert_ne by congruence. lia.
Qed.

Lemma pay_shares_native L v now cs paid total :
  Forall (fun c => in_to c.1.2 <> v) cs -> given cs <= native L v -> native_total L <= U128_MAX -> total + given cs <= U128_MAX ->
  exists L', pay_shares L tnzo_id v now cs paid total = (L', foldl (fun p c => <[c.1.1 := c.2]> p) paid cs, total + given cs) /\
    only_native L L' /\ native_total L' = native_total L /\ native L' v + given cs = native L v /\
    forall a, a <> v -> native L' a = native L a + received cs a.
Proof.
  revert L paid total. induction cs as [|[[i ins] share] cs IH]; intros L paid total Hto Hle Ht Hw.
  - exists L. unfold given, received. cbn [pay_shares foldl fmap list_fmap]. rewrite nsum_nil, N.add_0_r. split_and!; try done; [by destruct L|lia|]. intros a _. cbn. lia.
  - apply Forall_cons in Hto as [Hi Hto]. cbn in Hi. unfold given in *. cbn [fmap list_fmap snd] in *. rewrite nsum_cons in *.
    destruct (move_native_ok L v (in_to ins) share (as_i64 now)) as (L1 & E1 & O1 & T1 & V1 & R1); [done|lia|done|].
    destruct (IH L1 (<[i := share]> paid) (total + share)) as (L2 & E2 & O2 & T2 & V2 & R2); [done|lia|lia|lia|].
    exists L2. cbn [pay_shares]. rewrite E1, wadd128_small, E2 by lia. split_and!.
    + cbn [foldl fst snd]. f_equal. lia.
    + by eapply only_native_trans.
    + congruence.
    + lia.
    + intros a Ha. rewrite R2, R1 by done. unfold received. cbn [fmap list_fmap fst snd]. rewrite nsum_cons. lia.
Qed.

(** ** The record of what was paid *)

Definition paid_where (P : SettlementInstruction -> bool) (ins : list SettlementInstruction) (paid : list N) : N :=
  nsum (zip_with (fun i x => when (P i) x) ins paid).

Lemma paid_where_insert P ins paid i x n :
  ins !! i = Some x -> paid !! i = Some 0 -> paid_where P ins (<[i := n]> paid) = paid_where P ins paid + when (P x) n.
Proof.
  revert ins paid. induction i as [|i IH]; intros [|y ins] [|z paid] Hi Hp; try done; cbn in Hi, Hp.
  - injection Hi as ->. injection Hp as ->. unfold paid_where. cbn [insert list_insert zip_with]. rewrite !nsum_cons. destruct (P x); cbn [when]; lia.
  - specialize (IH ins paid Hi Hp). unfold paid_where in *. change (<[S i := n]> (z :: paid)) with (z :: <[i := n]> paid).
    cbn [zip_with]. rewrite !nsum_cons, IH. lia.
Qed.

Lemma paid_where_zero P ins : paid_where P ins (replicate (length ins) 0) = 0.
Proof.
  unfold paid_where. induction ins as [|i ins IH]; [done|]. cbn [length replicate zip_with]. rewrite nsum_cons, IH.
  destruct (P i); done.
Qed.

Definition record_shares (paid : list N) (cs : list Share) : list N := foldl (fun p c => <[c.1.1 := c.2]> p) paid cs.

Lemma record_length paid cs : length (record_shares paid cs) = length paid.
Proof. revert paid. induction cs as [|c cs IH]; intros paid; [done|]. cbn. rewrite IH. apply length_insert. Qed.

Lemma record_other paid cs i : (forall c, c ∈ cs -> c.1.1 <> i) -> record_shares paid cs !! i = paid !! i.
Proof.
  revert paid. induction cs as [|c cs IH]; intros paid H; [done|]. cbn. rewrite IH.
  - apply list_lookup_insert_ne, H. left.
  - intros c' Hc'. apply H. by right.
Qed.

Section record.
Context (ins : list SettlementInstruction).

Lemma record_shares_sum P paid cs :
  NoDup cs.*1.*1 -> (forall c, c ∈ cs -> ins !! c.1.1 = Some c.1.2 /\ paid !! c.1.1 = Some 0) ->
  paid_where P ins (record_shares paid cs) = paid_where P ins paid + nsum ((fun c => when (P c.1.2) c.2) <$> cs).
Proof.
  revert paid. induction cs as [|[[i x] n] cs IH]; intros paid Hnd H.
  - cbn. lia.
  - cbn [fmap list_fmap fst] in Hnd. apply NoDup_cons in Hnd as [Hi Hnd]. destruct (H ((i, x), n)) as [Hx Hp]; [left|].
    cbn [fst snd] in *. cbn [record_shares foldl fst snd]. fold (record_shares (<[i := n]> paid) cs). rewrite IH; [|done|].
    + rewrite (paid_where_insert _ _ _ _ x) by done. cbn [fmap list_fmap fst snd]. rewrite nsum_cons. lia.
    + intros c Hc. destruct (H c) as [Hcx Hcp]; [by right|]. split; [done|]. rewrite list_lookup_insert_ne; [done|].
      intros ->. apply Hi. rewrite <-list_fmap_compose. by apply (list_elem_of_fmap_2 (fun c : Share => c.1.1)).
Qed.

Lemma record_shares_lookup paid cs c :
  NoDup cs.*1.*1 -> c ∈ cs -> (c.1.1 < length paid)%nat -> record_shares paid cs !! c.1.1 = Some c.2.
Proof.
  revert paid. induction cs as [|d cs IH]; intros paid Hnd Hc Hl; [by apply elem_of_nil in Hc|].
  cbn [fmap list_fmap] in Hnd. apply NoDup_cons in Hnd as [Hd Hnd]. cbn [record_shares foldl].
  fold (record_shares (<[d.1.1 := d.2]> paid) cs). apply elem_of_cons in Hc as [->|Hc].
  - rewrite record_other; [by apply list_lookup_insert_eq|]. intros c' Hc' E. apply Hd. rewrite <-E, <-list_fmap_compose.
    by apply (list_elem_of_fmap_2 (fun c : Share => c.1.1)).
  - apply IH; [done|done|]. by rewrite length_insert.
Qed.

(** ** One debtor's claims *)

Definition owed (p : Address) : N := nsum (in_amount <$> filter (fun i => in_from i = p) ins).

Lemma claims_of_elem d i x : (i, x) ∈ claims_of ins d <-> ins !! i = Some x /\ in_from x = d.
Proof.
  unfold claims_of. rewrite list_elem_of_filter, elem_of_lookup_imap. cbn. split.
  - intros [Hd (j & y & [= -> ->] & Hy)]. done.
  - intros [Hi Hd]. split; [done|]. by exists i, x.
Qed.

Lemma filter_snd {A B} (P : B -> Prop) `{forall x, Decision (P x)} (l : list (A * B)) :
  (filter (fun x => P x.2) l).*2 = filter P l.*2.
Proof. induction l as [|x l IH]; [done|]. rewrite filter_cons, fmap_cons, filter_cons, <-IH. by case_decide. Qed.

Lemma imap_pair_fst {A} (l : list A) : (imap pair l).*1 = seq 0 (length l).
Proof.
  apply list_eq. intros i. rewrite list_lookup_fmap, list_lookup_imap. destruct (l !! i) eqn:E; cbn.
  - symmetry. apply lookup_seq_lt. by eapply lookup_lt_Some.
  - symmetry. apply lookup_seq_ge. by apply lookup_ge_None.
Qed.

Lemma imap_pair_snd {A} (l : list A) : (imap pair l).*2 = l.
Proof. apply list_eq. intros i. rewrite list_lookup_fmap, list_lookup_imap. by destruct (l !! i). Qed.

Lemma claims_of_amounts d : nsum ((fun x => in_amount x.2) <$> claims_of ins d) = owed d.
Proof.
  unfold owed, claims_of. rewrite <-(imap_pair_snd ins) at 2. rewrite <-filter_snd. by rewrite <-list_fmap_compose.
Qed.

Lemma claims_of_nodup d : NoDup (claims_of ins d).*1.
Proof.
  unfold claims_of. apply (sublist_NoDup _ (imap pair ins).*1); [rewrite imap_pair_fst; apply NoDup_seq|].
  apply fmap_sublist, sublist_filter.
Qed.

(** Shares of a debtor's claims, each no more than its claim. *)
Lemma zip_claims_nodup d (shares : list N) : NoDup (zip (claims_of ins d) shares).*1.*1.
Proof.
  apply (sublist_NoDup _ (claims_of ins d).*1); [apply claims_of_nodup|]. apply fmap_sublist.
  generalize (claims_of ins d). intros l. revert shares. induction l as [|x l IH]; intros [|y shares]; cbn; [constructor|constructor| |].
  - apply sublist_nil_l.
  - by constructor.
Qed.

Lemma zip_claims_elem d (shares : list N) c :
  c ∈ zip (claims_of ins d) shares -> ins !! c.1.1 = Some c.1.2 /\ in_from c.1.2 = d.
Proof. destruct c as [[i x] n]. intros Hc%elem_of_zip_l. by apply claims_of_elem. Qed.
End record.

(** ** The debtors, each once *)

Lemma dedup_elem l x : x ∈ dedup l <-> x ∈ l.
Proof.
  induction l as [|y l IH]; [done|]. cbn. rewrite elem_of_cons, <-IH. destruct (dedup l) as [|z r].
  - rewrite list_elem_of_singleton. split; [by left|]. intros [?|H]; [done|]. by apply elem_of_nil in H.
  - destruct (N.eqb_spec y z) as [->|]; rewrite !elem_of_cons; naive_solver.
Qed.

Lemma dedup_sorted l : StronglySorted address_le l -> StronglySorted N.lt (dedup l).
Proof.
  induction 1 as [|x l Hl IH Hx]; [constructor|]. cbn. destruct (dedup l) as [|y r] eqn:E; [repeat constructor|].
  assert (forall z, z ∈ y :: r -> x <= z) as Hle.
  { intros z Hz. rewrite <-E, dedup_elem in Hz. rewrite Forall_forall in Hx. by apply Hx. }
  destruct (N.eqb_spec x y) as [_|Hne]; [done|]. constructor; [done|]. apply Forall_forall. intros z Hz.
  apply StronglySorted_inv in IH as [_ Hy]. rewrite Forall_forall in Hy. assert (x < y) by (specialize (Hle y ltac:(left)); lia).
  apply elem_of_cons in Hz as [->|Hz]; [done|]. specialize (Hy z Hz). lia.
Qed.

#[global] Instance address_le_total : Total address_le.
Proof. intros a b. unfold address_le. lia. Qed.

#[global] Instance address_le_trans : Transitive address_le.
Proof. intros a b c. unfold address_le. lia. Qed.

Lemma debtors_nodup ins : NoDup (debtors_in_order ins).
Proof.
  unfold debtors_in_order. assert (StronglySorted N.lt (dedup (merge_sort address_le (dedup (in_from <$> ins))))) as H.
  { apply dedup_sorted, Sorted_StronglySorted, Sorted_merge_sort; apply _. }
  induction H as [|x l _ IH Hx]; constructor; [|done]. intros Hin. rewrite Forall_forall in Hx. specialize (Hx x Hin). lia.
Qed.

Lemma debtors_elem ins d : d ∈ debtors_in_order ins <-> exists x, x ∈ ins /\ in_from x = d.
Proof.
  unfold debtors_in_order. rewrite dedup_elem, merge_sort_Permutation, dedup_elem, list_elem_of_fmap. naive_solver.
Qed.

(** ** Settling a batch of TNZO *)

Lemma paid_where_none P ins paid :
  (forall i x, ins !! i = Some x -> P x = true -> paid !! i = Some 0) -> paid_where P ins paid = 0.
Proof.
  unfold paid_where. revert paid. induction ins as [|x ins IH]; intros [|y paid] H; try done. cbn [zip_with]. rewrite nsum_cons, IH.
  - specialize (H 0%nat x eq_refl). destruct (P x); [|done]. specialize (H eq_refl). by injection H as ->.
  - intros i z Hi. apply (H (S i) z Hi).
Qed.

Lemma owed_le ins p : owed ins p <= nsum (in_amount <$> ins).
Proof.
  unfold owed. induction ins as [|x ins IH]; [done|]. rewrite filter_cons, fmap_cons, nsum_cons. case_decide; [rewrite fmap_cons, nsum_cons|]; lia.
Qed.

(** The shares of one debtor: all it owes, or all it has, and to nobody more
    than is owed. *)
Lemma shares_spec have amounts :
  nsum amounts <= U128_MAX -> N.of_nat (length amounts) <= U64_MAX ->
  let shares := if nsum amounts <=? have then amounts else pro_rata have amounts in
  length shares = length amounts /\ nsum shares = N.min have (nsum amounts) /\
  (forall i a s, amounts !! i = Some a -> shares !! i = Some s -> s <= a /\ (nsum amounts <= have -> s = a)).
Proof.
  intros Hw Hl. destruct (N.leb_spec (nsum amounts) have) as [Hle|Hlt]; cbn.
  - split_and!; [done|lia|]. intros i a s Ha Hs. rewrite Ha in Hs. injection Hs as ->. done.
  - assert (0 < nsum amounts) as Hp by lia. split_and!.
    + rewrite pro_rata_unfold by done. by rewrite add_units_length, !length_fmap.
    + by apply pro_rata_sum.
    + intros i a s Ha Hs. destruct (pro_rata_lookup have amounts Hw Hp Hl i a Ha) as (u & E & _ & Hu). rewrite E in Hs. injection Hs as <-.
      split; [done|lia].
Qed.

Section settling.
Context (sha256 : list N -> Digest) (hex : N -> Str) (seq now : N) (ins : list SettlementInstruction) (V0 : Vm).
Abbreviation vault p := (collateral_vault sha256 p tnzo_id).
Context (Hvault : forall p q, is_address p -> is_address q -> vault p = vault q -> p = q).
Context (Hsum : nsum (in_amount <$> ins) <= U128_MAX) (Hlen : N.of_nat (length ins) <= U64_MAX).
Context (Htotal : native_total (vm_ledger V0) <= U128_MAX).
Context (Hto : forall x p, x ∈ ins -> is_address p -> in_to x <> vault p) (Hfrom : forall x, x ∈ ins -> is_address (in_from x)).

Definition had (p : Address) : N := native (vm_ledger V0) (vault p).

(** The debtors of [D] are settled. *)
Record Progress (D : list Address) (st : Vm * list N * list NetDefault) : Prop := {
  pg_ledger : only_native (vm_ledger V0) (vm_ledger st.1.1);
  pg_total : native_total (vm_ledger st.1.1) = native_total (vm_ledger V0);
  pg_length : length st.1.2 = length ins;
  pg_rest : forall i x, ins !! i = Some x -> in_from x ∉ D -> st.1.2 !! i = Some 0;
  pg_done : forall i x y, ins !! i = Some x -> st.1.2 !! i = Some y ->
    y <= in_amount x /\ (in_from x ∈ D -> owed ins (in_from x) <= had (in_from x) -> y = in_amount x);
  pg_vault : forall p, is_address p -> native (vm_ledger st.1.1) (vault p) + paid_where (fun x => in_from x =? p) ins st.1.2 = had p;
  pg_to : forall a, (forall p, is_address p -> a <> vault p) ->
    native (vm_ledger st.1.1) a = native (vm_ledger V0) a + paid_where (fun x => in_to x =? a) ins st.1.2;
  pg_paid : forall p, p ∈ D -> paid_where (fun x => in_from x =? p) ins st.1.2 = N.min (had p) (owed ins p);
  pg_defaults : st.2 = (fun p => mkDefault p (owed ins p) (had p)) <$> filter (fun p => had p < owed ins p) D;
  pg_recorded : forall p, read_defaults st.1.1 p =
    read_defaults V0 p ++ (if bool_decide (p ∈ D /\ had p < owed ins p) then [(hex tnzo_id, seq)] else []);
}.

Lemma progress_start : Progress [] (V0, replicate (length ins) 0, []).
Proof.
  split; cbn [fst snd]; try done.
  - apply only_native_refl.
  - apply length_replicate.
  - intros i x Hi _. apply lookup_replicate_2. by eapply lookup_lt_Some.
  - intros i x y Hi [-> _]%lookup_replicate. split; [apply N.le_0_l|]. intros H. by apply elem_of_nil in H.
  - intros p _. rewrite paid_where_zero. apply N.add_0_r.
  - intros a _. rewrite paid_where_zero. by rewrite N.add_0_r.
  - intros p H. by apply elem_of_nil in H.
  - intros p. rewrite bool_decide_eq_false_2; [by rewrite app_nil_r|]. intros [H _]. by apply elem_of_nil in H.
Qed.

Lemma from_shares d (shares : list N) p :
  let cs := zip (claims_of ins d) shares in
  nsum ((fun c => when (in_from c.1.2 =? p) c.2) <$> cs) = when (d =? p) (given cs).
Proof.
  intros cs. unfold given. rewrite (nsum_ext _ (fun c => when (d =? p) c.2)).
  - destruct (d =? p); cbn [when]; [done|]. by apply nsum_zero.
  - intros c Hc. apply zip_claims_elem in Hc as [_ ->]. done.
Qed.

Lemma received_vault d (shares : list N) p : is_address p -> received (zip (claims_of ins d) shares) (vault p) = 0.
Proof.
  intros Hp. apply nsum_zero. intros c Hc. apply zip_claims_elem in Hc as [Hx _]. rewrite (proj2 (N.eqb_neq _ _)); [done|].
  apply Hto; [by eapply list_elem_of_lookup_2|done].
Qed.

(** What paying the shares [cs] of [d] does to the record and the balances. *)
Record Shared (d : Address) (paid : list N) (L L' : Ledger) (cs : list Share) : Prop := {
  sh_given : given cs = N.min (had d) (owed ins d);
  sh_from : forall p, paid_where (fun x => in_from x =? p) ins (record_shares paid cs) =
    paid_where (fun x => in_from x =? p) ins paid + when (d =? p) (given cs);
  sh_to : forall a, paid_where (fun x => in_to x =? a) ins (record_shares paid cs) =
    paid_where (fun x => in_to x =? a) ins paid + received cs a;
  sh_own : forall i x y, ins !! i = Some x -> in_from x = d -> record_shares paid cs !! i = Some y ->
    y <= in_amount x /\ (owed ins d <= had d -> y = in_amount x);
  sh_others : forall i x, ins !! i = Some x -> in_from x <> d -> record_shares paid cs !! i = paid !! i;
  sh_ledger : only_native L L';
  sh_total : native_total L' = native_total L;
  sh_vault : native L' (vault d) + given cs = had d;
  sh_rest : forall a, a <> vault d -> native L' a = native L a + received cs a;
  sh_no_vault : forall p, is_address p -> received cs (vault p) = 0;
}.

Lemma debtor_shares d paid L :
  is_address d -> native_total L <= U128_MAX -> native L (vault d) = had d -> length paid = length ins ->
  (forall i x, ins !! i = Some x -> in_from x = d -> paid !! i = Some 0) ->
  let idx := claims_of ins d in
  let amounts := (fun x => in_amount x.2) <$> idx in
  let shares := if wsum128 amounts <=? had d then amounts else pro_rata (had d) amounts in
  let cs := zip idx shares in
  wsum128 amounts = owed ins d /\
  exists L', pay_shares L tnzo_id (vault d) now cs paid 0 = (L', record_shares paid cs, given cs) /\ Shared d paid L L' cs.
Proof.
  intros Hd Ht Hhad Hpl Hz idx amounts shares cs.
  assert (nsum amounts = owed ins d) as Hsumd by apply claims_of_amounts. pose proof (owed_le ins d) as Hod.
  assert (wsum128 amounts = owed ins d) as Hw by (rewrite wsum128_small; lia).
  assert (N.of_nat (length amounts) <= U64_MAX) as Hla.
  { unfold amounts, idx, claims_of. rewrite length_fmap. pose proof (length_filter (fun x : nat * SettlementInstruction => in_from x.2 = d) (imap pair ins)) as Hf.
    rewrite length_imap in Hf. lia. }
  destruct (shares_spec (had d) amounts ltac:(lia) Hla) as (Hl & Hs & Hi). rewrite Hsumd in *.
  assert (shares = (if owed ins d <=? had d then amounts else pro_rata (had d) amounts)) as Esh by (unfold shares; by rewrite Hw).
  rewrite <-Esh in Hl, Hs, Hi. assert (length shares = length idx) as Hli by (rewrite Hl; apply length_fmap).
  assert (given cs = nsum shares) as Hg by (unfold given, cs; rewrite snd_zip; [done|lia]).
  assert (forall P, paid_where P ins (record_shares paid cs) = paid_where P ins paid + nsum ((fun c => when (P c.1.2) c.2) <$> cs)) as Hwhere.
  { intros P. apply record_shares_sum; [apply zip_claims_nodup|]. intros c Hc. apply zip_claims_elem in Hc as [Hx Hf]. split; [done|]. by eapply Hz. }
  destruct (pay_shares_native L (vault d) now cs paid 0) as (L' & E1 & E2 & E3 & E4 & E5); [|lia|done|lia|].
  { apply Forall_forall. intros c Hc. apply zip_claims_elem in Hc as [Hcx _]. apply Hto; [by eapply list_elem_of_lookup_2|done]. }
  split; [done|]. exists L'. split; [exact E1|]. split; try done; [lia| | | |lia|].
  - intros p. etrans; [apply Hwhere|]. f_equal. apply from_shares.
  - intros i x y Hx Hf Hy. assert ((i, x) ∈ idx) as Hin by (by apply claims_of_elem). apply list_elem_of_lookup in Hin as [j Hj].
    assert (exists s, shares !! j = Some s) as [s Hsj]. { apply lookup_lt_is_Some_2. rewrite Hli. by eapply lookup_lt_Some. }
    assert (((i, x), s) ∈ cs) as Hc. { apply list_elem_of_lookup_2 with j. unfold cs. rewrite lookup_zip_with, Hj. cbn. by rewrite Hsj. }
    assert (record_shares paid cs !! i = Some s) as Er.
    { apply (record_shares_lookup paid cs ((i, x), s)); [apply zip_claims_nodup|done|]. cbn. rewrite Hpl. by eapply lookup_lt_Some. }
    rewrite Er in Hy. injection Hy as <-. apply (Hi j); [|done]. unfold amounts. by rewrite list_lookup_fmap, Hj.
  - intros i x Hx Hf. apply record_other. intros c Hc E. apply zip_claims_elem in Hc as [Hcx Hcf]. rewrite E, Hx in Hcx. congruence.
  - intros p Hp. by apply received_vault.
Qed.

Lemma progress_after D V paid defaults d L' cs V2 defaults2 :
  Progress D (V, paid, defaults) -> d ∉ D -> is_address d -> Shared d paid (vm_ledger V) L' cs -> vm_ledger V2 = L' ->
  defaults2 = (fun p => mkDefault p (owed ins p) (had p)) <$> filter (fun p => had p < owed ins p) (D ++ [d]) ->
  (forall p, read_defaults V2 p = read_defaults V p ++ (if bool_decide (p = d /\ had d < owed ins d) then [(hex tnzo_id, seq)] else [])) ->
  Progress (D ++ [d]) (V2, record_shares paid cs, defaults2).
Proof.
  intros [P1 P2 P3 P4 P5 P6 P7 P8 P9 P10] HdD Hd [Hg Hpf Hpt Hown Hothers Ho Ht Hv Hrecv Hnv] EL Edef Erec. cbn [fst snd] in *.
  assert (paid_where (fun x => in_from x =? d) ins paid = 0) as Hz.
  { apply paid_where_none. intros i x Hi E%N.eqb_eq. apply (P4 i x Hi). by rewrite E. }
  split; cbn [fst snd]; rewrite ?EL.
  - by eapply only_native_trans.
  - congruence.
  - by rewrite record_length.
  - intros i x Hi Hn. rewrite elem_of_app, list_elem_of_singleton in Hn. rewrite (Hothers i x) by naive_solver. apply (P4 i x Hi). naive_solver.
  - intros i x y Hi Hy. destruct (decide (in_from x = d)) as [E|Hne].
    + rewrite E. destruct (Hown i x y Hi E Hy) as [H1 H2]. split; [done|]. auto.
    + rewrite (Hothers i x Hi Hne) in Hy. destruct (P5 i x y Hi Hy) as [H1 H2]. split; [done|].
      rewrite elem_of_app, list_elem_of_singleton. intros [Hin|?]; [by apply H2|done].
  - intros p Hp. rewrite Hpf. destruct (N.eqb_spec d p) as [<-|Hne]; cbn [when]; [lia|].
    rewrite Hrecv by (intros E%Hvault; [congruence|done|done]). rewrite Hnv by done. specialize (P6 p Hp). lia.
  - intros a Ha. rewrite Hpt, Hrecv by (by apply Ha). specialize (P7 a Ha). lia.
  - intros p Hin. rewrite Hpf. rewrite elem_of_app, list_elem_of_singleton in Hin.
    destruct (N.eqb_spec d p) as [<-|Hne]; cbn [when]; [lia|]. destruct Hin as [Hin| ->]; [|done]. rewrite (P8 p Hin). lia.
  - done.
  - intros p. rewrite Erec, P10, <-app_assoc. f_equal. destruct (decide (p = d)) as [->|Hne].
    + rewrite (bool_decide_eq_false_2 (d ∈ D /\ _)) by naive_solver. cbn [app].
      erewrite bool_decide_ext; [reflexivity|]. rewrite elem_of_app, list_elem_of_singleton. naive_solver.
    + rewrite (bool_decide_eq_false_2 (p = d /\ _)), app_nil_r by naive_solver.
      erewrite bool_decide_ext; [reflexivity|]. rewrite elem_of_app, list_elem_of_singleton. naive_solver.
Qed.

Lemma progress_step D st d :
  Progress D st -> d ∉ D -> is_address d -> Progress (D ++ [d]) (settle_debtor sha256 hex tnzo_id seq ins now st d).
Proof.
  intros HP HdD Hd. destruct st as [[V paid] defaults]. pose proof HP as [_ P2 P3 P4 _ P6 _ _ P9 _]. cbn [fst snd] in *.
  assert (native (vm_ledger V) (vault d) = had d) as Hhad.
  { specialize (P6 d Hd). rewrite paid_where_none in P6; [lia|]. intros i x Hi E%N.eqb_eq. apply (P4 i x Hi). by rewrite E. }
  destruct (debtor_shares d paid (vm_ledger V) Hd) as (Hw & L' & Hpay & HS); [lia|done|done|intros i x Hi E; apply (P4 i x Hi); by rewrite E|].
  unfold settle_debtor. assert (usable_collateral sha256 (vm_ledger V) d tnzo_id = had d) as ->.
  { unfold usable_collateral. rewrite N.eqb_refl. by rewrite balance_native. }
  rewrite Hw in *. set (cs := zip _ _) in *. rewrite Hpay. pose proof (sh_given _ _ _ _ _ HS) as Hg.
  destruct (N.ltb_spec (had d) (owed ins d)) as [Hlt|Hge]; eapply progress_after; try done.
  - rewrite P9, filter_app, fmap_app. f_equal. rewrite filter_cons_True by done. cbn. f_equal. f_equal. lia.
  - intros p. unfold read_defaults. cbn [with_defaults vm_defaults with_ledger]. destruct (decide (p = d)) as [->|Hne].
    + rewrite lookup_insert_eq, bool_decide_eq_true_2 by done. done.
    + rewrite lookup_insert_ne, bool_decide_eq_false_2 by naive_solver. by rewrite app_nil_r.
  - rewrite P9, filter_app, fmap_app, filter_cons_False, filter_nil by lia. by rewrite app_nil_r.
  - intros p. rewrite bool_decide_eq_false_2 by (intros [_ ?]; lia). by rewrite app_nil_r.
Qed.

Lemma progress_all D ds st :
  Progress D st -> NoDup (D ++ ds) -> Forall is_address ds ->
  Progress (D ++ ds) (foldl (settle_debtor sha256 hex tnzo_id seq ins now) st ds).
Proof.
  revert D st. induction ds as [|d ds IH]; intros D st HP Hnd Ha; [by rewrite app_nil_r|].
  apply Forall_cons in Ha as [Hd Ha]. cbn [foldl]. change (d :: ds) with ([d] ++ ds) in *. rewrite app_assoc in *.
  apply IH; [|done|done]. apply progress_step; [done| |done].
  apply NoDup_app in Hnd as (Hnd & _ & _). apply NoDup_app in Hnd as (_ & Hn & _). intros Hin. by apply (Hn d Hin), list_elem_of_singleton.
Qed.
End settling.

(** ** From obligations to instructions *)

Lemma flow_in_sums l f :
  f ∈ l -> fl_amount f <= debit l (fl_asset f, fl_from f) /\ fl_amount f <= credit l (fl_asset f, fl_to f).
Proof.
  induction l as [|g l IH]; [by intros ?%elem_of_nil|]. rewrite debit_cons, credit_cons. intros [->|Hf]%elem_of_cons.
  - rewrite !bool_decide_eq_true_2 by done. cbn [when]. lia.
  - specialize (IH Hf). lia.
Qed.

Lemma debit_source l k : debit l k <> 0 -> exists f, f ∈ l /\ (fl_asset f, fl_from f) = k.
Proof.
  induction l as [|g l IH]; [done|]. rewrite debit_cons. destruct (bool_decide_reflect ((fl_asset g, fl_from g) = k)) as [E|_]; cbn [when].
  - intros _. exists g. split; [left|done].
  - intros H. destruct IH as (f & Hf & E); [lia|]. exists f. split; [by right|done].
Qed.

Lemma credit_source l k : credit l k <> 0 -> exists f, f ∈ l /\ (fl_asset f, fl_to f) = k.
Proof.
  induction l as [|g l IH]; [done|]. rewrite credit_cons. destruct (bool_decide_reflect ((fl_asset g, fl_to g) = k)) as [E|_]; cbn [when].
  - intros _. exists g. split; [left|done].
  - intros H. destruct IH as (f & Hf & E); [lia|]. exists f. split; [by right|done].
Qed.

(** An instruction's asset and parties are those of obligations. *)
Lemma instruction_parties obs ins x :
  Nets (ob_flow <$> sort_obligations obs) ins -> x ∈ ins ->
  (exists o, o ∈ obs /\ ob_asset o = in_asset x /\ ob_debtor o = in_from x) /\
  (exists o, o ∈ obs /\ ob_creditor o = in_to x).
Proof.
  intros [Neach Npaid Nrecv _ _] Hx. rewrite Forall_forall in Neach. destruct (Neach x Hx) as [Hpos _].
  destruct (flow_in_sums (in_flow <$> ins) (in_flow x)) as [Hd Hc]; [by apply list_elem_of_fmap_2|].
  cbn [in_flow fl_asset fl_from fl_to fl_amount] in *. rewrite Npaid in Hd. rewrite Nrecv in Hc. split.
  - destruct (debit_source (ob_flow <$> sort_obligations obs) (in_asset x, in_from x)) as (f & Hf & E); [lia|].
    apply list_elem_of_fmap in Hf as (o & -> & Ho). rewrite sort_perm in Ho. cbn in E. injection E as Ea Ef. by exists o.
  - destruct (credit_source (ob_flow <$> sort_obligations obs) (in_asset x, in_to x)) as (f & Hf & E); [lia|].
    apply list_elem_of_fmap in Hf as (o & -> & Ho). rewrite sort_perm in Ho. cbn in E. injection E as _ Et. by exists o.
Qed.

(** Within one asset the two sums of a party are those of the key. *)
Lemma one_asset_sums obs h p :
  Forall (fun o => ob_asset o = h) obs -> debit (ob_flow <$> obs) (h, p) = owes obs p /\ credit (ob_flow <$> obs) (h, p) = is_owed obs p.
Proof.
  induction 1 as [|o obs Ho Hobs [IH1 IH2]]; [done|]. rewrite !fmap_cons, debit_cons, credit_cons, owes_cons, is_owed_cons, IH1, IH2.
  cbn [ob_flow fl_asset fl_from fl_to fl_amount]. rewrite Ho.
  rewrite (bool_decide_ext ((h, ob_debtor o) = (h, p)) (ob_debtor o = p)) by naive_solver.
  rewrite (bool_decide_ext ((h, ob_creditor o) = (h, p)) (ob_creditor o = p)) by naive_solver.
  unfold when. split; destruct (N.eqb_spec (ob_debtor o) p), (N.eqb_spec (ob_creditor o) p);
    rewrite ?bool_decide_eq_true_2, ?bool_decide_eq_false_2 by done; done.
Qed.

Lemma owed_debit h ins p : Forall (fun x => in_asset x = h) ins -> owed ins p = debit (in_flow <$> ins) (h, p).
Proof.
  unfold owed. induction 1 as [|x ins Hx Hins IH]; [done|]. rewrite filter_cons, fmap_cons, debit_cons, <-IH.
  cbn [in_flow fl_asset fl_from fl_amount]. rewrite Hx. rewrite (bool_decide_ext ((h, in_from x) = (h, p)) (in_from x = p)) by naive_solver.
  case_decide.
  - rewrite bool_decide_eq_true_2 by done. by rewrite fmap_cons, nsum_cons.
  - by rewrite bool_decide_eq_false_2.
Qed.

(** What a debtor's instructions add up to is its net debit. *)
Lemma owed_net_debit obs ins h p :
  Nets (ob_flow <$> sort_obligations obs) ins -> Forall (fun o => ob_asset o = h) obs -> volume (ob_flow <$> obs) <= U128_MAX ->
  owed ins p = net_debit obs p.
Proof.
  intros HN Ha Hv. rewrite (owed_debit h).
  - rewrite (ns_paid _ _ HN). destruct (flows_perm _ _ (h, p) (fmap_Permutation ob_flow _ _ (sort_perm obs))) as [-> ->].
    destruct (one_asset_sums obs h p Ha) as [-> ->]. by rewrite net_debit_exact.
  - apply Forall_forall. intros x Hx. destruct (instruction_parties obs ins x HN Hx) as [(o & Ho & <- & _) _].
    rewrite Forall_forall in Ha. by apply Ha.
Qed.

Lemma not_debtor ins p :
  p ∉ debtors_in_order ins -> owed ins p = 0 /\ forall paid, paid_where (fun x => in_from x =? p) ins paid = 0.
Proof.
  intros Hp. assert (forall x, x ∈ ins -> in_from x <> p) as H by (intros x Hx E; apply Hp, debtors_elem; eauto). clear Hp.
  unfold owed, paid_where. induction ins as [|x ins IH]; [done|]. destruct IH as [IH1 IH2]; [intros y Hy; apply H; by right|].
  assert (in_from x <> p) as Hx by (apply H; left). split; [by rewrite filter_cons_False|]. intros [|y paid]; [done|].
  cbn [zip_with]. by rewrite nsum_cons, IH2, (proj2 (N.eqb_neq _ _)).
Qed.

Section batch_of_tnzo.
Context (sha256 : list N -> Digest) (hex : N -> Str) (V : Vm) (b : NetBatch) (now : N).
Abbreviation vault p := (collateral_vault sha256 p tnzo_id).
Context (Hvault : forall p q, is_address p -> is_address q -> vault p = vault q -> p = q).
Context (Hacc : acceptable (nt_obligations b)) (Hlen : (length (nt_obligations b) <= MAX_OBLIGATIONS_PER_BATCH)%nat).
Context (Hobs : Forall (fun o => ob_asset o = hex tnzo_id /\ is_address (ob_debtor o) /\ forall p, is_address p -> ob_creditor o <> vault p)
  (nt_obligations b)).
Context (Htotal : native_total (vm_ledger V) <= U128_MAX).

(** The batch nets, and the loop over its debtors goes through. *)
Lemma batch_progress :
  exists nb, compute_batch sha256 hex (nt_obligations b) = Ok nb /\ let ins := nb_instructions nb in
    (forall p, owed ins p = net_debit (nt_obligations b) p) /\
    Progress sha256 hex (nt_seq b) ins V (debtors_in_order ins)
      (foldl (settle_debtor sha256 hex tnzo_id (nt_seq b) ins now) (V, replicate (length ins) 0, []) (debtors_in_order ins)).
Proof.
  destruct (compute_batch_ok sha256 hex _ Hacc) as (nb & Hnb & _ & _ & _ & HN). exists nb. split; [done|]. intros ins. fold ins in HN.
  set (obs := nt_obligations b) in *. destruct Hacc as (_ & _ & Hvol). rewrite Forall_forall in Hobs.
  assert (Forall (fun o => ob_asset o = hex tnzo_id) obs) as Hassets by (apply Forall_forall; intros o Ho; by apply Hobs).
  split; [intros p; by eapply owed_net_debit|].
  apply (progress_all sha256 hex (nt_seq b) now ins V Hvault) with (D := []); [| |done| |apply progress_start|apply debtors_nodup|].
  - pose proof (ns_volume _ _ HN) as Ev. pose proof (net_debts_le (ob_flow <$> sort_obligations obs)) as Hle.
    rewrite (volume_perm _ _ (fmap_Permutation ob_flow _ _ (sort_perm obs))) in Hle. unfold volume in Ev. rewrite <-list_fmap_compose in Ev.
    change (nsum (in_amount <$> ins) = net_debts (ob_flow <$> sort_obligations obs)) in Ev. lia.
  - pose proof (ns_length _ _ HN) as Hl. rewrite length_fmap in Hl. unfold sort_obligations in Hl. rewrite merge_sort_Permutation in Hl.
    unfold MAX_OBLIGATIONS_PER_BATCH in Hlen. etrans; [|apply (N.leb_le 2048); reflexivity]. lia.
  - intros x p Hx Hp. destruct (instruction_parties obs ins x HN Hx) as [_ (o & Ho & <-)]. by apply Hobs.
  - apply Forall_forall. intros d (x & Hx & <-)%debtors_elem. destruct (instruction_parties obs ins x HN Hx) as [(o & Ho & _ & <-) _]. by apply Hobs.
Qed.
End batch_of_tnzo.

(** C16: a TNZO batch settles exactly. Where no obligation is owed to a collateral
    vault, each debtor's vault pays what the debtor owes net in the batch, or all
    it has where that is less; every creditor receives what the instructions to
    it were paid; an instruction is paid in full unless its debtor is short, and
    never more; exactly the debtors that are short are recorded as defaulted, and
    no TNZO is made or lost. *)
Theorem batch_settles sha256 hex empty_root hash_leaf hash_pair V b now :
  let vault p := collateral_vault sha256 p tnzo_id in
  let usable W p := usable_collateral sha256 (vm_ledger W) p tnzo_id in
  let net p := net_debit (nt_obligations b) p in
  (forall p q, is_address p -> is_address q -> vault p = vault q -> p = q) ->
  nt_asset b = tnzo_id -> acceptable (nt_obligations b) -> (length (nt_obligations b) <= MAX_OBLIGATIONS_PER_BATCH)%nat ->
  Forall (fun o => ob_asset o = hex tnzo_id /\ is_address (ob_debtor o) /\ forall p, is_address p -> ob_creditor o <> vault p)
    (nt_obligations b) ->
  native_total (vm_ledger V) <= U128_MAX ->
  exists V' s, settle sha256 hex empty_root hash_leaf hash_pair V b now = Ok V' /\
    (read_batch V' tnzo_id (nt_seq b) ≫= nt_settlement) = Some s /\
    let paid P := paid_where P (se_instructions s) (se_paid s) in
    (forall p, is_address p ->
       paid (fun x => in_from x =? p) = N.min (usable V p) (net p) /\
       usable V' p + paid (fun x => in_from x =? p) = usable V p) /\
    (forall a, (forall p, is_address p -> a <> vault p) ->
       balance (vm_ledger V') tnzo_id a = balance (vm_ledger V) tnzo_id a + paid (fun x => in_to x =? a)) /\
    (forall i x y, se_instructions s !! i = Some x -> se_paid s !! i = Some y ->
       y <= in_amount x /\ (net (in_from x) <= usable V (in_from x) -> y = in_amount x)) /\
    (forall p, is_address p -> (p ∈ nd_participant <$> se_defaults s <-> usable V p < net p) /\
       read_defaults V' p = read_defaults V p ++ (if usable V p <? net p then [(hex tnzo_id, nt_seq b)] else [])) /\
    native_total (vm_ledger V') = native_total (vm_ledger V).
Proof.
  intros vault usable net Hvault Ha Hacc Hlen Hobs Htotal.
  destruct (batch_progress sha256 hex V b now Hvault Hacc Hlen Hobs Htotal) as (nb & Hnb & Howed & HP).
  set (ins := nb_instructions nb) in *. fold net in Howed.
  assert (forall W p, usable W p = native (vm_ledger W) (vault p)) as Hus.
  { intros W p. unfold usable, usable_collateral. rewrite N.eqb_refl. by rewrite balance_native. }
  unfold settle. rewrite Hnb, Ha. cbn [rbind]. fold ins.
  destruct (foldl _ _ _) as [[V1 paid] defaults]. destruct HP as [P1 P2 P3 P4 P5 P6 P7 P8 P9 P10]. cbn [fst snd] in *.
  eexists _, _. split; [reflexivity|]. split.
  { unfold read_batch. cbn [with_batch vm_batches]. rewrite lookup_insert_eq. reflexivity. }
  cbn [se_instructions se_paid se_defaults with_batch vm_ledger].
  assert (forall p, (p ∈ debtors_in_order ins /\ had sha256 V p < owed ins p) <-> usable V p < net p) as Hshort.
  { intros p. rewrite Hus, <-Howed. split; [by intros [_ ?]|]. intros H. split; [|done].
    destruct (decide (p ∈ debtors_in_order ins)) as [|Hp]; [done|]. destruct (not_debtor ins p Hp) as [Hz _]. lia. }
  split_and!; [| | | |done].
  - intros p Hp. rewrite !Hus. cbn [with_batch vm_ledger]. split; [|exact (P6 p Hp)]. rewrite <-Howed.
    destruct (decide (p ∈ debtors_in_order ins)) as [Hin|Hn]; [exact (P8 p Hin)|]. destruct (not_debtor ins p Hn) as [-> Hz]. rewrite Hz. lia.
  - intros a Hav. rewrite !balance_native. exact (P7 a Hav).
  - intros i x y Hx Hy. destruct (P5 i x y Hx Hy) as [H1 H2]. split; [done|]. rewrite Hus, <-Howed. apply H2.
    apply debtors_elem. exists x. split; [by eapply list_elem_of_lookup_2|done].
  - intros p Hp. split.
    + rewrite P9, <-list_fmap_compose, list_elem_of_fmap. cbn. rewrite <-Hshort. split.
      * intros (q & -> & Hq%list_elem_of_filter). naive_solver.
      * intros [H1 H2]. exists p. split; [done|]. by apply list_elem_of_filter.
    + etrans; [apply P10|]. f_equal. destruct (N.ltb_spec (usable V p) (net p)) as [H|H].
      * by rewrite bool_decide_eq_true_2 by (by apply Hshort).
      * rewrite bool_decide_eq_false_2; [done|]. rewrite Hshort. lia.
Qed.

(** ** A concrete vault *)

Lemma domain_bytes : Forall (fun x => x < 256) COLLATERAL_DOMAIN.
Proof. eapply Forall_impl; [apply (all_le id 255); vm_compute; reflexivity|]. cbn. unfold id. lia. Qed.

Lemma vault1_bytes p a : Forall (fun x => x < 256) (COLLATERAL_DOMAIN ++ be_bytes 32 p ++ be_bytes 32 a).
Proof. rewrite !Forall_app. split_and!; [apply domain_bytes|apply be_bytes_bytes|apply be_bytes_bytes]. Qed.

Lemma vault1_inj p q a : is_address p -> is_address q -> vault1 p a = vault1 q a -> p = q.
Proof.
  intros Hp Hq E. unfold vault1, collateral_vault in E.
  assert (COLLATERAL_DOMAIN ++ be_bytes 32 p ++ be_bytes 32 a = COLLATERAL_DOMAIN ++ be_bytes 32 q ++ be_bytes 32 a) as El.
  { rewrite <-(be_bytes_from_be _ (vault1_bytes p a)), <-(be_bytes_from_be _ (vault1_bytes q a)), E. f_equal. }
  apply app_inv_head, app_inv_tail in El.
  rewrite <-(from_be_be_bytes 32 p), <-(from_be_be_bytes 32 q); [by rewrite El|exact Hq|exact Hp].
Qed.

Lemma from_be_append x y : from_be (x ++ y) = from_be x * 256 ^ N.of_nat (length y) + from_be y.
Proof.
  induction y as [|b y IH] using rev_ind; [rewrite app_nil_r; cbn; lia|].
  rewrite app_assoc, !from_be_app, IH, length_app. cbn [length]. rewrite Nat.add_1_r, Nat2N.inj_succ, N.pow_succ_r'. lia.
Qed.

Lemma vault1_large p a : 2 ^ 256 <= vault1 p a.
Proof.
  unfold vault1, collateral_vault. rewrite from_be_append. rewrite length_app, !be_bytes_length.
  assert (1 <= from_be COLLATERAL_DOMAIN) by (apply N.leb_le; vm_compute; reflexivity).
  change (256 ^ N.of_nat (32 + 32)) with (2 ^ 512). assert (2 ^ 256 <= 2 ^ 512) by (apply N.leb_le; vm_compute; reflexivity). nia.
Qed.

Definition posted : Vm := match post from_be 0 (funded 5 2000) 5 tnzo_id 1000 0 with Ok V => V | Err _ => funded 5 2000 end.
Definition committed (to : Address) : Vm := match pay_once to with Ok V => V | Err _ => posted end.

(** C17: collateral covers what is netted. Whatever is posted, withdrawn, committed
    and settled, and whatever else happens that takes no collateral, every open
    batch is on the list block execution settles from, and nobody's net debit in
    it exceeds what its vault can pay. *)
Theorem collateral_covers sha256 hex unhex empty_root hash_leaf hash_pair deposit_issuer E V0 V asset b p :
  EconomyLaws E ->
  (forall p q a, is_address p -> is_address q -> collateral_vault sha256 p a = collateral_vault sha256 q a -> p = q) ->
  (forall a, unhex (hex a) = Some a) ->
  vm_batches V0 = ∅ ->
  rtc (net_step sha256 hex unhex empty_root hash_leaf hash_pair deposit_issuer E) V0 V ->
  open_batch V asset = Some b -> is_address p ->
  hex asset ∈ vm_open V /\ net_debit (nt_obligations b) p <= usable_collateral sha256 (vm_ledger V) p asset.
Proof.
  intros HE Hv Hh H0 Hs Hb Hp. assert (Covered sha256 hex V0) as HC.
  { split; [by rewrite H0| |]; intros a b0; rewrite ?open_batch_spec; [intros (s & _ & Hs0 & _)|intros p0 _ (s & _ & Hs0 & _)%open_batch_spec];
      by rewrite H0 in Hs0. }
  assert (Covered sha256 hex V) as [_ C2 C3]; [|split; [by eapply C2|by eapply C3]].
  clear Hb H0. induction Hs as [|V1 V2 V3 H12 _ IH]; [done|]. apply IH. by eapply net_step_covered.
Qed.

Lemma collateral_covers_witness :
  exists b, open_batch (committed 6) tnzo_id = Some b /\
    net_debit (nt_obligations b) 5 = 495 /\ net_debit (nt_obligations b) 5 <= usable_collateral from_be (vm_ledger (committed 6)) 5 tnzo_id.
Proof.
  eexists. split; [vm_compute; reflexivity|]. split; [vm_compute; reflexivity|].
  apply (collateral_covers from_be hex1 unhex1 0 (fun x => x) (fun a b => a + b) 0 plain_economy (funded 5 2000) (committed 6) tnzo_id);
    [apply _|exact vault1_inj|done|done| |vm_compute; reflexivity|vm_compute; reflexivity].
  apply rtc_l with posted.
  - apply (StepPost _ _ _ _ _ _ _ _ _ 5 tnzo_id 1000 0); [|vm_compute; reflexivity]. intros q E.
    pose proof (vault1_large q tnzo_id) as H. unfold vault1 in H. rewrite <-E in H. by apply N.leb_le in H; vm_compute in H.
  - apply rtc_once. eapply (StepCommit _ _ _ _ _ _ _ _ _ (payment 5 6 500) [6] 100); [vm_compute; reflexivity|vm_compute; reflexivity].
Defined.

(** The vault of account 5 holds 500; it owes 495 to account 6 and 400 to
    account 7. *)
Definition short_batch : NetBatch :=
  mkNetBatch tnzo_id 0 1000 [mkObligation 5 6 (hex1 tnzo_id) 495; mkObligation 5 7 (hex1 tnzo_id) 400] None.

Definition short_vm : Vm := funded (vault1 5 tnzo_id) 500.

Lemma batch_settles_witness :
  exists V', settle from_be hex1 0 (fun x => x) (fun a b => a + b) short_vm short_batch 1000 = Ok V' /\
    read_defaults V' 5 = [(hex1 tnzo_id, 0)] /\ native_total (vm_ledger V') = native_total (vm_ledger short_vm).
Proof.
  assert (usable_collateral from_be (vm_ledger short_vm) 5 tnzo_id = 500) as Hu by (vm_compute; reflexivity).
  edestruct (batch_settles from_be hex1 0 (fun x => x) (fun a b => a + b) short_vm short_batch 1000) as (V' & s & E & _ & _ & _ & _ & HD & HT);
    [intros p q; apply vault1_inj|reflexivity| | | | |].
  - split_and!; [done| |apply N.leb_le; vm_compute; reflexivity]. repeat constructor; done.
  - apply Nat.leb_le. vm_compute. reflexivity.
  - assert (forall a p, a < 2 ^ 256 -> a <> vault1 p tnzo_id) as Hv by (intros a p Ha ->; pose proof (vault1_large p tnzo_id); lia).
    repeat constructor; intros; apply Hv; reflexivity.
  - apply N.leb_le. vm_compute. reflexivity.
  - exists V'. split; [exact E|]. split; [|exact HT]. destruct (HD 5) as [_ ->]; [reflexivity|]. rewrite Hu. vm_compute. reflexivity.
Defined.

(** ** Two batches that do not settle *)

(** C25: a payment to one's own vault makes TNZO. [funding::move_balance] reads the
    recipient's balance before it debits the sender, so a move from an account to
    itself leaves the account with the amount twice; and a netted plan whose
    split pays the opener's own collateral vault commits, so that settling its
    batch adds the net of the plan to the supply. *)
Theorem self_payment_mints :
  (forall L a n L', native_move L a a n = Ok L' -> balance L' tnzo_id a = balance L tnzo_id a + n) /\
  exists V V', pay_once (vault1 5 tnzo_id) = Ok V /\ settle_once (vault1 5 tnzo_id) 1000 = Ok V' /\
    native_total (vm_ledger V) = 1998 /\ native_total (vm_ledger V') = 2493.
Proof.
  split.
  - intros L a n L' (_ & _ & ->)%native_move_set. by rewrite set_balance_same.
  - eexists _, _. split_and!; vm_compute; reflexivity.
Qed.

Section blocks.
Context (sha256 : list N -> Digest) (hex : N -> Str) (unhex : Str -> option N).
Context (empty_root : Digest) (hash_leaf : Digest -> Digest) (hash_pair : Digest -> Digest -> Digest).

Lemma empty_batch_errs V h rest asset b now :
  vm_open V = h :: rest -> unhex h = Some asset -> open_batch V asset = Some b -> nt_obligations b = [] ->
  (Z.of_N (nt_closes_at_ms b) <= now)%Z ->
  begin_block sha256 hex unhex empty_root hash_leaf hash_pair V now = Err (NettingFailed EmptySet).
Proof.
  intros Ho Hu Hb He Hc. unfold begin_block. rewrite bool_decide_eq_false_2 by (by rewrite Ho). rewrite Ho. cbn [settle_open]. rewrite Hu. cbn [ok_or rbind].
  rewrite Hb, (proj2 (N.leb_le _ _)) by lia. cbn [andb Nat.ltb Nat.leb]. unfold settle. rewrite He. reflexivity.
Qed.
End blocks.

(** C26: a plan that pays nobody else stops the chain. A netted plan whose split
    pays only its opener commits and opens a batch without obligations; once the
    batch's epoch is over the first block, and every later one, fails to begin. *)
Theorem self_paid_plan_halts now :
  (1000 <= now)%Z ->
  exists V, pay_once 5 = Ok V /\
    begin_block from_be hex1 unhex1 0 (fun x => x) (fun a b => a + b) V now = Err (NettingFailed EmptySet).
Proof.
  intros Hn. exists (committed 5). split; [vm_compute; reflexivity|].
  eapply empty_batch_errs; [vm_compute; reflexivity|vm_compute; reflexivity|vm_compute; reflexivity|reflexivity|exact Hn].
Qed.

Lemma self_paid_plan_halts_witness : (1000 <= 1000)%Z /\ exists V, pay_once 5 = Ok V.
Proof. split; [done|]. destruct (self_paid_plan_halts 1000) as (V & H & _); [done|]. by exists V. Defined.
